(* ===== verification/_CoqProject ===== *)
-Q . S2P
Prelude.v
Address.v
Errors.v
Mailbox.v
Backpressure.v
ChildSpec.v
SupervisorLogic.v
ProcessGroups.v
Registry.v
Tokens.v
Waits.v
TimedWaits.v
Links.v
LinkTables.v
References.v
Observability.v
Actor.v
Signals.v
RtSignals.v
Requests.v
Serving.v
Monitors.v
Timers.v
Handles.v
Supervised.v
RemoteSpawn.v
Supervisor.v
DynamicSupervisor.v
ThreadsSupervisors.v
Pool.v
TypedGroups.v
Wire.v
RemoteRefs.v
Broadcast.v
Tcp.v
Libp2p.v
RemoteRuns.v
Listener.v
Libp2pRuns.v
Libp2pApi.v
Federation.v
SpawnServer.v
Broker.v
BrokerRuns.v
RemoteContext.v
NodeBuild.v
NodeLibp2p.v
Applications.v
SupervisorRuns.v
DynamicApi.v
ExampleServers.v
ExampleChats.v
MacroNames.v
MacroTypes.v
MacroProtocol.v
MacroActor.v
