(* ===== verification/Prelude.v ===== *)
(** * Spawned: a verification development

    Spawned is an actor library in the style of Erlang/OTP for Rust. An actor
    is a state with callbacks, run by a task (tokio, "tasks") or by a thread
    ("threads"); the two runtimes have the same source text up to [await].
    Actors have a prioritised mailbox, answer requests, can be linked and
    monitored, join process groups and register names, and are started and
    restarted by supervisors. Nodes exchange frames over TCP or libp2p, so
    that children, monitors, groups and names can be remote. Macros generate
    the messages and handlers of an actor from a trait. All paths below are
    relative to the repository.

    ** The parts and the files that model them

    The data of the library:
    - [Prelude]: results, the state monad [St] of the handlers, fallible
      calls [Call], the iterator idioms of the source ([position], [retain],
      [filter], sorting by a key), numbers at their width, tactics and hint
      databases.
    - [Address]: [address/src/lib.rs]. Ids are drawn from a 64-bit counter
      that wraps, the name of the local node is written once; the rest of
      the development sees the node through the class [ThisNode].
    - [Errors]: [concurrency/src/error.rs], [exit_request.rs] and
      [cluster/supervision_exit.rs]: exit reasons, the resolution of an
      actor's final reason, the wire form of a reason.
    - [ChildSpec]: [concurrency/src/child_spec.rs] and the constructors of
      [tasks/child_spec.rs] and [threads/child_spec.rs].

    One actor and its surroundings:
    - [Mailbox]: [concurrency/src/mailbox.rs], configuration, the four
      channels and the two receive loops.
    - [Backpressure]: [MailboxLimits] of the same source file, as a
      small-step system of any number of senders and the receiver, one step
      per atomic operation, lock or wait.
    - [Tokens]: [CancellationToken] of [rt/src/threads/mod.rs], interleaved
      at its atomic operations and its lock.
    - [Waits]: the waits for an exit of [concurrency/src/child_handle.rs],
      over a condition variable (threads) and a watch channel (tasks);
      [TimedWaits] the same with a clock, with time-outs, and the shutdown
      of a child that waits with one.
    - [Links]: [concurrency/src/link.rs] and the lifecycle requests of
      [concurrency/src/child_handle.rs], on one [Cell] per actor;
      [LinkTables] the same link tables with one step per lock, any number of
      threads at once.
    - [References]: [ActorRef], [Context], [ChildHandle] and [LinkEntry] as
      records of shared locations in a heap, and that programs on them do
      what [Links] does on cells.
    - [Actor]: [spawn], [run_actor], the epilogue and [start_linked_with] of
      [concurrency/src/tasks/actor.rs] and [threads/actor.rs], as a labelled
      transition system over all actors ([World], [step], [reachable]). A
      linked start spawns, enters the two ends of the link and looks whether
      the child is gone, and whatever may happen in between is an argument.
    - [Requests]: envelopes, [send], [request_raw], [request_with_timeout]
      of the same files and [concurrency/src/response.rs], with one oneshot
      channel per request; the value a handler returns is a label.
    - [Serving]: an actor of [Requests] whose handler is a function of its
      state, which may panic and end the actor, and the log of what it
      handled.
    - [Monitors]: [monitor] and [demonitor] with their watchers.
    - [Timers]: the [time.rs] and [stream.rs] of both runtimes and
      [send_message_on], with a clock.
    - [ProcessGroups]: [concurrency/src/pg.rs] and its federation
      [cluster/pg_sync.rs]; [TypedGroups] the typed half of the store.
    - [Registry]: [concurrency/src/registry.rs] (module [Values]) and
      [concurrency/src/cluster/named_registry.rs] (module [Names]).
    - [Observability]: [concurrency/src/observability/mod.rs].

    Supervision:
    - [SupervisorLogic]: [concurrency/src/supervisor/mod.rs], the policy
      engine: the intensity window, the decision taken on an exit, the batch
      restarts of OneForAll and RestForOne, back-off, child bookkeeping.
    - [Handles]: the interface [ChildEnv] between supervisors and actors,
      its laws [ChildLaws], and the shutdown routines of
      [concurrency/src/child_spec.rs] over it.
    - [Supervised]: the actors of [Actor] as an instance of that interface
      ([actor_env]), with a proof of its laws ([actor_laws]).
    - [RemoteSpawn]: the client side of
      [concurrency/src/cluster/remote_spawn.rs] and
      [cluster/supervision_remote.rs] over the interface [RemoteEnv].
    - [Supervisor]: [concurrency/src/tasks/supervisor.rs] and
      [threads/supervisor.rs], written against [ChildEnv] and [RemoteEnv].
    - [DynamicSupervisor]: [concurrency/src/dynamic_supervisor/mod.rs] and
      the [dynamic_supervisor.rs] of both runtimes; [DynamicApi] their
      messages, handlers and [DynamicSupervisorApi], on top of [Serving].
    - [ThreadsSupervisors]: the operations of the threads runtime by name.
    - [SupervisorRuns]: concrete supervisors on concrete actors, on which the
      general theorems are applied and what a supervisor does in critical
      situations is evaluated.
    - [Pool]: the choice of a member in [concurrency/src/pool.rs] and the
      builder of the [pool.rs] of both runtimes; [Broadcast]: casts, calls
      and dispatch to local and remote members, of their [pg.rs] and
      [pool.rs].

    Nodes:
    - [Wire]: [cluster/src/frame.rs] and
      [cluster/src/supervision_validate.rs].
    - [RemoteRefs]: [wire/src/lib.rs], [cluster/src/dispatch.rs],
      [router.rs], [transport.rs] and
      [concurrency/src/cluster/remote_actor_ref.rs] and [wire_dispatch.rs],
      against the interface [Delivers] of a transport; [RemoteRuns] concrete
      nodes.
    - [Tcp]: [cluster/src/tcp/transport.rs] and [listener.rs],
      [control.rs], [registry.rs], [pg_sync.rs], [supervision_sync.rs] and
      [protocol.rs], over byte streams; [Federation] the registries and
      groups behind its hooks; [Listener] the accept loop, its flag, and the
      threads of the connections.
    - [Libp2p]: [cluster/src/libp2p/mod.rs] and [codec.rs], the thread that
      drives the swarm and its callers; [Libp2pApi] its supervision
      requests and broadcasts; [Libp2pRuns] concrete runs.
    - [SpawnServer]: the serving side of remote spawns, of
      [concurrency/src/cluster/remote_spawn.rs] and the [remote_spawn.rs] of
      both runtimes.
    - [Broker]: [concurrency/src/cluster/supervision_broker.rs] and its
      helpers; [BrokerRuns] a node with its broker, actors and background
      tasks interleaved; [RemoteContext] the remote monitors and links of a
      [Context].
    - [NodeBuild] and [NodeLibp2p]: [concurrency/src/cluster/node.rs]
      without and with the feature [cluster-libp2p], and
      [node_readiness.rs].
    - [Signals]: [concurrency/src/shutdown_signal.rs] and the run of an
      application; [RtSignals] the signal listeners of
      [rt/src/threads/mod.rs]; [Applications] the builder and the start of
      [concurrency/src/application.rs] with its node.

    Macros, [macros/src/lib.rs]:
    - [MacroNames] names, types and their classification; [MacroTypes] what
      a type means in a module; [MacroProtocol] the macro [protocol];
      [MacroActor] the macros [actor], [remote_actor], [remote_message].

    Programs on the library, [examples/]:
    - [ExampleServers] the bank, the name server and the service registry,
      on top of [Serving]; [ExampleChats] the chat room and ping-pong.

    ** How state and operations correspond to the code

    A struct is a record with the fields of the source and a method that
    takes [&mut self] a function from the record to the record; handlers
    that also act on the system thread a world of type [W]. A [HashMap] is a
    [gmap]; where the code iterates over one, the order is that of
    [map_to_list], and theorems do not depend on it unless they say so.
    Errors are [Result]s or options. Durations and instants are integers in
    nanoseconds, counters are kept at their width ([u64], [u32], [usize] as
    64 bits). The shared [Arc]s of an actor (cancellation token, exit
    request, completion, trap flag, link table, mailbox) are the fields of
    its [Cell]; a [ChildHandle] or a [LinkEntry], which hold clones of those
    [Arc]s, are the actor's id. A call that may not return is a [Call] or
    returns an option, [None] when it waits for ever or panics, as said
    where it is defined.

    Concurrency is interleaving: each system has a step function or relation
    and its theorems speak of all runs. A user callback is not code of the
    library: a step that runs one is told its outcome ([CbReturned] or
    [CbPanicked]) and the value it returns, and what it does to other actors
    are further labels of the transition system, such as [LSend], [LAddLink] or
    [LKill]. Linking is three labels, one per table and one for the check
    that follows, unlinking two; the propagation of an exit to all linked
    actors is one step there and taken apart in [LinkTables].
    In [ChildEnv] everything else that happens in the system while a
    supervisor waits is chosen by the environment. In [Supervised] the
    supervisor itself is the actor [me] that stays in its receive loop while
    a handler runs, the windows in the start of a child are filled with moves
    of the other actors, and ids come from a counter that does not wrap; in
    [DynamicApi] the loop of that actor runs among its clients, and what its
    children do are moves of its state. Observability events are left out of
    the handlers and modelled in [Observability].

    Code of other crates is a parameter with named laws: serialization by
    postcard ([Codec], [CodecLaws]), the libp2p swarm ([SwarmOps],
    [SwarmLaws]), the operating system's sockets, signals and threads, the
    parser and printer of Rust syntax. Each is instantiated where a theorem
    that uses it is applied.

    ** What the theorems show

    - Supervision, of local children. A supervisor that has handled its
      [Exit] messages and has not been told to stop has exactly the children
      of its specs, each running, or exited for a reason its restart type
      does not restart, or lost in the window of its own start
      ([supervisor_guarantee], [child_lost_in_start]); [stopped] asks the
      children to end in reverse order and when it returns every child has
      exited ([stopped_terminates_all]). The dynamic supervisor keeps ids
      distinct, respects [max_children], finds every child it reports, and
      behaves as documented on each branch of its requests. Both keep the
      policy engine well-formed and in agreement with their tables
      ([engine_agrees]). All this is proved for every instance of [ChildEnv]
      that satisfies [ChildLaws]. Calls of the API of a dynamic supervisor
      take effect atomically among any number of clients ([api_atomic]).
    - Policy. The intensity tracker refines the count of restarts in a
      sliding window, no window sees more than [max_restarts]; a batch
      completes when all its targets have exited and restarts exactly
      those; each operation keeps ids, start indices and live actors
      well-formed when what it registers is fresh; back-off
      delays are consecutive and bounded; the shutdown order is the reverse
      of the start order.
    - Actors. A request to stop decides the exit reason; a cancelled actor
      completes; links are mutual under every interleaving of locks in which
      nobody links and unlinks one pair at once ([links_mutual]); references to an actor share its state;
      an exit affects exactly the linked actors; a monitor sends [Down] at
      most once, and does when its target has completed; waits for an exit
      return and no wake-up is lost; with a time-out they report every exit
      in time, and return within the time-out or, blocking a thread, within
      it times one more than the spurious wake-ups ([waits_exact]), and so
      does the shutdown of a child; a token fires each callback exactly once.
    - Messages. A request returns the value its handler returned for it, or
      an error that says what became of it; the depth counter of a bounded
      mailbox is exact and bounded under every interleaving, a stepwise send
      refines the atomic one, and a mailbox is drained by priority and in
      order. Timers keep their pace.
    - Groups and names. The process-group store refines a map of join
      counts, its typed half the actors that joined under a type; peers that
      apply its events agree with it as long as nobody joins twice; a name
      owned by the local node is changed by no remote event. Broadcasts ask
      each member once and report exactly the answers.
    - Nodes. Frames round-trip and respect the size limit; serving a
      connection does not depend on how the stream is cut; a request through
      a remote reference is that of the local recipient, over TCP and over
      libp2p; both transports serve a frame alike and bring the same answer
      to a supervision request; a listener accepts clients once and in order
      and ends when told to; the callers of the libp2p
      thread are answered at most once and none is lost; connecting
      federates names and groups in both directions; the exit of a remote
      child that was not killed and the [Down] of a remote monitor arrive
      exactly once; a spawn request is served, refused without effect, or
      panics in a context that is characterised; the supervision events recurse two levels
      deep; a built node has what its configuration asks for; the first
      signal after the dispatcher has subscribed shuts an application down,
      and a listener gets the first signal.
    - Macros. Which traits are protocols; calling a generated method sends
      the generated message; its names determine the methods; its bounds are
      those of the methods that exist; rewritten types keep their meaning.
    - Examples. The bank answers from a ledger kept in unbounded integers;
      the stores answer with what was stored last; users of a chat room hear
      what was said, once and in the order of the room; ping-pong has one
      ball for ever.
    - Deviations. [killed_child_kills_supervisor],
      [blocking_send_lost_wakeup], [rest_for_one_batch_stuck],
      [federation_keeps_stale_member], [name_clash_orphans_child],
      [link_signal_lost], [restarted_child_name_stale],
      [scoped_pool_misses_workers], [second_signal_lost],
      [down_lost_when_full], [child_exit_lost_in_spawn],
      [failed_request_not_told], [timed_out_start_still_starts],
      [blocking_cluster_start_panics], [qualification_misses],
      [timed_wait_overruns], [aborted_task_reads_alive],
      [child_lost_in_start], [link_unlink_race], [typed_join_interleaved],
      [kill_after_signal], [killed_child_ends_broker],
      [spawn_panics_in_async] and others
      exhibit runs on which the code does not do what its documentation
      says.

    ** Bounds and fuel

    Loops over finite data are structural. [retry_loop] has fuel
    [max_attempts + 1] and is shown never to run out of it. On channels that
    do not change one round of the receive loop of the tasks runtime decides
    the call, so that [recv_tasks] is total with any positive fuel; that of
    the threads runtime can spin once some channels are disconnected
    ([recv_threads_spins]), which cannot happen to a running actor, whose
    context keeps a sender of each channel. A cancelled
    actor needs at most five steps of its own: leaving the loop, the stop
    callback, propagation, clean-up and publication. The mutual recursion of
    publishing and applying supervision events has fuel two, proved to be
    enough ([publish_depth]). A state is [reachable]
    by fewer than [2^64 - 2] steps, so that the id counter does not wrap;
    histories of typed groups are shorter than [2^32], so that a join count
    does not overflow.

    ** What is not modelled

    - Sockets: a client of [Tcp] sees a map from addresses to servers and
      byte streams, [Listener] a queue of connections.
    - [rt]: apart from the token and the signal listeners it re-exports
      tokio, crossbeam and the standard library. [WarnOnBlocking] of
      [tasks/actor.rs] only logs.
    - Log lines, [Debug] implementations, getters and clones, and the
      functions that repeat one of the other runtime word for word: the
      model of the one is the model of both.
    - The other examples: they demonstrate supervisors, groups, mailboxes,
      clusters and signals with handlers that only log or sleep, or fetch a
      page from the web ([examples/updater]). *)

From stdpp Require Export base gmap strings list sorting fin_maps numbers relations.

(** ** Results

    Rust's [Result<T, E>]; [Option<T>] is [option]. *)

Inductive Result (A E : Type) : Type :=
| Ok (a : A)
| Err (e : E).
Arguments Ok {A E} a.
Arguments Err {A E} e.

Definition is_ok {A E} (r : Result A E) : bool :=
  match r with Ok _ => true | Err _ => false end.
Definition is_err {A E} (r : Result A E) : bool :=
  match r with Ok _ => false | Err _ => true end.

#[global] Instance Result_eq_dec {A E} `{EqDecision A} `{EqDecision E} :
  EqDecision (Result A E).
Proof. solve_decision. Defined.

(** ** Stateful code

    Handlers that mutate [self] and the world around it are functions
    [S -> A * S]; stdpp's monad notation [x ← m; k] sequences them. *)

Definition St (S A : Type) : Type := S → A * S.
#[global] Instance St_ret {S} : MRet (St S) := λ A a s, (a, s).
#[global] Instance St_bind {S} : MBind (St S) := λ A B k m s,
  let '(a, s') := m s in k a s'.
Definition st_get {S} : St S S := λ s, (s, s).
Definition st_modify {S} (f : S → S) : St S () := λ s, ((), f s).
Definition exec {S A} (m : St S A) (s : S) : S := snd (m s).

(** A [for] loop over a list, run for its effect. *)
Fixpoint for_each {S A} (f : A → St S ()) (l : list A) : St S () :=
  match l with
  | [] => mret ()
  | x :: l => f x ≫= λ _, for_each f l
  end.

(** ** Fallible calls

    A call that changes the state [S] and may fail; [None] when it does not
    return. [x ←? m; k] is the [?] operator: the first error ends the call. *)

Definition Call (S A E : Type) : Type := S → option (Result A E * S).
Definition call_of {S A E} (r : Result A E) : Call S A E := λ s, Some (r, s).
Definition call_bind {S A B E} (m : Call S A E) (k : A → Call S B E) : Call S B E := λ s,
  '(r, s) ← m s;
  match r with Ok a => k a s | Err e => Some (Err e, s) end.
Definition result_map_err {A E F} (f : E → F) (r : Result A E) : Result A F :=
  match r with Ok a => Ok a | Err e => Err (f e) end.
Definition map_err {S A E F} (f : E → F) (m : Call S A E) : Call S A F := λ s,
  '(r, s) ← m s; Some (result_map_err f r, s).
Notation "x ←? m ; k" := (call_bind m (λ x, k))
  (at level 20, m at level 100, k at level 200, right associativity).

(** ** Machine integers *)

Definition U32_MAX : Z := (2 ^ 32 - 1)%Z.
Definition U64_MAX : Z := (2 ^ 64 - 1)%Z.
Definition USIZE_MAX : Z := (2 ^ 64 - 1)%Z.

Definition saturating_add_u32 (a b : Z) : Z := Z.min (a + b)%Z U32_MAX.
Definition saturating_sub_u32 (a b : Z) : Z := Z.max (a - b)%Z 0%Z.
(** [AtomicU64::fetch_add(1)] and [AtomicUsize::fetch_add(1)] wrap around. *)
Definition wrapping_succ_u64 (a : N) : N := ((a + 1) mod 2 ^ 64)%N.

(** [std::time::Duration] in nanoseconds, and its largest value:
    [u64::MAX] seconds and 999,999,999 nanoseconds. *)
Abbreviation Duration := Z (only parsing).
Definition DURATION_MAX : Duration := (U64_MAX * 1000000000 + 999999999)%Z.
Definition from_secs (s : Z) : Duration := (s * 1000000000)%Z.
Definition from_millis (ms : Z) : Duration := (ms * 1000000)%Z.
Definition duration_saturating_mul (d : Duration) (k : Z) : Duration :=
  Z.min (d * k)%Z DURATION_MAX.

(** [std::time::Instant] as nanoseconds since an arbitrary origin;
    [duration_since] saturates to zero when the argument is later. *)
Abbreviation Instant := Z (only parsing).
Definition duration_since (now earlier : Instant) : Duration := Z.max 0%Z (now - earlier)%Z.

(** ** Iterator helpers *)

(** [Iterator::position]. *)
Fixpoint position {A} (p : A → bool) (l : list A) : option nat :=
  match l with
  | [] => None
  | x :: l => if p x then Some 0 else S <$> position p l
  end.

(** [Iterator::find]. *)
Fixpoint iter_find {A} (p : A → bool) (l : list A) : option A :=
  match l with
  | [] => None
  | x :: l => if p x then Some x else iter_find p l
  end.

(** [Iterator::filter] with a boolean test. *)
Fixpoint iter_filter {A} (p : A → bool) (l : list A) : list A :=
  match l with
  | [] => []
  | x :: l => if p x then x :: iter_filter p l else iter_filter p l
  end.

(** Modify the first element that satisfies [p] ([iter_mut().find(p)]). *)
Fixpoint modify_first {A} (p : A → bool) (f : A → A) (l : list A) : list A :=
  match l with
  | [] => []
  | x :: l => if p x then f x :: l else x :: modify_first p f l
  end.

(** ** Sums over lists of threads *)

Lemma sum_list_with_insert {A} (f : A → nat) (l : list A) i x y :
  l !! i = Some x → sum_list_with f (<[i:=y]> l) + f x = sum_list_with f l + f y.
Proof.
  revert i. induction l as [|a l IH]; intros [|i]; simpl; intros H; simplify_eq; [lia|].
  specialize (IH i H). lia.
Qed.

Lemma sum_list_with_fmap {A B} (f : B → nat) (g : A → B) (l : list A) :
  sum_list_with f (g <$> l) = sum_list_with (f ∘ g) l.
Proof. induction l as [|a l IH]; csimpl; [done|]. by rewrite IH. Qed.

Lemma sum_list_with_ext {A} (f g : A → nat) (l : list A) :
  (∀ x, f x = g x) → sum_list_with f l = sum_list_with g l.
Proof. intros H. induction l as [|a l IH]; simpl; [done|]. by rewrite H, IH. Qed.

Lemma sum_list_with_lookup {A} (f : A → nat) (l : list A) i x :
  l !! i = Some x → f x ≤ sum_list_with f l.
Proof.
  revert i. induction l as [|a l IH]; intros [|i]; simpl; intros H; simplify_eq; [lia|].
  specialize (IH i H). lia.
Qed.

Lemma sum_list_with_replicate {A} (f : A → nat) n x :
  sum_list_with f (replicate n x) = n * f x.
Proof. induction n as [|n IH]; simpl; [done|]. by rewrite IH. Qed.

Lemma list_filter_true {A} (P : A → Prop) `{∀ x, Decision (P x)} (l : list A) :
  (∀ x, x ∈ l → P x) → filter P l = l.
Proof.
  induction l as [|x l IH]; intros Hl; [done|]. rewrite filter_cons_True by (apply Hl; by left).
  f_equal. apply IH. intros y Hy. apply Hl. by right.
Qed.

(** ** Automation *)

Create HintDb spawned.
Create Rewrite HintDb spawned_simpl.

(** Split every boolean conjunction and case analysis in sight. *)
Ltac bool_simpl :=
  repeat match goal with
  | H : _ && _ = true |- _ => apply andb_true_iff in H as [? ?]
  | H : _ || _ = false |- _ => apply orb_false_iff in H as [? ?]
  | H : negb _ = true |- _ => apply negb_true_iff in H
  | H : negb _ = false |- _ => apply negb_false_iff in H
  | H : bool_decide _ = true |- _ => apply bool_decide_eq_true in H
  | H : bool_decide _ = false |- _ => apply bool_decide_eq_false in H
  end.

(** Goals [∀ j y, <[i:=x]> l !! j = Some y → ...]: the updated element and
    the others. *)
Ltac lookup_insert_cases :=
  let j := fresh "j" in let y := fresh "y" in let H := fresh "Hlookup" in
  let Hne := fresh "Hne" in
  intros j y H; apply list_lookup_insert_Some in H as [(-> & <- & _)|[Hne H]].

(** Case analysis on the innermost [match] or [if] of the goal. *)
Ltac case_step :=
  match goal with
  | |- context [match ?x with _ => _ end] =>
      lazymatch x with
      | context [match _ with _ => _ end] => fail
      | _ => let E := fresh "E" in destruct x eqn:E
      end
  end.

(** ** Lemmas on the iterator helpers *)

Section position.
Context {A : Type}.
Implicit Types (p : A → bool) (l : list A).

Lemma position_Some p l i :
  position p l = Some i →
  ∃ x, l !! i = Some x ∧ p x = true ∧ ∀ j y, j < i → l !! j = Some y → p y = false.
Proof.
  revert i. induction l as [|a l IH]; intros i; simpl; [done|].
  destruct (p a) eqn:Ha.
  - intros [= <-]. exists a. split; [done|]. split; [done|]. intros; lia.
  - destruct (position p l) as [k|] eqn:Hk; simpl; [|done]. intros [= <-].
    destruct (IH k eq_refl) as (x & Hx & Hp & Hmin).
    exists x. split; [done|]. split; [done|].
    intros [|j] y Hj Hy; simpl in Hy; [by simplify_eq|]. apply (Hmin j); [lia|done].
Qed.

Lemma position_None p l : position p l = None ↔ ∀ x, x ∈ l → p x = false.
Proof.
  induction l as [|a l IH]; simpl.
  - split; [|done]. intros _ x Hx. by apply not_elem_of_nil in Hx.
  - destruct (p a) eqn:Ha.
    + split; [done|]. intros H. rewrite H in Ha; [done|]. left.
    + rewrite fmap_None, IH. split.
      * intros H x [->|Hx]%elem_of_cons; auto.
      * intros H x Hx. apply H. by right.
Qed.

Lemma position_lt p l i : position p l = Some i → i < length l.
Proof. intros (x & Hx & _)%position_Some. by apply lookup_lt_Some in Hx. Qed.

Lemma iter_find_position p l : iter_find p l = position p l ≫= λ i, l !! i.
Proof.
  induction l as [|a l IH]; simpl; [done|].
  destruct (p a); [done|]. rewrite IH. by destruct (position p l).
Qed.

Lemma iter_find_Some p l x : iter_find p l = Some x → x ∈ l ∧ p x = true.
Proof.
  induction l as [|a l IH]; simpl; [done|]. destruct (p a) eqn:Ha.
  - intros [= <-]. split; [left|done].
  - intros H. destruct (IH H). split; [by right|done].
Qed.

Lemma iter_find_None p l : iter_find p l = None ↔ ∀ x, x ∈ l → p x = false.
Proof.
  rewrite iter_find_position, <- position_None.
  destruct (position p l) as [i|] eqn:Hi; simpl; [|done].
  split; [|done]. intros Hn. apply position_Some in Hi as (x & Hx & _). congruence.
Qed.

Lemma elem_of_iter_filter p l x : x ∈ iter_filter p l ↔ x ∈ l ∧ p x = true.
Proof.
  induction l as [|a l IH]; simpl.
  - rewrite !elem_of_nil. tauto.
  - destruct (p a) eqn:Ha; rewrite !elem_of_cons, ?IH; split.
    + intros [->|[? ?]]; tauto.
    + tauto.
    + tauto.
    + intros [[->|?] ?]; [congruence|tauto].
Qed.

Lemma iter_filter_app p l k : iter_filter p (l ++ k) = iter_filter p l ++ iter_filter p k.
Proof. induction l as [|a l IH]; simpl; [done|]. destruct (p a); simpl; by rewrite IH. Qed.

Lemma NoDup_iter_filter p l : NoDup l → NoDup (iter_filter p l).
Proof.
  induction 1 as [|x l Hx Hnd IH]; simpl; [constructor|]. destruct (p x); [|done].
  constructor; [|done]. rewrite elem_of_iter_filter. naive_solver.
Qed.

Lemma iter_filter_all p l : (∀ x, x ∈ l → p x = true) → iter_filter p l = l.
Proof.
  induction l as [|a l IH]; simpl; intros H; [done|].
  rewrite (H a) by left. f_equal. apply IH. intros x Hx. apply H. by right.
Qed.

Lemma iter_filter_none p l : (∀ x, x ∈ l → p x = false) → iter_filter p l = [].
Proof.
  induction l as [|a l IH]; simpl; intros H; [done|].
  rewrite (H a) by left. apply IH. intros x Hx. apply H. by right.
Qed.

Lemma iter_filter_length p l : length (iter_filter p l) ≤ length l.
Proof. induction l as [|a l IH]; simpl; [done|]. destruct (p a); simpl; lia. Qed.

Lemma length_modify_first p f l : length (modify_first p f l) = length l.
Proof. induction l as [|a l IH]; simpl; [done|]. destruct (p a); simpl; auto. Qed.

Lemma modify_first_None p f l : (∀ x, x ∈ l → p x = false) → modify_first p f l = l.
Proof.
  induction l as [|a l IH]; simpl; intros H; [done|].
  rewrite (H a) by left. f_equal. apply IH. intros x Hx. apply H. by right.
Qed.

Lemma modify_first_alter p f l i :
  position p l = Some i → modify_first p f l = alter f i l.
Proof.
  revert i. induction l as [|a l IH]; intros i; simpl; [done|].
  destruct (p a); [by intros [= <-]|].
  destruct (position p l) as [k|]; simpl; [|done]. intros [= <-]. simpl.
  by rewrite (IH k).
Qed.

Lemma fmap_modify_first {B} (g : A → B) p f l :
  (∀ x, g (f x) = g x) → g <$> modify_first p f l = g <$> l.
Proof.
  intros H. induction l as [|a l IH]; csimpl; [done|].
  destruct (p a); csimpl; [by rewrite H|by rewrite IH].
Qed.
End position.


#[export] Hint Rewrite @length_modify_first : spawned_simpl.

(** ** Stable sorting

    [slice::sort_by_key(|x| Reverse(key(x)))]: a stable sort by decreasing
    key. *)
Section sort_desc.
Context {A : Type} (key : A → nat).

Fixpoint insert_desc (x : A) (l : list A) : list A :=
  match l with
  | [] => [x]
  | y :: l' => if decide (key y ≤ key x) then x :: l else y :: insert_desc x l'
  end.

Definition sort_by_key_rev (l : list A) : list A := foldr insert_desc [] l.

Lemma insert_desc_perm x l : insert_desc x l ≡ₚ x :: l.
Proof.
  induction l as [|y l IH]; simpl; [done|]. destruct (decide _); [done|].
  rewrite IH. apply Permutation_swap.
Qed.

Lemma sort_by_key_rev_perm l : sort_by_key_rev l ≡ₚ l.
Proof. induction l as [|x l IH]; simpl; [done|]. by rewrite insert_desc_perm, IH. Qed.

Lemma insert_desc_sorted x l :
  StronglySorted (λ a b, key b ≤ key a) l →
  StronglySorted (λ a b, key b ≤ key a) (insert_desc x l).
Proof.
  induction 1 as [|y l Hs IH Hy]; simpl; [repeat constructor|].
  destruct (decide _) as [Hd|Hd].
  - constructor; [by constructor|]. constructor; [done|].
    eapply Forall_impl; [done|]. simpl. lia.
  - constructor; [done|]. rewrite insert_desc_perm. constructor; [lia|done].
Qed.

Lemma sort_by_key_rev_sorted l :
  StronglySorted (λ a b, key b ≤ key a) (sort_by_key_rev l).
Proof. induction l as [|x l IH]; simpl; [constructor|]. by apply insert_desc_sorted. Qed.

Lemma insert_desc_snoc x l :
  Forall (λ y, key x < key y) l → insert_desc x l = l ++ [x].
Proof.
  induction 1 as [|y l Hy Hl IH]; simpl; [done|].
  rewrite decide_False by lia. by rewrite IH.
Qed.

(** Strictly increasing keys are just reversed. *)
Lemma sort_by_key_rev_increasing l :
  StronglySorted (λ a b, key a < key b) l → sort_by_key_rev l = reverse l.
Proof.
  induction 1 as [|x l Hs IH Hx]; simpl; [done|].
  rewrite IH, reverse_cons. apply insert_desc_snoc. by apply Forall_reverse.
Qed.
End sort_desc.

(** [Iterator::max]. *)
Definition iter_max (l : list nat) : option nat :=
  match l with [] => None | x :: l => Some (foldl Nat.max x l) end.

Lemma foldl_ext {A B} (f g : B → A → B) (l : list A) (b : B) :
  (∀ x y, f x y = g x y) → foldl f b l = foldl g b l.
Proof. intros Hfg. revert b. induction l as [|a l IH]; intros b; simpl; [done|]. by rewrite Hfg, IH. Qed.

Lemma foldl_max_ge l x y : y = x ∨ y ∈ l → y ≤ foldl Nat.max x l.
Proof.
  revert x y. induction l as [|z l IH]; intros x y; simpl.
  - intros [->|Hy]; [done|]. by apply not_elem_of_nil in Hy.
  - intros Hy. assert (x `max` z ≤ foldl Nat.max (x `max` z) l) by (apply IH; by left).
    destruct Hy as [->|[->|Hy]%elem_of_cons]; [lia|lia|]. apply IH. by right.
Qed.

Lemma iter_max_Some l m y : iter_max l = Some m → y ∈ l → y ≤ m.
Proof.
  destruct l as [|x l]; simpl; [done|]. intros [= <-] [->|Hy]%elem_of_cons;
    apply foldl_max_ge; auto.
Qed.

Lemma StronglySorted_snoc {A} (R : A → A → Prop) l x :
  StronglySorted R l → Forall (λ y, R y x) l → StronglySorted R (l ++ [x]).
Proof.
  induction 1 as [|a l Hs IH Ha]; intros Hf; simpl; [repeat constructor|].
  apply Forall_cons in Hf as [Han Hf]. constructor; [auto|].
  apply Forall_app. split; [done|]. by apply Forall_singleton.
Qed.

(** When [p] holds of one position at most, [alter] at that position is a map. *)
Lemma alter_unique {A} (p : A → bool) (f : A → A) (l : list A) i :
  (∀ j k x y, l !! j = Some x → l !! k = Some y → p x = true → p y = true → j = k) →
  position p l = Some i → alter f i l = (λ x, if p x then f x else x) <$> l.
Proof.
  intros Hu Hp. apply position_Some in Hp as (x & Hx & Hpx & _).
  apply list_eq. intros j. rewrite list_lookup_fmap.
  destruct (decide (j = i)) as [->|Hne].
  - rewrite list_lookup_alter_eq, Hx. simpl. by rewrite Hpx.
  - rewrite list_lookup_alter_ne by done. destruct (l !! j) as [y|] eqn:Hj; [|done]. simpl.
    destruct (p y) eqn:Hpy; [|done]. by destruct Hne, (Hu j i y x).
Qed.

Lemma existsb_false {A} (p : A → bool) (l : list A) :
  existsb p l = false ↔ ∀ x, x ∈ l → p x = false.
Proof.
  induction l as [|a l IH]; simpl.
  - split; [|done]. intros _ x Hx. by apply not_elem_of_nil in Hx.
  - rewrite orb_false_iff, IH. setoid_rewrite elem_of_cons. naive_solver.
Qed.

Lemma existsb_true {A} (p : A → bool) (l : list A) :
  existsb p l = true ↔ ∃ x, x ∈ l ∧ p x = true.
Proof.
  induction l as [|a l IH]; simpl.
  - split; [done|]. intros (x & Hx & _). by apply not_elem_of_nil in Hx.
  - rewrite orb_true_iff, IH. setoid_rewrite elem_of_cons. naive_solver.
Qed.

Lemma list_alter_Some {A} (f : A → A) (l : list A) i j y :
  alter f i l !! j = Some y →
  (j = i ∧ ∃ x, l !! i = Some x ∧ y = f x) ∨ (j ≠ i ∧ l !! j = Some y).
Proof.
  destruct (decide (i = j)) as [->|Hne].
  - rewrite list_lookup_alter_eq. intros (x & -> & ?)%fmap_Some. left. eauto.
  - rewrite list_lookup_alter_ne by done. auto.
Qed.

Lemma StronglySorted_delete {A} (R : A → A → Prop) l i :
  StronglySorted R l → StronglySorted R (delete i l).
Proof.
  intros Hs. revert i. induction Hs as [|x l Hs IH Hx]; intros [|i]; simpl; try done; try constructor.
  - apply IH.
  - rewrite Forall_forall in *. intros y Hy. apply Hx.
    eapply elem_of_sublist; [done|]. apply sublist_delete.
Qed.

Lemma StronglySorted_fmap {A B} (R : A → A → Prop) (R' : B → B → Prop) (f : A → B) l :
  StronglySorted R l → (∀ x y, R x y → R' (f x) (f y)) → StronglySorted R' (f <$> l).
Proof.
  intros Hs HR. induction Hs as [|x l Hs IH Hx]; csimpl; constructor; [done|].
  rewrite Forall_fmap. eapply Forall_impl; [done|]. intros y. apply HR.
Qed.

Lemma foldl_max_elem l x : foldl Nat.max x l = x ∨ foldl Nat.max x l ∈ l.
Proof.
  revert x. induction l as [|z l IH]; intros x; simpl; [by left|].
  destruct (IH (x `max` z)) as [->|Hin]; [|right; by right].
  destruct (Nat.max_dec x z) as [->| ->]; [by left|right; left].
Qed.

Lemma iter_max_elem l m : iter_max l = Some m → m ∈ l.
Proof.
  destruct l as [|x l]; simpl; [done|]. intros [= <-].
  destruct (foldl_max_elem l x) as [->|Hin]; [left|by right].
Qed.
