(* ===== verification/Address.v ===== *)
(** * Actor identities and addresses

    Model of [address/src/lib.rs]: [ActorId], [NodeId], [ActorAddress], the
    per-process actor-id counter and the write-once local node name. *)

From S2P Require Import Prelude.

(** A newtype over [u64]; ids are unique per node only. *)
Record ActorId := from_raw { raw : N }.

(** A newtype over [String], e.g. "worker@127.0.0.1". *)
Record NodeId := node_new { as_str : string }.

Record ActorAddress := on { node : NodeId; actor_id : ActorId }.

Inductive Locality :=
| Local
| Remote (n : NodeId).

#[global] Instance ActorId_eq_dec : EqDecision ActorId.
Proof. solve_decision. Defined.
#[global] Instance NodeId_eq_dec : EqDecision NodeId.
Proof. solve_decision. Defined.
#[global] Instance ActorAddress_eq_dec : EqDecision ActorAddress.
Proof. solve_decision. Defined.
#[global] Instance Locality_eq_dec : EqDecision Locality.
Proof. solve_decision. Defined.

#[global] Program Instance ActorId_countable : Countable ActorId :=
  inj_countable' raw from_raw _.
Next Obligation. by intros []. Qed.
#[global] Program Instance NodeId_countable : Countable NodeId :=
  inj_countable' as_str node_new _.
Next Obligation. by intros []. Qed.
#[global] Program Instance ActorAddress_countable : Countable ActorAddress :=
  inj_countable' (λ a, (node a, actor_id a)) (λ '(n, i), on n i) _.
Next Obligation. by intros []. Qed.

Module Ids.

(** The static [NEXT_ACTOR_ID] starts at 1. *)
Definition NEXT_ACTOR_ID_INIT : N := 1.

(** [ActorId::next]: return the counter and bump it, wrapping at 2^64. *)
Definition next (counter : N) : ActorId * N :=
  (from_raw counter, wrapping_succ_u64 counter).

(** [n] successive allocations. *)
Fixpoint next_n (n : nat) (counter : N) : list ActorId * N :=
  match n with
  | O => ([], counter)
  | S n => let '(i, c) := next counter in
           let '(l, c') := next_n n c in (i :: l, c')
  end.

Lemma next_n_range n c l c' :
  (c + N.of_nat n < 2 ^ 64)%N →
  next_n n c = (l, c') →
  c' = (c + N.of_nat n)%N ∧ ∀ i, i ∈ l → (c ≤ raw i < c + N.of_nat n)%N.
Proof.
  revert c l c'. induction n as [|n IH]; intros c l c' Hb; simpl.
  - intros [= <- <-]. split; [lia|]. intros i Hi. by apply not_elem_of_nil in Hi.
  - unfold wrapping_succ_u64. rewrite N.mod_small by lia.
    destruct (next_n n (c + 1)%N) as [k d] eqn:E. intros [= <- <-].
    apply IH in E as [-> Hr]; [|lia]. split; [lia|].
    intros i [->|Hi]%elem_of_cons; simpl; [lia|]. specialize (Hr i Hi). lia.
Qed.

Lemma next_n_NoDup n c l c' :
  (c + N.of_nat n < 2 ^ 64)%N → next_n n c = (l, c') → NoDup l.
Proof.
  revert c l c'. induction n as [|n IH]; intros c l c' Hb; simpl.
  - intros [= <- <-]. constructor.
  - unfold wrapping_succ_u64. rewrite N.mod_small by lia.
    destruct (next_n n (c + 1)%N) as [k d] eqn:E. intros [= <- <-].
    constructor; [|by eapply (IH (c + 1)%N); [lia|]].
    apply next_n_range in E as [_ Hr]; [|lia]. intros Hin%Hr. simpl in Hin. lia.
Qed.

End Ids.

Module LocalNode.

(** The [OnceLock] [LOCAL_NODE] and the value of [SPAWNED_NODE_NAME]. *)
Record Slot := { cell : option NodeId; env : option string }.

Definition DEFAULT_NODE : NodeId := node_new "spawned@localhost".

(** [local_node]: [get_or_init] on the cell. *)
Definition local_node (s : Slot) : NodeId * Slot :=
  match cell s with
  | Some n => (n, s)
  | None =>
      let n := match env s with Some v => node_new v | None => DEFAULT_NODE end in
      (n, {| cell := Some n; env := env s |})
  end.

(** [set_local_node_for_test]: [OnceLock::set] fails silently when set. *)
Definition set_local_node_for_test (n : NodeId) (s : Slot) : Slot :=
  match cell s with
  | Some _ => s
  | None => {| cell := Some n; env := env s |}
  end.

(** Any sequence of uses of the cell. *)
Inductive use := UseGet | UseSet (n : NodeId).
Definition run_use (u : use) (s : Slot) : Slot :=
  match u with UseGet => snd (local_node s) | UseSet n => set_local_node_for_test n s end.

Lemma local_node_stable us s n :
  cell s = Some n → fst (local_node (fold_left (λ s u, run_use u s) us s)) = n.
Proof.
  revert s. induction us as [|u us IH]; intros s Hs; simpl.
  - unfold local_node. by rewrite Hs.
  - apply IH. destruct u; simpl; [unfold local_node|unfold set_local_node_for_test];
      by rewrite Hs.
Qed.

End LocalNode.

(** The node a process runs on, once [LOCAL_NODE] is initialised: read by
    every component through [ActorAddress::local] and [is_local]. *)
Class ThisNode := this_node : NodeId.

(** [ActorAddress::local]. *)
Definition local_addr `{ThisNode} (i : ActorId) : ActorAddress := on this_node i.

(** [ActorAddress::is_local]. *)
Definition is_local `{ThisNode} (a : ActorAddress) : bool :=
  bool_decide (node a = this_node).

(** [ActorAddress::locality]. *)
Definition locality `{ThisNode} (a : ActorAddress) : Locality :=
  if is_local a then Local else Remote (node a).

Section address.
Context `{ThisNode}.

Lemma is_local_local i : is_local (local_addr i) = true.
Proof. unfold is_local. by rewrite bool_decide_eq_true. Qed.

Lemma is_local_spec a : is_local a = true ↔ a = local_addr (actor_id a).
Proof.
  unfold is_local, local_addr. rewrite bool_decide_eq_true. destruct a as [n i]; simpl.
  split; [by intros ->|]. by intros [= ->].
Qed.

Lemma local_addr_inj i j : local_addr i = local_addr j → i = j.
Proof. by intros [= ->]. Qed.
End address.

#[export] Hint Resolve is_local_local : spawned.
