(* ===== verification/Errors.v ===== *)
(** * Exit reasons, errors and the resolution of an actor's final reason

    Models of [concurrency/src/error.rs], [concurrency/src/exit_request.rs]
    and of the conversions of [concurrency/src/cluster/supervision_exit.rs]. *)

From S2P Require Import Prelude Address.

Inductive ExitReason :=
| Normal
| Shutdown
| Panic (msg : string)
| Kill.

Inductive ActorError :=
| ActorStopped
| RequestTimeout
| MailboxFull
| RemoteUnreachable.

#[global] Instance ExitReason_eq_dec : EqDecision ExitReason.
Proof. solve_decision. Defined.
#[global] Instance ActorError_eq_dec : EqDecision ActorError.
Proof. solve_decision. Defined.

(** [ExitReason::is_abnormal]. *)
Definition is_abnormal (r : ExitReason) : bool :=
  match r with
  | Normal | Shutdown => false
  | Panic _ | Kill => true
  end.

(** [Display for ExitReason]. *)
Definition exit_reason_to_string (r : ExitReason) : string :=
  match r with
  | Normal => "normal"
  | Shutdown => "shutdown"
  | Panic msg => "panic: " +:+ msg
  | Kill => "kill"
  end.

(** [Display for ActorError]. *)
Definition actor_error_to_string (e : ActorError) : string :=
  match e with
  | ActorStopped => "Actor stopped"
  | RequestTimeout => "Request to Actor timed out"
  | MailboxFull => "Actor mailbox is full"
  | RemoteUnreachable => "Remote actor is unreachable"
  end.

(** The [Exit] message of [link.rs]. *)
Record Exit := mkExit { from : ActorAddress; reason : ExitReason }.

#[global] Instance Exit_eq_dec : EqDecision Exit.
Proof. solve_decision. Defined.

(** [resolve_exit_reason]: the requested reason wins and is consumed; a
    linked reason replaces only a [Normal] exit. The two slots are taken
    ([Option::take]), so the result carries their new contents. *)
Definition resolve_exit_reason (exit_reason : ExitReason)
    (requested linked : option ExitReason)
    : ExitReason * (option ExitReason * option ExitReason) :=
  match requested with
  | Some r => (r, (None, linked))
  | None =>
      match exit_reason with
      | Normal =>
          match linked with
          | Some l => (l, (None, None))
          | None => (exit_reason, (None, None))
          end
      | _ => (exit_reason, (None, linked))
      end
  end.

Module WireExit.

(** [WireExitReason] of [cluster/src/protocol.rs]. *)
Inductive WireExitReason :=
| WNormal
| WShutdown
| WPanic (msg : string)
| WKill.

#[global] Instance WireExitReason_eq_dec : EqDecision WireExitReason.
Proof. solve_decision. Defined.

Definition exit_reason_to_wire (r : ExitReason) : WireExitReason :=
  match r with
  | Normal => WNormal
  | Shutdown => WShutdown
  | Panic msg => WPanic msg
  | Kill => WKill
  end.

Definition wire_to_exit_reason (r : WireExitReason) : ExitReason :=
  match r with
  | WNormal => Normal
  | WShutdown => Shutdown
  | WPanic msg => Panic msg
  | WKill => Kill
  end.

Lemma wire_roundtrip r : wire_to_exit_reason (exit_reason_to_wire r) = r.
Proof. by destruct r. Qed.

Lemma wire_roundtrip_r w : exit_reason_to_wire (wire_to_exit_reason w) = w.
Proof. by destruct w. Qed.

End WireExit.
