(* ===== verification/Mailbox.v ===== *)
(** * Actor mailboxes

    Model of [concurrency/src/mailbox.rs]: the configuration, the four
    prioritised channels and the receive loop of both runtimes
    ([TasksMailboxReceiver::recv], [ThreadsMailboxReceiver::recv]). The depth
    counter and the sends that use it are modelled in [Backpressure]. *)

From S2P Require Import Prelude Address Errors.

(** ** Configuration *)

Inductive BackpressureMode := FailFast | Block.

Record MailboxConfig := mkMailboxConfig {
  cfg_capacity : option N;
  cfg_mode : BackpressureMode
}.

#[global] Instance BackpressureMode_eq_dec : EqDecision BackpressureMode.
Proof. solve_decision. Defined.
#[global] Instance MailboxConfig_eq_dec : EqDecision MailboxConfig.
Proof. solve_decision. Defined.

Definition DEFAULT_WORKER_CAPACITY : N := 64.

Definition unbounded : MailboxConfig := mkMailboxConfig None FailFast.

Definition default_worker : MailboxConfig :=
  mkMailboxConfig (Some DEFAULT_WORKER_CAPACITY) FailFast.

(** [bounded] and [bounded_blocking] assert a positive capacity: [None] is
    the panic. *)
Definition bounded (capacity : N) : option MailboxConfig :=
  if decide (0 < capacity)%N then Some (mkMailboxConfig (Some capacity) FailFast) else None.

Definition bounded_blocking (capacity : N) : option MailboxConfig :=
  if decide (0 < capacity)%N then Some (mkMailboxConfig (Some capacity) Block) else None.

Inductive OsSignal := CtrlC | Terminate.

Inductive MailboxItem (M : Type) :=
| Message (m : M)
| Signal (s : OsSignal)
| ExitItem (e : Exit)
| ShutdownItem.
Arguments Message {M} m.
Arguments Signal {M} s.
Arguments ExitItem {M} e.
Arguments ShutdownItem {M}.

Inductive MailboxRuntime := Tasks | Threads.

#[global] Instance OsSignal_eq_dec : EqDecision OsSignal.
Proof. solve_decision. Defined.
#[global] Instance MailboxRuntime_eq_dec : EqDecision MailboxRuntime.
Proof. solve_decision. Defined.

(** ** Channels and the receive loop *)

Module Receiver.

(** An unbounded channel as its receiver sees it: the queued items and
    whether a sender is left. *)
Record Chan (A : Type) := mkChan { queue : list A; connected : bool }.
Arguments mkChan {A} queue connected.
Arguments queue {A} c.
Arguments connected {A} c.

Inductive TryRecv (A : Type) :=
| Got (a : A) (c : Chan A)
| Empty
| Disconnected.
Arguments Got {A} a c.
Arguments Empty {A}.
Arguments Disconnected {A}.

Definition try_recv {A} (c : Chan A) : TryRecv A :=
  match queue c with
  | a :: q => Got a (mkChan q (connected c))
  | [] => if connected c then Empty else Disconnected
  end.

(** [TasksMailboxReceiver] and [ThreadsMailboxReceiver] have the same
    fields. *)
Record MailboxReceiver (M : Type) := mkReceiver {
  user : Chan M;
  signal : Chan OsSignal;
  stop : Chan ();
  supervision : Chan Exit;
  user_closed : bool;
  signal_closed : bool;
  stop_closed : bool;
  supervision_closed : bool
}.
Arguments mkReceiver {M}.
Arguments user {M}. Arguments signal {M}. Arguments stop {M}.
Arguments supervision {M}. Arguments user_closed {M}. Arguments signal_closed {M}.
Arguments stop_closed {M}. Arguments supervision_closed {M}.

Section recv.
Context {M : Type}.
Implicit Types r : MailboxReceiver M.

(** [channel()]: four fresh channels. *)
Definition channel : MailboxReceiver M :=
  mkReceiver (mkChan [] true) (mkChan [] true) (mkChan [] true) (mkChan [] true)
    false false false false.

(** One source of items: what the loop does with it. [Polled] is an
    early return, [Fell] falls through with the updated receiver. *)
Inductive Poll :=
| Polled (item : MailboxItem M) (r : MailboxReceiver M)
| Fell (r : MailboxReceiver M).

Definition poll_signal r : Poll :=
  if signal_closed r then Fell r else
  match try_recv (signal r) with
  | Got s c => Polled (Signal s)
      (mkReceiver (user r) c (stop r) (supervision r)
         (user_closed r) (signal_closed r) (stop_closed r) (supervision_closed r))
  | Empty => Fell r
  | Disconnected => Fell
      (mkReceiver (user r) (signal r) (stop r) (supervision r)
         (user_closed r) true (stop_closed r) (supervision_closed r))
  end.

Definition poll_stop r : Poll :=
  if stop_closed r then Fell r else
  match try_recv (stop r) with
  | Got _ c => Polled ShutdownItem
      (mkReceiver (user r) (signal r) c (supervision r)
         (user_closed r) (signal_closed r) (stop_closed r) (supervision_closed r))
  | Empty => Fell r
  | Disconnected => Fell
      (mkReceiver (user r) (signal r) (stop r) (supervision r)
         (user_closed r) (signal_closed r) true (supervision_closed r))
  end.

Definition poll_supervision r : Poll :=
  if supervision_closed r then Fell r else
  match try_recv (supervision r) with
  | Got e c => Polled (ExitItem e)
      (mkReceiver (user r) (signal r) (stop r) c
         (user_closed r) (signal_closed r) (stop_closed r) (supervision_closed r))
  | Empty => Fell r
  | Disconnected => Fell
      (mkReceiver (user r) (signal r) (stop r) (supervision r)
         (user_closed r) (signal_closed r) (stop_closed r) true)
  end.

Definition poll_user r : Poll :=
  if user_closed r then Fell r else
  match try_recv (user r) with
  | Got m c => Polled (Message m)
      (mkReceiver c (signal r) (stop r) (supervision r)
         (user_closed r) (signal_closed r) (stop_closed r) (supervision_closed r))
  | Empty => Fell r
  | Disconnected => Fell
      (mkReceiver (user r) (signal r) (stop r) (supervision r)
         true (signal_closed r) (stop_closed r) (supervision_closed r))
  end.

Definition poll_then (p : Poll) (k : MailboxReceiver M → Poll) : Poll :=
  match p with Polled i r => Polled i r | Fell r => k r end.

(** The four [try_recv] blocks, in source order. *)
Definition poll_all r : Poll :=
  poll_then (poll_signal r) (λ r, poll_then (poll_stop r) (λ r,
    poll_then (poll_supervision r) poll_user)).

Definition all_closed r : bool :=
  signal_closed r && stop_closed r && supervision_closed r && user_closed r.

(** What a call of [recv] does on channels that do not change while it
    runs: return an item, return [None], wait in [select!] for another
    item, panic in [select!], or spin. *)
Inductive Recv :=
| Returned (item : option (MailboxItem M)) (r : MailboxReceiver M)
| Waits (r : MailboxReceiver M)
| Panics (r : MailboxReceiver M)
| OutOfFuel.

Inductive Source := SrcSignal | SrcStop | SrcSupervision | SrcUser.

Definition chan_ready {A} (c : Chan A) : bool :=
  match queue c with [] => negb (connected c) | _ => true end.

(** A [recv] operation completes when its channel has an item or is
    disconnected. *)
Definition src_ready r (s : Source) : bool :=
  match s with
  | SrcSignal => chan_ready (signal r)
  | SrcStop => chan_ready (stop r)
  | SrcSupervision => chan_ready (supervision r)
  | SrcUser => chan_ready (user r)
  end.

Definition src_closed r (s : Source) : bool :=
  match s with
  | SrcSignal => signal_closed r
  | SrcStop => stop_closed r
  | SrcSupervision => supervision_closed r
  | SrcUser => user_closed r
  end.

(** The arm of the chosen source: an item is returned, a disconnection
    marks the channel closed and goes round the loop. *)
Definition select_arm r (s : Source) : Poll :=
  match s with
  | SrcSignal => poll_signal
      (mkReceiver (user r) (signal r) (stop r) (supervision r)
         (user_closed r) false (stop_closed r) (supervision_closed r))
  | SrcStop => poll_stop
      (mkReceiver (user r) (signal r) (stop r) (supervision r)
         (user_closed r) (signal_closed r) false (supervision_closed r))
  | SrcSupervision => poll_supervision
      (mkReceiver (user r) (signal r) (stop r) (supervision r)
         (user_closed r) (signal_closed r) (stop_closed r) false)
  | SrcUser => poll_user
      (mkReceiver (user r) (signal r) (stop r) (supervision r)
         false (signal_closed r) (stop_closed r) (supervision_closed r))
  end.

Definition sources : list Source := [SrcSignal; SrcStop; SrcSupervision; SrcUser].

(** The biased [select!] of the tasks runtime: the branches of closed
    channels are disabled by their guards; with every branch disabled and
    no [else] branch the macro panics. *)
Definition select_tasks r (again : MailboxReceiver M → Recv) : Recv :=
  let enabled := iter_filter (λ s, negb (src_closed r s)) sources in
  match enabled with
  | [] => Panics r
  | _ =>
      match iter_find (src_ready r) enabled with
      | None => Waits r
      | Some s =>
          match select_arm r s with
          | Polled i r' => Returned (Some i) r'
          | Fell r' => again r'
          end
      end
  end.

(** [TasksMailboxReceiver::recv]. *)
Fixpoint recv_tasks (fuel : nat) r : Recv :=
  match fuel with
  | O => OutOfFuel
  | S fuel =>
      if all_closed r then Returned None r else
      match poll_all r with
      | Polled i r' => Returned (Some i) r'
      | Fell r' => select_tasks r' (recv_tasks fuel)
      end
  end.

(** The crossbeam [select!] of the threads runtime has no guards: a
    disconnected channel is always ready with [Err], also one already
    marked closed. [pick] is the choice among the ready operations. *)
Definition select_threads (pick : list Source → option Source) r
    (again : MailboxReceiver M → Recv) : Recv :=
  match pick (iter_filter (src_ready r) sources) with
  | None => Waits r
  | Some s =>
      match select_arm r s with
      | Polled i r' => Returned (Some i) r'
      | Fell r' => again r'
      end
  end.

(** [ThreadsMailboxReceiver::recv]. *)
Fixpoint recv_threads (pick : list Source → option Source) (fuel : nat) r : Recv :=
  match fuel with
  | O => OutOfFuel
  | S fuel =>
      if all_closed r then Returned None r else
      match poll_all r with
      | Polled i r' => Returned (Some i) r'
      | Fell r' => select_threads pick r' (recv_threads pick fuel)
      end
  end.

(** ** The mailbox as one priority queue

    [pending] lists what is queued in the order [recv] hands it out: OS
    signals, stops, linked exits, then user messages. *)
Definition pending r : list (MailboxItem M) :=
  (Signal <$> queue (signal r)) ++ ((λ _, ShutdownItem) <$> queue (stop r)) ++
  (ExitItem <$> queue (supervision r)) ++ (Message <$> queue (user r)).

(** A channel marked closed was seen empty without senders. *)
Definition chan_dead {A} (c : Chan A) : Prop := queue c = [] ∧ connected c = false.

Record wf r : Prop := {
  wf_user : user_closed r = true → chan_dead (user r);
  wf_signal : signal_closed r = true → chan_dead (signal r);
  wf_stop : stop_closed r = true → chan_dead (stop r);
  wf_supervision : supervision_closed r = true → chan_dead (supervision r)
}.

(** What polling all four channels achieves. *)
Definition poll_spec r (p : Poll) : Prop :=
  match p with
  | Polled i r' => pending r = i :: pending r' ∧ wf r'
  | Fell r' =>
      pending r = [] ∧ wf r' ∧ user r' = user r ∧ signal r' = signal r ∧
      stop r' = stop r ∧ supervision r' = supervision r ∧
      (∀ s, src_closed r' s = src_ready r s)
  end.

Ltac chan_cases r :=
  destruct r as [[uq uc] [sq sc] [tq tc] [vq vc] u1 s1 t1 v1];
  destruct uq, uc, sq, sc, tq, tc, vq, vc, u1, s1, t1, v1; simpl in *.

Lemma poll_all_spec r : wf r → poll_spec r (poll_all r).
Proof.
  intros [Hu Hs Ht Hv].
  destruct r as [[uq uc] [sq sc] [tq tc] [vq vc] u1 s1 t1 v1]; simpl in *.
  unfold poll_all, poll_signal, poll_stop, poll_supervision, poll_user, try_recv,
    poll_then, poll_spec, pending, chan_dead in *; simpl in *.
  destruct s1, sq as [|s0 sq], sc; try (destruct (Hs eq_refl); simplify_eq; done);
    simpl in *; try (split; [done|by split; simpl]);
  (destruct t1, tq as [|[] tq], tc; try (destruct (Ht eq_refl); simplify_eq; done);
    simpl in *; try (split; [done|by split; simpl]);
  (destruct v1, vq as [|v0 vq], vc; try (destruct (Hv eq_refl); simplify_eq; done);
    simpl in *; try (split; [done|by split; simpl]);
  (destruct u1, uq as [|u0 uq], uc; try (destruct (Hu eq_refl); simplify_eq; done);
    simpl in *; try (split; [done|by split; simpl]);
    (split; [done|split; [by split; simpl|]]); repeat (split; [done|]); by intros []))).
Qed.

(** What [recv] must do: hand out the head of [pending]; with nothing
    queued, end when every channel was seen closed, and otherwise wait
    for as long as a sender is left. *)
Definition recv_spec r (out : Recv) : Prop :=
  match out with
  | Returned (Some i) r' => pending r = i :: pending r' ∧ wf r'
  | Returned None r' => pending r = [] ∧ (∀ s, src_ready r s = true) ∧ wf r'
  | Waits r' => pending r = [] ∧ (∃ s, src_ready r s = false) ∧ wf r' ∧ pending r' = []
  | Panics r' => pending r = [] ∧ all_closed r = false ∧ ∀ s, src_ready r s = true
  | OutOfFuel => False
  end.

Lemma all_closed_spec r : all_closed r = true ↔ ∀ s, src_closed r s = true.
Proof.
  unfold all_closed. rewrite !andb_true_iff. split.
  - by intros [[[? ?] ?] ?] [].
  - intros H. split; [split; [split|]|];
      [apply (H SrcSignal)|apply (H SrcStop)|apply (H SrcSupervision)|apply (H SrcUser)].
Qed.

Lemma closed_ready r s : wf r → src_closed r s = true → src_ready r s = true.
Proof.
  intros [Hu Hs Ht Hv]. destruct s; simpl; unfold chan_ready; intros H;
    [destruct (Hs H) as [-> ->]|destruct (Ht H) as [-> ->]
    |destruct (Hv H) as [-> ->]|destruct (Hu H) as [-> ->]]; done.
Qed.

Lemma closed_pending r : wf r → (∀ s, src_closed r s = true) → pending r = [].
Proof.
  intros [Hu Hs Ht Hv] H. unfold pending.
  destruct (Hs (H SrcSignal)) as [-> _], (Ht (H SrcStop)) as [-> _],
    (Hv (H SrcSupervision)) as [-> _], (Hu (H SrcUser)) as [-> _]. done.
Qed.

Lemma elem_of_sources (s : Source) : s ∈ sources.
Proof. destruct s; unfold sources; set_solver. Qed.

Lemma src_ready_same r r' s :
  user r' = user r → signal r' = signal r → stop r' = stop r →
  supervision r' = supervision r → src_ready r' s = src_ready r s.
Proof. intros H1 H2 H3 H4. destruct s; simpl; congruence. Qed.

Lemma pending_same r r' :
  user r' = user r → signal r' = signal r → stop r' = stop r →
  supervision r' = supervision r → pending r' = pending r.
Proof. intros H1 H2 H3 H4. unfold pending. congruence. Qed.

Lemma recv_tasks_step r fuel : wf r → recv_spec r (recv_tasks (S fuel) r).
Proof.
  intros Hwf. simpl. destruct (all_closed r) eqn:Hc.
  { pose proof (proj1 (all_closed_spec r) Hc) as Hc'. simpl.
    split; [by apply closed_pending|]. split; [|done].
    intros s. apply closed_ready; auto. }
  pose proof (poll_all_spec r Hwf) as Hp. destruct (poll_all r) as [i r'|r']; [done|].
  destruct Hp as (Hpend & Hwf' & Hu & Hs & Ht & Hv & Hcl).
  assert (Hready : ∀ s, src_ready r' s = src_ready r s) by (intros; by apply src_ready_same).
  unfold select_tasks.
  destruct (iter_filter (λ s, negb (src_closed r' s)) sources) as [|s0 en] eqn:Hen.
  - simpl. split; [done|]. split; [done|]. intros s. rewrite <- Hcl.
    destruct (src_closed r' s) eqn:Hsc; [done|].
    assert (s ∈ iter_filter (λ s, negb (src_closed r' s)) sources) as Hin.
    { apply elem_of_iter_filter. rewrite Hsc. split; [apply elem_of_sources|done]. }
    rewrite Hen in Hin. by apply not_elem_of_nil in Hin.
  - destruct (iter_find (src_ready r') (s0 :: en)) as [s|] eqn:Hf.
    + exfalso. apply iter_find_Some in Hf as [Hin Hr]. rewrite <- Hen in Hin.
      apply elem_of_iter_filter in Hin as [_ Hn].
      rewrite Hready, <- Hcl in Hr. by rewrite Hr in Hn.
    + simpl. split; [done|]. split; [|split; [done|]].
      * exists s0. assert (s0 ∈ s0 :: en) as Hin by left. rewrite <- Hen in Hin.
        apply elem_of_iter_filter in Hin as [_ Hn]. rewrite <- Hcl.
        by destruct (src_closed r' s0).
      * by rewrite (pending_same r r').
Qed.

(** A choice function for [select!]: it picks a ready operation. *)
Definition valid_pick (pick : list Source → option Source) : Prop :=
  ∀ l, match pick l with None => l = [] | Some s => s ∈ l end.

(** Going round the threads loop on a source already marked closed
    changes nothing. *)
Lemma select_arm_closed r s :
  wf r → src_closed r s = true → select_arm r s = Fell r.
Proof.
  intros [Hu Hs Ht Hv] H.
  destruct r as [[uq uc] [sq sc] [tq tc] [vq vc] u1 s1 t1 v1], s; simpl in *;
    rewrite H in *; unfold chan_dead in *; simpl in *;
    [destruct (Hs eq_refl)|destruct (Ht eq_refl)|destruct (Hv eq_refl)
    |destruct (Hu eq_refl)]; by subst.
Qed.

Lemma poll_all_stable r :
  wf r → pending r = [] → (∀ s, src_closed r s = src_ready r s) → poll_all r = Fell r.
Proof.
  intros [Hu Hs Ht Hv] Hp Hc.
  pose proof (Hc SrcSignal) as H1. pose proof (Hc SrcStop) as H2.
  pose proof (Hc SrcSupervision) as H3. pose proof (Hc SrcUser) as H4.
  destruct r as [[uq uc] [sq sc] [tq tc] [vq vc] u1 s1 t1 v1]; simpl in *.
  unfold pending, chan_ready in *; simpl in *.
  destruct sq; [|done]. destruct tq; [|done]. destruct vq; [|done]. destruct uq; [|done].
  simpl in *. subst. unfold poll_all, poll_then, poll_signal, poll_stop, poll_supervision,
    poll_user; simpl. destruct sc, tc, vc, uc; done.
Qed.

(** With nothing queued, one sender gone and another left, the guardless
    [select!] keeps choosing the closed channel. *)
Lemma recv_threads_spins_stable pick r fuel :
  valid_pick pick → wf r → pending r = [] →
  (∀ s, src_closed r s = src_ready r s) →
  (∃ s, src_ready r s = true) → (∃ s, src_ready r s = false) →
  recv_threads pick fuel r = OutOfFuel.
Proof.
  intros Hpick Hwf Hp Hc [s1 Hs1] [s2 Hs2]. induction fuel as [|fuel IH]; [done|].
  simpl. destruct (all_closed r) eqn:Hall.
  { rewrite all_closed_spec in Hall. specialize (Hall s2). congruence. }
  rewrite poll_all_stable by done. unfold select_threads.
  specialize (Hpick (iter_filter (src_ready r) sources)).
  destruct (pick _) as [s|].
  - apply elem_of_iter_filter in Hpick as [_ Hr].
    rewrite select_arm_closed by (done || by rewrite Hc). done.
  - assert (s1 ∈ iter_filter (src_ready r) sources) as Hin.
    { apply elem_of_iter_filter. split; [apply elem_of_sources|done]. }
    rewrite Hpick in Hin. by apply not_elem_of_nil in Hin.
Qed.

Lemma all_closed_false r s : src_ready r s = false → wf r → all_closed r = false.
Proof.
  intros H Hwf. destruct (all_closed r) eqn:E; [|done].
  rewrite all_closed_spec in E. specialize (E s).
  apply closed_ready in E; [congruence|done].
Qed.

(** Calling [recv], of either runtime, as long as it returns an item. *)
Fixpoint drain (recv : MailboxReceiver M → Recv) (n : nat) r : list (MailboxItem M) * MailboxReceiver M :=
  match n with
  | O => ([], r)
  | S n =>
      match recv r with
      | Returned (Some i) r' => let '(l, r'') := drain recv n r' in (i :: l, r'')
      | _ => ([], r)
      end
  end.

Lemma recv_head r i rest fuel pick :
  wf r → pending r = i :: rest →
  ∃ r', recv_tasks (S fuel) r = Returned (Some i) r' ∧
        recv_threads pick (S fuel) r = Returned (Some i) r' ∧
        pending r' = rest ∧ wf r'.
Proof.
  intros Hwf Hp. simpl. destruct (all_closed r) eqn:Hc.
  { rewrite all_closed_spec in Hc. rewrite closed_pending in Hp; done. }
  pose proof (poll_all_spec r Hwf) as Hs. destruct (poll_all r) as [j r'|r'].
  - destruct Hs as [Hs Hwf']. rewrite Hp in Hs. simplify_eq. by exists r'.
  - destruct Hs as [Hs _]. congruence.
Qed.
End recv.

(** C31: repeatedly receiving empties a well-formed mailbox in priority order:
    every queued OS signal, then every stop request, then every linked exit,
    then every user message, each channel first-in first-out, with nothing
    lost or duplicated. This holds of the [recv] of the tasks runtime and of
    that of the threads runtime, whatever [select!] would choose there. *)
Theorem recv_drains_by_priority {M} (pick : list Source → option Source) fuel (r : MailboxReceiver M) :
  wf r →
  ∃ r', drain (recv_tasks (S fuel)) (length (pending r)) r = (pending r, r') ∧
    drain (recv_threads pick (S fuel)) (length (pending r)) r = (pending r, r') ∧ pending r' = [] ∧ wf r'.
Proof.
  intros Hwf. remember (pending r) as l eqn:Hl. revert r Hwf Hl.
  induction l as [|i l IH]; intros r Hwf Hl; [by exists r|].
  destruct (recv_head r i l fuel pick Hwf (eq_sym Hl)) as (r1 & Hr & Hr' & Hp & Hwf1).
  destruct (IH r1 Hwf1 (eq_sym Hp)) as (r2 & Hd & Hd' & Hp2 & Hwf2).
  exists r2. change (length (i :: l)) with (S (length l)). cbn [drain]. by rewrite Hr, Hr', Hd, Hd'.
Qed.

(** A mailbox with one item in each channel. *)
Definition sample : MailboxReceiver nat :=
  mkReceiver (mkChan [7; 8] true) (mkChan [Terminate] true) (mkChan [()] true)
    (mkChan [mkExit (on (node_new "n") (from_raw 3)) Kill] true) false false false false.

Lemma recv_drains_by_priority_witness :
  let items := [Signal Terminate; ShutdownItem; ExitItem (mkExit (on (node_new "n") (from_raw 3)) Kill);
    Message 7; Message 8] in
  ∃ r', drain (recv_tasks 1) 5 sample = (items, r') ∧ drain (recv_threads head 1) 5 sample = (items, r') ∧
    pending r' = [] ∧ wf r'.
Proof. intros items. apply (recv_drains_by_priority head 0 sample). split; done. Defined.

(** A call of [recv] always ends on channels that do not change: it hands
    out the head of the pending list, or returns [None] once every channel
    was closed, or waits while some sender is left, or panics. *)
Theorem recv_tasks_total {M} (r : MailboxReceiver M) fuel :
  wf r → recv_spec r (recv_tasks (S fuel) r).
Proof. apply recv_tasks_step. Qed.

Lemma recv_tasks_total_witness : recv_spec sample (recv_tasks 1 sample).
Proof. apply (recv_tasks_total sample 0). split; done. Defined.

(** When the last senders of all four channels are dropped between two
    calls, the tasks loop marks the channels closed and then enters
    [select!] with every branch disabled, which panics instead of returning
    [None]; the threads loop returns [None]. *)
Theorem recv_last_sender_dropped {M} (pick : list Source → option Source) fuel :
  valid_pick pick →
  let r := mkReceiver (M := M) (mkChan [] false) (mkChan [] false) (mkChan [] false)
             (mkChan [] false) false false false false in
  (∃ r', recv_tasks (S fuel) r = Panics r') ∧
  (∃ r', recv_threads pick (S (S fuel)) r = Returned None r').
Proof.
  intros Hpick. split; [by eexists|]. simpl. unfold select_threads; simpl.
  specialize (Hpick sources). unfold sources in Hpick.
  destruct (pick _) as [s|]; [|done]. destruct s; by eexists.
Qed.

Lemma recv_last_sender_dropped_witness :
  let r := mkReceiver (M := nat) (mkChan [] false) (mkChan [] false) (mkChan [] false)
             (mkChan [] false) false false false false in
  (∃ r', recv_tasks 1 r = Panics r') ∧
  (∃ r', recv_threads (λ l, head l) 2 r = Returned None r').
Proof. apply (recv_last_sender_dropped (M := nat) (λ l, head l) 0). intros [|s l]; [done|left]. Defined.

(** In the threads runtime, one channel whose senders are gone makes
    [recv] spin for as long as nothing is queued on the others: no bound on
    the number of loop iterations is enough. *)
Theorem recv_threads_spins {M} (pick : list Source → option Source) fuel :
  valid_pick pick →
  recv_threads pick fuel
    (mkReceiver (M := M) (mkChan [] false) (mkChan [] true) (mkChan [] true)
       (mkChan [] true) false false false false) = OutOfFuel.
Proof.
  intros Hpick. destruct fuel as [|fuel]; [done|]. simpl. unfold select_threads; simpl.
  pose proof (Hpick [SrcUser]) as Hu. destruct (pick _) as [s|]; [|done].
  apply list_elem_of_singleton in Hu as ->. simpl.
  apply recv_threads_spins_stable; [done|by split|done|by intros []|by exists SrcUser
    |by exists SrcStop].
Qed.

Lemma recv_threads_spins_witness :
  recv_threads (λ l, head l) 1000
    (mkReceiver (M := nat) (mkChan [] false) (mkChan [] true) (mkChan [] true)
       (mkChan [] true) false false false false) = OutOfFuel.
Proof. apply (recv_threads_spins (M := nat)). intros [|s l]; [done|left]. Defined.

End Receiver.
