(* ===== verification/Backpressure.v ===== *)
(** * Mailbox backpressure

    Model of [MailboxLimits] in [concurrency/src/mailbox.rs]: the shared
    depth counter, the fail-fast and the two blocking acquisition paths, the
    sends that use them and the receiver's release, as an interleaving of
    atomic steps of any number of sender threads and one receiver. *)

From S2P Require Import Prelude Address Errors Mailbox.

(** [MailboxLimits] without its mutable counter. *)
Record Limits := mkLimits {
  capacity : option N;
  mode : BackpressureMode;
  runtime : MailboxRuntime
}.

(** [MailboxLimits::new] (a blocking mailbox also gets a condition variable
    or a [Notify], whose waiters are program counters below). *)
Definition new (config : MailboxConfig) (rt : MailboxRuntime) : Limits :=
  mkLimits (cfg_capacity config) (cfg_mode config) rt.

(** Where a sender thread is inside [send_user_threads] or
    [send_user_tasks_sync]. *)
Inductive Pc :=
| Idle
(** [try_acquire]: about to load, about to compare-exchange *)
| TryLoad | TryCas (current : N)
(** [acquire_blocking_threads]: about to lock; then, holding the lock,
    about to load, to add, or to wait; waiting on the condition variable *)
| WantLock | LockLoad | LockAdd | LockWait | CvWaiting
(** [acquire_async_tasks]: about to load, to compare-exchange, to create the
    [Notified] future; waiting on it *)
| AsyncLoad | AsyncCas (current : N) | AsyncWait | AsyncWaiting
(** holding a slot, about to send on the channel *)
| ChanSend
(** [rollback_acquire] *)
| RollSub | RollNotify
| Done (r : Result () ActorError).

(** The receiving actor: waiting, about to decrement, about to notify. *)
Inductive RPc := RIdle | RSub | RNotify.

Record Sys := mkSys {
  depth : N;                 (** the [AtomicUsize] *)
  lock : option nat;         (** who holds the blocking mutex *)
  senders : list Pc;
  chan : list nat;           (** the user channel; an item is its sender *)
  chan_open : bool;
  receiver : RPc
}.

#[global] Instance Pc_eq_dec : EqDecision Pc.
Proof. solve_decision. Defined.
#[global] Instance Limits_eq_dec : EqDecision Limits.
Proof. solve_decision. Defined.

(** [AtomicUsize] arithmetic wraps. *)
Definition fetch_add (d : N) : N := ((d + 1) mod 2 ^ 64)%N.
Definition fetch_sub (d : N) : N := ((d + 2 ^ 64 - 1) mod 2 ^ 64)%N.

Definition set_pc (i : nat) (pc : Pc) (s : Sys) : Sys :=
  mkSys (depth s) (lock s) (<[i:=pc]> (senders s)) (chan s) (chan_open s) (receiver s).
Definition set_depth (d : N) (s : Sys) : Sys :=
  mkSys d (lock s) (senders s) (chan s) (chan_open s) (receiver s).
Definition set_lock (l : option nat) (s : Sys) : Sys :=
  mkSys (depth s) l (senders s) (chan s) (chan_open s) (receiver s).

(** A waiter that is woken re-locks, respectively re-checks. *)
Definition wake (pc : Pc) : Pc :=
  match pc with CvWaiting => WantLock | AsyncWaiting => AsyncLoad | _ => pc end.

(** [notify_blockers]. *)
Definition notify_blockers (lim : Limits) (s : Sys) : Sys :=
  match mode lim with
  | FailFast => s
  | Block => mkSys (depth s) (lock s) (wake <$> senders s) (chan s) (chan_open s) (receiver s)
  end.

(** The first thing [send_user_threads] / [send_user_tasks_sync] does. *)
Definition send_entry (lim : Limits) : Pc :=
  match capacity lim, mode lim with
  | None, _ => ChanSend
  | Some _, FailFast => TryLoad
  | Some _, Block => match runtime lim with Threads => WantLock | Tasks => AsyncLoad end
  end.

(** One iteration of [try_acquire]. [weak] is a spurious failure of
    [compare_exchange_weak]. *)
Definition try_acquire_step (lim : Limits) (i : nat) (weak : bool) (pc : Pc) (s : Sys)
    : option Sys :=
  match capacity lim with
  | None => Some (set_pc i ChanSend s)
  | Some cap =>
      match pc with
      | TryLoad =>
          if bool_decide (cap ≤ depth s)%N then Some (set_pc i (Done (Err MailboxFull)) s)
          else Some (set_pc i (TryCas (depth s)) s)
      | TryCas current =>
          if negb weak && bool_decide (depth s = current)
          then Some (set_pc i ChanSend (set_depth (current + 1)%N s))
          else Some (set_pc i TryLoad s)
      | _ => None
      end
  end.

(** The loop of [acquire_blocking_threads]. *)
Definition acquire_blocking_step (lim : Limits) (i : nat) (pc : Pc) (s : Sys) : option Sys :=
  match capacity lim with
  | None => Some (set_pc i ChanSend s)
  | Some cap =>
      match pc with
      | WantLock =>
          match lock s with
          | None => Some (set_pc i LockLoad (set_lock (Some i) s))
          | Some _ => None
          end
      | LockLoad =>
          if bool_decide (depth s < cap)%N then Some (set_pc i LockAdd s)
          else Some (set_pc i LockWait s)
      | LockAdd => Some (set_pc i ChanSend (set_lock None (set_depth (fetch_add (depth s)) s)))
      | LockWait => Some (set_pc i CvWaiting (set_lock None s))
      | _ => None
      end
  end.

(** The loop of [acquire_async_tasks]. *)
Definition acquire_async_step (lim : Limits) (i : nat) (weak : bool) (pc : Pc) (s : Sys)
    : option Sys :=
  match capacity lim with
  | None => Some (set_pc i ChanSend s)
  | Some cap =>
      match pc with
      | AsyncLoad =>
          if bool_decide (depth s < cap)%N then Some (set_pc i (AsyncCas (depth s)) s)
          else Some (set_pc i AsyncWait s)
      | AsyncCas current =>
          if negb weak && bool_decide (depth s = current)
          then Some (set_pc i ChanSend (set_depth (current + 1)%N s))
          else Some (set_pc i AsyncLoad s)
      | AsyncWait => Some (set_pc i AsyncWaiting s)
      | _ => None
      end
  end.

(** [sender.send(item).map_err(..)] with [rollback_acquire]. *)
Definition chan_send_step (lim : Limits) (i : nat) (pc : Pc) (s : Sys) : option Sys :=
  match pc with
  | ChanSend =>
      if chan_open s
      then Some (set_pc i (Done (Ok ()))
             (mkSys (depth s) (lock s) (senders s) (chan s ++ [i]) (chan_open s) (receiver s)))
      else match capacity lim with
           | Some _ => Some (set_pc i RollSub s)
           | None => Some (set_pc i (Done (Err ActorStopped)) s)
           end
  | RollSub => Some (set_pc i RollNotify (set_depth (fetch_sub (depth s)) s))
  | RollNotify => Some (set_pc i (Done (Err ActorStopped)) (notify_blockers lim s))
  | _ => None
  end.

(** One atomic step of sender [i]; [None] when it cannot move. *)
Definition sender_step (lim : Limits) (i : nat) (weak : bool) (s : Sys) : option Sys :=
  match senders s !! i with
  | None => None
  | Some pc =>
      match pc with
      | Idle => Some (set_pc i (send_entry lim) s)
      | TryLoad | TryCas _ => try_acquire_step lim i weak pc s
      | WantLock | LockLoad | LockAdd | LockWait => acquire_blocking_step lim i pc s
      | AsyncLoad | AsyncCas _ | AsyncWait => acquire_async_step lim i weak pc s
      | ChanSend | RollSub | RollNotify => chan_send_step lim i pc s
      | CvWaiting | AsyncWaiting => None
      | Done _ => Some (set_pc i Idle s)
      end
  end.

(** The receiver takes a message off the channel and calls
    [on_message_dequeued]. *)
Definition receiver_step (lim : Limits) (s : Sys) : option Sys :=
  match receiver s with
  | RIdle =>
      match chan s with
      | _ :: q =>
          if chan_open s
          then Some (mkSys (depth s) (lock s) (senders s) q (chan_open s)
                 match capacity lim with None => RIdle | Some _ => RSub end)
          else None
      | [] => None
      end
  | RSub => Some (mkSys (fetch_sub (depth s)) (lock s) (senders s) (chan s) (chan_open s) RNotify)
  | RNotify =>
      let s' := notify_blockers lim s in
      Some (mkSys (depth s') (lock s') (senders s') (chan s') (chan_open s') RIdle)
  end.

(** The receiver half is dropped when the actor has stopped; messages still
    queued are never received. *)
Definition close_step (s : Sys) : option Sys :=
  match receiver s with
  | RIdle => Some (mkSys (depth s) (lock s) (senders s) (chan s) false RIdle)
  | _ => None
  end.

Inductive Label :=
| LSender (i : nat) (weak : bool)
| LReceiver
| LClose
(** a condition variable may wake a waiter without a notification *)
| LSpurious (i : nat).

Definition step (lim : Limits) (l : Label) (s : Sys) : option Sys :=
  match l with
  | LSender i weak => sender_step lim i weak s
  | LReceiver => receiver_step lim s
  | LClose => close_step s
  | LSpurious i =>
      match senders s !! i with
      | Some CvWaiting => Some (set_pc i WantLock s)
      | _ => None
      end
  end.

Fixpoint run (lim : Limits) (ls : list Label) (s : Sys) : option Sys :=
  match ls with
  | [] => Some s
  | l :: ls => step lim l s ≫= run lim ls
  end.

(** [n] idle senders of an empty mailbox. *)
Definition init (n : nat) : Sys := mkSys 0 None (replicate n Idle) [] true RIdle.

Definition reachable (lim : Limits) (n : nat) (s : Sys) : Prop :=
  ∃ ls, run lim ls (init n) = Some s.

(** ** The counter is exact and never exceeds the capacity *)

(** Slots of the counter a thread has taken and not yet handed over. *)
Definition slots (pc : Pc) : nat := match pc with ChanSend | RollSub => 1 | _ => 0 end.
Definition rslots (r : RPc) : nat := match r with RSub => 1 | _ => 0 end.

(** The program counters of each acquisition path. *)
Definition on_path (lim : Limits) (pc : Pc) : bool :=
  match pc with
  | Idle | ChanSend | RollSub | RollNotify | Done _ => true
  | TryLoad | TryCas _ => bool_decide (mode lim = FailFast)
  | WantLock | LockLoad | LockAdd | LockWait | CvWaiting =>
      bool_decide (mode lim = Block ∧ runtime lim = Threads)
  | AsyncLoad | AsyncCas _ | AsyncWait | AsyncWaiting =>
      bool_decide (mode lim = Block ∧ runtime lim = Tasks)
  end.

Definition holds_lock (pc : Pc) : bool :=
  match pc with LockLoad | LockAdd | LockWait => true | _ => false end.

(** What a program counter remembers of the counter's value. *)
Definition pc_ok (cap d : N) (pc : Pc) : Prop :=
  match pc with
  | TryCas current | AsyncCas current => (current < cap)%N
  | LockAdd => (d < cap)%N
  | _ => True
  end.

Record inv (lim : Limits) (cap : N) (s : Sys) : Prop := {
  inv_depth : depth s =
    N.of_nat (length (chan s) + sum_list_with slots (senders s) + rslots (receiver s));
  inv_cap : (depth s ≤ cap)%N;
  inv_path : ∀ i pc, senders s !! i = Some pc → on_path lim pc = true;
  inv_lock : ∀ i pc, senders s !! i = Some pc → holds_lock pc = true → lock s = Some i;
  inv_pc : ∀ i pc, senders s !! i = Some pc → pc_ok cap (depth s) pc
}.

Lemma fetch_add_lt d cap : (d < cap)%N → (cap < 2 ^ 64)%N → fetch_add d = (d + 1)%N.
Proof. intros. unfold fetch_add. rewrite N.mod_small; lia. Qed.

Lemma fetch_sub_pos d : (0 < d)%N → (d < 2 ^ 64)%N → fetch_sub d = (d - 1)%N.
Proof.
  intros. unfold fetch_sub. replace (d + 2 ^ 64 - 1)%N with (d - 1 + 1 * 2 ^ 64)%N by lia.
  rewrite N.Div0.mod_add, N.mod_small; lia.
Qed.

Section invariant.
Context (lim : Limits) (cap : N).
Hypothesis Hcap : capacity lim = Some cap.
Hypothesis Hmax : (cap < 2 ^ 64)%N.

Implicit Types s : Sys.

(** Moving one sender: the frame of every sender step. *)
Lemma inv_move s i pc pc' d l :
  inv lim cap s → senders s !! i = Some pc →
  on_path lim pc' = true →
  (holds_lock pc' = true → l = Some i) →
  (∀ j q, j ≠ i → senders s !! j = Some q → holds_lock q = true → l = Some j) →
  pc_ok cap d pc' →
  (∀ j q, j ≠ i → senders s !! j = Some q → pc_ok cap (depth s) q → pc_ok cap d q) →
  (d + N.of_nat (slots pc) = depth s + N.of_nat (slots pc'))%N →
  (d ≤ cap)%N →
  inv lim cap (set_pc i pc' (mkSys d l (senders s) (chan s) (chan_open s) (receiver s))).
Proof.
  intros [Hd Hc Hp Hl Hpc] Hi Hpath Hlk Hlk' Hok Hok' Hsum Hle.
  pose proof (sum_list_with_insert slots _ _ _ pc' Hi) as Hins.
  split; simpl.
  - lia.
  - done.
  - lookup_insert_cases; eauto.
  - lookup_insert_cases; eauto.
  - lookup_insert_cases; eauto.
Qed.

Lemma inv_notify s : inv lim cap s → inv lim cap (notify_blockers lim s).
Proof.
  intros [Hd Hc Hp Hl Hpc]. unfold notify_blockers. destruct (mode lim) eqn:Hm; [by split|].
  split; simpl.
  - rewrite Hd. rewrite sum_list_with_fmap.
    by rewrite (sum_list_with_ext (slots ∘ wake) slots) by (by intros []).
  - done.
  - intros i pc Hi. apply list_lookup_fmap_Some in Hi as (q & -> & Hi).
    specialize (Hp _ _ Hi). by destruct q.
  - intros i pc Hi. apply list_lookup_fmap_Some in Hi as (q & -> & Hi).
    intros Hk. apply (Hl i q Hi). by destruct q.
  - intros i pc Hi. apply list_lookup_fmap_Some in Hi as (q & -> & Hi).
    specialize (Hpc _ _ Hi). by destruct q.
Qed.

Lemma inv_no_slot s i pc pc' :
  inv lim cap s → senders s !! i = Some pc → on_path lim pc' = true →
  holds_lock pc' = false → slots pc = slots pc' → pc_ok cap (depth s) pc' →
  inv lim cap (set_pc i pc' s).
Proof.
  intros Hinv Hi Hp Hh Hs Hok.
  assert (set_pc i pc' s =
    set_pc i pc' (mkSys (depth s) (lock s) (senders s) (chan s) (chan_open s) (receiver s)))
    as -> by by destruct s.
  eapply inv_move; eauto; try congruence.
  - intros j q _ Hj Hk. by eapply inv_lock.
  - by apply inv_cap with lim.
Qed.

Lemma pc_ok_le d d' pc : (d' ≤ d)%N → pc_ok cap d pc → pc_ok cap d' pc.
Proof. destruct pc; simpl; lia. Qed.

(** Nobody is about to add under the lock while the counter is bumped by
    another path. *)
Lemma pc_ok_cas s i pc j q :
  inv lim cap s → senders s !! i = Some pc → (mode lim = FailFast ∨ runtime lim = Tasks) →
  senders s !! j = Some q → pc_ok cap (depth s) q → pc_ok cap (depth s + 1) q.
Proof.
  intros Hinv Hi Hm Hj. pose proof (inv_path _ _ _ Hinv _ _ Hj) as Hp.
  destruct q; simpl in *; try done. rewrite bool_decide_eq_true in Hp.
  destruct Hp. destruct Hm; congruence.
Qed.

Lemma try_acquire_inv s i weak pc s' :
  inv lim cap s → senders s !! i = Some pc → mode lim = FailFast →
  try_acquire_step lim i weak pc s = Some s' → inv lim cap s'.
Proof.
  intros Hinv Hi Hm. unfold try_acquire_step. rewrite Hcap.
  destruct pc; try done.
  - case_bool_decide; intros [= <-].
    + by apply inv_no_slot with TryLoad.
    + apply inv_no_slot with TryLoad; simpl; try done; [by rewrite Hm|lia].
  - pose proof (inv_pc _ _ _ Hinv _ _ Hi) as Hcur; simpl in Hcur.
    destruct (negb weak && bool_decide (depth s = current)) eqn:Hb; intros [= <-].
    + bool_simpl. subst current. eapply inv_move; eauto; simpl; try done; try lia.
      * intros j q _ Hj Hk. by eapply inv_lock.
      * intros j q _ Hj. apply (pc_ok_cas s i (TryCas (depth s)) j); auto.
    + apply inv_no_slot with (TryCas current); simpl; try done. by rewrite Hm.
Qed.

Lemma acquire_async_inv s i weak pc s' :
  inv lim cap s → senders s !! i = Some pc → mode lim = Block → runtime lim = Tasks →
  acquire_async_step lim i weak pc s = Some s' → inv lim cap s'.
Proof.
  intros Hinv Hi Hm Hr. unfold acquire_async_step. rewrite Hcap.
  destruct pc; try done.
  - case_bool_decide; intros [= <-]; apply inv_no_slot with AsyncLoad; simpl; try done;
      by rewrite Hm, Hr.
  - pose proof (inv_pc _ _ _ Hinv _ _ Hi) as Hcur; simpl in Hcur.
    destruct (negb weak && bool_decide (depth s = current)) eqn:Hb; intros [= <-].
    + bool_simpl. subst current. eapply inv_move; eauto; simpl; try done; try lia.
      * intros j q _ Hj Hk. by eapply inv_lock.
      * intros j q _ Hj. apply (pc_ok_cas s i (AsyncCas (depth s)) j); auto.
    + apply inv_no_slot with (AsyncCas current); simpl; try done. by rewrite Hm, Hr.
  - intros [= <-]. apply inv_no_slot with AsyncWait; simpl; try done. by rewrite Hm, Hr.
Qed.

(** At most one sender is past the lock. *)
Lemma lock_unique s i j pc q :
  inv lim cap s → senders s !! i = Some pc → senders s !! j = Some q →
  holds_lock pc = true → j ≠ i → holds_lock q = false.
Proof.
  intros Hinv Hi Hj Hk Hne. destruct (holds_lock q) eqn:Hq; [|done].
  pose proof (inv_lock _ _ _ Hinv _ _ Hi Hk). pose proof (inv_lock _ _ _ Hinv _ _ Hj Hq).
  congruence.
Qed.

Lemma inv_locked s i pc pc' :
  inv lim cap s → senders s !! i = Some pc → on_path lim pc' = true →
  holds_lock pc = true → slots pc = slots pc' → pc_ok cap (depth s) pc' →
  inv lim cap (set_pc i pc' s).
Proof.
  intros Hinv Hi Hp Hh Hs Hok. pose proof (inv_lock _ _ _ Hinv _ _ Hi Hh) as Hl.
  assert (set_pc i pc' s =
    set_pc i pc' (mkSys (depth s) (lock s) (senders s) (chan s) (chan_open s) (receiver s)))
    as -> by by destruct s.
  eapply inv_move; eauto; try congruence.
  - intros j q _ Hj Hk. by eapply inv_lock.
  - by apply inv_cap with lim.
Qed.

Lemma acquire_blocking_inv s i pc s' :
  inv lim cap s → senders s !! i = Some pc → mode lim = Block → runtime lim = Threads →
  acquire_blocking_step lim i pc s = Some s' → inv lim cap s'.
Proof.
  intros Hinv Hi Hm Hr. unfold acquire_blocking_step. rewrite Hcap.
  destruct pc; try done.
  - destruct (lock s) eqn:Hl; [done|]. intros [= <-].
    eapply inv_move; eauto; simpl; try done; [by rewrite Hm, Hr| |by apply inv_cap with lim].
    intros j q _ Hj Hk. pose proof (inv_lock _ _ _ Hinv _ _ Hj Hk). congruence.
  - case_bool_decide; intros [= <-]; apply inv_locked with LockLoad; simpl; try done;
      by rewrite Hm, Hr.
  - pose proof (inv_pc _ _ _ Hinv _ _ Hi) as Hlt; simpl in Hlt.
    rewrite (fetch_add_lt _ cap) by done. intros [= <-].
    assert (Hother : ∀ j q, j ≠ i → senders s !! j = Some q → holds_lock q = false)
      by (intros; by apply (lock_unique s i j LockAdd q)).
    apply (inv_move s i LockAdd); simpl; auto; try lia.
    + intros j q Hne Hj Hk. by rewrite (Hother j q) in Hk.
    + intros j q Hne Hj Hok. specialize (Hother j q Hne Hj). by destruct q.
  - intros [= <-]. apply (inv_move s i LockWait); simpl; auto; try done.
    + by rewrite Hm, Hr.
    + intros j q Hne Hj Hk. by rewrite (lock_unique s i j LockWait q) in Hk.
    + by apply inv_cap with lim.
Qed.

Lemma slot_pos s i pc :
  inv lim cap s → senders s !! i = Some pc → slots pc = 1 → (0 < depth s)%N.
Proof.
  intros Hinv Hi Hs. pose proof (sum_list_with_lookup slots _ _ _ Hi).
  rewrite (inv_depth _ _ _ Hinv). lia.
Qed.

Lemma depth_lt_max s : inv lim cap s → (depth s < 2 ^ 64)%N.
Proof. intros Hinv. pose proof (inv_cap _ _ _ Hinv). lia. Qed.

Lemma chan_send_inv s i pc s' :
  inv lim cap s → senders s !! i = Some pc →
  chan_send_step lim i pc s = Some s' → inv lim cap s'.
Proof.
  intros Hinv Hi. unfold chan_send_step. destruct pc; try done.
  - destruct (chan_open s); [|rewrite Hcap]; intros [= <-].
    + pose proof (sum_list_with_insert slots _ _ _ (Done (Ok ())) Hi) as Hins. simpl in Hins.
      destruct Hinv as [Hd Hc Hp Hl Hpc]. split; simpl.
      * rewrite length_app. simpl. lia.
      * done.
      * lookup_insert_cases; eauto.
      * lookup_insert_cases; [done|eauto].
      * lookup_insert_cases; [done|eauto].
    + by apply inv_no_slot with ChanSend.
  - pose proof (slot_pos _ _ _ Hinv Hi eq_refl) as Hpos. pose proof (depth_lt_max _ Hinv).
    rewrite fetch_sub_pos by done. intros [= <-].
    pose proof (inv_cap _ _ _ Hinv).
    eapply inv_move; eauto; simpl; try done; try lia.
    + intros j q _ Hj Hk. by eapply inv_lock.
    + intros j q _ Hj Hok. apply pc_ok_le with (depth s); [lia|done].
  - intros [= <-]. apply inv_no_slot with (wake RollNotify); simpl; try done.
    + by apply inv_notify.
    + unfold notify_blockers. destruct (mode lim); [done|]. simpl.
      rewrite list_lookup_fmap, Hi. done.
Qed.

Lemma sender_inv s i weak s' :
  inv lim cap s → sender_step lim i weak s = Some s' → inv lim cap s'.
Proof.
  intros Hinv. unfold sender_step. destruct (senders s !! i) as [pc|] eqn:Hi; [|done].
  pose proof (inv_path _ _ _ Hinv _ _ Hi) as Hp.
  destruct pc; simpl in Hp; rewrite ?bool_decide_eq_true in Hp; try done;
    try (by apply try_acquire_inv);
    try (destruct Hp; by apply acquire_blocking_inv);
    try (destruct Hp; by apply acquire_async_inv);
    try (by apply chan_send_inv).
  - intros [= <-]. apply inv_no_slot with Idle; try done; unfold send_entry; rewrite Hcap;
      destruct (mode lim) eqn:Hm, (runtime lim) eqn:Hr; simpl; rewrite ?Hm, ?Hr; done.
  - intros [= <-]. by eapply inv_no_slot.
Qed.

Lemma receiver_inv s s' :
  inv lim cap s → receiver_step lim s = Some s' → inv lim cap s'.
Proof.
  intros Hinv. unfold receiver_step. destruct (receiver s) eqn:Hr.
  - destruct (chan s) as [|a q] eqn:Hq; [done|]. destruct (chan_open s); [|done].
    rewrite Hcap. intros [= <-]. destruct Hinv as [Hd Hc Hp Hl Hpc].
    rewrite Hr, Hq in Hd. simpl in Hd. split; simpl; try done. lia.
  - pose proof (depth_lt_max _ Hinv) as Hlt. destruct Hinv as [Hd Hc Hp Hl Hpc].
    rewrite Hr in Hd. simpl in Hd. rewrite fetch_sub_pos by lia.
    intros [= <-]. split; simpl; try done; try lia.
    intros i pc Hi. apply pc_ok_le with (depth s); [lia|eauto].
  - intros [= <-]. pose proof (inv_notify _ Hinv) as [Hd Hc Hp Hl Hpc].
    split; simpl; try done. rewrite Hd. unfold notify_blockers. destruct (mode lim); simpl;
      by rewrite Hr.
Qed.

Lemma step_inv l s s' : inv lim cap s → step lim l s = Some s' → inv lim cap s'.
Proof.
  intros Hinv. destruct l as [i weak| | |i]; simpl.
  - by apply sender_inv.
  - by apply receiver_inv.
  - unfold close_step. destruct (receiver s) eqn:Hr; try done. intros [= <-].
    destruct Hinv as [Hd Hc Hp Hl Hpc]. split; simpl; try done. by rewrite Hr in Hd.
  - destruct (senders s !! i) as [[]|] eqn:Hi; try done. intros [= <-].
    apply inv_no_slot with CvWaiting; try done. exact (inv_path _ _ _ Hinv _ _ Hi).
Qed.

Lemma init_inv n : inv lim cap (init n).
Proof.
  split; simpl; try lia.
  - rewrite sum_list_with_replicate. simpl. lia.
  - intros i pc [-> _]%lookup_replicate. done.
  - intros i pc [-> _]%lookup_replicate. done.
  - intros i pc [-> _]%lookup_replicate. done.
Qed.

Lemma run_inv ls s s' : inv lim cap s → run lim ls s = Some s' → inv lim cap s'.
Proof.
  revert s. induction ls as [|l ls IH]; intros s Hinv; simpl; [by intros [= <-]|].
  destruct (step lim l s) as [s1|] eqn:Hs; [|done]. simpl.
  apply IH. by eapply step_inv.
Qed.

Lemma reachable_inv n s : reachable lim n s → inv lim cap s.
Proof. intros [ls Hls]. eapply run_inv; [apply init_inv|done]. Qed.
End invariant.

(** C10: whatever the interleaving of senders and receiver, in fail-fast mode
    and in both blocking modes, the depth counter of a bounded mailbox never
    exceeds its capacity, never wraps below zero, and counts exactly the
    queued messages plus the slots held by threads in the middle of a send
    or a receive. *)
Theorem depth_exact_and_bounded lim cap n s :
  capacity lim = Some cap → (cap < 2 ^ 64)%N → reachable lim n s →
  (N.of_nat (length (chan s)) ≤ depth s ≤ cap)%N ∧
  depth s = N.of_nat (length (chan s) + sum_list_with slots (senders s) + rslots (receiver s)).
Proof.
  intros Hcap Hmax Hr. pose proof (reachable_inv lim cap Hcap Hmax n s Hr) as Hinv.
  pose proof (inv_depth _ _ _ Hinv). pose proof (inv_cap _ _ _ Hinv). split; lia.
Qed.

(** Two senders of a mailbox of capacity one: the second compare-exchange
    loses the race and its sender is turned away. *)
Definition ff1 : Limits := new (mkMailboxConfig (Some 1%N) FailFast) Tasks.
Definition race : list Label :=
  [LSender 0 false; LSender 1 false; LSender 0 false; LSender 1 false; LSender 0 false;
   LSender 1 false; LSender 0 false; LSender 1 false].
Definition race_end : Sys :=
  mkSys 1 None [Done (Ok ()); Done (Err MailboxFull)] [0] true RIdle.

Lemma depth_exact_and_bounded_witness :
  reachable ff1 2 race_end ∧ (N.of_nat (length (chan race_end)) ≤ depth race_end ≤ 1)%N.
Proof.
  assert (reachable ff1 2 race_end) as Hr by (exists race; vm_compute; reflexivity).
  split; [done|].
  apply (depth_exact_and_bounded ff1 1 2 race_end); [reflexivity|lia|done].
Defined.

(** ** A send on its own *)

(** [n] steps of sender [i] without interference and without spurious
    failures. *)
Fixpoint run_alone (lim : Limits) (i n : nat) (s : Sys) : option Sys :=
  match n with
  | O => Some s
  | S n => sender_step lim i false s ≫= run_alone lim i n
  end.

(** [send_user_threads] / [send_user_tasks_sync] of a fail-fast or unbounded
    mailbox as one atomic operation. *)
Definition send_user (lim : Limits) (i : nat) (s : Sys) : Result () ActorError * Sys :=
  match capacity lim with
  | Some cap =>
      if bool_decide (cap ≤ depth s)%N then (Err MailboxFull, s)
      else if chan_open s then
        (Ok (), mkSys (depth s + 1) (lock s) (senders s) (chan s ++ [i]) true (receiver s))
      else (Err ActorStopped, s)
  | None =>
      if chan_open s then
        (Ok (), mkSys (depth s) (lock s) (senders s) (chan s ++ [i]) true (receiver s))
      else (Err ActorStopped, s)
  end.

Lemma sender_step_at lim i weak s pc :
  senders s !! i = Some pc →
  sender_step lim i weak s =
    match pc with
    | Idle => Some (set_pc i (send_entry lim) s)
    | TryLoad | TryCas _ => try_acquire_step lim i weak pc s
    | WantLock | LockLoad | LockAdd | LockWait => acquire_blocking_step lim i pc s
    | AsyncLoad | AsyncCas _ | AsyncWait => acquire_async_step lim i weak pc s
    | ChanSend | RollSub | RollNotify => chan_send_step lim i pc s
    | CvWaiting | AsyncWaiting => None
    | Done _ => Some (set_pc i Idle s)
    end.
Proof. intros H. unfold sender_step. by rewrite H. Qed.

Lemma set_pc_lookup i pc s q :
  senders s !! i = Some q → senders (set_pc i pc s) !! i = Some pc.
Proof. intros H. simpl. apply list_lookup_insert_eq. by eapply lookup_lt_Some. Qed.

Lemma set_pc_set_pc i pc pc' s : set_pc i pc (set_pc i pc' s) = set_pc i pc s.
Proof. unfold set_pc. simpl. by rewrite list_insert_insert_eq. Qed.

Lemma set_pc_set_depth i pc pc' d s :
  set_pc i pc (set_depth d (set_pc i pc' s)) = set_pc i pc (set_depth d s).
Proof. unfold set_pc, set_depth. simpl. by rewrite list_insert_insert_eq. Qed.

Section alone.
Context (lim : Limits) (i : nat).

(** The end of every send: the channel operation and its rollback. *)
Lemma alone_chan_send s q :
  capacity lim = None ∨ (mode lim = FailFast ∧ (0 < depth s)%N ∧ (depth s < 2 ^ 64)%N) →
  senders s !! i = Some q →
  ∃ n, n ≤ 3 ∧ run_alone lim i n (set_pc i ChanSend s) = Some
    (if chan_open s
     then set_pc i (Done (Ok ()))
            (mkSys (depth s) (lock s) (senders s) (chan s ++ [i]) true (receiver s))
     else set_pc i (Done (Err ActorStopped))
            (set_depth (match capacity lim with None => depth s | Some _ => depth s - 1 end)%N s)).
Proof.
  intros Hor Hi. destruct (chan_open s) eqn:Ho.
  - exists 1. split; [lia|]. simpl. rewrite (sender_step_at _ _ _ _ ChanSend)
      by by eapply set_pc_lookup.
    simpl. rewrite Ho. simpl. unfold set_pc; simpl. by rewrite list_insert_insert_eq.
  - destruct (capacity lim) as [cap|] eqn:Hc.
    + destruct Hor as [?|(Hm & Hpos & Hlt)]; [done|]. exists 3. split; [lia|].
      simpl. rewrite (sender_step_at _ _ _ _ ChanSend) by by eapply set_pc_lookup.
      simpl. rewrite Ho, Hc. simpl. rewrite set_pc_set_pc.
      rewrite (sender_step_at _ _ _ _ RollSub) by by eapply set_pc_lookup.
      cbn [chan_send_step]. rewrite set_pc_set_depth. cbn [mbind option_bind].
      rewrite (sender_step_at _ _ _ _ RollNotify) by by eapply set_pc_lookup.
      cbn [chan_send_step]. unfold notify_blockers. rewrite Hm. cbn [mbind option_bind].
      rewrite set_pc_set_pc. change (depth (set_pc i RollSub s)) with (depth s).
      by rewrite fetch_sub_pos by lia.
    + exists 1. split; [lia|]. simpl. rewrite (sender_step_at _ _ _ _ ChanSend)
        by by eapply set_pc_lookup.
      simpl. rewrite Ho, Hc. simpl. rewrite set_pc_set_pc. by destruct s.
Qed.
End alone.

Lemma run_alone_app lim i n m s s1 :
  run_alone lim i n s = Some s1 → run_alone lim i (n + m) s = run_alone lim i m s1.
Proof.
  revert s. induction n as [|n IH]; intros s; simpl; [by intros [= ->]|].
  destruct (sender_step lim i false s) as [s0|]; [|done]. apply IH.
Qed.

Lemma alone_acquired lim i s cap :
  capacity lim = Some cap → mode lim = FailFast → senders s !! i = Some Idle →
  (depth s < cap)%N →
  run_alone lim i 3 s = Some (set_pc i ChanSend (set_depth (depth s + 1) s)).
Proof.
  intros Hc Hm Hi Hd. simpl.
  rewrite (sender_step_at _ _ _ _ Idle) by done. unfold send_entry. rewrite Hc, Hm.
  cbn [mbind option_bind].
  rewrite (sender_step_at _ _ _ _ TryLoad) by by eapply set_pc_lookup.
  unfold try_acquire_step at 1. rewrite Hc. change (depth (set_pc i TryLoad s)) with (depth s).
  rewrite bool_decide_eq_false_2 by lia. cbn [mbind option_bind]. rewrite set_pc_set_pc.
  rewrite (sender_step_at _ _ _ _ (TryCas (depth s))) by by eapply set_pc_lookup.
  unfold try_acquire_step. rewrite Hc. simpl. rewrite bool_decide_eq_true_2 by done.
  simpl. by rewrite set_pc_set_depth.
Qed.

(** A fail-fast or unbounded send that is not disturbed ends within six
    steps with the outcome of the atomic [send_user]: [MailboxFull] exactly
    when the counter has reached the capacity, [ActorStopped] with the
    counter restored when the actor has gone, and otherwise the message is
    appended and counted. *)
Theorem send_alone_refines lim i s :
  mode lim = FailFast ∨ capacity lim = None →
  (∀ cap, capacity lim = Some cap → (cap < 2 ^ 64)%N) →
  senders s !! i = Some Idle →
  let '(r, s') := send_user lim i s in
  ∃ n, n ≤ 6 ∧ run_alone lim i n s = Some (set_pc i (Done r) s').
Proof.
  intros Hmode Hmax Hi. unfold send_user. destruct (capacity lim) as [cap|] eqn:Hc.
  - destruct Hmode as [Hm|?]; [|done]. specialize (Hmax cap eq_refl). case_bool_decide as Hfull.
    + exists 2. split; [lia|]. simpl. rewrite (sender_step_at _ _ _ _ Idle) by done.
      unfold send_entry. rewrite Hc, Hm. cbn [mbind option_bind].
      rewrite (sender_step_at _ _ _ _ TryLoad) by by eapply set_pc_lookup.
      unfold try_acquire_step. rewrite Hc. rewrite bool_decide_eq_true_2 by done.
      simpl. by rewrite set_pc_set_pc.
    + pose proof (alone_acquired lim i s cap Hc Hm Hi) as H3.
      destruct (alone_chan_send lim i (set_depth (depth s + 1) s) Idle) as (n & Hn & Hrun).
      { right. simpl. split; [done|lia]. } { done. }
      rewrite Hc in Hrun. simpl in Hrun.
      assert (run_alone lim i (3 + n) s = run_alone lim i n
        (set_pc i ChanSend (set_depth (depth s + 1) s))) as Happ
        by (apply run_alone_app, H3; lia).
      destruct (chan_open s); exists (3 + n); (split; [lia|]); rewrite Happ, Hrun; [done|].
      do 2 f_equal. unfold set_depth. simpl. replace (depth s + 1 - 1)%N with (depth s) by lia.
      by destruct s.
  - destruct (alone_chan_send lim i s Idle) as (n & Hn & Hrun); [by left|done|].
    assert (run_alone lim i (1 + n) s = run_alone lim i n (set_pc i ChanSend s)) as Happ.
    { apply run_alone_app. simpl. rewrite (sender_step_at _ _ _ _ Idle) by done.
      unfold send_entry. by rewrite Hc. }
    rewrite Hc in Hrun. destruct (chan_open s); exists (1 + n); (split; [lia|]);
      rewrite Happ, Hrun; [done|]. by destruct s.
Qed.

Lemma send_alone_refines_witness :
  ∃ n, n ≤ 6 ∧ run_alone ff1 0 n (init 1) =
    Some (set_pc 0 (Done (Ok ())) (mkSys 1 None [Idle] [0] true RIdle)).
Proof.
  apply (send_alone_refines ff1 0 (init 1));
    [left; reflexivity|intros cap [= <-]; lia|reflexivity].
Defined.

(** An unbounded mailbox is never counted: its depth stays zero however
    many messages are queued, although [depth] is documented as the current
    number of queued user messages. *)
Theorem unbounded_depth_zero lim n s :
  capacity lim = None → reachable lim n s → depth s = 0%N.
Proof.
  intros Hc [ls Hls].
  assert (∀ ls s0, depth s0 = 0%N ∧ (∀ i pc, senders s0 !! i = Some pc →
    pc = Idle ∨ pc = ChanSend ∨ ∃ r, pc = Done r) ∧ receiver s0 = RIdle →
    run lim ls s0 = Some s → depth s = 0%N) as Hgen.
  { clear ls Hls. induction ls as [|l ls IH]; intros s0 (Hd & Hp & Hr); simpl.
    { by intros [= <-]. }
    destruct (step lim l s0) as [s1|] eqn:Hs; [|done]. apply IH.
    destruct l as [i weak| | |i]; simpl in Hs.
    - unfold sender_step in Hs. destruct (senders s0 !! i) as [pc|] eqn:Hi; [|done].
      assert (∀ q, q = Idle ∨ q = ChanSend ∨ (∃ r, q = Done r) → ∀ j pc',
        senders (set_pc i q s0) !! j = Some pc' →
        pc' = Idle ∨ pc' = ChanSend ∨ ∃ r, pc' = Done r) as Hset.
      { intros q Hq. simpl. lookup_insert_cases; eauto. }
      destruct (Hp i pc Hi) as [->|[->|[r ->]]]; simpl in Hs.
      + unfold send_entry in Hs. rewrite Hc in Hs. injection Hs as <-.
        split_and!; [done|apply Hset; auto|done].
      + rewrite Hc in Hs. destruct (chan_open s0); injection Hs as <-;
          (split_and!; [done|apply Hset; eauto|done]).
      + injection Hs as <-. split_and!; [done|apply Hset; auto|done].
    - unfold receiver_step in Hs. rewrite Hr, Hc in Hs.
      destruct (chan s0), (chan_open s0); try done. by injection Hs as <-.
    - unfold close_step in Hs. rewrite Hr in Hs. by injection Hs as <-.
    - destruct (senders s0 !! i) as [[]|] eqn:Hi; try done.
      by destruct (Hp i _ Hi) as [?|[?|[? ?]]]. }
  eapply Hgen; [|done]. simpl. split; [done|]. split; [|done].
  intros i pc [-> _]%lookup_replicate. by left.
Qed.

Lemma unbounded_depth_zero_witness :
  let s := mkSys 0 None [Done (Ok ())] [0] true RIdle in
  reachable (new unbounded Tasks) 1 s ∧ depth s = 0%N.
Proof.
  simpl. split; [exists [LSender 0 false; LSender 0 false]; vm_compute; reflexivity|].
  apply (unbounded_depth_zero (new unbounded Tasks) 1 (mkSys 0 None [Done (Ok ())] [0] true RIdle));
    [reflexivity|exists [LSender 0 false; LSender 0 false]; vm_compute; reflexivity].
Defined.

(** ** Lost wake-ups in the blocking modes *)

(** A sender waits although there is room and nobody is left to wake it: no
    step is enabled but a spurious wake-up, closing the mailbox, or a sender
    that had returned starting a new send. *)
Definition stuck_waiter (lim : Limits) (s : Sys) : Prop :=
  (∃ i, senders s !! i = Some CvWaiting ∨ senders s !! i = Some AsyncWaiting) ∧
  (∃ cap, capacity lim = Some cap ∧ (depth s < cap)%N) ∧
  (∀ l s', step lim l s = Some s' →
     l = LClose ∨ (∃ i, l = LSpurious i) ∨
     ∃ i weak r, l = LSender i weak ∧ senders s !! i = Some (Done r)).

Definition bl1 (rt : MailboxRuntime) : Limits := new (mkMailboxConfig (Some 1%N) Block) rt.

(** Sender 0 fills the mailbox; sender 1 sees it full; the receiver takes
    the message, decrements and notifies; only then does sender 1 start to
    wait. *)
Definition lost_wakeup (rt : MailboxRuntime) : list Label :=
  match rt with
  | Threads =>
      [LSender 0 false; LSender 0 false; LSender 0 false; LSender 0 false; LSender 0 false;
       LSender 1 false; LSender 1 false; LSender 1 false;
       LReceiver; LReceiver; LReceiver; LSender 1 false]
  | Tasks =>
      [LSender 0 false; LSender 0 false; LSender 0 false; LSender 0 false;
       LSender 1 false; LSender 1 false;
       LReceiver; LReceiver; LReceiver; LSender 1 false]
  end.
Definition lost_wakeup_end (rt : MailboxRuntime) : Sys :=
  mkSys 0 None [Done (Ok ()); match rt with Threads => CvWaiting | Tasks => AsyncWaiting end]
    [] true RIdle.

(** In both runtimes a blocking sender can miss its wake-up: the counter
    is checked before the sender registers as a waiter, and the receiver
    decrements and notifies without the lock, so a message taken in between
    leaves the sender waiting on an empty mailbox with nobody to notify it. *)
Theorem blocking_send_lost_wakeup rt :
  ∃ s, reachable (bl1 rt) 2 s ∧ chan s = [] ∧ stuck_waiter (bl1 rt) s.
Proof.
  exists (lost_wakeup_end rt). split; [|split; [done|]].
  { exists (lost_wakeup rt). destruct rt; vm_compute; reflexivity. }
  split; [|split].
  - exists 1. destruct rt; [right|left]; done.
  - exists 1%N. split; [done|]. simpl. lia.
  - intros [i weak| | |i] s'; simpl; try done.
    + destruct i as [|[|i]]; simpl; [eauto 10| |done]. by destruct rt.
    + by left.
    + eauto.
Qed.
