(* ===== verification/ChildSpec.v ===== *)
(** * Child specifications

    Model of [concurrency/src/child_spec.rs] and of the constructors of
    [concurrency/src/tasks/child_spec.rs] (the threads file has the same
    text): restart, shutdown and back-off policies, [should_restart],
    [delay_for_attempt] and the [ChildSpec] record with its builders.

    The shutdown routines of the same source file act on a running child and
    are modelled with the child handles, in [Handles]. *)

From S2P Require Import Prelude Address Errors Mailbox.

(** ** Policies *)

Inductive RestartType := Permanent | Transient | Temporary.

Inductive ShutdownType :=
| Infinity
| Timeout (d : Duration)
| BrutalKill.

Inductive ChildType := Worker | SupervisorChild.

Record RestartIntensity := mkRestartIntensity { max_restarts : N; within : Duration }.

Inductive RestartBackoff :=
| NoBackoff
| Fixed (delay : Duration)
| Exponential (base max : Duration).

#[global] Instance RestartType_eq_dec : EqDecision RestartType.
Proof. solve_decision. Defined.
#[global] Instance ShutdownType_eq_dec : EqDecision ShutdownType.
Proof. solve_decision. Defined.
#[global] Instance ChildType_eq_dec : EqDecision ChildType.
Proof. solve_decision. Defined.
#[global] Instance RestartBackoff_eq_dec : EqDecision RestartBackoff.
Proof. solve_decision. Defined.

Definition DEFAULT_WORKER_SHUTDOWN : ShutdownType := Timeout (from_secs 5).

(** [RestartIntensity::default]. *)
Definition default_intensity : RestartIntensity := mkRestartIntensity 3 (from_secs 5).

(** [RestartBackoff::default]. *)
Definition default_backoff : RestartBackoff := NoBackoff.

(** [RestartBackoff::delay_for_attempt]; [attempt] is a [u32]. *)
Definition delay_for_attempt (self : RestartBackoff) (attempt : Z) : Duration :=
  match self with
  | NoBackoff => 0%Z
  | Fixed delay => delay
  | Exponential base max =>
      let shift := Z.min (saturating_sub_u32 attempt 1) 20 in
      Z.min (duration_saturating_mul base (Z.shiftl 1 shift)) max
  end.

Definition should_restart (restart : RestartType) (reason : ExitReason) : bool :=
  match restart with
  | Permanent => match reason with Shutdown => false | _ => true end
  | Transient => is_abnormal reason
  | Temporary => false
  end.

(** [warn_supervisor_timeout]: whether the warning is logged. *)
Definition warn_supervisor_timeout (child_type : ChildType) (shutdown : ShutdownType) : bool :=
  match child_type, shutdown with
  | SupervisorChild, Timeout _ => true
  | _, _ => false
  end.

(** ** The record and its builders *)

(** [Placement] of [cluster/remote_spawn.rs]. *)
Inductive Placement := PLocal | PRemote (n : NodeId).

Inductive RemoteChildSpec :=
| Named (spec_name : string)
| RemoteWorker (worker_type : string) (init : list Byte.byte).

Record PgMembership := mkPgMembership { scope : string; group : string }.

(** The default scope of [pg.rs]. *)
Definition DEFAULT_SCOPE : string := "default".

(** The type-erased start function is a closure over the user's actor
    constructor: the one that the [worker] and [supervisor] constructors
    build (start the actor linked to the parent), or the one of remote
    specs, which panics. [A] is what the user's constructor returns. *)
Inductive ChildStartFn (A : Type) :=
| StartLinked (make : A)
| UnreachableStart.
Arguments StartLinked {A} make.
Arguments UnreachableStart {A}.

Record ChildSpec (A : Type) := mkChildSpec {
  cs_id : string;
  cs_restart : RestartType;
  cs_shutdown : ShutdownType;
  cs_child_type : ChildType;
  cs_mailbox : MailboxConfig;
  cs_backoff : RestartBackoff;
  cs_pg_membership : option PgMembership;
  cs_start : ChildStartFn A;
  cs_placement : Placement;
  cs_remote : option RemoteChildSpec
}.
Arguments mkChildSpec {A}.
Arguments cs_id {A}. Arguments cs_restart {A}. Arguments cs_shutdown {A}.
Arguments cs_child_type {A}. Arguments cs_mailbox {A}. Arguments cs_backoff {A}.
Arguments cs_pg_membership {A}. Arguments cs_start {A}. Arguments cs_placement {A}.
Arguments cs_remote {A}.

Section builders.
Context {A : Type}.
Implicit Types self : ChildSpec A.

Definition worker (id : string) (start : A) (restart : RestartType) : ChildSpec A :=
  mkChildSpec id restart DEFAULT_WORKER_SHUTDOWN Worker default_worker default_backoff
    None (StartLinked start) PLocal None.

Definition supervisor_spec (id : string) (start : A) (restart : RestartType) : ChildSpec A :=
  mkChildSpec id restart Infinity SupervisorChild unbounded default_backoff
    None (StartLinked start) PLocal None.

Definition remote_named (id spec_name : string) (placement : NodeId) (restart : RestartType)
    : ChildSpec A :=
  mkChildSpec id restart DEFAULT_WORKER_SHUTDOWN Worker default_worker default_backoff
    None UnreachableStart (PRemote placement) (Some (Named spec_name)).

(** [init] is the payload already serialized by postcard. *)
Definition remote_worker (id worker_type : string) (init : list Byte.byte)
    (placement : NodeId) (restart : RestartType) : ChildSpec A :=
  mkChildSpec id restart DEFAULT_WORKER_SHUTDOWN Worker default_worker default_backoff
    None UnreachableStart (PRemote placement) (Some (RemoteWorker worker_type init)).

Definition with_pg_group_scoped (sc gr : string) self : ChildSpec A :=
  mkChildSpec (cs_id self) (cs_restart self) (cs_shutdown self) (cs_child_type self)
    (cs_mailbox self) (cs_backoff self) (Some (mkPgMembership sc gr)) (cs_start self)
    (cs_placement self) (cs_remote self).

Definition with_pg_group (gr : string) self : ChildSpec A :=
  with_pg_group_scoped DEFAULT_SCOPE gr self.

Definition has_pg_membership self : bool := bool_decide (is_Some (cs_pg_membership self)).

Definition with_shutdown (shutdown : ShutdownType) self : ChildSpec A :=
  mkChildSpec (cs_id self) (cs_restart self) shutdown (cs_child_type self)
    (cs_mailbox self) (cs_backoff self) (cs_pg_membership self) (cs_start self)
    (cs_placement self) (cs_remote self).

Definition with_mailbox (mailbox : MailboxConfig) self : ChildSpec A :=
  mkChildSpec (cs_id self) (cs_restart self) (cs_shutdown self) (cs_child_type self)
    mailbox (cs_backoff self) (cs_pg_membership self) (cs_start self)
    (cs_placement self) (cs_remote self).

Definition with_backoff (backoff : RestartBackoff) self : ChildSpec A :=
  mkChildSpec (cs_id self) (cs_restart self) (cs_shutdown self) (cs_child_type self)
    (cs_mailbox self) backoff (cs_pg_membership self) (cs_start self)
    (cs_placement self) (cs_remote self).

Definition is_remote self : bool :=
  match cs_placement self with PRemote _ => true | PLocal => false end.

Definition with_placement (placement : Placement) self : ChildSpec A :=
  mkChildSpec (cs_id self) (cs_restart self) (cs_shutdown self) (cs_child_type self)
    (cs_mailbox self) (cs_backoff self) (cs_pg_membership self) (cs_start self)
    placement (cs_remote self).
End builders.

(** ** Properties *)

(** The documented formula: [base * 2^(attempt - 1)], capped at [max]. *)
Definition documented_exponential (base max : Duration) (attempt : Z) : Duration :=
  Z.min (base * 2 ^ (attempt - 1))%Z max.

Lemma delay_exponential base max attempt :
  (0 ≤ base)%Z → (max ≤ DURATION_MAX)%Z → (1 ≤ attempt)%Z →
  delay_for_attempt (Exponential base max) attempt =
    Z.min (base * 2 ^ Z.min (attempt - 1) 20)%Z max.
Proof.
  intros Hb Hm Ha. unfold delay_for_attempt, duration_saturating_mul, saturating_sub_u32.
  rewrite Z.max_l by lia. rewrite Z.shiftl_1_l. lia.
Qed.

(** The exponential delay never decreases, never exceeds [max], and is
    the documented [base * 2^(attempt - 1)] capped at [max] exactly when the
    attempt is at most 21 or [max] is reached by doubling 20 times: the code
    stops doubling after 20 doublings, which the documentation does not say. *)
Theorem backoff_delay_spec base max attempt :
  (0 < base)%Z → (base ≤ max)%Z → (max ≤ DURATION_MAX)%Z → (1 ≤ attempt ≤ U32_MAX)%Z →
  let delay := delay_for_attempt (Exponential base max) in
  (base ≤ delay attempt ≤ max)%Z ∧
  (delay attempt ≤ delay (saturating_add_u32 attempt 1))%Z ∧
  (delay attempt = documented_exponential base max attempt ↔
     (attempt ≤ 21)%Z ∨ (max ≤ base * 2 ^ 20)%Z).
Proof.
  intros Hb Hle Hm [Ha Hu] delay. subst delay. unfold documented_exponential.
  assert (1 ≤ saturating_add_u32 attempt 1)%Z as Ha' by (unfold saturating_add_u32; lia).
  rewrite !delay_exponential by lia. split; [|split].
  - assert (0 < 2 ^ Z.min (attempt - 1) 20)%Z by (apply Z.pow_pos_nonneg; lia). nia.
  - assert (2 ^ Z.min (attempt - 1) 20 ≤ 2 ^ Z.min (saturating_add_u32 attempt 1 - 1) 20)%Z.
    { apply Z.pow_le_mono_r; unfold saturating_add_u32; lia. }
    nia.
  - destruct (decide (attempt ≤ 21)%Z) as [H21|H21].
    { rewrite (Z.min_l (attempt - 1) 20) by lia. tauto. }
    rewrite (Z.min_r (attempt - 1) 20) by lia.
    assert (2 ^ 20 < 2 ^ (attempt - 1))%Z by (apply Z.pow_lt_mono_r; lia).
    assert (base * 2 ^ 20 < base * 2 ^ (attempt - 1))%Z by (apply Z.mul_lt_mono_pos_l; lia).
    lia.
Qed.

Lemma backoff_delay_spec_witness :
  let delay := delay_for_attempt (Exponential 10 1000) in
  (10 ≤ delay 5 ≤ 1000)%Z ∧ (delay 5 ≤ delay (saturating_add_u32 5 1))%Z ∧
  (delay 5%Z = documented_exponential 10 1000 5 ↔ (5 ≤ 21)%Z ∨ (1000 ≤ 10 * 2 ^ 20)%Z).
Proof.
  apply (backoff_delay_spec 10 1000 5);
    [lia|lia|vm_compute; discriminate|split; vm_compute; discriminate].
Defined.

(** Which exits are restarted: a permanent child on every exit but an
    ordered [Shutdown], a transient one exactly on abnormal exits, a
    temporary one never; hence no policy ever restarts a child after
    [Shutdown], and every child that is not temporary is restarted after a
    panic or a kill. *)
Theorem should_restart_spec restart reason :
  should_restart restart reason = true ↔
    restart ≠ Temporary ∧ reason ≠ Shutdown ∧ (restart = Transient → reason ≠ Normal).
Proof. destruct restart, reason; simpl; intuition congruence. Qed.
