(* ===== verification/SupervisorLogic.v ===== *)
(** * The restart policy engine

    Model of [concurrency/src/supervisor/mod.rs]: the sliding-window
    intensity tracker and [SupervisorLogic], which both runtimes' supervisors
    use to decide what to do when a child exits. *)

From S2P Require Import Prelude Address Errors ChildSpec.

Inductive SupervisorStrategy := OneForOne | OneForAll | RestForOne.

Inductive SupervisorAction :=
| Ignore
| RestartOne (id : string)
| TerminateBatch (ids : list string)
| Meltdown.

Record ChildPolicy := mkChildPolicy {
  cp_id : string;
  cp_restart : RestartType;
  start_index : nat
}.

Record ChildHandleSlot := mkSlot { slot_id : ActorId; alive : bool }.

Record SupervisedChild := mkChild { policy : ChildPolicy; handle : option ChildHandleSlot }.

Record ChildInfo := mkChildInfo {
  ci_id : string;
  ci_actor_id : ActorId;
  ci_alive : bool;
  ci_restart : RestartType;
  ci_start_index : nat
}.

#[global] Instance SupervisorStrategy_eq_dec : EqDecision SupervisorStrategy.
Proof. solve_decision. Defined.
#[global] Instance SupervisorAction_eq_dec : EqDecision SupervisorAction.
Proof. solve_decision. Defined.
#[global] Instance ChildPolicy_eq_dec : EqDecision ChildPolicy.
Proof. solve_decision. Defined.
#[global] Instance ChildHandleSlot_eq_dec : EqDecision ChildHandleSlot.
Proof. solve_decision. Defined.
#[global] Instance SupervisedChild_eq_dec : EqDecision SupervisedChild.
Proof. solve_decision. Defined.
#[global] Instance ChildInfo_eq_dec : EqDecision ChildInfo.
Proof. solve_decision. Defined.

(** ** Restart intensity *)

Module Intensity.

Record IntensityTracker := mkTracker {
  intensity : RestartIntensity;
  restart_timestamps : list Instant
}.

(** [IntensityExceeded] is a unit struct. *)
Inductive IntensityExceeded := Exceeded.

Definition new (i : RestartIntensity) : IntensityTracker := mkTracker i [].

(** The [while let] loop of [record_restart]: pop expired timestamps off the
    front. *)
Fixpoint pop_expired (window : Duration) (now : Instant) (ts : list Instant) : list Instant :=
  match ts with
  | [] => []
  | front :: ts' =>
      if decide (window < duration_since now front)%Z
      then pop_expired window now ts'
      else front :: ts'
  end.

Definition record_restart (now : Instant) (self : IntensityTracker)
    : Result () IntensityExceeded * IntensityTracker :=
  let ts := pop_expired (within (intensity self)) now (restart_timestamps self) in
  if decide (max_restarts (intensity self) ≤ N.of_nat (length ts))%N
  then (Err Exceeded, mkTracker (intensity self) ts)
  else (Ok (), mkTracker (intensity self) (ts ++ [now])).

Definition restart_count (self : IntensityTracker) : nat := length (restart_timestamps self).

(** *** The reference: a restart is accepted when fewer than [max_restarts]
    accepted restarts lie within the window that ends now. *)

Definition recent (window : Duration) (now : Instant) (hist : list Instant) : list Instant :=
  iter_filter (λ t, bool_decide (now - t ≤ window)%Z) hist.

Definition spec_record (i : RestartIntensity) (now : Instant) (hist : list Instant)
    : bool * list Instant :=
  if decide (N.of_nat (length (recent (within i) now hist)) < max_restarts i)%N
  then (true, hist ++ [now])
  else (false, hist).

(** The tracker after [hist] accepted restarts, the last attempt at [last]. *)
Record sim (i : RestartIntensity) (last : Instant) (hist : list Instant)
    (t : IntensityTracker) : Prop := {
  sim_intensity : intensity t = i;
  sim_sorted : StronglySorted Z.le hist;
  sim_past : Forall (λ x, x ≤ last)%Z hist;
  sim_window : restart_timestamps t = recent (within i) last hist
}.

Lemma recent_cons w now a l :
  recent w now (a :: l) =
    if bool_decide (now - a ≤ w)%Z then a :: recent w now l else recent w now l.
Proof. done. Qed.

Lemma recent_sorted w now hist :
  StronglySorted Z.le hist → StronglySorted Z.le (recent w now hist).
Proof.
  induction 1 as [|a l Hs IH Ha]; [constructor|]. rewrite recent_cons.
  case_bool_decide; [|done]. constructor; [done|].
  rewrite Forall_forall in Ha. apply Forall_forall.
  intros x [Hx _]%elem_of_iter_filter. auto.
Qed.

Lemma pop_expired_recent w now hist :
  (0 ≤ w)%Z → StronglySorted Z.le hist → pop_expired w now hist = recent w now hist.
Proof.
  intros Hw. induction 1 as [|a l Hs IH Ha]; [done|]. rewrite recent_cons. simpl.
  unfold duration_since.
  destruct (decide _) as [Hd|Hd].
  - rewrite bool_decide_eq_false_2 by lia. done.
  - rewrite bool_decide_eq_true_2 by lia. f_equal. symmetry. apply iter_filter_all.
    intros x Hx. rewrite Forall_forall in Ha. apply Ha in Hx.
    apply bool_decide_eq_true_2. lia.
Qed.

Lemma recent_recent w last now hist :
  (last ≤ now)%Z → recent w now (recent w last hist) = recent w now hist.
Proof.
  intros H. induction hist as [|a l IH]; [done|]. rewrite !(recent_cons _ _ a).
  destruct (bool_decide (last - a ≤ w)%Z) eqn:E1.
  - rewrite recent_cons. destruct (bool_decide (now - a ≤ w)%Z); by rewrite IH.
  - bool_simpl. rewrite bool_decide_eq_false_2 by lia. done.
Qed.

Lemma recent_app w now h1 h2 : recent w now (h1 ++ h2) = recent w now h1 ++ recent w now h2.
Proof. apply iter_filter_app. Qed.

Lemma sim_new i last : sim i last [] (new i).
Proof. split; [done|constructor|constructor|done]. Qed.

Lemma sim_step i last hist t now :
  (0 ≤ within i)%Z → (last ≤ now)%Z → sim i last hist t →
  is_ok (fst (record_restart now t)) = fst (spec_record i now hist) ∧
  sim i now (snd (spec_record i now hist)) (snd (record_restart now t)).
Proof.
  intros Hw Hle [Hi Hs Hp Hwin]. unfold record_restart, spec_record.
  rewrite Hi, Hwin, pop_expired_recent by auto using recent_sorted.
  rewrite recent_recent by done.
  assert (Forall (λ x, x ≤ now)%Z hist) as Hp' by (eapply Forall_impl; [done|simpl; lia]).
  destruct (decide (max_restarts i ≤ _)%N), (decide (_ < max_restarts i)%N); try lia; simpl.
  - split; [done|]. by split.
  - split; [done|]. split; simpl; [done|by apply StronglySorted_snoc| |].
    + apply Forall_app. split; [done|]. apply Forall_singleton. lia.
    + rewrite recent_app. f_equal. rewrite recent_cons, bool_decide_eq_true_2 by lia. done.
Qed.

(** Running a sequence of attempts. *)
Fixpoint run (ts : list Instant) (t : IntensityTracker) : list bool * IntensityTracker :=
  match ts with
  | [] => ([], t)
  | now :: ts =>
      let '(r, t) := record_restart now t in
      let '(rs, t) := run ts t in (is_ok r :: rs, t)
  end.
Fixpoint spec_run (i : RestartIntensity) (ts hist : list Instant) : list bool * list Instant :=
  match ts with
  | [] => ([], hist)
  | now :: ts =>
      let '(r, hist) := spec_record i now hist in
      let '(rs, hist) := spec_run i ts hist in (r :: rs, hist)
  end.

Lemma run_sim i ts last hist t :
  (0 ≤ within i)%Z → StronglySorted Z.le (last :: ts) → sim i last hist t →
  fst (run ts t) = fst (spec_run i ts hist) ∧
  ∃ last', sim i last' (snd (spec_run i ts hist)) (snd (run ts t)).
Proof.
  intros Hw. revert last hist t. induction ts as [|now ts IH]; intros last hist t Hs Hsim; simpl.
  { eauto. }
  apply StronglySorted_inv in Hs as [Hs Hl]. apply Forall_cons in Hl as [Hl _].
  destruct (sim_step i last hist t now Hw Hl Hsim) as [Hr Hsim'].
  destruct (record_restart now t) as [r t'], (spec_record i now hist) as [r' hist'].
  simpl in *. subst r'. destruct (IH now hist' t' Hs Hsim') as [He Hex].
  destruct (run ts t'), (spec_run i ts hist'). simpl in *. split; [by f_equal|done].
Qed.

(** C27: the tracker, which keeps only a pruned queue of timestamps, decides
    exactly as the reference that keeps every accepted restart and counts
    those within the window ending now, for any attempts made at
    non-decreasing times. *)
Theorem tracker_refines_window i ts :
  (0 ≤ within i)%Z → StronglySorted Z.le ts →
  fst (run ts (new i)) = fst (spec_run i ts []).
Proof.
  intros Hw Hs. destruct ts as [|t0 ts]; [done|].
  apply (run_sim i (t0 :: ts) t0 [] (new i)); [done| |apply sim_new].
  constructor; [done|]. apply StronglySorted_inv in Hs as [_ Hf]. by constructor; [lia|].
Qed.

Lemma tracker_refines_window_witness :
  fst (run [0; 1; 2; 3; 9]%Z (new (mkRestartIntensity 3 5))) =
  fst (spec_run (mkRestartIntensity 3 5) [0; 1; 2; 3; 9]%Z []).
Proof.
  apply (tracker_refines_window (mkRestartIntensity 3 5) [0; 1; 2; 3; 9]%Z);
    [simpl; lia|repeat constructor; lia].
Defined.

(** *** No window contains more than [max_restarts] accepted restarts *)

Definition in_window (a w : Z) (hist : list Instant) : list Instant :=
  iter_filter (λ t, bool_decide (a ≤ t)%Z && bool_decide (t ≤ a + w)%Z) hist.

Definition rate_ok (i : RestartIntensity) (hist : list Instant) : Prop :=
  ∀ a, (N.of_nat (length (in_window a (within i) hist)) ≤ max_restarts i)%N.

Lemma in_window_recent a w now hist :
  Forall (λ x, x ≤ now)%Z hist → (a ≤ now ≤ a + w)%Z →
  length (in_window a w hist) ≤ length (recent w now hist).
Proof.
  intros Hf Hw. induction Hf as [|x l Hx Hf IH]; [done|].
  rewrite recent_cons. unfold in_window in *. simpl.
  destruct (bool_decide (a ≤ x)%Z) eqn:E1, (bool_decide (x ≤ a + w)%Z) eqn:E2; simpl;
    destruct (bool_decide (now - x ≤ w)%Z) eqn:E3; simpl; bool_simpl; try lia.
Qed.

Lemma rate_ok_spec_record i now hist :
  Forall (λ x, x ≤ now)%Z hist → rate_ok i hist → rate_ok i (snd (spec_record i now hist)).
Proof.
  intros Hf Hok a. unfold spec_record. destruct (decide _) as [Hd|Hd]; simpl; [|done].
  unfold in_window. rewrite iter_filter_app. simpl.
  destruct (bool_decide (a ≤ now)%Z) eqn:E1, (bool_decide (now ≤ a + within i)%Z) eqn:E2;
    simpl; rewrite ?app_nil_r; try apply Hok.
  bool_simpl. rewrite length_app. simpl.
  pose proof (in_window_recent a (within i) now hist Hf ltac:(lia)) as Hle.
  unfold in_window in Hle. lia.
Qed.

(** The tracker stands for a history of accepted restarts of admissible rate. *)
Definition tracks (i : RestartIntensity) (last : Instant) (hist : list Instant)
    (t : IntensityTracker) : Prop := sim i last hist t ∧ rate_ok i hist.

Lemma tracks_new i last : tracks i last [] (new i).
Proof. split; [apply sim_new|]. intros a. simpl. lia. Qed.

Lemma tracks_step i last hist t now :
  (0 ≤ within i)%Z → (last ≤ now)%Z → tracks i last hist t →
  let '(r, t') := record_restart now t in
  tracks i now (if is_ok r then hist ++ [now] else hist) t'.
Proof.
  intros Hw Hle [Hsim Hok]. destruct (sim_step i last hist t now Hw Hle Hsim) as [Hr Hsim'].
  assert (Forall (λ x, x ≤ now)%Z hist) as Hp.
  { eapply Forall_impl; [apply (sim_past _ _ _ _ Hsim)|simpl; lia]. }
  apply (rate_ok_spec_record i now hist Hp) in Hok.
  destruct (record_restart now t) as [r t']. simpl in *.
  assert (snd (spec_record i now hist) = if is_ok r then hist ++ [now] else hist) as <-; [|done].
  rewrite Hr. unfold spec_record. by destruct (decide _).
Qed.

End Intensity.

(** ** The policy engine *)

Import Intensity.

Inductive BatchRestart := All | FromIndex (i : nat).

Record SupervisorLogic := mkLogic {
  strategy : SupervisorStrategy;
  tracker : IntensityTracker;
  children : list SupervisedChild;
  suppress_restarts : bool;
  pending_batch_restart : option BatchRestart;
  backoff_attempts : gmap string Z
}.

Definition logic_new (s : SupervisorStrategy) (i : RestartIntensity) : SupervisorLogic :=
  mkLogic s (Intensity.new i) [] false None ∅.

Definition set_tracker (t : IntensityTracker) (self : SupervisorLogic) : SupervisorLogic :=
  mkLogic (strategy self) t (children self) (suppress_restarts self)
    (pending_batch_restart self) (backoff_attempts self).
Definition set_children (c : list SupervisedChild) (self : SupervisorLogic) : SupervisorLogic :=
  mkLogic (strategy self) (tracker self) c (suppress_restarts self)
    (pending_batch_restart self) (backoff_attempts self).
Definition set_suppress_restarts (value : bool) (self : SupervisorLogic) : SupervisorLogic :=
  mkLogic (strategy self) (tracker self) (children self) value
    (pending_batch_restart self) (backoff_attempts self).
Definition set_pending (p : option BatchRestart) (self : SupervisorLogic) : SupervisorLogic :=
  mkLogic (strategy self) (tracker self) (children self) (suppress_restarts self)
    p (backoff_attempts self).
Definition set_backoff_attempts (m : gmap string Z) (self : SupervisorLogic) : SupervisorLogic :=
  mkLogic (strategy self) (tracker self) (children self) (suppress_restarts self)
    (pending_batch_restart self) m.

(** [backoff_delay]: the attempt counter is bumped, saturating at
    [u32::MAX], before the delay is computed. *)
Definition backoff_delay (child_id : string) (policy : RestartBackoff) (self : SupervisorLogic)
    : Duration * SupervisorLogic :=
  match policy with
  | NoBackoff => (0%Z, self)
  | _ =>
      let attempt := saturating_add_u32 (default 0%Z (backoff_attempts self !! child_id)) 1 in
      (delay_for_attempt policy attempt,
       set_backoff_attempts (<[child_id := attempt]> (backoff_attempts self)) self)
  end.

Definition reset_backoff (child_id : string) (self : SupervisorLogic) : SupervisorLogic :=
  set_backoff_attempts (delete child_id (backoff_attempts self)) self.

(** The closures [child.handle.is_some_and(|slot| ...)]. *)
Definition slot_alive (c : SupervisedChild) : bool :=
  match handle c with Some slot => alive slot | None => false end.
Definition slot_is (a : ActorId) (c : SupervisedChild) : bool :=
  match handle c with Some slot => bool_decide (slot_id slot = a) | None => false end.
Definition slot_is_alive (a : ActorId) (c : SupervisedChild) : bool :=
  match handle c with
  | Some slot => bool_decide (slot_id slot = a) && alive slot
  | None => false
  end.
Definition has_id (id : string) (c : SupervisedChild) : bool :=
  bool_decide (cp_id (policy c) = id).

Definition child_index_by_actor (a : ActorId) (self : SupervisorLogic) : option nat :=
  position (slot_is_alive a) (children self).

Definition child_id_by_actor (a : ActorId) (self : SupervisorLogic) : option string :=
  child_index_by_actor a self ≫= λ idx, cp_id ∘ policy <$> children self !! idx.

Definition child_id_by_actor_any (a : ActorId) (self : SupervisorLogic) : option string :=
  cp_id ∘ policy <$> iter_find (slot_is a) (children self).

Definition child_count (self : SupervisorLogic) : nat :=
  length (iter_filter slot_alive (children self)).

Definition child_info (c : SupervisedChild) : option ChildInfo :=
  slot ← handle c;
  Some (mkChildInfo (cp_id (policy c)) (slot_id slot) (alive slot)
          (cp_restart (policy c)) (start_index (policy c))).

Definition list_children (self : SupervisorLogic) : list ChildInfo :=
  omap child_info (children self).

Definition has_child_id (id : string) (self : SupervisorLogic) : bool :=
  existsb (has_id id) (children self).

Definition is_child_alive (id : string) (self : SupervisorLogic) : bool :=
  existsb (λ c, has_id id c && slot_alive c) (children self).

Definition next_start_index (self : SupervisorLogic) : nat :=
  match iter_max (start_index ∘ policy <$> children self) with
  | Some index => index + 1
  | None => 0
  end.

(** [Vec::remove] at the first matching position. *)
Definition remove_child_where (p : SupervisedChild → bool) (self : SupervisorLogic)
    : bool * SupervisorLogic :=
  match position p (children self) with
  | None => (false, self)
  | Some index => (true, set_children (delete index (children self)) self)
  end.
Definition remove_child_by_id (id : string) (self : SupervisorLogic) : bool * SupervisorLogic :=
  remove_child_where (has_id id) self.
Definition remove_child_by_actor (a : ActorId) (self : SupervisorLogic)
    : bool * SupervisorLogic :=
  remove_child_where (slot_is a) self.

Definition kill_slot (c : SupervisedChild) : SupervisedChild :=
  mkChild (policy c) ((λ s, mkSlot (slot_id s) false) <$> handle c).

Definition mark_child_dead (a : ActorId) (self : SupervisorLogic) : SupervisorLogic :=
  match child_index_by_actor a self with
  | Some idx => set_children (alter kill_slot idx (children self)) self
  | None => self
  end.

Definition register_child (p : ChildPolicy) (h : ChildHandleSlot) (self : SupervisorLogic)
    : SupervisorLogic :=
  set_children (children self ++ [mkChild p (Some h)]) self.

Definition replace_child_handle (id : string) (h : ChildHandleSlot) (self : SupervisorLogic)
    : SupervisorLogic :=
  set_children
    (modify_first (has_id id) (λ c, mkChild (policy c) (Some h)) (children self)) self.

Definition all_child_ids (cs : list SupervisedChild) : list string := cp_id ∘ policy <$> cs.

Definition rest_for_one_ids (cs : list SupervisedChild) (from_index : nat) : list string :=
  cp_id ∘ policy <$>
    iter_filter (λ c, bool_decide (from_index ≤ start_index (policy c))) cs.

(** [on_child_exit]; [None] of the last match cannot occur, the index comes
    from [child_index_by_actor] (indexing would panic). *)
Definition on_child_exit (a : ActorId) (reason : ExitReason) (now : Instant)
    (self : SupervisorLogic) : SupervisorAction * SupervisorLogic :=
  if suppress_restarts self then (Ignore, self) else
  match child_index_by_actor a self ≫= λ i, children self !! i with
  | None => (Ignore, self)
  | Some child =>
      let child_id := cp_id (policy child) in
      let restart := cp_restart (policy child) in
      let start := start_index (policy child) in
      let self := mark_child_dead a self in
      if negb (should_restart restart reason) then (Ignore, reset_backoff child_id self) else
      let '(r, t) := record_restart now (tracker self) in
      let self := set_tracker t self in
      if is_err r then (Meltdown, self) else
      match strategy self with
      | OneForOne => (RestartOne child_id, self)
      | OneForAll =>
          let self := set_pending (Some All) (set_suppress_restarts true self) in
          (TerminateBatch (all_child_ids (children self)), self)
      | RestForOne =>
          let self := set_pending (Some (FromIndex start)) (set_suppress_restarts true self) in
          (TerminateBatch (rest_for_one_ids (children self) start), self)
      end
  end.

Definition note_exit_during_batch (a : ActorId) (self : SupervisorLogic) : SupervisorLogic :=
  mark_child_dead a self.

Definition batch_ids (pending : BatchRestart) (cs : list SupervisedChild) : list string :=
  match pending with
  | All => all_child_ids cs
  | FromIndex index => rest_for_one_ids cs index
  end.

Definition take_pending_restart_ids (self : SupervisorLogic)
    : option (list string) * SupervisorLogic :=
  match pending_batch_restart self with
  | None => (None, self)
  | Some pending =>
      (Some (batch_ids pending (children self)),
       set_suppress_restarts false (set_pending None self))
  end.

(** [children.get(index..)] is [None] when [index] exceeds the length. *)
Definition get_from (i : nat) (cs : list SupervisedChild) : option (list SupervisedChild) :=
  if decide (i ≤ length cs) then Some (drop i cs) else None.

Definition pending_batch_restart_complete (self : SupervisorLogic) : bool :=
  match pending_batch_restart self with
  | None => false
  | Some All => negb (existsb slot_alive (children self))
  | Some (FromIndex index) =>
      match get_from index (children self) with
      | Some slice => negb (existsb slot_alive slice)
      | None => false
      end
  end.

Definition shutdown_order (self : SupervisorLogic) : list string :=
  snd <$> sort_by_key_rev fst
    ((λ c, (start_index (policy c), cp_id (policy c))) <$> children self).

(** ** Operations as labels, for statements about whole histories *)

Inductive LogicOp :=
| OpExit (a : ActorId) (reason : ExitReason) (now : Instant)
| OpNote (a : ActorId)
| OpTake
| OpBackoff (id : string) (policy : RestartBackoff)
| OpReset (id : string)
| OpSuppress (value : bool)
| OpRegister (p : ChildPolicy) (h : ChildHandleSlot)
| OpReplace (id : string) (h : ChildHandleSlot)
| OpRemoveId (id : string)
| OpRemoveActor (a : ActorId).

Definition apply_op (op : LogicOp) (l : SupervisorLogic) : SupervisorAction * SupervisorLogic :=
  match op with
  | OpExit a reason now => on_child_exit a reason now l
  | OpNote a => (Ignore, note_exit_during_batch a l)
  | OpTake => (Ignore, snd (take_pending_restart_ids l))
  | OpBackoff id policy => (Ignore, snd (backoff_delay id policy l))
  | OpReset id => (Ignore, reset_backoff id l)
  | OpSuppress value => (Ignore, set_suppress_restarts value l)
  | OpRegister p h => (Ignore, register_child p h l)
  | OpReplace id h => (Ignore, replace_child_handle id h l)
  | OpRemoveId id => (Ignore, snd (remove_child_by_id id l))
  | OpRemoveActor a => (Ignore, snd (remove_child_by_actor a l))
  end.

Definition op_time (op : LogicOp) : option Instant :=
  match op with OpExit _ _ now => Some now | _ => None end.

Definition is_restart (act : SupervisorAction) : bool :=
  match act with RestartOne _ | TerminateBatch _ => true | _ => false end.

(** The times at which a restart was ordered. *)
Fixpoint restart_times (ops : list LogicOp) (l : SupervisorLogic) : list Instant :=
  match ops with
  | [] => []
  | op :: ops =>
      let '(act, l) := apply_op op l in
      (if is_restart act then option_list (op_time op) else []) ++ restart_times ops l
  end.

Lemma mark_child_dead_tracker a l : tracker (mark_child_dead a l) = tracker l.
Proof. unfold mark_child_dead. by destruct (child_index_by_actor a l). Qed.

(** The tracker moves only when an exit is handled, and a restart is ordered
    only when the tracker accepts it. *)
Lemma apply_op_tracker op l :
  let '(act, l') := apply_op op l in
  (tracker l' = tracker l ∧ is_restart act = false) ∨
  ∃ a reason now, op = OpExit a reason now ∧
    tracker l' = snd (record_restart now (tracker l)) ∧
    is_restart act = is_ok (fst (record_restart now (tracker l))).
Proof.
  destruct op; simpl; try (left; done).
  - unfold on_child_exit. destruct (suppress_restarts l); [by left|].
    destruct (_ ≫= _) as [c|]; [|by left].
    rewrite <- (mark_child_dead_tracker a l).
    destruct (should_restart _ _); simpl; [|left; done].
    destruct (record_restart now _) as [[[]|[]] t] eqn:Hr; simpl;
      [|right; exists a, reason, now; by rewrite Hr].
    destruct (strategy _); right; exists a, reason, now; by rewrite Hr.
  - left. split; [|done]. apply mark_child_dead_tracker.
  - left. unfold take_pending_restart_ids. by destruct (pending_batch_restart l).
  - left. by destruct policy0.
  - left. unfold remove_child_by_id, remove_child_where. by destruct (position _ _).
  - left. unfold remove_child_by_actor, remove_child_where. by destruct (position _ _).
Qed.

Lemma restart_times_tracks i ops l last hist :
  (0 ≤ within i)%Z → StronglySorted Z.le (last :: omap op_time ops) →
  tracks i last hist (tracker l) → rate_ok i (hist ++ restart_times ops l).
Proof.
  intros Hw. revert l last hist. induction ops as [|op ops IH]; intros l last hist Hs Ht; simpl.
  { rewrite app_nil_r. apply Ht. }
  pose proof (apply_op_tracker op l) as Hop. destruct (apply_op op l) as [act l'].
  destruct Hop as [[Htr ->]|(a & reason & now & -> & Htr & ->)]; csimpl in *.
  - apply (IH l' last); [|by rewrite Htr].
    destruct (op_time op); csimpl in Hs; [|done].
    apply StronglySorted_inv in Hs as [[Hs Hf']%StronglySorted_inv Hf].
    apply Forall_cons in Hf as [? Hf]. by constructor.
  - apply StronglySorted_inv in Hs as [Hs Hf]. apply Forall_cons in Hf as [Hle _].
    pose proof (tracks_step i last hist (tracker l) now Hw Hle Ht) as Hstep.
    destruct (record_restart now (tracker l)) as [r t]. simpl in *. subst t.
    destruct (is_ok r); simpl; [|by apply (IH l' now)].
    rewrite cons_middle, app_assoc. by apply (IH l' now).
Qed.

(** C7: whatever sequence of operations a supervisor performs on its policy
    engine, with exits handled at non-decreasing times, no time window of
    length [within] contains more than [max_restarts] restart orders
    ([RestartOne] or [TerminateBatch]); further restarts melt down. *)
Theorem restart_rate_bounded s i ops :
  (0 ≤ within i)%Z → StronglySorted Z.le (omap op_time ops) →
  rate_ok i (restart_times ops (logic_new s i)).
Proof.
  intros Hw Hs. destruct (omap op_time ops) as [|t0 ts] eqn:Ho.
  - apply (restart_times_tracks i ops _ 0 []); [done| |apply tracks_new].
    rewrite Ho. repeat constructor.
  - apply (restart_times_tracks i ops _ t0 []); [done| |apply tracks_new].
    rewrite Ho. constructor; [done|]. apply StronglySorted_inv in Hs as [_ Hf].
    by constructor; [lia|].
Qed.

(** Two crashes of one permanent child, with one restart allowed. *)
Definition crash_twice : list LogicOp :=
  let p := mkChildPolicy "w" Permanent 0 in
  [OpRegister p (mkSlot (from_raw 1) true); OpExit (from_raw 1) Kill 10;
   OpReplace "w" (mkSlot (from_raw 2) true); OpExit (from_raw 2) Kill 12].

Lemma restart_rate_bounded_witness :
  restart_times crash_twice (logic_new OneForOne (mkRestartIntensity 1 5)) = [10%Z] ∧
  rate_ok (mkRestartIntensity 1 5)
    (restart_times crash_twice (logic_new OneForOne (mkRestartIntensity 1 5))).
Proof.
  split; [vm_compute; reflexivity|].
  apply (restart_rate_bounded OneForOne (mkRestartIntensity 1 5) crash_twice);
    [simpl; lia|repeat constructor; lia].
Defined.

(** ** Well-formedness *)

(** Child ids are unique, start indices strictly increase along the child
    list, and no two live slots name the same actor. *)
Record wf (l : SupervisorLogic) : Prop := {
  wf_ids : NoDup (all_child_ids (children l));
  wf_index : StronglySorted (λ c d, start_index (policy c) < start_index (policy d)) (children l);
  wf_alive : ∀ a i j c d, children l !! i = Some c → children l !! j = Some d →
    slot_is_alive a c = true → slot_is_alive a d = true → i = j
}.

(** What the supervisors guarantee when they register or replace a child: a
    fresh child id, an index beyond all others, and a freshly started actor. *)
Definition fresh_actor (a : ActorId) (l : SupervisorLogic) : Prop :=
  ∀ c, c ∈ children l → slot_is_alive a c = false.
Definition op_ok (op : LogicOp) (l : SupervisorLogic) : Prop :=
  match op with
  | OpRegister p h =>
      has_child_id (cp_id p) l = false ∧ next_start_index l ≤ start_index p ∧
      fresh_actor (slot_id h) l
  | OpReplace _ h => fresh_actor (slot_id h) l
  | _ => True
  end.

Lemma slot_is_alive_kill a c : slot_is_alive a (kill_slot c) = false.
Proof. unfold slot_is_alive. destruct c as [p [[]|]]; simpl; [|done]. apply andb_false_r. Qed.

Lemma slot_is_alive_inv a c :
  slot_is_alive a c = true ↔ handle c = Some (mkSlot a true).
Proof.
  unfold slot_is_alive. destruct c as [p [[b []]|]]; simpl; [| |naive_solver].
  - rewrite andb_true_r, bool_decide_eq_true. naive_solver.
  - rewrite andb_false_r. naive_solver.
Qed.

Lemma slot_alive_iff c : slot_alive c = true ↔ ∃ a, slot_is_alive a c = true.
Proof.
  setoid_rewrite slot_is_alive_inv. unfold slot_alive.
  destruct c as [p [[b []]|]]; simpl; naive_solver.
Qed.

(** [mark_child_dead], in a state without duplicate live actors, kills
    exactly the slots of that actor. *)
Lemma mark_child_dead_map a l :
  wf l → children (mark_child_dead a l) =
    (λ c, if slot_is_alive a c then kill_slot c else c) <$> children l.
Proof.
  intros Hwf. unfold mark_child_dead, child_index_by_actor.
  destruct (position _ _) as [i|] eqn:Hp; simpl.
  - apply alter_unique; [|done]. intros j k x y. apply (wf_alive _ Hwf).
  - rewrite position_None in Hp. symmetry. etrans; [|apply list_fmap_id].
    apply list_fmap_ext. intros i x Hx%list_elem_of_lookup_2. by rewrite (Hp x Hx).
Qed.

Lemma mark_child_dead_policies a l :
  policy <$> children (mark_child_dead a l) = policy <$> children l.
Proof.
  unfold mark_child_dead. destruct (child_index_by_actor a l) as [i|]; [|done]. simpl.
  apply list_eq. intros j. rewrite !list_lookup_fmap.
  destruct (decide (i = j)) as [->|]; [|by rewrite list_lookup_alter_ne].
  rewrite list_lookup_alter_eq. by destruct (children l !! j).
Qed.

Lemma all_child_ids_policies cs : all_child_ids cs = cp_id <$> (policy <$> cs).
Proof. unfold all_child_ids. by rewrite list_fmap_compose. Qed.

Lemma sorted_index_policies cs :
  StronglySorted (λ c d, start_index (policy c) < start_index (policy d)) cs ↔
  StronglySorted (λ p q, start_index p < start_index q) (policy <$> cs).
Proof.
  induction cs as [|c cs IH]; csimpl; [split; constructor|].
  split; intros [Hs Hf]%StronglySorted_inv; constructor; try (by apply IH).
  - rewrite Forall_fmap. exact Hf.
  - rewrite Forall_fmap in Hf. exact Hf.
Qed.

(** Operations that keep the policies and only kill or keep slots. *)
Lemma wf_same_policies l l' :
  wf l → policy <$> children l' = policy <$> children l →
  (∀ i c a, children l' !! i = Some c → slot_is_alive a c = true →
     ∃ c', children l !! i = Some c' ∧ slot_is_alive a c' = true) → wf l'.
Proof.
  intros [Hi Hx Ha] Hp Hs. split.
  - by rewrite all_child_ids_policies, Hp, <- all_child_ids_policies.
  - by rewrite sorted_index_policies, Hp, <- sorted_index_policies.
  - intros a i j c d Hc Hd Hac Had.
    destruct (Hs i c a Hc Hac) as (c' & ? & ?), (Hs j d a Hd Had) as (d' & ? & ?). eauto.
Qed.

Lemma wf_mark_child_dead a l : wf l → wf (mark_child_dead a l).
Proof.
  intros Hwf. apply (wf_same_policies l); [done|apply mark_child_dead_policies|].
  rewrite mark_child_dead_map by done. intros i c b Hc Hb.
  apply list_lookup_fmap_Some in Hc as (c' & -> & Hc').
  exists c'. split; [done|]. destruct (slot_is_alive a c'); [|done].
  by rewrite slot_is_alive_kill in Hb.
Qed.

(** Operations that leave the children alone. *)
Lemma wf_same_children l l' : wf l → children l' = children l → wf l'.
Proof.
  intros Hwf He. apply (wf_same_policies l); [done|by rewrite He|]. rewrite He. eauto.
Qed.

Lemma next_start_index_gt l c : c ∈ children l → start_index (policy c) < next_start_index l.
Proof.
  intros Hc. unfold next_start_index.
  assert (start_index (policy c) ∈ start_index ∘ policy <$> children l) as Hin.
  { by apply (list_elem_of_fmap_2 (start_index ∘ policy)). }
  destruct (iter_max _) as [m|] eqn:Hm.
  - pose proof (iter_max_Some _ _ _ Hm Hin). lia.
  - destruct (children l); [by apply not_elem_of_nil in Hc|done].
Qed.

Lemma wf_register p h l : op_ok (OpRegister p h) l → wf l → wf (register_child p h l).
Proof.
  intros (Hid & Hidx & Hfr) [Hi Hx Ha]. split; simpl.
  - unfold all_child_ids. rewrite fmap_app. apply NoDup_app. split; [done|]. split.
    + intros id Hin. apply list_elem_of_fmap in Hin as (c & -> & Hc). csimpl.
      rewrite list_elem_of_singleton. intros He.
      unfold has_child_id in Hid. rewrite existsb_false in Hid.
      specialize (Hid c Hc). unfold has_id in Hid. by bool_simpl.
    + apply NoDup_singleton.
  - apply StronglySorted_snoc; [done|]. apply Forall_forall. intros c Hc. simpl.
    apply next_start_index_gt in Hc. lia.
  - intros a i j c d Hc Hd Hac Had.
    assert (∀ i e, children l !! i = Some e → slot_is_alive a e = true →
      slot_is_alive a (mkChild p (Some h)) = true → False) as Hno.
    { intros k e He%list_elem_of_lookup_2 Hae Hah. apply slot_is_alive_inv in Hah as [= ->].
      apply Hfr in He. simpl in He. congruence. }
    apply lookup_snoc_Some in Hc as [[? Hc]|[-> <-]], Hd as [[? Hd]|[-> <-]];
      eauto; exfalso; eauto.
Qed.

Lemma wf_replace id h l : fresh_actor (slot_id h) l → wf l → wf (replace_child_handle id h l).
Proof.
  intros Hfr [Hi Hx Ha]. unfold replace_child_handle.
  set (f := λ c, mkChild (policy c) (Some h)).
  assert (policy <$> modify_first (has_id id) f (children l) = policy <$> children l) as Hpol.
  { by apply fmap_modify_first. }
  split; simpl.
  - by rewrite all_child_ids_policies, Hpol, <- all_child_ids_policies.
  - by rewrite sorted_index_policies, Hpol, <- sorted_index_policies.
  - destruct (position (has_id id) (children l)) as [k|] eqn:Hp;
      [|rewrite modify_first_None by (by apply position_None); by apply Ha].
    rewrite (modify_first_alter _ _ _ k Hp). intros a i j c d Hc Hd Hac Had.
    apply list_alter_Some in Hc as [(-> & c' & Hc & ->)|[Hic Hc]],
      Hd as [(-> & d' & Hd & ->)|[Hjd Hd]]; eauto.
    + apply slot_is_alive_inv in Hac as [= ->]. apply list_elem_of_lookup_2, Hfr in Hd.
      simpl in Hd. congruence.
    + apply slot_is_alive_inv in Had as [= ->]. apply list_elem_of_lookup_2, Hfr in Hc.
      simpl in Hc. congruence.
Qed.

Lemma wf_remove p l : wf l → wf (snd (remove_child_where p l)).
Proof.
  intros [Hi Hx Ha]. unfold remove_child_where.
  destruct (position p (children l)) as [k|]; [|done]. split; simpl.
  - unfold all_child_ids in *. rewrite list_fmap_delete.
    eapply sublist_NoDup; [done|]. apply sublist_delete.
  - by apply StronglySorted_delete.
  - intros a i j c d Hc Hd Hac Had. rewrite list_lookup_delete in Hc, Hd.
    destruct (decide _), (decide _); pose proof (Ha _ _ _ _ _ Hc Hd Hac Had); lia.
Qed.

Lemma on_child_exit_children a reason now l :
  children (snd (on_child_exit a reason now l)) = children l ∨
  children (snd (on_child_exit a reason now l)) = children (mark_child_dead a l).
Proof.
  unfold on_child_exit. destruct (suppress_restarts l); [by left|].
  destruct (_ ≫= _) as [c|]; [|by left]. right.
  destruct (should_restart _ _); [|done]. simpl.
  destruct (record_restart now _) as [[] ?]; [|done]. simpl. by destruct (strategy _).
Qed.

Lemma wf_on_child_exit a reason now l : wf l → wf (snd (on_child_exit a reason now l)).
Proof.
  intros Hwf. destruct (on_child_exit_children a reason now l) as [He|He].
  - by apply (wf_same_children l).
  - apply (wf_same_children (mark_child_dead a l)); [|done]. by apply wf_mark_child_dead.
Qed.

(** Every operation of the policy engine preserves its well-formedness:
    unique child ids, start indices increasing along the list, no actor
    behind two live slots; registering needs a fresh child id, an index not
    below [next_start_index] and a new actor, replacing a new actor. *)
Theorem logic_wf_preserved op l : op_ok op l → wf l → wf (snd (apply_op op l)).
Proof.
  destruct op; intros Hok Hwf; simpl.
  - by apply wf_on_child_exit.
  - by apply wf_mark_child_dead.
  - unfold take_pending_restart_ids.
    destruct (pending_batch_restart l); by apply (wf_same_children l).
  - destruct policy0; by apply (wf_same_children l).
  - by apply (wf_same_children l).
  - by apply (wf_same_children l).
  - by apply wf_register.
  - by apply wf_replace.
  - by apply wf_remove.
  - by apply wf_remove.
Qed.

Definition one_child : SupervisorLogic :=
  register_child (mkChildPolicy "w0" Permanent 0) (mkSlot (from_raw 1) true)
    (logic_new RestForOne default_intensity).

Lemma wf_new s i : wf (logic_new s i).
Proof. split; simpl; [constructor|constructor|]. intros a i' j c d Hc. by destruct i'. Qed.

Lemma logic_wf_preserved_witness :
  wf (snd (apply_op (OpRegister (mkChildPolicy "w1" Transient 1) (mkSlot (from_raw 2) true))
             one_child)).
Proof.
  apply (logic_wf_preserved
    (OpRegister (mkChildPolicy "w1" Transient 1) (mkSlot (from_raw 2) true)) one_child).
  - split; [reflexivity|]. split; [vm_compute; lia|].
    intros c Hc. apply list_elem_of_singleton in Hc as ->. reflexivity.
  - apply wf_register; [|apply wf_new]. split; [reflexivity|]. split; [vm_compute; lia|].
    intros c Hc. by apply not_elem_of_nil in Hc.
Defined.

(** ** Lemmas for the supervisors *)

(** The children after [mark_child_dead]. *)
Lemma elem_of_marked a l c :
  wf l → c ∈ children (mark_child_dead a l) ↔
  ∃ d, d ∈ children l ∧ c = if slot_is_alive a d then kill_slot d else d.
Proof.
  intros Hwf. rewrite mark_child_dead_map by done. rewrite list_elem_of_fmap. naive_solver.
Qed.

Lemma slot_is_alive_slot_id a c slot :
  handle c = Some slot → slot_is_alive a c = true → slot_id slot = a.
Proof. intros Hh Ha. apply slot_is_alive_inv in Ha. rewrite Hh in Ha. by injection Ha as ->. Qed.

(** The children after [replace_child_handle], for unique ids. *)
Lemma elem_of_replaced id slot l c :
  wf l → c ∈ children (replace_child_handle id slot l) →
  ∃ d, d ∈ children l ∧ c = if has_id id d then mkChild (policy d) (Some slot) else d.
Proof.
  intros Hwf Hc. simpl in Hc.
  destruct (position (has_id id) (children l)) as [k|] eqn:Hp.
  - rewrite (modify_first_alter _ _ _ k Hp), (alter_unique (has_id id) _ _ k) in Hc; [|..|done].
    + apply list_elem_of_fmap in Hc as (d & -> & Hd). eauto.
    + intros j j' x y Hx Hy Hjx Hjy. unfold has_id in *. bool_simpl.
      apply (NoDup_lookup _ j j' id (wf_ids _ Hwf)); unfold all_child_ids;
        rewrite list_lookup_fmap; [rewrite Hx|rewrite Hy]; simpl; congruence.
  - rewrite position_None in Hp. rewrite modify_first_None in Hc by done.
    exists c. split; [done|]. by rewrite (Hp c Hc).
Qed.

Lemma backoff_delay_keeps id b l :
  let '(_, l') := backoff_delay id b l in
  children l' = children l ∧ suppress_restarts l' = suppress_restarts l ∧
  pending_batch_restart l' = pending_batch_restart l ∧ strategy l' = strategy l.
Proof. by destruct b. Qed.

Lemma on_child_exit_cases a r now l :
  suppress_restarts l = false → wf l →
  let '(act, l') := on_child_exit a r now l in
  children l' = children (mark_child_dead a l) ∧
  match act with
  | Ignore =>
      suppress_restarts l' = false ∧ pending_batch_restart l' = pending_batch_restart l ∧
      ∀ c, c ∈ children l → slot_is_alive a c = true → should_restart (cp_restart (policy c)) r = false
  | RestartOne id =>
      suppress_restarts l' = false ∧ pending_batch_restart l' = pending_batch_restart l ∧
      ∀ c, c ∈ children l → slot_is_alive a c = true → cp_id (policy c) = id
  | _ => True
  end ∧
  match act with RestartOne id => ∃ c, c ∈ children l ∧ cp_id (policy c) = id | _ => True end.
Proof.
  intros Hsup Hwf. unfold on_child_exit. rewrite Hsup.
  unfold child_index_by_actor at 1. destruct (position (slot_is_alive a) (children l)) as [i|] eqn:Hi.
  - pose proof Hi as Hi'. apply position_Some in Hi as (c & Hc & Hac & _). cbn [mbind option_bind].
    rewrite Hc.
    assert (∀ d, d ∈ children l → slot_is_alive a d = true → d = c) as Huniq.
    { intros d [j Hj]%list_elem_of_lookup Had. assert (i = j) as <- by (by apply (wf_alive _ Hwf a i j c d)).
      congruence. }
    assert (suppress_restarts (mark_child_dead a l) = false ∧
      pending_batch_restart (mark_child_dead a l) = pending_batch_restart l) as [Hs' Hp'].
    { unfold mark_child_dead. by destruct (child_index_by_actor a l). }
    destruct (should_restart (cp_restart (policy c)) r) eqn:Hr; simpl.
    + destruct (Intensity.record_restart now _) as [[] t]; simpl; [|done].
      destruct (strategy _); simpl; (split; [done|]); try done.
      split; [split_and!; try done|]; [|exists c; split; [by apply list_elem_of_lookup_2 in Hc|done]].
      intros d Hd Had. by rewrite (Huniq d Hd Had).
    + split; [done|]. split; [|done]. split_and!; try done. intros d Hd Had. by rewrite (Huniq d Hd Had).
  - cbn [mbind option_bind]. unfold mark_child_dead, child_index_by_actor. rewrite Hi.
    split; [done|]. split; [|done]. split_and!; try done. intros c Hc Hac.
    rewrite position_None in Hi. by rewrite (Hi c Hc) in Hac.
Qed.

Lemma on_child_exit_strategy a reason now l :
  strategy (snd (on_child_exit a reason now l)) = strategy l.
Proof.
  assert (strategy (mark_child_dead a l) = strategy l) as Hm
    by (unfold mark_child_dead; by destruct (child_index_by_actor a l)).
  unfold on_child_exit. destruct (suppress_restarts l); [done|].
  destruct (child_index_by_actor a l ≫= _) as [c|]; [|done].
  destruct (negb _); [done|]. destruct (record_restart now _) as [[] t]; simpl; [|done].
  destruct (strategy (mark_child_dead a l)) eqn:Hs; simpl; congruence.
Qed.

(** ** Shutdown order *)

Lemma shutdown_order_reverse l : wf l → shutdown_order l = reverse (all_child_ids (children l)).
Proof.
  intros Hwf. unfold shutdown_order. rewrite sort_by_key_rev_increasing.
  - rewrite fmap_reverse. f_equal. rewrite <- list_fmap_compose. done.
  - by eapply StronglySorted_fmap; [apply (wf_index _ Hwf)|].
Qed.

(** Children are shut down in reverse start order: [shutdown_order] is a
    permutation of the child ids whose start indices never increase, and on a
    well-formed supervisor it is exactly the reverse of the child list. *)
Theorem shutdown_order_spec l :
  (∃ keyed, snd <$> keyed = shutdown_order l ∧
     keyed ≡ₚ ((λ c, (start_index (policy c), cp_id (policy c))) <$> children l) ∧
     StronglySorted (λ a b, fst b ≤ fst a) keyed) ∧
  (wf l → shutdown_order l = reverse (all_child_ids (children l))).
Proof.
  split.
  - eexists. split; [done|]. split; [apply sort_by_key_rev_perm|apply sort_by_key_rev_sorted].
  - apply shutdown_order_reverse.
Qed.

(** ** Batch restarts *)

Definition targeted (pending : BatchRestart) (p : ChildPolicy) : bool :=
  match pending with All => true | FromIndex i => bool_decide (i ≤ start_index p) end.

(** Every registered child sits at the position of its start index: the
    case when all children of a static supervisor could be started. *)
Definition aligned (l : SupervisorLogic) : Prop :=
  ∀ i c, children l !! i = Some c → start_index (policy c) = i.

Definition note_all (acts : list ActorId) (l : SupervisorLogic) : SupervisorLogic :=
  foldl (λ l a, note_exit_during_batch a l) l acts.

Lemma batch_ids_policies pending cs :
  batch_ids pending cs = cp_id <$> iter_filter (targeted pending) (policy <$> cs).
Proof.
  destruct pending as [|i]; simpl.
  - rewrite iter_filter_all by done. apply all_child_ids_policies.
  - unfold rest_for_one_ids. induction cs as [|c cs IH]; csimpl; [done|].
    destruct (bool_decide _); csimpl; by rewrite IH.
Qed.

Lemma elem_of_batch_ids pending l c :
  NoDup (all_child_ids (children l)) → c ∈ children l →
  cp_id (policy c) ∈ batch_ids pending (children l) ↔ targeted pending (policy c) = true.
Proof.
  intros Hnd Hc. rewrite batch_ids_policies. split.
  - intros (p & Hid & Hp)%list_elem_of_fmap. apply elem_of_iter_filter in Hp as [Hp Ht].
    apply list_elem_of_fmap in Hp as (d & -> & Hd).
    rewrite all_child_ids_policies, <- list_fmap_compose in Hnd.
    apply list_elem_of_lookup in Hc as [i Hi], Hd as [j Hj].
    assert (i = j) as ->.
    { apply (NoDup_lookup _ i j (cp_id (policy c)) Hnd).
      - by rewrite list_lookup_fmap, Hi.
      - rewrite list_lookup_fmap, Hj. simpl. by rewrite Hid. }
    by simplify_eq.
  - intros Ht. apply list_elem_of_fmap_2. apply elem_of_iter_filter. split; [|done].
    by apply list_elem_of_fmap_2.
Qed.

(** Completion means that every target is dead. *)
Lemma complete_iff l pending :
  pending_batch_restart l = Some pending →
  (∀ i, pending = FromIndex i → aligned l ∧ i < length (children l)) →
  pending_batch_restart_complete l = true ↔
    (∀ c, c ∈ children l → targeted pending (policy c) = true → slot_alive c = false).
Proof.
  intros Hp Ha. unfold pending_batch_restart_complete. rewrite Hp.
  destruct pending as [|i]; simpl.
  - rewrite negb_true_iff, existsb_false. naive_solver.
  - destruct (Ha i eq_refl) as [Hal Hi]. unfold get_from. rewrite decide_True by lia.
    rewrite negb_true_iff, existsb_false. split.
    + intros H c [k Hk]%list_elem_of_lookup Ht. bool_simpl. apply H.
      rewrite (Hal k c Hk) in Ht. apply (list_elem_of_lookup_2 _ (k - i)).
      rewrite lookup_drop. by replace (i + (k - i)) with k by lia.
    + intros H c [k Hk]%list_elem_of_lookup. rewrite lookup_drop in Hk. apply H.
      * by apply list_elem_of_lookup_2 in Hk.
      * apply bool_decide_eq_true_2. rewrite (Hal _ c Hk). lia.
Qed.

Record same_batch (l l' : SupervisorLogic) : Prop := {
  sb_policies : policy <$> children l' = policy <$> children l;
  sb_pending : pending_batch_restart l' = pending_batch_restart l;
  sb_suppress : suppress_restarts l' = suppress_restarts l
}.

Lemma same_batch_note a l : same_batch l (note_exit_during_batch a l).
Proof.
  split; [apply mark_child_dead_policies|..];
    unfold note_exit_during_batch, mark_child_dead; by destruct (child_index_by_actor a l).
Qed.

Lemma same_batch_note_all acts l :
  wf l → same_batch l (note_all acts l) ∧ wf (note_all acts l) ∧
  (∀ c a, c ∈ children (note_all acts l) → slot_is_alive a c = true →
     (a ∉ acts) ∧ c ∈ children l).
Proof.
  revert l. induction acts as [|a acts IH]; intros l Hwf; simpl.
  { split; [done|]. split; [done|]. intros c b Hc _. split; [apply not_elem_of_nil|done]. }
  destruct (IH _ (wf_mark_child_dead a l Hwf)) as (Hsb & Hwf' & Hdead). split; [|split].
  - destruct (same_batch_note a l), Hsb. split; etrans; eauto.
  - done.
  - intros c b Hc Hb. destruct (Hdead c b Hc Hb) as [Hni Hin].
    unfold note_exit_during_batch in Hin. rewrite mark_child_dead_map in Hin by done.
    apply list_elem_of_fmap in Hin as (d & -> & Hd).
    destruct (slot_is_alive a d) eqn:Had; [by rewrite slot_is_alive_kill in Hb|].
    split; [|done]. rewrite elem_of_cons. intros [->|?]; [congruence|done].
Qed.

Lemma on_child_exit_batch a reason now l ids l1 :
  on_child_exit a reason now l = (TerminateBatch ids, l1) →
  ∃ pending c i, pending_batch_restart l1 = Some pending ∧ suppress_restarts l1 = true ∧
    ids = batch_ids pending (children l1) ∧
    children l1 = children (mark_child_dead a l) ∧
    children l !! i = Some c ∧ slot_is_alive a c = true ∧
    (pending = FromIndex (start_index (policy c)) ∧ strategy l = RestForOne ∨
     pending = All ∧ strategy l = OneForAll).
Proof.
  unfold on_child_exit, child_index_by_actor. destruct (suppress_restarts l); [done|].
  destruct (position _ _) as [i|] eqn:Hi; simpl; [|done].
  apply position_Some in Hi as (c & Hc & Hac & _). rewrite Hc.
  destruct (should_restart _ _); simpl; [|done].
  destruct (record_restart now _) as [[] t]; simpl; [|done].
  assert (strategy (mark_child_dead a l) = strategy l) as ->.
  { unfold mark_child_dead. by destruct (child_index_by_actor a l). }
  destruct (strategy l); intros [= <- <-]; eauto 20.
Qed.

Lemma aligned_policies l l' :
  policy <$> children l' = policy <$> children l → aligned l → aligned l'.
Proof.
  intros Hp Ha i c Hc.
  assert ((policy <$> children l') !! i = Some (policy c)) as Hl
    by (by rewrite list_lookup_fmap, Hc).
  rewrite Hp in Hl. apply list_lookup_fmap_Some in Hl as (d & -> & Hd). auto.
Qed.

(** The batch restart protocol of OneForAll and RestForOne. Once
    [on_child_exit] has answered [TerminateBatch ids] and whatever exits have
    been noted since, the batch is complete exactly when every child in
    [ids] is dead, it is complete as soon as the live targets have all been
    noted, and [take_pending_restart_ids] then returns the very ids that were
    terminated and lifts the suppression of restarts. RestForOne needs every
    child to sit at the position of its start index. *)
Theorem batch_protocol a reason now l ids l1 acts :
  wf l → (strategy l = RestForOne → aligned l) →
  on_child_exit a reason now l = (TerminateBatch ids, l1) →
  let l2 := note_all acts l1 in
  (pending_batch_restart_complete l2 = true ↔
     (∀ c, c ∈ children l2 → cp_id (policy c) ∈ ids → slot_alive c = false)) ∧
  ((∀ c b, c ∈ children l1 → cp_id (policy c) ∈ ids → slot_is_alive b c = true → b ∈ acts) →
     pending_batch_restart_complete l2 = true) ∧
  fst (take_pending_restart_ids l2) = Some ids ∧
  suppress_restarts (snd (take_pending_restart_ids l2)) = false.
Proof.
  intros Hwf Hal He l2.
  assert (wf l1) as Hwf1.
  { replace l1 with (snd (on_child_exit a reason now l)) by (by rewrite He).
    by apply wf_on_child_exit. }
  apply on_child_exit_batch in He
    as (pending & c0 & i0 & Hp & Hsup & Hids & Hch & Hc0 & Ha0 & Hstrat).
  destruct (same_batch_note_all acts l1 Hwf1) as ([Hpol Hpend Hs] & Hwf2 & Hdead).
  fold l2 in Hpol, Hpend, Hs, Hwf2, Hdead.
  assert (policy <$> children l2 = policy <$> children l) as Hpol2.
  { by rewrite Hpol, Hch, mark_child_dead_policies. }
  assert (ids = batch_ids pending (children l2)) as Hids2.
  { by rewrite Hids, !batch_ids_policies, Hpol. }
  assert (pending_batch_restart_complete l2 = true ↔
     (∀ c, c ∈ children l2 → cp_id (policy c) ∈ ids → slot_alive c = false)) as Hcomp.
  { rewrite (complete_iff l2 pending); [|by rewrite Hpend, Hp|].
    - split; intros H c Hc Ht; apply H; try done; rewrite Hids2 in *;
        by apply (elem_of_batch_ids pending l2 c (wf_ids _ Hwf2) Hc).
    - intros i ->. destruct Hstrat as [[[= ->] Hst]|[[=] _]].
      pose proof (aligned_policies l l2 Hpol2 (Hal Hst)) as Hal2. split; [done|].
      apply (f_equal length) in Hpol2. rewrite !length_fmap in Hpol2. rewrite Hpol2.
      rewrite (Hal Hst _ _ Hc0). by apply lookup_lt_Some in Hc0. }
  split; [done|]. split; [|].
  - intros Hall. apply Hcomp. intros c Hc Hid. apply not_true_iff_false. intros Hac.
    apply slot_alive_iff in Hac as [b Hb]. destruct (Hdead c b Hc Hb) as [Hni Hin]. eauto.
  - unfold take_pending_restart_ids. rewrite Hpend, Hp. simpl. by rewrite Hids2.
Qed.

(** Three children; the second dies. *)
Definition trio : SupervisorLogic :=
  foldl (λ l '(id, i), register_child (mkChildPolicy id Permanent i)
           (mkSlot (from_raw (N.of_nat i + 1)) true) l)
    (logic_new RestForOne default_intensity) [("a", 0); ("b", 1); ("c", 2)].

Lemma trio_wf : wf trio.
Proof.
  split.
  - apply (bool_decide_unpack _). vm_compute. exact I.
  - repeat constructor; simpl; lia.
  - intros x [|[|[|i]]] [|[|[|j]]] c d Hc Hd; try done; vm_compute in Hc, Hd;
      injection Hc as <-; injection Hd as <-; rewrite !slot_is_alive_inv; simpl; congruence.
Qed.

Lemma batch_protocol_witness :
  let l1 := snd (on_child_exit (from_raw 2) Kill 0 trio) in
  let l2 := note_all [from_raw 3] l1 in
  fst (on_child_exit (from_raw 2) Kill 0 trio) = TerminateBatch ["b"; "c"] ∧
  ((pending_batch_restart_complete l2 = true ↔
     (∀ c, c ∈ children l2 → cp_id (policy c) ∈ ["b"; "c"] → slot_alive c = false)) ∧
  ((∀ c b, c ∈ children l1 → cp_id (policy c) ∈ ["b"; "c"] → slot_is_alive b c = true →
      b ∈ [from_raw 3]) →
     pending_batch_restart_complete l2 = true) ∧
  fst (take_pending_restart_ids l2) = Some ["b"; "c"] ∧
  suppress_restarts (snd (take_pending_restart_ids l2)) = false).
Proof.
  split; [reflexivity|].
  apply (batch_protocol (from_raw 2) Kill 0 trio ["b"; "c"]
           (snd (on_child_exit (from_raw 2) Kill 0 trio)) [from_raw 3]).
  - apply trio_wf.
  - intros _ [|[|[|i]]] c; vm_compute; intros [= <-]; reflexivity.
  - reflexivity.
Defined.

(** A RestForOne batch never completes when the dead child's start index
    exceeds the number of registered children, as happens when children
    before it failed to start: the slice [children.get(index..)] is taken by
    position, so completion is refused whatever exits are noted, although
    restarts stay suppressed and every target is dead or dying. *)
Theorem rest_for_one_batch_stuck a reason now l ids l1 i c acts :
  strategy l = RestForOne → wf l → children l !! i = Some c → slot_is_alive a c = true →
  length (children l) < start_index (policy c) →
  on_child_exit a reason now l = (TerminateBatch ids, l1) →
  pending_batch_restart_complete (note_all acts l1) = false ∧
  suppress_restarts (note_all acts l1) = true.
Proof.
  intros Hst Hwf Hc Hac Hlen He.
  assert (wf l1) as Hwf1.
  { replace l1 with (snd (on_child_exit a reason now l)) by (by rewrite He).
    by apply wf_on_child_exit. }
  apply on_child_exit_batch in He
    as (pending & c0 & i0 & Hp & Hsup & _ & Hch & Hc0 & Ha0 & [[-> _]|[_ Hst']]); [|congruence].
  assert (i = i0) as <- by (by apply (wf_alive _ Hwf a i i0 c c0)). simplify_eq.
  destruct (same_batch_note_all acts l1 Hwf1) as ([Hpol Hpend Hs] & _ & _).
  split; [|by rewrite Hs]. unfold pending_batch_restart_complete, get_from.
  rewrite Hpend, Hp. rewrite decide_False; [done|].
  apply (f_equal length) in Hpol. rewrite !length_fmap in Hpol. rewrite Hpol, Hch.
  pose proof (f_equal length (mark_child_dead_policies a l)) as Hlen'.
  rewrite !length_fmap in Hlen'. lia.
Qed.

(** Specs 0 and 1 failed to start; the child with start index 2 is the only
    one registered. *)
Definition lone_third : SupervisorLogic :=
  register_child (mkChildPolicy "w2" Permanent 2) (mkSlot (from_raw 7) true)
    (logic_new RestForOne default_intensity).

Lemma rest_for_one_batch_stuck_witness :
  pending_batch_restart_complete
    (note_all [from_raw 7] (snd (on_child_exit (from_raw 7) Kill 0 lone_third))) = false ∧
  suppress_restarts
    (note_all [from_raw 7] (snd (on_child_exit (from_raw 7) Kill 0 lone_third))) = true.
Proof.
  apply (rest_for_one_batch_stuck (from_raw 7) Kill 0 lone_third ["w2"]
    (snd (on_child_exit (from_raw 7) Kill 0 lone_third)) 0
    (mkChild (mkChildPolicy "w2" Permanent 2) (Some (mkSlot (from_raw 7) true))) [from_raw 7]).
  - reflexivity.
  - apply wf_register; [|apply wf_new]. split; [reflexivity|]. split; [vm_compute; lia|].
    intros c Hc. by apply not_elem_of_nil in Hc.
  - reflexivity.
  - reflexivity.
  - simpl. lia.
  - reflexivity.
Defined.

(** ** Back-off *)

Definition after_backoffs (n : nat) (id : string) (policy : RestartBackoff)
    (l : SupervisorLogic) : SupervisorLogic :=
  Nat.iter n (λ l, snd (backoff_delay id policy l)) l.

Lemma after_backoffs_attempts n id policy l :
  policy ≠ NoBackoff → backoff_attempts l !! id = None →
  default 0%Z (backoff_attempts (after_backoffs n id policy l) !! id) =
    Z.min (Z.of_nat n) U32_MAX.
Proof.
  intros Hp Hl. induction n as [|n IH].
  { change (after_backoffs 0 id policy l) with l. by rewrite Hl. }
  change (after_backoffs (S n) id policy l)
    with (snd (backoff_delay id policy (after_backoffs n id policy l))).
  unfold backoff_delay. rewrite IH.
  destruct policy; [done|..]; simpl; rewrite lookup_insert_eq; simpl; unfold saturating_add_u32; lia.
Qed.

(** Consecutive restarts of a child are delayed by the delays of attempts
    1, 2, 3, ..., counted from the last reset and saturating at [u32::MAX];
    a reset starts over at attempt 1. *)
Theorem backoff_consecutive n id policy l :
  policy ≠ NoBackoff →
  fst (backoff_delay id policy (after_backoffs n id policy (reset_backoff id l))) =
    delay_for_attempt policy (Z.min (Z.of_nat n + 1) U32_MAX).
Proof.
  intros Hp. unfold backoff_delay.
  rewrite after_backoffs_attempts; [|done|simpl; apply lookup_delete_eq].
  destruct policy; [done|done|]; simpl; unfold saturating_add_u32;
    replace (Z.min (Z.min (Z.of_nat n) U32_MAX + 1) U32_MAX)
      with (Z.min (Z.of_nat n + 1) U32_MAX) by lia; done.
Qed.

Lemma backoff_consecutive_witness :
  fst (backoff_delay "w" (Exponential 100 2000)
    (after_backoffs 3 "w" (Exponential 100 2000) (reset_backoff "w" trio))) =
  delay_for_attempt (Exponential 100 2000) (Z.min (Z.of_nat 3 + 1) U32_MAX).
Proof. apply (backoff_consecutive 3 "w" (Exponential 100 2000) trio). discriminate. Defined.
