(* ===== verification/ProcessGroups.v ===== *)
(** * Process groups

    Model of [concurrency/src/pg.rs]: the process-wide store of scoped groups
    with reference-counted local members, federated remote members, the
    per-actor index used to clean up when an actor exits, and the typed
    buckets used for dispatch. [ChildHandle]s are identified by their actor
    id; liveness is a parameter. Lists taken from hash maps have an
    unspecified order. *)

From S2P Require Import Prelude Address Errors ChildSpec.

Record GroupKey := mkGroupKey { gk_scope : string; gk_group : string }.

#[global] Instance GroupKey_eq_dec : EqDecision GroupKey.
Proof. solve_decision. Defined.
#[global] Program Instance GroupKey_countable : Countable GroupKey :=
  inj_countable' (λ k, (gk_scope k, gk_group k)) (λ '(s, g), mkGroupKey s g) _.
Next Obligation. by intros []. Qed.

Inductive PgError := NotJoined (id : ActorId) (group scope : string).

(** [joins] is a [u32]. *)
Record Member := mkMember { m_handle : ActorId; m_joins : Z }.
Record RemoteMember := mkRemoteMember { rm_joins : Z }.

(** [PgEvent] and [PgMemberEntry] of [cluster/src/protocol.rs]. *)
Record PgMemberEntry := mkPgMemberEntry { pe_key : GroupKey; pe_address : ActorAddress }.
Inductive PgEvent :=
| PgJoin (key : GroupKey) (address : ActorAddress)
| PgLeave (key : GroupKey) (address : ActorAddress)
| PgSnapshot (entries : list PgMemberEntry).

(** A [TypeId]; the typed values are actor references, identified by the
    actor they point to. *)
Abbreviation TypeId := string (only parsing).

Record PgStore := mkPgStore {
  groups : gmap GroupKey (gmap ActorAddress Member);
  remote : gmap GroupKey (gmap ActorAddress RemoteMember);
  index : gmap ActorAddress (gset GroupKey);
  typed : gmap (GroupKey * TypeId) (gmap ActorAddress ActorId)
}.

Definition empty_store : PgStore := mkPgStore ∅ ∅ ∅ ∅.

Definition set_groups g (st : PgStore) : PgStore := mkPgStore g (remote st) (index st) (typed st).
Definition set_remote r (st : PgStore) : PgStore := mkPgStore (groups st) r (index st) (typed st).
Definition set_index i (st : PgStore) : PgStore := mkPgStore (groups st) (remote st) i (typed st).
Definition set_typed t (st : PgStore) : PgStore := mkPgStore (groups st) (remote st) (index st) t.

(** [get(key).is_none_or(|m| m.is_empty())] *)
Definition none_or_empty {A} (m : option (gmap ActorAddress A)) : bool :=
  match m with None => true | Some m => bool_decide (m = ∅) end.

(** [retain(|_, bucket| !bucket.is_empty())] *)
Definition retain_nonempty {K A} `{Countable K} (t : gmap K (gmap ActorAddress A)) :=
  filter (λ kv, kv.2 ≠ ∅) t.

(** [PgStore::typed_join] *)
Definition typed_join (key : GroupKey) (ty : TypeId) (address : ActorAddress) (value : ActorId)
    (st : PgStore) : PgStore :=
  set_typed (<[(key, ty) := <[address := value]> (default ∅ (typed st !! (key, ty)))]> (typed st)) st.

(** [PgStore::typed_members] *)
Definition typed_members (key : GroupKey) (ty : TypeId) (st : PgStore) : list ActorId :=
  match typed st !! (key, ty) with
  | Some bucket => snd <$> map_to_list bucket
  | None => []
  end.

(** [PgStore::remove_group_if_empty] *)
Definition remove_group_if_empty (key : GroupKey) (st : PgStore) : PgStore :=
  let local_empty := none_or_empty (groups st !! key) in
  let remote_empty := none_or_empty (remote st !! key) in
  if local_empty && remote_empty then
    mkPgStore (delete key (groups st)) (delete key (remote st))
      (filter (λ kv, kv.2 ≠ ∅) ((λ ks : gset GroupKey, ks ∖ {[key]}) <$> index st))
      (filter (λ kv, kv.1.1 ≠ key ∧ kv.2 ≠ ∅) (typed st))
  else if local_empty then set_groups (delete key (groups st)) st
  else if remote_empty then set_remote (delete key (remote st)) st
  else st.

(** One iteration of the loop of [PgStore::remove_actor]. *)
Definition remove_actor_from (address : ActorAddress) (key : GroupKey) (st : PgStore) : PgStore :=
  remove_group_if_empty key
    (set_remote (alter (delete address) key (remote st))
       (set_groups (alter (delete address) key (groups st)) st)).

(** [PgStore::remove_actor] *)
Definition store_remove_actor (address : ActorAddress) (st : PgStore) : PgStore :=
  let st :=
    match index st !! address with
    | Some keys =>
        foldl (λ st key, remove_actor_from address key st)
          (set_index (delete address (index st)) st) (elements keys)
    | None => st
    end in
  set_typed (retain_nonempty (delete address <$> typed st)) st.

(** [PgStore::remove_remote_if_empty] *)
Definition remove_remote_if_empty (key : GroupKey) (st : PgStore) : PgStore :=
  remove_group_if_empty key
    (match remote st !! key with
     | Some m => if bool_decide (m = ∅) then set_remote (delete key (remote st)) st else st
     | None => st
     end).

Definition u32_wrap (z : Z) : Z := (z mod 2 ^ 32)%Z.

(** The order of [Vec<String>::sort]. *)
Definition string_le (a b : string) : Prop := String.leb a b = true.
#[global] Instance string_le_dec : RelDecision string_le.
Proof. intros a b. unfold string_le. apply _. Defined.

Section node.
Context `{ThisNode}.

(** [join_scoped]: the new store and the published event. *)
Definition join_scoped (key : GroupKey) (h : ActorId) (st : PgStore) : PgStore * list PgEvent :=
  let address := local_addr h in
  let members := default ∅ (groups st !! key) in
  let member := match members !! address with
                | Some m => mkMember (m_handle m) (u32_wrap (m_joins m + 1))
                | None => mkMember h 1
                end in
  (set_index (<[address := {[key]} ∪ default ∅ (index st !! address)]> (index st))
     (set_groups (<[key := <[address := member]> members]> (groups st)) st),
   [PgJoin key address]).

Definition join (group : string) (h : ActorId) (st : PgStore) : PgStore * list PgEvent :=
  join_scoped (mkGroupKey DEFAULT_SCOPE group) h st.

(** The branch of [leave_scoped] for a count that drops to zero. *)
Definition forget_member (key : GroupKey) (address : ActorAddress) (st : PgStore) : PgStore :=
  let st := remove_group_if_empty key
              (set_groups (alter (delete address) key (groups st)) st) in
  let st := match index st !! address with
            | Some ks =>
                let ks := ks ∖ {[key]} in
                set_index (if decide (ks = ∅) then delete address (index st)
                           else <[address := ks]> (index st)) st
            | None => st
            end in
  set_typed (retain_nonempty
    (map_imap (λ bk b, Some (if decide (bk.1 = key) then delete address b else b))
       (typed st))) st.

(** [leave_scoped] *)
Definition leave_scoped (key : GroupKey) (id : ActorId) (st : PgStore)
    : Result () PgError * (PgStore * list PgEvent) :=
  let address := local_addr id in
  match groups st !! key ≫= λ members, members !! address with
  | None => (Err (NotJoined id (gk_group key) (gk_scope key)), (st, []))
  | Some member =>
      let joins := u32_wrap (m_joins member - 1) in
      let st := set_groups
        (alter (<[address := mkMember (m_handle member) joins]>) key (groups st)) st in
      if decide (joins = 0%Z)
      then (Ok (), (forget_member key address st, [PgLeave key address]))
      else (Ok (), (st, []))
  end.

(** [members.retain(|_, member| member.handle.is_alive())] *)
Definition retain_alive (is_alive : ActorId → bool) (ms : gmap ActorAddress Member)
    : gmap ActorAddress Member :=
  filter (λ kv, is_alive (m_handle kv.2) = true) ms.

(** [member_addresses_scoped] *)
Definition member_addresses_scoped (is_alive : ActorId → bool) (key : GroupKey) (st : PgStore)
    : list ActorAddress * PgStore :=
  let st := match groups st !! key with
            | Some members =>
                let members := retain_alive is_alive members in
                if decide (members = ∅) then set_groups (delete key (groups st)) st
                else set_groups (<[key := members]> (groups st)) st
            | None => st
            end in
  ((fst <$> map_to_list (default ∅ (groups st !! key))) ++
   (fst <$> map_to_list (default ∅ (remote st !! key))),
   remove_group_if_empty key st).

(** [get_local_members_scoped], [get_members_scoped] *)
Definition get_local_members_scoped (is_alive : ActorId → bool) (key : GroupKey) (st : PgStore)
    : list ActorId * PgStore :=
  match groups st !! key with
  | None => ([], st)
  | Some members =>
      let members := retain_alive is_alive members in
      let st := set_groups (<[key := members]> (groups st)) st in
      if decide (members = ∅) then ([], remove_group_if_empty key st)
      else (m_handle ∘ snd <$> map_to_list members, st)
  end.

(** [which_groups_scoped] *)
Definition which_groups_scoped (sc : string) (st : PgStore) : list string :=
  merge_sort string_le
    (gk_group <$> iter_filter (λ k, bool_decide (gk_scope k = sc)) (fst <$> map_to_list (groups st))).

(** [remove_actor]: the leaves to publish are read off the index before the
    store is cleaned. *)
Definition remove_actor (id : ActorId) (st : PgStore) : PgStore * list PgEvent :=
  let address := local_addr id in
  (store_remove_actor address st,
   (λ key, PgLeave key address) <$> elements (default ∅ (index st !! address))).

(** [local_pg_snapshot] *)
Definition local_pg_snapshot (st : PgStore) : list PgMemberEntry :=
  map_to_list (groups st) ≫= λ '(key, members),
    mkPgMemberEntry key ∘ fst <$> map_to_list members.

(** [apply_remote_pg_event], on [Join] and [Leave]. *)
Definition apply_remote_join (key : GroupKey) (address : ActorAddress) (st : PgStore) : PgStore :=
  if is_local address then st else
  let members := default ∅ (remote st !! key) in
  let member := match members !! address with
                | Some m => mkRemoteMember (u32_wrap (rm_joins m + 1))
                | None => mkRemoteMember 1
                end in
  set_remote (<[key := <[address := member]> members]> (remote st)) st.

Definition apply_remote_leave (key : GroupKey) (address : ActorAddress) (st : PgStore) : PgStore :=
  if is_local address then st else
  match remote st !! key ≫= λ members, members !! address with
  | None => st
  | Some member =>
      let joins := saturating_sub_u32 (rm_joins member) 1 in
      remove_remote_if_empty key
        (set_remote (alter (if decide (joins = 0%Z) then delete address
                            else <[address := mkRemoteMember joins]>) key (remote st)) st)
  end.

Definition apply_remote_pg_event (ev : PgEvent) (st : PgStore) : PgStore :=
  match ev with
  | PgJoin key address => apply_remote_join key address st
  | PgLeave key address => apply_remote_leave key address st
  | PgSnapshot entries =>
      foldl (λ st e, apply_remote_join (pe_key e) (pe_address e) st) st entries
  end.

End node.

(** ** Views and invariant *)

(** The member entry of an actor in a group, local and remote. *)
Definition mem (st : PgStore) (key : GroupKey) (a : ActorAddress) : option Member :=
  groups st !! key ≫= λ ms, ms !! a.
Definition rmem (st : PgStore) (key : GroupKey) (a : ActorAddress) : option RemoteMember :=
  remote st !! key ≫= λ ms, ms !! a.
Definition indexed (st : PgStore) (key : GroupKey) (a : ActorAddress) : Prop :=
  ∃ ks, index st !! a = Some ks ∧ key ∈ ks.

(** How often an actor has joined a group. *)
Definition joins (st : PgStore) (key : GroupKey) (a : ActorAddress) : Z :=
  match mem st key a with Some m => m_joins m | None => 0%Z end.
Definition remote_joins (st : PgStore) (key : GroupKey) (a : ActorAddress) : Z :=
  match rmem st key a with Some m => rm_joins m | None => 0%Z end.

Definition JOINS_LIMIT : Z := (2 ^ 32)%Z.

(** Every member is indexed, has a positive join count within [u32], and no
    group is kept empty. *)
Record inv (st : PgStore) : Prop := {
  inv_indexed : ∀ key a m, mem st key a = Some m → indexed st key a;
  inv_joins : ∀ key a m, mem st key a = Some m → (0 < m_joins m < JOINS_LIMIT)%Z;
  inv_groups : ∀ key, groups st !! key ≠ Some ∅;
  inv_remote : ∀ key, remote st !! key ≠ Some ∅
}.

Lemma none_or_empty_true {A} (m : option (gmap ActorAddress A)) :
  none_or_empty m = true ↔ ∀ a : ActorAddress, (m ≫= λ ms, ms !! a) = None.
Proof.
  destruct m as [m|]; simpl; [|naive_solver]. rewrite bool_decide_eq_true.
  split; [by intros -> a|]. apply map_empty.
Qed.

Section remove_group.
Variables (key : GroupKey) (st : PgStore).

Lemma mem_remove_group k a : mem (remove_group_if_empty key st) k a = mem st k a.
Proof.
  unfold remove_group_if_empty, mem.
  destruct (none_or_empty (groups st !! key)) eqn:E1; simpl.
  - rewrite none_or_empty_true in E1.
    destruct (none_or_empty (remote st !! key)); simpl; rewrite lookup_delete;
      case_decide; simplify_eq/=; by rewrite ?E1.
  - by destruct (none_or_empty (remote st !! key)).
Qed.

Lemma rmem_remove_group k a : rmem (remove_group_if_empty key st) k a = rmem st k a.
Proof.
  unfold remove_group_if_empty, rmem.
  destruct (none_or_empty (remote st !! key)) eqn:E1; simpl.
  - rewrite none_or_empty_true in E1.
    destruct (none_or_empty (groups st !! key)); simpl; rewrite lookup_delete;
      case_decide; simplify_eq/=; by rewrite ?E1.
  - by destruct (none_or_empty (groups st !! key)).
Qed.

(** The index keeps every pair that is still a member. *)
Lemma indexed_remove_group k a :
  indexed st k a → mem st k a ≠ None → indexed (remove_group_if_empty key st) k a.
Proof.
  intros (ks & Hks & Hk) Hm. unfold remove_group_if_empty.
  destruct (none_or_empty (groups st !! key)) eqn:E1; simpl;
    destruct (none_or_empty (remote st !! key)); simpl; try by exists ks.
  assert (k ≠ key) as Hne.
  { intros ->. rewrite none_or_empty_true in E1. by apply Hm, E1. }
  exists (ks ∖ {[key]}). split; [|set_solver].
  simpl. rewrite map_lookup_filter_Some, lookup_fmap, Hks. simpl. set_solver.
Qed.

Lemma groups_remove_group :
  (∀ k, k ≠ key → groups st !! k ≠ Some ∅) →
  ∀ k, groups (remove_group_if_empty key st) !! k ≠ Some ∅.
Proof.
  intros Hne k. unfold remove_group_if_empty.
  destruct (decide (k = key)) as [->|Hk].
  - destruct (none_or_empty (groups st !! key)) eqn:E1; simpl.
    + destruct (none_or_empty (remote st !! key)); simpl; by rewrite lookup_delete_eq.
    + destruct (none_or_empty (remote st !! key)); simpl;
        intros Hs; by rewrite Hs in E1.
  - destruct (none_or_empty (groups st !! key)), (none_or_empty (remote st !! key)); simpl;
      rewrite ?lookup_delete_ne by done; by apply Hne.
Qed.

Lemma remote_remove_group :
  (∀ k, k ≠ key → remote st !! k ≠ Some ∅) →
  ∀ k, remote (remove_group_if_empty key st) !! k ≠ Some ∅.
Proof.
  intros Hne k. unfold remove_group_if_empty.
  destruct (decide (k = key)) as [->|Hk].
  - destruct (none_or_empty (remote st !! key)) eqn:E1; simpl.
    + destruct (none_or_empty (groups st !! key)); simpl; by rewrite lookup_delete_eq.
    + rewrite andb_false_r. destruct (none_or_empty (groups st !! key)); simpl;
        intros Hs; by rewrite Hs in E1.
  - destruct (none_or_empty (groups st !! key)), (none_or_empty (remote st !! key)); simpl;
      rewrite ?lookup_delete_ne by done; by apply Hne.
Qed.
End remove_group.

#[export] Hint Rewrite mem_remove_group rmem_remove_group : spawned_simpl.

(** ** The effect of each operation on membership *)

Lemma mem_insert st key a m k b :
  mem (set_groups (<[key := <[a := m]> (default ∅ (groups st !! key))]> (groups st)) st) k b =
  if decide (k = key ∧ b = a) then Some m else mem st k b.
Proof.
  unfold mem; cbn [groups set_groups]. rewrite lookup_insert. destruct (decide (key = k)) as [<-|Hk]; cbn [mbind option_bind].
  - rewrite lookup_insert. destruct (decide (a = b)) as [<-|Hb].
    + case_decide; naive_solver.
    + case_decide; [naive_solver|]. by destruct (groups st !! key).
  - case_decide; naive_solver.
Qed.

Lemma rmem_insert st key a m k b :
  rmem (set_remote (<[key := <[a := m]> (default ∅ (remote st !! key))]> (remote st)) st) k b =
  if decide (k = key ∧ b = a) then Some m else rmem st k b.
Proof.
  unfold rmem; cbn [remote set_remote]. rewrite lookup_insert. destruct (decide (key = k)) as [<-|Hk]; cbn [mbind option_bind].
  - rewrite lookup_insert. destruct (decide (a = b)) as [<-|Hb].
    + case_decide; naive_solver.
    + case_decide; [naive_solver|]. by destruct (remote st !! key).
  - case_decide; naive_solver.
Qed.

Lemma mem_alter_delete st key a k b :
  mem (set_groups (alter (delete a) key (groups st)) st) k b =
  if decide (k = key ∧ b = a) then None else mem st k b.
Proof.
  unfold mem; cbn [groups set_groups]. rewrite lookup_alter. destruct (decide (key = k)) as [<-|Hk]; cbn [mbind option_bind].
  - destruct (groups st !! key) as [ms|] eqn:E; cbn [fmap option_fmap option_map mbind option_bind]; [|by case_decide].
    rewrite lookup_delete. destruct (decide (a = b)) as [<-|Hb].
    + case_decide; naive_solver.
    + case_decide; naive_solver.
  - case_decide; naive_solver.
Qed.

Lemma rmem_alter_delete st key a k b :
  rmem (set_remote (alter (delete a) key (remote st)) st) k b =
  if decide (k = key ∧ b = a) then None else rmem st k b.
Proof.
  unfold rmem; cbn [remote set_remote]. rewrite lookup_alter. destruct (decide (key = k)) as [<-|Hk]; cbn [mbind option_bind].
  - destruct (remote st !! key) as [ms|] eqn:E; cbn [fmap option_fmap option_map mbind option_bind]; [|by case_decide].
    rewrite lookup_delete. destruct (decide (a = b)) as [<-|Hb].
    + case_decide; naive_solver.
    + case_decide; naive_solver.
  - case_decide; naive_solver.
Qed.

(** The views depend on their own component only. *)
Lemma mem_set_index i st : mem (set_index i st) = mem st. Proof. done. Qed.
Lemma mem_set_typed t st : mem (set_typed t st) = mem st. Proof. done. Qed.
Lemma mem_set_remote r st : mem (set_remote r st) = mem st. Proof. done. Qed.
Lemma rmem_set_index i st : rmem (set_index i st) = rmem st. Proof. done. Qed.
Lemma rmem_set_typed t st : rmem (set_typed t st) = rmem st. Proof. done. Qed.
Lemma rmem_set_groups g st : rmem (set_groups g st) = rmem st. Proof. done. Qed.

#[export] Hint Rewrite mem_set_index mem_set_typed mem_set_remote rmem_set_index
  rmem_set_typed rmem_set_groups : spawned_simpl.

Lemma mem_remove_actor_from a key st k b :
  mem (remove_actor_from a key st) k b =
  if decide (k = key ∧ b = a) then None else mem st k b.
Proof.
  unfold remove_actor_from. autorewrite with spawned_simpl. apply mem_alter_delete.
Qed.

Lemma rmem_remove_actor_from a key st k b :
  rmem (remove_actor_from a key st) k b =
  if decide (k = key ∧ b = a) then None else rmem st k b.
Proof.
  unfold remove_actor_from. autorewrite with spawned_simpl.
  change (remote st) with (remote (set_groups (alter (delete a) key (groups st)) st)).
  rewrite rmem_alter_delete. by autorewrite with spawned_simpl.
Qed.

Definition remove_loop (a : ActorAddress) (keys : list GroupKey) (st : PgStore) : PgStore :=
  foldl (λ st key, remove_actor_from a key st) st keys.

Lemma mem_remove_loop a keys st k b :
  mem (remove_loop a keys st) k b = if decide (k ∈ keys ∧ b = a) then None else mem st k b.
Proof.
  revert st. induction keys as [|key keys IH]; intros st.
  - case_decide as Hk; [|done]. destruct Hk as [Hk _]. by apply not_elem_of_nil in Hk.
  - change (remove_loop a (key :: keys) st)
      with (remove_loop a keys (remove_actor_from a key st)).
    rewrite IH, mem_remove_actor_from. repeat case_decide; try done; set_solver.
Qed.

Lemma rmem_remove_loop a keys st k b :
  rmem (remove_loop a keys st) k b = if decide (k ∈ keys ∧ b = a) then None else rmem st k b.
Proof.
  revert st. induction keys as [|key keys IH]; intros st.
  - case_decide as Hk; [|done]. destruct Hk as [Hk _]. by apply not_elem_of_nil in Hk.
  - change (remove_loop a (key :: keys) st)
      with (remove_loop a keys (remove_actor_from a key st)).
    rewrite IH, rmem_remove_actor_from. repeat case_decide; try done; set_solver.
Qed.

Lemma alter_delete_nonempty {A} (m : gmap GroupKey (gmap ActorAddress A)) a key :
  (∀ k, m !! k ≠ Some ∅) → ∀ k, k ≠ key → alter (delete a) key m !! k ≠ Some ∅.
Proof. intros Hm k Hk. rewrite lookup_alter_ne by done. apply Hm. Qed.

(** Everyone but [a], who is being removed, stays indexed. *)
Lemma remove_loop_spec a keys st :
  (∀ k, groups st !! k ≠ Some ∅) → (∀ k, remote st !! k ≠ Some ∅) →
  (∀ k b m, b ≠ a → mem st k b = Some m → indexed st k b) →
  let st' := remove_loop a keys st in
  (∀ k, groups st' !! k ≠ Some ∅) ∧ (∀ k, remote st' !! k ≠ Some ∅) ∧
  (∀ k b m, b ≠ a → mem st' k b = Some m → indexed st' k b).
Proof.
  revert st. induction keys as [|key keys IH]; intros st Hg Hr Hi; simpl; [done|].
  apply IH.
  - apply groups_remove_group. by apply alter_delete_nonempty.
  - apply remote_remove_group. by apply alter_delete_nonempty.
  - intros k b m Hb Hm. rewrite mem_remove_actor_from in Hm. case_decide; [done|].
    apply indexed_remove_group.
    + by apply (Hi k b m).
    + autorewrite with spawned_simpl. rewrite mem_alter_delete, decide_False by done. congruence.
Qed.

Lemma mem_store_remove_actor st a k b :
  inv st → mem (store_remove_actor a st) k b = if decide (b = a) then None else mem st k b.
Proof.
  intros Hinv. unfold store_remove_actor. autorewrite with spawned_simpl.
  destruct (index st !! a) as [ks|] eqn:Hks.
  - fold (remove_loop a (elements ks) (set_index (delete a (index st)) st)).
    rewrite mem_remove_loop. autorewrite with spawned_simpl.
    destruct (decide (b = a)) as [->|Hb]; [|by rewrite decide_False by naive_solver].
    case_decide as Hk; [done|]. destruct (mem st k a) as [m|] eqn:Hm; [|done].
    destruct (inv_indexed _ Hinv _ _ _ Hm) as (ks' & ? & ?). simplify_eq. set_solver.
  - destruct (decide (b = a)) as [->|Hb]; [|done].
    destruct (mem st k a) as [m|] eqn:Hm; [|done].
    destruct (inv_indexed _ Hinv _ _ _ Hm) as (ks' & ? & ?). congruence.
Qed.

Lemma store_remove_actor_inv st a : inv st → inv (store_remove_actor a st).
Proof.
  intros Hinv.
  assert (∀ k b m, mem (store_remove_actor a st) k b = Some m →
    b ≠ a ∧ mem st k b = Some m) as Hold.
  { intros k b m. rewrite mem_store_remove_actor by done. by case_decide. }
  assert (let st' := store_remove_actor a st in
    (∀ k, groups st' !! k ≠ Some ∅) ∧ (∀ k, remote st' !! k ≠ Some ∅) ∧
    (∀ k b m, b ≠ a → mem st' k b = Some m → indexed st' k b)) as (Hg & Hr & Hi).
  { pose proof Hinv as [Hx _ Hg Hr]. unfold store_remove_actor.
    destruct (index st !! a) as [ks|] eqn:Hks; [|simpl; eauto].
    apply (remove_loop_spec a (elements ks) (set_index (delete a (index st)) st)); [done|done|].
    intros k b m Hb Hm. destruct (Hx k b m Hm) as (ks' & ? & ?). exists ks'.
    split; [|done]. simpl. by rewrite lookup_delete_ne. }
  split; [|..|done|done].
  - intros key b m Hm. destruct (Hold _ _ _ Hm) as [Hb _]. eauto.
  - intros key b m Hm. destruct (Hold _ _ _ Hm) as [_ Hm']. by apply (inv_joins _ Hinv key b).
Qed.

(** ** Refinement: groups as reference counts

    The abstract state is how often each local actor has joined each group. *)

Section refinement.
Context `{ThisNode}.

(** Members of [groups] live on this node and are keyed by their own id. *)
Definition owned (st : PgStore) : Prop :=
  ∀ key a m, mem st key a = Some m → a = local_addr (m_handle m).
Definition ok (st : PgStore) : Prop := inv st ∧ owned st.

Lemma mem_join key h st k b :
  mem (fst (join_scoped key h st)) k b =
  if decide (k = key ∧ b = local_addr h) then
    Some (match mem st key (local_addr h) with
          | Some m => mkMember (m_handle m) (u32_wrap (m_joins m + 1))
          | None => mkMember h 1
          end)
  else mem st k b.
Proof.
  unfold join_scoped. cbn [fst]. autorewrite with spawned_simpl. rewrite mem_insert.
  unfold mem. by destruct (groups st !! key).
Qed.

Lemma u32_wrap_small z : (0 ≤ z < JOINS_LIMIT)%Z → u32_wrap z = z.
Proof. apply Z.mod_small. Qed.

Lemma join_ok key h st :
  ok st → (joins st key (local_addr h) < JOINS_LIMIT - 1)%Z → ok (fst (join_scoped key h st)).
Proof.
  intros [Hinv Hown] Hlt. unfold joins in Hlt. split; [split|].
  - intros k b m Hm. rewrite mem_join in Hm. unfold indexed, join_scoped. cbn [fst index set_index].
    case_decide as Hk.
    + destruct Hk as [-> ->]. rewrite lookup_insert_eq. eexists. split; [done|]. set_solver.
    + destruct (inv_indexed _ Hinv _ _ _ Hm) as (ks & Hks & Hin). rewrite lookup_insert.
      case_decide as Hb; [|by exists ks]. subst b. eexists. split; [done|]. rewrite Hks. set_solver.
  - intros k b m Hm. rewrite mem_join in Hm. case_decide; [|by apply (inv_joins _ Hinv k b)].
    destruct (mem st key (local_addr h)) as [m0|] eqn:Hm0; simplify_eq/=; [|unfold JOINS_LIMIT; lia].
    pose proof (inv_joins _ Hinv _ _ _ Hm0). rewrite u32_wrap_small; lia.
  - intros k. unfold join_scoped. simpl. rewrite lookup_insert.
    case_decide; [|apply (inv_groups _ Hinv)]. intros [=He]. by apply insert_non_empty in He.
  - apply (inv_remote _ Hinv).
  - intros k b m Hm. rewrite mem_join in Hm. case_decide as Hk; [|by apply (Hown k b)].
    destruct Hk as [-> ->]. destruct (mem st key (local_addr h)) as [m0|] eqn:Hm0; simplify_eq/=;
      [|done]. by apply (Hown key _ m0).
Qed.

Lemma mem_forget key a st k b :
  mem (forget_member key a st) k b = if decide (k = key ∧ b = a) then None else mem st k b.
Proof.
  unfold forget_member. autorewrite with spawned_simpl.
  set (st1 := remove_group_if_empty key _).
  transitivity (mem st1 k b); [by destruct (index st1 !! a)|].
  unfold st1. autorewrite with spawned_simpl. apply mem_alter_delete.
Qed.

Lemma forget_inv key a st : inv st → inv (forget_member key a st).
Proof.
  intros Hinv. unfold forget_member.
  set (st1 := remove_group_if_empty key _).
  assert (∀ k b, mem st1 k b = if decide (k = key ∧ b = a) then None else mem st k b) as Hmem.
  { intros k b. unfold st1. autorewrite with spawned_simpl. apply mem_alter_delete. }
  assert (∀ k b m, mem st1 k b = Some m →
    mem st k b = Some m ∧ (k ≠ key ∨ b ≠ a) ∧ indexed st1 k b) as Hold.
  { intros k b m Hm. rewrite Hmem in Hm. case_decide as Hk; [done|].
    split; [done|]. split; [destruct (decide (k = key)); naive_solver|].
    apply indexed_remove_group; [by apply (inv_indexed _ Hinv k b m)|].
    rewrite mem_alter_delete. case_decide; [done|congruence]. }
  assert (∀ k, groups st1 !! k ≠ Some ∅) as Hg.
  { apply groups_remove_group, alter_delete_nonempty, (inv_groups _ Hinv). }
  assert (∀ k, remote st1 !! k ≠ Some ∅) as Hr.
  { apply remote_remove_group. intros k _. apply (inv_remote _ Hinv). }
  clearbody st1.
  split; autorewrite with spawned_simpl; [intros k b m Hm|intros k b m Hm|..].
  - assert (mem st1 k b = Some m) as (_ & Hne & ks & Hks & Hin)%Hold
      by (by destruct (index st1 !! a)).
    unfold indexed. destruct (index st1 !! a) as [ks0|] eqn:Hks0; [|simpl; eauto].
    cbn [index set_index set_typed]. destruct (decide (b = a)) as [->|Hb].
    + simplify_eq. rewrite decide_False by set_solver. rewrite lookup_insert_eq.
      eexists. split; [done|]. set_solver.
    + exists ks. split; [|done].
      case_decide; [by rewrite lookup_delete_ne|by rewrite lookup_insert_ne].
  - assert (mem st1 k b = Some m) as (Hm' & _)%Hold by (by destruct (index st1 !! a)).
    by apply (inv_joins _ Hinv k b).
  - by destruct (index st1 !! a).
  - by destruct (index st1 !! a).
Qed.

Lemma forget_decremented key a x st :
  forget_member key a (set_groups (alter (<[a := x]>) key (groups st)) st) =
  forget_member key a st.
Proof.
  unfold forget_member. cbn [groups set_groups]. 
  assert (alter (delete a) key (alter (<[a := x]>) key (groups st)) =
          alter (delete a) key (groups st)) as ->; [|done].
  rewrite alter_alter_eq. apply alter_ext. intros ms _. simpl. apply delete_insert_eq.
Qed.

Lemma mem_decrement key a m x st k b :
  mem st key a = Some m →
  mem (set_groups (alter (<[a := x]>) key (groups st)) st) k b =
  if decide (k = key ∧ b = a) then Some x else mem st k b.
Proof.
  intros Hm. rewrite <- mem_insert. unfold mem in *. cbn [groups set_groups].
  destruct (groups st !! key) as [ms|] eqn:Hms; [|done]. cbn [default].
  rewrite lookup_insert, lookup_alter. case_decide; [|done]. subst. by rewrite Hms.
Qed.

(** [leave_scoped] fails on a non-member, otherwise it decrements or forgets. *)
Lemma leave_cases key id st :
  inv st →
  leave_scoped key id st =
  match mem st key (local_addr id) with
  | None => (Err (NotJoined id (gk_group key) (gk_scope key)), (st, []))
  | Some m =>
      if decide (m_joins m = 1%Z)
      then (Ok (), (forget_member key (local_addr id) st, [PgLeave key (local_addr id)]))
      else (Ok (), (set_groups (alter (<[local_addr id :=
                      mkMember (m_handle m) (m_joins m - 1)]>) key (groups st)) st, []))
  end.
Proof.
  intros Hinv. unfold leave_scoped. fold (mem st key (local_addr id)).
  destruct (mem st key (local_addr id)) as [m|] eqn:Hm; [|done].
  pose proof (inv_joins _ Hinv _ _ _ Hm) as Hj. rewrite u32_wrap_small by lia.
  destruct (decide (m_joins m - 1 = 0)%Z), (decide (m_joins m = 1)%Z); try lia; [|done].
  by rewrite forget_decremented.
Qed.

Lemma leave_ok key id st : ok st → ok (fst (snd (leave_scoped key id st))).
Proof.
  intros [Hinv Hown]. rewrite leave_cases by done.
  destruct (mem st key (local_addr id)) as [m|] eqn:Hm; [|done]. case_decide; cbn [fst snd].
  - split; [by apply forget_inv|]. intros k b m'. rewrite mem_forget. case_decide; [done|apply Hown].
  - pose proof (λ x k b, mem_decrement key (local_addr id) m x st k b Hm) as Hmem.
    pose proof (inv_joins _ Hinv _ _ _ Hm). split; [split|].
    + intros k b m'. rewrite Hmem. case_decide as Hk; [|apply (inv_indexed _ Hinv)].
      destruct Hk as [-> ->]. intros _. by apply (inv_indexed _ Hinv _ _ m).
    + intros k b m'. rewrite Hmem. case_decide; [|apply (inv_joins _ Hinv)].
      intros [= <-]. simpl. lia.
    + intros k. simpl. rewrite lookup_alter. case_decide; [|apply (inv_groups _ Hinv)].
      intros (ms & _ & He)%fmap_Some. symmetry in He. by apply insert_non_empty in He.
    + apply (inv_remote _ Hinv).
    + intros k b m'. rewrite Hmem. case_decide as Hk; [|apply Hown].
      destruct Hk as [-> ->]. intros [= <-]. simpl. by apply (Hown key _ m).
Qed.

(** *** Pruning dead members *)

Definition alive_member (is_alive : ActorId → bool) (o : option Member) : option Member :=
  m ← o; if is_alive (m_handle m) then Some m else None.

Lemma lookup_retain_alive is_alive ms a :
  retain_alive is_alive ms !! a = alive_member is_alive (ms !! a).
Proof.
  unfold retain_alive, alive_member. destruct (ms !! a) as [m|] eqn:Hm; simpl.
  - destruct (is_alive (m_handle m)) eqn:Ha.
    + by apply map_lookup_filter_Some.
    + apply map_lookup_filter_None. right. intros m'. simpl. congruence.
  - apply map_lookup_filter_None. by left.
Qed.

(** The two readers prune the group and drop it when nobody is left. *)
Definition prune (is_alive : ActorId → bool) (key : GroupKey) (st : PgStore) : PgStore :=
  set_groups (alter (retain_alive is_alive) key (groups st)) st.

Lemma mem_prune is_alive key st k a :
  mem (prune is_alive key st) k a =
  if decide (k = key) then alive_member is_alive (mem st k a) else mem st k a.
Proof.
  unfold mem, prune. cbn [groups set_groups]. rewrite lookup_alter.
  destruct (decide (key = k)) as [->|Hne].
  - rewrite decide_True by done. destruct (groups st !! k) as [ms|]; simpl; [|done].
    apply lookup_retain_alive.
  - by rewrite decide_False by congruence.
Qed.

Lemma mem_prune_le is_alive key st k a m :
  mem (prune is_alive key st) k a = Some m → mem st k a = Some m.
Proof.
  rewrite mem_prune. case_decide; [|done]. destruct (mem st k a) as [m'|]; simpl; [|done].
  by destruct (is_alive _).
Qed.

(** A state between [prune st] and [st] whose group [key] may be left empty. *)
Lemma prune_remove_ok is_alive key st :
  ok st → ok (remove_group_if_empty key (prune is_alive key st)).
Proof.
  intros [Hinv Hown].
  assert (∀ k a m, mem (remove_group_if_empty key (prune is_alive key st)) k a = Some m →
    mem (prune is_alive key st) k a = Some m ∧ mem st k a = Some m) as Hold.
  { intros k a m. autorewrite with spawned_simpl. intros Hm. split; [done|].
    by eapply mem_prune_le. }
  split; [split|].
  - intros k a m [Hp Hm]%Hold. apply indexed_remove_group; [|congruence].
    by apply (inv_indexed _ Hinv k a m).
  - intros k a m [_ Hm]%Hold. by apply (inv_joins _ Hinv k a).
  - apply groups_remove_group. intros k Hk. simpl. rewrite lookup_alter_ne by done.
    apply (inv_groups _ Hinv).
  - apply remote_remove_group. intros k _. apply (inv_remote _ Hinv).
  - intros k a m [_ Hm]%Hold. by apply (Hown k).
Qed.

Lemma alter_insert_eq (ms : gmap ActorAddress Member) f key st :
  groups st !! key = Some ms → <[key := f ms]> (groups st) = alter f key (groups st).
Proof.
  intros Hms. apply map_eq. intros k. rewrite lookup_insert, lookup_alter.
  case_decide; [|done]. subst. by rewrite Hms.
Qed.

Lemma get_local_members_cases is_alive key st :
  (groups st !! key = None ∧ get_local_members_scoped is_alive key st = ([], st)) ∨
  (∃ ms, groups st !! key = Some ms ∧ retain_alive is_alive ms = ∅ ∧
     get_local_members_scoped is_alive key st =
       ([], remove_group_if_empty key (prune is_alive key st))) ∨
  (∃ ms, groups st !! key = Some ms ∧ retain_alive is_alive ms ≠ ∅ ∧
     get_local_members_scoped is_alive key st =
       (m_handle ∘ snd <$> map_to_list (retain_alive is_alive ms), prune is_alive key st)).
Proof.
  unfold get_local_members_scoped. destruct (groups st !! key) as [ms|] eqn:Hms; [|by left].
  right. rewrite (alter_insert_eq ms (retain_alive is_alive)) by done.
  destruct (decide (retain_alive is_alive ms = ∅)); [left|right]; eauto.
Qed.

Lemma mem_get_local_members is_alive key st k a :
  mem (snd (get_local_members_scoped is_alive key st)) k a = mem (prune is_alive key st) k a.
Proof.
  destruct (get_local_members_cases is_alive key st)
    as [[Hn ->]|[(ms & _ & _ & ->)|(ms & _ & _ & ->)]]; simpl;
    autorewrite with spawned_simpl; try done.
  rewrite mem_prune. case_decide; [subst|done]. unfold mem. by rewrite Hn.
Qed.

Lemma get_local_members_ok is_alive key st :
  ok st → ok (snd (get_local_members_scoped is_alive key st)).
Proof.
  intros Hok. destruct (get_local_members_cases is_alive key st)
    as [[Hn ->]|[(ms & _ & _ & ->)|(ms & Hms & Hne & ->)]]; simpl; [done|by apply prune_remove_ok|].
  pose proof (prune_remove_ok is_alive key st Hok) as [[Hi Hj _ _] Ho].
  destruct Hok as [Hinv Hown]. split; [split|].
  - intros k a m Hm%mem_prune_le. by apply (inv_indexed _ Hinv k a m).
  - intros k a m Hm%mem_prune_le. by apply (inv_joins _ Hinv k a).
  - intros k. simpl. rewrite lookup_alter. case_decide; [subst|apply (inv_groups _ Hinv)].
    rewrite Hms. simpl. congruence.
  - apply (inv_remote _ Hinv).
  - intros k a m Hm%mem_prune_le. by apply (Hown k).
Qed.

(** *** Events from other nodes *)

Lemma apply_remote_join_ok key a st : ok st → ok (apply_remote_join key a st).
Proof.
  intros [[Hi Hj Hg Hr] Hown]. unfold apply_remote_join. destruct (is_local a); [done|].
  split; [split|]; try done. intros k. simpl. rewrite lookup_insert.
  case_decide; [|done]. intros [= He]. by apply insert_non_empty in He.
Qed.

Lemma remove_group_ok key st st' :
  ok st → groups st' = groups st → index st' = index st →
  (∀ k, k ≠ key → remote st' !! k ≠ Some ∅) → ok (remove_group_if_empty key st').
Proof.
  intros [[Hi Hj Hg Hr] Hown] Hgr Hix Hre.
  assert (∀ k a, mem st' k a = mem st k a) as Hmem by (intros; unfold mem; by rewrite Hgr).
  split; [split|].
  - intros k a m. autorewrite with spawned_simpl. rewrite Hmem. intros Hm.
    apply indexed_remove_group; [|by rewrite Hmem, Hm].
    unfold indexed. rewrite Hix. by apply (Hi k a m).
  - intros k a m. autorewrite with spawned_simpl. rewrite Hmem. apply Hj.
  - apply groups_remove_group. rewrite Hgr. auto.
  - by apply remote_remove_group.
  - intros k a m. autorewrite with spawned_simpl. rewrite Hmem. apply Hown.
Qed.

Lemma apply_remote_leave_ok key a st : ok st → ok (apply_remote_leave key a st).
Proof.
  intros Hok. pose proof Hok as [[Hi Hj Hg Hr] Hown]. unfold apply_remote_leave.
  destruct (is_local a); [done|]. destruct (_ ≫= _) as [m|] eqn:Hm; [|done].
  unfold remove_remote_if_empty. set (f := if decide _ then _ else _).
  assert (∀ k, k ≠ key → alter f key (remote st) !! k ≠ Some ∅) as Hne.
  { intros k Hk. rewrite lookup_alter_ne by done. apply Hr. }
  cbn [remote set_remote]. destruct (alter f key (remote st) !! key) as [g|].
  - apply (remove_group_ok key st); [done|..]; destruct (bool_decide (g = ∅)); try done.
    intros k Hk. simpl. rewrite lookup_delete_ne by done. auto.
  - by apply (remove_group_ok key st).
Qed.

Lemma apply_remote_ok ev st : ok st → ok (apply_remote_pg_event ev st).
Proof.
  destruct ev as [key a|key a|es]; simpl;
    [apply apply_remote_join_ok|apply apply_remote_leave_ok|].
  revert st. induction es as [|e es IH]; intros st Hok; simpl; [done|].
  apply IH. by apply apply_remote_join_ok.
Qed.

Lemma mem_remove_remote key st k a : mem (remove_remote_if_empty key st) k a = mem st k a.
Proof.
  unfold remove_remote_if_empty. rewrite mem_remove_group.
  destruct (remote st !! key); [|done]. by destruct (bool_decide (g = ∅)).
Qed.

Lemma mem_apply_remote ev st k a : mem (apply_remote_pg_event ev st) k a = mem st k a.
Proof.
  assert (∀ key b st, mem (apply_remote_join key b st) k a = mem st k a) as Hj.
  { intros key b st0. unfold apply_remote_join. by destruct (is_local b). }
  destruct ev as [key b|key b|es]; simpl; [apply Hj| |].
  - unfold apply_remote_leave. destruct (is_local b); [done|].
    destruct (_ ≫= _); [|done]. by rewrite mem_remove_remote.
  - revert st. induction es as [|e es IH]; intros st; simpl; [done|]. by rewrite IH.
Qed.
End refinement.

(** *** Whole histories *)

Inductive PgOp :=
| OpJoin (key : GroupKey) (id : ActorId)
| OpLeave (key : GroupKey) (id : ActorId)
| OpRemoveActor (id : ActorId)
| OpMembers (is_alive : ActorId → bool) (key : GroupKey)
| OpRemote (ev : PgEvent).

Section histories.
Context `{ThisNode}.

Definition pg_step (op : PgOp) (st : PgStore) : Result () PgError * (PgStore * list PgEvent) :=
  match op with
  | OpJoin key id => (Ok (), join_scoped key id st)
  | OpLeave key id => leave_scoped key id st
  | OpRemoveActor id => (Ok (), remove_actor id st)
  | OpMembers is_alive key => (Ok (), (snd (get_local_members_scoped is_alive key st), []))
  | OpRemote ev => (Ok (), (apply_remote_pg_event ev st, []))
  end.

(** The reference: counts per group and actor. *)
Abbreviation Counts := (GroupKey → ActorId → Z) (only parsing).

Definition spec_step (op : PgOp) (c : Counts) : Result () PgError * Counts :=
  match op with
  | OpJoin key id =>
      (Ok (), λ k i, if decide (k = key ∧ i = id) then (c k i + 1)%Z else c k i)
  | OpLeave key id =>
      if decide (c key id = 0%Z)
      then (Err (NotJoined id (gk_group key) (gk_scope key)), c)
      else (Ok (), λ k i, if decide (k = key ∧ i = id) then (c k i - 1)%Z else c k i)
  | OpRemoveActor id => (Ok (), λ k i, if decide (i = id) then 0%Z else c k i)
  | OpMembers is_alive key =>
      (Ok (), λ k i, if decide (k = key) then if is_alive i then c k i else 0%Z else c k i)
  | OpRemote _ => (Ok (), c)
  end.

Definition counts (st : PgStore) : Counts := λ k i, joins st k (local_addr i).

(** A join must not overflow the [u32] counter. *)
Definition pg_op_ok (op : PgOp) (st : PgStore) : Prop :=
  match op with OpJoin key id => (counts st key id < JOINS_LIMIT - 1)%Z | _ => True end.

Lemma ok_empty : ok empty_store.
Proof.
  split; [split|]; intros *; unfold mem; cbn; rewrite ?lookup_empty; done.
Qed.

Lemma pg_step_ok op st : ok st → pg_op_ok op st → ok (fst (snd (pg_step op st))).
Proof.
  intros Hok Hop. destruct op; simpl in *.
  - by apply join_ok.
  - by apply leave_ok.
  - destruct Hok as [Hinv Hown]. split; [by apply store_remove_actor_inv|].
    intros k a m. rewrite mem_store_remove_actor by done. case_decide; [done|apply Hown].
  - by apply get_local_members_ok.
  - by apply apply_remote_ok.
Qed.

Lemma joins_zero st k a : inv st → joins st k a = 0%Z ↔ mem st k a = None.
Proof.
  intros Hinv. unfold joins. destruct (mem st k a) as [m|] eqn:Hm; [|done].
  pose proof (inv_joins _ Hinv _ _ _ Hm). split; [lia|done].
Qed.

Lemma and_local (k key : GroupKey) i id :
  (k = key ∧ local_addr i = local_addr id) ↔ (k = key ∧ i = id).
Proof. split; intros [-> ?]; split; try done; [by apply local_addr_inj|by subst]. Qed.

Lemma pg_step_refines op st :
  ok st → pg_op_ok op st →
  let '(r, (st', _)) := pg_step op st in
  let '(r', c') := spec_step op (counts st) in
  ok st' ∧ r = r' ∧ ∀ k i, counts st' k i = c' k i.
Proof.
  intros Hok Hop. pose proof (pg_step_ok op st Hok Hop) as Hok'. destruct Hok as [Hinv Hown].
  destruct op as [key id|key id|id|is_alive key|ev];
    cbn [pg_step spec_step fst snd pg_op_ok] in *.
  - destruct (join_scoped key id st) as [st' evs] eqn:Hj. cbn [fst] in Hok'.
    split; [done|]. split; [done|]. intros k i. unfold counts, joins.
    replace st' with (fst (join_scoped key id st)) by (by rewrite Hj). rewrite mem_join.
    rewrite (decide_ext _ _ _ _ (and_local k key i id)). case_decide as Hk; [|done].
    destruct Hk as [-> ->]. unfold counts, joins in Hop.
    destruct (mem st key (local_addr id)) as [m|] eqn:Hm; [|done]. simpl.
    pose proof (inv_joins _ Hinv _ _ _ Hm). apply u32_wrap_small. lia.
  - rewrite leave_cases in * by done.
    pose proof (joins_zero st key (local_addr id) Hinv) as Hz.
    fold (counts st key id) in Hz.
    destruct (mem st key (local_addr id)) as [m|] eqn:Hm; [|by rewrite decide_True by (by apply Hz)].
    rewrite (decide_False (P := counts st key id = 0%Z)) by (by intros ?%Hz).
    destruct (decide (m_joins m = 1%Z)) as [H1|H1];
      (split; [done|]; split; [done|]); intros k i; unfold counts, joins.
    + rewrite mem_forget, (decide_ext _ _ _ _ (and_local k key i id)).
      case_decide as Hk; [|done]. destruct Hk as [-> ->]. rewrite Hm. lia.
    + rewrite (mem_decrement key _ m) by done.
      rewrite (decide_ext _ _ _ _ (and_local k key i id)).
      case_decide as Hk; [|done]. destruct Hk as [-> ->]. by rewrite Hm.
  - split; [done|]. split; [done|]. intros k i. unfold counts, joins.
    rewrite mem_store_remove_actor by done.
    destruct (decide (i = id)) as [->|Hne]; [by rewrite decide_True|].
    rewrite decide_False; [done|]. intros ?%local_addr_inj. done.
  - split; [done|]. split; [done|]. intros k i. unfold counts, joins.
    rewrite mem_get_local_members, mem_prune. case_decide; [|done].
    destruct (mem st k (local_addr i)) as [m|] eqn:Hm; simpl; [|by destruct (is_alive i)].
    apply Hown, local_addr_inj in Hm as ->. by destruct (is_alive (m_handle m)).
  - split; [done|]. split; [done|]. intros k i. unfold counts, joins. by rewrite mem_apply_remote.
Qed.
(** C11: the process-group store implements reference counting. From any
    well-formed store, every operation returns the result that the reference
    counts prescribe (leaving a group one has not joined fails with
    [NotJoined] and changes nothing), moves the counts of all groups and
    actors exactly as the reference does (an exiting actor is out of every
    group, reading a group drops its dead members, remote events touch no
    local count), and leaves a well-formed store: every member indexed, no
    empty group. *)
Theorem pg_refines_counts op st :
  ok st → pg_op_ok op st →
  let '(r, (st', _)) := pg_step op st in
  let '(r', c') := spec_step op (counts st) in
  ok st' ∧ r = r' ∧ ∀ k i, counts st' k i = c' k i.
Proof. apply pg_step_refines. Qed.
End histories.

(** ** What readers see *)

Section readers.
Context `{ThisNode}.

(** The positive counts of a group are its members. *)
Lemma counts_pos st key ms i :
  ok st → groups st !! key = Some ms →
  (0 < counts st key i)%Z ↔ ∃ m, ms !! local_addr i = Some m ∧ m_handle m = i.
Proof.
  intros [Hinv Hown] Hms. unfold counts, joins, mem. rewrite Hms. simpl.
  assert (∀ m, ms !! local_addr i = Some m → (0 < m_joins m)%Z ∧ m_handle m = i) as Hm.
  { intros m Hm. assert (mem st key (local_addr i) = Some m) as Hm'
      by (unfold mem; by rewrite Hms).
    split; [by apply (inv_joins _ Hinv _ _ _ Hm')|].
    symmetry. by apply local_addr_inj, (Hown key). }
  destruct (ms !! local_addr i) as [m|]; [|split; [lia|naive_solver]].
  destruct (Hm m eq_refl). naive_solver.
Qed.

Lemma counts_no_group st key i : groups st !! key = None → counts st key i = 0%Z.
Proof. intros Hn. unfold counts, joins, mem. by rewrite Hn. Qed.

Lemma member_address st key ms a m :
  ok st → groups st !! key = Some ms → ms !! a = Some m → a = local_addr (m_handle m).
Proof. intros [_ Hown] Hms Hm. apply (Hown key). unfold mem. by rewrite Hms. Qed.

Lemma elem_of_which_groups st sc gr :
  ok st → gr ∈ which_groups_scoped sc st ↔ ∃ i, (0 < counts st (mkGroupKey sc gr) i)%Z.
Proof.
  intros Hok. remember (mkGroupKey sc gr) as key eqn:Hkey.
  unfold which_groups_scoped. rewrite merge_sort_Permutation, list_elem_of_fmap. split.
  - intros (k & Hgr & [Hk Hsc]%elem_of_iter_filter). bool_simpl.
    apply list_elem_of_fmap in Hk as ([k' ms] & -> & Hms%elem_of_map_to_list). simpl in *.
    assert (k' = key) as -> by (destruct k'; simpl in *; by subst).
    destruct (map_choose ms) as (a & m & Ha).
    { intros ->. by apply (inv_groups _ (proj1 Hok) key). }
    exists (m_handle m). apply (counts_pos st key ms); [done|done|].
    exists m. by rewrite <- (member_address st key ms a m).
  - intros [i Hi]. destruct (groups st !! key) as [ms|] eqn:Hms;
      [|rewrite counts_no_group in Hi by done; lia].
    exists key. split; [by subst|]. apply elem_of_iter_filter.
    split; [|apply bool_decide_eq_true; by subst].
    apply list_elem_of_fmap. exists (key, ms). split; [done|]. by apply elem_of_map_to_list.
Qed.

Lemma elem_of_alive_members st key ms is_alive i :
  ok st → groups st !! key = Some ms →
  i ∈ (m_handle ∘ snd <$> map_to_list (retain_alive is_alive ms)) ↔
    (0 < counts st key i)%Z ∧ is_alive i = true.
Proof.
  intros Hok Hms. rewrite (counts_pos st key ms) by done. rewrite list_elem_of_fmap. split.
  - intros ([a m] & -> & Ha%elem_of_map_to_list). simpl. rewrite lookup_retain_alive in Ha.
    destruct (ms !! a) as [m'|] eqn:Hm; simpl in Ha; [|done].
    destruct (is_alive (m_handle m')) eqn:Hal; simplify_eq/=.
    split; [|done]. exists m. by rewrite <- (member_address st key ms a m).
  - intros [(m & Hm & <-) Hal]. exists (local_addr (m_handle m), m). split; [done|].
    apply elem_of_map_to_list. rewrite lookup_retain_alive, Hm. simpl. by rewrite Hal.
Qed.

Lemma alive_members_NoDup st key ms is_alive :
  ok st → groups st !! key = Some ms →
  NoDup (m_handle ∘ snd <$> map_to_list (retain_alive is_alive ms)).
Proof.
  intros Hok Hms. apply NoDup_fmap_2_strong; [|apply NoDup_map_to_list].
  assert (∀ a m, retain_alive is_alive ms !! a = Some m →
    ms !! a = Some m ∧ a = local_addr (m_handle m)) as Hr.
  { intros a m Hm. rewrite lookup_retain_alive in Hm.
    destruct (ms !! a) as [m'|] eqn:Ha; simpl in Hm; [|done].
    destruct (is_alive _); simplify_eq. split; [done|]. by apply (member_address st key ms). }
  intros [a m] [b m'] Ha%elem_of_map_to_list Hb%elem_of_map_to_list. simpl. intros Heq.
  destruct (Hr _ _ Ha) as [? ->], (Hr _ _ Hb) as [? ->]. rewrite Heq in *. by simplify_eq.
Qed.
End readers.

(** A group is listed by [which_groups_scoped] exactly when it has a
    local member, and [get_local_members_scoped] returns exactly the live
    local members, each once. *)
Theorem pg_readers_exact `{ThisNode} st sc gr is_alive :
  ok st →
  (gr ∈ which_groups_scoped sc st ↔ ∃ i, (0 < counts st (mkGroupKey sc gr) i)%Z) ∧
  (let ms := fst (get_local_members_scoped is_alive (mkGroupKey sc gr) st) in
   NoDup ms ∧ ∀ i, i ∈ ms ↔ (0 < counts st (mkGroupKey sc gr) i)%Z ∧ is_alive i = true).
Proof.
  intros Hok. split; [by apply elem_of_which_groups|]. set (key := mkGroupKey sc gr).
  destruct (get_local_members_cases is_alive key st)
    as [[Hn ->]|[(ms & Hms & He & ->)|(ms & Hms & _ & ->)]]; cbn [fst].
  - split; [constructor|]. intros i. rewrite counts_no_group by done.
    split; [by intros ?%not_elem_of_nil|lia].
  - pose proof (λ i, elem_of_alive_members st key ms is_alive i Hok Hms) as Hel.
    rewrite He in Hel. split; [constructor|done].
  - split; [by apply (alive_members_NoDup st key)|]. intros i. by apply elem_of_alive_members.
Qed.

Lemma pg_readers_exact_witness :
  let _ : ThisNode := node_new "n@h" in
  let st := fst (join "workers" (from_raw 1) empty_store) in
  ("workers" ∈ which_groups_scoped DEFAULT_SCOPE st ↔
     ∃ i, (0 < counts st (mkGroupKey DEFAULT_SCOPE "workers") i)%Z) ∧
  (let ms := fst (get_local_members_scoped (λ _, true) (mkGroupKey DEFAULT_SCOPE "workers") st) in
   NoDup ms ∧ ∀ i, i ∈ ms ↔
     (0 < counts st (mkGroupKey DEFAULT_SCOPE "workers") i)%Z ∧ true = true).
Proof.
  intros T st. apply (pg_readers_exact st DEFAULT_SCOPE "workers" (λ _, true)).
  apply join_ok; [apply ok_empty|vm_compute; reflexivity].
Defined.

Lemma pg_refines_counts_witness :
  let _ : ThisNode := node_new "n@h" in
  let key := mkGroupKey "s" "g" in
  let op := OpLeave key (from_raw 1) in
  let st := fst (join_scoped key (from_raw 1) empty_store) in
  let '(r, (st', _)) := pg_step op st in
  let '(r', c') := spec_step op (counts st) in
  ok st' ∧ r = r' ∧ ∀ k i, counts st' k i = c' k i.
Proof.
  intros T key op st. apply (pg_refines_counts op st); [|exact I].
  apply join_ok; [apply ok_empty|vm_compute; reflexivity].
Defined.

(** ** Federation: what a peer sees of this node's groups *)

Section remote_view.
Context `{ThisNode}.

Lemma remote_joins_ext st st' k a :
  rmem st k a = rmem st' k a → remote_joins st k a = remote_joins st' k a.
Proof. unfold remote_joins. by intros ->. Qed.

Lemma remote_joins_join key a st k b :
  is_local a = false →
  remote_joins (apply_remote_join key a st) k b =
  if decide (k = key ∧ b = a) then
    match rmem st key a with Some m => u32_wrap (rm_joins m + 1) | None => 1%Z end
  else remote_joins st k b.
Proof.
  intros Hl. unfold apply_remote_join, remote_joins. rewrite Hl, rmem_insert.
  case_decide; [|done]. unfold rmem. destruct (remote st !! key) as [ms|]; simpl; [|done].
  by destruct (ms !! a).
Qed.

Lemma rmem_remove_remote key st k a : rmem (remove_remote_if_empty key st) k a = rmem st k a.
Proof.
  unfold remove_remote_if_empty. rewrite rmem_remove_group.
  destruct (remote st !! key) as [g|] eqn:Hg; [|done]. case_bool_decide; [|done]. subst g.
  unfold rmem. cbn [remote set_remote]. rewrite lookup_delete. case_decide; [|done].
  subst k. by rewrite Hg.
Qed.

Lemma remote_joins_leave key a st k b :
  is_local a = false →
  remote_joins (apply_remote_leave key a st) k b =
  if decide (k = key ∧ b = a) then saturating_sub_u32 (remote_joins st k b) 1
  else remote_joins st k b.
Proof.
  intros Hl. unfold apply_remote_leave. rewrite Hl. fold (rmem st key a).
  destruct (rmem st key a) as [m|] eqn:Hm.
  2:{ case_decide as Hk; [|done]. destruct Hk as [-> ->]. unfold remote_joins. by rewrite Hm. }
  rewrite (remote_joins_ext _ _ k b (rmem_remove_remote key _ k b)).
  unfold remote_joins, rmem in *. cbn [remote set_remote].
  destruct (remote st !! key) as [ms|] eqn:Hms; [|done]. simpl in Hm.
  rewrite lookup_alter. destruct (decide (key = k)) as [<-|Hk].
  - rewrite Hms. simpl. destruct (decide (saturating_sub_u32 (rm_joins m) 1 = 0%Z)) as [Hz|Hz].
    + rewrite lookup_delete. destruct (decide (a = b)) as [<-|Hb].
      * rewrite Hm. case_decide as Hc; [done|]. by destruct Hc.
      * case_decide as Hc; [|done]. by destruct Hc.
    + rewrite lookup_insert. destruct (decide (a = b)) as [<-|Hb].
      * rewrite Hm. case_decide as Hc; [done|]. by destruct Hc.
      * case_decide as Hc; [|done]. by destruct Hc.
  - case_decide as Hc; [|done]. by destruct Hc.
Qed.

Lemma remote_joins_leaves keys a st k b :
  is_local a = false → NoDup keys →
  remote_joins (foldl (λ st ev, apply_remote_pg_event ev st) st ((λ key, PgLeave key a) <$> keys)) k b =
  if decide (k ∈ keys ∧ b = a) then saturating_sub_u32 (remote_joins st k b) 1
  else remote_joins st k b.
Proof.
  intros Hl. revert st. induction keys as [|key keys IH]; intros st Hnd.
  { cbn [fmap list_fmap foldl]. case_decide as Hc; [|done]. destruct Hc as [Hc _].
    by apply not_elem_of_nil in Hc. }
  apply NoDup_cons in Hnd as [Hni Hnd]. csimpl. rewrite IH by done.
  rewrite remote_joins_leave by done. repeat case_decide; try done; set_solver.
Qed.
End remote_view.

(** One operation on node [n1], whose events the peer [n2] then applies. *)
Definition federate (n1 n2 : NodeId) (op : PgOp) (s : PgStore * PgStore) : PgStore * PgStore :=
  let '(_, (sa, evs)) := pg_step (H := n1) op s.1 in
  (sa, foldl (λ st ev, apply_remote_pg_event (H := n2) ev st) s.2 evs).

(** The peer counts what the owner counts, and nobody has joined twice. *)
Definition synced (n1 n2 : NodeId) (s : PgStore * PgStore) : Prop :=
  ∀ k i, remote_joins s.2 k (on n1 i) = counts (H := n1) s.1 k i ∧
         (0 ≤ counts (H := n1) s.1 k i ≤ 1)%Z.

(** Joins of actors that are not in the group yet, leaves and exits. *)
Definition single_join_op (n1 : NodeId) (op : PgOp) (st : PgStore) : Prop :=
  match op with
  | OpJoin key id => counts (H := n1) st key id = 0%Z
  | OpLeave _ _ | OpRemoveActor _ => True
  | _ => False
  end.

Lemma foreign_not_local n1 n2 i : n1 ≠ n2 → is_local (H := n2) (on n1 i) = false.
Proof. intros Hne. unfold is_local. by apply bool_decide_eq_false. Qed.

Lemma on_key (k key : GroupKey) n i id : (k = key ∧ on n i = on n id) ↔ (k = key ∧ i = id).
Proof. naive_solver. Qed.

Lemma synced_join n1 n2 key id s :
  n1 ≠ n2 → counts (H := n1) s.1 key id = 0%Z → synced n1 n2 s → ok (H := n1) s.1 →
  synced n1 n2 (federate n1 n2 (OpJoin key id) s).
Proof.
  intros Hne Hz Hs Hok k i.
  assert (pg_op_ok (H := n1) (OpJoin key id) s.1) as Hop by (simpl; rewrite Hz; done).
  pose proof (pg_step_refines (H := n1) (OpJoin key id) s.1 Hok Hop) as Href.
  unfold federate. destruct (pg_step _ s.1) as [r [sa evs]] eqn:Hst. simpl in Href.
  destruct Href as (_ & _ & Hc). assert (evs = [PgJoin key (on n1 id)]) as -> by (by injection Hst).
  cbn [fst snd foldl apply_remote_pg_event]. rewrite Hc.
  rewrite remote_joins_join by (by apply foreign_not_local).
  destruct (Hs k i) as [Hr Hb]. rewrite (decide_ext _ _ _ _ (on_key k key n1 i id)).
  case_decide as Hk; [|done]. destruct Hk as [-> ->]. rewrite Hz in *.
  unfold remote_joins in Hr. destruct (rmem s.2 key (on n1 id)) as [m|]; [|done].
  by rewrite Hr.
Qed.

Lemma synced_leave n1 n2 key id s :
  n1 ≠ n2 → synced n1 n2 s → ok (H := n1) s.1 → synced n1 n2 (federate n1 n2 (OpLeave key id) s).
Proof.
  intros Hne Hs Hok k i. pose proof Hok as [Hinv _].
  pose proof (pg_step_refines (H := n1) (OpLeave key id) s.1 Hok I) as Href.
  unfold federate. cbn [pg_step] in *. destruct (Hs key id) as [Hr0 Hb0].
  rewrite (leave_cases (H := n1)) in * by done. destruct (Hs k i) as [Hr Hb].
  destruct (mem s.1 key (local_addr id)) as [m|] eqn:Hm; [|done].
  pose proof (inv_joins _ Hinv _ _ _ Hm) as Hj.
  assert (counts (H := n1) s.1 key id = m_joins m) as Hcm by (unfold counts, joins; by rewrite Hm).
  rewrite (decide_True (P := m_joins m = 1%Z)) in * by lia. cbn [fst snd spec_step] in *.
  rewrite (decide_False (P := counts (H := n1) s.1 key id = 0%Z)) in Href by lia.
  destruct Href as (_ & _ & Hc). rewrite Hc. cbn [foldl apply_remote_pg_event].
  rewrite remote_joins_leave by (by apply foreign_not_local).
  unfold local_addr. rewrite (decide_ext _ _ _ _ (on_key k key n1 i id)).
  case_decide as Hk; [|done]. destruct Hk as [-> ->]. rewrite Hr. unfold saturating_sub_u32. lia.
Qed.

Lemma synced_remove n1 n2 id s :
  n1 ≠ n2 → synced n1 n2 s → ok (H := n1) s.1 →
  synced n1 n2 (federate n1 n2 (OpRemoveActor id) s).
Proof.
  intros Hne Hs Hok k i. pose proof Hok as [Hinv _].
  pose proof (pg_step_refines (H := n1) (OpRemoveActor id) s.1 Hok I) as Href.
  unfold federate. cbn [pg_step spec_step remove_actor fst snd] in *.
  destruct Href as (_ & _ & Hc). rewrite Hc. destruct (Hs k i) as [Hr Hb].
  rewrite remote_joins_leaves by (apply NoDup_elements || by apply foreign_not_local).
  destruct (decide (i = id)) as [->|Hi].
  - split; [|lia]. case_decide as Hk.
    + rewrite Hr. unfold saturating_sub_u32. lia.
    + rewrite Hr. apply (joins_zero _ _ _ Hinv).
      destruct (mem s.1 k (local_addr id)) as [m|] eqn:Hm; [|done].
      destruct (inv_indexed _ Hinv _ _ _ Hm) as (ks & Hks & Hin).
      destruct Hk. split; [|done]. apply elem_of_elements. by rewrite Hks.
  - case_decide as Hk; [|done]. destruct Hk as [_ [= ->]]. done.
Qed.

(** A history of operations on node [n1], each allowed where it happens. *)
Fixpoint fed_run (n1 n2 : NodeId) (ops : list PgOp) (s : PgStore * PgStore) : PgStore * PgStore :=
  match ops with [] => s | op :: ops => fed_run n1 n2 ops (federate n1 n2 op s) end.
Fixpoint single_joins (n1 n2 : NodeId) (ops : list PgOp) (s : PgStore * PgStore) : Prop :=
  match ops with
  | [] => True
  | op :: ops => single_join_op n1 op s.1 ∧ single_joins n1 n2 ops (federate n1 n2 op s)
  end.

Lemma federate_synced n1 n2 op s :
  n1 ≠ n2 → single_join_op n1 op s.1 → ok (H := n1) s.1 → synced n1 n2 s →
  ok (H := n1) (federate n1 n2 op s).1 ∧ synced n1 n2 (federate n1 n2 op s).
Proof.
  intros Hne Hop Hok Hs. split.
  - assert (pg_op_ok (H := n1) op s.1) as Hpre
      by (destruct op; simpl in *; try done; by rewrite Hop).
    pose proof (pg_step_ok (H := n1) op s.1 Hok Hpre) as Hok'. unfold federate.
    by destruct (pg_step op s.1) as [r [sa evs]].
  - destruct op; try done; [by apply synced_join|by apply synced_leave|by apply synced_remove].
Qed.

(** As long as no actor joins a group it is already in, a peer that
    applies this node's events sees exactly the memberships of this node,
    through any history of joins, leaves and exits. *)
Theorem federation_faithful n1 n2 ops :
  n1 ≠ n2 → single_joins n1 n2 ops (empty_store, empty_store) →
  synced n1 n2 (fed_run n1 n2 ops (empty_store, empty_store)).
Proof.
  intros Hne Hops.
  assert (ok (H := n1) (empty_store, empty_store).1) as Hok by apply ok_empty.
  assert (synced n1 n2 (empty_store, empty_store)) as Hs.
  { intros k i. unfold counts, joins, remote_joins, mem, rmem. simpl.
    rewrite !lookup_empty. simpl. lia. }
  revert Hops Hok Hs. generalize (empty_store, empty_store).
  induction ops as [|op ops IH]; intros s; simpl; [done|].
  intros [Hop Hops] Hok Hs. destruct (federate_synced n1 n2 op s Hne Hop Hok Hs). by apply IH.
Qed.

Definition nodeA : NodeId := node_new "a@h".
Definition nodeB : NodeId := node_new "b@h".
Definition pool_key : GroupKey := mkGroupKey "default" "pool".

Lemma federation_faithful_witness :
  let ops := [OpJoin pool_key (from_raw 1); OpLeave pool_key (from_raw 1);
              OpJoin pool_key (from_raw 1)] in
  synced nodeA nodeB (fed_run nodeA nodeB ops (empty_store, empty_store)).
Proof.
  intros ops. apply (federation_faithful nodeA nodeB ops); [discriminate|].
  vm_compute. repeat split; reflexivity.
Defined.

(** The owner's and the peer's count of one membership. *)
Definition at_counts (n1 : NodeId) (key : GroupKey) (id : ActorId) (c r : Z)
    (s : PgStore * PgStore) : Prop :=
  ok (H := n1) s.1 ∧ counts (H := n1) s.1 key id = c ∧ remote_joins s.2 key (on n1 id) = r.

Lemma at_counts_join n1 n2 key id c r s :
  n1 ≠ n2 → (0 ≤ c < JOINS_LIMIT - 1)%Z → (0 ≤ r < JOINS_LIMIT - 1)%Z →
  at_counts n1 key id c r s →
  at_counts n1 key id (c + 1) (r + 1) (federate n1 n2 (OpJoin key id) s).
Proof.
  intros Hne Hc Hr (Hok & Hcs & Hrs).
  assert (pg_op_ok (H := n1) (OpJoin key id) s.1) as Hop by (simpl; lia).
  pose proof (pg_step_refines (H := n1) (OpJoin key id) s.1 Hok Hop) as Href.
  unfold federate. destruct (pg_step _ s.1) as [x [sa evs]] eqn:Hst. simpl in Href.
  destruct Href as (Hok' & _ & Hc'). assert (evs = [PgJoin key (on n1 id)]) as -> by (by injection Hst).
  split; [done|]. cbn [fst snd foldl apply_remote_pg_event]. rewrite Hc'.
  rewrite remote_joins_join by (by apply foreign_not_local).
  rewrite !decide_True by done. split; [lia|]. unfold remote_joins in Hrs.
  destruct (rmem s.2 key (on n1 id)) as [m|]; [rewrite u32_wrap_small; lia|lia].
Qed.

Lemma at_counts_leave n1 n2 key id c r s :
  n1 ≠ n2 → (0 < c)%Z → at_counts n1 key id c r s →
  at_counts n1 key id (c - 1) (if decide (c = 1%Z) then saturating_sub_u32 r 1 else r)
    (federate n1 n2 (OpLeave key id) s).
Proof.
  intros Hne Hc (Hok & Hcs & Hrs). pose proof Hok as [Hinv _].
  pose proof (pg_step_refines (H := n1) (OpLeave key id) s.1 Hok I) as Href.
  unfold federate. cbn [pg_step spec_step] in *.
  rewrite (decide_False (P := counts (H := n1) s.1 key id = 0%Z)) in Href by lia.
  rewrite (leave_cases (H := n1)) in * by done. unfold counts, joins in Hcs.
  destruct (mem s.1 key (local_addr id)) as [m|] eqn:Hm; [|lia].
  rewrite Hcs in *. destruct (decide (c = 1%Z)); cbn [fst snd] in *;
    destruct Href as (Hok' & _ & Hc'); (split; [done|]); cbn [fst snd]; rewrite Hc';
    rewrite decide_True by done; unfold counts, joins; rewrite Hm; (split; [lia|]); [|done].
  cbn [foldl apply_remote_pg_event].
  rewrite remote_joins_leave by (by apply foreign_not_local). rewrite decide_True by done.
  by rewrite Hrs.
Qed.

(** Reference counts are not federated faithfully: every join is
    published, but only the leave that drops the count to zero is, so after
    two joins and two leaves of an actor its own node has no member left
    while every peer still lists it. *)
Theorem federation_keeps_stale_member n1 n2 key id :
  n1 ≠ n2 →
  let ops := [OpJoin key id; OpJoin key id; OpLeave key id; OpLeave key id] in
  let s := fed_run n1 n2 ops (empty_store, empty_store) in
  counts (H := n1) s.1 key id = 0%Z ∧ remote_joins s.2 key (on n1 id) = 1%Z.
Proof.
  intros Hne ops s.
  assert (at_counts n1 key id 0 0 (empty_store, empty_store)) as H0.
  { split; [apply ok_empty|]. unfold counts, joins, remote_joins, mem, rmem. simpl.
    by rewrite !lookup_empty. }
  apply (at_counts_join n1 n2) in H0; [|done|done|done].
  apply (at_counts_join n1 n2) in H0; [|done|done|done].
  apply (at_counts_leave n1 n2) in H0; [|done|done].
  apply (at_counts_leave n1 n2) in H0; [|done|done].
  destruct H0 as (_ & Hc & Hr). split; [exact Hc|exact Hr].
Qed.

Lemma federation_keeps_stale_member_witness :
  let ops := [OpJoin pool_key (from_raw 7); OpJoin pool_key (from_raw 7);
              OpLeave pool_key (from_raw 7); OpLeave pool_key (from_raw 7)] in
  let s := fed_run nodeA nodeB ops (empty_store, empty_store) in
  counts (H := nodeA) s.1 pool_key (from_raw 7) = 0%Z ∧
  remote_joins s.2 pool_key (on nodeA (from_raw 7)) = 1%Z.
Proof. apply (federation_keeps_stale_member nodeA nodeB pool_key (from_raw 7)). discriminate. Defined.
