(* ===== verification/Registry.v ===== *)
(** * Name registries

    Models of [concurrency/src/registry.rs] (the process-wide registry of
    values by name, used by the dynamic supervisor) and of
    [concurrency/src/cluster/named_registry.rs] (actor names federated
    between nodes). *)

From S2P Require Import Prelude Address.

Inductive RegistryError := AlreadyRegistered (name : string).

(** ** Values by name *)

Module Values.
Section values.
(** A stored [Box<dyn Any>]: the type it was registered at and the value. *)
Context {V : Type}.
Record Boxed := mkBoxed { type_id : string; value : V }.
Abbreviation Store := (gmap string Boxed) (only parsing).

Definition register (name : string) (ty : string) (v : V) (st : Store)
    : Result () RegistryError * Store :=
  match st !! name with
  | Some _ => (Err (AlreadyRegistered name), st)
  | None => (Ok (), <[name := mkBoxed ty v]> st)
  end.

(** [whereis::<T>]: [None] also when the stored type is another one. *)
Definition whereis (name : string) (ty : string) (st : Store) : option V :=
  b ← st !! name; if decide (type_id b = ty) then Some (value b) else None.

Definition unregister (name : string) (st : Store) : Store := delete name st.

Definition registered (st : Store) : list string := fst <$> map_to_list st.

(** A registered value is found again under its name and type until it
    is unregistered, a name is never overwritten, and no other name is
    affected. *)
Theorem register_roundtrip name ty v st :
  let '(r, st') := register name ty v st in
  (r = Ok () ↔ name ∉ registered st) ∧
  (r = Ok () → whereis name ty st' = Some v ∧ unregister name st' = st) ∧
  (r ≠ Ok () → st' = st) ∧
  ∀ name' ty', name' ≠ name → whereis name' ty' st' = whereis name' ty' st.
Proof.
  assert (name ∉ registered st ↔ st !! name = None) as Hreg.
  { unfold registered. rewrite list_elem_of_fmap. split.
    - intros Hn. destruct (st !! name) as [b|] eqn:Hb; [|done]. destruct Hn.
      exists (name, b). split; [done|]. by apply elem_of_map_to_list.
    - intros Hn ([n b] & -> & Hb%elem_of_map_to_list). simpl in *. congruence. }
  unfold register. destruct (st !! name) as [b|] eqn:Hb; split_and!; try done.
  - split; [done|]. by intros ?%Hreg.
  - split; [|done]. intros _. by apply Hreg.
  - intros _. unfold whereis, unregister. rewrite lookup_insert_eq. simpl.
    rewrite decide_True by done. split; [done|]. by rewrite delete_insert_id.
  - intros n' ty' Hne. unfold whereis. by rewrite lookup_insert_ne.
Qed.
End values.
End Values.

(** ** Federated actor names *)

Module Names.

Inductive RegistryEvent :=
| Register (name : string) (address : ActorAddress)
| Unregister (name : string) (address : ActorAddress)
| Snapshot (entries : list (string * ActorAddress)).

Record NamedStore := mkNamedStore {
  addresses : gmap string ActorAddress;
  handles : gmap string ActorId
}.
Definition empty_names : NamedStore := mkNamedStore ∅ ∅.

Section node.
Context `{ThisNode}.

Definition register_named (name : string) (h : ActorId) (st : NamedStore)
    : Result () RegistryError * (NamedStore * list RegistryEvent) :=
  let address := local_addr h in
  match addresses st !! name with
  | Some _ => (Err (AlreadyRegistered name), (st, []))
  | None => (Ok (), (mkNamedStore (<[name := address]> (addresses st))
                       (<[name := h]> (handles st)), [Register name address]))
  end.

Definition lookup_address (name : string) (st : NamedStore) : option ActorAddress :=
  addresses st !! name.

Definition lookup_handle (name : string) (st : NamedStore) : option ActorId :=
  handles st !! name.

Definition unregister_named (name : string) (st : NamedStore) : NamedStore * list RegistryEvent :=
  match addresses st !! name with
  | Some address => (mkNamedStore (delete name (addresses st)) (delete name (handles st)),
                     [Unregister name address])
  | None => (st, [])
  end.

Definition names_of (id : ActorId) (st : NamedStore) : list string :=
  fst <$> iter_filter (λ nh, bool_decide (nh.2 = id)) (map_to_list (handles st)).

Definition remove_by_actor_id (id : ActorId) (st : NamedStore) : NamedStore * list RegistryEvent :=
  let names := names_of id st in
  (foldl (λ st name, mkNamedStore (delete name (addresses st)) (delete name (handles st))) st names,
   (λ name, Unregister name (local_addr id)) <$> names).

Definition local_snapshot (st : NamedStore) : list (string * ActorAddress) :=
  omap (λ nh : string * ActorId, pair nh.1 <$> addresses st !! nh.1) (map_to_list (handles st)).

Definition apply_register (name : string) (address : ActorAddress) (st : NamedStore) : NamedStore :=
  if bool_decide (is_Some (handles st !! name)) then st else
  match addresses st !! name with
  | Some existing =>
      if decide (existing = address)
      then mkNamedStore (<[name := address]> (addresses st)) (handles st) else st
  | None => mkNamedStore (<[name := address]> (addresses st)) (handles st)
  end.

Definition apply_unregister (name : string) (address : ActorAddress) (st : NamedStore)
    : NamedStore :=
  if bool_decide (is_Some (handles st !! name)) then st else
  if decide (addresses st !! name = Some address)
  then mkNamedStore (delete name (addresses st)) (handles st) else st.

Definition apply_remote_event (ev : RegistryEvent) (st : NamedStore) : NamedStore :=
  match ev with
  | Register name address => apply_register name address st
  | Unregister name address => apply_unregister name address st
  | Snapshot entries => foldl (λ st e, apply_register e.1 e.2 st) st entries
  end.

(** Handles are exactly the names that point to an actor of this node
    registered here. *)
Definition owned (st : NamedStore) : Prop :=
  ∀ name h, handles st !! name = Some h → addresses st !! name = Some (local_addr h).

Inductive NameOp :=
| OpRegister (name : string) (h : ActorId)
| OpUnregister (name : string)
| OpExit (id : ActorId)
| OpEvent (ev : RegistryEvent).

Definition name_step (op : NameOp) (st : NamedStore) : NamedStore * list RegistryEvent :=
  match op with
  | OpRegister name h => snd (register_named name h st)
  | OpUnregister name => unregister_named name st
  | OpExit id => remove_by_actor_id id st
  | OpEvent ev => (apply_remote_event ev st, [])
  end.

Lemma delete_names_lookup names st n :
  handles (foldl (λ st name, mkNamedStore (delete name (addresses st)) (delete name (handles st)))
             st names) !! n = (if decide (n ∈ names) then None else handles st !! n) ∧
  addresses (foldl (λ st name, mkNamedStore (delete name (addresses st)) (delete name (handles st)))
             st names) !! n = (if decide (n ∈ names) then None else addresses st !! n).
Proof.
  revert st. induction names as [|m names IH]; intros st.
  - cbn [foldl]. by rewrite !decide_False by apply not_elem_of_nil.
  - cbn [foldl]. destruct (IH (mkNamedStore (delete m (addresses st)) (delete m (handles st))))
      as [-> ->]. cbn [addresses handles]. rewrite !lookup_delete.
    repeat case_decide; try done; set_solver.
Qed.

Lemma elem_of_names_of id st n : n ∈ names_of id st ↔ handles st !! n = Some id.
Proof.
  unfold names_of. rewrite list_elem_of_fmap. split.
  - intros ([m h] & -> & [Hm Hh]%elem_of_iter_filter). bool_simpl. simpl in *. subst h.
    by apply elem_of_map_to_list.
  - intros Hn. exists (n, id). split; [done|]. apply elem_of_iter_filter.
    split; [by apply elem_of_map_to_list|by apply bool_decide_eq_true].
Qed.

(** Remote events leave locally owned names alone. *)
Lemma apply_register_local name a st n h :
  handles st !! n = Some h →
  addresses (apply_register name a st) !! n = addresses st !! n ∧
  handles (apply_register name a st) = handles st.
Proof.
  intros Hn. unfold apply_register. case_bool_decide as Hs; [done|].
  assert (name ≠ n) as Hne by (intros ->; destruct Hs; eauto).
  destruct (addresses st !! name); [case_decide|]; simpl; by rewrite ?lookup_insert_ne.
Qed.

Lemma apply_unregister_local name a st n h :
  handles st !! n = Some h →
  addresses (apply_unregister name a st) !! n = addresses st !! n ∧
  handles (apply_unregister name a st) = handles st.
Proof.
  intros Hn. unfold apply_unregister. case_bool_decide as Hs; [done|].
  assert (name ≠ n) as Hne by (intros ->; destruct Hs; eauto).
  case_decide; simpl; by rewrite ?lookup_delete_ne.
Qed.

Lemma apply_register_handles name a st : handles (apply_register name a st) = handles st.
Proof.
  unfold apply_register. case_bool_decide; [done|].
  destruct (addresses st !! name); [by case_decide|done].
Qed.

Lemma apply_event_handles ev st : handles (apply_remote_event ev st) = handles st.
Proof.
  destruct ev as [n a|n a|es]; simpl; [apply apply_register_handles| |].
  - unfold apply_unregister. case_bool_decide; [done|]. by case_decide.
  - revert st. induction es as [|e es IH]; intros st; simpl; [done|].
    by rewrite IH, apply_register_handles.
Qed.

Lemma apply_event_local ev st n h :
  handles st !! n = Some h → addresses (apply_remote_event ev st) !! n = addresses st !! n.
Proof.
  destruct ev as [m a|m a|es]; simpl; intros Hn.
  - by apply (apply_register_local m a st n h).
  - by apply (apply_unregister_local m a st n h).
  - revert st Hn. induction es as [|e es IH]; intros st Hn; simpl; [done|].
    rewrite IH by (by rewrite apply_register_handles).
    by apply (apply_register_local _ _ st n h).
Qed.

(** Names owned by this node are safe from the federation: every
    operation keeps each local handle in step with its published address, no
    remote event changes a locally owned name, and once an actor has exited
    no name leads to its handle. *)
Theorem local_names_owned op st :
  owned st →
  let st' := fst (name_step op st) in
  owned st' ∧
  (∀ ev, op = OpEvent ev → handles st' = handles st ∧
     ∀ n, is_Some (handles st !! n) → addresses st' !! n = addresses st !! n) ∧
  (∀ id, op = OpExit id → ∀ n, handles st' !! n ≠ Some id).
Proof.
  intros Hown st'. subst st'. destruct op as [name h|name|id|ev]; simpl.
  - split; [|done]. intros n k. unfold register_named.
    destruct (addresses st !! name) eqn:Ha; simpl; [apply Hown|].
    rewrite !lookup_insert. case_decide; [by intros [= ->]|apply Hown].
  - split; [|done]. intros n k. unfold unregister_named.
    destruct (addresses st !! name) eqn:Ha; simpl; [|apply Hown].
    rewrite !lookup_delete. case_decide; [done|apply Hown].
  - split; [|split; [done|]].
    + intros n k. destruct (delete_names_lookup (names_of id st) st n) as [-> ->].
      case_decide; [done|apply Hown].
    + intros _ [= <-] n. destruct (delete_names_lookup (names_of id st) st n) as [-> _].
      case_decide as Hd; [done|]. by rewrite elem_of_names_of in Hd.
  - split; [|split; [|done]].
    + intros n k Hk. rewrite apply_event_handles in Hk.
      rewrite (apply_event_local ev st n k) by done. by apply Hown.
    + intros _ [= <-]. split; [apply apply_event_handles|]. intros n [k Hk].
      by apply (apply_event_local ev st n k).
Qed.
End node.

Lemma local_names_owned_witness :
  let _ : ThisNode := node_new "a@h" in
  let st := fst (snd (register_named "db" (from_raw 3) empty_names)) in
  let op := OpExit (from_raw 3) in
  let st' := fst (name_step op st) in
  owned st' ∧
  (∀ ev, op = OpEvent ev → handles st' = handles st ∧
     ∀ n, is_Some (handles st !! n) → addresses st' !! n = addresses st !! n) ∧
  (∀ id, op = OpExit id → ∀ n, handles st' !! n ≠ Some id).
Proof.
  intros T st op. apply (local_names_owned op st). intros n h Hh.
  change ((<["db" := from_raw 3]> ∅ : gmap string ActorId) !! n = Some h) in Hh.
  apply lookup_insert_Some in Hh as [[<- <-]|[_ Hh]]; [reflexivity|].
  by rewrite lookup_empty in Hh.
Defined.

Lemma apply_register_fresh name a :
  apply_register name a empty_names = mkNamedStore (<[name := a]> ∅) ∅.
Proof.
  unfold apply_register. cbn [handles addresses empty_names].
  rewrite bool_decide_eq_false_2; [|rewrite lookup_empty; by intros []].
  by rewrite lookup_empty.
Qed.

Lemma apply_unregister_foreign name a m :
  m !! name = Some a →
  apply_unregister name a (mkNamedStore m ∅) = mkNamedStore (delete name m) ∅.
Proof.
  intros Hm. unfold apply_unregister. cbn [handles addresses].
  rewrite bool_decide_eq_false_2; [|rewrite lookup_empty; by intros []].
  by rewrite decide_True.
Qed.

Lemma apply_unregister_owned name a m h :
  is_Some (h !! name) → apply_unregister name a (mkNamedStore m h) = mkNamedStore m h.
Proof. intros Hh. unfold apply_unregister. cbn [handles]. by rewrite bool_decide_eq_true_2. Qed.

(** [unregister_named], documented as local only, also removes a name
    that another node owns and publishes its removal: when a second node
    unregisters a name it learnt from [owner], a third node that applies the
    event loses the name although its owner still holds it. *)
Theorem unregister_named_foreign (owner : NodeId) name h :
  let '(s1, reg) := snd (register_named (H := owner) name h empty_names) in
  let apply := foldl (λ st ev, apply_remote_event ev st) in
  let s2 := apply empty_names reg in
  let s3 := apply empty_names reg in
  let '(s2', unreg) := unregister_named name s2 in
  lookup_handle name s1 = Some h ∧
  lookup_address name s3 = Some (on owner h) ∧
  lookup_address name (apply s3 unreg) = None ∧
  lookup_handle name (apply s1 unreg) = Some h.
Proof.
  unfold register_named. cbn [addresses empty_names]. rewrite lookup_empty.
  cbn [snd foldl apply_remote_event]. rewrite apply_register_fresh.
  unfold unregister_named, lookup_handle, lookup_address. cbn [addresses handles].
  rewrite lookup_insert_eq. cbn [foldl apply_remote_event].
  rewrite apply_unregister_foreign, apply_unregister_owned by (by rewrite lookup_insert_eq).
  cbn [addresses handles]. by rewrite lookup_delete_eq, !lookup_insert_eq.
Qed.

End Names.
