(* ===== verification/Tokens.v ===== *)
(** * Cancellation tokens of the threads runtime

    Model of [CancellationToken] in [rt/src/threads/mod.rs]: a flag and a
    list of callbacks behind a mutex, used by any number of threads, each of
    them in a call of [on_cancel] or of [cancel]. One step is one atomic
    access to the flag, or what happens while the mutex is held between two
    such accesses. Callbacks are identified by numbers; [fired] lists the
    calls that were made. *)

From S2P Require Import Prelude.

Inductive TokenPc :=
| OnCancel (cb : nat)    (** [on_cancel] is about to take the lock *)
| OnChecked (cb : nat)   (** it holds the lock and is about to read the flag *)
| OnPush (cb : nat)      (** it read [false] and is about to push *)
| OnCall (cb : nat)      (** it read [true], has dropped the lock *)
| CancelStore            (** [cancel] is about to set the flag *)
| CancelDrain            (** ... to take the lock *)
| CancelLocked           (** ... holds it and is about to drain *)
| CancelCall (cbs : list nat)
| TokenDone.

#[global] Instance TokenPc_eq_dec : EqDecision TokenPc.
Proof. solve_decision. Defined.

Record Token := mkToken {
  is_cancelled : bool;
  tk_lock : option nat;
  callbacks : list nat;
  fired : list nat;
  threads : list TokenPc
}.

Definition set_thread (i : nat) (pc : TokenPc) (t : Token) : Token :=
  mkToken (is_cancelled t) (tk_lock t) (callbacks t) (fired t) (<[i := pc]> (threads t)).

(** One step of thread [i]; [None] when it has to wait for the lock, or has
    returned. *)
Definition token_step (i : nat) (t : Token) : option Token :=
  pc ← threads t !! i;
  let at_lock := match tk_lock t with None => Some () | Some _ => None end in
  match pc with
  | OnCancel cb =>
      _ ← at_lock;
      Some (set_thread i (OnChecked cb)
        (mkToken (is_cancelled t) (Some i) (callbacks t) (fired t) (threads t)))
  | OnChecked cb =>
      Some (if is_cancelled t then
              set_thread i (OnCall cb)
                (mkToken (is_cancelled t) None (callbacks t) (fired t) (threads t))
            else set_thread i (OnPush cb) t)
  | OnPush cb =>
      Some (set_thread i TokenDone
        (mkToken (is_cancelled t) None (callbacks t ++ [cb]) (fired t) (threads t)))
  | OnCall cb =>
      Some (set_thread i TokenDone
        (mkToken (is_cancelled t) (tk_lock t) (callbacks t) (fired t ++ [cb]) (threads t)))
  | CancelStore =>
      Some (set_thread i CancelDrain
        (mkToken true (tk_lock t) (callbacks t) (fired t) (threads t)))
  | CancelDrain =>
      _ ← at_lock;
      Some (set_thread i CancelLocked
        (mkToken (is_cancelled t) (Some i) (callbacks t) (fired t) (threads t)))
  | CancelLocked =>
      Some (set_thread i (CancelCall (callbacks t))
        (mkToken (is_cancelled t) None [] (fired t) (threads t)))
  | CancelCall [] => Some (set_thread i TokenDone t)
  | CancelCall (cb :: cbs) =>
      Some (set_thread i (CancelCall cbs)
        (mkToken (is_cancelled t) (tk_lock t) (callbacks t) (fired t ++ [cb]) (threads t)))
  | TokenDone => None
  end.

(** [CancellationToken::new] with the calls the threads are about to make. *)
Definition token_new (calls : list TokenPc) : Token := mkToken false None [] [] calls.

Definition is_call (pc : TokenPc) : Prop :=
  match pc with OnCancel _ | CancelStore => True | _ => False end.

Inductive token_reach (calls : list TokenPc) : Token → Prop :=
| token_reach_new : token_reach calls (token_new calls)
| token_reach_step t i t' : token_reach calls t → token_step i t = Some t' → token_reach calls t'.

(** The callbacks a thread holds: to be pushed, to be called. *)
Definition held (pc : TokenPc) : list nat :=
  match pc with
  | OnCancel cb | OnChecked cb | OnPush cb | OnCall cb => [cb]
  | CancelCall cbs => cbs
  | _ => []
  end.

Definition callbacks_of (calls : list TokenPc) : list nat := calls ≫= held.

Definition holds_lock (pc : TokenPc) : bool :=
  match pc with OnChecked _ | OnPush _ | CancelLocked => true | _ => false end.
Definition will_drain (pc : TokenPc) : bool :=
  match pc with CancelDrain | CancelLocked => true | _ => false end.
Definition cancels (pc : TokenPc) : bool :=
  match pc with CancelStore => true | _ => false end.

(** How often a callback occurs. *)
Definition cnt (cb : nat) (l : list nat) : nat := count_occ Nat.eq_dec l cb.

(** A thread that read the flag unset, or a pushed callback, is drained by a
    [cancel] still to come. *)
Record token_inv (calls : list TokenPc) (t : Token) : Prop := {
  ti_all cb : cnt cb (fired t) + cnt cb (callbacks t) + cnt cb (callbacks_of (threads t)) =
    cnt cb (callbacks_of calls);
  ti_lock i pc : threads t !! i = Some pc → (tk_lock t = Some i ↔ holds_lock pc = true);
  ti_push : is_cancelled t = true →
    (callbacks t ≠ [] ∨ ∃ i cb, threads t !! i = Some (OnPush cb)) →
    ∃ i pc, threads t !! i = Some pc ∧ will_drain pc = true;
  ti_flag : is_cancelled t = false → fired t = [] ∧
    Forall (λ pc, will_drain pc = false ∧ ∀ l, pc ≠ CancelCall l) (threads t) ∧
    Forall (λ pc, ∀ cb, pc ≠ OnCall cb) (threads t);
  ti_cancels : is_cancelled t = false → ∀ i, cancels <$> threads t !! i = cancels <$> calls !! i;
  ti_wanted : is_cancelled t = true → ∃ i, cancels <$> calls !! i = Some true;
  ti_length : length (threads t) = length calls
}.

Lemma cnt_app cb l k : cnt cb (l ++ k) = cnt cb l + cnt cb k.
Proof. apply count_occ_app. Qed.

Lemma cnt_cons cb x l : cnt cb (x :: l) = cnt cb [x] + cnt cb l.
Proof. apply (cnt_app cb [x] l). Qed.

Lemma registered_cons pc l : callbacks_of (pc :: l) = held pc ++ callbacks_of l.
Proof. done. Qed.

Lemma registered_insert cb l i pc pc' :
  l !! i = Some pc →
  cnt cb (held pc) + cnt cb (callbacks_of (<[i := pc']> l)) =
  cnt cb (held pc') + cnt cb (callbacks_of l).
Proof.
  revert i. induction l as [|x l IH]; intros [|i] Hi; simplify_eq/=;
    rewrite ?registered_cons, !cnt_app; [lia|]. specialize (IH i Hi). lia.
Qed.

(** Open a step: which thread moved, and the state before and after. *)
Ltac open_step Hs :=
  let pc := fresh "pc" in let Hi := fresh "Hi" in
  unfold token_step in Hs; apply bind_Some in Hs as (pc & Hi & Hs);
  destruct pc as [?|?|?|?| | | |[|c0 cbs]|];
  repeat match goal with
  | H : _ ≫= _ = Some _ |- _ => apply bind_Some in H as (? & ? & H)
  | H : context [if ?b then _ else _] |- _ => destruct b eqn:?
  | H : match ?x with None => _ | _ => _ end = Some _ |- _ => destruct x eqn:?
  end; simplify_eq; simpl in *.

Lemma token_step_all i t t' x :
  token_step i t = Some t' →
  cnt x (fired t') + cnt x (callbacks t') + cnt x (callbacks_of (threads t')) =
  cnt x (fired t) + cnt x (callbacks t) + cnt x (callbacks_of (threads t)).
Proof.
  intros Hs. open_step Hs;
    match goal with
    | H : threads _ !! _ = Some _ |- context [<[_ := ?pc']> _] =>
        pose proof (registered_insert x _ _ _ pc' H)
    end; simpl held in *; rewrite ?cnt_app in *;
    try (rewrite (cnt_cons x _ cbs) in * ); change (cnt x []) with 0 in *; lia.
Qed.

(** The lock is held by the thread whose program counter says so. *)
Lemma token_step_lock i t t' :
  (∀ j pc, threads t !! j = Some pc → (tk_lock t = Some j ↔ holds_lock pc = true)) →
  token_step i t = Some t' →
  ∀ j pc, threads t' !! j = Some pc → (tk_lock t' = Some j ↔ holds_lock pc = true).
Proof.
  intros Hl Hs. pose proof (Hl i) as Hli. open_step Hs; specialize (Hli _ Hi); simpl in Hli;
    (lookup_insert_cases; [|specialize (Hl _ _ Hlookup)]); simpl in *;
    try match goal with H : tk_lock _ = None |- _ => rewrite H in * end;
    try naive_solver;
    try (rewrite (proj2 Hli) in Hl by done; naive_solver).
Qed.

(** [OnPush] and a drain exclude each other: both need the lock. *)
Lemma token_step_push calls i t t' :
  token_inv calls t → token_step i t = Some t' → is_cancelled t' = true →
  (callbacks t' ≠ [] ∨ ∃ j cb, threads t' !! j = Some (OnPush cb)) →
  ∃ j pc, threads t' !! j = Some pc ∧ will_drain pc = true.
Proof.
  intros Hinv Hs. pose proof (ti_lock _ _ Hinv) as Hl. pose proof (ti_push _ _ Hinv) as Hp.
  assert (∀ pc, threads t !! i = Some pc → ∀ pc', threads t' = <[i := pc']> (threads t) →
    will_drain pc = false →
    (∃ j p, threads t !! j = Some p ∧ will_drain p = true) →
    ∃ j p, threads t' !! j = Some p ∧ will_drain p = true) as Hkeep.
  { intros pc Hi pc' -> Hd (j & p & Hj & Hw). exists j, p. split; [|done].
    rewrite list_lookup_insert_ne; [done|]. intros ->. congruence. }
  assert (∀ pc', threads t' = <[i := pc']> (threads t) → (∀ cb, pc' ≠ OnPush cb) →
    (∃ j cb, threads t' !! j = Some (OnPush cb)) → ∃ j cb, threads t !! j = Some (OnPush cb))
    as Hback.
  { intros pc' -> Hne (j & cb & Hj). apply list_lookup_insert_Some in Hj as [(_ & Heq & _)|[_ Hj]];
      [by destruct (Hne cb)|eauto]. }
  pose proof (lookup_lt_Some (threads t) i) as Hlt.
  open_step Hs; intros Hc Hpend;
    try (eapply (Hkeep _ Hi _ eq_refl); [done|]; apply Hp; [done|];
         destruct Hpend as [?|Hpend]; [by left|right]; by eapply (Hback _ eq_refl); [|exact Hpend]).
  - congruence.
  - (* a push: the flag was set after it was read *)
    eapply (Hkeep _ Hi _ eq_refl); [done|]. apply Hp; [done|]. eauto.
  - (* the flag is set: this very thread will drain *)
    exists i, CancelDrain. split; [|done]. apply list_lookup_insert_eq. by eapply Hlt.
  - exists i, CancelLocked. split; [|done]. apply list_lookup_insert_eq. by eapply Hlt.
  - (* drained: nobody can be about to push *)
    destruct Hpend as [?|(j & cb & Hj)]; [done|].
    apply list_lookup_insert_Some in Hj as [(-> & ? & _)|[Hne Hj]]; [done|].
    pose proof (proj2 (Hl _ _ Hi) eq_refl). pose proof (proj2 (Hl _ _ Hj) eq_refl). congruence.
Qed.

Lemma token_inv_step calls i t t' :
  Forall is_call calls → token_inv calls t → token_step i t = Some t' → token_inv calls t'.
Proof.
  intros Hcalls Hinv Hs. split.
  - intros cb. rewrite (token_step_all i t t' cb Hs). apply Hinv.
  - exact (token_step_lock i t t' (ti_lock _ _ Hinv) Hs).
  - exact (token_step_push calls i t t' Hinv Hs).
  - open_step Hs; intros Hc; try congruence;
      destruct (ti_flag _ _ Hinv Hc) as (Hfi & Hd & Ho); rewrite Forall_lookup in Hd, Ho;
      try (destruct (Hd _ _ Hi) as [? ?]; simpl in *; congruence);
      try (by destruct (Ho _ _ Hi cb));
      (split_and!; [done|..]; rewrite Forall_lookup; lookup_insert_cases; try done; eauto).
    all: try (by destruct (proj2 (Hd _ _ Hi) []) ).
    all: try (by destruct (Ho _ _ Hi c)).
  - open_step Hs; intros Hf j; try congruence;
      rewrite <- (ti_cancels _ _ Hinv Hf j), list_lookup_insert;
      case_decide as Hj; try done; destruct Hj as [-> _]; rewrite Hi; done.
  - pose proof (ti_wanted _ _ Hinv) as Hw. pose proof (λ Hf, ti_cancels _ _ Hinv Hf i) as Hc.
    destruct (is_cancelled t) eqn:Ht; [intros _; by apply Hw|].
    open_step Hs; try congruence. intros _. exists i. rewrite <- Hc by done. by rewrite Hi.
  - rewrite <- (ti_length _ _ Hinv). open_step Hs; by rewrite length_insert.
Qed.

Lemma token_inv_reach calls t : Forall is_call calls → token_reach calls t → token_inv calls t.
Proof.
  intros Hcalls. induction 1 as [|t i t' _ IH Hs]; [|by eapply token_inv_step].
  rewrite Forall_lookup in Hcalls. split; simpl; try done.
  - intros i pc Hi. specialize (Hcalls i pc Hi). by destruct pc.
  - intros _. split_and!; [done|..]; rewrite Forall_lookup; intros i pc Hi;
      specialize (Hcalls i pc Hi); by destruct pc.
Qed.

(** The promise of [CancellationToken]. Let any number of threads
    register callbacks with [on_cancel] and any number of threads call
    [cancel], in any interleaving. No callback is ever called more often than
    it was registered; and when all calls have returned, every callback has
    been called exactly as often as it was registered if there was a
    [cancel], and otherwise none has been and all are still registered. *)
Theorem on_cancel_exactly_once calls t :
  Forall is_call calls → token_reach calls t →
  (∀ cb, cnt cb (fired t) ≤ cnt cb (callbacks_of calls)) ∧
  (Forall (λ pc, pc = TokenDone) (threads t) →
     if bool_decide (CancelStore ∈ calls) then fired t ≡ₚ callbacks_of calls ∧ callbacks t = []
     else fired t = [] ∧ callbacks t ≡ₚ callbacks_of calls).
Proof.
  intros Hcalls Hreach. pose proof (token_inv_reach calls t Hcalls Hreach) as Hinv.
  pose proof (ti_all _ _ Hinv) as Hall. split; [intros cb; specialize (Hall cb); lia|].
  intros Hdone. rewrite Forall_lookup in Hdone.
  assert (callbacks_of (threads t) = []) as Hreg.
  { clear -Hdone. revert Hdone. induction (threads t) as [|pc l IH]; intros Hd; [done|].
    rewrite registered_cons, (Hd 0 pc eq_refl). apply IH. intros i x Hx. by apply (Hd (S i)). }
  rewrite Hreg in Hall.
  assert (is_cancelled t = bool_decide (CancelStore ∈ calls)) as Hflag.
  { destruct (is_cancelled t) eqn:Hc; symmetry.
    - apply bool_decide_eq_true. destruct (ti_wanted _ _ Hinv Hc) as [i Hi].
      apply fmap_Some in Hi as (pc & Hi & Hpc). destruct pc; try done. by eapply list_elem_of_lookup_2.
    - apply bool_decide_eq_false. intros [i Hi]%list_elem_of_lookup.
      pose proof (ti_cancels _ _ Hinv Hc i) as He. rewrite Hi in He. simpl in He.
      apply fmap_Some in He as (pc & Hpc & Hx). by rewrite (Hdone _ _ Hpc) in Hx. }
  rewrite <- Hflag. destruct (is_cancelled t) eqn:Hc.
  - assert (callbacks t = []) as Hcb.
    { destruct (callbacks t) as [|cb l] eqn:Hcbs; [done|exfalso].
      destruct (ti_push _ _ Hinv Hc) as (i & pc & Hi & Hw); [left; by rewrite Hcbs|].
      by rewrite (Hdone _ _ Hi) in Hw. }
    split; [|done]. apply (Permutation_count_occ Nat.eq_dec). intros cb. specialize (Hall cb).
    rewrite Hcb in Hall. unfold cnt in Hall. simpl in Hall. lia.
  - destruct (ti_flag _ _ Hinv Hc) as (Hf & _). split; [done|].
    apply (Permutation_count_occ Nat.eq_dec). intros cb. specialize (Hall cb).
    rewrite Hf in Hall. unfold cnt in Hall. simpl in Hall. lia.
Qed.

(** Two threads register, a third cancels between the check and the push of
    the first: the callback is drained all the same. *)
Definition racing_calls : list TokenPc := [OnCancel 7; CancelStore; OnCancel 8].
Definition run_token (sched : list nat) (t : Token) : option Token :=
  foldl (λ t i, t ≫= token_step i) (Some t) sched.
Definition racing_schedule : list nat := [0; 0; 1; 0; 1; 1; 1; 1; 2; 2; 2].

Lemma run_token_reach calls sched t t' :
  token_reach calls t → run_token sched t = Some t' → token_reach calls t'.
Proof.
  revert t. induction sched as [|i sched IH]; intros t Ht; unfold run_token; simpl; [by intros [= <-]|].
  destruct (token_step i t) as [t1|] eqn:Hs.
  - apply IH. by eapply token_reach_step.
  - intros Hn. exfalso. clear -Hn. induction sched as [|j sched IH]; simpl in *; [done|auto].
Qed.

Definition racing_end : Token := mkToken true None [] [7; 8] [TokenDone; TokenDone; TokenDone].

Lemma on_cancel_exactly_once_witness :
  run_token racing_schedule (token_new racing_calls) = Some racing_end ∧
  fired racing_end ≡ₚ callbacks_of racing_calls ∧ callbacks racing_end = [].
Proof.
  assert (run_token racing_schedule (token_new racing_calls) = Some racing_end) as Hrun
    by reflexivity.
  split; [exact Hrun|].
  assert (Forall is_call racing_calls) as Hcalls by (repeat apply Forall_cons_2; [done..|apply Forall_nil_2]).
  pose proof (run_token_reach _ _ _ _ (token_reach_new racing_calls) Hrun) as Hreach.
  assert (Forall (λ pc, pc = TokenDone) (threads racing_end)) as Hdone
    by (repeat apply Forall_cons_2; [done..|apply Forall_nil_2]).
  pose proof (proj2 (on_cancel_exactly_once racing_calls racing_end Hcalls Hreach) Hdone) as Hend.
  rewrite bool_decide_true in Hend by (right; left). exact Hend.
Defined.
