(* ===== verification/Waits.v ===== *)
(** * Waiting for an actor's exit

    Model of the completion of an actor: in the threads runtime a mutex and a
    condition variable, written by [CompletionGuard::drop] of
    [concurrency/src/threads/actor.rs] and awaited by
    [wait_for_threads_exit_blocking] and its variant with a timeout of
    [concurrency/src/child_handle.rs]; in the tasks runtime a watch channel,
    awaited by [wait_loop]. Any number of threads wait while one actor ends;
    a step is what a thread does between two releases of the mutex.
    Condition variables may wake spuriously. *)

From S2P Require Import Prelude Errors.

(** ** Mutex and condition variable *)

Module Condvar.

Inductive WaitPc :=
| WaitLock (timed : bool)      (** about to take the lock, in the loop *)
| WaitCheck (timed : bool)     (** holds the lock, about to read the reason *)
| WaitSleep (timed : bool)     (** in [cvar.wait] or [cvar.wait_timeout] *)
| WaitTimedOut                 (** the timeout has passed, about to re-lock *)
| WaitDone (r : option ExitReason)
| GuardLock (r : option ExitReason)  (** [CompletionGuard::drop] *)
| GuardSet (r : option ExitReason)
| GuardNotify
| GuardDone.

Record Completion := mkCompletion {
  reason_slot : option ExitReason;
  cv_lock : option nat;
  pcs : list WaitPc
}.

(** What wakes a sleeping thread. *)
Inductive Wake := Run | Spurious | TimeOut.

Definition set_wait_pc (i : nat) (pc : WaitPc) (s : Completion) : Completion :=
  mkCompletion (reason_slot s) (cv_lock s) (<[i := pc]> (pcs s)).

Definition notify_all (s : Completion) : Completion :=
  mkCompletion (reason_slot s) (cv_lock s)
    ((λ pc, match pc with WaitSleep t => WaitLock t | _ => pc end) <$> pcs s).

(** The reason a guard publishes: [self.reason.take().or(..)]. *)
Definition guard_reason (r : option ExitReason) : ExitReason :=
  default (Panic "unexpected framework panic") r.

Definition wait_step (i : nat) (wk : Wake) (s : Completion) : option Completion :=
  pc ← pcs s !! i;
  let lock := mkCompletion (reason_slot s) (Some i) (pcs s) in
  let unlock := mkCompletion (reason_slot s) None (pcs s) in
  match pc, wk with
  | WaitLock t, Run =>
      match cv_lock s with None => Some (set_wait_pc i (WaitCheck t) lock) | Some _ => None end
  | WaitCheck t, Run =>
      Some (match reason_slot s with
            | Some r => set_wait_pc i (WaitDone (Some r)) unlock
            | None => set_wait_pc i (WaitSleep t) unlock
            end)
  | WaitSleep t, Spurious => Some (set_wait_pc i (WaitLock t) s)
  | WaitSleep true, TimeOut => Some (set_wait_pc i WaitTimedOut s)
  | WaitTimedOut, Run =>
      match cv_lock s with None => Some (set_wait_pc i (WaitDone None) s) | Some _ => None end
  | GuardLock r, Run =>
      match cv_lock s with None => Some (set_wait_pc i (GuardSet r) lock) | Some _ => None end
  | GuardSet r, Run =>
      Some (set_wait_pc i GuardNotify
        (mkCompletion (Some (guard_reason r)) (cv_lock s) (pcs s)))
  | GuardNotify, Run => Some (set_wait_pc i GuardDone (notify_all unlock))
  | _, _ => None
  end.

(** Threads that are about to call [wait_for_threads_exit_blocking]
    ([timed = false]) or [.._with_timeout], and the actor's guard. *)
Definition waiting (timed : list bool) (r : option ExitReason) : Completion :=
  mkCompletion None None (GuardLock r :: (WaitLock <$> timed)).

Inductive wait_reach (timed : list bool) (r : option ExitReason) : Completion → Prop :=
| wait_reach_init : wait_reach timed r (waiting timed r)
| wait_reach_step s i wk s' :
    wait_reach timed r s → wait_step i wk s = Some s' → wait_reach timed r s'.

Definition wait_holds (pc : WaitPc) : bool :=
  match pc with WaitCheck _ | GuardSet _ | GuardNotify => true | _ => false end.

(** What the guard still has to do decides what the slot holds, and who may
    sleep. [t] is whether the call of thread [i] has a timeout. *)
Definition guard_ok (r : option ExitReason) (s : Completion) : Prop :=
  match pcs s !! 0 with
  | Some (GuardLock r') | Some (GuardSet r') => r' = r ∧ reason_slot s = None
  | Some GuardNotify => reason_slot s = Some (guard_reason r)
  | Some GuardDone => reason_slot s = Some (guard_reason r) ∧
      ∀ i t, pcs s !! i ≠ Some (WaitSleep t)
  | _ => False
  end.

Definition waiter_ok (r : option ExitReason) (t : bool) (pc : WaitPc) : Prop :=
  match pc with
  | WaitLock t' | WaitCheck t' | WaitSleep t' => t' = t
  | WaitTimedOut => t = true
  | WaitDone (Some r') => r' = guard_reason r
  | WaitDone None => t = true
  | _ => False
  end.

Record wait_inv (timed : list bool) (r : option ExitReason) (s : Completion) : Prop := {
  wi_lock i pc : pcs s !! i = Some pc → (cv_lock s = Some i ↔ wait_holds pc = true);
  wi_holder i : cv_lock s = Some i → is_Some (pcs s !! i);
  wi_length : length (pcs s) = S (length timed);
  wi_guard : guard_ok r s;
  wi_waiter i t pc : timed !! i = Some t → pcs s !! S i = Some pc → waiter_ok r t pc
}.

Ltac open_wait Hs :=
  let pc := fresh "pc" in let Hi := fresh "Hi" in
  unfold wait_step in Hs; apply bind_Some in Hs as (pc & Hi & Hs);
  repeat match goal with
  | H : match ?x with _ => _ end = Some _ |- _ => destruct x eqn:?; try discriminate H
  end; simplify_eq.

(** A step moves its thread; only the guard's [notify_all] moves others, and
    only sleeping ones. *)
Definition others_moved (i : nat) (s s' : Completion) : Prop :=
  ∀ j pc', j ≠ i → pcs s' !! j = Some pc' →
    ∃ pc, pcs s !! j = Some pc ∧
      (pc' = pc ∨ ∃ t, pc = WaitSleep t ∧ pc' = WaitLock t ∧ pcs s !! i = Some GuardNotify).

Lemma wait_step_others i wk s s' : wait_step i wk s = Some s' → others_moved i s s'.
Proof.
  intros Hs. open_wait Hs; intros j pc' Hne; simpl; try (case_match; simpl);
    rewrite list_lookup_insert_ne by done; try (intros ->; by eauto).
  rewrite list_lookup_fmap. intros (pc & Hj & ->)%fmap_Some. exists pc.
  split; [done|]. destruct pc; eauto 6.
Qed.

Lemma wait_step_lock i wk s s' :
  (∀ j pc, pcs s !! j = Some pc → (cv_lock s = Some j ↔ wait_holds pc = true)) →
  wait_step i wk s = Some s' →
  ∀ j pc, pcs s' !! j = Some pc → (cv_lock s' = Some j ↔ wait_holds pc = true).
Proof.
  intros Hl Hs j pc' Hj. pose proof (wait_step_others i wk s s' Hs j pc') as Ho.
  pose proof (Hl i) as Hli. destruct (decide (j = i)) as [->|Hne].
  - clear Ho. open_wait Hs; specialize (Hli _ Hi); simpl in *; try (case_match; simpl in * );
      rewrite list_lookup_insert_eq in Hj by (rewrite ?length_fmap; by eapply lookup_lt_Some);
      simplify_eq/=; naive_solver.
  - destruct (Ho Hne Hj) as (pc & Hpc & Hcase).
    assert (wait_holds pc' = wait_holds pc) as -> by (destruct Hcase as [->|(t & -> & -> & _)]; done).
    rewrite <- (Hl _ _ Hpc). clear Ho Hcase.
    open_wait Hs; specialize (Hli _ Hi); simpl in *; try (case_match; simpl in * ); naive_solver.
Qed.

(** The slot is written once, by the guard. *)
Lemma wait_step_slot i wk s s' :
  wait_step i wk s = Some s' →
  reason_slot s' = match pcs s !! i with
                   | Some (GuardSet r) => Some (guard_reason r)
                   | _ => reason_slot s
                   end.
Proof. intros Hs. open_wait Hs; simpl; rewrite ?Hi; try done; by case_match. Qed.

(** The moves of a single thread. *)
Definition pc_next (slot : option ExitReason) (pc pc' : WaitPc) : Prop :=
  match pc with
  | WaitLock t => pc' = WaitCheck t
  | WaitCheck t => pc' = match slot with Some r => WaitDone (Some r) | None => WaitSleep t end
  | WaitSleep t => pc' = WaitLock t ∨ (t = true ∧ pc' = WaitTimedOut)
  | WaitTimedOut => pc' = WaitDone None
  | GuardLock r => pc' = GuardSet r
  | GuardSet r => pc' = GuardNotify
  | GuardNotify => pc' = GuardDone
  | _ => False
  end.

Lemma wait_step_self i wk s s' :
  wait_step i wk s = Some s' →
  ∃ pc pc', pcs s !! i = Some pc ∧ pcs s' !! i = Some pc' ∧ pc_next (reason_slot s) pc pc'.
Proof.
  intros Hs. open_wait Hs; simpl; try case_match; simpl;
    eexists _, _; (split; [exact Hi|]);
    (split; [apply list_lookup_insert_eq; rewrite ?length_fmap; by eapply lookup_lt_Some|]);
    simpl; try match goal with H : reason_slot _ = _ |- _ => rewrite H end; auto.
Qed.

Lemma guard_ok_step timed r i wk s s' :
  wait_inv timed r s → wait_step i wk s = Some s' → guard_ok r s'.
Proof.
  intros Hinv Hs. pose proof (wi_guard _ _ _ Hinv) as Hg. unfold guard_ok in *.
  pose proof (wait_step_slot _ _ _ _ Hs) as Hslot. pose proof (wait_step_others _ _ _ _ Hs) as Ho.
  destruct (wait_step_self _ _ _ _ Hs) as (pc & pc' & Hi & Hi' & Hn). rewrite Hi in Hslot.
  destruct (decide (i = 0)) as [->|Hne].
  - rewrite Hi in Hg. rewrite Hi'. destruct pc; try done; simpl in Hn; subst pc'; try (rewrite Hslot);
      try (by destruct Hg; subst). split; [done|]. intros j t Hj.
    destruct (decide (j = 0)) as [->|Hj0]; [congruence|].
    destruct (pcs s !! j) as [p|] eqn:Hp.
    + clear Ho. unfold wait_step in Hs. rewrite Hi in Hs. simpl in Hs.
      destruct wk; simplify_eq. simpl in Hj. rewrite list_lookup_insert_ne in Hj by done.
      rewrite list_lookup_fmap, Hp in Hj. simpl in Hj. by destruct p.
    + destruct (Ho j _ Hj0 Hj) as (p & Hp' & _). congruence.
  - assert (∀ p, pcs s !! 0 = Some p → pcs s' !! 0 = Some p) as H0.
    { intros p Hp. assert (is_Some (pcs s' !! 0)) as [p' Hp'].
      { apply lookup_lt_is_Some. apply lookup_lt_Some in Hi'. lia. }
      destruct (Ho 0 p' ltac:(lia) Hp') as (p1 & Hp1 & [->|(t & -> & _)]); [congruence|].
      rewrite Hp1 in Hg. done. }
    destruct (pcs s !! 0) as [p|] eqn:Hp; [|done]. rewrite (H0 p eq_refl).
    assert (reason_slot s' = reason_slot s) as ->.
    { rewrite Hslot. destruct pc; try done. exfalso.
      destruct i as [|k]; [done|]. pose proof (lookup_lt_Some _ _ _ Hi) as Hlt.
      rewrite (wi_length _ _ _ Hinv) in Hlt.
      destruct (lookup_lt_is_Some_2 timed k ltac:(lia)) as [t Ht].
      exact (wi_waiter _ _ _ Hinv k t _ Ht Hi). }
    destruct p; try done. destruct Hg as [Hr Hsl]. split; [done|]. intros j t Hj.
    destruct (decide (j = i)) as [->|Hji].
    + rewrite Hi' in Hj. simplify_eq. destruct pc; simpl in Hn; try done; try (by destruct Hn as [?|[_ ?]]).
      rewrite Hr in Hn. congruence.
    + destruct (Ho j _ Hji Hj) as (q & Hq & [<-|(t' & _ & ? & _)]); [by apply (Hsl j t)|done].
Qed.

Lemma wait_inv_step timed r i wk s s' :
  wait_inv timed r s → wait_step i wk s = Some s' → wait_inv timed r s'.
Proof.
  intros Hinv Hs. pose proof (wait_step_others _ _ _ _ Hs) as Ho.
  destruct (wait_step_self _ _ _ _ Hs) as (pc & pc' & Hi & Hi' & Hn).
  assert (length (pcs s') = length (pcs s)) as Hlen.
  { open_wait Hs; simpl; try case_match; simpl; by rewrite ?length_insert, ?length_fmap. }
  split.
  - exact (wait_step_lock i wk s s' (wi_lock _ _ _ Hinv) Hs).
  - intros j Hj. apply lookup_lt_is_Some. rewrite Hlen. apply lookup_lt_is_Some.
    destruct (decide (j = i)) as [->|Hne]; [by eexists|].
    apply (wi_holder _ _ _ Hinv). clear -Hs Hj Hne. open_wait Hs; simpl in *; try case_match; naive_solver.
  - rewrite Hlen. apply Hinv.
  - exact (guard_ok_step timed r i wk s s' Hinv Hs).
  - intros k t p Ht Hp. destruct (decide (S k = i)) as [<-|Hne].
    + rewrite Hi' in Hp. simplify_eq. pose proof (wi_waiter _ _ _ Hinv k t _ Ht Hi) as Hw.
      destruct pc; simpl in Hn, Hw; try done; subst; try done.
      * destruct (reason_slot s) as [r'|] eqn:Hr; [simpl|done].
        pose proof (wi_guard _ _ _ Hinv) as Hg. unfold guard_ok in Hg. rewrite Hr in Hg.
        destruct (pcs s !! 0) as [[]|]; naive_solver.
      * destruct Hn as [->|[-> ->]]; done.
    + destruct (Ho _ _ Hne Hp) as (q & Hq & [->|(t' & -> & -> & _)]);
        exact (wi_waiter _ _ _ Hinv k t _ Ht Hq).
Qed.

Lemma wait_inv_reach timed r s : wait_reach timed r s → wait_inv timed r s.
Proof.
  induction 1 as [|s i wk s' _ IH Hs]; [|by eapply wait_inv_step].
  split; simpl; try done.
  - intros [|i] pc; simpl; [intros [= <-]; done|]. rewrite list_lookup_fmap.
    intros (t & _ & ->)%fmap_Some. done.
  - by rewrite length_fmap.
  - intros i t pc Ht. rewrite list_lookup_fmap, Ht. simpl. by intros [= <-].
Qed.

(** ** Termination *)

Definition weight (n : nat) (pc : WaitPc) : nat :=
  match pc with
  | WaitLock _ => 4 | WaitCheck _ => 3 | WaitSleep _ => 2 | WaitTimedOut => 1 | WaitDone _ => 0
  | GuardLock _ => 3 + 2 * n | GuardSet _ => 2 + 2 * n | GuardNotify => 1 + 2 * n | GuardDone => 0
  end.
Definition measure (s : Completion) : nat :=
  sum_list_with (weight (length (pcs s))) (pcs s).

Lemma weight_woken n l :
  sum_list_with (weight n) ((λ pc, match pc with WaitSleep t => WaitLock t | _ => pc end) <$> l) ≤
  sum_list_with (weight n) l + 2 * length l.
Proof. induction l as [|pc l IH]; csimpl; [done|]. destruct pc; simpl in *; lia. Qed.

Lemma measure_step i wk s s' :
  wk ≠ Spurious → wait_step i wk s = Some s' → measure s' < measure s.
Proof.
  intros Hwk Hs. assert (∀ (l : list WaitPc) pc pc' n, l !! i = Some pc → weight n pc' < weight n pc →
    sum_list_with (weight n) (<[i := pc']> l) < sum_list_with (weight n) l) as Hlt.
  { intros l pc pc' n Hl Hw. pose proof (sum_list_with_insert (weight n) l i pc pc' Hl). lia. }
  open_wait Hs; try done; unfold measure; simpl; try case_match; simpl;
    rewrite ?length_insert, ?length_fmap; try (eapply Hlt; [exact Hi|simpl; lia]).
  set (n := length (pcs s)). set (l := _ <$> pcs s).
  assert (l !! i = Some GuardNotify) as Hl by (unfold l; by rewrite list_lookup_fmap, Hi).
  pose proof (sum_list_with_insert (weight n) l i _ GuardDone Hl) as He. simpl in He.
  pose proof (weight_woken n (pcs s)) as Hw. fold l in Hw. fold n in Hw. lia.
Qed.

Fixpoint run_wait (sched : list (nat * Wake)) (s : Completion) : option Completion :=
  match sched with [] => Some s | (i, wk) :: sched => s' ← wait_step i wk s; run_wait sched s' end.

Lemma run_wait_reach timed r sched s s' :
  wait_reach timed r s → run_wait sched s = Some s' → wait_reach timed r s'.
Proof.
  revert s. induction sched as [|[i wk] sched IH]; intros s Hs; simpl; [by intros [= <-]|].
  intros (s1 & H1 & H2)%bind_Some. eapply IH; [|exact H2]. by eapply wait_reach_step.
Qed.

Lemma run_wait_measure sched s s' :
  Forall (λ e, e.2 ≠ Spurious) sched → run_wait sched s = Some s' →
  length sched + measure s' ≤ measure s.
Proof.
  revert s. induction sched as [|[i wk] sched IH]; intros s Hf; simpl; [intros [= <-]; lia|].
  apply Forall_cons in Hf as [Hwk Hf]. intros (s1 & H1 & H2)%bind_Some.
  pose proof (measure_step _ _ _ _ Hwk H1). pose proof (IH s1 Hf H2). lia.
Qed.

Lemma measure_waiting timed r : measure (waiting timed r) ≤ 6 * length timed + 5.
Proof.
  unfold measure, waiting. simpl. rewrite length_fmap, sum_list_with_fmap.
  assert (∀ n, sum_list_with (weight n ∘ WaitLock) timed = 4 * length timed) as ->.
  { intros n. induction timed; simpl in *; lia. }
  lia.
Qed.

(** While a thread has not finished, some thread can run. *)
Lemma wait_progress timed r s :
  wait_inv timed r s → (∀ i, wait_step i Run s = None) →
  pcs s !! 0 = Some GuardDone ∧ ∀ i pc, pcs s !! S i = Some pc → ∃ o, pc = WaitDone o.
Proof.
  intros Hinv Hstuck.
  assert (cv_lock s = None) as Hl.
  { destruct (cv_lock s) as [i|] eqn:Hl; [exfalso|done].
    destruct (wi_holder _ _ _ Hinv i Hl) as [pc Hi]. specialize (Hstuck i).
    apply (wi_lock _ _ _ Hinv i pc Hi) in Hl. unfold wait_step in Hstuck. rewrite Hi in Hstuck.
    simpl in Hstuck. by destruct pc. }
  assert (pcs s !! 0 = Some GuardDone) as H0.
  { pose proof (wi_guard _ _ _ Hinv) as Hg. unfold guard_ok in Hg. specialize (Hstuck 0).
    unfold wait_step in Hstuck. destruct (pcs s !! 0) as [pc|] eqn:Hp; [|done]. simpl in Hstuck.
    rewrite Hl in Hstuck. by destruct pc. }
  split; [done|]. intros i pc Hi. pose proof (wi_guard _ _ _ Hinv) as Hg. unfold guard_ok in Hg.
  rewrite H0 in Hg. destruct Hg as [_ Hns]. specialize (Hstuck (S i)). unfold wait_step in Hstuck.
  rewrite Hi in Hstuck. simpl in Hstuck. rewrite Hl in Hstuck.
  pose proof (lookup_lt_Some _ _ _ Hi) as Hlt. rewrite (wi_length _ _ _ Hinv) in Hlt.
  destruct (lookup_lt_is_Some_2 timed i ltac:(lia)) as [t Ht].
  pose proof (wi_waiter _ _ _ Hinv i t pc Ht Hi) as Hw.
  destruct pc; try done; [by destruct (Hns (S i) timed0)|eauto].
Qed.

(** C35: Nobody waits for an actor in vain. Let any number of threads wait for
    a threads-runtime actor, with or without timeout, while its guard
    publishes the exit reason, in any interleaving with any spurious
    wake-ups. A wait returns the published reason, or nothing if it has a
    timeout; and a run without spurious wake-ups ends within six steps per
    waiter and five for the guard, with all waits returned: no wake-up is
    lost. *)
Theorem wait_exit_total timed r sched s :
  run_wait sched (waiting timed r) = Some s →
  (∀ i t o, timed !! i = Some t → pcs s !! S i = Some (WaitDone o) →
     o = Some (guard_reason r) ∨ (t = true ∧ o = None)) ∧
  (Forall (λ e, e.2 ≠ Spurious) sched → length sched ≤ 6 * length timed + 5) ∧
  ((∀ i, wait_step i Run s = None) →
     reason_slot s = Some (guard_reason r) ∧
     ∀ i t, timed !! i = Some t → ∃ o, pcs s !! S i = Some (WaitDone o)).
Proof.
  intros Hrun. assert (wait_inv timed r s) as Hinv.
  { apply wait_inv_reach. by eapply run_wait_reach; [constructor|]. }
  split_and!.
  - intros i t o Ht Hi. pose proof (wi_waiter _ _ _ Hinv i t _ Ht Hi) as Hw.
    destruct o as [r'|]; simpl in Hw; [left; congruence|by right].
  - intros Hf. pose proof (run_wait_measure _ _ _ Hf Hrun). pose proof (measure_waiting timed r). lia.
  - intros Hstuck. destruct (wait_progress timed r s Hinv Hstuck) as [H0 Hall]. split.
    + pose proof (wi_guard _ _ _ Hinv) as Hg. unfold guard_ok in Hg. rewrite H0 in Hg. apply Hg.
    + intros i t Ht. pose proof (lookup_lt_Some _ _ _ Ht) as Hlt.
      destruct (lookup_lt_is_Some_2 (pcs s) (S i)) as [pc Hpc];
        [rewrite (wi_length _ _ _ Hinv); lia|].
      destruct (Hall i pc Hpc) as [o ->]. eauto.
Qed.

(** One waiter goes to sleep before the guard takes the lock. *)
Definition sleeping_schedule : list (nat * Wake) :=
  [(1, Run); (1, Run); (0, Run); (0, Run); (0, Run); (1, Run); (1, Run)].

Lemma wait_exit_total_witness :
  ∃ s, run_wait sleeping_schedule (waiting [false] (Some Shutdown)) = Some s ∧
    pcs s !! 1 = Some (WaitDone (Some Shutdown)) ∧ length sleeping_schedule ≤ 6 * 1 + 5.
Proof.
  eexists. split; [reflexivity|]. split; [reflexivity|].
  match goal with |- _ => pose proof (wait_exit_total [false] (Some Shutdown) sleeping_schedule _ eq_refl)
    as (_ & Hb & _) end.
  apply Hb. by repeat constructor.
Defined.

End Condvar.

(** ** Watch channel *)

Module Watch.

(** [watch::channel(None)]: the value, how often it was set, whether the
    sender is still there. *)
Record WatchChan := mkWatch { value : option ExitReason; version : nat; sender : bool }.
Definition watch_new : WatchChan := mkWatch None 0 true.

(** What the task of the actor does: [completion_tx.send(Some(reason))], and
    then drop the sender; a task that is aborted only drops it. *)
Definition watch_send (r : ExitReason) (c : WatchChan) : WatchChan := mkWatch (Some r) (S (version c)) (sender c).
Definition drop_sender (c : WatchChan) : WatchChan := mkWatch (value c) (version c) false.

Inductive LoopPc := LoopBorrow | LoopChanged (seen : nat) | LoopDone (r : ExitReason).

(** [wait_loop]: borrow and mark as seen, then wait for a change. [None] when
    [changed()] is pending. *)
Definition wait_loop_step (pc : LoopPc) (c : WatchChan) : option LoopPc :=
  match pc with
  | LoopBorrow =>
      Some (match value c with Some r => LoopDone r | None => LoopChanged (version c) end)
  | LoopChanged seen =>
      if bool_decide (seen ≠ version c) then Some LoopBorrow
      else if sender c then None else Some (LoopDone Kill)
  | LoopDone _ => None
  end.

(** Polling until it is pending or done; three polls are enough. *)
Fixpoint wait_loop (fuel : nat) (pc : LoopPc) (c : WatchChan) : LoopPc :=
  match fuel with
  | 0 => pc
  | S fuel => match wait_loop_step pc c with Some pc' => wait_loop fuel pc' c | None => pc end
  end.

(** The states of a channel of [spawn]: empty, with the reason, and without
    sender; a waiter has seen at most what was sent. *)
Definition watch_ok (c : WatchChan) : Prop :=
  match value c with None => version c = 0 | Some _ => version c = 1 end.
Definition pc_ok (pc : LoopPc) (c : WatchChan) : Prop :=
  match pc with
  | LoopBorrow => True
  | LoopChanged seen => seen = 0
  | LoopDone r => value c = Some r ∨ (value c = None ∧ sender c = false ∧ r = Kill)
  end.

Lemma wait_loop_step_ok pc c pc' :
  watch_ok c → pc_ok pc c → wait_loop_step pc c = Some pc' → pc_ok pc' c.
Proof.
  unfold watch_ok. intros Hok Hpc. destruct pc as [|seen|r]; simpl in *; [| |done].
  - intros [= <-]. destruct (value c) eqn:Hv; simpl; [by left|done].
  - case_bool_decide; [by intros [= <-]|]. destruct (sender c) eqn:Hs; [done|]. intros [= <-].
    subst seen. destruct (value c) eqn:Hv; simpl; [congruence|]. rewrite Hv, Hs. auto.
Qed.

(** [wait_loop] returns exactly when there is something to return: the reason
    that was sent, or [Kill] if the sender went away without one. *)
Theorem wait_loop_exact pc c fuel :
  watch_ok c → pc_ok pc c → 3 ≤ fuel →
  match value c with
  | Some r => wait_loop fuel pc c = LoopDone r
  | None => if sender c then ∀ r, wait_loop fuel pc c ≠ LoopDone r
            else wait_loop fuel pc c = LoopDone Kill
  end.
Proof.
  unfold watch_ok. intros Hok Hpc Hf. destruct fuel as [|[|[|fuel]]]; [lia..|]. clear Hf.
  assert (∀ n r, wait_loop n (LoopDone r) c = LoopDone r) as Hdone by (by intros []).
  assert (∀ n, sender c = true → version c = 0 → wait_loop n (LoopChanged 0) c = LoopChanged 0)
    as Hwait.
  { intros [|n] Hs Hv; simpl; [done|]. rewrite Hv, Hs. done. }
  destruct c as [[r|] v sd]; simpl in *; subst v; destruct pc as [|seen|r']; simpl in *;
    try (destruct sd); subst; rewrite ?Hdone; try done; try naive_solver.
Qed.

End Watch.

(** ** [ChildHandle::wait_exit_blocking] on a tasks handle *)

Inductive RuntimeFlavor := NoRuntime | MultiThread | OtherFlavor.

(** A wait from a thread inside another runtime flavour would block the only
    thread that could run the actor: the call panics, unless the reason is
    there already. *)
Inductive BlockingWait := WaitReturns (r : ExitReason) | WaitBlocks | WaitPanics.

Definition wait_for_tasks_exit_blocking (flavor : RuntimeFlavor) (c : Watch.WatchChan) : BlockingWait :=
  match Watch.value c with
  | Some r => WaitReturns r
  | None =>
      match flavor with
      | NoRuntime | MultiThread =>
          match Watch.wait_loop 3 Watch.LoopBorrow c with
          | Watch.LoopDone r => WaitReturns r
          | _ => WaitBlocks
          end
      | OtherFlavor => WaitPanics
      end
  end.
