(* ===== verification/TimedWaits.v ===== *)
(** * Waits for an exit, in time

    The methods of [ChildHandle] that wait ([concurrency/src/child_handle.rs])
    and [shutdown_child_blocking], [shutdown_child_async] of
    [concurrency/src/child_spec.rs], with a clock. [Waits] has the threads
    that wait interleaved and no times; here an actor ends at a time, and a
    wait has a result and the time at which it returns. The time that code
    takes to run, and the scheduler to run it, is not counted. What is up to
    the environment are arguments: the spurious wake-ups of a condition
    variable, and which comes first of an exit and a time-out that fall on
    the same instant. *)

From S2P Require Import Prelude Errors Mailbox ChildSpec Waits.

Local Open Scope Z_scope.

(** An actor publishes a reason at a time, or goes away without one: in the
    tasks runtime a task that is aborted drops the sender of the watch
    channel, in the threads runtime the guard publishes in its place. *)
Inductive Ending := NeverEnds | EndsAt (t : Instant) (r : option ExitReason).

Inductive Waited (A : Type) := WaitedUntil (v : A) (t : Instant) | WaitsForever | WaitPanicked (t : Instant).
Arguments WaitedUntil {A} v t.
Arguments WaitsForever {A}.
Arguments WaitPanicked {A} t.

(** The reason that a wait returns. *)
Definition final_reason (k : MailboxRuntime) (r : option ExitReason) : ExitReason :=
  match k with Tasks => default Kill r | Threads => Condvar.guard_reason r end.

(** [ChildHandle::exit_reason] *)
Definition exit_reason_at (k : MailboxRuntime) (e : Ending) (now : Instant) : option ExitReason :=
  match e with
  | EndsAt t r =>
      if decide (t ≤ now) then match k with Tasks => r | Threads => Some (Condvar.guard_reason r) end else None
  | NeverEnds => None
  end.
Definition is_alive_at k e now : bool := match exit_reason_at k e now with Some _ => false | None => true end.

(** The watch channel of a tasks actor at a time: the ending actor sends its
    reason, if it has one, and the sender is dropped. *)
Definition chan_at (e : Ending) (t : Instant) : Watch.WatchChan :=
  match e with
  | EndsAt te o =>
      if decide (te ≤ t) then
        Watch.drop_sender (match o with Some r => Watch.watch_send r Watch.watch_new | None => Watch.watch_new end)
      else Watch.watch_new
  | NeverEnds => Watch.watch_new
  end.

(** The future [wait_loop] awaited from [now]: it is polled at once, and, if it
    is pending, polled again from where it stands when the channel changes. *)
Definition await_loop (e : Ending) (now : Instant) : Waited ExitReason :=
  match Watch.wait_loop 3 Watch.LoopBorrow (chan_at e now) with
  | Watch.LoopDone x => WaitedUntil x now
  | pc =>
      match e with
      | EndsAt te _ =>
          match Watch.wait_loop 3 pc (chan_at e (Z.max now te)) with
          | Watch.LoopDone x => WaitedUntil x (Z.max now te)
          | _ => WaitsForever
          end
      | NeverEnds => WaitsForever
      end
  end.

(** [wait_for_threads_exit_blocking], at the head of its loop at time [now]:
    the thread sleeps in [cvar.wait] until the exit is notified or until it
    wakes up spuriously, at one of the times [wakes], and looks again. *)
Fixpoint condvar_wait (wakes : list Instant) (e : Ending) (now : Instant) : Waited ExitReason :=
  match exit_reason_at Threads e now with
  | Some r => WaitedUntil r now
  | None =>
      match wakes, e with
      | w :: wakes, EndsAt te _ => condvar_wait wakes e (Z.min (Z.max now w) te)
      | w :: wakes, NeverEnds => condvar_wait wakes e (Z.max now w)
      | [], EndsAt te _ =>
          match exit_reason_at Threads e te with Some r => WaitedUntil r te | None => WaitsForever end
      | [], NeverEnds => WaitsForever
      end
  end.

(** A wait that blocks the thread of a tokio runtime, by its flavour. *)
Definition block_in {A} (fl : RuntimeFlavor) (now : Instant) (w : Waited A) : Waited A :=
  match fl with NoRuntime | MultiThread => w | OtherFlavor => WaitPanicked now end.

(** [tokio::time::timeout]: the future is polled before the timer. [tie]: the
    future is ready first when both are at the same time. *)
Definition timeout_of {A} (tie : bool) (d : Duration) (now : Instant) (w : Waited A) : Waited (option A) :=
  match w with
  | WaitedUntil v t =>
      if decide (t ≤ now ∨ t < now + d ∨ (t = now + d ∧ tie = true)) then WaitedUntil (Some v) t
      else WaitedUntil None (now + d)
  | WaitsForever => WaitedUntil None (now + d)
  | WaitPanicked t => WaitPanicked t
  end.

(** An exit that wakes a thread which waits until [until], at most to its
    [deadline]. *)
Definition notified (tie : bool) (deadline until : Instant) (e : Ending) : option (Instant * ExitReason) :=
  match e with
  | EndsAt te r =>
      if decide (te ≤ until ∧ (te < deadline ∨ (te = deadline ∧ tie = true)))
      then Some (te, Condvar.guard_reason r) else None
  | NeverEnds => None
  end.

(** [wait_for_threads_exit_blocking_with_timeout], at the head of its loop at
    time [now]; [wakes] are the times of its spurious wake-ups. *)
Fixpoint condvar_timed (tie : bool) (d : Duration) (wakes : list Instant) (e : Ending) (now : Instant)
    : Waited (option ExitReason) :=
  match exit_reason_at Threads e now with
  | Some r => WaitedUntil (Some r) now
  | None =>
      let until := match wakes with w :: _ => Z.min (Z.max now w) (now + d) | [] => now + d end in
      match notified tie (now + d) until e with
      | Some (te, r) => WaitedUntil (Some r) te
      | None =>
          match wakes with
          | w :: wakes =>
              if decide (Z.max now w < now + d) then condvar_timed tie d wakes e (Z.max now w)
              else WaitedUntil None (now + d)
          | [] => WaitedUntil None (now + d)
          end
      end
  end.

Section handle.
(** The handle, where the caller runs, and what is up to the environment. *)
Context (k : MailboxRuntime) (fl : RuntimeFlavor) (tie : bool) (wakes : list Instant).
Implicit Types (e : Ending) (now : Instant) (d : Duration).

Definition wait_exit_blocking e now : Waited ExitReason :=
  match k with
  | Tasks =>
      match exit_reason_at Tasks e now with
      | Some r => WaitedUntil r now
      | None => block_in fl now (await_loop e now)
      end
  | Threads => condvar_wait wakes e now
  end.
Definition wait_exit_async e now : Waited ExitReason :=
  match k with
  | Tasks => await_loop e now
  | Threads => condvar_wait wakes e now
  end.
Definition wait_exit_blocking_with_timeout d e now : Waited (option ExitReason) :=
  match exit_reason_at k e now with
  | Some r => WaitedUntil (Some r) now
  | None =>
      match k with
      | Tasks => block_in fl now (timeout_of tie d now (await_loop e now))
      | Threads => condvar_timed tie d wakes e now
      end
  end.
Definition wait_exit_async_with_timeout d e now : Waited (option ExitReason) :=
  match exit_reason_at k e now with
  | Some r => WaitedUntil (Some r) now
  | None =>
      match k with
      | Tasks => timeout_of tie d now (await_loop e now)
      | Threads =>
          match timeout_of tie d now (condvar_timed tie d wakes e now) with
          | WaitedUntil (Some r) t => WaitedUntil r t
          | WaitedUntil None t => WaitedUntil None t
          | WaitsForever => WaitsForever
          | WaitPanicked t => WaitPanicked t
          end
      end
  end.
End handle.

(** ** Shutting a child down *)

(** What has been asked of a child and when, and how it then ends. *)
Inductive Asked := AskShutdown | AskKill.
Abbreviation Requests := (list (Asked * Instant)) (only parsing).

Section shutdown.
Context (k : MailboxRuntime) (fl : RuntimeFlavor) (tie : bool) (wakes : list Instant).
Context (react : Requests → Ending).

(** The result, and what the child was asked. [wait], [timed]: the waits of
    the blocking or of the asynchronous variant. *)
Definition shutdown_with (wait : Ending → Instant → Waited ExitReason)
    (timed : Duration → Ending → Instant → Waited (option ExitReason)) (sd : ShutdownType) (now : Instant)
    : Waited ExitReason * Requests :=
  match exit_reason_at k (react []) now with
  | Some r => (WaitedUntil r now, [])
  | None =>
      match sd with
      | BrutalKill => let q := [(AskKill, now)] in (wait (react q) now, q)
      | Infinity => let q := [(AskShutdown, now)] in (wait (react q) now, q)
      | Timeout d =>
          let q := [(AskShutdown, now)] in
          match timed d (react q) now with
          | WaitedUntil (Some r) t => (WaitedUntil r t, q)
          | WaitedUntil None t => let q := q ++ [(AskKill, t)] in (wait (react q) t, q)
          | WaitsForever => (WaitsForever, q)
          | WaitPanicked t => (WaitPanicked t, q)
          end
      end
  end.
Definition shutdown_child_blocking : ShutdownType → Instant → Waited ExitReason * Requests :=
  shutdown_with (wait_exit_blocking k fl wakes) (wait_exit_blocking_with_timeout k fl tie wakes).
Definition shutdown_child_async : ShutdownType → Instant → Waited ExitReason * Requests :=
  shutdown_with (wait_exit_async k wakes) (wait_exit_async_with_timeout k tie wakes).
End shutdown.

(** ** What a wait returns, and when *)

Lemma ended_at k e now r : exit_reason_at k e now = Some r → ∃ te o, e = EndsAt te o ∧ te ≤ now ∧ r = final_reason k o.
Proof.
  unfold exit_reason_at. destruct e as [|te o]; [done|]. case_decide; [|done]. intros Hr. exists te, o.
  destruct k; simplify_eq/=; [by subst|done].
Qed.
Lemma not_ended_threads te o now : exit_reason_at Threads (EndsAt te o) now = None → now < te.
Proof. unfold exit_reason_at. case_decide; [done|lia]. Qed.

(** What a wait without time-out should return: the final reason, when it is
    there. Both loops do. *)
Definition wait_end (k : MailboxRuntime) (e : Ending) (now : Instant) : Waited ExitReason :=
  match e with EndsAt t r => WaitedUntil (final_reason k r) (Z.max now t) | NeverEnds => WaitsForever end.

Lemma await_loop_end e now : await_loop e now = wait_end Tasks e now.
Proof.
  unfold await_loop, wait_end, chan_at. destruct e as [|te o]; [done|].
  destruct (decide (te ≤ now)).
  - rewrite Z.max_l by lia. by destruct o.
  - rewrite Z.max_r, decide_True by lia. by destruct o.
Qed.

Lemma condvar_wait_end wakes e now : condvar_wait wakes e now = wait_end Threads e now.
Proof.
  unfold wait_end. revert now. induction wakes as [|w wakes IH]; intros now; cbn [condvar_wait];
    (destruct (exit_reason_at Threads e now) as [r|] eqn:He;
     [apply ended_at in He as (te & o & -> & Hle & ->); by rewrite Z.max_l|]);
    (destruct e as [|te o]; [|apply not_ended_threads in He]).
  - done.
  - unfold exit_reason_at. by rewrite decide_True, Z.max_r by lia.
  - apply IH.
  - rewrite IH. f_equal. lia.
Qed.

(** An exit in time is reported, whatever wakes the thread before it. *)
Lemma condvar_in_time tie d wakes te r now :
  0 ≤ d → te < now + d →
  condvar_timed tie d wakes (EndsAt te r) now = WaitedUntil (Some (Condvar.guard_reason r)) (Z.max now te).
Proof.
  intros Hd. revert now. induction wakes as [|w wakes IH]; intros now Hte; cbn [condvar_timed];
    (destruct (exit_reason_at Threads (EndsAt te r) now) as [r'|] eqn:He;
     [apply ended_at in He as (te' & o & [= <- <-] & Hle & ->); by rewrite Z.max_l|apply not_ended_threads in He]);
    unfold notified.
  - rewrite decide_True by lia. by rewrite Z.max_r by lia.
  - case_decide as Hn; [by rewrite Z.max_r by lia|]. rewrite decide_True by lia. rewrite IH by lia. f_equal. lia.
Qed.

(** The wait ends, at the latest after one time-out per wake-up and one more;
    and it gives up only if the exit was not in time. *)
Lemma condvar_bound tie d wakes e now :
  0 ≤ d → ∃ v t, condvar_timed tie d wakes e now = WaitedUntil v t ∧ now ≤ t ≤ now + d * (1 + Z.of_nat (length wakes)).
Proof.
  intros Hd. revert now. induction wakes as [|w wakes IH]; intros now; cbn [condvar_timed];
    (destruct (exit_reason_at Threads e now) as [r|] eqn:He; [eexists _, _; split; [done|nia]|]).
  - destruct (notified tie (now + d) (now + d) e) as [[te r]|] eqn:Hn; [|eexists _, _; split; [done|lia]].
    unfold notified in Hn. destruct e as [|te' o]; [done|]. apply not_ended_threads in He. case_decide; simplify_eq.
    eexists _, _. split; [done|simpl; lia].
  - cbn [length]. set (until := Z.min _ _). destruct (notified tie (now + d) until e) as [[te r]|] eqn:Hn.
    + unfold notified in Hn. destruct e as [|te' o]; [done|]. apply not_ended_threads in He. case_decide; simplify_eq.
      eexists _, _. split; [done|]. nia.
    + case_decide; [|eexists _, _; split; [done|nia]].
      destruct (IH (Z.max now w)) as (v & t & -> & Ht). eexists _, _. split; [done|]. nia.
Qed.

Lemma condvar_seen tie d wakes e now x t :
  condvar_timed tie d wakes e now = WaitedUntil (Some x) t →
  ∃ te o, e = EndsAt te o ∧ x = final_reason Threads o ∧ te ≤ t.
Proof.
  revert now. induction wakes as [|w wakes IH]; intros now; cbn [condvar_timed];
    (destruct (exit_reason_at Threads e now) as [r|] eqn:He;
     [apply ended_at in He as (te & o & -> & Hle & ->); intros [= <- <-]; by exists te, o|]);
    unfold notified; destruct e as [|te o]; try (case_decide; [intros [= <- <-]; by exists te, o|]); try done.
  - case_decide; [apply IH|done].
  - case_decide; [apply IH|done].
Qed.

Lemma condvar_late tie d wakes e now :
  0 ≤ d → (∀ te r, e = EndsAt te r → now + d * (1 + Z.of_nat (length wakes)) < te) →
  ∃ t, condvar_timed tie d wakes e now = WaitedUntil None t ∧ now + d ≤ t.
Proof.
  intros Hd. revert now. induction wakes as [|w wakes IH]; intros now Hte; cbn [condvar_timed];
    assert (exit_reason_at Threads e now = None) as -> by
      (unfold exit_reason_at; destruct e as [|te r]; [done|]; specialize (Hte te r eq_refl); case_decide; [nia|done]);
    (assert (∀ u, u ≤ now + d → notified tie (now + d) u e = None) as Hn by
      (intros u Hu; unfold notified; destruct e as [|te r]; [done|]; specialize (Hte te r eq_refl);
       rewrite decide_False; [done|]; simpl length in Hte; nia)).
  - rewrite Hn by lia. eexists. split; [done|lia].
  - rewrite Hn by lia. case_decide; [|eexists; split; [done|lia]].
    destruct (IH (Z.max now w)) as (t & -> & Ht); [|eexists; split; [done|lia]].
    intros te r He. specialize (Hte te r He). cbn [length] in Hte. nia.
Qed.

(** The caller may block here. *)
Definition may_block (k : MailboxRuntime) (fl : RuntimeFlavor) : Prop := k = Threads ∨ fl ≠ OtherFlavor.

Lemma block_ok {A} k fl now (w : Waited A) : may_block k fl → k = Tasks → block_in fl now w = w.
Proof. intros [->|Hf] Hk; [done|]. by destruct fl. Qed.

Lemma wait_spec k fl wakes e now :
  may_block k fl →
  wait_exit_blocking k fl wakes e now = wait_end k e now ∧ wait_exit_async k wakes e now = wait_end k e now.
Proof.
  intros Hb. split; [|destruct k; [apply await_loop_end|apply condvar_wait_end]].
  unfold wait_exit_blocking. destruct k; [|apply condvar_wait_end].
  destruct (exit_reason_at Tasks e now) as [r|] eqn:He; [|rewrite (block_ok Tasks) by done; apply await_loop_end].
  apply ended_at in He as (te & o & -> & Hle & ->). simpl. by rewrite Z.max_l.
Qed.

(** The variants with a time-out, one by one. *)
Section timed.
Context (k : MailboxRuntime) (fl : RuntimeFlavor) (tie : bool) (wakes : list Instant) (d : Duration).
Hypotheses (Hb : may_block k fl) (Hd : 0 ≤ d).
Implicit Types (now te : Instant) (r : option ExitReason) (e : Ending).

Lemma in_time now te r :
  te < now + d →
  wait_exit_blocking_with_timeout k fl tie wakes d (EndsAt te r) now =
    WaitedUntil (Some (final_reason k r)) (Z.max now te) ∧
  wait_exit_async_with_timeout k tie wakes d (EndsAt te r) now =
    WaitedUntil (Some (final_reason k r)) (Z.max now te).
Proof.
  intros Hte. unfold wait_exit_blocking_with_timeout, wait_exit_async_with_timeout.
  destruct (exit_reason_at k (EndsAt te r) now) as [r'|] eqn:He.
  { apply ended_at in He as (te' & o & [= <- <-] & Hle & ->). by rewrite Z.max_l. }
  destruct k.
  - rewrite (block_ok Tasks) by done. rewrite await_loop_end; unfold wait_end, timeout_of. rewrite decide_True by lia. done.
  - rewrite condvar_in_time by done. unfold timeout_of. rewrite decide_True by lia. done.
Qed.

Lemma blocking_bound e now :
  ∃ v t, wait_exit_blocking_with_timeout k fl tie wakes d e now = WaitedUntil v t ∧
    now ≤ t ≤ now + d * (1 + Z.of_nat (length wakes)).
Proof.
  unfold wait_exit_blocking_with_timeout.
  destruct (exit_reason_at k e now) as [r|] eqn:He; [eexists _, _; split; [done|nia]|].
  destruct k; [|by apply condvar_bound]. rewrite (block_ok Tasks) by done. rewrite await_loop_end; unfold wait_end, timeout_of.
  destruct e as [|te r]; [eexists _, _; split; [done|nia]|]. case_decide; eexists _, _; (split; [done|nia]).
Qed.

Lemma async_bound e now :
  ∃ v t, wait_exit_async_with_timeout k tie wakes d e now = WaitedUntil v t ∧ now ≤ t ≤ now + d.
Proof.
  unfold wait_exit_async_with_timeout.
  destruct (exit_reason_at k e now) as [r|] eqn:He; [eexists _, _; split; [done|lia]|].
  destruct k.
  - rewrite await_loop_end; unfold wait_end, timeout_of. destruct e as [|te r]; [eexists _, _; split; [done|lia]|].
    case_decide; eexists _, _; (split; [done|lia]).
  - destruct (condvar_bound tie d wakes e now Hd) as (v & t & -> & Ht). unfold timeout_of.
    case_decide; eexists _, _; (split; [done|lia]).
Qed.

(** What is returned is the reason of the actor. *)
Lemma reason_seen e now t x :
  wait_exit_blocking_with_timeout k fl tie wakes d e now = WaitedUntil (Some x) t ∨
  wait_exit_async_with_timeout k tie wakes d e now = WaitedUntil (Some x) t →
  ∃ te o, e = EndsAt te o ∧ x = final_reason k o ∧ te ≤ t.
Proof.
  unfold wait_exit_blocking_with_timeout, wait_exit_async_with_timeout.
  destruct (exit_reason_at k e now) as [r'|] eqn:He.
  { apply ended_at in He as (te & o & -> & Hle & ->). intros [[= <- <-]|[= <- <-]]; by exists te, o. }
  destruct k.
  - rewrite (block_ok Tasks) by done. rewrite await_loop_end; unfold timeout_of, wait_end. destruct e as [|te o]; [by intros []|].
    case_decide; [|by intros []]. intros [[= <- <-]|[= <- <-]]; exists te, o; (split_and!; [done|done|lia]).
  - intros [Hx|Hx]; [by apply condvar_seen in Hx|].
    destruct (condvar_timed tie d wakes e now) as [v u| |] eqn:Hc; simpl in Hx; [|done..].
    case_decide; [|done]. simplify_eq. by apply condvar_seen in Hc.
Qed.

(** Giving up means that the exit was not in time. *)
Lemma gave_up e now t :
  wait_exit_blocking_with_timeout k fl tie wakes d e now = WaitedUntil None t ∨
  wait_exit_async_with_timeout k tie wakes d e now = WaitedUntil None t →
  ∀ te r, e = EndsAt te r → now + d ≤ te.
Proof.
  intros Hw te r ->. destruct (decide (te < now + d)) as [Hlt|]; [|lia].
  destruct (in_time now te r Hlt) as [Hx Hy]. rewrite Hx, Hy in Hw. by destruct Hw.
Qed.

Lemma waits_timed e now :
  (∃ v t, wait_exit_blocking_with_timeout k fl tie wakes d e now = WaitedUntil v t ∧
     now ≤ t ≤ now + d * (1 + Z.of_nat (length wakes)) ∧
     (∀ x, v = Some x → ∃ te o, e = EndsAt te o ∧ x = final_reason k o ∧ te ≤ t) ∧
     (v = None → ∀ te o, e = EndsAt te o → now + d ≤ te)) ∧
  (∃ v t, wait_exit_async_with_timeout k tie wakes d e now = WaitedUntil v t ∧ now ≤ t ≤ now + d ∧
     (∀ x, v = Some x → ∃ te o, e = EndsAt te o ∧ x = final_reason k o ∧ te ≤ t) ∧
     (v = None → ∀ te o, e = EndsAt te o → now + d ≤ te)).
Proof.
  destruct (blocking_bound e now) as (v & t & Hv & Ht). destruct (async_bound e now) as (v' & t' & Hv' & Ht').
  split; eexists _, _; (split; [done|]); (split; [done|]); split.
  - intros x ->. apply (reason_seen e now). by left.
  - intros ->. apply (gave_up e now t). by left.
  - intros x ->. apply (reason_seen e now). by right.
  - intros ->. apply (gave_up e now t'). by right.
Qed.
End timed.

(** C37: The waits of [ChildHandle] for an exit, on handles of both runtimes.
    Where the caller may block (anywhere but on a tokio runtime that is not
    multi-threaded, for a tasks handle), a wait without time-out returns the
    reason of the actor as soon as there is one, whatever wakes it before, and
    waits for ever if there never is. With a time-out an exit before the
    deadline is always reported, with its reason and when it happens; a wait
    gives up only if there was none; and it returns by the deadline if it is
    asynchronous, and if it is blocking by the time-out times one more than the
    spurious wake-ups. Where the caller may not block, the blocking waits
    return a reason that is already there and panic otherwise. *)
Theorem waits_exact k fl tie wakes d e now :
  may_block k fl → 0 ≤ d →
  (match e with
   | EndsAt te r =>
       wait_exit_blocking k fl wakes e now = WaitedUntil (final_reason k r) (Z.max now te) ∧
       wait_exit_async k wakes e now = WaitedUntil (final_reason k r) (Z.max now te)
   | NeverEnds =>
       wait_exit_blocking k fl wakes e now = WaitsForever ∧ wait_exit_async k wakes e now = WaitsForever
   end) ∧
  (match exit_reason_at Tasks e now with
   | Some r =>
       wait_exit_blocking Tasks OtherFlavor wakes e now = WaitedUntil r now ∧
       wait_exit_blocking_with_timeout Tasks OtherFlavor tie wakes d e now = WaitedUntil (Some r) now
   | None =>
       wait_exit_blocking Tasks OtherFlavor wakes e now = WaitPanicked now ∧
       wait_exit_blocking_with_timeout Tasks OtherFlavor tie wakes d e now = WaitPanicked now
   end) ∧
  ∃ v t v' t',
    wait_exit_blocking_with_timeout k fl tie wakes d e now = WaitedUntil v t ∧
    now ≤ t ≤ now + d * (1 + Z.of_nat (length wakes)) ∧
    wait_exit_async_with_timeout k tie wakes d e now = WaitedUntil v' t' ∧ now ≤ t' ≤ now + d ∧
    (∀ te r, e = EndsAt te r → te < now + d →
       v = Some (final_reason k r) ∧ v' = Some (final_reason k r) ∧ t = Z.max now te ∧ t' = Z.max now te) ∧
    (v = None ∨ v' = None → ∀ te r, e = EndsAt te r → now + d ≤ te).
Proof.
  intros Hb Hd. split; [destruct (wait_spec k fl wakes e now Hb) as [-> ->]; by destruct e|].
  split.
  { unfold wait_exit_blocking, wait_exit_blocking_with_timeout. by destruct (exit_reason_at Tasks e now). }
  destruct (blocking_bound k fl tie wakes d Hb Hd e now) as (v & t & Hv & Ht).
  destruct (async_bound k fl tie wakes d Hb Hd e now) as (v' & t' & Hv' & Ht').
  exists v, t, v', t'. split_and!; try done; try lia.
  - intros te r -> Hte. destruct (in_time k fl tie wakes d Hb Hd now te r Hte) as [Hx Hy]. simplify_eq.
    by split_and!; congruence.
  - intros [->| ->]; [by apply (gave_up k fl tie wakes d Hb Hd e now t); left|].
    by apply (gave_up k fl tie wakes d Hb Hd e now t'); right.
Qed.

(** ** Shutting down in bounded time *)

Section bounded.
Context (k : MailboxRuntime) (fl : RuntimeFlavor) (tie : bool) (wakes : list Instant) (d g : Duration).
Context (react : Requests → Ending).
(** A killed child ends within [g]. *)
Hypothesis killed : ∀ q t, ∃ te r, react (q ++ [(AskKill, t)]) = EndsAt te r ∧ te ≤ t + g.

(** Both variants, given waits that keep the promises above. *)
Lemma shutdown_with_bounded wait timed bound now :
  0 ≤ d → 0 ≤ g → d ≤ bound → (∀ e now, wait e now = wait_end k e now) →
  (∀ e now, ∃ v t, timed d e now = WaitedUntil v t ∧ now ≤ t ≤ now + bound ∧
     (∀ r, v = Some r → ∃ te o, e = EndsAt te o ∧ r = final_reason k o ∧ te ≤ t) ∧
     (v = None → ∀ te o, e = EndsAt te o → now + d ≤ te)) →
  let '(res, q) := shutdown_with k react wait timed (Timeout d) now in
  ∃ te o t, react q = EndsAt te o ∧ res = WaitedUntil (final_reason k o) t ∧ te ≤ t ∧ now ≤ t ≤ now + bound + g ∧
    (∀ t', (AskKill, t') ∈ q → ∀ te' o', react [(AskShutdown, now)] = EndsAt te' o' → now + d ≤ te').
Proof.
  intros Hd Hg Hbd Hw Ht. unfold shutdown_with.
  destruct (exit_reason_at k (react []) now) as [r|] eqn:He.
  { apply ended_at in He as (te & o & He & Hle & ->). exists te, o, now.
    split_and!; [done|done|done|lia|lia|by intros t' []%elem_of_nil]. }
  destruct (Ht (react [(AskShutdown, now)]) now) as ([r|] & t & -> & Hb & Hs & Hn).
  - destruct (Hs r eq_refl) as (te & o & He1 & -> & Hle). exists te, o, t. split_and!; try done; try lia.
    intros t' [Hx|[]%elem_of_nil]%elem_of_cons. discriminate.
  - destruct (killed [(AskShutdown, now)] t) as (te & o & Hk & Hte). rewrite Hw, Hk.
    exists te, o, (Z.max t te). split_and!; try done; try lia. intros _ _ te' o'. by apply Hn.
Qed.
End bounded.

(** A child asked to shut down with a time-out is gone when
    [shutdown_child_blocking] and [shutdown_child_async] return, which report
    its reason; they return within the time-out, times one more than the
    spurious wake-ups for the blocking one, and the time a killed child takes
    to end; and it was killed only if it had not ended in time. *)
Theorem shutdown_child_bounded k fl tie wakes d g react now :
  may_block k fl → 0 ≤ d → 0 ≤ g →
  (∀ q t, ∃ te r, react (q ++ [(AskKill, t)]) = EndsAt te r ∧ te ≤ t + g) →
  ∀ res q bound,
    (res, q, bound) ∈ [(shutdown_child_blocking k fl tie wakes react (Timeout d) now,
                          d * (1 + Z.of_nat (length wakes)));
                       (shutdown_child_async k tie wakes react (Timeout d) now, d)] →
  ∃ te o t, react q = EndsAt te o ∧ res = WaitedUntil (final_reason k o) t ∧ te ≤ t ∧ now ≤ t ≤ now + bound + g ∧
    (∀ t', (AskKill, t') ∈ q → ∀ te' o', react [(AskShutdown, now)] = EndsAt te' o' → now + d ≤ te').
Proof.
  intros Hb Hd Hg Hkill res q bound Hin.
  apply elem_of_cons in Hin as [Hin|[Hin|[]%elem_of_nil]%elem_of_cons].
  - pose proof (shutdown_with_bounded k d g react Hkill (wait_exit_blocking k fl wakes)
      (wait_exit_blocking_with_timeout k fl tie wakes) (d * (1 + Z.of_nat (length wakes))) now) as Hx.
    unfold shutdown_child_blocking in Hin. destruct (shutdown_with _ _ _ _ _ _) as [res' q'] eqn:Hs. simplify_eq.
    apply Hx; [done|done|nia|by intros; apply wait_spec|]. intros e n.
    destruct (waits_timed k fl tie wakes d Hb Hd e n) as [Hbl _]. exact Hbl.
  - pose proof (shutdown_with_bounded k d g react Hkill (wait_exit_async k wakes)
      (wait_exit_async_with_timeout k tie wakes) d now) as Hx.
    unfold shutdown_child_async in Hin. destruct (shutdown_with _ _ _ _ _ _) as [res' q'] eqn:Hs. simplify_eq.
    apply Hx; [done|done|lia|by intros; apply (wait_spec k fl)|]. intros e n.
    destruct (waits_timed k fl tie wakes d Hb Hd e n) as [_ Has]. exact Has.
Qed.

(** ** Spurious wake-ups and aborted tasks *)

(** The times of [n] wake-ups, each one nanosecond before the time-out. *)
Fixpoint restless (n : nat) (d : Duration) (now : Instant) : list Instant :=
  match n with O => [] | S n => (now + d - 1) :: restless n d (now + d - 1) end.

(** The blocking wait on a threads handle starts its time-out afresh after
    every spurious wake-up: no multiple of the time-out bounds it. *)
Theorem timed_wait_overruns fl tie d n now :
  2 ≤ d →
  ∃ t, wait_exit_blocking_with_timeout Threads fl tie (restless n d now) d NeverEnds now = WaitedUntil None t ∧
    now + Z.of_nat n * (d - 1) + d ≤ t.
Proof.
  intros Hd. unfold wait_exit_blocking_with_timeout. simpl exit_reason_at. cbv iota.
  revert now. induction n as [|n IH]; intros now; cbn [restless condvar_timed exit_reason_at notified].
  - eexists. split; [done|lia].
  - rewrite Z.max_r by lia. rewrite decide_True by lia. destruct (IH (now + d - 1)) as (t & -> & Ht).
    eexists. split; [done|]. lia.
Qed.

(** A tasks actor whose task was aborted is reported as killed by every wait,
    and as alive for ever by [exit_reason] and [is_alive]. *)
Theorem aborted_task_reads_alive wakes te now :
  te ≤ now →
  wait_exit_async Tasks wakes (EndsAt te None) now = WaitedUntil Kill now ∧
  ∀ later, exit_reason_at Tasks (EndsAt te None) later = None ∧ is_alive_at Tasks (EndsAt te None) later = true.
Proof.
  intros Hle. split; [unfold wait_exit_async; rewrite await_loop_end; simpl; by rewrite Z.max_l|]. intros later.
  unfold is_alive_at, exit_reason_at. by case_decide.
Qed.

(** ** Concrete waits *)

(** An exit between two spurious wake-ups. *)
Lemma waits_exact_witness :
  ∃ v t v' t', wait_exit_blocking_with_timeout Threads OtherFlavor false [3; 9] 10 (EndsAt 7 (Some Normal)) 0 = WaitedUntil v t ∧
    wait_exit_async_with_timeout Threads false [3; 9] 10 (EndsAt 7 (Some Normal)) 0 = WaitedUntil v' t' ∧
    v = Some Normal ∧ v' = Some Normal ∧ t = 7 ∧ t' = 7.
Proof.
  destruct (waits_exact Threads OtherFlavor false [3; 9] 10 (EndsAt 7 (Some Normal)) 0) as (_ & _ & v & t & v' & t' & Hx & _ & Hy & _ & Hin & _);
    [by left|lia|].
  destruct (Hin 7 (Some Normal) eq_refl ltac:(lia)) as (H1 & H2 & H3 & H4). exists v, t, v', t'. done.
Defined.

(** A child that only a kill ends, 5 ns after the last. *)
Definition stubborn (q : Requests) : Ending :=
  match last q with Some (AskKill, t) => EndsAt (t + 5) (Some Kill) | _ => NeverEnds end.
Lemma shutdown_child_bounded_witness :
  fst (shutdown_child_blocking Tasks MultiThread true [] stubborn (Timeout 10) 0) = WaitedUntil Kill 15 ∧
  ∃ te o t, stubborn (snd (shutdown_child_blocking Tasks MultiThread true [] stubborn (Timeout 10) 0)) = EndsAt te o ∧
    t ≤ 15 ∧ te ≤ t.
Proof.
  split; [reflexivity|].
  destruct (shutdown_child_bounded Tasks MultiThread true [] 10 5 stubborn 0) with
    (res := fst (shutdown_child_blocking Tasks MultiThread true [] stubborn (Timeout 10) 0))
    (q := snd (shutdown_child_blocking Tasks MultiThread true [] stubborn (Timeout 10) 0)) (bound := 10)
    as (te & o & t & Hr & _ & Hte & Ht & _).
  - by right.
  - lia.
  - lia.
  - intros q t. exists (t + 5), (Some Kill). unfold stubborn. rewrite last_snoc. split; [done|lia].
  - left.
  - exists te, o, t. split; [done|]. lia.
Defined.

Lemma timed_wait_overruns_witness :
  ∃ t, wait_exit_blocking_with_timeout Threads NoRuntime true (restless 3 100 0) 100 NeverEnds 0 = WaitedUntil None t ∧ 397 ≤ t.
Proof. destruct (timed_wait_overruns NoRuntime true 100 3 0) as (t & Ht & Hle); [lia|]. exists t. split; [exact Ht|lia]. Defined.

Lemma aborted_task_reads_alive_witness :
  wait_exit_async Tasks [] (EndsAt 1 None) 2 = WaitedUntil Kill 2 ∧ is_alive_at Tasks (EndsAt 1 None) 1000 = true.
Proof. destruct (aborted_task_reads_alive [] 1 2) as [Hw Ha]; [lia|]. split; [exact Hw|apply Ha]. Defined.
