(* ===== verification/Links.v ===== *)
(** * Actor cells, child handles and links

    The shared state of an actor ([Arc]s held by its [Context], [ActorRef]s
    and [ChildHandle]s) as one cell per actor id, and the operations that
    other actors perform on it: the lifecycle requests of
    [concurrency/src/child_handle.rs] and the links of
    [concurrency/src/link.rs]. A [LinkEntry] captures the peer's [Arc]s; as
    those belong to the peer's cell, an entry is the peer's id.

    A function that takes the locks of two actors one after the other is here
    the composition of what it does under each; [Actor] takes the parts as
    steps of their own, [LinkTables] interleaves whole calls. *)

From S2P Require Import Prelude Address Errors Mailbox.
Import Receiver.

(** Where [run_actor] and the epilogue of [spawn] stand. *)
Inductive Phase :=
| Starting                    (** [started] is running *)
| Receiving                   (** at [rx.recv()] *)
| Handling (in_exit : bool)   (** a message handler, or [exit_received], is running *)
| StoppingEarly               (** [stopped] after a cancellation during [started] *)
| Stopping (r : ExitReason)   (** [stopped] at the end of the loop *)
| Exiting (r : ExitReason)    (** [run_actor] has returned *)
| Propagated (r : ExitReason) (** links signalled *)
| Left (r : ExitReason)       (** out of all groups *)
| Completed.                  (** completion published *)

#[global] Instance Phase_eq_dec : EqDecision Phase.
Proof. solve_decision. Defined.

Section cells.
Context {M : Type} `{ThisNode}.

Record Cell := mkCell {
  c_rt : MailboxRuntime;
  c_trap_exit : bool;
  c_links : list ActorId;
  c_linked_reason : option ExitReason;
  c_requested_exit : option ExitReason;
  c_skip_stopped : bool;
  c_cancelled : bool;
  c_stop_posted : bool;
  c_mailbox : MailboxReceiver M;
  c_rx_open : bool;
  c_completion : option ExitReason;
  c_phase : Phase
}.

Definition set_trap_exit b (c : Cell) : Cell :=
  mkCell (c_rt c) b (c_links c) (c_linked_reason c) (c_requested_exit c) (c_skip_stopped c)
    (c_cancelled c) (c_stop_posted c) (c_mailbox c) (c_rx_open c) (c_completion c) (c_phase c).
Definition set_links l (c : Cell) : Cell :=
  mkCell (c_rt c) (c_trap_exit c) l (c_linked_reason c) (c_requested_exit c) (c_skip_stopped c)
    (c_cancelled c) (c_stop_posted c) (c_mailbox c) (c_rx_open c) (c_completion c) (c_phase c).
Definition set_linked_reason r (c : Cell) : Cell :=
  mkCell (c_rt c) (c_trap_exit c) (c_links c) r (c_requested_exit c) (c_skip_stopped c)
    (c_cancelled c) (c_stop_posted c) (c_mailbox c) (c_rx_open c) (c_completion c) (c_phase c).
Definition set_requested r (c : Cell) : Cell :=
  mkCell (c_rt c) (c_trap_exit c) (c_links c) (c_linked_reason c) r (c_skip_stopped c)
    (c_cancelled c) (c_stop_posted c) (c_mailbox c) (c_rx_open c) (c_completion c) (c_phase c).
Definition set_skip_stopped b (c : Cell) : Cell :=
  mkCell (c_rt c) (c_trap_exit c) (c_links c) (c_linked_reason c) (c_requested_exit c) b
    (c_cancelled c) (c_stop_posted c) (c_mailbox c) (c_rx_open c) (c_completion c) (c_phase c).
Definition set_cancelled b (c : Cell) : Cell :=
  mkCell (c_rt c) (c_trap_exit c) (c_links c) (c_linked_reason c) (c_requested_exit c)
    (c_skip_stopped c) b (c_stop_posted c) (c_mailbox c) (c_rx_open c) (c_completion c) (c_phase c).
Definition set_stop_posted b (c : Cell) : Cell :=
  mkCell (c_rt c) (c_trap_exit c) (c_links c) (c_linked_reason c) (c_requested_exit c)
    (c_skip_stopped c) (c_cancelled c) b (c_mailbox c) (c_rx_open c) (c_completion c) (c_phase c).
Definition set_mailbox m (c : Cell) : Cell :=
  mkCell (c_rt c) (c_trap_exit c) (c_links c) (c_linked_reason c) (c_requested_exit c)
    (c_skip_stopped c) (c_cancelled c) (c_stop_posted c) m (c_rx_open c) (c_completion c) (c_phase c).
Definition set_rx_open b (c : Cell) : Cell :=
  mkCell (c_rt c) (c_trap_exit c) (c_links c) (c_linked_reason c) (c_requested_exit c)
    (c_skip_stopped c) (c_cancelled c) (c_stop_posted c) (c_mailbox c) b (c_completion c) (c_phase c).
Definition set_completion r (c : Cell) : Cell :=
  mkCell (c_rt c) (c_trap_exit c) (c_links c) (c_linked_reason c) (c_requested_exit c)
    (c_skip_stopped c) (c_cancelled c) (c_stop_posted c) (c_mailbox c) (c_rx_open c) r (c_phase c).
Definition set_phase p (c : Cell) : Cell :=
  mkCell (c_rt c) (c_trap_exit c) (c_links c) (c_linked_reason c) (c_requested_exit c)
    (c_skip_stopped c) (c_cancelled c) (c_stop_posted c) (c_mailbox c) (c_rx_open c)
    (c_completion c) p.

(** [new_trap_exit_flag], [new_link_table], [new_linked_exit_reason], ...:
    the fields of a freshly spawned actor. *)
Definition new_cell (rt : MailboxRuntime) : Cell :=
  mkCell rt false [] None None false false false channel true None Starting.

Abbreviation Actors := (gmap ActorId Cell) (only parsing).

(** ** Sending *)

Definition push {A} (a : A) (c : Chan A) : Chan A := mkChan (queue c ++ [a]) (connected c).

(** [send_supervision_*], [send_stop_*]: fail once the receiver is dropped. *)
Definition send_supervision (e : Exit) (c : Cell) : Result () ActorError * Cell :=
  if c_rx_open c then
    let r := c_mailbox c in
    (Ok (), set_mailbox (mkReceiver (user r) (signal r) (stop r) (push e (supervision r))
       (user_closed r) (signal_closed r) (stop_closed r) (supervision_closed r)) c)
  else (Err ActorStopped, c).

Definition send_stop (c : Cell) : Result () ActorError * Cell :=
  if c_rx_open c then
    let r := c_mailbox c in
    (Ok (), set_mailbox (mkReceiver (user r) (signal r) (push () (stop r)) (supervision r)
       (user_closed r) (signal_closed r) (stop_closed r) (supervision_closed r)) c)
  else (Err ActorStopped, c).

(** The task that waits for the cancellation and posts the stop, once. *)
Definition post_stop (c : Cell) : Cell :=
  if c_stop_posted c then c else set_stop_posted true (snd (send_stop c)).

(** [CancellationToken::cancel]: in the threads runtime the [on_cancel]
    callback posts the stop at once, in the tasks runtime a task does later. *)
Definition cancel (c : Cell) : Cell :=
  match c_rt c with
  | Tasks => set_cancelled true c
  | Threads => post_stop (set_cancelled true c)
  end.

(** ** [ChildHandle] *)

Definition handle_stop (c : Cell) : Cell := cancel c.
Definition handle_shutdown (c : Cell) : Cell := cancel (set_requested (Some Shutdown) c).
Definition handle_kill (c : Cell) : Cell :=
  cancel (set_skip_stopped true (set_requested (Some Kill) c)).

Definition exit_reason (i : ActorId) (w : Actors) : option ExitReason :=
  w !! i ≫= c_completion.
Definition is_alive (i : ActorId) (w : Actors) : bool :=
  match exit_reason i w with None => true | Some _ => false end.

(** ** Links *)

(** The closure built by [make_signal], applied to the peer's cell. *)
Definition record_and_cancel (r : ExitReason) (c : Cell) : Cell :=
  cancel (match c_linked_reason c with
          | None => set_linked_reason (Some r) c
          | Some _ => c
          end).

Definition exit_signal (sender : ActorId) (r : ExitReason) (peer : Cell) : Cell :=
  match r with
  | Kill => record_and_cancel Kill peer
  | _ =>
      let trapping := c_trap_exit peer in
      if (match r with Normal => true | _ => false end) && negb trapping then peer
      else if trapping then snd (send_supervision (mkExit (local_addr sender) r) peer)
      else record_and_cancel r peer
  end.

Definition make_signal (peer : ActorId) (sender : ActorId) (r : ExitReason) (w : Actors) : Actors :=
  alter (exit_signal sender r) peer w.

Definition add_link (p : ActorId) (c : Cell) : Cell :=
  if bool_decide (p ∈ c_links c) then c else set_links (c_links c ++ [p]) c.

(** [table.retain(|e| e.peer_id != p)] *)
Definition remove_link (p : ActorId) (c : Cell) : Cell :=
  set_links (iter_filter (λ e, bool_decide (e ≠ p)) (c_links c)) c.

Definition register_link (own peer : ActorId) (w : Actors) : Actors :=
  alter (add_link own) peer (alter (add_link peer) own w).

Definition unregister_link (own peer : ActorId) (w : Actors) : Actors :=
  alter (remove_link own) peer (alter (remove_link peer) own w).

Definition take_self_from_peer_table (own peer : ActorId) (w : Actors) : bool * Actors :=
  match w !! peer with
  | Some c => (bool_decide (length (c_links c) ≠ length (c_links (remove_link own c))),
               alter (remove_link own) peer w)
  | None => (false, w)
  end.

(** The end of [link_handles]: a target that is already dead is signalled. *)
Definition link_check (owner target : ActorId) (w : Actors) : Actors :=
  match exit_reason target w with
  | Some reason =>
      let '(taken, w) := take_self_from_peer_table owner target w in
      if taken then make_signal owner target reason w else w
  | None => w
  end.
Definition link_handles (owner target : ActorId) (w : Actors) : Actors :=
  link_check owner target (register_link owner target w).

(** [propagate_exit]: take the table, then for each entry leave the peer's
    table and signal the peer. *)
Definition propagate_exit (own : ActorId) (r : ExitReason) (w : Actors) : Actors :=
  match w !! own with
  | None => w
  | Some c =>
      foldl (λ w peer, make_signal peer own r (alter (remove_link own) peer w))
        (alter (set_links []) own w) (c_links c)
  end.

End cells.
Arguments Cell M : clear implicits.

(** ** Lemmas on cells *)

Section lemmas.
Context {M : Type} `{ThisNode}.
Implicit Types (c : Cell M) (w : gmap ActorId (Cell M)).

(** [cancel] changes the token, and posts a stop in the threads runtime. *)
Lemma cancel_fields c :
  c_rt (cancel c) = c_rt c ∧ c_trap_exit (cancel c) = c_trap_exit c ∧
  c_links (cancel c) = c_links c ∧ c_linked_reason (cancel c) = c_linked_reason c ∧
  c_requested_exit (cancel c) = c_requested_exit c ∧
  c_skip_stopped (cancel c) = c_skip_stopped c ∧ c_cancelled (cancel c) = true ∧
  c_rx_open (cancel c) = c_rx_open c ∧ c_completion (cancel c) = c_completion c ∧
  c_phase (cancel c) = c_phase c ∧
  supervision (c_mailbox (cancel c)) = supervision (c_mailbox c) ∧
  user (c_mailbox (cancel c)) = user (c_mailbox c).
Proof.
  destruct c as [[] t l lr rq sk ca [] mb [] co ph]; split_and!; reflexivity.
Qed.

(** Whether an exit signal stops a peer, and what it leaves in its mailbox. *)
Definition signal_kills (r : ExitReason) (trapping : bool) : bool :=
  bool_decide (r = Kill) || negb trapping && bool_decide (r ≠ Normal).
Definition signal_mail (sender : ActorId) (r : ExitReason) c : list Exit :=
  if c_trap_exit c && bool_decide (r ≠ Kill) && c_rx_open c
  then [mkExit (local_addr sender) r] else [].

Record signalled (sender : ActorId) (r : ExitReason) c c' : Prop := {
  sg_cancelled : c_cancelled c' = c_cancelled c || signal_kills r (c_trap_exit c);
  sg_reason : c_linked_reason c' =
    if signal_kills r (c_trap_exit c)
    then match c_linked_reason c with None => Some r | Some r' => Some r' end
    else c_linked_reason c;
  sg_mail : queue (supervision (c_mailbox c')) =
    queue (supervision (c_mailbox c)) ++ signal_mail sender r c;
  sg_rt : c_rt c' = c_rt c;
  sg_links : c_links c' = c_links c;
  sg_trap : c_trap_exit c' = c_trap_exit c;
  sg_requested : c_requested_exit c' = c_requested_exit c;
  sg_skip : c_skip_stopped c' = c_skip_stopped c;
  sg_open : c_rx_open c' = c_rx_open c;
  sg_completion : c_completion c' = c_completion c;
  sg_phase : c_phase c' = c_phase c;
  sg_user : user (c_mailbox c') = user (c_mailbox c)
}.

Lemma record_and_cancel_signalled sender r c :
  signal_kills r (c_trap_exit c) = true → signal_mail sender r c = [] →
  signalled sender r c (record_and_cancel r c).
Proof.
  intros Hk Hm. unfold record_and_cancel.
  destruct (c_linked_reason c) eqn:Hl;
    match goal with |- signalled _ _ _ (cancel ?d) => destruct (cancel_fields d)
      as (Hrt & Ht & Hli & Hlr & Hrq & Hsk & Hca & Hop & Hco & Hph & Hsu & Hus) end;
    cbn [c_rt c_trap_exit c_links c_linked_reason c_requested_exit c_skip_stopped c_rx_open
         c_completion c_phase c_mailbox set_linked_reason] in *;
    split; rewrite ?Hk, ?Hm, ?Hl, ?orb_true_r, ?app_nil_r; congruence.
Qed.

Lemma exit_signal_spec sender r c : signalled sender r c (exit_signal sender r c).
Proof.
  assert (∀ c, signal_kills r (c_trap_exit c) = false →
    signal_mail sender r c = [] → signalled sender r c c) as Hid.
  { intros d Hk Hm. split; rewrite ?Hk, ?Hm, ?orb_false_r, ?app_nil_r; done. }
  assert (∀ c, signal_kills r (c_trap_exit c) = false → c_trap_exit c = true → r ≠ Kill →
    signalled sender r c (snd (send_supervision (mkExit (local_addr sender) r) c))) as Hsend.
  { intros d Hk Ht Hr. unfold send_supervision. destruct (c_rx_open d) eqn:Ho; simpl.
    - split; rewrite ?Hk, ?orb_false_r; simpl; try done.
      unfold signal_mail. rewrite Ht, Ho, bool_decide_eq_true_2 by done. done.
    - apply Hid; [done|]. unfold signal_mail. by rewrite Ho, andb_false_r. }
  destruct r; simpl.
  - destruct (c_trap_exit c) eqn:Ht; simpl; [apply Hsend|apply Hid];
      unfold signal_kills, signal_mail; by rewrite ?Ht.
  - destruct (c_trap_exit c) eqn:Ht; simpl; [apply Hsend|apply record_and_cancel_signalled];
      unfold signal_kills, signal_mail; by rewrite ?Ht.
  - destruct (c_trap_exit c) eqn:Ht; simpl; [apply Hsend|apply record_and_cancel_signalled];
      unfold signal_kills, signal_mail; by rewrite ?Ht.
  - apply record_and_cancel_signalled; [done|]. unfold signal_mail. by destruct (c_trap_exit c).
Qed.

Lemma lookup_signal_peers own r peers w b :
  NoDup peers →
  foldl (λ w peer, make_signal peer own r (alter (remove_link own) peer w)) w peers !! b =
  if decide (b ∈ peers) then exit_signal own r ∘ remove_link own <$> w !! b else w !! b.
Proof.
  revert w. induction peers as [|p peers IH]; intros w Hnd.
  { cbn [foldl]. rewrite decide_False; [done|]. apply not_elem_of_nil. }
  apply NoDup_cons in Hnd as [Hni Hnd]. cbn [foldl]. rewrite IH by done. unfold make_signal.
  destruct (decide (b = p)) as [->|Hne].
  - rewrite (decide_False (P := p ∈ peers)) by done.
    rewrite decide_True by (by left). rewrite !lookup_alter_eq. by destruct (w !! p).
  - rewrite !lookup_alter_ne by done.
    rewrite (decide_ext (b ∈ p :: peers) (b ∈ peers)); [done|]. set_solver.
Qed.

Lemma lookup_propagate own r w c b :
  w !! own = Some c → NoDup (c_links c) →
  propagate_exit own r w !! b =
  (λ d, if decide (b ∈ c_links c) then exit_signal own r (remove_link own d) else d) <$>
    ((λ d, if decide (b = own) then set_links [] d else d) <$> w !! b).
Proof.
  intros Hc Hnd. unfold propagate_exit. rewrite Hc, lookup_signal_peers by done.
  assert (alter (set_links []) own w !! b =
    (λ d, if decide (b = own) then set_links [] d else d) <$> w !! b) as ->.
  { rewrite lookup_alter. destruct (decide (own = b)) as [->|Hne], (w !! b) as [d|];
      cbn [fmap option_fmap option_map]; try done; f_equal;
      [by rewrite decide_True|by rewrite decide_False]. }
  destruct (decide (b ∈ c_links c)); destruct (w !! b); done.
Qed.
End lemmas.

(** When an actor exits, exactly the actors linked to it are affected,
    and each of them as its [trap_exit] flag and the reason prescribe: a
    [Kill] and, for a peer that does not trap, every reason but [Normal]
    cancel the peer and become its linked reason unless it already has one;
    a trapping peer whose mailbox is open gets one [Exit] message for any
    reason but [Kill]; a peer that does not trap ignores [Normal]. The dead
    actor's table is emptied and it disappears from its peers' tables. *)
Theorem propagate_exit_spec {M} `{ThisNode} (own : ActorId) (r : ExitReason)
    (w : gmap ActorId (Cell M)) (c : Cell M) (b : ActorId) (cb : Cell M) :
  w !! own = Some c → NoDup (c_links c) → own ∉ c_links c → w !! b = Some cb →
  ∃ cb', propagate_exit own r w !! b = Some cb' ∧
    (b = own → cb' = set_links [] c) ∧
    (b ≠ own → b ∉ c_links c → cb' = cb) ∧
    (b ∈ c_links c → signalled own r (remove_link own cb) cb' ∧ own ∉ c_links cb').
Proof.
  intros Hc Hnd Hself Hb. rewrite (lookup_propagate own r w c b) by done. rewrite Hb. csimpl.
  eexists. split; [done|]. split_and!.
  - intros ->. rewrite decide_False, decide_True by done. congruence.
  - intros Hne Hni. by rewrite !decide_False.
  - intros Hin. rewrite decide_True by done.
    rewrite (decide_False (P := b = own)) by (by intros ->).
    pose proof (exit_signal_spec own r (remove_link own cb)) as Hs. split; [done|].
    rewrite (sg_links _ _ _ _ Hs). simpl. rewrite elem_of_iter_filter. intros [_ Hx].
    by bool_simpl.
Qed.

(** A worker that panicked, linked to a supervisor that traps exits. *)
Definition linked_pair : gmap ActorId (Cell ()) :=
  <[from_raw 1 := set_trap_exit true (set_links [from_raw 2] (new_cell Tasks))]>
  (<[from_raw 2 := set_links [from_raw 1] (new_cell Tasks)]> ∅).

Lemma propagate_exit_spec_witness :
  let _ : ThisNode := node_new "n@h" in
  let sup := set_trap_exit true (set_links [from_raw 2] (new_cell Tasks)) in
  ∃ cb', propagate_exit (from_raw 2) Kill linked_pair !! from_raw 1 = Some cb' ∧
    (from_raw 1 = from_raw 2 → cb' = set_links [] (set_links [from_raw 1] (new_cell Tasks))) ∧
    (from_raw 1 ≠ from_raw 2 → from_raw 1 ∉ [from_raw 1] → cb' = sup) ∧
    (from_raw 1 ∈ [from_raw 1] →
       signalled (from_raw 2) Kill (remove_link (from_raw 2) sup) cb' ∧
       from_raw 2 ∉ c_links cb').
Proof.
  intros T sup.
  apply (propagate_exit_spec (from_raw 2) Kill linked_pair
    (set_links [from_raw 1] (new_cell Tasks)) (from_raw 1) sup).
  - reflexivity.
  - apply NoDup_singleton.
  - change (from_raw 2 ∉ [from_raw 1]). rewrite list_elem_of_singleton. discriminate.
  - reflexivity.
Defined.
