(* ===== verification/LinkTables.v ===== *)
(** * Link tables under concurrent access

    The operations of [concurrency/src/link.rs] that take the locks of two
    link tables one after the other, or several: [register_link] and
    [link_handles], [unregister_link], and [propagate_exit], followed by the
    publication of the exit in [run_actor]. Each is a thread that takes one
    lock per step ([tstep]), and threads interleave in any way. [Links] and
    [Actor] have the same operations on whole cells; [register_link_locks] and
    [unregister_link_locks] relate the two. *)

From stdpp Require Import relations.
From S2P Require Import Prelude Address Errors Mailbox ChildSpec Links.

(** ** Tables and threads *)

(** The tables, the actors that have begun to signal their links, those whose
    exit is published, and the signals delivered: who was told of whose exit. *)
Record Tables := mkTables {
  tables : gmap ActorId (list ActorId);
  begun : gset ActorId;
  published : gset ActorId;
  told : list (ActorId * ActorId)
}.
Definition table (tb : Tables) (a : ActorId) : list ActorId := default [] (tables tb !! a).
Definition set_table (a : ActorId) (l : list ActorId) (tb : Tables) : Tables :=
  mkTables (<[a := l]> (tables tb)) (begun tb) (published tb) (told tb).
Definition tell_exit (b a : ActorId) (tb : Tables) : Tables :=
  mkTables (tables tb) (begun tb) (published tb) (told tb ++ [(b, a)]).

(** Under one lock: push unless present, and [retain]. *)
Definition push_peer (a b : ActorId) (tb : Tables) : Tables :=
  if bool_decide (b ∈ table tb a) then tb else set_table a (table tb a ++ [b]) tb.
Definition retain_peer (a b : ActorId) (tb : Tables) : Tables :=
  set_table a (iter_filter (λ e, bool_decide (e ≠ b)) (table tb a)) tb.

(** Where a thread is: the lock it takes next. *)
Inductive Thread :=
| LinkOwn (own peer : ActorId)
| LinkPeer (own peer : ActorId)
| LinkLook (own peer : ActorId)
| LinkTake (own peer : ActorId)
| LinkTell (own peer : ActorId)
| UnlinkOwn (own peer : ActorId)
| UnlinkPeer (own peer : ActorId)
| ExitTake (own : ActorId)
| ExitDrop (own : ActorId) (entries : list ActorId)
| ExitTell (own peer : ActorId) (entries : list ActorId)
| Finished.
#[export] Instance Thread_eq_dec : EqDecision Thread.
Proof. solve_decision. Defined.

Definition tstep (t : Thread) (tb : Tables) : Thread * Tables :=
  match t with
  (* register_link *)
  | LinkOwn own peer => (LinkPeer own peer, push_peer own peer tb)
  | LinkPeer own peer => (LinkLook own peer, push_peer peer own tb)
  (* the end of link_handles *)
  | LinkLook own peer => (if bool_decide (peer ∈ published tb) then LinkTake own peer else Finished, tb)
  | LinkTake own peer =>
      let tb' := retain_peer peer own tb in
      (if bool_decide (length (table tb' peer) ≠ length (table tb peer)) then LinkTell own peer else Finished, tb')
  | LinkTell own peer => (Finished, tell_exit own peer tb)
  (* unregister_link *)
  | UnlinkOwn own peer => (UnlinkPeer own peer, retain_peer own peer tb)
  | UnlinkPeer own peer => (Finished, retain_peer peer own tb)
  (* propagate_exit, and the completion that follows it *)
  | ExitTake own =>
      (ExitDrop own (table tb own),
       set_table own [] (mkTables (tables tb) ({[own]} ∪ begun tb) (published tb) (told tb)))
  | ExitDrop own [] => (Finished, mkTables (tables tb) (begun tb) ({[own]} ∪ published tb) (told tb))
  | ExitDrop own (peer :: entries) => (ExitTell own peer entries, retain_peer peer own tb)
  | ExitTell own peer entries => (ExitDrop own entries, tell_exit peer own tb)
  | Finished => (Finished, tb)
  end.

(** A thread works on the link of a pair: it has still to change one of the
    two tables. *)
Definition linking (a b : ActorId) (t : Thread) : bool :=
  match t with
  | LinkOwn x y | LinkPeer x y => bool_decide ((x = a ∧ y = b) ∨ (x = b ∧ y = a))
  | _ => false
  end.
Definition unlinking (a b : ActorId) (t : Thread) : bool :=
  match t with
  | UnlinkOwn x y | UnlinkPeer x y => bool_decide ((x = a ∧ y = b) ∨ (x = b ∧ y = a))
  | _ => false
  end.

Record System := mkSystem { sys_tables : Tables; sys_threads : list Thread }.
Definition no_links : System := mkSystem (mkTables ∅ ∅ ∅ []) [].

(** Any thread takes its next lock, or a new operation begins. Nobody links
    and unlinks the same pair at the same time. *)
Inductive lstep : System → System → Prop :=
| ls_step n t tb ts :
    ts !! n = Some t →
    lstep (mkSystem tb ts) (mkSystem (snd (tstep t tb)) (<[n := fst (tstep t tb)]> ts))
| ls_link a b tb ts :
    existsb (unlinking a b) ts = false → lstep (mkSystem tb ts) (mkSystem tb (ts ++ [LinkOwn a b]))
| ls_unlink a b tb ts :
    existsb (linking a b) ts = false → lstep (mkSystem tb ts) (mkSystem tb (ts ++ [UnlinkOwn a b]))
| ls_exit a tb ts :
    a ∉ begun tb → ExitTake a ∉ ts → lstep (mkSystem tb ts) (mkSystem tb (ts ++ [ExitTake a])).

(** A schedule: which thread goes next. *)
Definition run_schedule (ns : list nat) (s : System) : System :=
  foldl (λ s n, match sys_threads s !! n with
                | Some t => mkSystem (snd (tstep t (sys_tables s))) (<[n := fst (tstep t (sys_tables s))]> (sys_threads s))
                | None => s
                end) s ns.

(** ** The locks of the operations on cells *)

Section cells.
Context {M : Type} `{ThisNode}.
Implicit Types (w : gmap ActorId (Cell M)).

Definition tables_of w : Tables := mkTables (c_links <$> w) ∅ ∅ [].

Lemma push_peer_alter a b w :
  is_Some (w !! a) → push_peer a b (tables_of w) = tables_of (alter (add_link b) a w).
Proof.
  intros [c Hc]. unfold push_peer, table, tables_of. cbn [tables]. rewrite lookup_fmap, Hc. simpl.
  unfold set_table. cbn [tables begun published told].
  assert (c_links <$> alter (add_link b) a w = <[a := c_links (add_link b c)]> (c_links <$> w)) as ->.
  { apply map_eq. intros x. rewrite lookup_fmap, lookup_alter, lookup_insert, lookup_fmap.
    case_decide; subst; [by rewrite Hc|done]. }
  unfold add_link. case_bool_decide; simpl; [|done]. f_equal. symmetry. apply insert_id. by rewrite lookup_fmap, Hc.
Qed.

Lemma retain_peer_alter a b w :
  is_Some (w !! a) → retain_peer a b (tables_of w) = tables_of (alter (remove_link b) a w).
Proof.
  intros [c Hc]. unfold retain_peer, table, tables_of. cbn [tables]. rewrite lookup_fmap, Hc. simpl.
  unfold set_table. cbn [tables begun published told]. f_equal. apply map_eq. intros x.
  rewrite lookup_fmap, lookup_alter, lookup_insert, lookup_fmap. case_decide; subst; [by rewrite Hc|done].
Qed.

(** [register_link] and [unregister_link] of [Links] are two locks of this
    file, without anybody in between. *)
Lemma register_link_locks a b w :
  is_Some (w !! a) → is_Some (w !! b) →
  snd (tstep (LinkPeer a b) (snd (tstep (LinkOwn a b) (tables_of w)))) = tables_of (register_link a b w).
Proof.
  intros Ha [c Hb]. cbn [tstep snd]. rewrite push_peer_alter by done. apply push_peer_alter.
  rewrite lookup_alter. case_decide; subst; by rewrite Hb.
Qed.
Lemma unregister_link_locks a b w :
  is_Some (w !! a) → is_Some (w !! b) →
  snd (tstep (UnlinkPeer a b) (snd (tstep (UnlinkOwn a b) (tables_of w)))) = tables_of (unregister_link a b w).
Proof.
  intros Ha [c Hb]. cbn [tstep snd]. rewrite retain_peer_alter by done. apply retain_peer_alter.
  rewrite lookup_alter. case_decide; subst; by rewrite Hb.
Qed.
End cells.

(** ** What a step changes *)

Lemma elem_push p q a b tb : q ∈ table (push_peer a b tb) p ↔ q ∈ table tb p ∨ (p = a ∧ q = b).
Proof.
  unfold push_peer. case_bool_decide as Hin; [naive_solver|]. unfold set_table, table. cbn [tables].
  destruct (decide (p = a)) as [->|Hp].
  - rewrite lookup_insert_eq. simpl. rewrite elem_of_app, list_elem_of_singleton. naive_solver.
  - rewrite lookup_insert_ne by done. naive_solver.
Qed.

Lemma elem_retain p q a b tb : q ∈ table (retain_peer a b tb) p ↔ q ∈ table tb p ∧ ¬ (p = a ∧ q = b).
Proof.
  unfold retain_peer, set_table, table. cbn [tables]. destruct (decide (p = a)) as [->|Hp].
  - rewrite lookup_insert_eq. simpl. rewrite elem_of_iter_filter, bool_decide_eq_true. naive_solver.
  - rewrite lookup_insert_ne by done. naive_solver.
Qed.

(** Which entries a thread's step adds to or takes out of the tables. *)
Definition entry_after (t : Thread) (tb : Tables) (p q : ActorId) : Prop :=
  match t with
  | LinkOwn x y => q ∈ table tb p ∨ (p = x ∧ q = y)
  | LinkPeer x y => q ∈ table tb p ∨ (p = y ∧ q = x)
  | UnlinkOwn x y => q ∈ table tb p ∧ ¬ (p = x ∧ q = y)
  | UnlinkPeer x y | LinkTake x y => q ∈ table tb p ∧ ¬ (p = y ∧ q = x)
  | ExitTake o => q ∈ table tb p ∧ p ≠ o
  | ExitDrop o (e :: _) => q ∈ table tb p ∧ ¬ (p = e ∧ q = o)
  | _ => q ∈ table tb p
  end.

Lemma tstep_entries t tb p q : q ∈ table (snd (tstep t tb)) p ↔ entry_after t tb p q.
Proof.
  destruct t as [x y|x y|x y|x y|x y|x y|x y|o|o [|e es]|o e es|]; cbn [tstep snd entry_after]; try done;
    rewrite ?elem_push, ?elem_retain; try done.
  unfold set_table, table. cbn [tables]. destruct (decide (p = o)) as [->|Hp].
  - rewrite lookup_insert_eq. simpl. split; [by intros ?%not_elem_of_nil|naive_solver].
  - rewrite lookup_insert_ne by done. naive_solver.
Qed.

Lemma tstep_NoDup t tb : (∀ a, NoDup (table tb a)) → ∀ a, NoDup (table (snd (tstep t tb)) a).
Proof.
  intros Hnd. assert (∀ x l, NoDup l → ∀ a, NoDup (table (set_table x l tb) a)) as Hset.
  { intros x l Hl a. unfold table, set_table. cbn [tables]. destruct (decide (a = x)) as [->|Ha];
      [by rewrite lookup_insert_eq|rewrite lookup_insert_ne by done; apply Hnd]. }
  assert (∀ x y a, NoDup (table (push_peer x y tb) a)) as Hpush.
  { intros x y. unfold push_peer. case_bool_decide as Hin; [done|]. apply Hset. apply NoDup_app. split_and!; [done| |].
    - intros z Hz ->%list_elem_of_singleton. done.
    - apply NoDup_singleton. }
  assert (∀ x y a, NoDup (table (retain_peer x y tb) a)) as Hretain.
  { intros x y. apply Hset. by apply NoDup_iter_filter. }
  destruct t as [x y|x y|x y|x y|x y|x y|x y|o|o [|e es]|o e es|]; cbn [tstep snd]; try done.
  intros a. unfold set_table, table. cbn [tables]. destruct (decide (a = o)) as [->|Ha];
    [rewrite lookup_insert_eq; constructor|rewrite lookup_insert_ne by done; apply Hnd].
Qed.

(** ** The invariant *)

(** What each thread knows. *)
Definition thread_ok (tb : Tables) (t : Thread) : Prop :=
  match t with
  | LinkPeer x y => x ∉ begun tb → y ∉ begun tb → y ∈ table tb x
  | UnlinkPeer x y => y ∉ table tb x
  | LinkTake x y => y ∈ published tb
  | ExitDrop o _ | ExitTell o _ _ => o ∈ begun tb
  | _ => True
  end.

Record linv (s : System) : Prop := {
  lv_nodup : ∀ a, NoDup (table (sys_tables s) a);
  lv_threads : ∀ t, t ∈ sys_threads s → thread_ok (sys_tables s) t;
  lv_apart : ∀ a b t u, t ∈ sys_threads s → u ∈ sys_threads s → linking a b t = true → unlinking a b u = false;
  lv_published : published (sys_tables s) ⊆ begun (sys_tables s);
  lv_mutual : ∀ a b, a ∉ begun (sys_tables s) → b ∉ begun (sys_tables s) →
    (∀ t, t ∈ sys_threads s → linking a b t = false ∧ unlinking a b t = false) →
    b ∈ table (sys_tables s) a → a ∈ table (sys_tables s) b
}.

Lemma elem_update {A} (l : list A) n x0 x y : l !! n = Some x0 → y ∈ <[n := x]> l → y = x ∨ y ∈ l.
Proof.
  intros Hn [i Hi]%list_elem_of_lookup. destruct (decide (i = n)) as [->|Hne].
  - rewrite list_lookup_insert_eq in Hi by (by eapply lookup_lt_Some). left. congruence.
  - rewrite list_lookup_insert_ne in Hi by done. right. by apply list_elem_of_lookup_2 in Hi.
Qed.
Lemma elem_kept {A} (l : list A) n x0 x y : l !! n = Some x0 → y ∈ l → y = x0 ∨ y ∈ <[n := x]> l.
Proof.
  intros Hn [i Hi]%list_elem_of_lookup. destruct (decide (i = n)) as [->|Hne]; [left; congruence|].
  right. apply (list_elem_of_lookup_2 _ i). by rewrite list_lookup_insert_ne.
Qed.

(** A step neither makes a thread an unlinker nor a linker of another pair. *)
Lemma tstep_kind a b t tb :
  (linking a b (fst (tstep t tb)) = true → linking a b t = true) ∧
  (unlinking a b (fst (tstep t tb)) = true → unlinking a b t = true).
Proof.
  destruct t as [x y|x y|x y|x y|x y|x y|x y|o|o [|e es]|o e es|]; cbn [tstep fst]; try done;
    by case_bool_decide.
Qed.

Lemma begun_grows t tb : begun tb ⊆ begun (snd (tstep t tb)) ∧ published tb ⊆ published (snd (tstep t tb)).
Proof.
  destruct t as [x y|x y|x y|x y|x y|x y|x y|o|o [|e es]|o e es|]; cbn [tstep snd]; unfold push_peer;
    try case_bool_decide; set_solver.
Qed.

Lemma linking_refl a b t : linking a b t = linking b a t.
Proof. destruct t; try done; simpl; apply bool_decide_ext; tauto. Qed.
Lemma unlinking_refl a b t : unlinking a b t = unlinking b a t.
Proof. destruct t; try done; simpl; apply bool_decide_ext; tauto. Qed.

(** What the other threads know still holds. *)
Lemma thread_ok_other t u tb :
  thread_ok tb t → thread_ok tb u → published tb ⊆ begun tb →
  (∀ a b, linking a b t = true → unlinking a b u = true → False) →
  (∀ a b, unlinking a b t = true → linking a b u = true → False) →
  thread_ok (snd (tstep t tb)) u.
Proof.
  intros Ht Hu Hpub H1 H2. destruct (begun_grows t tb) as [Hb Hp].
  destruct u as [x y|x y|x y|x y|x y|x y|x y|o|o es|o e es|]; cbn [thread_ok] in *; auto.
  - intros Hx Hy. rewrite tstep_entries.
    assert (x ∉ begun tb) as Hx0 by auto. assert (y ∉ begun tb) as Hy0 by auto.
    specialize (Hu Hx0 Hy0). specialize (H2 x y). cbn [linking] in H2.
    rewrite (bool_decide_eq_true_2 (_ ∨ _)) in H2 by (by left).
    destruct t as [z v|z v|z v|z v|z v|z v|z v|o|o [|e es]|o e es|];
      cbn [entry_after thread_ok unlinking tstep snd begun set_table] in *; auto; (split; [done|]).
    + intros [-> ->]. auto.
    + intros [-> ->]. apply H2; [|done]. by apply bool_decide_eq_true; left.
    + intros [-> ->]. apply H2; [|done]. by apply bool_decide_eq_true; right.
    + intros ->. apply Hx, elem_of_union. left. by apply elem_of_singleton.
    + intros [-> ->]. auto.
  - rewrite tstep_entries. specialize (H1 x y). cbn [unlinking] in H1.
    rewrite (bool_decide_eq_true_2 (_ ∨ _)) in H1 by (by left).
    destruct t as [z v|z v|z v|z v|z v|z v|z v|o|o [|e es]|o e es|]; cbn [entry_after linking] in *; try done;
      try (by intros [? _]).
    + intros [?|[-> ->]]; [done|]. apply H1; [|done]. by apply bool_decide_eq_true; left.
    + intros [?|[-> ->]]; [done|]. apply H1; [|done]. by apply bool_decide_eq_true; right.
Qed.

Lemma thread_ok_self t tb : thread_ok tb t → thread_ok (snd (tstep t tb)) (fst (tstep t tb)).
Proof.
  destruct t as [x y|x y|x y|x y|x y|x y|x y|o|o [|e es]|o e es|]; cbn [tstep fst snd]; try done.
  - intros _ _ _. apply elem_push. by right.
  - intros _. by case_bool_decide.
  - intros _. by case_bool_decide.
  - intros _. simpl. rewrite elem_retain. naive_solver.
  - intros _. simpl. set_solver.
Qed.

(** A step that ends the work on a pair leaves it mutual. *)
Lemma tstep_mutual t tb a b :
  thread_ok tb t → published tb ⊆ begun tb →
  a ∉ begun (snd (tstep t tb)) → b ∉ begun (snd (tstep t tb)) →
  linking a b (fst (tstep t tb)) = false → unlinking a b (fst (tstep t tb)) = false →
  (linking a b t = false → unlinking a b t = false → b ∈ table tb a → a ∈ table tb b) →
  b ∈ table (snd (tstep t tb)) a → a ∈ table (snd (tstep t tb)) b.
Proof.
  intros Ht Hpub Ha Hb Hl Hu Hold. rewrite !tstep_entries. destruct (begun_grows t tb) as [Hbg _].
  assert (a ∉ begun tb) as Ha0 by auto. assert (b ∉ begun tb) as Hb0 by auto.
  destruct t as [x y|x y|x y|x y|x y|x y|x y|o|o [|e es]|o e es|];
    cbn [tstep fst snd entry_after linking unlinking thread_ok begun set_table] in *; auto.
  - intros [Hin|[-> ->]]; [left; by apply Hold|]. by rewrite (bool_decide_eq_true_2 (_ ∨ _)) in Hl by auto.
  - case_bool_decide as Hp; [|intros [Hin|[-> ->]]; [left; by apply Hold|by destruct Hp; right]].
    destruct Hp as [[-> ->]|[-> ->]]; [by right|left; auto].
  - intros [Hin Hne]. split; [by apply Hold|]. intros [-> ->]. auto.
  - intros [Hin Hne]. split; [by apply Hold|]. intros [-> ->]. by rewrite (bool_decide_eq_true_2 (_ ∨ _)) in Hu by auto.
  - case_bool_decide as Hp; [|intros [Hin Hne]; split; [by apply Hold|]; intros [-> ->]; by destruct Hp; left].
    destruct Hp as [[-> ->]|[-> ->]]; [by intros [? _]|]. by intros [_ []].
  - intros [Hin Hne]. split; [by apply Hold|]. intros ->. apply Hb, elem_of_union. left. by apply elem_of_singleton.
  - intros [Hin Hne]. split; [by apply Hold|]. intros [-> ->]. auto.
Qed.

Lemma tstep_published t tb : published tb ⊆ begun tb → thread_ok tb t →
  published (snd (tstep t tb)) ⊆ begun (snd (tstep t tb)).
Proof.
  intros Hp Ht x Hx. destruct (begun_grows t tb) as [Hb _].
  destruct t as [u v|u v|u v|u v|u v|u v|u v|o|o [|e es]|o e es|]; cbn [tstep snd] in *; auto;
    try (unfold push_peer in *; case_bool_decide; by auto).
  cbn [published begun] in *. apply elem_of_union in Hx as [->%elem_of_singleton|Hx]; auto.
Qed.

(** A new thread that knows nothing yet. *)
Lemma linv_new tb ts t :
  linv (mkSystem tb ts) → thread_ok tb t →
  (∀ a b u, u ∈ ts → linking a b t = true → unlinking a b u = false) →
  (∀ a b u, u ∈ ts → unlinking a b t = true → linking a b u = false) →
  (∀ a b, linking a b t = true → unlinking a b t = false) → linv (mkSystem tb (ts ++ [t])).
Proof.
  intros [Hnd Hth Hap Hpub Hmu] Ht H1 H2 H3. split; cbn [sys_tables sys_threads] in *; try done.
  - intros u [?| ->%list_elem_of_singleton]%elem_of_app; auto.
  - intros a b u v [Hu| ->%list_elem_of_singleton]%elem_of_app [Hv| ->%list_elem_of_singleton]%elem_of_app Hl; eauto.
    destruct (unlinking a b t) eqn:He; [|done]. rewrite (H2 a b u Hu He) in Hl. done.
  - intros a b Ha Hb Hno. apply Hmu; [done|done|]. intros u Hu. apply Hno, elem_of_app. by left.
Qed.

Lemma linv_step s s' : lstep s s' → linv s → linv s'.
Proof.
  destruct 1 as [n t tb ts Hn|a b tb ts Hno|a b tb ts Hno|a tb ts Hb Hts]; intros Hinv.
  - pose proof (list_elem_of_lookup_2 _ _ _ Hn) as Ht. pose proof Hinv as [Hnd Hth Hap Hpub Hmu].
    cbn [sys_tables sys_threads] in *. split; cbn [sys_tables sys_threads].
    + by apply tstep_NoDup.
    + intros u [->|Hu]%(elem_update _ _ _ _ _ Hn); [by apply thread_ok_self, Hth|].
      apply thread_ok_other; auto.
      * intros a b H1 H2. by rewrite (Hap a b t u) in H2.
      * intros a b H1 H2. by rewrite (Hap a b u t) in H1.
    + intros a b u v Hu Hv Hl. apply not_true_iff_false. intros Hul.
      assert (∃ u0, u0 ∈ ts ∧ linking a b u0 = true) as (u0 & Hu0 & Hl0).
      { apply (elem_update _ _ _ _ _ Hn) in Hu as [->|Hu]; [exists t; split; [done|by apply (tstep_kind a b t tb)]|eauto]. }
      assert (∃ v0, v0 ∈ ts ∧ unlinking a b v0 = true) as (v0 & Hv0 & Hl1).
      { apply (elem_update _ _ _ _ _ Hn) in Hv as [->|Hv]; [exists t; split; [done|by apply (tstep_kind a b t tb)]|eauto]. }
      by rewrite (Hap a b u0 v0) in Hl1.
    + by apply tstep_published; [|apply Hth].
    + intros a b Ha Hb Hno. destruct (Hno (fst (tstep t tb))) as [H1 H2].
      { apply (list_elem_of_lookup_2 _ n). by apply list_lookup_insert_eq; eapply lookup_lt_Some. }
      apply tstep_mutual; auto. intros Hlt Hut. destruct (begun_grows t tb) as [Hbg _]. apply Hmu; auto.
      intros u Hu. destruct (elem_kept _ _ _ (fst (tstep t tb)) _ Hn Hu) as [->|?]; auto.
  - apply linv_new; try done.
    + intros x y u Hu. rewrite existsb_false in Hno. simpl. intros Hp%bool_decide_eq_true.
      destruct Hp as [[-> ->]|[-> ->]]; [|rewrite unlinking_refl]; auto.
  - apply linv_new; try done.
    + intros x y u Hu. rewrite existsb_false in Hno. simpl. intros Hp%bool_decide_eq_true.
      destruct Hp as [[-> ->]|[-> ->]]; [|rewrite linking_refl]; auto.
  - by apply linv_new.
Qed.

Lemma linv_reach s : rtc lstep no_links s → linv s.
Proof.
  assert (∀ s s', rtc lstep s s' → linv s → linv s') as Hrun.
  { induction 1 as [|s1 s2 s3 H12 _ IH]; [done|]. intros H1. apply IH. by apply (linv_step s1). }
  intros Hr. apply (Hrun no_links s Hr). split; cbn; try done.
  - intros a. unfold table. simpl. rewrite lookup_empty. constructor.
  - by intros t ?%not_elem_of_nil.
  - by intros ? ? ? ? ?%not_elem_of_nil.
  - intros a b _ _ _. unfold table. simpl. rewrite lookup_empty. by intros ?%not_elem_of_nil.
Qed.

(** C29: Links are mutual, lock by lock. Let any number of threads link and
    unlink actors and let actors exit, every thread taking one lock of a link
    table at a time, interleaved in any way in which nobody links and unlinks
    the same pair of actors at the same time. Then no table ever lists an
    actor twice; and two actors that have not begun to signal their exit,
    whose link no thread is working on, list each other or neither lists the
    other. *)
Theorem links_mutual s a b :
  rtc lstep no_links s →
  NoDup (table (sys_tables s) a) ∧
  (a ∉ begun (sys_tables s) → b ∉ begun (sys_tables s) →
   (∀ t, t ∈ sys_threads s → linking a b t = false ∧ unlinking a b t = false) →
   b ∈ table (sys_tables s) a ↔ a ∈ table (sys_tables s) b).
Proof.
  intros Hinv%linv_reach. split; [apply Hinv|]. intros Ha Hb Hno. split; [by apply Hinv|].
  apply Hinv; [done|done|]. intros t Ht. rewrite linking_refl, unlinking_refl. auto.
Qed.

(** ** Runs *)

(** Two threads link actors 1 and 2, each from its own side, while actor 3,
    linked to 1, exits. *)
Definition busy : System :=
  run_schedule [0; 0; 3; 1; 2; 3; 1; 2; 3]
    (mkSystem (mkTables ∅ ∅ ∅ [])
       [LinkOwn (from_raw 1) (from_raw 3); LinkOwn (from_raw 1) (from_raw 2);
        LinkOwn (from_raw 2) (from_raw 1); ExitTake (from_raw 3)]).

Lemma run_schedule_reach ns s : rtc lstep s (run_schedule ns s).
Proof.
  revert s. induction ns as [|n ns IH]; intros [tb ts]; simpl; [apply rtc_refl|].
  destruct (ts !! n) as [t|] eqn:Hn; [|apply IH]. eapply rtc_l; [by apply (ls_step n t)|]. apply IH.
Qed.

Lemma busy_reach : rtc lstep no_links busy.
Proof.
  eapply rtc_l; [apply (ls_link (from_raw 1) (from_raw 3)); reflexivity|].
  eapply rtc_l; [apply (ls_link (from_raw 1) (from_raw 2)); reflexivity|].
  eapply rtc_l; [apply (ls_link (from_raw 2) (from_raw 1)); reflexivity|].
  eapply rtc_l; [apply (ls_exit (from_raw 3)); [set_solver|]|apply run_schedule_reach].
  apply (bool_decide_eq_true_1 _). reflexivity.
Qed.

(** Actors 1 and 2 are linked both ways, actor 1 was told of the exit of 3. *)
Lemma links_mutual_witness :
  table (sys_tables busy) (from_raw 1) = [from_raw 2] ∧ table (sys_tables busy) (from_raw 2) = [from_raw 1] ∧
  told (sys_tables busy) = [(from_raw 1, from_raw 3)] ∧
  (from_raw 2 ∈ table (sys_tables busy) (from_raw 1) ↔ from_raw 1 ∈ table (sys_tables busy) (from_raw 2)).
Proof.
  split; [vm_compute; reflexivity|]. split; [vm_compute; reflexivity|]. split; [vm_compute; reflexivity|].
  apply (links_mutual busy (from_raw 1) (from_raw 2) busy_reach).
  - apply (bool_decide_unpack _). vm_compute. exact I.
  - apply (bool_decide_unpack _). vm_compute. exact I.
  - apply Forall_forall. apply (bool_decide_unpack _). vm_compute. exact I.
Defined.

(** Without that condition a link can be left one-sided. One thread links
    actors 1 and 2 while another unlinks them: afterwards 2 lists 1, but 1
    does not list 2, and no thread is left that would change it. Actor 2 is
    not told when 1 exits. *)
Theorem link_unlink_race :
  let s := run_schedule [0; 1; 1; 0; 0; 2; 2]
    (mkSystem (mkTables ∅ ∅ ∅ [])
       [LinkOwn (from_raw 1) (from_raw 2); UnlinkOwn (from_raw 1) (from_raw 2); ExitTake (from_raw 1)]) in
  table (sys_tables s) (from_raw 2) = [from_raw 1] ∧ table (sys_tables s) (from_raw 1) = [] ∧
  sys_threads s = [Finished; Finished; Finished] ∧ told (sys_tables s) = [].
Proof. vm_compute. split_and!; reflexivity. Qed.
