(* ===== verification/References.v ===== *)
(** * References to an actor and the state they share

    An actor is reached through its [Context], its [ActorRef]s and its
    [ChildHandle]s ([concurrency/src/tasks/actor.rs], [threads/actor.rs],
    [child_handle.rs]), and by the entries that linked actors keep of it
    ([link.rs]). Each holds [Arc]s: the flags, slots, tables, channels and
    tokens of the actor are shared by all of them. The rest of the development
    has one [Cell] per actor and lets an id stand for a reference. Here the
    references are the records of the source, their fields locations in a
    heap, and the operations on handles and links act on what the fields point
    to. That they do to the heap what the operations of [Links] do to the
    cells is the theorem of this file. *)

From S2P Require Import Prelude Address Errors Mailbox Links.
Import Receiver.

Section references.
Context {M : Type} `{ThisNode}.

Abbreviation loc := N (only parsing).

(** ** The heap *)

(** [make_signal] captures four [Arc]s of the peer. *)
Record ExitSignalFn := mkSignalFn {
  sf_trap_exit : loc;
  sf_cancel : loc;
  sf_send_exit : loc;
  sf_linked_reason : loc
}.

Record LinkEntry := mkLinkEntry { le_peer_id : ActorId; le_signal : ExitSignalFn; le_peer_links : loc }.

(** A cancellation token, with the stop that its cancellation posts: in the
    threads runtime by the callback registered in [spawn], in the tasks
    runtime by a task. [tk_stop] is the mailbox it is posted to. *)
Record TokenVal := mkTokenVal { tk_cancelled : bool; tk_posted : bool; tk_rt : MailboxRuntime; tk_stop : loc }.

(** The channels of a mailbox, and whether the receiver still exists. *)
Record MailVal := mkMailVal { ml_rx : MailboxReceiver M; ml_open : bool }.

Record Heap := mkHeap {
  h_flags : gmap loc bool;
  h_slots : gmap loc (option ExitReason);
  h_tokens : gmap loc TokenVal;
  h_tables : gmap loc (list LinkEntry);
  h_mails : gmap loc MailVal
}.

Definition set_flag l b h := mkHeap (<[l := b]> (h_flags h)) (h_slots h) (h_tokens h) (h_tables h) (h_mails h).
Definition set_slot l r h := mkHeap (h_flags h) (<[l := r]> (h_slots h)) (h_tokens h) (h_tables h) (h_mails h).
Definition set_token l t h := mkHeap (h_flags h) (h_slots h) (<[l := t]> (h_tokens h)) (h_tables h) (h_mails h).
Definition set_table l es h := mkHeap (h_flags h) (h_slots h) (h_tokens h) (<[l := es]> (h_tables h)) (h_mails h).
Definition set_mail l m h := mkHeap (h_flags h) (h_slots h) (h_tokens h) (h_tables h) (<[l := m]> (h_mails h)).

(** ** References *)

Inductive CompletionRef := CompTasks (l : loc) | CompThreads (l : loc).

(** Of the fields that only a tasks actor with the cluster feature has,
    [remote_monitors] and [remote_links], see [RemoteContext]. The completion
    is a watch channel in the tasks runtime and a locked slot in the threads
    runtime. *)
Record ActorRef := mkActorRef {
  ar_id : ActorId;
  ar_mailbox : loc;
  ar_token : loc;
  ar_completion : CompletionRef;
  ar_monitors : loc;
  ar_trap_exit : loc;
  ar_links : loc;
  ar_linked_reason : loc;
  ar_requested_exit : loc;
  ar_skip_stopped : loc;
  ar_limits : loc
}.

Record Context := mkContext {
  cx_id : ActorId;
  cx_mailbox : loc;
  cx_token : loc;
  cx_completion : CompletionRef;
  cx_monitors : loc;
  cx_trap_exit : loc;
  cx_links : loc;
  cx_linked_reason : loc;
  cx_requested_exit : loc;
  cx_skip_stopped : loc;
  cx_limits : loc
}.

(** The closures [cancel], [send_exit] and [send_signal] are what they
    capture. *)
Record ChildHandle := mkChildHandle {
  ch_id : ActorId;
  ch_cancel : loc;
  ch_completion : CompletionRef;
  ch_trap_exit : loc;
  ch_links : loc;
  ch_linked_reason : loc;
  ch_send_exit : loc;
  ch_send_signal : loc;
  ch_requested_exit : loc;
  ch_skip_stopped : loc
}.

(** [Context::from_ref], [Context::actor_ref] *)
Definition from_ref (r : ActorRef) : Context :=
  mkContext (ar_id r) (ar_mailbox r) (ar_token r) (ar_completion r) (ar_monitors r) (ar_trap_exit r)
    (ar_links r) (ar_linked_reason r) (ar_requested_exit r) (ar_skip_stopped r) (ar_limits r).
Definition actor_ref (c : Context) : ActorRef :=
  mkActorRef (cx_id c) (cx_mailbox c) (cx_token c) (cx_completion c) (cx_monitors c) (cx_trap_exit c)
    (cx_links c) (cx_linked_reason c) (cx_requested_exit c) (cx_skip_stopped c) (cx_limits c).

(** [From<ActorRef<A>> for ChildHandle], [from_tasks], [from_threads] *)
Definition handle_of_ref (r : ActorRef) : ChildHandle :=
  mkChildHandle (ar_id r) (ar_token r) (ar_completion r) (ar_trap_exit r) (ar_links r) (ar_linked_reason r)
    (ar_mailbox r) (ar_mailbox r) (ar_requested_exit r) (ar_skip_stopped r).
(** [Context::child_handle] *)
Definition handle_of_context (c : Context) : ChildHandle := handle_of_ref (actor_ref c).

(** [PartialEq for ChildHandle] *)
Definition handle_eq (x y : ChildHandle) : bool := bool_decide (ch_id x = ch_id y).

(** ** Operations *)

Definition mail_send_stop (l : loc) h : Heap :=
  match h_mails h !! l with
  | Some m =>
      if ml_open m then
        let r := ml_rx m in
        set_mail l (mkMailVal (mkReceiver (user r) (signal r) (push () (stop r)) (supervision r)
          (user_closed r) (signal_closed r) (stop_closed r) (supervision_closed r)) true) h
      else h
  | None => h
  end.
Definition mail_send_exit (l : loc) (e : Exit) h : Heap :=
  match h_mails h !! l with
  | Some m =>
      if ml_open m then
        let r := ml_rx m in
        set_mail l (mkMailVal (mkReceiver (user r) (signal r) (stop r) (push e (supervision r))
          (user_closed r) (signal_closed r) (stop_closed r) (supervision_closed r)) true) h
      else h
  | None => h
  end.

(** [own_cancel_fn]: [token.cancel()]. *)
Definition token_cancel (l : loc) h : Heap :=
  match h_tokens h !! l with
  | Some t =>
      match tk_rt t with
      | Tasks => set_token l (mkTokenVal true (tk_posted t) (tk_rt t) (tk_stop t)) h
      | Threads =>
          let h' := set_token l (mkTokenVal true true (tk_rt t) (tk_stop t)) h in
          if tk_posted t then h' else mail_send_stop (tk_stop t) h'
      end
  | None => h
  end.

Definition ref_stop (x : ChildHandle) h : Heap := token_cancel (ch_cancel x) h.
Definition ref_shutdown (x : ChildHandle) h : Heap :=
  token_cancel (ch_cancel x) (set_slot (ch_requested_exit x) (Some Shutdown) h).
Definition ref_kill (x : ChildHandle) h : Heap :=
  token_cancel (ch_cancel x) (set_flag (ch_skip_stopped x) true (set_slot (ch_requested_exit x) (Some Kill) h)).

Definition comp_loc (c : CompletionRef) : loc := match c with CompTasks l | CompThreads l => l end.
Definition ref_exit_reason (x : ChildHandle) h : option ExitReason :=
  default None (h_slots h !! comp_loc (ch_completion x)).

(** [Context::trap_exit] *)
Definition ctx_trap_exit (b : bool) (c : Context) h : Heap := set_flag (cx_trap_exit c) b h.

(** [make_signal], and a call of the closure it returns. *)
Definition signal_of (x : ChildHandle) : ExitSignalFn :=
  mkSignalFn (ch_trap_exit x) (ch_cancel x) (ch_send_exit x) (ch_linked_reason x).

Definition fill_slot (l : loc) (r : ExitReason) h : Heap :=
  match h_slots h !! l with
  | Some None => set_slot l (Some r) h
  | _ => h
  end.

Definition run_signal (f : ExitSignalFn) (sender : ActorId) (r : ExitReason) h : Heap :=
  match r with
  | Kill => token_cancel (sf_cancel f) (fill_slot (sf_linked_reason f) Kill h)
  | _ =>
      let trapping := default false (h_flags h !! sf_trap_exit f) in
      if (match r with Normal => true | _ => false end) && negb trapping then h
      else if trapping then mail_send_exit (sf_send_exit f) (mkExit (local_addr sender) r) h
      else token_cancel (sf_cancel f) (fill_slot (sf_linked_reason f) r h)
  end.

Definition table_of (l : loc) h : list LinkEntry := default [] (h_tables h !! l).
Definition retain_not (p : ActorId) (l : loc) h : Heap :=
  set_table l (iter_filter (λ e, bool_decide (le_peer_id e ≠ p)) (table_of l h)) h.

(** One half of [register_link]: [any], then [push]. *)
Definition table_add (l : loc) (e : LinkEntry) h : Heap :=
  if existsb (λ x, bool_decide (le_peer_id x = le_peer_id e)) (table_of l h) then h
  else set_table l (table_of l h ++ [e]) h.

Definition ref_register_link (own_id : ActorId) (own_links : loc) (own_signal : ExitSignalFn)
    (peer_id : ActorId) (peer_links : loc) (peer_signal : ExitSignalFn) h : Heap :=
  table_add peer_links (mkLinkEntry own_id own_signal own_links)
    (table_add own_links (mkLinkEntry peer_id peer_signal peer_links) h).

Definition ref_take_self (own_id : ActorId) (peer_links : loc) h : bool * Heap :=
  let h' := retain_not own_id peer_links h in
  (bool_decide (length (table_of peer_links h) ≠ length (table_of peer_links h')), h').

Definition ref_link_handles (owner target : ChildHandle) h : Heap :=
  let h := ref_register_link (ch_id owner) (ch_links owner) (signal_of owner)
             (ch_id target) (ch_links target) (signal_of target) h in
  match ref_exit_reason target h with
  | Some reason =>
      let '(taken, h) := ref_take_self (ch_id owner) (ch_links target) h in
      if taken then run_signal (signal_of owner) (ch_id target) reason h else h
  | None => h
  end.

(** [ChildHandle::unlink], [Context::unlink] *)
Definition ref_unlink (own target : ChildHandle) h : Heap :=
  retain_not (ch_id own) (ch_links target) (retain_not (ch_id target) (ch_links own) h).

Definition ref_propagate_exit (own_id : ActorId) (own_links : loc) (r : ExitReason) h : Heap :=
  foldl (λ h e, run_signal (le_signal e) own_id r (retain_not own_id (le_peer_links e) h))
    (set_table own_links [] h) (table_of own_links h).

(** ** The system *)

(** The reference that [spawn] returned, the runtime of the actor and where
    its loop stands; [rf_next] is the next free location. *)
Record Spawned := mkSpawned { sp_ref : ActorRef; sp_rt : MailboxRuntime; sp_phase : Phase }.
Record RefSys := mkRefSys { rf_heap : Heap; rf_next : loc; rf_actors : gmap ActorId Spawned }.

Definition on_heap (f : Heap → Heap) (s : RefSys) : RefSys := mkRefSys (f (rf_heap s)) (rf_next s) (rf_actors s).

(** [ActorRef::spawn]: a new [Arc] for each field. *)
Definition new_ref (i : ActorId) (rt : MailboxRuntime) (n : loc) : ActorRef :=
  mkActorRef i n (n + 1)%N (match rt with Tasks => CompTasks (n + 2)%N | Threads => CompThreads (n + 2)%N end)
    (n + 3)%N (n + 4)%N (n + 5)%N (n + 6)%N (n + 7)%N (n + 8)%N (n + 9)%N.
Definition ref_spawn (i : ActorId) (rt : MailboxRuntime) (s : RefSys) : ActorRef * RefSys :=
  let n := rf_next s in
  let r := new_ref i rt n in
  let h := rf_heap s in
  let h := set_mail (ar_mailbox r) (mkMailVal channel true) h in
  let h := set_token (ar_token r) (mkTokenVal false false rt (ar_mailbox r)) h in
  let h := set_slot (comp_loc (ar_completion r)) None h in
  let h := set_flag (ar_trap_exit r) false h in
  let h := set_table (ar_links r) [] h in
  let h := set_slot (ar_linked_reason r) None h in
  let h := set_slot (ar_requested_exit r) None h in
  let h := set_flag (ar_skip_stopped r) false h in
  (r, mkRefSys h (n + 10)%N (<[i := mkSpawned r rt Starting]> (rf_actors s))).

(** ** The cells that a heap stands for *)

Definition token_at (l : loc) h : TokenVal := default (mkTokenVal false false Tasks 0) (h_tokens h !! l).
Definition mail_at (l : loc) h : MailVal := default (mkMailVal channel false) (h_mails h !! l).
Definition slot_at (l : loc) h : option ExitReason := default None (h_slots h !! l).
Definition flag_at (l : loc) h : bool := default false (h_flags h !! l).

Definition read_cell h (a : Spawned) : Cell M :=
  let r := sp_ref a in
  mkCell (sp_rt a) (flag_at (ar_trap_exit r) h) (le_peer_id <$> table_of (ar_links r) h)
    (slot_at (ar_linked_reason r) h) (slot_at (ar_requested_exit r) h) (flag_at (ar_skip_stopped r) h)
    (tk_cancelled (token_at (ar_token r) h)) (tk_posted (token_at (ar_token r) h))
    (ml_rx (mail_at (ar_mailbox r) h)) (ml_open (mail_at (ar_mailbox r) h))
    (slot_at (comp_loc (ar_completion r)) h) (sp_phase a).

Definition cells (s : RefSys) : gmap ActorId (Cell M) := read_cell (rf_heap s) <$> rf_actors s.

(** ** References that belong to the system *)

(** A handle to an actor was made from one of its references; a context
    likewise; an entry of a link table from a handle. *)
Definition handle_ok (s : RefSys) (x : ChildHandle) : Prop :=
  ∃ a, rf_actors s !! ch_id x = Some a ∧ x = handle_of_ref (sp_ref a).
Definition context_ok (s : RefSys) (c : Context) : Prop :=
  ∃ a, rf_actors s !! cx_id c = Some a ∧ c = from_ref (sp_ref a).
Definition entry_ok (s : RefSys) (e : LinkEntry) : Prop :=
  ∃ a, rf_actors s !! le_peer_id e = Some a ∧
    e = mkLinkEntry (le_peer_id e) (signal_of (handle_of_ref (sp_ref a))) (ar_links (sp_ref a)).

Definition locs (r : ActorRef) : list loc :=
  [ar_mailbox r; ar_token r; comp_loc (ar_completion r); ar_monitors r; ar_trap_exit r; ar_links r;
   ar_linked_reason r; ar_requested_exit r; ar_skip_stopped r; ar_limits r].

(** What the rest of the program relies on: the locations of an actor are its
    own, allocated, and told apart; its token posts to its mailbox. *)
Record refs_ok (s : RefSys) : Prop := {
  ok_id i a : rf_actors s !! i = Some a → ar_id (sp_ref a) = i;
  ok_locs i a : rf_actors s !! i = Some a → NoDup (locs (sp_ref a));
  ok_own i j a b l : rf_actors s !! i = Some a → rf_actors s !! j = Some b →
    l ∈ locs (sp_ref a) → l ∈ locs (sp_ref b) → i = j;
  ok_bound i a l : rf_actors s !! i = Some a → l ∈ locs (sp_ref a) → (l < rf_next s)%N;
  ok_mail i a : rf_actors s !! i = Some a → is_Some (h_mails (rf_heap s) !! ar_mailbox (sp_ref a));
  ok_linked i a : rf_actors s !! i = Some a → is_Some (h_slots (rf_heap s) !! ar_linked_reason (sp_ref a));
  ok_token i a : rf_actors s !! i = Some a →
    ∃ t, h_tokens (rf_heap s) !! ar_token (sp_ref a) = Some t ∧ tk_rt t = sp_rt a ∧
      tk_stop t = ar_mailbox (sp_ref a);
  ok_entries i a e : rf_actors s !! i = Some a → e ∈ table_of (ar_links (sp_ref a)) (rf_heap s) → entry_ok s e
}.
(** ** Programs that hold references *)

(** A program gets its references from [spawn] and from each other. *)
Inductive Ref := RefA (r : ActorRef) | RefC (c : Context) | RefH (x : ChildHandle).
Inductive RefKind := KActorRef | KContext | KChildHandle.
Definition erase (r : Ref) : RefKind * ActorId :=
  match r with
  | RefA r => (KActorRef, ar_id r)
  | RefC c => (KContext, cx_id c)
  | RefH x => (KChildHandle, ch_id x)
  end.

(** Operations name the references by position. [PostStop] is the task of
    [ActorRef::spawn] that waits for the token; [Propagate] and [Complete] are
    the end of the actor's loop, which works with the context of [spawn]. *)
Inductive RefOp :=
  | Spawn (i : ActorId) (rt : MailboxRuntime)
  | ToContext (k : nat) | ToRef (k : nat) | ToHandle (k : nat)
  | Stop (k : nat) | ShutdownOp (k : nat) | KillOp (k : nat)
  | TrapExit (k : nat) (b : bool)
  | Link (k m : nat) | Unlink (k m : nat)
  | PostStop (k : nat)
  | Propagate (k : nat) (r : ExitReason) | Complete (k : nat) (r : ExitReason).

(** The handle by which a context or a handle acts: [Context::link] makes it
    with [child_handle]. *)
Definition acting (r : Ref) : option ChildHandle :=
  match r with RefA _ => None | RefC c => Some (handle_of_context c) | RefH x => Some x end.

(** [token.cancelled().await] and [send_stop_tasks] *)
Definition token_post (l : loc) h : Heap :=
  match h_tokens h !! l with
  | Some t =>
      if tk_cancelled t && negb (tk_posted t) then
        mail_send_stop (tk_stop t) (set_token l (mkTokenVal true true (tk_rt t) (tk_stop t)) h)
      else h
  | None => h
  end.

Definition Program : Type := RefSys * list Ref.
Definition ref_do (p : Program) (o : RefOp) : Program :=
  let '(s, rs) := p in
  match o with
  | Spawn i rt => let '(r, s') := ref_spawn i rt s in (s', rs ++ [RefA r; RefC (from_ref r)])
  | ToContext k => match rs !! k with Some (RefA r) => (s, rs ++ [RefC (from_ref r)]) | _ => p end
  | ToRef k => match rs !! k with Some (RefC c) => (s, rs ++ [RefA (actor_ref c)]) | _ => p end
  | ToHandle k =>
      match rs !! k with
      | Some (RefA r) => (s, rs ++ [RefH (handle_of_ref r)])
      | Some (RefC c) => (s, rs ++ [RefH (handle_of_context c)])
      | Some (RefH x) => (s, rs ++ [RefH x])
      | None => p
      end
  | Stop k => match rs !! k ≫= acting with Some x => (on_heap (ref_stop x) s, rs) | None => p end
  | ShutdownOp k => match rs !! k with Some (RefH x) => (on_heap (ref_shutdown x) s, rs) | _ => p end
  | KillOp k => match rs !! k with Some (RefH x) => (on_heap (ref_kill x) s, rs) | _ => p end
  | TrapExit k b => match rs !! k with Some (RefC c) => (on_heap (ctx_trap_exit b c) s, rs) | _ => p end
  | Link k m =>
      match rs !! k ≫= acting, rs !! m with
      | Some x, Some (RefH y) => (on_heap (ref_link_handles x y) s, rs)
      | _, _ => p
      end
  | Unlink k m =>
      match rs !! k ≫= acting, rs !! m with
      | Some x, Some (RefH y) => (on_heap (ref_unlink x y) s, rs)
      | _, _ => p
      end
  | PostStop k => match rs !! k with Some (RefC c) => (on_heap (token_post (cx_token c)) s, rs) | _ => p end
  | Propagate k v =>
      match rs !! k with Some (RefC c) => (on_heap (ref_propagate_exit (cx_id c) (cx_links c) v) s, rs) | _ => p end
  | Complete k v =>
      match rs !! k with Some (RefC c) => (on_heap (set_slot (comp_loc (cx_completion c)) (Some v)) s, rs) | _ => p end
  end.
End references.
Arguments MailVal M : clear implicits.
Arguments Heap M : clear implicits.
Arguments RefSys M : clear implicits.

(** ** One write *)

Section writes.
Context {M : Type} `{ThisNode}.
Implicit Types (s : RefSys M) (h : Heap M) (c : Cell M).
Implicit Types (a b : Spawned) (w : gmap ActorId (Cell M)).

Ltac reads := unfold read_cell, flag_at, slot_at, token_at, mail_at, table_of, set_flag, set_slot,
  set_token, set_table, set_mail; simpl.

(** The cell of an actor that does not have the location [l]. *)
Ltac apart := unfold locs in *; repeat match goal with
  | H : _ ∉ _ :: _ |- _ => apply not_elem_of_cons in H as [? H]
  | H : NoDup (_ :: _) |- _ => apply NoDup_cons in H as [? H]
  end.
Ltac ne := intros Hl; apart; reads; rewrite ?lookup_insert_ne by done; reflexivity.
Lemma read_flag_ne l v h b : l ∉ locs (sp_ref b) → read_cell (set_flag l v h) b = read_cell h b.
Proof. ne. Qed.
Lemma read_slot_ne l v h b : l ∉ locs (sp_ref b) → read_cell (set_slot l v h) b = read_cell h b.
Proof. ne. Qed.
Lemma read_token_ne l v h b : l ∉ locs (sp_ref b) → read_cell (set_token l v h) b = read_cell h b.
Proof. ne. Qed.
Lemma read_table_ne l v h b : l ∉ locs (sp_ref b) → read_cell (set_table l v h) b = read_cell h b.
Proof. ne. Qed.
Lemma read_mail_ne l v h b : l ∉ locs (sp_ref b) → read_cell (set_mail l v h) b = read_cell h b.
Proof. ne. Qed.

(** The cell of the actor itself. *)
Ltac own := intros Hnd; apart; reads; rewrite ?lookup_insert_eq, ?lookup_insert_ne by done; reflexivity.
Lemma read_trap v h a :
  NoDup (locs (sp_ref a)) → read_cell (set_flag (ar_trap_exit (sp_ref a)) v h) a = set_trap_exit v (read_cell h a).
Proof. own. Qed.
Lemma read_skip v h a :
  NoDup (locs (sp_ref a)) → read_cell (set_flag (ar_skip_stopped (sp_ref a)) v h) a = set_skip_stopped v (read_cell h a).
Proof. own. Qed.
Lemma read_linked v h a :
  NoDup (locs (sp_ref a)) → read_cell (set_slot (ar_linked_reason (sp_ref a)) v h) a = set_linked_reason v (read_cell h a).
Proof. own. Qed.
Lemma read_requested v h a :
  NoDup (locs (sp_ref a)) → read_cell (set_slot (ar_requested_exit (sp_ref a)) v h) a = set_requested v (read_cell h a).
Proof. own. Qed.
Lemma read_table v h a :
  read_cell (set_table (ar_links (sp_ref a)) v h) a = set_links (le_peer_id <$> v) (read_cell h a).
Proof. reads. by rewrite lookup_insert_eq. Qed.
Lemma read_token v h a :
  read_cell (set_token (ar_token (sp_ref a)) v h) a =
    set_stop_posted (tk_posted v) (set_cancelled (tk_cancelled v) (read_cell h a)).
Proof. reads. by rewrite lookup_insert_eq. Qed.
Lemma read_mail v h a :
  read_cell (set_mail (ar_mailbox (sp_ref a)) v h) a = set_rx_open (ml_open v) (set_mailbox (ml_rx v) (read_cell h a)).
Proof. reads. by rewrite lookup_insert_eq. Qed.

(** A function on the heap does what [f] does to the cells. *)
Definition simulates (g : Heap M → Heap M) (f : gmap ActorId (Cell M) → gmap ActorId (Cell M)) s : Prop :=
  refs_ok (on_heap g s) ∧ cells (on_heap g s) = f (cells s).

Lemma simulates_id s : refs_ok s → simulates id id s.
Proof. destruct s. by split. Qed.

Lemma simulates_comp g1 g2 f1 f2 s :
  simulates g1 f1 s → (refs_ok (on_heap g1 s) → simulates g2 f2 (on_heap g1 s)) →
  simulates (g2 ∘ g1) (f2 ∘ f1) s.
Proof. intros [H1 E1] H2. destruct (H2 H1) as [H3 E3]. split; [done|]. simpl. rewrite <- E1. exact E3. Qed.

(** Writes to the locations of one actor. *)
Lemma cells_write g f i a s :
  rf_actors s !! i = Some a →
  (∀ j b, j ≠ i → rf_actors s !! j = Some b → read_cell (g (rf_heap s)) b = read_cell (rf_heap s) b) →
  read_cell (g (rf_heap s)) a = f (read_cell (rf_heap s) a) → cells (on_heap g s) = alter f i (cells s).
Proof.
  intros Hi Hoth Hown. apply map_eq. intros j. unfold cells, on_heap. simpl.
  rewrite lookup_alter, !lookup_fmap. case_decide as Hij.
  - subst j. rewrite Hi. simpl. by rewrite Hown.
  - destruct (rf_actors s !! j) as [b|] eqn:Hj; [|done]. simpl. f_equal. by apply (Hoth j).
Qed.

Lemma not_own s i j a b l :
  refs_ok s → rf_actors s !! i = Some a → rf_actors s !! j = Some b → j ≠ i → l ∈ locs (sp_ref a) →
  l ∉ locs (sp_ref b).
Proof. intros Hs Hi Hj Hne Ha Hb. apply Hne. by apply (ok_own _ Hs j i b a l). Qed.

(** The parts of the invariant that speak of the heap. *)
Lemma refs_ok_heap s h :
  refs_ok s →
  (∀ l, is_Some (h_mails (rf_heap s) !! l) → is_Some (h_mails h !! l)) →
  (∀ l, is_Some (h_slots (rf_heap s) !! l) → is_Some (h_slots h !! l)) →
  (∀ l t, h_tokens (rf_heap s) !! l = Some t →
     ∃ t', h_tokens h !! l = Some t' ∧ tk_rt t' = tk_rt t ∧ tk_stop t' = tk_stop t) →
  (∀ i a e, rf_actors s !! i = Some a → e ∈ table_of (ar_links (sp_ref a)) h →
     e ∈ table_of (ar_links (sp_ref a)) (rf_heap s) ∨ entry_ok s e) →
  refs_ok (mkRefSys h (rf_next s) (rf_actors s)).
Proof.
  intros [H1 H2 H3 H4 H5 H6 H7 H8] Hm Hsl Ht He. split; simpl; try done.
  - intros i a Hi. by apply Hm, (H5 i).
  - intros i a Hi. by apply Hsl, (H6 i).
  - intros i a Hi. destruct (H7 i a Hi) as (t & Htk & Hrt & Hst).
    destruct (Ht _ _ Htk) as (t' & ? & ? & ?). exists t'. split_and!; congruence.
  - intros i a e Hi Hin. destruct (He i a e Hi Hin) as [Hold|Hok]; [by apply (H8 i a)|done].
Qed.

Lemma keep_some {A} l k (v : A) (m : gmap N A) : is_Some (m !! k) → is_Some (<[l := v]> m !! k).
Proof. intros Hk. rewrite lookup_insert. by case_decide. Qed.

Lemma flag_ok l v s : refs_ok s → refs_ok (on_heap (set_flag l v) s).
Proof. intros Hs. apply refs_ok_heap; try done; [naive_solver|]. intros i a e _ Hin. by left. Qed.
Lemma slot_ok l v s : refs_ok s → refs_ok (on_heap (set_slot l v) s).
Proof.
  intros Hs. apply refs_ok_heap; try done; [by intros k; apply keep_some|naive_solver|].
  intros i a e _ Hin. by left.
Qed.
Lemma mail_ok l v s : refs_ok s → refs_ok (on_heap (set_mail l v) s).
Proof.
  intros Hs. apply refs_ok_heap; try done; [by intros k; apply keep_some|naive_solver|].
  intros i a e _ Hin. by left.
Qed.
Lemma token_ok l t v s :
  refs_ok s → h_tokens (rf_heap s) !! l = Some t → tk_rt v = tk_rt t → tk_stop v = tk_stop t →
  refs_ok (on_heap (set_token l v) s).
Proof.
  intros Hs Hl Hr Ht. apply refs_ok_heap; try done; [|intros i a e _ Hin; by left].
  intros k t' Hk. simpl. rewrite lookup_insert. case_decide as Hlk; [subst; simplify_eq; by exists v|eauto].
Qed.
Lemma table_ok l es s :
  refs_ok s → Forall (entry_ok s) es → refs_ok (on_heap (set_table l es) s).
Proof.
  intros Hs Hes. apply refs_ok_heap; try done; [naive_solver|].
  intros i a e Hi. unfold table_of, set_table. simpl. rewrite lookup_insert. case_decide; [|by left].
  simpl. intros He. right. by apply (proj1 (Forall_forall _ _) Hes).
Qed.

(** ** The operations of a handle *)

Section one.
Context (s : RefSys M) (i : ActorId) (a : Spawned).
Hypotheses (Hs : refs_ok s) (Hi : rf_actors s !! i = Some a).
Let r := sp_ref a.

Lemma sim_flag_trap v : simulates (set_flag (ar_trap_exit r) v) (alter (set_trap_exit v) i) s.
Proof.
  split; [by apply flag_ok|]. apply (cells_write _ _ _ a); [done| |by apply read_trap, (ok_locs _ Hs i)].
  intros j b Hne Hj. apply read_flag_ne. apply (not_own s i j a b); try done. unfold locs. set_solver.
Qed.
Lemma sim_flag_skip v : simulates (set_flag (ar_skip_stopped r) v) (alter (set_skip_stopped v) i) s.
Proof.
  split; [by apply flag_ok|]. apply (cells_write _ _ _ a); [done| |by apply read_skip, (ok_locs _ Hs i)].
  intros j b Hne Hj. apply read_flag_ne. apply (not_own s i j a b); try done. unfold locs. set_solver.
Qed.
Lemma sim_slot_linked v : simulates (set_slot (ar_linked_reason r) v) (alter (set_linked_reason v) i) s.
Proof.
  split; [by apply slot_ok|]. apply (cells_write _ _ _ a); [done| |by apply read_linked, (ok_locs _ Hs i)].
  intros j b Hne Hj. apply read_slot_ne. apply (not_own s i j a b); try done. unfold locs. set_solver.
Qed.
Lemma sim_slot_requested v : simulates (set_slot (ar_requested_exit r) v) (alter (set_requested v) i) s.
Proof.
  split; [by apply slot_ok|]. apply (cells_write _ _ _ a); [done| |by apply read_requested, (ok_locs _ Hs i)].
  intros j b Hne Hj. apply read_slot_ne. apply (not_own s i j a b); try done. unfold locs. set_solver.
Qed.
Lemma sim_table es :
  Forall (entry_ok s) es → simulates (set_table (ar_links r) es) (alter (set_links (le_peer_id <$> es)) i) s.
Proof.
  intros Hes. split; [by apply table_ok|]. apply (cells_write _ _ _ a); [done| |apply read_table].
  intros j b Hne Hj. apply read_table_ne. apply (not_own s i j a b); try done. unfold locs. set_solver.
Qed.
Lemma sim_mail v :
  simulates (set_mail (ar_mailbox r) v) (alter (set_rx_open (ml_open v) ∘ set_mailbox (ml_rx v)) i) s.
Proof.
  split; [by apply mail_ok|]. apply (cells_write _ _ _ a); [done| |apply read_mail].
  intros j b Hne Hj. apply read_mail_ne. apply (not_own s i j a b); try done. unfold locs. set_solver.
Qed.

(** A push on a channel of the actor's mailbox. *)
Lemma sim_send_stop : simulates (mail_send_stop (ar_mailbox r)) (alter (snd ∘ send_stop) i) s.
Proof.
  destruct (ok_mail _ Hs i a Hi) as [m Hm]. destruct (ml_open m) eqn:Ho.
  - set (m' := mkMailVal (mkReceiver (user (ml_rx m)) (signal (ml_rx m)) (push () (stop (ml_rx m)))
      (supervision (ml_rx m)) (user_closed (ml_rx m)) (signal_closed (ml_rx m)) (stop_closed (ml_rx m))
      (supervision_closed (ml_rx m))) true).
    assert (on_heap (mail_send_stop (ar_mailbox r)) s = on_heap (set_mail (ar_mailbox r) m') s) as He.
    { unfold on_heap, mail_send_stop. fold r in Hm. by rewrite Hm, Ho. }
    unfold simulates. rewrite He. split; [by apply mail_ok|]. apply (cells_write _ _ _ a); [done|..].
    + intros j b Hne Hj. apply read_mail_ne. apply (not_own s i j a b); try done. unfold locs. set_solver.
    + unfold r. rewrite read_mail. simpl. unfold send_stop, read_cell, mail_at. simpl. rewrite Hm. simpl. by rewrite Ho.
  - assert (on_heap (mail_send_stop (ar_mailbox r)) s = on_heap id s) as He.
    { unfold on_heap, mail_send_stop. fold r in Hm. by rewrite Hm, Ho. }
    unfold simulates. rewrite He. split; [by destruct s|]. apply (cells_write _ _ _ a); [done|done|].
    simpl. unfold send_stop, read_cell, mail_at. simpl. rewrite Hm. simpl. by rewrite Ho.
Qed.
Lemma sim_send_exit e : simulates (mail_send_exit (ar_mailbox r) e) (alter (snd ∘ send_supervision e) i) s.
Proof.
  destruct (ok_mail _ Hs i a Hi) as [m Hm]. destruct (ml_open m) eqn:Ho.
  - set (m' := mkMailVal (mkReceiver (user (ml_rx m)) (signal (ml_rx m)) (stop (ml_rx m))
      (push e (supervision (ml_rx m))) (user_closed (ml_rx m)) (signal_closed (ml_rx m)) (stop_closed (ml_rx m))
      (supervision_closed (ml_rx m))) true).
    assert (on_heap (mail_send_exit (ar_mailbox r) e) s = on_heap (set_mail (ar_mailbox r) m') s) as He.
    { unfold on_heap, mail_send_exit. fold r in Hm. by rewrite Hm, Ho. }
    unfold simulates. rewrite He. split; [by apply mail_ok|]. apply (cells_write _ _ _ a); [done|..].
    + intros j b Hne Hj. apply read_mail_ne. apply (not_own s i j a b); try done. unfold locs. set_solver.
    + unfold r. rewrite read_mail. simpl. unfold send_supervision, read_cell, mail_at. simpl. rewrite Hm. simpl. by rewrite Ho.
  - assert (on_heap (mail_send_exit (ar_mailbox r) e) s = on_heap id s) as He.
    { unfold on_heap, mail_send_exit. fold r in Hm. by rewrite Hm, Ho. }
    unfold simulates. rewrite He. split; [by destruct s|]. apply (cells_write _ _ _ a); [done|done|].
    simpl. unfold send_supervision, read_cell, mail_at. simpl. rewrite Hm. simpl. by rewrite Ho.
Qed.
Lemma sim_token t v :
  h_tokens (rf_heap s) !! ar_token r = Some t → tk_rt v = tk_rt t → tk_stop v = tk_stop t →
  simulates (set_token (ar_token r) v) (alter (set_stop_posted (tk_posted v) ∘ set_cancelled (tk_cancelled v)) i) s.
Proof.
  intros Ht Hr Hst. split; [by eapply token_ok|]. apply (cells_write _ _ _ a); [done| |apply read_token].
  intros j b Hne Hj. apply read_token_ne. apply (not_own s i j a b); try done. unfold locs. set_solver.
Qed.
End one.

(** Functions that agree on the heap at hand. *)
Lemma simulates_ext g g' f f' s :
  g (rf_heap s) = g' (rf_heap s) → f (cells s) = f' (cells s) → simulates g' f' s → simulates g f s.
Proof. intros Hg Hf [H1 H2]. unfold simulates, on_heap in *. rewrite Hg, Hf. done. Qed.

Lemma alter_cells f f' i a s :
  rf_actors s !! i = Some a → f (read_cell (rf_heap s) a) = f' (read_cell (rf_heap s) a) →
  alter f i (cells s) = alter f' i (cells s).
Proof.
  intros Hi He. apply map_eq. intros j. rewrite !lookup_alter. case_decide as Hij; [|done]. subst j.
  unfold cells. rewrite lookup_fmap, Hi. simpl. by rewrite He.
Qed.

Lemma sim_cancel s i a :
  refs_ok s → rf_actors s !! i = Some a → simulates (token_cancel (ar_token (sp_ref a))) (alter cancel i) s.
Proof.
  intros Hs Hi. destruct (ok_token _ Hs i a Hi) as (t & Ht & Hr & Hst).
  assert (tk_posted t = c_stop_posted (read_cell (rf_heap s) a)) as Hp.
  { unfold read_cell, token_at. simpl. by rewrite Ht. }
  unfold token_cancel. destruct (sp_rt a) eqn:Hrt.
  - apply (simulates_ext _ (set_token (ar_token (sp_ref a)) (mkTokenVal true (tk_posted t) (tk_rt t) (tk_stop t)))
      _ (alter (set_stop_posted (tk_posted t) ∘ set_cancelled true) i)).
    + by rewrite Ht, Hr.
    + apply (alter_cells _ _ _ a); [done|]. rewrite Hp. unfold cancel, read_cell. simpl. by rewrite Hrt.
    + by apply (sim_token s i a Hs Hi t).
  - set (v := mkTokenVal true true (tk_rt t) (tk_stop t)).
    pose proof (sim_token s i a Hs Hi t v Ht eq_refl eq_refl) as Hv. destruct (tk_posted t) eqn:Hpt.
    + apply (simulates_ext _ (set_token (ar_token (sp_ref a)) v)
        _ (alter (set_stop_posted true ∘ set_cancelled true) i)); [by unfold v; rewrite Ht, Hr, Hpt| |exact Hv].
      apply (alter_cells _ _ _ a); [done|]. unfold cancel, post_stop, read_cell. simpl.
      rewrite Hrt. unfold token_at. rewrite Ht. simpl. by rewrite Hpt.
    + apply (simulates_ext _ (mail_send_stop (ar_mailbox (sp_ref a)) ∘ set_token (ar_token (sp_ref a)) v)
        _ (alter (snd ∘ send_stop) i ∘ alter (set_stop_posted true ∘ set_cancelled true) i)).
      * simpl. unfold v. by rewrite Ht, Hr, Hpt, Hst.
      * simpl. rewrite alter_alter_eq. apply (alter_cells _ _ _ a); [done|].
        unfold cancel, post_stop, read_cell. simpl. rewrite Hrt. unfold token_at. rewrite Ht. simpl. rewrite Hpt.
        unfold send_stop. simpl. by destruct (ml_open _).
      * apply simulates_comp; [exact Hv|]. intros Hok. by apply (sim_send_stop _ i a).
Qed.

(** ** Signals and links *)

Lemma sim_fill v s i a :
  refs_ok s → rf_actors s !! i = Some a →
  simulates (fill_slot (ar_linked_reason (sp_ref a)) v)
    (alter (λ c, match c_linked_reason c with None => set_linked_reason (Some v) c | Some _ => c end) i) s.
Proof.
  intros Hs Hi. destruct (ok_linked _ Hs i a Hi) as [o Ho].
  assert (c_linked_reason (read_cell (rf_heap s) a) = o) as Hc.
  { unfold read_cell, slot_at. simpl. by rewrite Ho. }
  unfold fill_slot. destruct o as [r|].
  - apply (simulates_ext _ id _ id); [by rewrite Ho| |by apply simulates_id]. simpl.
    rewrite (alter_cells _ id i a s Hi); [|by rewrite Hc]. apply alter_id. done.
  - apply (simulates_ext _ (set_slot (ar_linked_reason (sp_ref a)) (Some v)) _ (alter (set_linked_reason (Some v)) i));
      [by rewrite Ho| |by apply sim_slot_linked].
    apply (alter_cells _ _ i a s Hi). by rewrite Hc.
Qed.

Lemma sim_record v s i a :
  refs_ok s → rf_actors s !! i = Some a →
  simulates (token_cancel (ar_token (sp_ref a)) ∘ fill_slot (ar_linked_reason (sp_ref a)) v)
    (alter (record_and_cancel v) i) s.
Proof.
  intros Hs Hi. eapply (simulates_ext _ _ _ (alter cancel i ∘ _)); [reflexivity| |
    apply simulates_comp; [by apply sim_fill|intros Hok; by apply sim_cancel]].
  simpl. by rewrite alter_alter_eq.
Qed.

Lemma sim_signal sender v s i a :
  refs_ok s → rf_actors s !! i = Some a →
  simulates (run_signal (signal_of (handle_of_ref (sp_ref a))) sender v) (alter (exit_signal sender v) i) s.
Proof.
  intros Hs Hi. assert (∃ b : bool, c_trap_exit (read_cell (rf_heap s) a) = b ∧
    default false (h_flags (rf_heap s) !! ar_trap_exit (sp_ref a)) = b) as (b & Hc & Hb) by (by eexists).
  destruct (decide (v = Kill)) as [->|Hk]; [by apply sim_record|].
  destruct (bool_decide (v = Normal) && negb b) eqn:Hn; [|destruct b].
  - apply andb_true_iff in Hn as [->%bool_decide_eq_true Hn]. apply negb_true_iff in Hn as ->.
    apply (simulates_ext _ id _ id); [by simpl; rewrite Hb| |by apply simulates_id]. simpl.
    rewrite (alter_cells _ id i a s Hi); [by apply alter_id|]. unfold exit_signal. by rewrite Hc.
  - apply (simulates_ext _ (mail_send_exit (ar_mailbox (sp_ref a)) (mkExit (local_addr sender) v))
      _ (alter (snd ∘ send_supervision (mkExit (local_addr sender) v)) i)); [| |by apply sim_send_exit].
    + unfold run_signal. simpl. rewrite Hb. by destruct v.
    + apply (alter_cells _ _ i a s Hi). unfold exit_signal. rewrite Hc. by destruct v.
  - apply (simulates_ext _ (token_cancel (ar_token (sp_ref a)) ∘ fill_slot (ar_linked_reason (sp_ref a)) v)
      _ (alter (record_and_cancel v) i)); [| |by apply sim_record].
    + unfold run_signal. simpl. rewrite Hb. by destruct v.
    + apply (alter_cells _ _ i a s Hi). unfold exit_signal. rewrite Hc. by destruct v.
Qed.

Lemma fmap_retain p (es : list LinkEntry) :
  le_peer_id <$> iter_filter (λ e, bool_decide (le_peer_id e ≠ p)) es =
  iter_filter (λ e, bool_decide (e ≠ p)) (le_peer_id <$> es).
Proof. induction es as [|e es IH]; [done|]. csimpl. case_bool_decide; csimpl; by rewrite IH. Qed.

Lemma entries_ok s i a :
  refs_ok s → rf_actors s !! i = Some a → Forall (entry_ok s) (table_of (ar_links (sp_ref a)) (rf_heap s)).
Proof. intros Hs Hi. apply Forall_forall. intros e He. by apply (ok_entries _ Hs i a). Qed.

Lemma sim_retain p s i a :
  refs_ok s → rf_actors s !! i = Some a →
  simulates (retain_not p (ar_links (sp_ref a))) (alter (remove_link p) i) s.
Proof.
  intros Hs Hi. eapply simulates_ext; [reflexivity| |apply (sim_table s i a Hs Hi)].
  - apply (alter_cells _ _ i a s Hi). unfold remove_link. rewrite fmap_retain. reflexivity.
  - apply Forall_forall. intros e [He _]%elem_of_iter_filter. by apply (ok_entries _ Hs i a).
Qed.

Lemma existsb_peer p (es : list LinkEntry) :
  existsb (λ x, bool_decide (le_peer_id x = p)) es = bool_decide (p ∈ le_peer_id <$> es).
Proof.
  induction es as [|e es IH]; [done|]. csimpl. rewrite IH.
  apply Bool.eq_iff_eq_true. rewrite orb_true_iff, !bool_decide_eq_true, elem_of_cons. naive_solver.
Qed.

Lemma sim_add e s i a :
  refs_ok s → rf_actors s !! i = Some a → entry_ok s e →
  simulates (table_add (ar_links (sp_ref a)) e) (alter (add_link (le_peer_id e)) i) s.
Proof.
  intros Hs Hi He.
  assert (c_links (read_cell (rf_heap s) a) = le_peer_id <$> table_of (ar_links (sp_ref a)) (rf_heap s)) as Hc by done.
  unfold table_add. set (es := table_of (ar_links (sp_ref a)) (rf_heap s)) in *.
  destruct (existsb (λ x, bool_decide (le_peer_id x = le_peer_id e)) es) eqn:Hex.
  - apply (simulates_ext _ id _ id); [by fold es; rewrite Hex| |by apply simulates_id]. simpl.
    rewrite (alter_cells _ id i a s Hi); [by apply alter_id|]. unfold add_link. rewrite Hc, <- existsb_peer.
    by rewrite Hex.
  - apply (simulates_ext _ (set_table (ar_links (sp_ref a)) (es ++ [e])) _
      (alter (set_links (le_peer_id <$> es ++ [e])) i)); [by fold es; rewrite Hex| |].
    + apply (alter_cells _ _ i a s Hi). unfold add_link. rewrite Hc, <- existsb_peer, Hex. by rewrite fmap_app.
    + apply (sim_table s i a Hs Hi). apply Forall_app. split; [by apply (entries_ok s i)|]. by apply Forall_singleton.
Qed.

(** *** Two actors *)

Lemma handle_entry s x b :
  rf_actors s !! ch_id x = Some b → x = handle_of_ref (sp_ref b) →
  entry_ok s (mkLinkEntry (ch_id x) (signal_of x) (ch_links x)).
Proof. intros Hb Hx. exists b. simpl. split; [done|]. rewrite <- Hx. f_equal. by rewrite Hx. Qed.

Lemma sim_register s x y a b :
  refs_ok s → rf_actors s !! ch_id x = Some a → x = handle_of_ref (sp_ref a) →
  rf_actors s !! ch_id y = Some b → y = handle_of_ref (sp_ref b) →
  simulates (ref_register_link (ch_id x) (ch_links x) (signal_of x) (ch_id y) (ch_links y) (signal_of y))
    (register_link (ch_id x) (ch_id y)) s.
Proof.
  intros Hs Ha Hx Hb Hy.
  pose proof (handle_entry s x a Ha Hx) as Hex. pose proof (handle_entry s y b Hb Hy) as Hey.
  assert (ch_links x = ar_links (sp_ref a)) as Hlx by (by rewrite Hx).
  assert (ch_links y = ar_links (sp_ref b)) as Hly by (by rewrite Hy).
  eapply (simulates_ext _ (table_add (ar_links (sp_ref b)) (mkLinkEntry (ch_id x) (signal_of x) (ch_links x)) ∘
    table_add (ar_links (sp_ref a)) (mkLinkEntry (ch_id y) (signal_of y) (ch_links y)))
    _ (alter (add_link (ch_id x)) (ch_id y) ∘ alter (add_link (ch_id y)) (ch_id x))).
  - unfold ref_register_link. simpl. by rewrite Hlx, Hly.
  - done.
  - apply simulates_comp; [by apply (sim_add _ s (ch_id x) a Hs Ha Hey)|].
    intros Hok. by apply (sim_add (mkLinkEntry (ch_id x) _ _) _ (ch_id y) b).
Qed.

(** What a reference reads is what its cell holds. *)
Lemma read_exit_reason s x b :
  rf_actors s !! ch_id x = Some b → x = handle_of_ref (sp_ref b) →
  ref_exit_reason x (rf_heap s) = exit_reason (ch_id x) (cells s).
Proof.
  intros Hb Hx. unfold exit_reason, cells. rewrite lookup_fmap, Hb. simpl. unfold ref_exit_reason, slot_at.
  by rewrite Hx.
Qed.

(** Whether [take_self_from_peer_table] has found an entry. *)
Lemma taken_spec p s b :
  bool_decide (length (table_of (ar_links (sp_ref b)) (rf_heap s)) ≠
    length (table_of (ar_links (sp_ref b)) (rf_heap (on_heap (retain_not p (ar_links (sp_ref b))) s)))) =
  bool_decide (length (c_links (read_cell (rf_heap s) b)) ≠ length (c_links (remove_link p (read_cell (rf_heap s) b)))).
Proof.
  change (c_links (remove_link p (read_cell (rf_heap s) b))) with
    (iter_filter (λ e, bool_decide (e ≠ p)) (le_peer_id <$> table_of (ar_links (sp_ref b)) (rf_heap s))).
  change (c_links (read_cell (rf_heap s) b)) with (le_peer_id <$> table_of (ar_links (sp_ref b)) (rf_heap s)).
  rewrite <- fmap_retain, !length_fmap.
  unfold on_heap, retain_not, set_table, table_of. simpl. by rewrite lookup_insert_eq.
Qed.

Lemma sim_link_handles s x y a b :
  refs_ok s → rf_actors s !! ch_id x = Some a → x = handle_of_ref (sp_ref a) →
  rf_actors s !! ch_id y = Some b → y = handle_of_ref (sp_ref b) →
  simulates (ref_link_handles x y) (link_handles (ch_id x) (ch_id y)) s.
Proof.
  intros Hs Ha Hx Hb Hy. pose proof (sim_register s x y a b Hs Ha Hx Hb Hy) as Hreg.
  set (g := ref_register_link _ _ _ _ _ _) in Hreg. destruct Hreg as [Hs1 Hc1]. set (s1 := on_heap g s) in *.
  assert (rf_actors s1 !! ch_id x = Some a) as Ha1 by done.
  assert (rf_actors s1 !! ch_id y = Some b) as Hb1 by done.
  pose proof (read_exit_reason s1 y b Hb1 Hy) as Hex.
  unfold simulates, link_handles, link_check. rewrite <- Hc1.
  assert (ref_exit_reason y (g (rf_heap s)) = exit_reason (ch_id y) (cells s1)) as Hex1 by (by rewrite <- Hex).
  destruct (exit_reason (ch_id y) (cells s1)) as [reason|] eqn:Hr.
  - assert (ch_links y = ar_links (sp_ref b)) as Hly by (by rewrite Hy).
    destruct (sim_retain (ch_id x) s1 (ch_id y) b Hs1 Hb1) as [Hs2 Hc2].
    set (s2 := on_heap _ s1) in *.
    unfold take_self_from_peer_table.
    assert (cells s1 !! ch_id y = Some (read_cell (rf_heap s1) b)) as Hcy
      by (unfold cells; by rewrite lookup_fmap, Hb1).
    rewrite Hcy, <- Hc2.
    pose proof (taken_spec (ch_id x) s1 b) as Htaken. fold s2 in Htaken. rewrite <- Hly in Htaken.
    rewrite <- Htaken.
    assert (on_heap (ref_link_handles x y) s = if bool_decide (length (table_of (ch_links y) (rf_heap s1)) ≠
      length (table_of (ch_links y) (rf_heap s2))) then on_heap (run_signal (signal_of x) (ch_id y) reason) s2 else s2) as ->.
    { unfold on_heap at 1, ref_link_handles. fold g. rewrite Hex1. unfold ref_take_self. rewrite Hly.
      change (rf_heap s2) with (retain_not (ch_id x) (ar_links (sp_ref b)) (g (rf_heap s))).
      change (rf_heap s1) with (g (rf_heap s)). clear Htaken. repeat case_bool_decide; first [reflexivity|contradiction]. }
    destruct (bool_decide _); [|done]. unfold make_signal. rewrite Hx.
    apply (sim_signal (ch_id y) reason s2 (ch_id (handle_of_ref (sp_ref a))) a Hs2). by rewrite <- Hx.
  - assert (on_heap (ref_link_handles x y) s = s1) as ->.
    { unfold on_heap, ref_link_handles. fold g. by rewrite Hex1. }
    done.
Qed.

Lemma sim_unlink s x y a b :
  refs_ok s → rf_actors s !! ch_id x = Some a → x = handle_of_ref (sp_ref a) →
  rf_actors s !! ch_id y = Some b → y = handle_of_ref (sp_ref b) →
  simulates (ref_unlink x y) (unregister_link (ch_id x) (ch_id y)) s.
Proof.
  intros Hs Ha Hx Hb Hy.
  eapply (simulates_ext _ (retain_not (ch_id x) (ar_links (sp_ref b)) ∘ retain_not (ch_id y) (ar_links (sp_ref a)))
    _ (alter (remove_link (ch_id x)) (ch_id y) ∘ alter (remove_link (ch_id y)) (ch_id x))); [|done|].
  - unfold ref_unlink. simpl. by rewrite Hx, Hy.
  - apply simulates_comp; [by apply sim_retain|]. intros Hok. by apply sim_retain.
Qed.

(** The loop of [propagate_exit] over entries of the system. *)
Lemma sim_signal_peers own v es s :
  refs_ok s → Forall (entry_ok s) es →
  simulates (λ h, foldl (λ h e, run_signal (le_signal e) own v (retain_not own (le_peer_links e) h)) h es)
    (λ w, foldl (λ w peer, make_signal peer own v (alter (remove_link own) peer w)) w (le_peer_id <$> es)) s.
Proof.
  revert s. induction es as [|e es IH]; intros s Hs He; [by apply simulates_id|].
  apply Forall_cons in He as [(b & Hb & Hb') He].
  assert (simulates (run_signal (le_signal e) own v ∘ retain_not own (le_peer_links e))
    (make_signal (le_peer_id e) own v ∘ alter (remove_link own) (le_peer_id e)) s) as Hone.
  { rewrite Hb'. simpl. apply simulates_comp; [by apply sim_retain|]. intros Hok. by apply sim_signal. }
  set (G := λ h, foldl (λ h e, run_signal (le_signal e) own v (retain_not own (le_peer_links e) h)) h es).
  set (F := λ w, foldl (λ w peer, make_signal peer own v (alter (remove_link own) peer w)) w (le_peer_id <$> es)).
  change (simulates (G ∘ (run_signal (le_signal e) own v ∘ retain_not own (le_peer_links e)))
    (F ∘ (make_signal (le_peer_id e) own v ∘ alter (remove_link own) (le_peer_id e))) s).
  apply simulates_comp; [exact Hone|]. intros Hok.
  apply IH; [done|]. apply (Forall_impl _ _ _ He). intros e' He'. exact He'.
Qed.

Lemma sim_propagate v s i a :
  refs_ok s → rf_actors s !! i = Some a →
  simulates (ref_propagate_exit i (ar_links (sp_ref a)) v) (propagate_exit i v) s.
Proof.
  intros Hs Hi. pose proof (entries_ok s i a Hs Hi) as He.
  set (es := table_of (ar_links (sp_ref a)) (rf_heap s)) in *.
  eapply (simulates_ext _ ((λ h, foldl (λ h e, run_signal (le_signal e) i v (retain_not i (le_peer_links e) h)) h es) ∘
    set_table (ar_links (sp_ref a)) []) _ ((λ w, foldl (λ w peer, make_signal peer i v (alter (remove_link i) peer w))
    w (le_peer_id <$> es)) ∘ alter (set_links []) i)); [done| |].
  - unfold propagate_exit, cells. rewrite lookup_fmap, Hi. done.
  - apply simulates_comp; [by apply (sim_table s i a Hs Hi [])|]. intros Hok. by apply sim_signal_peers.
Qed.

(** *** One handle *)

Lemma sim_stop s x a :
  refs_ok s → rf_actors s !! ch_id x = Some a → x = handle_of_ref (sp_ref a) →
  simulates (ref_stop x) (alter handle_stop (ch_id x)) s.
Proof.
  intros Hs Ha Hx. apply (simulates_ext _ (token_cancel (ar_token (sp_ref a))) _ (alter cancel (ch_id x)));
    [by rewrite Hx|done|by apply sim_cancel].
Qed.
Lemma sim_shutdown s x a :
  refs_ok s → rf_actors s !! ch_id x = Some a → x = handle_of_ref (sp_ref a) →
  simulates (ref_shutdown x) (alter handle_shutdown (ch_id x)) s.
Proof.
  intros Hs Ha Hx. eapply (simulates_ext _ (token_cancel (ar_token (sp_ref a)) ∘
    set_slot (ar_requested_exit (sp_ref a)) (Some Shutdown))
    _ (alter cancel (ch_id x) ∘ alter (set_requested (Some Shutdown)) (ch_id x))).
  - unfold ref_shutdown. by rewrite Hx.
  - simpl. by rewrite alter_alter_eq.
  - apply simulates_comp; [by apply sim_slot_requested|]. intros Hok. by apply sim_cancel.
Qed.
Lemma sim_kill s x a :
  refs_ok s → rf_actors s !! ch_id x = Some a → x = handle_of_ref (sp_ref a) →
  simulates (ref_kill x) (alter handle_kill (ch_id x)) s.
Proof.
  intros Hs Ha Hx. eapply (simulates_ext _ (token_cancel (ar_token (sp_ref a)) ∘
    (set_flag (ar_skip_stopped (sp_ref a)) true ∘ set_slot (ar_requested_exit (sp_ref a)) (Some Kill)))
    _ (alter cancel (ch_id x) ∘ (alter (set_skip_stopped true) (ch_id x) ∘ alter (set_requested (Some Kill)) (ch_id x)))).
  - unfold ref_kill. by rewrite Hx.
  - simpl. by rewrite !alter_alter_eq.
  - apply simulates_comp; [|intros Hok; by apply sim_cancel].
    apply simulates_comp; [by apply sim_slot_requested|]. intros Hok. by apply sim_flag_skip.
Qed.

(** The completion is published: [completion_tx.send], [CompletionGuard]. *)
Lemma sim_complete v s i a :
  refs_ok s → rf_actors s !! i = Some a →
  simulates (set_slot (comp_loc (ar_completion (sp_ref a))) v) (alter (set_completion v) i) s.
Proof.
  intros Hs Hi. split; [by apply slot_ok|]. apply (cells_write _ _ _ a); [done|..].
  - intros j b Hne Hj. apply read_slot_ne. apply (not_own s i j a b); try done. unfold locs. set_solver.
  - pose proof (ok_locs _ Hs i a Hi) as Hnd. apart. reads. by rewrite lookup_insert_eq, !lookup_insert_ne by done.
Qed.

Lemma sim_post s i a :
  refs_ok s → rf_actors s !! i = Some a →
  simulates (token_post (ar_token (sp_ref a))) (alter (λ c, if c_cancelled c then post_stop c else c) i) s.
Proof.
  intros Hs Hi. destruct (ok_token _ Hs i a Hi) as (t & Ht & Hr & Hst).
  assert (tk_posted t = c_stop_posted (read_cell (rf_heap s) a) ∧ tk_cancelled t = c_cancelled (read_cell (rf_heap s) a))
    as [Hp Hc] by (unfold read_cell, token_at; simpl; by rewrite Ht).
  unfold token_post. destruct (tk_cancelled t && negb (tk_posted t)) eqn:Hb.
  - apply andb_true_iff in Hb as [Htc Htp%negb_true_iff]. set (v := mkTokenVal true true (tk_rt t) (tk_stop t)).
    apply (simulates_ext _ (mail_send_stop (ar_mailbox (sp_ref a)) ∘ set_token (ar_token (sp_ref a)) v)
      _ (alter (snd ∘ send_stop) i ∘ alter (set_stop_posted true ∘ set_cancelled true) i)).
    + simpl. unfold v. by rewrite Ht, Htc, Htp, Hst.
    + simpl. rewrite alter_alter_eq. apply (alter_cells _ _ _ a); [done|]. unfold post_stop.
      rewrite <- Hc, <- Hp, Htc, Htp. unfold send_stop, read_cell, token_at. simpl. rewrite Ht. simpl.
      rewrite Htc. by destruct (ml_open _).
    + apply simulates_comp; [by apply (sim_token s i a Hs Hi t)|]. intros Hok. by apply (sim_send_stop _ i a).
  - apply (simulates_ext _ id _ id); [by rewrite Ht, Hb| |by apply simulates_id]. simpl.
    rewrite (alter_cells _ id i a s Hi); [by apply alter_id|]. unfold post_stop.
    rewrite <- Hc, <- Hp. by destruct (tk_cancelled t), (tk_posted t).
Qed.

(** *** A new actor *)

Lemma new_locs i rt n : locs (new_ref i rt n) = (λ k : nat, (n + N.of_nat k)%N) <$> seq 0 10.
Proof. unfold locs. simpl. rewrite N.add_0_r. by destruct rt. Qed.
Lemma elem_new_locs l i rt n : l ∈ locs (new_ref i rt n) ↔ (n ≤ l < n + 10)%N.
Proof.
  rewrite new_locs, list_elem_of_fmap. split.
  - intros (k & -> & Hk%elem_of_seq). lia.
  - intros Hl. exists (N.to_nat (l - n)). rewrite elem_of_seq. lia.
Qed.
Lemma NoDup_new_locs i rt n : NoDup (locs (new_ref i rt n)).
Proof. rewrite new_locs. apply NoDup_fmap_2; [intros x y; lia|apply NoDup_seq]. Qed.

(** The heap of [ref_spawn] outside the new locations. *)
Lemma spawn_old i rt s b :
  (∀ l, l ∈ locs (sp_ref b) → (l < rf_next s)%N) →
  read_cell (rf_heap (snd (ref_spawn i rt s))) b = read_cell (rf_heap s) b.
Proof.
  intros Hb. set (r := new_ref i rt (rf_next s)).
  assert (∀ l, l ∈ locs r → l ∉ locs (sp_ref b)) as Hne
    by (intros l Hl%elem_new_locs Hin%Hb; lia).
  assert (Forall (λ l, l ∉ locs (sp_ref b)) (locs r)) as Hall by (by apply Forall_forall).
  unfold locs at 2 in Hall. repeat (apply Forall_cons in Hall as [? Hall]).
  unfold ref_spawn. fold r. simpl.
  rewrite read_flag_ne, !read_slot_ne, read_table_ne, read_flag_ne, read_slot_ne, read_token_ne, read_mail_ne by done.
  done.
Qed.

Lemma spawn_cell i rt s :
  read_cell (rf_heap (snd (ref_spawn i rt s))) (mkSpawned (new_ref i rt (rf_next s)) rt Starting) = new_cell rt.
Proof.
  pose proof (NoDup_new_locs i rt (rf_next s)) as Hnd. unfold ref_spawn. cbn [snd rf_heap].
  set (a := mkSpawned _ rt Starting). set (r := new_ref i rt (rf_next s)) in *. change r with (sp_ref a) in Hnd |- *.
  rewrite read_skip, read_requested, read_linked, read_table, read_trap by done.
  apart. reads. by rewrite !lookup_insert_eq.
Qed.

(** What the other actors' locations hold stays. *)
Lemma spawn_heap_old i rt s j a :
  refs_ok s → rf_actors s !! j = Some a →
  h_mails (rf_heap (snd (ref_spawn i rt s))) !! ar_mailbox (sp_ref a) = h_mails (rf_heap s) !! ar_mailbox (sp_ref a) ∧
  h_slots (rf_heap (snd (ref_spawn i rt s))) !! ar_linked_reason (sp_ref a) =
    h_slots (rf_heap s) !! ar_linked_reason (sp_ref a) ∧
  h_tokens (rf_heap (snd (ref_spawn i rt s))) !! ar_token (sp_ref a) = h_tokens (rf_heap s) !! ar_token (sp_ref a) ∧
  h_tables (rf_heap (snd (ref_spawn i rt s))) !! ar_links (sp_ref a) = h_tables (rf_heap s) !! ar_links (sp_ref a).
Proof.
  intros Hs Hj. pose proof (λ l, ok_bound _ Hs j a l Hj) as Hb. apply Forall_forall in Hb. unfold locs in Hb.
  repeat (apply Forall_cons in Hb as [? Hb]). destruct rt; simpl; rewrite !lookup_insert_ne by lia; done.
Qed.
Lemma spawn_heap_new i rt s (r := new_ref i rt (rf_next s)) :
  is_Some (h_mails (rf_heap (snd (ref_spawn i rt s))) !! ar_mailbox r) ∧
  is_Some (h_slots (rf_heap (snd (ref_spawn i rt s))) !! ar_linked_reason r) ∧
  h_tokens (rf_heap (snd (ref_spawn i rt s))) !! ar_token r = Some (mkTokenVal false false rt (ar_mailbox r)) ∧
  table_of (ar_links r) (rf_heap (snd (ref_spawn i rt s))) = [].
Proof.
  unfold table_of. simpl. rewrite !lookup_insert_eq. split_and!; [by eexists| |done|done].
  by rewrite !lookup_insert_is_Some'; auto.
Qed.

Lemma entry_ok_spawn i rt s e : rf_actors s !! i = None → entry_ok s e → entry_ok (snd (ref_spawn i rt s)) e.
Proof.
  intros Hi (a & Ha & He). exists a. split; [|done]. simpl. rewrite lookup_insert_ne; [done|congruence].
Qed.

Lemma lookup_spawn i rt s j a :
  rf_actors (snd (ref_spawn i rt s)) !! j = Some a →
  (i = j ∧ mkSpawned (new_ref i rt (rf_next s)) rt Starting = a) ∨ (i ≠ j ∧ rf_actors s !! j = Some a).
Proof. apply lookup_insert_Some. Qed.

Lemma ref_spawn_ok i rt s : refs_ok s → rf_actors s !! i = None → refs_ok (snd (ref_spawn i rt s)).
Proof.
  intros Hs Hi. pose proof (spawn_heap_new i rt s) as (Hm & Hl & Ht & Hes).
  assert (∀ j b l, rf_actors s !! j = Some b → l ∈ locs (sp_ref b) → ¬ (rf_next s ≤ l < rf_next s + 10)%N) as Hold
    by (intros j b l Hj Hin; pose proof (ok_bound _ Hs j b l Hj Hin); lia).
  split.
  - intros j a Hj. apply lookup_spawn in Hj as [[<- <-]|[_ Hj]]; [done|by apply (ok_id _ Hs)].
  - intros j a Hj. apply lookup_spawn in Hj as [[<- <-]|[_ Hj]];
      [apply NoDup_new_locs|by apply (ok_locs _ Hs j)].
  - intros j k a b l Hj Hk. 
    apply lookup_spawn in Hj as [[<- <-]|[Hij Hj]]; apply lookup_spawn in Hk as [[<- <-]|[Hik Hk]];
      cbn [sp_ref]; rewrite ?elem_new_locs; [done| | |by apply (ok_own _ Hs)].
    + intros Ha Hb. by destruct (Hold k b l Hk Hb).
    + intros Ha Hb. by destruct (Hold j a l Hj Ha).
  - intros j a l Hj. apply lookup_spawn in Hj as [[<- <-]|[Hij Hj]];
      [cbn [sp_ref]; rewrite elem_new_locs; simpl; lia|]. intros Hin. pose proof (ok_bound _ Hs j a l Hj Hin). simpl. lia.
  - intros j a Hj. apply lookup_spawn in Hj as [[<- <-]|[_ Hj]]; [exact Hm|].
    rewrite (proj1 (spawn_heap_old i rt s j a Hs Hj)).
    by apply (ok_mail _ Hs j).
  - intros j a Hj. apply lookup_spawn in Hj as [[<- <-]|[_ Hj]]; [exact Hl|].
    rewrite (proj1 (proj2 (spawn_heap_old i rt s j a Hs Hj))).
    by apply (ok_linked _ Hs j).
  - intros j a Hj. apply lookup_spawn in Hj as [[<- <-]|[_ Hj]]; [by eexists|].
    rewrite (proj1 (proj2 (proj2 (spawn_heap_old i rt s j a Hs Hj)))).
    by apply (ok_token _ Hs j).
  - intros j a e Hj. apply lookup_spawn in Hj as [[<- <-]|[_ Hj]].
    + change (sp_ref _) with (new_ref i rt (rf_next s)). rewrite Hes. by intros ?%elem_of_nil.
    + unfold table_of.
      rewrite (proj2 (proj2 (proj2 (spawn_heap_old i rt s j a Hs Hj)))).
      intros He. by apply entry_ok_spawn, (ok_entries _ Hs j a).
Qed.

Lemma sim_spawn i rt s :
  refs_ok s → rf_actors s !! i = None → cells (snd (ref_spawn i rt s)) = <[i := new_cell rt]> (cells s).
Proof.
  intros Hs Hi. unfold cells. change (rf_actors (snd (ref_spawn i rt s))) with
    (<[i := mkSpawned (new_ref i rt (rf_next s)) rt Starting]> (rf_actors s)).
  rewrite fmap_insert, spawn_cell. f_equal. apply map_fmap_ext. intros j b Hj.
  apply spawn_old. intros l. by apply (ok_bound _ Hs j).
Qed.
End writes.

(** ** Programs on references and programs on ids *)

(** What the rest of the development has: a reference is its kind and the id
    of its actor, and operations act on the cell of the id. *)
Section ids.
Context {M : Type} `{ThisNode}.
Implicit Types (w : gmap ActorId (Cell M)).

Definition acting_id (r : RefKind * ActorId) : option ActorId :=
  match r with (KActorRef, _) => None | (_, i) => Some i end.

Definition id_do (p : gmap ActorId (Cell M) * list (RefKind * ActorId)) (o : RefOp) :
    gmap ActorId (Cell M) * list (RefKind * ActorId) :=
  let '(w, rs) := p in
  match o with
  | Spawn i rt => (<[i := new_cell rt]> w, rs ++ [(KActorRef, i); (KContext, i)])
  | ToContext k => match rs !! k with Some (KActorRef, i) => (w, rs ++ [(KContext, i)]) | _ => p end
  | ToRef k => match rs !! k with Some (KContext, i) => (w, rs ++ [(KActorRef, i)]) | _ => p end
  | ToHandle k => match rs !! k with Some (_, i) => (w, rs ++ [(KChildHandle, i)]) | None => p end
  | Stop k => match rs !! k ≫= acting_id with Some i => (alter handle_stop i w, rs) | None => p end
  | ShutdownOp k => match rs !! k with Some (KChildHandle, i) => (alter handle_shutdown i w, rs) | _ => p end
  | KillOp k => match rs !! k with Some (KChildHandle, i) => (alter handle_kill i w, rs) | _ => p end
  | TrapExit k b => match rs !! k with Some (KContext, i) => (alter (set_trap_exit b) i w, rs) | _ => p end
  | Link k m =>
      match rs !! k ≫= acting_id, rs !! m with
      | Some i, Some (KChildHandle, j) => (link_handles i j w, rs)
      | _, _ => p
      end
  | Unlink k m =>
      match rs !! k ≫= acting_id, rs !! m with
      | Some i, Some (KChildHandle, j) => (unregister_link i j w, rs)
      | _, _ => p
      end
  | PostStop k =>
      match rs !! k with
      | Some (KContext, i) => (alter (λ c, if c_cancelled c then post_stop c else c) i w, rs)
      | _ => p
      end
  | Propagate k v => match rs !! k with Some (KContext, i) => (propagate_exit i v w, rs) | _ => p end
  | Complete k v => match rs !! k with Some (KContext, i) => (alter (set_completion (Some v)) i w, rs) | _ => p end
  end.

Definition no_refs : RefSys M := mkRefSys (mkHeap ∅ ∅ ∅ ∅ ∅) 0 ∅.

(** The ids that a program spawns; [ActorId::next] gives each once. *)
Definition spawned (os : list RefOp) : list ActorId :=
  omap (λ o, match o with Spawn i _ => Some i | _ => None end) os.

(** *** Held references *)

Definition ref_ok (s : RefSys M) (r : Ref) : Prop :=
  match r with
  | RefA r => ∃ a, rf_actors s !! ar_id r = Some a ∧ r = sp_ref a
  | RefC c => context_ok s c
  | RefH x => handle_ok s x
  end.

Record program_ok (p : Program (M := M)) (q : gmap ActorId (Cell M) * list (RefKind * ActorId)) : Prop := {
  po_refs : refs_ok (fst p);
  po_held : Forall (ref_ok (fst p)) (snd p);
  po_cells : cells (fst p) = fst q;
  po_ids : erase <$> snd p = snd q
}.

Lemma no_refs_ok : program_ok (no_refs, []) (∅, []).
Proof.
  split; [|constructor| |done].
  - split; unfold no_refs; simpl; intros *; rewrite lookup_empty; done.
  - unfold cells. simpl. apply fmap_empty.
Qed.

Lemma ref_ok_same s s' r : rf_actors s' = rf_actors s → ref_ok s r → ref_ok s' r.
Proof. destruct r; unfold ref_ok, context_ok, handle_ok; by intros ->. Qed.

Lemma heap_step g f s rs q :
  program_ok (s, rs) q → (refs_ok s → simulates g f s) → program_ok (on_heap g s, rs) (f (fst q), snd q).
Proof.
  intros [Hs Hh Hc Hi] Hg. destruct (Hg Hs) as [Hs' Hc']. simpl in *. split; simpl; [done| |by rewrite Hc', Hc|done].
  apply (Forall_impl _ _ _ Hh). intros r. by apply ref_ok_same.
Qed.

Lemma hold_step s rs q new :
  program_ok (s, rs) q → Forall (ref_ok s) new → program_ok (s, rs ++ new) (fst q, snd q ++ (erase <$> new)).
Proof.
  intros [Hs Hh Hc Hi] Hn. simpl in *. split; simpl; [done|by apply Forall_app|done|by rewrite fmap_app, Hi].
Qed.

Lemma held s rs q k : program_ok (s, rs) q → snd q !! k = erase <$> rs !! k ∧ (∀ r, rs !! k = Some r → ref_ok s r).
Proof.
  intros [_ Hh _ Hi]. simpl in *. split; [by rewrite <- Hi, list_lookup_fmap|].
  intros r Hr. by apply (Forall_lookup_1 _ _ _ _ Hh Hr).
Qed.

Lemma acting_ok s r x : refs_ok s → ref_ok s r → acting r = Some x → handle_ok s x ∧ acting_id (erase r) = Some (ch_id x).
Proof.
  intros Hs Hr Hx. destruct r as [r|c|y]; simplify_eq/=; [|done].
  destruct Hr as (a & Ha & ->). split; [|done]. exists a. simpl in *. split; [done|]. by destruct a as [[]].
Qed.
Lemma acting_none r : acting r = None → acting_id (erase r) = None.
Proof. by destruct r. Qed.

(** *** One operation *)

Lemma spawn_step i rt s rs q :
  program_ok (s, rs) q → rf_actors s !! i = None → program_ok (ref_do (s, rs) (Spawn i rt)) (id_do q (Spawn i rt)).
Proof.
  intros [Hs Hh Hc Hi] Hn. destruct q as [w ids]. simpl in Hs, Hh, Hc, Hi.
  change (ref_do (s, rs) (Spawn i rt)) with
    (snd (ref_spawn i rt s), rs ++ [RefA (new_ref i rt (rf_next s)); RefC (from_ref (new_ref i rt (rf_next s)))]).
  assert (rf_actors (snd (ref_spawn i rt s)) !! i = Some (mkSpawned (new_ref i rt (rf_next s)) rt Starting)) as Hnew
    by apply lookup_insert_eq.
  split; cbn [fst snd].
  - by apply ref_spawn_ok.
  - apply Forall_app. split; [|repeat constructor; by eexists]. apply (Forall_impl _ _ _ Hh). intros r.
    destruct r as [r|c|x]; intros (a & Ha & ->); exists a; (split; [|done]);
      change (rf_actors (snd (ref_spawn i rt s))) with
        (<[i := mkSpawned (new_ref i rt (rf_next s)) rt Starting]> (rf_actors s));
      (rewrite lookup_insert_ne; [done|congruence]).
  - by rewrite sim_spawn, Hc.
  - by rewrite fmap_app, Hi.
Qed.

(** Operations by a context, and by a handle. *)
Lemma ctx_step g f s rs w ids c :
  program_ok (s, rs) (w, ids) → context_ok s c →
  (∀ a, refs_ok s → rf_actors s !! cx_id c = Some a → simulates (g (from_ref (sp_ref a))) (f (cx_id c)) s) →
  program_ok (on_heap (g c) s, rs) (f (cx_id c) w, ids).
Proof.
  intros Hp (a & Ha & Hc) Hsim. apply (heap_step _ (f (cx_id c)) _ _ (w, ids) Hp). intros Hs. rewrite Hc at 1. by apply Hsim.
Qed.
Lemma handle_step g f s rs w ids x :
  program_ok (s, rs) (w, ids) → handle_ok s x →
  (∀ a, refs_ok s → rf_actors s !! ch_id x = Some a → x = handle_of_ref (sp_ref a) → simulates (g x) (f (ch_id x)) s) →
  program_ok (on_heap (g x) s, rs) (f (ch_id x) w, ids).
Proof.
  intros Hp (a & Ha & Hx) Hsim. apply (heap_step _ (f (ch_id x)) _ _ (w, ids) Hp). intros Hs. by apply (Hsim a).
Qed.
Lemma pair_step g f s rs w ids x y :
  program_ok (s, rs) (w, ids) → handle_ok s x → handle_ok s y →
  (∀ a b, refs_ok s → rf_actors s !! ch_id x = Some a → x = handle_of_ref (sp_ref a) →
     rf_actors s !! ch_id y = Some b → y = handle_of_ref (sp_ref b) → simulates (g x y) (f (ch_id x) (ch_id y)) s) →
  program_ok (on_heap (g x y) s, rs) (f (ch_id x) (ch_id y) w, ids).
Proof.
  intros Hp (a & Ha & Hx) (b & Hb & Hy) Hsim. apply (heap_step _ (f (ch_id x) (ch_id y)) _ _ (w, ids) Hp).
  intros Hs. by apply (Hsim a b).
Qed.

(** The reference that an operation names, on both sides. *)
Ltac named Hp k := let Hk := fresh "Hk" in let Hok := fresh "Hok" in
  destruct (held _ _ _ k Hp) as [Hk Hok]; simpl in Hk; unfold ref_do, id_do; rewrite Hk;
  match type of Hok with ∀ r, ?o = Some r → _ => destruct o as [[r|c|x]|] end;
  simpl; try exact Hp; try specialize (Hok _ eq_refl).

Lemma convert_step s rs w ids o k :
  program_ok (s, rs) (w, ids) → o ∈ [ToContext k; ToRef k; ToHandle k] →
  program_ok (ref_do (s, rs) o) (id_do (w, ids) o).
Proof.
  intros Hp Ho. assert (∀ r, ref_ok s r → program_ok (s, rs ++ [r]) (w, ids ++ [erase r])) as Hold
    by (intros r Hr; apply (hold_step _ _ (w, ids) [r]); [done|by apply Forall_singleton]).
  apply elem_of_cons in Ho as [->|[->|[->|[]%elem_of_nil]%elem_of_cons]%elem_of_cons]; named Hp k.
  - apply (Hold (RefC (from_ref r))). destruct Hok as (a & Ha & ->). by exists a.
  - apply (Hold (RefA (actor_ref c))). destruct Hok as (a & Ha & ->). exists a. split; [done|]. by destruct a as [[]].
  - apply (Hold (RefH (handle_of_ref r))). destruct Hok as (a & Ha & ->). by exists a.
  - apply (Hold (RefH (handle_of_context c))). destruct Hok as (a & Ha & ->). exists a. split; [done|]. by destruct a as [[]].
  - by apply (Hold (RefH x)).
Qed.

Lemma acting_held s rs w ids k :
  program_ok (s, rs) (w, ids) →
  match rs !! k ≫= acting with
  | Some x => handle_ok s x ∧ ids !! k ≫= acting_id = Some (ch_id x)
  | None => ids !! k ≫= acting_id = None
  end.
Proof.
  intros Hp. destruct (held _ _ _ k Hp) as [Hk Hok]. simpl in Hk. rewrite Hk.
  destruct (rs !! k) as [r|]; [|done]. simpl. destruct (acting r) as [x|] eqn:Hx; [|by apply acting_none].
  apply (acting_ok s r); [apply (po_refs _ _ Hp)|by apply Hok|done].
Qed.

Lemma ref_step s rs w ids o :
  program_ok (s, rs) (w, ids) → (∀ i rt, o = Spawn i rt → rf_actors s !! i = None) →
  program_ok (ref_do (s, rs) o) (id_do (w, ids) o).
Proof.
  intros Hp Hf. pose proof (po_refs _ _ Hp) as Hs. simpl in Hs.
  destruct o as [i rt|k|k|k|k|k|k|k b|k m|k m|k|k v|k v];
    try (apply (convert_step _ _ _ _ _ k Hp); set_solver); [by apply spawn_step, (Hf i rt)|..].
  - pose proof (acting_held _ _ _ _ k Hp) as Ha. unfold ref_do, id_do.
    destruct (rs !! k ≫= acting) as [x|]; [destruct Ha as [Hx ->]|by rewrite Ha].
    apply (handle_step ref_stop (alter handle_stop)); [done..|]. intros a. apply sim_stop.
  - named Hp k. apply (handle_step ref_shutdown (alter handle_shutdown)); [done..|]. intros a. apply sim_shutdown.
  - named Hp k. apply (handle_step ref_kill (alter handle_kill)); [done..|]. intros a. apply sim_kill.
  - named Hp k. apply (ctx_step (ctx_trap_exit b) (alter (set_trap_exit b))); [done..|]. intros a Hs' Ha. by apply sim_flag_trap.
  - pose proof (acting_held _ _ _ _ k Hp) as Ha. named Hp m;
      (destruct (rs !! k ≫= acting) as [y|]; [destruct Ha as [Hy ->]|rewrite Ha]); try exact Hp.
    apply (pair_step ref_link_handles link_handles); [done..|]. intros a b. apply sim_link_handles.
  - pose proof (acting_held _ _ _ _ k Hp) as Ha. named Hp m;
      (destruct (rs !! k ≫= acting) as [y|]; [destruct Ha as [Hy ->]|rewrite Ha]); try exact Hp.
    apply (pair_step ref_unlink unregister_link); [done..|]. intros a b. apply sim_unlink.
  - named Hp k. apply (ctx_step (λ c, token_post (cx_token c)) (alter (λ c, if c_cancelled c then post_stop c else c)));
      [done..|]. intros a. apply sim_post.
  - named Hp k. apply (ctx_step (λ c, ref_propagate_exit (cx_id c) (cx_links c) v) (λ i, propagate_exit i v)); [done..|].
    intros a Hs' Ha. simpl. rewrite (ok_id _ Hs' _ _ Ha). by apply sim_propagate.
  - named Hp k. apply (ctx_step (λ c, set_slot (comp_loc (cx_completion c)) (Some v)) (alter (set_completion (Some v))));
      [done..|]. intros a. apply sim_complete.
Qed.

(** *** A whole program *)

Lemma ref_do_actors (s : RefSys M) rs o i :
  rf_actors s !! i = None → i ∉ spawned [o] → rf_actors (fst (ref_do (s, rs) o)) !! i = None.
Proof.
  intros Hi Ho. destruct o; simpl; repeat case_match; simpl; try done.
  rewrite lookup_insert_ne; [done|]. intros ->. apply Ho. simpl. set_solver.
Qed.

Lemma program_run os (p : Program (M := M)) q :
  program_ok p q → NoDup (spawned os) → (∀ i, i ∈ spawned os → rf_actors (fst p) !! i = None) →
  program_ok (foldl ref_do p os) (foldl id_do q os).
Proof.
  revert p q. induction os as [|o os IH]; intros [s rs] [w ids] Hp Hnd Hfr; [done|]. simpl foldl.
  change (spawned (o :: os)) with (spawned ([o] ++ os)) in *. unfold spawned in Hnd, Hfr. rewrite omap_app in Hnd, Hfr.
  apply NoDup_app in Hnd as (Ho & Hdis & Hnd). apply IH; [|done|].
  - apply ref_step; [done|]. intros i rt ->. apply Hfr. simpl. set_solver.
  - intros i Hi. destruct (ref_do (s, rs) o) as [s' rs'] eqn:Hd. simpl.
    replace s' with (fst (ref_do (s, rs) o)) by (by rewrite Hd). apply ref_do_actors.
    + apply Hfr. apply elem_of_app. by right.
    + intros Hin. by apply (Hdis i).
Qed.

(** C13: Whatever references a program takes of its actors, by [spawn], [from_ref],
    [actor_ref], [child_handle] and clones, what it does through them (stop,
    shut down, kill, trap exits, link, unlink, and the end of an actor's loop
    with its signals to linked peers) is what happens to one cell per actor,
    reached by id: references of an actor share all of its state and none of
    another's, they read the same exit reason, and two handles are equal, which
    [ChildHandle] decides by the id, only when all of their fields are. *)
Theorem references_share os :
  NoDup (spawned os) →
  let p := foldl (ref_do (M := M)) (no_refs, []) os in
  let q := foldl id_do (∅, []) os in
  cells (fst p) = fst q ∧ erase <$> snd p = snd q ∧
  (∀ x, RefH x ∈ snd p → ref_exit_reason x (rf_heap (fst p)) = exit_reason (ch_id x) (fst q)) ∧
  (∀ x y, RefH x ∈ snd p → RefH y ∈ snd p → handle_eq x y = true ↔ x = y) ∧
  (∀ r c, RefA r ∈ snd p → RefC c ∈ snd p → ar_id r = cx_id c → c = from_ref r ∧ r = actor_ref c).
Proof.
  intros Hnd p q. destruct (program_run os _ _ no_refs_ok Hnd) as [Hs Hh Hc Hi];
    [intros i _; apply lookup_empty|]. fold p in Hs, Hh, Hc, Hi. fold q in Hc, Hi.
  pose proof (proj1 (Forall_forall _ _) Hh) as Hheld. split_and!; [done|done|..].
  - intros x Hx. destruct (Hheld _ Hx) as (a & Ha & Hxa). rewrite <- Hc. by apply (read_exit_reason _ _ a).
  - intros x y Hx Hy. destruct (Hheld _ Hx) as (a & Ha & Hxa), (Hheld _ Hy) as (b & Hb & Hyb).
    unfold handle_eq. rewrite bool_decide_eq_true. split; [|by intros ->]. congruence.
  - intros r c Hr Hcx He. destruct (Hheld _ Hr) as (a & Ha & ->), (Hheld _ Hcx) as (b & Hb & Hb').
    rewrite <- He in Hb. simplify_eq. by destruct a as [[]].
Qed.
End ids.

(** Actor 1 traps exits and links to a handle of 2; 2 is shut down by another
    handle, ends, and 1 has the exit message. *)
Definition trapping_pair : list RefOp :=
  [Spawn (from_raw 1) Tasks; Spawn (from_raw 2) Threads; ToHandle 2; ToHandle 3; TrapExit 1 true; Link 1 4;
   ShutdownOp 5; Propagate 3 Shutdown; Complete 3 Shutdown].
Lemma references_share_witness :
  let _ : ThisNode := node_new "n@h" in
  let p := foldl (ref_do (M := ())) (no_refs, []) trapping_pair in
  NoDup (spawned trapping_pair) ∧ cells (fst p) = fst (foldl id_do (∅, []) trapping_pair) ∧
  (λ c, queue (supervision (c_mailbox c))) <$> cells (fst p) !! from_raw 1 =
    Some [mkExit (local_addr (from_raw 2)) Shutdown] ∧
  c_cancelled <$> cells (fst p) !! from_raw 2 = Some true ∧ length (snd p) = 6.
Proof.
  intros T p. assert (NoDup (spawned trapping_pair)) as Hnd by (vm_compute; repeat constructor; set_solver).
  split; [done|]. destruct (references_share (M := ()) trapping_pair Hnd) as [Hc _]. split; [exact Hc|].
  split_and!; vm_compute; reflexivity.
Defined.
