(* ===== verification/Observability.v ===== *)
(** * Tracing and metric hooks of supervision

    Model of [concurrency/src/observability/mod.rs]: the process-wide slot of
    the metric recorder, the events that the supervisors, the remote spawns
    and the broker report, and what [handle_exit] of the static and of the
    dynamic supervisor reports for an action. A recorder is a number, with the
    list of calls it has received. *)

From S2P Require Import Prelude Address Errors Links ChildSpec SupervisorLogic.

Inductive Level := Debug | Info | Warn | Error.
Record Trace := mkTrace { tr_level : Level; tr_target : string; tr_event : string }.
Definition TARGET_SUPERVISION : string := "spawned.supervision".
Definition TARGET_CLUSTER : string := "spawned.cluster".

(** The methods of [SupervisionRecorder]. *)
Inductive Metric :=
| IncRestart (supervisor : ActorId) (child_id : string) (remote : bool)
| IncMeltdown (supervisor : ActorId)
| RecordRemoteSpawn (placement : NodeId) (duration : Duration) (ok : bool)
| IncRemoteSpawnRetry (placement : NodeId).

Record Obs := mkObs {
  ob_slot : option N;
  ob_calls : gmap N (list Metric);
  ob_traces : list Trace
}.
Definition obs_new : Obs := mkObs None ∅ [].
Definition calls_of (r : N) (o : Obs) : list Metric := default [] (ob_calls o !! r).

(** [recorder_slot().write().replace(recorder).is_none()] *)
Definition install_supervision_recorder (r : N) (o : Obs) : bool * Obs :=
  (bool_decide (ob_slot o = None), mkObs (Some r) (ob_calls o) (ob_traces o)).

(** A call of the installed recorder; without one it is [NoopRecorder]. *)
Definition supervision_recorder (m : Metric) (o : Obs) : Obs :=
  match ob_slot o with
  | Some r => mkObs (ob_slot o) (<[r := calls_of r o ++ [m]]> (ob_calls o)) (ob_traces o)
  | None => o
  end.
Definition trace (l : Level) (target event : string) (o : Obs) : Obs :=
  mkObs (ob_slot o) (ob_calls o) (ob_traces o ++ [mkTrace l target event]).

Definition child_exit (o : Obs) : Obs := trace Debug TARGET_SUPERVISION "child_exit" o.
Definition restart_scheduled (supervisor : ActorId) (child_id : string) (backoff : Duration) (remote : bool) (o : Obs) : Obs :=
  supervision_recorder (IncRestart supervisor child_id remote) (trace Info TARGET_SUPERVISION "restart_scheduled" o).
Definition batch_terminate (o : Obs) : Obs := trace Info TARGET_SUPERVISION "batch_terminate" o.
Definition meltdown (supervisor : ActorId) (o : Obs) : Obs :=
  supervision_recorder (IncMeltdown supervisor) (trace Warn TARGET_SUPERVISION "meltdown" o).
Definition remote_spawn (placement : NodeId) (duration : Duration) (ok : bool) (o : Obs) : Obs :=
  supervision_recorder (RecordRemoteSpawn placement duration ok)
    (trace (if ok then Info else Warn) TARGET_SUPERVISION "remote_spawn" o).
Definition remote_spawn_retry (placement : NodeId) (o : Obs) : Obs :=
  supervision_recorder (IncRemoteSpawnRetry placement) (trace Warn TARGET_SUPERVISION "remote_spawn_retry" o).
Definition remote_shutdown_wait (ok : bool) (o : Obs) : Obs :=
  trace (if ok then Debug else Warn) TARGET_SUPERVISION "remote_shutdown_wait" o.
Definition broker_spawn (o : Obs) : Obs := trace Debug TARGET_CLUSTER "broker_spawn" o.
Definition broker_child_exit (o : Obs) : Obs := trace Debug TARGET_CLUSTER "broker_child_exit" o.
Definition broker_signal (o : Obs) : Obs := trace Debug TARGET_CLUSTER "broker_signal" o.

(** ** Histories *)

Inductive ObsOp :=
| OInstall (r : N)
| OChildExit
| ORestart (supervisor : ActorId) (child_id : string) (backoff : Duration) (remote : bool)
| OBatch
| OMeltdown (supervisor : ActorId)
| ORemoteSpawn (placement : NodeId) (duration : Duration) (ok : bool)
| ORetry (placement : NodeId)
| OShutdownWait (ok : bool)
| OBrokerSpawn | OBrokerChildExit | OBrokerSignal.

Definition obs_step (op : ObsOp) (o : Obs) : Obs :=
  match op with
  | OInstall r => snd (install_supervision_recorder r o)
  | OChildExit => child_exit o
  | ORestart s c b re => restart_scheduled s c b re o
  | OBatch => batch_terminate o
  | OMeltdown s => meltdown s o
  | ORemoteSpawn p d ok => remote_spawn p d ok o
  | ORetry p => remote_spawn_retry p o
  | OShutdownWait ok => remote_shutdown_wait ok o
  | OBrokerSpawn => broker_spawn o
  | OBrokerChildExit => broker_child_exit o
  | OBrokerSignal => broker_signal o
  end.
Definition obs_run (ops : list ObsOp) (o : Obs) : Obs := foldl (λ o op, obs_step op o) o ops.

(** What a recorder should have seen: the metrics reported while it was the
    last one installed. *)
Definition metric_of (op : ObsOp) : option Metric :=
  match op with
  | ORestart s c _ re => Some (IncRestart s c re)
  | OMeltdown s => Some (IncMeltdown s)
  | ORemoteSpawn p d ok => Some (RecordRemoteSpawn p d ok)
  | ORetry p => Some (IncRemoteSpawnRetry p)
  | _ => None
  end.
Fixpoint seen_by (r : N) (current : option N) (ops : list ObsOp) : list Metric :=
  match ops with
  | [] => []
  | OInstall r' :: ops => seen_by r (Some r') ops
  | op :: ops =>
      (if decide (current = Some r) then match metric_of op with Some m => [m] | None => [] end else []) ++
      seen_by r current ops
  end.

Lemma obs_step_slot op o :
  ob_slot (obs_step op o) = match op with OInstall r => Some r | _ => ob_slot o end.
Proof.
  assert (∀ m o, ob_slot (supervision_recorder m o) = ob_slot o) as Hs by (intros m [[r|] c t]; done).
  destruct op; try done; (etransitivity; [apply Hs|done]).
Qed.
Lemma obs_step_calls r op o :
  calls_of r (obs_step op o) =
    calls_of r o ++ (if decide (ob_slot o = Some r) then match metric_of op with Some m => [m] | None => [] end else []).
Proof.
  assert (∀ m l t e, calls_of r (supervision_recorder m (trace l t e o)) =
    calls_of r o ++ (if decide (ob_slot o = Some r) then [m] else [])) as Hm.
  { intros m l t e. unfold supervision_recorder, trace, calls_of. cbn. destruct (ob_slot o) as [r'|] eqn:Hs; cbn.
    - rewrite lookup_insert. destruct (decide (r' = r)) as [->|Hne]; [by rewrite decide_True|].
      rewrite decide_False by congruence. by rewrite app_nil_r.
    - by rewrite app_nil_r. }
  destruct op; try (cbn; by rewrite ?app_nil_r; case_decide; rewrite ?app_nil_r); apply Hm.
Qed.

(** A recorder gets each metric that is reported while it is installed, once
    and in order, and nothing else; installing another one replaces it. *)
Theorem recorder_sees ops r o :
  calls_of r (obs_run ops o) = calls_of r o ++ seen_by r (ob_slot o) ops.
Proof.
  revert o. induction ops as [|op ops IH]; intros o; [by rewrite app_nil_r|].
  change (obs_run (op :: ops) o) with (obs_run ops (obs_step op o)). rewrite IH, obs_step_calls, obs_step_slot, <- app_assoc.
  f_equal. destruct op; try done. simpl. by case_decide.
Qed.

(** [install_supervision_recorder] is documented to return false when a
    recorder is already set; it also replaces that recorder. *)
Lemma install_replaces r r' o :
  ob_slot o = Some r → install_supervision_recorder r' o = (false, mkObs (Some r') (ob_calls o) (ob_traces o)).
Proof. intros Hs. unfold install_supervision_recorder. by rewrite Hs. Qed.

(** ** What the supervisors report *)

(** [handle_exit] of the static supervisor, and of the dynamic one, for the
    action that the logic has chosen; the child is known. *)
Definition sup_exit_reports (me : ActorId) (action : SupervisorAction) (delay : Duration) (remote : bool) (o : Obs) : Obs :=
  match action with
  | Ignore => o
  | RestartOne id => restart_scheduled me id delay remote (child_exit o)
  | TerminateBatch _ => batch_terminate (child_exit o)
  | Meltdown => trace Error "spawned_concurrency" "supervisor exceeded restart intensity" (meltdown me (child_exit o))
  end.
Definition dyn_exit_reports (me : ActorId) (action : SupervisorAction) (delay : Duration) (remote : bool) (o : Obs) : Obs :=
  match action with
  | Ignore => child_exit o
  | RestartOne id => restart_scheduled me id delay remote (child_exit o)
  | TerminateBatch _ | Meltdown => trace Error "spawned_concurrency" "unexpected batch/meltdown action in dynamic supervisor" o
  end.

(** A dynamic supervisor that exceeds its restart intensity stops like a
    static one, but no recorder is told of the meltdown. *)
Lemma dynamic_meltdown_unrecorded me delay remote r o :
  ob_slot o = Some r →
  calls_of r (sup_exit_reports me Meltdown delay remote o) = calls_of r o ++ [IncMeltdown me] ∧
  calls_of r (dyn_exit_reports me Meltdown delay remote o) = calls_of r o.
Proof.
  intros Hs. split; [|done]. pose proof (obs_step_calls r (OMeltdown me) (child_exit o)) as Hc. cbn [child_exit trace ob_slot] in Hc.
  rewrite decide_True in Hc by done. exact Hc.
Qed.
(** The logic of a dynamic supervisor does choose it. *)
Lemma dynamic_meltdown_happens :
  let logic := register_child (mkChildPolicy "w" Permanent 0) (mkSlot (from_raw 1) true) (logic_new OneForOne (mkRestartIntensity 0 (from_secs 5))) in
  fst (on_child_exit (from_raw 1) (Panic "x") 0%Z logic) = Meltdown.
Proof. vm_compute. reflexivity. Qed.
