(* ===== verification/Actor.v ===== *)
(** * The life of an actor

    Model of [run_actor] and of the task that [ActorRef::spawn] runs, in
    [concurrency/src/tasks/actor.rs] and [concurrency/src/threads/actor.rs]
    (the same text up to [await]): the start callback, the receive loop, the
    stop callback, the resolution of the exit reason, and the epilogue that
    signals linked actors, leaves the process groups and publishes the
    completion.

    User callbacks are a parameter: each step that awaits one is told its
    outcome, and what a callback does to other actors are separate steps of
    the system. [on_message_dequeued] is modelled in [Backpressure],
    monitors in [Monitors], remote links and monitors in [RemoteContext]. *)

From S2P Require Import Prelude Address Errors Mailbox ChildSpec ProcessGroups Registry Links.
Import Receiver.

(** What the awaited callback does: return, or panic with a message. *)
Inductive Outcome := CbReturned | CbPanicked (msg : string).

Section actor.
Context {M : Type} `{ThisNode}.

(** One call of [rx.recv()]. While the actor runs its own context holds a
    sender of every channel, so one round of the loop decides. *)
Definition recv (rt : MailboxRuntime) (r : MailboxReceiver M) : @Recv M :=
  match rt with
  | Tasks => recv_tasks 1 r
  | Threads => recv_threads head 1 r
  end.

(** [run_actor] returns [r]: its receiver is dropped. *)
Definition return_reason (r : ExitReason) (c : Cell M) : Cell M :=
  set_phase (Exiting r) (set_rx_open false c).

(** The final [resolve_exit_reason]. *)
Definition resolve (r : ExitReason) (c : Cell M) : Cell M :=
  let '(r', (rq, lr)) := resolve_exit_reason r (c_requested_exit c) (c_linked_reason c) in
  return_reason r' (set_requested rq (set_linked_reason lr c)).

(** After the loop: cancel, then run [stopped] unless it is to be skipped. *)
Definition finish (r : ExitReason) (c : Cell M) : Cell M :=
  let c := cancel c in
  if c_skip_stopped c then resolve r c else set_phase (Stopping r) c.

(** The next step of [run_actor]; [None] when it has to wait, or has returned. *)
Definition run_actor_step (o : Outcome) (c : Cell M) : option (Cell M) :=
  match c_phase c with
  | Starting =>
      match o with
      | CbPanicked msg => Some (return_reason (Panic ("panic in started(): " +:+ msg)) (cancel c))
      | CbReturned =>
          if c_cancelled c then
            Some (if c_skip_stopped c then resolve Normal c else set_phase StoppingEarly c)
          else Some (set_phase Receiving c)
      end
  | StoppingEarly => Some (resolve Normal c)
  | Receiving =>
      match recv (c_rt c) (c_mailbox c) with
      | Returned (Some item) mb =>
          let c := set_mailbox mb c in
          Some (match item with
                | Message _ => set_phase (Handling false) c
                | ExitItem _ => set_phase (Handling true) c
                | Signal _ => finish Normal (set_requested (Some Shutdown) c)
                | ShutdownItem => finish Normal c
                end)
      | Returned None mb => Some (finish Normal (set_mailbox mb c))
      | _ => None
      end
  | Handling in_exit =>
      match o with
      | CbPanicked msg =>
          Some (finish (Panic ((if in_exit then "panic in exit_received: "
                                else "panic in handler: ") +:+ msg)) c)
      | CbReturned => Some (if c_cancelled c then finish Normal c else set_phase Receiving c)
      end
  | Stopping r =>
      match o with
      | CbPanicked msg =>
          Some (resolve (if is_abnormal r then r else Panic ("panic in stopped(): " +:+ msg)) c)
      | CbReturned => Some (resolve r c)
      end
  | _ => None
  end.

(** ** The system *)

Record World := mkWorld {
  actors : gmap ActorId (Cell M);
  pg : PgStore;
  names : Names.NamedStore;
  next_id : N
}.

Definition set_actors a (w : World) : World := mkWorld a (pg w) (names w) (next_id w).

(** One step of actor [i]: of [run_actor], then of the epilogue in [spawn]. *)
Definition actor_step (o : Outcome) (i : ActorId) (w : World) : option World :=
  c ← actors w !! i;
  match c_phase c with
  | Exiting r =>
      Some (set_actors (alter (set_phase (Propagated r)) i (propagate_exit i r (actors w))) w)
  | Propagated r =>
      Some (mkWorld (alter (set_phase (Left r)) i (actors w))
              (fst (remove_actor i (pg w))) (fst (Names.remove_by_actor_id i (names w)))
              (next_id w))
  | Left r =>
      Some (set_actors (alter (set_phase Completed ∘ set_completion (Some r)) i (actors w)) w)
  | Completed => None
  | _ => c' ← run_actor_step o c; Some (set_actors (<[i := c']> (actors w)) w)
  end.

(** [ActorRef::spawn], with the counter's successor as a parameter. *)
Definition spawn_with (succ : N → N) (rt : MailboxRuntime) (w : World) : ActorId * World :=
  let i := from_raw (next_id w) in
  (i, mkWorld (<[i := new_cell rt]> (actors w)) (pg w) (names w) (succ (next_id w))).

(** The source's counter is an [AtomicU64]: [ActorId::next]. *)
Definition spawn (rt : MailboxRuntime) (w : World) : ActorId * World :=
  spawn_with wrapping_succ_u64 rt w.

(** The two runtimes have the same text; [c_rt] selects how a cell receives
    and is cancelled. *)
Definition tasks_spawn (w : World) : ActorId * World := spawn Tasks w.
Definition threads_spawn (w : World) : ActorId * World := spawn Threads w.
Definition threads_run_actor_step (o : Outcome) (c : Cell M) : option (Cell M) := run_actor_step o c.

(** [start_linked_to_handle]: spawn, then link. The child runs as soon as it
    is spawned: [between k] is what it and the rest of the system do before
    the [k]-th of the operations that follow, the locks of [link_handles]. *)
Definition link_between (between : nat → World → World) (owner target : ActorId) (w : World) : World :=
  let w := between 0 w in
  let w := set_actors (alter (add_link target) owner (actors w)) w in
  let w := between 1 w in
  let w := set_actors (alter (add_link owner) target (actors w)) w in
  let w := between 2 w in
  set_actors (link_check owner target (actors w)) w.
Definition start_linked_with (succ : N → N) (rt : MailboxRuntime) (between : nat → World → World)
    (parent : ActorId) (w : World) : ActorId * World :=
  let '(i, w) := spawn_with succ rt w in (i, link_between between parent i w).

(** [pg::join_scoped] of an [ActorRef]: the two locks of the untyped and of
    the typed half of the store. *)
Definition join_ref (key : GroupKey) (i : ActorId) (between : World → World) (w : World) : World :=
  let w := mkWorld (actors w) (fst (join_scoped key i (pg w))) (names w) (next_id w) in
  let w := between w in
  mkWorld (actors w) (typed_join key "ActorRef" (local_addr i) i (pg w)) (names w) (next_id w).

(** The start closure of a [ChildSpec]: [None] is the panic of remote specs. *)
Definition start_child_with {A} (succ : N → N) (rt : MailboxRuntime) (between : nat → World → World)
    (spec : ChildSpec A) (parent : ActorId) (w : World) : option (ActorId * World) :=
  match cs_start spec with
  | UnreachableStart => None
  | StartLinked _ =>
      let '(i, w) := start_linked_with succ rt between parent w in
      Some (i,
        match cs_pg_membership spec with
        | Some m => join_ref (mkGroupKey (scope m) (group m)) i (between 4) (between 3 w)
        | None => w
        end)
  end.
Definition start_child {A} rt between (spec : ChildSpec A) parent w :=
  start_child_with wrapping_succ_u64 rt between spec parent w.

(** What the rest of the system does to an actor. [link_handles] and
    [unregister_link] lock one link table after the other, and what others do
    may fall between: they are sequences of steps ([link_labels],
    [unlink_labels]), one for each lock. The steps of one call are not tied
    to each other, so that runs in which a thread stands between two locks
    for ever are runs too; [LinkTables] has the calls with their threads. *)
Inductive Label :=
| LStep (i : ActorId) (o : Outcome)
| LPostStop (i : ActorId)
| LStop (i : ActorId)
| LShutdown (i : ActorId)
| LKill (i : ActorId)
| LTrapExit (i : ActorId) (b : bool)
| LAddLink (a b : ActorId)
| LLinkCheck (a b : ActorId)
| LDropLink (a b : ActorId)
| LSend (i : ActorId) (m : M)
| LSignal (i : ActorId) (s : OsSignal)
| LSpawn (rt : MailboxRuntime).

Definition send_user (m : M) (c : Cell M) : Cell M :=
  if c_rx_open c then
    let r := c_mailbox c in
    set_mailbox (mkReceiver (push m (user r)) (signal r) (stop r) (supervision r)
      (user_closed r) (signal_closed r) (stop_closed r) (supervision_closed r)) c
  else c.

Definition send_signal (s : OsSignal) (c : Cell M) : Cell M :=
  if c_rx_open c then
    let r := c_mailbox c in
    set_mailbox (mkReceiver (user r) (push s (signal r)) (stop r) (supervision r)
      (user_closed r) (signal_closed r) (stop_closed r) (supervision_closed r)) c
  else c.

Definition on_cell (i : ActorId) (f : Cell M → Cell M) (w : World) : option World :=
  c ← actors w !! i; Some (set_actors (<[i := f c]> (actors w)) w).

Definition step (l : Label) (w : World) : option World :=
  match l with
  | LStep i o => actor_step o i w
  | LPostStop i =>
      c ← actors w !! i;
      if c_cancelled c then on_cell i post_stop w else None
  | LStop i => on_cell i handle_stop w
  | LShutdown i => on_cell i handle_shutdown w
  | LKill i => on_cell i handle_kill w
  | LTrapExit i b => on_cell i (set_trap_exit b) w
  | LAddLink a b => _ ← actors w !! b; on_cell a (add_link b) w
  | LLinkCheck a b =>
      _ ← actors w !! a; _ ← actors w !! b;
      Some (set_actors (link_check a b (actors w)) w)
  | LDropLink a b => on_cell a (remove_link b) w
  | LSend i m => on_cell i (send_user m) w
  | LSignal i s => on_cell i (send_signal s) w
  | LSpawn rt => Some (snd (spawn rt w))
  end.

Fixpoint run (ls : list Label) (w : World) : option World :=
  match ls with [] => Some w | l :: ls => w' ← step l w; run ls w' end.

Definition link_labels (a b : ActorId) : list Label := [LAddLink a b; LAddLink b a; LLinkCheck a b].
Definition unlink_labels (a b : ActorId) : list Label := [LDropLink a b; LDropLink b a].

Definition empty_world : World := mkWorld ∅ empty_store Names.empty_names Ids.NEXT_ACTOR_ID_INIT.

(** Reachable with fewer steps than there are actor ids. *)
Definition reachable (w : World) : Prop :=
  ∃ ls, (N.of_nat (length ls) < 2 ^ 64 - 2)%N ∧ run ls empty_world = Some w.

End actor.
Arguments World M : clear implicits.
Arguments Label M : clear implicits.

(** ** Receiving while the actor runs *)

Section live.
Context {M : Type}.
Implicit Types mb : MailboxReceiver M.

(** Nothing is disconnected: the actor's context holds a sender of each. *)
Definition live mb : Prop :=
  connected (user mb) = true ∧ connected (signal mb) = true ∧ connected (stop mb) = true ∧
  connected (supervision mb) = true ∧ user_closed mb = false ∧ signal_closed mb = false ∧
  stop_closed mb = false ∧ supervision_closed mb = false.

Definition take_next mb : option (MailboxItem M * MailboxReceiver M) :=
  match queue (signal mb), queue (stop mb), queue (supervision mb), queue (user mb) with
  | s :: q, _, _, _ =>
      Some (Signal s, mkReceiver (user mb) (mkChan q true) (stop mb) (supervision mb)
                        false false false false)
  | [], _ :: q, _, _ =>
      Some (ShutdownItem, mkReceiver (user mb) (signal mb) (mkChan q true) (supervision mb)
                            false false false false)
  | [], [], e :: q, _ =>
      Some (ExitItem e, mkReceiver (user mb) (signal mb) (stop mb) (mkChan q true)
                          false false false false)
  | [], [], [], m :: q =>
      Some (Message m, mkReceiver (mkChan q true) (signal mb) (stop mb) (supervision mb)
                         false false false false)
  | [], [], [], [] => None
  end.

Lemma recv_live rt mb :
  live mb →
  recv rt mb = match take_next mb with
               | Some (i, mb') => Returned (Some i) mb'
               | None => Waits mb
               end.
Proof.
  destruct mb as [[uq uc] [sq sc] [tq tc] [vq vc] u1 s1 t1 v1]. unfold live. simpl.
  intros (-> & -> & -> & -> & -> & -> & -> & ->).
  destruct rt, sq, tq, vq, uq; reflexivity.
Qed.

Lemma take_next_live mb i mb' :
  live mb → take_next mb = Some (i, mb') →
  live mb' ∧ (i ≠ ShutdownItem → queue (stop mb') = queue (stop mb)) ∧
  (queue (stop mb) ≠ [] → i = ShutdownItem ∨ ∃ s, i = Signal s).
Proof.
  destruct mb as [[uq uc] [sq sc] [tq tc] [vq vc] u1 s1 t1 v1]. unfold live, take_next. simpl.
  intros (-> & -> & -> & -> & -> & -> & -> & ->).
  destruct sq, tq, vq, uq; intros [= <- <-]; naive_solver.
Qed.
End live.

(** ** Well-formed cells *)

Definition in_loop (p : Phase) : bool :=
  match p with Starting | Receiving | Handling _ => true | _ => false end.
Definition exited (p : Phase) : bool :=
  match p with Exiting _ | Propagated _ | Left _ | Completed => true | _ => false end.

Section invariant.
Context {M : Type} `{ThisNode}.
Implicit Types (c : Cell M) (w : World M).

Record cell_ok c : Prop := {
  ok_open : c_rx_open c = negb (exited (c_phase c));
  ok_live : exited (c_phase c) = false → live (c_mailbox c);
  ok_left : in_loop (c_phase c) = false → c_cancelled c = true;
  ok_done : is_Some (c_completion c) ↔ c_phase c = Completed;
  ok_posted : c_stop_posted c = true → c_cancelled c = true;
  ok_stop : c_stop_posted c = true → in_loop (c_phase c) = true → queue (stop (c_mailbox c)) ≠ [];
  ok_threads : c_rt c = Threads → c_cancelled c = true → c_stop_posted c = true
}.

(** Operations that touch none of the fields above. *)
Lemma cell_ok_ext c c' :
  c_rt c' = c_rt c → c_rx_open c' = c_rx_open c → c_mailbox c' = c_mailbox c →
  c_cancelled c' = c_cancelled c → c_stop_posted c' = c_stop_posted c →
  c_completion c' = c_completion c → c_phase c' = c_phase c → cell_ok c → cell_ok c'.
Proof. intros Hr Ho Hm Hc Hs Hco Hp []. by split; rewrite ?Hr, ?Ho, ?Hm, ?Hc, ?Hs, ?Hco, ?Hp. Qed.

Lemma new_cell_ok rt : cell_ok (new_cell rt).
Proof.
  by split; simpl.
Qed.

Lemma post_stop_ok c : c_cancelled c = true →
  (c_stop_posted c = false → cell_ok (set_stop_posted true (snd (send_stop c)))) →
  cell_ok c → cell_ok (post_stop c).
Proof. intros Hc Hp Hok. unfold post_stop. destruct (c_stop_posted c); auto. Qed.

(** A cell that satisfies all but the clause on the threads runtime does so
    once the stop has been posted. *)
Lemma posted_ok c :
  c_rx_open c = negb (exited (c_phase c)) →
  (exited (c_phase c) = false → live (c_mailbox c)) →
  (is_Some (c_completion c) ↔ c_phase c = Completed) →
  c_cancelled c = true →
  cell_ok (set_stop_posted true (snd (send_stop c))).
Proof.
  intros Ho Hl Hd Hc. unfold send_stop. rewrite Ho.
  destruct c as [rt t l lr rq sk ca sp mb rx co ph]; simpl in *.
  destruct ph; simpl in *; split; simpl; try done;
    intros _ _ Hn; by apply app_eq_nil in Hn as [_ ?].
Qed.

Lemma cell_ok_post_stop c : cell_ok c → c_cancelled c = true → cell_ok (post_stop c).
Proof. intros Hok Hc. apply post_stop_ok; [done| |done]. intros _. destruct Hok. by apply posted_ok. Qed.

Lemma cell_ok_cancel c : cell_ok c → cell_ok (cancel c).
Proof.
  intros Hok. pose proof Hok as [Ho Hl Hle Hd Hp Hst Hth]. unfold cancel. destruct (c_rt c) eqn:Hrt.
  - split; simpl; try done. by rewrite Hrt.
  - unfold post_stop. simpl. destruct (c_stop_posted c) eqn:Hsp.
    + apply (cell_ok_ext c); simpl; try done. by rewrite (Hp eq_refl).
    + by apply posted_ok.
Qed.

Lemma cell_ok_send_supervision e c : cell_ok c → cell_ok (snd (send_supervision e c)).
Proof.
  intros Hok. unfold send_supervision. destruct (c_rx_open c) eqn:Hop; [|done].
  destruct Hok as [Ho Hl Hle Hd Hp Hst Hth]. by split.
Qed.

Lemma cell_ok_send_user m c : cell_ok c → cell_ok (send_user m c).
Proof.
  intros Hok. unfold send_user. destruct (c_rx_open c) eqn:Hop; [|done].
  destruct Hok as [Ho Hl Hle Hd Hp Hst Hth]. by split.
Qed.

Lemma cell_ok_send_signal s c : cell_ok c → cell_ok (send_signal s c).
Proof.
  intros Hok. unfold send_signal. destruct (c_rx_open c) eqn:Hop; [|done].
  destruct Hok as [Ho Hl Hle Hd Hp Hst Hth]. by split.
Qed.

Lemma cell_ok_exit_signal i r c : cell_ok c → cell_ok (exit_signal i r c).
Proof.
  intros Hok.
  assert (∀ r, cell_ok (record_and_cancel r c)) as Hrc.
  { intros r'. unfold record_and_cancel. apply cell_ok_cancel.
    destruct (c_linked_reason c); [done|]. by apply (cell_ok_ext c). }
  destruct r; simpl; try apply Hrc; destruct (c_trap_exit c); simpl; auto using cell_ok_send_supervision.
Qed.

Lemma cell_ok_move c p :
  cell_ok c → exited (c_phase c) = false → exited p = false →
  (in_loop p = true → in_loop (c_phase c) = true) →
  (in_loop p = false → c_cancelled c = true) → cell_ok (set_phase p c).
Proof.
  intros [Ho Hl Hle Hd Hp Hst Hth] Hx Hxp Hin Hca. split; simpl; try done; auto.
  - by rewrite Ho, Hx, Hxp.
  - rewrite Hd. split; [by intros He; rewrite He in Hx|by intros ->].
Qed.

Lemma cell_ok_return c r :
  cell_ok c → c_cancelled c = true → exited (c_phase c) = false → cell_ok (return_reason r c).
Proof.
  intros [Ho Hl Hle Hd Hp Hst Hth] Hca Hx. split; simpl; try done.
  rewrite Hd. split; [by intros He; rewrite He in Hx|done].
Qed.

Lemma cell_ok_resolve c r :
  cell_ok c → c_cancelled c = true → exited (c_phase c) = false → cell_ok (resolve r c).
Proof.
  intros Hok Hca Hx. unfold resolve. destruct (resolve_exit_reason _ _ _) as [r' [rq lr]].
  apply cell_ok_return; [by apply (cell_ok_ext c)|done|done].
Qed.

Lemma cell_ok_finish c r : cell_ok c → exited (c_phase c) = false → cell_ok (finish r c).
Proof.
  intros Hok Hx. unfold finish.
  destruct (cancel_fields c) as (_ & _ & _ & _ & _ & _ & Hca & _ & _ & Hph & _).
  pose proof (cell_ok_cancel c Hok) as Hok'.
  destruct (c_skip_stopped (cancel c)).
  - apply cell_ok_resolve; [done|done|by rewrite Hph].
  - apply cell_ok_move; try done. by rewrite Hph.
Qed.

Lemma cell_ok_received c i mb :
  cell_ok c → c_phase c = Receiving → take_next (c_mailbox c) = Some (i, mb) → 
  i ≠ ShutdownItem → cell_ok (set_mailbox mb c).
Proof.
  intros [Ho Hl Hle Hd Hp Hst Hth] Hph Hn Hi. rewrite Hph in *.
  destruct (take_next_live _ _ _ (Hl eq_refl) Hn) as (Hl' & Hq & _).
  split; simpl; rewrite ?Hph; try done. by rewrite Hq.
Qed.

(** Leaving the loop with a mailbox whose last stop was just received. *)
Lemma cell_ok_finish_shutdown c r mb :
  cell_ok c → c_phase c = Receiving → live mb → cell_ok (finish r (set_mailbox mb c)).
Proof.
  intros [Ho Hl Hle Hd Hp Hst Hth] Hph Hmb. rewrite Hph in *. unfold finish.
  assert (∀ c', c_phase c' = Receiving → c_cancelled c' = true → c_rx_open c' = true →
    live (c_mailbox c') → c_completion c' = None → (c_rt c' = Threads → c_stop_posted c' = true) →
    ∀ p, in_loop p = false → exited p = false → cell_ok (set_phase p c')) as Hmove.
  { intros c' Hph' Hca' Ho' Hl' Hco' Hth' p Hin Hex. split; simpl; try done.
    - by rewrite Hex, Ho'.
    - rewrite Hco'. split; [by intros []|by intros ->].
    - intros _ Hi. congruence.
    - auto. }
  assert (c_completion c = None) as Hco.
  { destruct (c_completion c) as [x|]; [|done]. by pose proof (proj1 Hd (ex_intro _ x eq_refl)). }
  assert (let c' := cancel (set_mailbox mb c) in
    c_phase c' = Receiving ∧ c_cancelled c' = true ∧ c_rx_open c' = true ∧
    live (c_mailbox c') ∧ c_completion c' = None ∧ (c_rt c' = Threads → c_stop_posted c' = true))
    as (H1 & H2 & H3 & H4 & H5 & H6).
  { unfold cancel, post_stop, send_stop. simpl. destruct (c_rt c) eqn:Hrt; simpl.
    - rewrite Hrt. by split_and!.
    - destruct (c_stop_posted c) eqn:Hsp; simpl; [by split_and!|]. rewrite Ho. simpl.
      by split_and!. }
  destruct (c_skip_stopped _).
  - assert (cell_ok (set_phase StoppingEarly (cancel (set_mailbox mb c)))) as Hse by (by apply Hmove).
    unfold resolve. destruct (resolve_exit_reason _ _ _) as [r' [rq lr]].
    eapply (cell_ok_ext (return_reason r' (set_phase StoppingEarly (cancel (set_mailbox mb c)))));
      try done. by apply cell_ok_return.
  - by apply Hmove.
Qed.

Lemma run_actor_step_ok o c c' : cell_ok c → run_actor_step o c = Some c' → cell_ok c'.
Proof.
  intros Hok. pose proof Hok as [Ho Hl Hle Hd Hp Hst Hth]. unfold run_actor_step.
  destruct (c_phase c) eqn:Hph; try done.
  - destruct o as [|msg]; [destruct (c_cancelled c) eqn:Hca; [destruct (c_skip_stopped c)|]|];
      intros [= <-].
    + apply cell_ok_resolve; by rewrite ?Hph.
    + apply cell_ok_move; by rewrite ?Hph.
    + apply cell_ok_move; by rewrite ?Hph.
    + destruct (cancel_fields c) as (_ & _ & _ & _ & _ & _ & Hca & _ & _ & Hph' & _).
      apply cell_ok_return; [by apply cell_ok_cancel|done|by rewrite Hph', Hph].
  - rewrite recv_live by auto. destruct (take_next (c_mailbox c)) as [[i mb]|] eqn:Hn; [|done].
    destruct (take_next_live _ _ _ (Hl eq_refl) Hn) as (Hlmb & _ & _).
    destruct i; intros [= <-].
    + apply cell_ok_move; [by apply (cell_ok_received c (Message m))|simpl; by rewrite ?Hph..].
    + apply cell_ok_finish; [|by simpl; rewrite Hph].
      apply (cell_ok_ext (set_mailbox mb c)); try done. by apply (cell_ok_received c (Signal s)).
    + apply cell_ok_move; [by apply (cell_ok_received c (ExitItem e))|simpl; by rewrite ?Hph..].
    + by apply cell_ok_finish_shutdown.
  - destruct o as [|msg]; [destruct (c_cancelled c) eqn:Hca|]; intros [= <-];
      try (apply cell_ok_finish; by rewrite ?Hph). apply cell_ok_move; by rewrite ?Hph.
  - intros [= <-]. apply cell_ok_resolve; rewrite ?Hph; auto.
  - destruct o as [|msg]; intros [= <-]; (apply cell_ok_resolve; rewrite ?Hph; auto).
Qed.
End invariant.

(** ** The link tables of a reachable system *)

Section links_inv.
Context {M : Type} `{ThisNode}.
Implicit Types (c : Cell M) (w : gmap ActorId (Cell M)).

Record links_ok w : Prop := {
  lk_nodup : ∀ a ca, w !! a = Some ca → NoDup (c_links ca)
}.

(** Links unchanged, completions only published. *)
Definition links_le w w' : Prop :=
  ∀ a, match w !! a, w' !! a with
       | Some c, Some c' => c_links c' = c_links c ∧
           (is_Some (c_completion c) → is_Some (c_completion c'))
       | None, None => True
       | _, _ => False
       end.

Lemma links_le_ok w w' : links_le w w' → links_ok w → links_ok w'.
Proof.
  intros Hle [Hnd]. split. intros a ca Ha. specialize (Hle a). rewrite Ha in Hle.
  destruct (w !! a) as [c|] eqn:Hwa; [|done]. destruct Hle as [-> _]. eauto.
Qed.

Definition keeps_links (f : Cell M → Cell M) : Prop :=
  ∀ c, c_links (f c) = c_links c ∧ (is_Some (c_completion c) → is_Some (c_completion (f c))).

Lemma links_le_alter f i w : keeps_links f → links_le w (alter f i w).
Proof.
  intros Hf a. rewrite lookup_alter. case_decide; [subst|]; destruct (w !! a) as [c|]; simpl;
    auto.
Qed.

Lemma links_le_insert i c c' w :
  w !! i = Some c → c_links c' = c_links c →
  (is_Some (c_completion c) → is_Some (c_completion c')) → links_le w (<[i := c']> w).
Proof.
  intros Hi Hl Hc a. rewrite lookup_insert. case_decide; [subst; by rewrite Hi|].
  by destruct (w !! a).
Qed.

Lemma elem_of_remove_link p q c : q ∈ c_links (remove_link p c) ↔ q ∈ c_links c ∧ q ≠ p.
Proof. simpl. rewrite elem_of_iter_filter, bool_decide_eq_true. done. Qed.

Lemma elem_of_add_link p q c : q ∈ c_links (add_link p c) ↔ q ∈ c_links c ∨ q = p.
Proof.
  unfold add_link. case_bool_decide; simpl; [naive_solver|].
  rewrite elem_of_app, list_elem_of_singleton. done.
Qed.

Lemma add_link_NoDup p c : NoDup (c_links c) → NoDup (c_links (add_link p c)).
Proof.
  intros Hnd. unfold add_link. case_bool_decide; [done|]. simpl.
  apply NoDup_app. split; [done|]. split; [|apply NoDup_singleton].
  intros x Hx. rewrite list_elem_of_singleton. by intros ->.
Qed.

Lemma remove_link_NoDup p c : NoDup (c_links c) → NoDup (c_links (remove_link p c)).
Proof. apply NoDup_iter_filter. Qed.

(** Changing one table without making duplicates. *)
Lemma links_ok_alter f i w :
  (∀ c, NoDup (c_links c) → NoDup (c_links (f c))) → links_ok w → links_ok (alter f i w).
Proof.
  intros Hf [Hnd]. split. intros a ca. rewrite lookup_alter. case_decide; [|apply Hnd].
  intros (c & Hc & ->)%fmap_Some. eauto.
Qed.

Lemma signalled_keeps i r : keeps_links (exit_signal i r).
Proof.
  intros c. pose proof (exit_signal_spec i r c) as Hs.
  rewrite (sg_links _ _ _ _ Hs), (sg_completion _ _ _ _ Hs). done.
Qed.

Lemma propagate_exit_links own r w c x c' :
  w !! own = Some c → NoDup (c_links c) → propagate_exit own r w !! x = Some c' →
  ∃ d, w !! x = Some d ∧ c_completion c' = c_completion d ∧
    c_links c' = if decide (x = own) then []
                 else if decide (x ∈ c_links c) then c_links (remove_link own d) else c_links d.
Proof.
  intros Hc Hnd. rewrite (lookup_propagate own r w c x) by done.
  destruct (w !! x) as [d|] eqn:Hd; [|done]. cbn [fmap option_fmap option_map]. intros [= <-].
  exists d. split; [done|].
  destruct (decide (x ∈ c_links c)), (decide (x = own));
    rewrite ?(sg_links _ _ _ _ (exit_signal_spec own r _)),
      ?(sg_completion _ _ _ _ (exit_signal_spec own r _)); done.
Qed.

Lemma propagate_exit_ok own r w c : w !! own = Some c → links_ok w → links_ok (propagate_exit own r w).
Proof.
  intros Hc [Hnd]. pose proof (Hnd own c Hc) as Hnc. split. intros x c' Hx.
  destruct (propagate_exit_links own r w c x c' Hc Hnc Hx) as (d & Hd & _ & ->).
  repeat case_decide; [constructor|apply remove_link_NoDup|]; by apply (Hnd x).
Qed.

Lemma link_check_ok a b w : links_ok w → links_ok (link_check a b w).
Proof.
  intros Hok. unfold link_check. destruct (exit_reason b w) as [r|]; [|done].
  unfold take_self_from_peer_table. destruct (w !! b); [|done].
  assert (links_ok (alter (remove_link a) b w)) as Hrm by (apply links_ok_alter; [apply remove_link_NoDup|done]).
  case_bool_decide; [|done]. apply (links_le_ok _ _ (links_le_alter _ a _ (signalled_keeps b r)) Hrm).
Qed.
End links_inv.

(** ** Invariants of the system *)

Section system.
Context {M : Type} `{ThisNode}.
Implicit Types (c : Cell M) (w : World M).

Record world_ok w : Prop := {
  wk_cells : ∀ i c, actors w !! i = Some c → cell_ok c;
  wk_links : links_ok (actors w);
  wk_fresh : ∀ i, is_Some (actors w !! i) → (raw i < next_id w)%N
}.

Lemma run_actor_step_keeps o c c' :
  run_actor_step o c = Some c' → c_links c' = c_links c ∧ c_completion c' = c_completion c.
Proof.
  assert (∀ r c, c_links (resolve r c) = c_links c ∧ c_completion (resolve r c) = c_completion c) as Hres.
  { intros r d. unfold resolve. by destruct (resolve_exit_reason _ _ _) as [? [? ?]]. }
  assert (∀ r c, c_links (finish r c) = c_links c ∧ c_completion (finish r c) = c_completion c) as Hfin.
  { intros r d. unfold finish.
    destruct (cancel_fields d) as (_ & _ & Hl & _ & _ & _ & _ & _ & Hc & _).
    destruct (c_skip_stopped _); [|done]. destruct (Hres r (cancel d)). split; congruence. }
  unfold run_actor_step. destruct (c_phase c); try done.
  - destruct o; [destruct (c_cancelled c); [destruct (c_skip_stopped c)|]|]; intros [= <-];
      try apply Hres; try done.
    destruct (cancel_fields c) as (_ & _ & Hl & _ & _ & _ & _ & _ & Hc & _). by split.
  - destruct (recv _ _) as [[[]|] mb| | |]; try done; intros [= <-]; try done;
      match goal with |- context [finish Normal ?d] => apply (Hfin Normal d) end.
  - destruct o; [destruct (c_cancelled c)|]; intros [= <-]; try done; apply Hfin.
  - intros [= <-]. apply Hres.
  - destruct o; intros [= <-]; apply Hres.
Qed.

(** A step that only rewrites cells, keeping them well-formed. *)
Lemma world_ok_cells w a :
  world_ok w → (∀ i c, a !! i = Some c → cell_ok c) → links_ok a →
  (∀ i, is_Some (a !! i) → is_Some (actors w !! i)) → world_ok (set_actors a w).
Proof. intros [_ _ Hf] Hc Hl Hd. split; [done|done|]. intros i Hi. apply Hf. eauto. Qed.

Lemma cells_ok_alter (a : gmap ActorId (Cell M)) f j :
  (∀ c, cell_ok c → cell_ok (f c)) → (∀ i c, a !! i = Some c → cell_ok c) →
  ∀ i c, alter f j a !! i = Some c → cell_ok c.
Proof.
  intros Hf Ha i c. rewrite lookup_alter. case_decide; [|apply Ha].
  intros (d & Hd & ->)%fmap_Some. eauto.
Qed.

Lemma cell_ok_set_links l c : cell_ok c → cell_ok (set_links l c).
Proof. intros Hok. by apply (cell_ok_ext c). Qed.

Lemma cell_ok_add_link p c : cell_ok c → cell_ok (add_link p c).
Proof. intros Hok. unfold add_link. case_bool_decide; [done|]. by apply cell_ok_set_links. Qed.

Lemma cell_ok_remove_link p c : cell_ok c → cell_ok (remove_link p c).
Proof. apply cell_ok_set_links. Qed.

Lemma dom_alter (a : gmap ActorId (Cell M)) f j i :
  is_Some (alter f j a !! i) → is_Some (a !! i).
Proof. rewrite lookup_alter. case_decide; [|done]. subst. by rewrite fmap_is_Some. Qed.

Lemma cells_ok_link_check (a : gmap ActorId (Cell M)) x y :
  (∀ i c, a !! i = Some c → cell_ok c) →
  (∀ i c, link_check x y a !! i = Some c → cell_ok c) ∧
  (∀ i, is_Some (link_check x y a !! i) → is_Some (a !! i)).
Proof.
  intros Ha. unfold link_check. destruct (exit_reason y a) as [r|]; [|done].
  unfold take_self_from_peer_table. destruct (a !! y); [|done].
  case_bool_decide; split; intros i; try (intros c; revert i c).
  - apply cells_ok_alter; [apply cell_ok_exit_signal|].
    apply cells_ok_alter; [apply cell_ok_remove_link|done].
  - intros Hi. by do 2 apply dom_alter in Hi.
  - apply cells_ok_alter; [apply cell_ok_remove_link|done].
  - intros Hi. by apply dom_alter in Hi.
Qed.

(** A change of one cell that keeps it well-formed and its table free of
    duplicates. *)
Lemma world_ok_alter f i w :
  (∀ c, cell_ok c → cell_ok (f c)) → (∀ c, NoDup (c_links c) → NoDup (c_links (f c))) →
  world_ok w → world_ok (set_actors (alter f i (actors w)) w).
Proof.
  intros Hf Hn Hok. apply world_ok_cells; [done|..].
  - apply cells_ok_alter; [done|apply Hok].
  - apply links_ok_alter; [done|apply Hok].
  - intros j. apply dom_alter.
Qed.

Lemma link_check_world_ok a b w : world_ok w → world_ok (set_actors (link_check a b (actors w)) w).
Proof.
  intros Hok. destruct (cells_ok_link_check (actors w) a b (wk_cells _ Hok)).
  apply world_ok_cells; [done|done|apply link_check_ok, Hok|done].
Qed.

Lemma cells_ok_propagate (a : gmap ActorId (Cell M)) own r :
  (∀ i c, a !! i = Some c → cell_ok c) →
  (∀ i c, propagate_exit own r a !! i = Some c → cell_ok c) ∧
  (∀ i, is_Some (propagate_exit own r a !! i) → is_Some (a !! i)).
Proof.
  intros Ha. unfold propagate_exit. destruct (a !! own) as [c0|]; [|done].
  assert (∀ ps (b : gmap ActorId (Cell M)),
    let b' := foldl (λ x peer, make_signal peer own r (alter (remove_link own) peer x)) b ps in
    (∀ i c, b !! i = Some c → cell_ok c) →
    (∀ i c, b' !! i = Some c → cell_ok c) ∧ (∀ i, is_Some (b' !! i) → is_Some (b !! i))) as Hfold.
  { induction ps as [|p ps IH]; intros b b' Hb; [done|].
    destruct (IH (make_signal p own r (alter (remove_link own) p b))) as [H1 H2].
    - apply cells_ok_alter; [apply cell_ok_exit_signal|].
      apply cells_ok_alter; [apply cell_ok_remove_link|done].
    - split; [done|]. intros i Hi%H2. by do 2 apply dom_alter in Hi. }
  destruct (Hfold (c_links c0) (alter (set_links []) own a)) as [H1 H2].
  - apply cells_ok_alter; [apply cell_ok_set_links|done].
  - split; [done|]. intros i Hi%H2. by apply dom_alter in Hi.
Qed.

Lemma on_cell_ok i f w w' :
  (∀ c, cell_ok c → cell_ok (f c)) → keeps_links f →
  world_ok w → on_cell i f w = Some w' → world_ok w'.
Proof.
  intros Hf Hk Hok. unfold on_cell. destruct (actors w !! i) as [c|] eqn:Hi; [|done].
  intros [= <-]. pose proof Hok as [Hc Hl Hfr]. apply world_ok_cells; [done|..].
  - intros j d. rewrite lookup_insert. case_decide; [|apply Hc]. intros [= <-]. eauto.
  - destruct (Hk c) as [Hkl Hkc].
    by apply (links_le_ok (actors w) _ (links_le_insert i c (f c) _ Hi Hkl Hkc)).
  - intros j. rewrite lookup_insert. case_decide; [|done]. subst. by rewrite Hi.
Qed.

Lemma keeps_cancel : keeps_links (M := M) cancel.
Proof.
  intros c. destruct (cancel_fields c) as (_ & _ & Hl & _ & _ & _ & _ & _ & Hc & _).
  by rewrite Hl, Hc.
Qed.

Lemma keeps_compose (f g : Cell M → Cell M) :
  keeps_links f → keeps_links g → keeps_links (λ c, f (g c)).
Proof.
  intros Hf Hg c. destruct (Hf (g c)) as [Hl1 Hc1], (Hg c) as [Hl2 Hc2]. split; [congruence|auto].
Qed.

Lemma keeps_post_stop : keeps_links (M := M) post_stop.
Proof.
  intros c. unfold post_stop, send_stop. destruct (c_stop_posted c); [done|]. by destruct (c_rx_open c).
Qed.

Lemma keeps_send_user (m : M) : keeps_links (send_user m).
Proof. intros c. unfold send_user. by destruct (c_rx_open c). Qed.

Lemma keeps_send_signal s : keeps_links (M := M) (send_signal s).
Proof. intros c. unfold send_signal. by destruct (c_rx_open c). Qed.

(** The epilogue: phases [Exiting], [Propagated] and [Left]. *)
Lemma cell_ok_epilogue c p :
  cell_ok c → exited (c_phase c) = true → exited p = true → p ≠ Completed → c_phase c ≠ Completed →
  cell_ok (set_phase p c).
Proof.
  intros [Ho Hl Hle Hd Hp Hst Hth] Hx Hxp Hnc Hnc'. split; simpl; try done.
  - by rewrite Ho, Hx, Hxp.
  - intros Hf. congruence.
  - intros _. apply Hle. by destruct (c_phase c).
  - rewrite Hd. tauto.
  - intros _ Hi. by destruct p.
Qed.

Lemma cell_ok_complete c r :
  cell_ok c → exited (c_phase c) = true → cell_ok (set_phase Completed (set_completion (Some r) c)).
Proof.
  intros [Ho Hl Hle Hd Hp Hst Hth] Hx. split; simpl; try done.
  - by rewrite Ho, Hx.
  - intros _. apply Hle. by destruct (c_phase c).
Qed.

(** Replacing the cell of [i]. *)
Lemma world_ok_insert i c c' w g n :
  world_ok w → actors w !! i = Some c → cell_ok c' → c_links c' = c_links c →
  (is_Some (c_completion c) → is_Some (c_completion c')) →
  world_ok (mkWorld (<[i := c']> (actors w)) g n (next_id w)).
Proof.
  intros [Hc Hl Hf] Hi Hok Hlk Hco. split; simpl.
  - intros j d. rewrite lookup_insert. case_decide; [by intros [= <-]|apply Hc].
  - by apply (links_le_ok (actors w) _ (links_le_insert i c c' _ Hi Hlk Hco)).
  - intros j Hj. apply Hf. revert Hj. rewrite lookup_insert. case_decide; [subst; by rewrite Hi|done].
Qed.

Lemma alter_insert_cell (a : gmap ActorId (Cell M)) f i c :
  a !! i = Some c → alter f i a = <[i := f c]> a.
Proof.
  intros Hi. apply map_eq. intros j. rewrite lookup_alter, lookup_insert.
  case_decide; [subst; by rewrite Hi|done].
Qed.

Lemma actor_step_ok o i w w' : world_ok w → actor_step o i w = Some w' → world_ok w'.
Proof.
  intros Hok. pose proof Hok as [Hc Hl Hf]. unfold actor_step.
  destruct (actors w !! i) as [c|] eqn:Hi; [|done]. cbn [mbind option_bind].
  pose proof (Hc i c Hi) as Hci.
  assert (∀ c', run_actor_step o c = Some c' →
    world_ok (set_actors (<[i := c']> (actors w)) w)) as Hrun.
  { intros c' Hr. destruct (run_actor_step_keeps o c c' Hr) as [Hlk Hco].
    apply (world_ok_insert i c); [done|done|by apply (run_actor_step_ok o c)|done|by rewrite Hco]. }
  destruct (c_phase c) as [| | | |r|r|r|r|] eqn:Hph;
    try (destruct (run_actor_step o c) as [c'|] eqn:Hr; [|done]; intros [= <-]; by apply Hrun);
    try done; intros [= <-].
  - destruct (cells_ok_propagate (actors w) i r Hc) as [Hpc Hpd].
    assert (links_ok (propagate_exit i r (actors w))) as Hlk by (by apply (propagate_exit_ok i r _ c)).
    assert (world_ok (set_actors (propagate_exit i r (actors w)) w)) as Hok1
      by (by apply world_ok_cells).
    destruct (propagate_exit i r (actors w) !! i) as [c1|] eqn:Hi1.
    + rewrite (alter_insert_cell _ _ _ c1 Hi1).
      apply (world_ok_insert i c1 _ (set_actors (propagate_exit i r (actors w)) w)); try done.
      rewrite (lookup_propagate i r _ c i Hi (lk_nodup _ Hl i c Hi)), Hi in Hi1.
      cbn [fmap option_fmap option_map] in Hi1. injection Hi1 as <-.
      assert (c_phase (if decide (i ∈ c_links c) then exit_signal i r (remove_link i
        (if decide (i = i) then set_links [] c else c))
        else if decide (i = i) then set_links [] c else c) = Exiting r) as Hph1.
      { rewrite (decide_True (P := i = i)) by done.
        destruct (decide _); [|done]. by rewrite (sg_phase _ _ _ _ (exit_signal_spec i r _)). }
      apply cell_ok_epilogue; rewrite ?Hph1; try done.
      apply (Hpc i). rewrite (lookup_propagate i r _ c i Hi (lk_nodup _ Hl i c Hi)), Hi. done.
    + by rewrite (lookup_propagate i r _ c i Hi (lk_nodup _ Hl i c Hi)), Hi in Hi1.
  - rewrite (alter_insert_cell _ _ _ c Hi). apply (world_ok_insert i c); try done.
    apply cell_ok_epilogue; by rewrite ?Hph.
  - rewrite (alter_insert_cell _ _ _ c Hi).
    apply (world_ok_insert i c); try done. apply cell_ok_complete; by rewrite ?Hph.
Qed.

Lemma actor_step_next_id o i w w' : actor_step o i w = Some w' → next_id w' = next_id w.
Proof.
  unfold actor_step. destruct (actors w !! i) as [c|]; [|done]. cbn [mbind option_bind].
  destruct (c_phase c); try (by intros [= <-]);
    (destruct (run_actor_step o c); [by intros [= <-]|done]).
Qed.

Lemma spawn_fresh w : world_ok w → actors w !! from_raw (next_id w) = None.
Proof.
  intros [_ _ Hf]. destruct (actors w !! from_raw (next_id w)) eqn:He; [|done].
  specialize (Hf (from_raw (next_id w)) (ex_intro _ _ He)). simpl in Hf. lia.
Qed.

Lemma spawn_with_ok succ rt w :
  (next_id w < succ (next_id w))%N → world_ok w → world_ok (snd (spawn_with succ rt w)).
Proof.
  intros Hs Hok. pose proof (spawn_fresh w Hok) as Hfresh. destruct Hok as [Hc Hl Hf].
  unfold spawn_with. split; simpl.
  - intros i c. rewrite lookup_insert. case_decide; [|apply Hc]. intros [= <-]. apply new_cell_ok.
  - destruct Hl as [Hnd]. split.
    intros a ca. rewrite lookup_insert. case_decide; [|apply Hnd]. intros [= <-]. constructor.
  - intros i. rewrite lookup_insert. case_decide as Hi.
    + intros _. subst i. simpl. lia.
    + intros Hi'%Hf. lia.
Qed.

Lemma spawn_ok rt w : (next_id w < 2 ^ 64 - 1)%N → world_ok w → world_ok (snd (spawn rt w)).
Proof.
  intros Hn. apply spawn_with_ok. unfold wrapping_succ_u64. rewrite N.mod_small; lia.
Qed.

Definition spawns (l : Label M) : bool := match l with LSpawn _ => true | _ => false end.

Lemma step_ok_same l w w' :
  spawns l = false → world_ok w → step l w = Some w' → world_ok w' ∧ next_id w' = next_id w.
Proof.
  intros Hl Hok.
  assert (∀ i f w', on_cell i f w = Some w' → next_id w' = next_id w) as Hid.
  { intros i f w1. unfold on_cell. destruct (actors w !! i); [by intros [= <-]|done]. }
  assert (∀ i f w', (∀ c, cell_ok c → cell_ok (f c)) → keeps_links f →
    on_cell i f w = Some w' → world_ok w' ∧ next_id w' = next_id w) as Hcell.
  { intros i f w1 Hf Hk Hs. split; [by eapply on_cell_ok|by eapply Hid]. }
  assert (∀ i f w', (∀ c, cell_ok c → cell_ok (f c)) → (∀ c, NoDup (c_links c) → NoDup (c_links (f c))) →
    on_cell i f w = Some w' → world_ok w' ∧ next_id w' = next_id w) as Htable.
  { intros i f w1 Hf Hn. unfold on_cell. destruct (actors w !! i) as [c|] eqn:Hi; [|done]. intros [= <-].
    split; [|done]. rewrite <- (alter_insert_cell _ f i c Hi). by apply world_ok_alter. }
  destruct l as [i o|i|i|i|i|i b|a b|a b|a b|i m|i s|rt]; simpl.
  - intros Hs. split; [by eapply actor_step_ok|by eapply actor_step_next_id].
  - destruct (actors w !! i) as [c|] eqn:Hi; [|done]. simpl.
    destruct (c_cancelled c) eqn:Hca; [|done]. unfold on_cell. rewrite Hi. simpl.
    intros [= <-]. split; [|done].
    destruct (keeps_post_stop c). apply (world_ok_insert i c); try done.
    apply cell_ok_post_stop; [by apply (wk_cells _ Hok i)|done].
  - apply Hcell; [apply cell_ok_cancel|apply keeps_cancel].
  - apply Hcell.
    + intros c Hc. apply cell_ok_cancel. by apply (cell_ok_ext c).
    + by apply (keeps_compose cancel); [apply keeps_cancel|].
  - apply Hcell.
    + intros c Hc. apply cell_ok_cancel. by apply (cell_ok_ext c).
    + by apply (keeps_compose cancel (λ c, set_skip_stopped true (set_requested (Some Kill) c)));
        [apply keeps_cancel|].
  - apply Hcell; [|done]. intros c Hc. by apply (cell_ok_ext c).
  - destruct (actors w !! b); [|done]. cbn [mbind option_bind].
    apply Htable; [apply cell_ok_add_link|apply add_link_NoDup].
  - destruct (actors w !! a); [|done]. destruct (actors w !! b); [|done].
    intros [= <-]. split; [|done]. by apply link_check_world_ok.
  - apply Htable; [apply cell_ok_remove_link|apply remove_link_NoDup].
  - apply Hcell; [apply cell_ok_send_user|apply keeps_send_user].
  - apply Hcell; [apply cell_ok_send_signal|apply keeps_send_signal].
  - done.
Qed.

Lemma step_ok l w w' :
  (next_id w < 2 ^ 64 - 1)%N → world_ok w → step l w = Some w' →
  world_ok w' ∧ (next_id w' ≤ next_id w + 1)%N.
Proof.
  intros Hn Hok Hs. destruct (spawns l) eqn:Hl.
  - destruct l; try done. injection Hs as <-. split; [by apply spawn_ok|]. simpl.
    unfold wrapping_succ_u64. rewrite N.mod_small; lia.
  - destruct (step_ok_same l w w' Hl Hok Hs) as [? ->]. split; [done|lia].
Qed.
End system.

Section reachable.
Context {M : Type} `{ThisNode}.
Implicit Types (c : Cell M) (w : World M).

Lemma run_ok ls w w' :
  (next_id w + N.of_nat (length ls) < 2 ^ 64 - 1)%N → world_ok w → run ls w = Some w' → world_ok w'.
Proof.
  revert w. induction ls as [|l ls IH]; intros w Hn Hok; [by intros [= <-]|].
  simpl. destruct (step l w) as [w1|] eqn:Hs; [|done]. simpl in *.
  destruct (step_ok l w w1 ltac:(lia) Hok Hs) as [Hok1 Hn1]. apply IH; [lia|done].
Qed.

Lemma empty_world_ok : world_ok (empty_world (M := M)).
Proof.
  split; simpl.
  - intros i c Hi. by rewrite lookup_empty in Hi.
  - split. intros a ca. by rewrite lookup_empty.
  - intros i [c Hi]. by rewrite lookup_empty in Hi.
Qed.

Lemma reachable_ok w : reachable w → world_ok w.
Proof.
  intros (ls & Hn & Hr). apply (run_ok ls empty_world); [|apply empty_world_ok|done].
  simpl. unfold Ids.NEXT_ACTOR_ID_INIT. lia.
Qed.

(** ** A cancelled actor completes *)

Definition rank (p : Phase) : nat :=
  match p with
  | Starting | Receiving | Handling _ => 5
  | StoppingEarly | Stopping _ => 4
  | Exiting _ => 3
  | Propagated _ => 2
  | Left _ => 1
  | Completed => 0
  end.

(** Actor [i] has been cancelled and its stop posted. *)
Definition stopping (i : ActorId) w : Prop :=
  ∃ c, actors w !! i = Some c ∧ c_cancelled c = true ∧ c_stop_posted c = true.
Definition phase_of (i : ActorId) w : option Phase := c_phase <$> actors w !! i.

(** Steps of actor [i] alone, with the given callback outcomes. *)
Fixpoint run_actor (i : ActorId) (outs : list Outcome) w : option (World M) :=
  match outs with [] => Some w | o :: outs => w' ← actor_step o i w; run_actor i outs w' end.

Lemma run_actor_ok i outs w w' : world_ok w → run_actor i outs w = Some w' → world_ok w'.
Proof.
  revert w. induction outs as [|o outs IH]; intros w Hok; simpl; [by intros [= <-]|].
  destruct (actor_step o i w) as [w1|] eqn:Hs; [|done]. apply IH. by eapply actor_step_ok.
Qed.

Lemma finish_rank r c :
  c_cancelled (finish r c) = true ∧ (c_stop_posted c = true → c_stop_posted (finish r c) = true) ∧
  rank (c_phase (finish r c)) ≤ 4.
Proof.
  assert (c_cancelled (cancel c) = true ∧ (c_stop_posted c = true → c_stop_posted (cancel c) = true))
    as [Hca Hsp].
  { destruct c as [[] t l lr rq sk ca [] mb [] co ph]; split; simpl; done. }
  unfold finish. destruct (c_skip_stopped _).
  - unfold resolve. destruct (resolve_exit_reason _ _ _) as [r' [rq lr]]. simpl.
    split_and!; auto; lia.
  - simpl. split_and!; auto; lia.
Qed.

Lemma run_actor_step_rank o c :
  cell_ok c → c_cancelled c = true → c_stop_posted c = true → exited (c_phase c) = false →
  ∃ c', run_actor_step o c = Some c' ∧ c_cancelled c' = true ∧ c_stop_posted c' = true ∧
    rank (c_phase c') < rank (c_phase c).
Proof.
  intros [Ho Hl Hle Hd Hp Hst Hth] Hca Hsp Hx. unfold run_actor_step. rewrite Hca.
  assert (∀ r d, c_stop_posted d = true → ∃ c', Some (finish r d) = Some c' ∧
    c_cancelled c' = true ∧ c_stop_posted c' = true ∧ rank (c_phase c') < 5) as Hfin.
  { intros r d Hd'. destruct (finish_rank r d) as (? & ? & ?). eexists. split; [done|].
    split_and!; auto; lia. }
  assert (∀ r, ∃ c', Some (resolve r c) = Some c' ∧ c_cancelled c' = true ∧
    c_stop_posted c' = true ∧ rank (c_phase c') < 4) as Hres.
  { intros r. unfold resolve. destruct (resolve_exit_reason _ _ _) as [r' [rq lr]].
    eexists. split; [done|]. simpl. split_and!; auto; lia. }
  destruct (c_phase c) eqn:Hph; simpl in Hx; try done.
  - destruct o as [|msg].
    + destruct (c_skip_stopped c); [destruct (Hres Normal) as (c' & ? & ? & ? & ?)|];
        (eexists; split; [done|]); simpl in *; simplify_eq; split_and!; auto; lia.
    + eexists. split; [done|]. unfold return_reason, cancel, post_stop, send_stop. simpl.
      destruct (c_rt c); simpl; rewrite ?Hsp; simpl; split_and!; auto; lia.
  - rewrite recv_live by auto. destruct (take_next (c_mailbox c)) as [[i mb]|] eqn:Hn.
    + destruct (take_next_live _ _ _ (Hl eq_refl) Hn) as (_ & _ & Hi).
      destruct (Hi (Hst Hsp eq_refl)) as [->|[s ->]]; simpl; by apply Hfin.
    + exfalso. pose proof (Hst Hsp eq_refl) as Hq. unfold take_next in Hn.
      destruct (queue (signal _)); [|done]. by destruct (queue (stop (c_mailbox c))).
  - destruct o; by apply Hfin.
  - destruct o; apply Hres.
Qed.

(** Each step of a cancelled actor is enabled and brings it closer. *)
Lemma actor_step_rank o i w p :
  world_ok w → stopping i w → phase_of i w = Some p → p ≠ Completed →
  ∃ w' p', actor_step o i w = Some w' ∧ stopping i w' ∧ phase_of i w' = Some p' ∧
    rank p' < rank p ∧ world_ok w'.
Proof.
  intros Hok (c & Hi & Hca & Hsp) Hp Hnc. unfold phase_of in Hp. rewrite Hi in Hp.
  injection Hp as <-. pose proof (wk_cells _ Hok i c Hi) as Hci.
  assert (∃ w' c', actor_step o i w = Some w' ∧ actors w' !! i = Some c' ∧
    c_cancelled c' = true ∧ c_stop_posted c' = true ∧ rank (c_phase c') < rank (c_phase c))
    as (w' & c' & Hs & Hi' & Hca' & Hsp' & Hrk).
  { unfold actor_step. rewrite Hi. cbn [mbind option_bind].
    destruct (exited (c_phase c)) eqn:Hx.
    - destruct (c_phase c) as [| | | |r|r|r|r|] eqn:Hph; try done;
        (eexists _, _; split; [done|]); simpl; rewrite lookup_alter_eq.
      + rewrite (lookup_propagate i r _ c i Hi (lk_nodup _ (wk_links _ Hok) i c Hi)), Hi.
        split; [done|]. cbn [c_cancelled c_stop_posted c_phase set_phase].
        rewrite (decide_True (P := i = i)) by done. destruct (decide _); [|by split_and!; simpl; auto].
        pose proof (exit_signal_spec i r (remove_link i (set_links [] c))) as Hsg.
        rewrite (sg_cancelled _ _ _ _ Hsg). simpl. rewrite Hca. split; [done|]. split; [|simpl; lia].
        unfold exit_signal, record_and_cancel, cancel, post_stop, send_stop, send_supervision.
        repeat case_match; simpl in *; congruence.
      + rewrite Hi. split; [done|]. simpl. split_and!; auto.
      + rewrite Hi. split; [done|]. simpl. split_and!; auto.
    - destruct (run_actor_step_rank o c Hci Hca Hsp Hx) as (c' & Hr & ? & ? & ?).
      exists (set_actors (<[i := c']> (actors w)) w), c'. rewrite Hr.
      split; [by destruct (c_phase c)|]. split; [by simpl; rewrite lookup_insert_eq|done]. }
  exists w', (c_phase c'). split; [done|]. split; [by exists c'|].
  split; [unfold phase_of; by rewrite Hi'|]. split; [done|]. by eapply actor_step_ok.
Qed.

Lemma stopping_completes n outs i w p :
  world_ok w → stopping i w → phase_of i w = Some p → rank p ≤ n → n ≤ length outs →
  ∃ k w', k ≤ n ∧ run_actor i (take k outs) w = Some w' ∧ phase_of i w' = Some Completed.
Proof.
  revert outs w p. induction n as [|n IH]; intros outs w p Hok Hst Hp Hr Hlen.
  { exists 0, w. split; [done|]. split; [by destruct outs|]. destruct p; simpl in *; (done || lia). }
  destruct (decide (p = Completed)) as [->|Hnc]; [exists 0, w; split_and!; [lia|by destruct outs|done]|].
  destruct outs as [|o outs]; simpl in Hlen; [lia|].
  destruct (actor_step_rank o i w p Hok Hst Hp Hnc) as (w1 & p1 & Hs & Hst1 & Hp1 & Hrk & Hok1).
  destruct (IH outs w1 p1 Hok1 Hst1 Hp1 ltac:(lia) ltac:(lia)) as (k & w' & Hk & Hrun & Hdone).
  exists (S k), w'. split; [lia|]. split; [|done]. simpl. by rewrite Hs.
Qed.
End reachable.

(** C25: a cancelled actor terminates. In any reachable system, once the stop
    of a cancelled actor has been posted, at most five of its own steps
    complete it and publish its exit reason, whatever is queued in its
    mailbox and whatever its callbacks do, as long as they return or panic. *)
Theorem cancelled_actor_completes {M} `{ThisNode} (w : World M) i outs :
  reachable w → stopping i w → 5 ≤ length outs →
  ∃ k w', k ≤ 5 ∧ run_actor i (take k outs) w = Some w' ∧
    phase_of i w' = Some Completed ∧ is_Some (exit_reason i (actors w')).
Proof.
  intros Hr Hst Hlen. pose proof (reachable_ok w Hr) as Hok. pose proof Hst as (c & Hi & _).
  destruct (stopping_completes 5 outs i w (c_phase c) Hok Hst) as (k & w' & Hk & Hrun & Hdone);
    [unfold phase_of; by rewrite Hi|destruct (c_phase c); simpl; lia|done|].
  exists k, w'. split_and!; try done.
  pose proof (run_actor_ok _ _ _ _ Hok Hrun) as Hok'.
  unfold phase_of in Hdone. destruct (actors w' !! i) as [c'|] eqn:Hi'; [|done].
  injection Hdone as Hph. unfold exit_reason. rewrite Hi'. simpl.
  by apply (ok_done _ (wk_cells _ Hok' i c' Hi')).
Qed.

(** ** The exit reason of a requested termination *)

Section decided.
Context {M : Type} `{ThisNode}.
Implicit Types (c : Cell M) (w : World M).

(** The exit reason will be [r], and with [k] without running [stopped]: it
    was requested, or an OS signal is about to request it. *)
Definition decided (k : bool) (r : ExitReason) c : Prop :=
  (k = true → c_skip_stopped c = true) ∧
  match c_phase c with
  | Starting => False
  | Receiving =>
      if bool_decide (queue (signal (c_mailbox c)) = []) then c_requested_exit c = Some r else r = Shutdown
  | Handling _ => c_requested_exit c = Some r
  | StoppingEarly | Stopping _ => c_requested_exit c = Some r ∧ k = false
  | Exiting r' | Propagated r' | Left r' => r' = r
  | Completed => c_completion c = Some r
  end.

Lemma decided_resolve k r r0 c :
  (k = true → c_skip_stopped c = true) → c_requested_exit c = Some r → decided k r (resolve r0 c).
Proof. intros Hk Hr. unfold resolve. rewrite Hr. by split. Qed.

Lemma decided_finish k r r0 c :
  (k = true → c_skip_stopped c = true) → c_requested_exit c = Some r → decided k r (finish r0 c).
Proof.
  intros Hk Hr. unfold finish.
  destruct (cancel_fields c) as (_ & _ & _ & _ & Hrq & Hsk & _).
  destruct (c_skip_stopped (cancel c)) eqn:Hs.
  - apply decided_resolve; congruence.
  - assert (k = false) as -> by (destruct k; [|done]; rewrite Hk in Hsk; congruence).
    split; simpl; [done|]. by rewrite Hrq.
Qed.

Lemma run_actor_step_decided o k r c c' :
  cell_ok c → c_cancelled c = true → c_stop_posted c = true → decided k r c →
  run_actor_step o c = Some c' → decided k r c'.
Proof.
  intros Hok Hca Hsp [Hk Hdec]. unfold run_actor_step.
  destruct (c_phase c) eqn:Hph; try done.
  - destruct Hok as [_ Hl _ _ _ Hst _]. rewrite Hph in *.
    rewrite recv_live by auto. destruct (take_next (c_mailbox c)) as [[i mb]|] eqn:Hn; [|done].
    destruct (take_next_live _ _ _ (Hl eq_refl) Hn) as (_ & _ & Hi).
    case_bool_decide as Hq.
    + destruct (Hi (Hst Hsp eq_refl)) as [->|[s ->]]; intros [= <-]; [by apply decided_finish|].
      unfold take_next in Hn. rewrite Hq in Hn.
      by destruct (queue (stop (c_mailbox c))), (queue (supervision (c_mailbox c))),
        (queue (user (c_mailbox c))).
    + subst r. unfold take_next in Hn. destruct (queue (signal (c_mailbox c))) as [|s q]; [done|].
      simplify_eq/=. intros [= <-]. by apply decided_finish.
  - rewrite Hca. destruct o; intros [= <-]; by apply decided_finish.
  - destruct Hdec. intros [= <-]. by apply decided_resolve.
  - destruct Hdec. destruct o; intros [= <-]; by apply decided_resolve.
Qed.

Definition decided_in (k : bool) (r : ExitReason) (i : ActorId) w : Prop :=
  ∃ c, actors w !! i = Some c ∧ c_cancelled c = true ∧ c_stop_posted c = true ∧ decided k r c.

Lemma actor_step_decided o k r i w w' :
  world_ok w → decided_in k r i w → actor_step o i w = Some w' → decided_in k r i w'.
Proof.
  intros Hok (c & Hi & Hca & Hsp & Hdec) Hs.
  pose proof (wk_cells _ Hok i c Hi) as Hci.
  destruct (decide (c_phase c = Completed)) as [Hc|Hc].
  { unfold actor_step in Hs. rewrite Hi in Hs. simpl in Hs. by rewrite Hc in Hs. }
  destruct (actor_step_rank o i w (c_phase c) Hok) as (w1 & p1 & Hs1 & (c1 & Hi1 & Hca1 & Hsp1) & _);
    [by exists c|unfold phase_of; by rewrite Hi|done|].
  rewrite Hs in Hs1. injection Hs1 as <-. exists c1. split_and!; try done.
  unfold actor_step in Hs. rewrite Hi in Hs. cbn [mbind option_bind] in Hs.
  destruct Hdec as [Hk Hdec].
  destruct (c_phase c) as [| | | |r0|r0|r0|r0|] eqn:Hph; try done;
    try (destruct (run_actor_step o c) as [c'|] eqn:Hr; [|done]; injection Hs as <-;
         simpl in Hi1; rewrite lookup_insert_eq in Hi1; injection Hi1 as <-;
         apply (run_actor_step_decided o k r c); try done; split; [done|]; by rewrite Hph);
    injection Hs as <-; simpl in Hi1; rewrite lookup_alter_eq in Hi1; subst r0.
  - rewrite (lookup_propagate i r _ c i Hi (lk_nodup _ (wk_links _ Hok) i c Hi)), Hi in Hi1.
    injection Hi1 as <-. split; [|done]. intros Hr0. cbn [c_skip_stopped set_phase].
    destruct (decide (i ∈ _)); rewrite ?(sg_skip _ _ _ _ (exit_signal_spec i r _));
      destruct (decide (i = i)); by apply Hk.
  - rewrite Hi in Hi1. injection Hi1 as <-. by split.
  - rewrite Hi in Hi1. injection Hi1 as <-. by split.
Qed.

Lemma run_actor_decided outs k r i w w' :
  world_ok w → decided_in k r i w → run_actor i outs w = Some w' → decided_in k r i w'.
Proof.
  revert w. induction outs as [|o outs IH]; intros w Hok Hd; [by intros [= <-]|].
  simpl. destruct (actor_step o i w) as [w1|] eqn:Hs; [|done]. simpl.
  apply IH; [by eapply actor_step_ok|by eapply actor_step_decided].
Qed.

(** The request as the two runtimes perform it, its stop posted. *)
Definition request (r : ExitReason) c : Cell M :=
  post_stop (match r with Kill => handle_kill c | _ => handle_shutdown c end).

Lemma request_fields r c :
  c_cancelled (request r c) = true ∧ c_stop_posted (request r c) = true ∧
  c_phase (request r c) = c_phase c ∧
  queue (signal (c_mailbox (request r c))) = queue (signal (c_mailbox c)) ∧
  c_requested_exit (request r c) = Some (match r with Kill => Kill | _ => Shutdown end) ∧
  (r = Kill → c_skip_stopped (request r c) = true).
Proof. destruct c as [[] t l lr rq sk ca [] mb [] co ph], r; split_and!; done. Qed.

(** The reason that the request leads to: an actor that is killed between two
    messages looks at its queued OS signals first. *)
Definition reason_of_request (r : ExitReason) c : ExitReason :=
  match c_phase c with
  | Receiving => if bool_decide (queue (signal (c_mailbox c)) = []) then r else Shutdown
  | _ => r
  end.

Lemma request_decided r i w c :
  world_ok w → actors w !! i = Some c →
  (c_phase c = Receiving ∨ ∃ b, c_phase c = Handling b) → r = Shutdown ∨ r = Kill →
  world_ok (set_actors (<[i := request r c]> (actors w)) w) ∧
  decided_in (bool_decide (r = Kill)) (reason_of_request r c) i (set_actors (<[i := request r c]> (actors w)) w).
Proof.
  intros Hok Hi Hph Hr. pose proof (wk_cells _ Hok i c Hi) as Hci.
  destruct (request_fields r c) as (Hca & Hsp & Hp & Hq & Hrq & Hsk). split.
  - apply (world_ok_insert i c); try done.
    + unfold request. destruct Hr as [-> | ->]; apply cell_ok_post_stop.
      * apply cell_ok_cancel. by apply (cell_ok_ext c).
      * by destruct (cancel_fields (set_requested (Some Shutdown) c)) as (_ & _ & _ & _ & _ & _ & ? & _).
      * apply cell_ok_cancel. by apply (cell_ok_ext c).
      * by destruct (cancel_fields (set_skip_stopped true (set_requested (Some Kill) c)))
          as (_ & _ & _ & _ & _ & _ & ? & _).
    + by destruct c as [[] t l lr rq sk ca [] mb [] co ph], r.
    + by destruct c as [[] t l lr rq sk ca [] mb [] co ph], r.
  - exists (request r c). simpl. rewrite lookup_insert_eq. split_and!; try done. split.
    { intros Hk%bool_decide_eq_true. by apply Hsk. }
    unfold reason_of_request. rewrite Hp, Hq.
    destruct Hph as [-> |[b ->]]; [case_bool_decide; [|done]|]; rewrite Hrq; by destruct Hr as [-> | ->].
Qed.
End decided.

(** C9: a requested termination decides the exit reason. A running actor of a
    reachable system that is asked to shut down or killed, and then runs with
    nobody else acting on it, completes within five of its own steps with
    exactly that reason, even if a handler or [stopped] panics on the way; but
    if it is killed between two messages with an OS signal in its queue, the
    signal is looked at first and the reason is [Shutdown]. A killed actor
    never runs [stopped]. *)
Theorem request_decides_reason {M} `{ThisNode} (w : World M) i c r outs :
  reachable w → actors w !! i = Some c →
  (c_phase c = Receiving ∨ ∃ b, c_phase c = Handling b) → r = Shutdown ∨ r = Kill → 5 ≤ length outs →
  let w1 := set_actors (<[i := request r c]> (actors w)) w in
  (∃ k w', k ≤ 5 ∧ run_actor i (take k outs) w1 = Some w' ∧
     exit_reason i (actors w') =
       Some (if bool_decide (r = Kill ∧ c_phase c = Receiving ∧ queue (signal (c_mailbox c)) ≠ [])
             then Shutdown else r)) ∧
  (r = Kill → ∀ os w' r', run_actor i os w1 = Some w' →
     phase_of i w' ≠ Some (Stopping r') ∧ phase_of i w' ≠ Some StoppingEarly).
Proof.
  intros Hr Hi Hph Hreq Hlen w1.
  destruct (request_decided r i w c (reachable_ok w Hr) Hi Hph Hreq) as [Hok Hdec].
  fold w1 in Hok, Hdec. split.
  - pose proof Hdec as (c1 & Hi1 & Hca & Hsp & _).
    destruct (stopping_completes 5 outs i w1 (c_phase c1) Hok) as (k & w' & Hk & Hrun & Hdone);
      [by exists c1|unfold phase_of; by rewrite Hi1|destruct (c_phase c1); simpl; lia|done|].
    exists k, w'. split_and!; try done.
    destruct (run_actor_decided _ _ _ _ _ _ Hok Hdec Hrun) as (c' & Hi' & _ & _ & _ & Hd).
    unfold phase_of in Hdone. rewrite Hi' in Hdone. injection Hdone as Hp'. rewrite Hp' in Hd.
    unfold exit_reason. rewrite Hi'. cbn [mbind option_bind]. rewrite Hd. f_equal. unfold reason_of_request.
    destruct Hph as [Hph|[b Hph]]; rewrite Hph; repeat case_bool_decide; naive_solver.
  - intros -> os w' r' Hrun.
    destruct (run_actor_decided _ _ _ _ _ _ Hok Hdec Hrun) as (c' & Hi' & _ & _ & _ & Hd).
    unfold phase_of. rewrite Hi'. split; intros [= Hp']; rewrite Hp' in Hd; by destruct Hd.
Qed.

(** ** Linking to an actor that dies *)

(** The steps of a call, nothing in between. *)
Lemma run_link {M} `{ThisNode} (w : World M) a b :
  is_Some (actors w !! a) → is_Some (actors w !! b) →
  run (link_labels a b) w = Some (set_actors (link_handles a b (actors w)) w).
Proof.
  intros [ca Ha] [cb Hb]. unfold link_labels. cbn [run step]. rewrite Hb. cbn [mbind option_bind].
  unfold on_cell. rewrite Ha. cbn [mbind option_bind]. cbn [actors set_actors].
  rewrite !lookup_insert_eq. cbn [mbind option_bind].
  destruct (decide (a = b)) as [->|Hne].
  - rewrite lookup_insert_eq. cbn [mbind option_bind actors set_actors]. rewrite !lookup_insert_eq. cbn [mbind option_bind].
    unfold link_handles, register_link, set_actors. simpl. do 3 f_equal.
    rewrite (alter_insert_cell _ _ b ca Ha). symmetry. apply alter_insert_cell, lookup_insert_eq.
  - assert (∀ c, (<[a := c]> (actors w)) !! b = Some cb) as Hb' by (intros c; by rewrite lookup_insert_ne).
    rewrite Hb'. cbn [mbind option_bind actors set_actors].
    assert (∀ c d, (<[b := d]> (<[a := c]> (actors w))) !! a = Some c) as Ha'
      by (intros c d; by rewrite lookup_insert_ne, lookup_insert_eq).
    rewrite Ha', lookup_insert_eq. cbn [mbind option_bind].
    unfold link_handles, register_link, set_actors. simpl. do 3 f_equal.
    rewrite (alter_insert_cell _ _ a ca Ha). symmetry. apply alter_insert_cell. by rewrite lookup_insert_ne.
Qed.
Lemma run_unlink {M} `{ThisNode} (w : World M) a b :
  is_Some (actors w !! a) → is_Some (actors w !! b) →
  run (unlink_labels a b) w = Some (set_actors (unregister_link a b (actors w)) w).
Proof.
  intros [ca Ha] [cb Hb]. unfold unlink_labels. cbn [run step]. unfold on_cell. rewrite Ha. cbn [mbind option_bind actors set_actors].
  unfold unregister_link, set_actors. rewrite (alter_insert_cell _ _ a ca Ha).
  destruct (<[a:=remove_link b ca]> (actors w) !! b) as [d|] eqn:Hd.
  - cbn [mbind option_bind]. by rewrite (alter_insert_cell _ _ b d Hd).
  - rewrite lookup_insert in Hd. case_decide; congruence.
Qed.

(** [retain] reports a change exactly because [a] was in the table. *)
Lemma add_link_removed_shorter {M} a (c : Cell M) :
  length (c_links (add_link a c)) ≠ length (c_links (remove_link a (add_link a c))).
Proof.
  pose proof (proj2 (elem_of_add_link a a c) (or_intror eq_refl)) as Hin.
  simpl. revert Hin. generalize (c_links (add_link a c)).
  induction l as [|x l IH]; simpl; [by intros ?%not_elem_of_nil|].
  pose proof (iter_filter_length (λ e, bool_decide (e ≠ a)) l) as Hle.
  intros [->|Hin]%elem_of_cons.
  - rewrite bool_decide_eq_false_2 by naive_solver. lia.
  - destruct (bool_decide _); simpl; [|lia]. intros [= Hlen]. by apply IH.
Qed.

(** Linking to an actor that has already completed delivers its exit
    signal at once: the owner is signalled with the target's exit reason
    exactly as if it had been linked when the target died. *)
Theorem link_to_dead_signals {M} `{ThisNode} (w : World M) a b ca cb r :
  a ≠ b → actors w !! a = Some ca → actors w !! b = Some cb → c_completion cb = Some r →
  ∃ w' ca' cb', run (link_labels a b) w = Some w' ∧
    actors w' !! a = Some ca' ∧ signalled b r (add_link b ca) ca' ∧
    actors w' !! b = Some cb' ∧ a ∉ c_links cb'.
Proof.
  intros Hne Ha Hb Hr.
  assert (∀ p (d : Cell M), c_completion (add_link p d) = c_completion d) as Hco.
  { intros p d. unfold add_link. by case_bool_decide. }
  assert (register_link a b (actors w) !! a = Some (add_link b ca)) as Ha1.
  { unfold register_link. rewrite lookup_alter_ne, lookup_alter_eq, Ha by done. done. }
  assert (register_link a b (actors w) !! b = Some (add_link a cb)) as Hb1.
  { unfold register_link. rewrite lookup_alter_eq, lookup_alter_ne, Hb by done. done. }
  rewrite run_link by eauto. unfold link_handles, link_check, exit_reason, take_self_from_peer_table. rewrite Hb1. simpl.
  rewrite Hco, Hr, bool_decide_eq_true_2 by apply add_link_removed_shorter.
  eexists _, (exit_signal b r (add_link b ca)), (remove_link a (add_link a cb)).
  split; [reflexivity|]. simpl. unfold make_signal.
  rewrite lookup_alter_eq, lookup_alter_ne, Ha1 by done. split; [done|].
  split; [apply exit_signal_spec|].
  rewrite lookup_alter_ne, lookup_alter_eq, Hb1 by done. split; [done|].
  by intros [_ ?]%(elem_of_remove_link a a (add_link a cb)).
Qed.

Lemma link_to_dead_signals_witness :
  let _ : ThisNode := node_new "n@h" in
  let ca := new_cell (M := ()) Tasks in
  let cb := set_completion (Some Kill) (set_phase Completed (new_cell Tasks)) in
  let w : World () := mkWorld (<[from_raw 1 := ca]> (<[from_raw 2 := cb]> ∅)) empty_store
    Names.empty_names 3 in
  ∃ w' ca' cb', run (link_labels (from_raw 1) (from_raw 2)) w = Some w' ∧
    actors w' !! from_raw 1 = Some ca' ∧
    signalled (from_raw 2) Kill (add_link (from_raw 2) ca) ca' ∧
    actors w' !! from_raw 2 = Some cb' ∧ from_raw 1 ∉ c_links cb'.
Proof.
  intros T ca cb w.
  apply (link_to_dead_signals w (from_raw 1) (from_raw 2) ca cb Kill); (discriminate || reflexivity).
Defined.

(** Actor 2 panics in its start callback; actor 1 links to it after it has
    signalled its links and before it has published its completion. *)
Definition lost_signal : list (Label ()) :=
  let a := from_raw 1 in let b := from_raw 2 in
  [LSpawn Tasks; LSpawn Tasks; LStep a CbReturned;
   LStep b (CbPanicked "boom"); LStep b CbReturned] ++
  link_labels a b ++ [LStep b CbReturned; LStep b CbReturned].

(** An exit signal can be lost: there is a reachable state in which actor
    1 is linked to actor 2, actor 2 has panicked and can take no further
    step, and actor 1 has been neither cancelled nor sent an [Exit] message,
    because the link was made between [propagate_exit] and the publication
    of the completion. The documentation of [start_linked] says that no
    signal is lost. *)
Theorem link_signal_lost `{ThisNode} :
  ∃ w ca cb, run lost_signal empty_world = Some w ∧
    actors w !! from_raw 1 = Some ca ∧ actors w !! from_raw 2 = Some cb ∧
    from_raw 2 ∈ c_links ca ∧
    c_completion cb = Some (Panic "panic in started(): boom") ∧
    c_cancelled ca = false ∧ c_linked_reason ca = None ∧ pending (c_mailbox ca) = [] ∧
    ∀ o, actor_step o (from_raw 2) w = None.
Proof.
  eexists _, _, _. split; [vm_compute; reflexivity|].
  split; [vm_compute; reflexivity|]. split; [vm_compute; reflexivity|].
  split; [apply list_elem_of_singleton; reflexivity|]. split_and!; reflexivity.
Qed.

(** ** Witnesses *)

Definition one_running : World () :=
  mkWorld (<[from_raw 1 := set_phase Receiving (new_cell Tasks)]> ∅) empty_store
    Names.empty_names 2.

Lemma one_running_reachable `{ThisNode} : reachable one_running.
Proof.
  exists [LSpawn Tasks; LStep (from_raw 1) CbReturned]. split; [simpl; lia|].
  vm_compute. reflexivity.
Qed.

Definition one_stopping : World () :=
  mkWorld (<[from_raw 1 := post_stop (handle_stop (set_phase Receiving (new_cell Tasks)))]> ∅)
    empty_store Names.empty_names 2.

Lemma one_stopping_reachable `{ThisNode} : reachable one_stopping.
Proof.
  exists [LSpawn Tasks; LStep (from_raw 1) CbReturned; LStop (from_raw 1); LPostStop (from_raw 1)].
  split; [simpl; lia|]. vm_compute. reflexivity.
Qed.

Lemma cancelled_actor_completes_witness :
  let _ : ThisNode := node_new "n@h" in
  ∃ k w', k ≤ 5 ∧
    run_actor (from_raw 1) (take k (replicate 5 (CbPanicked "x"))) one_stopping = Some w' ∧
    phase_of (from_raw 1) w' = Some Completed ∧ is_Some (exit_reason (from_raw 1) (actors w')).
Proof.
  intros T. apply (cancelled_actor_completes one_stopping (from_raw 1)).
  - apply one_stopping_reachable.
  - eexists. split; [reflexivity|]. split; reflexivity.
  - simpl. lia.
Defined.

(** A kill does not always show: an actor killed while an OS signal is queued
    exits with [Shutdown], not with [Kill]. *)
Theorem kill_after_signal :
  let _ : ThisNode := node_new "n@h" in
  let i := from_raw 1 in
  (w ← run [LSignal i Terminate; LKill i; LPostStop i; LStep i CbReturned; LStep i CbReturned;
            LStep i CbReturned; LStep i CbReturned] one_running;
   exit_reason i (actors w)) = Some Shutdown.
Proof. vm_compute. reflexivity. Qed.

Lemma request_decides_reason_witness :
  let _ : ThisNode := node_new "n@h" in
  let c := set_phase Receiving (new_cell (M := ()) Tasks) in
  let w1 := set_actors (<[from_raw 1 := request Kill c]> (actors one_running)) one_running in
  (∃ k w', k ≤ 5 ∧ run_actor (from_raw 1) (take k (replicate 5 CbReturned)) w1 = Some w' ∧
     exit_reason (from_raw 1) (actors w') =
       Some (if bool_decide (Kill = Kill ∧ c_phase c = Receiving ∧ queue (signal (c_mailbox c)) ≠ [])
             then Shutdown else Kill)) ∧
  (Kill = Kill → ∀ os w' r', run_actor (from_raw 1) os w1 = Some w' →
     phase_of (from_raw 1) w' ≠ Some (Stopping r') ∧
     phase_of (from_raw 1) w' ≠ Some StoppingEarly).
Proof.
  intros T c. apply (request_decides_reason one_running (from_raw 1) c Kill (replicate 5 CbReturned)).
  - apply one_running_reachable.
  - reflexivity.
  - left. reflexivity.
  - right. reflexivity.
  - simpl. lia.
Defined.
