(* ===== verification/Signals.v ===== *)
(** * OS shutdown signals and applications

    Model of [concurrency/src/shutdown_signal.rs] (the process-wide registry
    of actors that are told of Ctrl+C and SIGTERM, and the dispatcher that
    waits for the signal) and of the part of [concurrency/src/application.rs]
    that registers the root actors and waits for them. The way a signal is
    sent to an actor is the closure made by [make_tasks_send_signal] or
    [make_threads_send_signal], a push on its signal channel. *)

From S2P Require Import Prelude Address Errors Mailbox ProcessGroups Registry Links Actor.
Import Receiver.

(** ** The registry *)

Section registry.
Context {W : Type}.

Definition SendSignalFn : Type := OsSignal → W → Result () ActorError * W.

Record SignalRegistry := mkSigRegistry {
  sr_next_id : N;
  sr_entries : list (N * SendSignalFn)
}.

Definition sr_new : SignalRegistry := mkSigRegistry 1 [].

Definition sr_register (send : SendSignalFn) (r : SignalRegistry) : N * SignalRegistry :=
  (sr_next_id r,
   mkSigRegistry (wrapping_succ_u64 (sr_next_id r)) (sr_entries r ++ [(sr_next_id r, send)])).

(** Also what dropping a [SignalGuard] does. *)
Definition sr_unregister (id : N) (r : SignalRegistry) : SignalRegistry :=
  mkSigRegistry (sr_next_id r) (iter_filter (λ e, bool_decide (e.1 ≠ id)) (sr_entries r)).

(** [entries.retain(|(_, send)| send(signal).is_ok())] *)
Fixpoint sr_dispatch_entries (s : OsSignal) (l : list (N * SendSignalFn)) (w : W)
    : list (N * SendSignalFn) * W :=
  match l with
  | [] => ([], w)
  | (id, send) :: l =>
      let '(r, w) := send s w in
      let '(l, w) := sr_dispatch_entries s l w in
      (if is_ok r then (id, send) :: l else l, w)
  end.

Definition sr_dispatch (s : OsSignal) (r : SignalRegistry) (w : W) : SignalRegistry * W :=
  let '(l, w) := sr_dispatch_entries s (sr_entries r) w in (mkSigRegistry (sr_next_id r) l, w).

(** ** The dispatcher *)

(** Where the task or thread of the dispatcher is: not spawned; spawned and
    not run yet; in [wait_shutdown_signal], subscribed; ended. *)
Inductive Dispatcher := DispNone | DispSpawned | DispWaiting | DispEnded.

(** The statics [REGISTRY] and [DISPATCHER_STARTED], and the dispatcher. *)
Record Signals := mkSignals {
  sg_registry : SignalRegistry;
  sg_started : bool;
  sg_dispatcher : Dispatcher
}.
Definition signals_new : Signals := mkSignals sr_new false DispNone.

(** [spawn_shutdown_signal_dispatcher_tasks], [.._threads] *)
Definition spawn_shutdown_signal_dispatcher (g : Signals) : Signals :=
  if sg_started g then g else mkSignals (sg_registry g) true DispSpawned.

(** The spawned task or thread gets to run and enters [wait_shutdown_signal],
    which subscribes to the signals. *)
Definition dispatcher_runs (g : Signals) : Signals :=
  match sg_dispatcher g with
  | DispSpawned => mkSignals (sg_registry g) (sg_started g) DispWaiting
  | _ => g
  end.

(** The operating system delivers a signal: the dispatcher, if it has
    subscribed, fans it out and ends; otherwise the registry hears nothing. *)
Definition os_signal (s : OsSignal) (g : Signals) (w : W) : Signals * W :=
  match sg_dispatcher g with
  | DispWaiting =>
      let '(r, w) := sr_dispatch s (sg_registry g) w in (mkSignals r (sg_started g) DispEnded, w)
  | _ => (g, w)
  end.

(** [register_shutdown_on_signal]: one guard per handle. *)
Fixpoint register_shutdown_on_signal (sends : list SendSignalFn) (r : SignalRegistry)
    : list N * SignalRegistry :=
  match sends with
  | [] => ([], r)
  | send :: sends =>
      let '(id, r) := sr_register send r in
      let '(ids, r) := register_shutdown_on_signal sends r in (id :: ids, r)
  end.

(** [register_signal_shutdown], [register_signal_shutdown_threads] *)
Definition register_signal_shutdown (sends : list SendSignalFn) (g : Signals)
    : list N * Signals :=
  match sends with
  | [] => ([], g)
  | _ =>
      let g := spawn_shutdown_signal_dispatcher g in
      let '(ids, r) := register_shutdown_on_signal sends (sg_registry g) in
      (ids, mkSignals r (sg_started g) (sg_dispatcher g))
  end.

(** Dropping the guards of an application. *)
Definition drop_guards (ids : list N) (g : Signals) : Signals :=
  mkSignals (foldl (λ r id, sr_unregister id r) (sg_registry g) ids) (sg_started g) (sg_dispatcher g).

(** ** Lemmas *)

(** Ids are handed out in increasing order, so that they identify entries. *)
Definition sr_ok (r : SignalRegistry) : Prop :=
  NoDup (fst <$> sr_entries r) ∧ ∀ e, e ∈ sr_entries r → (e.1 < sr_next_id r)%N.

Lemma fst_iter_filter_sublist (p : N * SendSignalFn → bool) l :
  NoDup (fst <$> l) → NoDup (fst <$> iter_filter p l).
Proof.
  induction l as [|e l IH]; csimpl; [done|]. intros [Hni Hnd]%NoDup_cons.
  destruct (p e); csimpl; [|auto]. apply NoDup_cons. split; [|auto].
  intros (x & Hx & Hin)%list_elem_of_fmap. apply Hni. rewrite Hx. apply list_elem_of_fmap_2.
  by apply elem_of_iter_filter in Hin as [? _].
Qed.

Lemma sr_register_ok send r :
  (sr_next_id r < 2 ^ 64 - 1)%N → sr_ok r → sr_ok (snd (sr_register send r)).
Proof.
  intros Hlt [Hnd Hmax]. unfold sr_ok. simpl. unfold wrapping_succ_u64.
  rewrite N.mod_small by lia. split.
  - rewrite fmap_app. apply NoDup_app. split_and!; [done| |apply NoDup_singleton].
    intros x (e & -> & He)%list_elem_of_fmap Hx. apply list_elem_of_singleton in Hx.
    specialize (Hmax e He). simpl in Hx. lia.
  - intros e [He|He%list_elem_of_singleton]%elem_of_app; [specialize (Hmax e He); lia|].
    subst e. simpl. lia.
Qed.

Lemma sr_unregister_ok id r : sr_ok r → sr_ok (sr_unregister id r).
Proof.
  intros [Hnd Hmax]. split; simpl.
  - by apply fst_iter_filter_sublist.
  - intros e [He _]%elem_of_iter_filter. by apply Hmax.
Qed.

(** Registering and dropping the guard again leaves the entries as they were. *)
Lemma register_unregister send r :
  sr_ok r → let '(id, r') := sr_register send r in sr_entries (sr_unregister id r') = sr_entries r.
Proof.
  intros [_ Hmax]. simpl. rewrite iter_filter_app. simpl. rewrite bool_decide_eq_false_2 by naive_solver.
  rewrite app_nil_r. apply iter_filter_all. intros e He. apply bool_decide_eq_true.
  specialize (Hmax e He). lia.
Qed.
End registry.
Arguments SendSignalFn W : clear implicits.
Arguments SignalRegistry W : clear implicits.
Arguments Signals W : clear implicits.

(** ** Signals to actors *)

Section actors.
Context {M : Type} `{ThisNode}.
Implicit Types w : World M.

(** [make_tasks_send_signal], [make_threads_send_signal] for the actor [i]:
    [send_signal_*] fails once the receiver is gone. *)
Definition make_send_signal (i : ActorId) : SendSignalFn (World M) := λ s w,
  match actors w !! i with
  | Some c => (if c_rx_open c then Ok () else Err ActorStopped,
               set_actors (<[i := send_signal s c]> (actors w)) w)
  | None => (Err ActorStopped, w)
  end.

#[local] Arguments make_send_signal : simpl never.

(** The effect on all registered actors. *)
Definition signal_all (s : OsSignal) (hs : list ActorId) w : World M :=
  foldl (λ w i, snd (make_send_signal i s w)) w hs.

Definition is_open (i : ActorId) w : bool :=
  match actors w !! i with Some c => c_rx_open c | None => false end.

Lemma is_open_send s i j w : is_open j (snd (make_send_signal i s w)) = is_open j w.
Proof.
  unfold make_send_signal, is_open. destruct (actors w !! i) as [c|] eqn:Hi; simpl; [|done].
  destruct (decide (i = j)) as [->|Hne]; [|by rewrite lookup_insert_ne].
  rewrite lookup_insert_eq, Hi. unfold send_signal. by destruct (c_rx_open c) eqn:Ho.
Qed.

Lemma dispatch_entries_actors s (l : list (N * ActorId)) w :
  sr_dispatch_entries s (prod_map id make_send_signal <$> l) w =
  (prod_map id make_send_signal <$> filter (λ e, is_open e.2 w = true) l, signal_all s (l.*2) w).
Proof.
  revert w. induction l as [|[id i] l IH]; intros w; [done|]. csimpl.
  destruct (make_send_signal i s w) as [r w1] eqn:Hs. rewrite IH. unfold signal_all. simpl.
  assert (is_ok r = is_open i w) as ->.
  { unfold make_send_signal, is_open in *. destruct (actors w !! i) as [c|]; simplify_eq; [|done].
    by destruct (c_rx_open c). }
  assert (filter (λ e, is_open e.2 w1 = true) l = filter (λ e, is_open e.2 w = true) l) as ->.
  { apply list_filter_iff. intros e. replace w1 with (snd (make_send_signal i s w)) by (by rewrite Hs).
    by rewrite is_open_send. }
  rewrite filter_cons. simpl. destruct (is_open i w) eqn:Ho.
  - rewrite decide_True by done. done.
  - rewrite decide_False by done. done.
Qed.

(** A signal changes only the cells of the actors it is sent to, and leaves
    one in the queue of each that is still open. *)
Lemma signal_all_other s hs w i : i ∉ hs → actors (signal_all s hs w) !! i = actors w !! i.
Proof.
  revert w. induction hs as [|h hs IH]; intros w; [done|]. intros [Hne Hni]%not_elem_of_cons.
  unfold signal_all in *. cbn [foldl]. rewrite IH by done.
  unfold make_send_signal. destruct (actors w !! h); simpl; [by rewrite lookup_insert_ne|done].
Qed.

Definition holds_signal (c : Cell M) : Prop :=
  c_phase c = Receiving ∧ queue (signal (c_mailbox c)) ≠ [].

Lemma send_holds_signal s c : c_phase c = Receiving → c_rx_open c = true → holds_signal (send_signal s c).
Proof.
  intros Hp Ho. unfold holds_signal, send_signal. rewrite Ho. simpl.
  split; [done|]. by destruct (queue (signal (c_mailbox c))).
Qed.

Lemma signal_all_keeps s hs w i c :
  actors w !! i = Some c → c_rx_open c = true → holds_signal c →
  ∃ c', actors (signal_all s hs w) !! i = Some c' ∧ holds_signal c'.
Proof.
  revert w c. induction hs as [|h hs IH]; intros w c Hi Ho Hc; [by exists c|].
  unfold signal_all in *. cbn [foldl]. unfold make_send_signal at 2.
  destruct (decide (h = i)) as [->|Hne].
  - rewrite Hi. simpl. apply (IH _ (send_signal s c)); simpl.
    + by rewrite lookup_insert_eq.
    + unfold send_signal. by rewrite Ho.
    + by apply send_holds_signal; [apply Hc|].
  - destruct (actors w !! h); simpl; [|by apply (IH _ c)].
    apply (IH _ c); [|done|done]. simpl. by rewrite lookup_insert_ne.
Qed.

Lemma signal_all_reaches s hs w i c :
  i ∈ hs → actors w !! i = Some c → c_phase c = Receiving → c_rx_open c = true →
  ∃ c', actors (signal_all s hs w) !! i = Some c' ∧ holds_signal c'.
Proof.
  revert w c. induction hs as [|h hs IH]; intros w c Hin Hi Hp Ho; [by apply not_elem_of_nil in Hin|].
  unfold signal_all in *. cbn [foldl]. unfold make_send_signal at 2. destruct (decide (h = i)) as [->|Hne].
  - rewrite Hi. apply (signal_all_keeps s hs _ i (send_signal s c)); simpl.
    + by rewrite lookup_insert_eq.
    + unfold send_signal. by rewrite Ho.
    + by apply send_holds_signal.
  - apply elem_of_cons in Hin as [->|Hin]; [done|].
    destruct (actors w !! h); simpl; apply (IH _ c); try done. simpl. by rewrite lookup_insert_ne.
Qed.

(** An actor whose [run_actor] has returned completes in three steps. *)
Lemma exiting_completes i w c r o1 o2 o3 :
  world_ok w → actors w !! i = Some c → c_phase c = Exiting r →
  ∃ w', run_actor i [o1; o2; o3] w = Some w' ∧ exit_reason i (actors w') = Some r.
Proof.
  intros Hok Hi Hp.
  assert (∃ w1 c1, actor_step o1 i w = Some w1 ∧ actors w1 !! i = Some c1 ∧
    c_phase c1 = Propagated r) as (w1 & c1 & H1 & Hi1 & Hp1).
  { unfold actor_step. rewrite Hi. simpl. rewrite Hp. eexists _, _. split; [reflexivity|]. simpl.
    rewrite lookup_alter_eq.
    rewrite (lookup_propagate i r _ c i Hi (lk_nodup _ (wk_links _ Hok) i c Hi)), Hi.
    split; [reflexivity|done]. }
  assert (∃ w2 c2, actor_step o2 i w1 = Some w2 ∧ actors w2 !! i = Some c2 ∧
    c_phase c2 = Left r) as (w2 & c2 & H2 & Hi2 & Hp2).
  { unfold actor_step. rewrite Hi1. simpl. rewrite Hp1. eexists _, _. split; [reflexivity|]. simpl.
    rewrite lookup_alter_eq, Hi1. split; [reflexivity|done]. }
  cbn [run_actor]. rewrite H1. cbn [mbind option_bind]. rewrite H2. cbn [mbind option_bind].
  unfold actor_step. rewrite Hi2. simpl. rewrite Hp2. eexists. split; [reflexivity|].
  unfold exit_reason. simpl. by rewrite lookup_alter_eq, Hi2.
Qed.
End actors.

(** ** Applications *)

Inductive ApplicationError := AppNode (msg : string) | Startup (msg : string).

Record Application (Nd : Type) := mkApplication {
  app_node : option Nd;
  shutdown_handles : list ActorId;
  signal_guards : list N
}.
Arguments mkApplication {Nd}.
Arguments app_node {Nd}.
Arguments shutdown_handles {Nd}.
Arguments signal_guards {Nd}.

Section application.
Context {M Nd : Type} `{ThisNode}.
Implicit Types w : World M.

(** [ApplicationBuilder::start], [start_blocking]: [build] is the outcome of
    [NodeBuilder::build] when a node is configured, [startup] the user's
    callback. *)
Definition app_start (build : option (Result Nd string))
    (startup : option Nd → World M → Result (list ActorId) ApplicationError * World M)
    (g : Signals (World M)) w
    : Result (Application Nd) ApplicationError * (Signals (World M) * World M) :=
  match build with
  | Some (Err e) => (Err (AppNode e), (g, w))
  | _ =>
      let node := match build with Some (Ok n) => Some n | _ => None end in
      match startup node w with
      | (Err e, w) => (Err e, (g, w))
      | (Ok handles, w) =>
          let '(guards, g) := register_signal_shutdown (make_send_signal <$> handles) g in
          (Ok (mkApplication node handles guards), (g, w))
      end
  end.

(** [Application::run], [run_blocking]: the handles still waited for. It
    returns when none is left. *)
Fixpoint app_run (handles : list ActorId) w : list ActorId :=
  match handles with
  | [] => []
  | h :: rest => match exit_reason h (actors w) with Some _ => app_run rest w | None => handles end
  end.

Lemma app_run_returns handles w :
  app_run handles w = [] ↔ ∀ h, h ∈ handles → is_Some (exit_reason h (actors w)).
Proof.
  induction handles as [|h hs IH]; simpl.
  - split; [intros _ h Hh; by apply not_elem_of_nil in Hh|done].
  - destruct (exit_reason h (actors w)) as [r|] eqn:Hr.
    + rewrite IH. split; [intros Hall x [->|Hx]%elem_of_cons; [by eexists|auto]|].
      intros Hall x Hx. apply Hall. by right.
    + split; [done|]. intros Hall. destruct (Hall h); [by left|congruence].
Qed.

(** ** An actor that was signalled *)

(** It will exit with [Shutdown]. *)
Definition shutting c : Prop :=
  match c_phase (M := M) c with
  | Receiving => queue (signal (c_mailbox c)) ≠ []
  | StoppingEarly | Stopping _ => c_requested_exit c = Some Shutdown
  | Exiting r | Propagated r | Left r => r = Shutdown
  | Completed => c_completion c = Some Shutdown
  | _ => False
  end.

(** A property of a cell that exit signals of others keep. *)
Definition keeps_signalled (P : Cell M → Prop) : Prop :=
  ∀ own r c, P c → P (exit_signal own r (remove_link own c)).
Definition in_cell (P : Cell M → Prop) (i : ActorId) w : Prop := ∃ c, actors w !! i = Some c ∧ P c.

Definition completed_with (r : ExitReason) c : Prop :=
  c_phase (M := M) c = Completed ∧ c_completion c = Some r.

Lemma completed_signalled r : keeps_signalled (completed_with r).
Proof.
  intros own r' c [Hp Hc]. pose proof (exit_signal_spec own r' (remove_link own c)) as Hs.
  split; [by rewrite (sg_phase _ _ _ _ Hs)|by rewrite (sg_completion _ _ _ _ Hs)].
Qed.

Lemma shutting_signalled : keeps_signalled shutting.
Proof.
  intros own r c. unfold shutting, exit_signal, record_and_cancel, cancel, post_stop, send_stop, send_supervision.
  destruct c as [[] [] l lr rq sk ca [] mb [] co ph], r; simpl; destruct lr; done.
Qed.

(** Other actors do not change that. *)
Lemma in_cell_other P o i j w w' :
  keeps_signalled P → world_ok w → i ≠ j → in_cell P i w → actor_step o j w = Some w' →
  in_cell P i w'.
Proof.
  intros HP Hok Hne (c & Hi & Hc) Hs. unfold actor_step in Hs.
  destruct (actors w !! j) as [d|] eqn:Hj; [|done]. simpl in Hs.
  destruct (c_phase d) as [| |b| |r|r|r|r|] eqn:Hp;
    try (destruct (run_actor_step o d) as [d'|]; [|done]; injection Hs as <-; exists c;
         simpl; rewrite lookup_insert_ne by done; done); simplify_eq.
  - eexists. simpl. rewrite lookup_alter_ne by done.
    rewrite (lookup_propagate j r _ d i Hj (lk_nodup _ (wk_links _ Hok) j d Hj)), Hi. simpl.
    split; [reflexivity|]. rewrite (decide_False (P := i = j)) by done.
    destruct (decide (i ∈ c_links d)); [by apply HP|done].
  - exists c. simpl. rewrite lookup_alter_ne by done. done.
  - exists c. simpl. rewrite lookup_alter_ne by done. done.
Qed.

(** How many of its own steps are left. *)
Definition steps_left (p : Phase) : nat :=
  match p with
  | Receiving => 5 | StoppingEarly | Stopping _ => 4 | Exiting _ => 3 | Propagated _ => 2
  | Left _ => 1 | _ => 0
  end.

Lemma finish_shutdown c :
  shutting (finish Normal (set_requested (Some Shutdown) c)) ∧
  steps_left (c_phase (finish Normal (set_requested (Some Shutdown) c))) < 5.
Proof.
  unfold finish. destruct (cancel_fields (set_requested (Some Shutdown) c))
    as (_ & _ & _ & _ & Hrq & _). destruct (c_skip_stopped _).
  - unfold resolve. rewrite Hrq. split; [done|simpl; lia].
  - unfold shutting. simpl. rewrite Hrq. split; [done|lia].
Qed.

Lemma shutting_step o i w c :
  world_ok w → actors w !! i = Some c → shutting c → c_phase c ≠ Completed →
  ∃ w' c', actor_step o i w = Some w' ∧ actors w' !! i = Some c' ∧ shutting c' ∧
    steps_left (c_phase c') < steps_left (c_phase c).
Proof.
  intros Hok Hi Hc Hnc. pose proof (wk_cells _ Hok i c Hi) as Hci. unfold actor_step. rewrite Hi. simpl.
  unfold shutting in Hc.
  assert (∀ r c, c_requested_exit c = Some Shutdown →
    shutting (resolve r c) ∧ steps_left (c_phase (resolve r c)) = 3) as Hres.
  { intros r c0 Hrq. unfold resolve. rewrite Hrq. done. }
  destruct (c_phase c) as [| |b| |r|r|r|r|] eqn:Hp; try done.
  - destruct Hci as [_ Hl _ _ _ _ _]. rewrite Hp in Hl. unfold run_actor_step. rewrite Hp.
    rewrite recv_live by auto. unfold take_next.
    destruct (queue (signal (c_mailbox c))) as [|s q] eqn:Hq; [done|]. simpl.
    eexists _, _. split; [reflexivity|]. simpl. rewrite lookup_insert_eq. split; [reflexivity|].
    apply finish_shutdown.
  - unfold run_actor_step. rewrite Hp. simpl. eexists _, _. split; [reflexivity|]. simpl.
    rewrite lookup_insert_eq. split; [reflexivity|]. destruct (Hres Normal c Hc) as [? ->].
    split; [done|lia].
  - unfold run_actor_step. rewrite Hp.
    destruct o as [|msg]; simpl; (eexists _, _; split; [reflexivity|]); simpl;
      rewrite lookup_insert_eq; (split; [reflexivity|]).
    + destruct (Hres r c Hc) as [? ->]. split; [done|lia].
    + destruct (Hres (if is_abnormal r then r else Panic ("panic in stopped(): " +:+ msg)) c Hc)
        as [? ->]. split; [done|lia].
  - eexists _, _. split; [reflexivity|]. simpl. rewrite lookup_alter_eq.
    rewrite (lookup_propagate i r _ c i Hi (lk_nodup _ (wk_links _ Hok) i c Hi)), Hi.
    split; [reflexivity|]. split; [done|simpl; lia].
  - eexists _, _. split; [reflexivity|]. simpl. rewrite lookup_alter_eq, Hi.
    split; [reflexivity|]. split; [done|simpl; lia].
  - eexists _, _. split; [reflexivity|]. simpl. rewrite lookup_alter_eq, Hi.
    split; [reflexivity|]. split; [simpl; by rewrite Hc|simpl; lia].
Qed.

Lemma shutting_completes n outs i w c :
  world_ok w → actors w !! i = Some c → shutting c → steps_left (c_phase c) ≤ n → n ≤ length outs →
  ∃ k w', k ≤ n ∧ run_actor i (take k outs) w = Some w' ∧ world_ok w' ∧
    in_cell (completed_with Shutdown) i w' ∧
    (∀ P j, keeps_signalled P → j ≠ i → in_cell P j w → in_cell P j w').
Proof.
  assert (∀ c, shutting c → c_phase c = Completed → completed_with Shutdown c) as Hdone.
  { intros d Hd Hp. unfold shutting in Hd. rewrite Hp in Hd. by split. }
  revert outs w c. induction n as [|n IH]; intros outs w c Hok Hi Hc Hn Hlen.
  - exists 0, w. split_and!; try done. exists c. split; [done|]. apply Hdone; [done|].
    unfold shutting in Hc. destruct (c_phase c); simpl in *; (done || lia).
  - destruct (decide (c_phase c = Completed)) as [Hp|Hp].
    { exists 0, w. split_and!; try done; [lia|]. exists c. auto. }
    destruct outs as [|o outs]; [simpl in Hlen; lia|].
    destruct (shutting_step o i w c Hok Hi Hc Hp) as (w1 & c1 & Hs & Hi1 & Hc1 & Hlt).
    pose proof (actor_step_ok o i w w1 Hok Hs) as Hok1.
    destruct (IH outs w1 c1 Hok1 Hi1 Hc1 ltac:(lia)) as (k & w' & Hk & Hrun & Hok' & Hex & Hoth);
      [simpl in Hlen; lia|].
    exists (S k), w'. split_and!; try done; [lia|simpl; by rewrite Hs|].
    intros P j HP Hne Hj. apply Hoth; [done..|]. by apply (in_cell_other P o j i w w1).
Qed.

(** Let each of the actors run, one after the other, for the given number of
    steps. *)
Fixpoint run_all (outs : ActorId → list Outcome) (l : list (ActorId * nat)) w : option (World M) :=
  match l with
  | [] => Some w
  | (h, k) :: l => w' ← run_actor h (take k (outs h)) w; run_all outs l w'
  end.

Lemma shutting_all outs hs w :
  world_ok w → NoDup hs → (∀ h, 5 ≤ length (outs h)) → (∀ h, h ∈ hs → in_cell shutting h w) →
  ∃ ks w', length ks = length hs ∧ Forall (λ k, k ≤ 5) ks ∧ run_all outs (zip hs ks) w = Some w' ∧
    (∀ h, h ∈ hs → in_cell (completed_with Shutdown) h w') ∧
    (∀ P j, keeps_signalled P → j ∉ hs → in_cell P j w → in_cell P j w').
Proof.
  intros Hok Hnd Hlen. revert w Hok. induction Hnd as [|h hs Hni Hnd IH]; intros w Hok Hall.
  { exists [], w. split_and!; try done. intros h Hh. by apply not_elem_of_nil in Hh. }
  destruct (Hall h) as (c & Hi & Hc); [by left|].
  destruct (shutting_completes 5 (outs h) h w c Hok Hi Hc) as (k & w1 & Hk & Hrun & Hok1 & Hex & Hoth);
    [by destruct (c_phase c); simpl; lia|done|].
  destruct (IH w1 Hok1) as (ks & w' & Hl & Hks & Hr & Hd & Ho).
  { intros x Hx. apply Hoth; [apply shutting_signalled|by intros ->|]. apply Hall. by right. }
  exists (k :: ks), w'. split_and!.
  - simpl. by rewrite Hl.
  - by constructor.
  - simpl. by rewrite Hrun.
  - intros x [->|Hx]%elem_of_cons; [|auto]. apply Ho; [apply completed_signalled|done|done].
  - intros P j HP [Hne Hj]%not_elem_of_cons Hin. apply Ho; [done..|]. by apply Hoth.
Qed.
End application.

(** ** What signals do *)

Section signals.
Context {M : Type} `{ThisNode}.
Implicit Types w : World M.

Lemma register_all_entries (sends : list (SendSignalFn (World M))) r :
  let '(ids, r') := register_shutdown_on_signal sends r in
  sr_entries r' = sr_entries r ++ zip ids sends ∧ length ids = length sends.
Proof.
  revert r. induction sends as [|send sends IH]; intros r; simpl; [by rewrite app_nil_r|].
  specialize (IH (snd (sr_register send r))). simpl in IH.
  destruct (register_shutdown_on_signal sends _) as [ids r']. destruct IH as [He Hl].
  simpl. rewrite He, Hl, <- app_assoc. done.
Qed.

Lemma signal_all_ok s hs w : world_ok w → world_ok (signal_all s hs w).
Proof.
  revert w. induction hs as [|h hs IH]; intros w Hok; [done|]. unfold signal_all in *. simpl.
  apply IH. unfold make_send_signal. destruct (actors w !! h) as [c|] eqn:Hh; [|done].
  apply (world_ok_insert h c); try done.
  - apply cell_ok_send_signal. by apply (wk_cells _ Hok h).
  - unfold send_signal. by destruct (c_rx_open c).
  - unfold send_signal. by destruct (c_rx_open c).
Qed.

(** A dispatcher that has not served its signal yet. *)
Definition undispatched (g : Signals (World M)) : Prop :=
  sg_started g = false ∨ sg_dispatcher g = DispSpawned ∨ sg_dispatcher g = DispWaiting.

Lemma register_signal_shutdown_spec (sends : list (SendSignalFn (World M))) g0 :
  sends ≠ [] → undispatched g0 →
  let '(ids, g) := register_signal_shutdown sends g0 in
  sg_dispatcher (dispatcher_runs g) = DispWaiting ∧
  sr_entries (sg_registry (dispatcher_runs g)) = sr_entries (sg_registry g0) ++ zip ids sends ∧
  length ids = length sends.
Proof.
  intros Hne Hg. unfold register_signal_shutdown. destruct sends as [|send sends]; [done|].
  pose proof (register_all_entries (send :: sends) (sg_registry g0)) as He.
  assert (sg_registry (spawn_shutdown_signal_dispatcher g0) = sg_registry g0) as ->
    by (unfold spawn_shutdown_signal_dispatcher; by destruct (sg_started g0)).
  destruct (register_shutdown_on_signal (send :: sends) (sg_registry g0)) as [ids r]. destruct He as [He Hl].
  unfold dispatcher_runs. cbn [sg_dispatcher sg_registry].
  assert (sg_dispatcher (spawn_shutdown_signal_dispatcher g0) = DispSpawned ∨
          sg_dispatcher (spawn_shutdown_signal_dispatcher g0) = DispWaiting) as [-> | ->].
  { unfold spawn_shutdown_signal_dispatcher. destruct (sg_started g0) eqn:Hs; [|by left].
    destruct Hg as [Hg|Hg]; [congruence|done]. }
  all: split_and!; [done|exact He|exact Hl].
Qed.

Lemma os_signal_registered s hs g0 (E : list (N * ActorId)) w :
  hs ≠ [] → undispatched g0 → sr_entries (sg_registry g0) = prod_map id make_send_signal <$> E →
  let g := dispatcher_runs (snd (register_signal_shutdown (make_send_signal <$> hs) g0)) in
  let '(g', w1) := os_signal s g w in
  ∃ ids, length ids = length hs ∧
    sr_entries (sg_registry g') =
      prod_map id make_send_signal <$> filter (λ e, is_open e.2 w = true) (E ++ zip ids hs) ∧
    w1 = signal_all s (E.*2 ++ hs) w.
Proof.
  intros Hne Hu HE. pose proof (register_signal_shutdown_spec (make_send_signal (M := M) <$> hs) g0) as Hreg.
  destruct (register_signal_shutdown _ _) as [ids g]. destruct Hreg as (Hw & He & Hl); [by destruct hs|done|].
  simpl. unfold os_signal, sr_dispatch. rewrite Hw, He, HE. rewrite length_fmap in Hl.
  assert (zip ids (make_send_signal (M := M) <$> hs) = prod_map id make_send_signal <$> zip ids hs) as ->.
  { clear. revert hs. induction ids as [|i ids IH]; intros [|h hs]; csimpl; [done..|]. by rewrite IH. }
  rewrite <- fmap_app, dispatch_entries_actors. exists ids. split_and!; [done|done|].
  f_equal. rewrite fmap_app, snd_zip; [done|lia].
Qed.

(** C36: Ctrl+C shuts an application down. In any reachable system, let the
    application register its root actors, possibly after other actors [E], with
    a dispatcher that has not served a signal yet; let the dispatcher get to
    run, and let the operating system deliver a signal while every root waits
    for its next message. All roots are told and stay registered, and no actor
    but them and [E] changes; and if then every root runs, each completes
    within five of its steps with reason [Shutdown], whatever its callbacks do,
    although the exits of linked roots reach it on the way, and the
    application's [run] returns. *)
Theorem signal_shuts_down_app g0 (E : list (N * ActorId)) w hs s outs :
  undispatched g0 → sr_entries (sg_registry g0) = prod_map id make_send_signal <$> E →
  reachable w → NoDup hs → hs ≠ [] → (∀ h, 5 ≤ length (outs h)) →
  (∀ h, h ∈ hs → phase_of h w = Some Receiving) →
  let g := dispatcher_runs (snd (register_signal_shutdown (make_send_signal <$> hs) g0)) in
  let '(g', w1) := os_signal s g w in
  (∃ ids, length ids = length hs ∧
     sr_entries (sg_registry g') =
       prod_map id make_send_signal <$> (filter (λ e, is_open e.2 w = true) E ++ zip ids hs)) ∧
  (∀ i, i ∉ hs → i ∉ E.*2 → actors w1 !! i = actors w !! i) ∧
  ∃ ks w', Forall (λ k, k ≤ 5) ks ∧ run_all outs (zip hs ks) w1 = Some w' ∧
    (∀ h, h ∈ hs → exit_reason h (actors w') = Some Shutdown) ∧ app_run hs w' = [].
Proof.
  intros Hu HE Hr Hnd Hne Hlen Hph. pose proof (reachable_ok w Hr) as Hok.
  assert (∀ h, h ∈ hs → ∃ c, actors w !! h = Some c ∧ c_phase c = Receiving ∧ c_rx_open c = true)
    as Hopen.
  { intros h Hh. specialize (Hph h Hh). apply fmap_Some in Hph as (c & Hc & Hp). exists c.
    split_and!; [done..|]. rewrite (ok_open _ (wk_cells _ Hok h c Hc)). by rewrite <- Hp. }
  pose proof (os_signal_registered s hs g0 E w Hne Hu HE) as Hos. cbv zeta in *.
  destruct (os_signal s _ w) as [g' w1]. destruct Hos as (ids & Hids & He & ->).
  split_and!.
  - exists ids. split; [done|]. rewrite He, filter_app. do 2 f_equal.
    apply list_filter_true. intros [id h] Hh%elem_of_zip_r. simpl.
    destruct (Hopen h Hh) as (c & Hc & _ & Ho). unfold is_open. by rewrite Hc.
  - intros i Hi Hj. apply signal_all_other. rewrite elem_of_app. tauto.
  - destruct (shutting_all outs hs (signal_all s (E.*2 ++ hs) w)) as (ks & w' & _ & Hks & Hrun & Hd & _); try done.
    { by apply signal_all_ok. }
    { intros h Hh. destruct (Hopen h Hh) as (c & Hc & Hp & Ho).
      destruct (signal_all_reaches s (E.*2 ++ hs) w h c) as (c' & Hc' & Hp' & Hq); [|done..|].
      - apply elem_of_app. by right.
      - exists c'. split; [done|]. unfold shutting. by rewrite Hp'. }
    exists ks, w'. assert (∀ h, h ∈ hs → exit_reason h (actors w') = Some Shutdown) as Hex.
    { intros h Hh. destruct (Hd h Hh) as (c & Hc & _ & Hco). unfold exit_reason. by rewrite Hc. }
    split_and!; try done. apply app_run_returns. intros h Hh. rewrite Hex by done. by eexists.
Qed.

(** A dispatcher serves one signal only. Once a signal has been
    dispatched every later one reaches nobody, whoever has registered
    meanwhile, and however often the dispatcher is asked to be started: the
    flag that it runs is never reset. *)
Theorem second_signal_lost s1 s2 sends (g : Signals (World M)) w1 w2 :
  sg_dispatcher g = DispWaiting → sg_started g = true →
  let g1 := fst (os_signal s1 g w1) in
  let g2 := dispatcher_runs (snd (register_signal_shutdown sends g1)) in
  os_signal s2 g2 w2 = (g2, w2).
Proof.
  intros Hw Hs. unfold os_signal, sr_dispatch. rewrite Hw.
  destruct (sr_dispatch_entries s1 _ w1) as [l w']. simpl. rewrite Hs.
  unfold register_signal_shutdown. destruct sends as [|send sends]; [done|].
  unfold spawn_shutdown_signal_dispatcher. cbn [sg_started sg_registry sg_dispatcher].
  by destruct (register_shutdown_on_signal _ _).
Qed.
End signals.

(** A linked pair of roots on different runtimes, both waiting, and an actor
    that was registered before them. *)
Definition pair_labels : list (Label ()) :=
  [LSpawn Tasks; LSpawn Threads; LSpawn Tasks] ++ link_labels (from_raw 1) (from_raw 2) ++
  [LStep (from_raw 1) CbReturned; LStep (from_raw 2) CbReturned].
Definition two_roots `{ThisNode} : World () := default empty_world (run pair_labels empty_world).
Definition registered_before : list (N * ActorId) := [(1%N, from_raw 3)].
Definition signals_before `{ThisNode} : Signals (World ()) :=
  snd (register_signal_shutdown (make_send_signal <$> registered_before.*2) signals_new).

Lemma two_roots_reachable `{ThisNode} : reachable two_roots.
Proof. exists pair_labels. split; [simpl; lia|]. vm_compute. reflexivity. Qed.

Lemma signal_shuts_down_app_witness :
  let _ : ThisNode := node_new "n@h" in
  let hs := [from_raw 1; from_raw 2] in
  let g := dispatcher_runs (snd (register_signal_shutdown (make_send_signal <$> hs) signals_before)) in
  let '(g', w1) := os_signal Terminate g two_roots in
  (∃ ids, length ids = length hs ∧
     sr_entries (sg_registry g') =
       prod_map id make_send_signal <$>
         (filter (λ e, is_open e.2 two_roots = true) registered_before ++ zip ids hs)) ∧
  (∀ i, i ∉ hs → i ∉ registered_before.*2 → actors w1 !! i = actors two_roots !! i) ∧
  ∃ ks w', Forall (λ k, k ≤ 5) ks ∧
    run_all (λ _, replicate 5 CbReturned) (zip hs ks) w1 = Some w' ∧
    (∀ h, h ∈ hs → exit_reason h (actors w') = Some Shutdown) ∧ app_run hs w' = [].
Proof.
  intros T hs. apply (signal_shuts_down_app signals_before registered_before two_roots hs Terminate
    (λ _, replicate 5 CbReturned)).
  - right. left. reflexivity.
  - reflexivity.
  - apply two_roots_reachable.
  - apply NoDup_cons; split; [|apply NoDup_singleton]. by intros ?%list_elem_of_singleton.
  - done.
  - intros h. simpl. lia.
  - intros h [->|[->|Hn]%elem_of_cons]%elem_of_cons; [reflexivity..|by apply not_elem_of_nil in Hn].
Defined.

Lemma second_signal_lost_witness :
  let _ : ThisNode := node_new "n@h" in
  let g := dispatcher_runs (snd (register_signal_shutdown [make_send_signal (from_raw 1)] signals_new)) in
  let g1 := fst (os_signal CtrlC g two_roots) in
  let g2 := dispatcher_runs (snd (register_signal_shutdown [make_send_signal (from_raw 2)] g1)) in
  os_signal Terminate g2 two_roots = (g2, two_roots).
Proof.
  intros T g. apply (second_signal_lost CtrlC Terminate [make_send_signal (from_raw 2)] g two_roots two_roots).
  - reflexivity.
  - reflexivity.
Defined.
