(* ===== verification/RtSignals.v ===== *)
(** * Signals of the threads runtime

    Model of the signal part of [rt/src/threads/mod.rs]: the handlers of the
    process, the list of subscribers, and the listeners that block until a
    signal comes ([shutdown_signal_listener], [wait_shutdown_signal]); and of
    the dispatcher thread of [concurrency/src/shutdown_signal.rs] on top of
    it, which [Signals] takes to be waiting as soon as it was started. The
    operating system's delivery is a step; a signal that finds no handler ends
    the process. *)

From S2P Require Import Prelude Address Errors Mailbox ProcessGroups Registry Links Actor Signals.

(** A channel: what was sent and not yet received, and whether the receiver
    still exists. *)
Record SigChan := mkSigChan { ch_queue : list OsSignal; ch_open : bool }.

(** [SHUTDOWN_SIGNAL_HANDLERS_REGISTERED], [SHUTDOWN_SIGNAL_SUBSCRIBERS] and
    the channels behind its senders. *)
Record RtSignals := mkRt {
  rg_registered : bool;
  rg_subscribers : list nat;
  rg_chans : list SigChan
}.
Definition rt_new : RtSignals := mkRt false [] [].

Definition register_shutdown_signal_handlers (g : RtSignals) : RtSignals :=
  if rg_registered g then g else mkRt true (rg_subscribers g) (rg_chans g).

(** [tx.send(signal).is_ok()] *)
Definition chan_send (s : OsSignal) (k : nat) (cs : list SigChan) : bool * list SigChan :=
  match cs !! k with
  | Some c => if ch_open c then (true, <[k := mkSigChan (ch_queue c ++ [s]) true]> cs) else (false, cs)
  | None => (false, cs)
  end.

(** [guard.retain(|tx| tx.send(signal).is_ok())] *)
Fixpoint notify (s : OsSignal) (subs : list nat) (cs : list SigChan) : list nat * list SigChan :=
  match subs with
  | [] => ([], cs)
  | k :: subs =>
      let '(ok, cs) := chan_send s k cs in
      let '(subs, cs) := notify s subs cs in
      (if ok then k :: subs else subs, cs)
  end.
Definition notify_subscribers (s : OsSignal) (g : RtSignals) : RtSignals :=
  let '(subs, cs) := notify s (rg_subscribers g) (rg_chans g) in mkRt (rg_registered g) subs cs.

Definition subscribe_shutdown_signal (g : RtSignals) : nat * RtSignals :=
  let g := register_shutdown_signal_handlers g in
  let k := length (rg_chans g) in
  (k, mkRt (rg_registered g) (rg_subscribers g ++ [k]) (rg_chans g ++ [mkSigChan [] true])).

(** [rx.recv().unwrap_or(OsSignal::CtrlC)]: [None] while it blocks; an error,
    and with it the default, only when the sender is gone. The listener is a
    [FnOnce]: its receiver is dropped when it returns. *)
Definition listener_recv (k : nat) (g : RtSignals) : option (OsSignal * RtSignals) :=
  c ← rg_chans g !! k;
  let close := mkRt (rg_registered g) (rg_subscribers g) (<[k := mkSigChan (tail (ch_queue c)) false]> (rg_chans g)) in
  match ch_queue c with
  | s :: _ => Some (s, close)
  | [] => if bool_decide (k ∈ rg_subscribers g) then None else Some (CtrlC, close)
  end.

(** A listener that is dropped unused. *)
Definition drop_listener (k : nat) (g : RtSignals) : RtSignals :=
  mkRt (rg_registered g) (rg_subscribers g)
    (match rg_chans g !! k with
     | Some c => <[k := mkSigChan (ch_queue c) false]> (rg_chans g)
     | None => rg_chans g
     end).

(** What can happen. [None] for a signal: the process has no handler and is
    ended by the operating system. *)
Inductive SigLabel := SSubscribe | SSignal (s : OsSignal) | SRecv (k : nat) | SDrop (k : nat).
Definition sig_step (l : SigLabel) (g : RtSignals) : option RtSignals :=
  match l with
  | SSubscribe => Some (snd (subscribe_shutdown_signal g))
  | SSignal s => if rg_registered g then Some (notify_subscribers s g) else None
  | SRecv k => snd <$> listener_recv k g
  | SDrop k => Some (drop_listener k g)
  end.
Fixpoint sig_run (ls : list SigLabel) (g : RtSignals) : option RtSignals :=
  match ls with [] => Some g | l :: ls => g ← sig_step l g; sig_run ls g end.

Definition signals_of (ls : list SigLabel) : list OsSignal :=
  omap (λ l, match l with SSignal s => Some s | _ => None end) ls.
Definition touches (k : nat) (l : SigLabel) : bool :=
  match l with SRecv j | SDrop j => bool_decide (j = k) | _ => false end.

(** ** Lemmas *)

Record rt_ok (g : RtSignals) : Prop := {
  ro_nodup : NoDup (rg_subscribers g);
  ro_bound k : k ∈ rg_subscribers g → k < length (rg_chans g);
  ro_open k c : rg_chans g !! k = Some c → ch_open c = true → k ∈ rg_subscribers g
}.

Lemma chan_send_spec s k cs :
  let '(ok, cs') := chan_send s k cs in
  length cs' = length cs ∧ (∀ j, j ≠ k → cs' !! j = cs !! j) ∧
  match cs !! k with
  | Some c => ok = ch_open c ∧ cs' !! k = Some (if ch_open c then mkSigChan (ch_queue c ++ [s]) true else c)
  | None => ok = false ∧ cs' = cs
  end.
Proof.
  unfold chan_send. destruct (cs !! k) as [c|] eqn:Hk; [|done]. destruct (ch_open c) eqn:Ho; [|done].
  split_and!; [by rewrite length_insert| |done|].
  - intros j Hj. by rewrite list_lookup_insert_ne.
  - apply list_lookup_insert_eq. by eapply lookup_lt_Some.
Qed.

(** Every open subscriber gets the signal at the end of its queue; the
    subscribers whose receiver is gone are dropped, and nobody else. *)
Lemma notify_spec s subs cs :
  NoDup subs →
  let '(subs', cs') := notify s subs cs in
  length cs' = length cs ∧ subs' `sublist_of` subs ∧
  (∀ k, k ∈ subs' ↔ k ∈ subs ∧ ch_open <$> cs !! k = Some true) ∧
  ∀ k, cs' !! k = if decide (k ∈ subs) then
      (λ c, if ch_open c then mkSigChan (ch_queue c ++ [s]) true else c) <$> cs !! k else cs !! k.
Proof.
  revert cs. induction subs as [|k subs IH]; intros cs Hnd; simpl.
  { split_and!; [done|done| |by intros k].
    intros k. rewrite !elem_of_nil. naive_solver. }
  apply NoDup_cons in Hnd as [Hni Hnd]. pose proof (chan_send_spec s k cs) as Hs.
  destruct (chan_send s k cs) as [ok cs1]. destruct Hs as (Hlen1 & Hoth1 & Hk1).
  specialize (IH cs1 Hnd). destruct (notify s subs cs1) as [subs' cs']. destruct IH as (Hlen & Hsub & Hin & Hq).
  assert (∀ j, j ∈ subs → cs1 !! j = cs !! j) as Hsame by (intros j Hj; apply Hoth1; by intros ->).
  assert (ch_open <$> cs !! k = Some true ↔ ok = true) as Hopen.
  { destruct (cs !! k) as [c|]; destruct Hk1 as [-> _]; simpl; [|done]. split; [by intros [= ->]|by intros ->]. }
  split_and!; [congruence|by destruct ok; constructor| |].
  - intros j. assert (j ∈ subs' ↔ j ∈ subs ∧ ch_open <$> cs !! j = Some true) as Hj.
    { rewrite Hin. split; intros [Hjs Ho]; (split; [done|]);
        [by rewrite <- (Hsame j Hjs)|by rewrite (Hsame j Hjs)]. }
    destruct ok; rewrite ?elem_of_cons, Hj, ?elem_of_cons.
    + split; [intros [->|[? ?]]; split; auto; by apply Hopen|]. intros [[->|?] ?]; auto.
    + split; [intros [? ?]; auto|]. intros [[->|?] Hx]; [|done]. apply Hopen in Hx. done.
  - intros j. rewrite Hq. destruct (decide (j = k)) as [->|Hne].
    + rewrite decide_False by done. rewrite decide_True by (by left).
      destruct (cs !! k) as [c|] eqn:Hk; [|destruct Hk1 as [_ ->]; by rewrite Hk].
      destruct Hk1 as [_ ->]. done.
    + rewrite Hoth1 by done. destruct (decide (j ∈ subs)).
      * by rewrite decide_True by (by right).
      * rewrite decide_False; [done|]. by intros [?|?]%elem_of_cons.
Qed.

Lemma sig_step_ok l g g' : rt_ok g → sig_step l g = Some g' → rt_ok g'.
Proof.
  intros [Hnd Hb Ho]. destruct l as [|s|k|k]; simpl.
  - intros [= <-]. unfold register_shutdown_signal_handlers.
    assert (∀ b, rt_ok (mkRt b (rg_subscribers g ++ [length (rg_chans g)]) (rg_chans g ++ [mkSigChan [] true]))) as H.
    { intros b. split; simpl.
      - apply NoDup_app. split_and!; [done| |apply NoDup_singleton].
        intros k Hk ->%list_elem_of_singleton. specialize (Hb _ Hk). lia.
      - intros k. rewrite length_app, elem_of_app, list_elem_of_singleton. simpl.
        intros [Hk| ->]; [specialize (Hb _ Hk); lia|lia].
      - intros k c [Hk|[Hlen Hk]]%lookup_app_Some Hopen; apply elem_of_app; [left; by eapply Ho|].
        apply list_lookup_singleton_Some in Hk as [Hz _]. right. apply list_elem_of_singleton. lia. }
    destruct (rg_registered g); apply H.
  - destruct (rg_registered g); [|done]. intros [= <-]. unfold notify_subscribers.
    pose proof (notify_spec s (rg_subscribers g) (rg_chans g) Hnd) as Hn.
    destruct (notify s _ _) as [subs cs]. destruct Hn as (Hlen & Hsub & Hin & Hq). split; simpl.
    + by eapply sublist_NoDup.
    + intros k [Hk _]%Hin. rewrite Hlen. by apply Hb.
    + intros k c Hk Hopen. apply Hin. rewrite Hq in Hk. case_decide as Hks.
      * split; [done|]. destruct (rg_chans g !! k) as [c0|]; [|done]. simpl in Hk. simplify_eq.
        destruct (ch_open c0) eqn:Hc0; [|congruence]. simpl. by rewrite Hc0.
      * destruct Hks. by eapply Ho.
  - intros ([s g1] & Hr & ->)%fmap_Some. unfold listener_recv in Hr.
    destruct (rg_chans g !! k) as [c|] eqn:Hk; [|done]. cbn [mbind option_bind] in Hr.
    assert (rt_ok (mkRt (rg_registered g) (rg_subscribers g)
      (<[k := mkSigChan (tail (ch_queue c)) false]> (rg_chans g)))) as H.
    { split; simpl; [done|rewrite length_insert; done|].
      intros j d [(<- & <- & _)|[_ Hj]]%list_lookup_insert_Some; [done|by eapply Ho]. }
    destruct (ch_queue c); [case_bool_decide|]; by simplify_eq.
  - intros [= <-]. unfold drop_listener. destruct (rg_chans g !! k) as [c|]; [|by split].
    split; simpl; [done|rewrite length_insert; done|].
    intros j d [(<- & <- & _)|[_ Hj]]%list_lookup_insert_Some; [done|by eapply Ho].
Qed.

Lemma sig_run_ok ls g g' : rt_ok g → sig_run ls g = Some g' → rt_ok g'.
Proof.
  revert g. induction ls as [|l ls IH]; simpl; intros g Hg; [by intros [= <-]|].
  intros (g1 & Hs & Hr)%bind_Some. apply (IH g1); [by eapply sig_step_ok|done].
Qed.

Lemma rt_new_ok : rt_ok rt_new.
Proof. split; simpl; [constructor|by intros k ?%not_elem_of_nil|done]. Qed.

(** What a listener has in its channel. *)
Lemma listener_queue k ls g g' c :
  rt_ok g → rg_chans g !! k = Some c → ch_open c = true → Forall (λ l, touches k l = false) ls →
  sig_run ls g = Some g' →
  rg_chans g' !! k = Some (mkSigChan (ch_queue c ++ signals_of ls) true).
Proof.
  revert g c. induction ls as [|l ls IH]; intros g c Hg Hk Ho Hall Hrun.
  { injection Hrun as <-. rewrite app_nil_r, Hk. destruct c. simpl in *. by subst. }
  apply Forall_cons in Hall as [Hl Hall]. simpl in Hrun. apply bind_Some in Hrun as (g1 & Hs & Hr).
  pose proof (sig_step_ok l g g1 Hg Hs) as Hg1.
  destruct l as [|s|j|j]; simpl in *; bool_simpl.
  - injection Hs as <-. apply (IH _ c) in Hr; [done|done| |done|done]. simpl.
    rewrite lookup_app_l; [unfold register_shutdown_signal_handlers; by destruct (rg_registered g)|].
    unfold register_shutdown_signal_handlers. destruct (rg_registered g); by eapply lookup_lt_Some.
  - destruct (rg_registered g); [|done]. injection Hs as <-. unfold notify_subscribers in *.
    pose proof (notify_spec s (rg_subscribers g) (rg_chans g) (ro_nodup _ Hg)) as Hn.
    destruct (notify s _ _) as [subs cs]. destruct Hn as (_ & _ & _ & Hq).
    rewrite (IH _ (mkSigChan (ch_queue c ++ [s]) true) Hg1); [|simpl|done..].
    + simpl. by rewrite <- app_assoc.
    + rewrite Hq, decide_True by (by eapply ro_open). rewrite Hk. simpl. by rewrite Ho.
  - apply fmap_Some in Hs as ([s g2] & Hs & ->). unfold listener_recv in Hs.
    destruct (rg_chans g !! j) as [d|]; [|done]. cbn [mbind option_bind] in Hs.
    assert (rg_chans g2 !! k = Some c).
    { destruct (ch_queue d); [case_bool_decide|]; simplify_eq/=; by rewrite list_lookup_insert_ne by congruence. }
    by apply (IH g2 c).
  - injection Hs as <-. apply (IH (drop_listener j g) c); try done. unfold drop_listener. simpl.
    destruct (rg_chans g !! j); [by rewrite list_lookup_insert_ne by congruence|done].
Qed.

(** A listener of the threads runtime returns the first signal that is
    delivered after it was made, whatever other listeners come, wait and go,
    and blocks until there is one: the default it would return if its sender
    were dropped is never used. And no signal ends the process any more. *)
Theorem listener_gets_first_signal pre ls g k g1 g2 :
  sig_run pre rt_new = Some g → subscribe_shutdown_signal g = (k, g1) →
  Forall (λ l, touches k l = false) ls → sig_run ls g1 = Some g2 →
  fst <$> listener_recv k g2 = head (signals_of ls) ∧
  ∀ s, is_Some (sig_step (SSignal s) g2).
Proof.
  intros Hpre Hsub Hall Hrun. pose proof (sig_run_ok pre rt_new g rt_new_ok Hpre) as Hg.
  assert (rt_ok g1) as Hg1.
  { apply (sig_step_ok SSubscribe g); [done|]. change (Some (snd (subscribe_shutdown_signal g)) = Some g1). by rewrite Hsub. }
  assert (rg_chans g1 !! k = Some (mkSigChan [] true) ∧ rg_registered g1 = true) as [Hk Hreg].
  { unfold subscribe_shutdown_signal, register_shutdown_signal_handlers in Hsub.
    destruct (rg_registered g) eqn:Hrg; injection Hsub as <- <-; simpl;
      (split; [by apply list_lookup_middle|done]). }
  pose proof (listener_queue k ls g1 g2 _ Hg1 Hk eq_refl Hall Hrun) as Hq. simpl in Hq.
  split.
  - unfold listener_recv. rewrite Hq. simpl. destruct (signals_of ls) as [|s ss]; [|done].
    rewrite bool_decide_eq_true_2; [done|]. eapply (ro_open _ (sig_run_ok _ _ _ Hg1 Hrun)); [exact Hq|done].
  - assert (rg_registered g2 = true) as Hr2.
    { clear - Hrun Hreg. revert g1 Hreg Hrun. induction ls as [|l ls IH]; simpl; intros g Hg; [by intros [= <-]|].
      intros (g1 & Hs & Hr)%bind_Some. apply (IH g1); [|done]. clear Hr IH. destruct l as [|s|j|j]; simpl in Hs.
      - injection Hs as <-. simpl. unfold register_shutdown_signal_handlers. by rewrite Hg.
      - rewrite Hg in Hs. injection Hs as <-. unfold notify_subscribers. by destruct (notify _ _ _).
      - apply fmap_Some in Hs as ([s g2'] & Hs & ->). unfold listener_recv in Hs.
        apply bind_Some in Hs as (c & _ & Hs). destruct (ch_queue c); [case_bool_decide|]; by simplify_eq/=.
      - by injection Hs as <-. }
    intros s. simpl. rewrite Hr2. by eexists.
Qed.

(** The dispatcher thread of [shutdown_signal.rs] subscribes when it runs,
    not when it is started. A signal delivered in between is not for it: when
    another listener has installed the handlers the process survives the
    signal, and the dispatcher waits for the next one. *)
Theorem early_signal_missed g s k g1 g2 :
  sig_step (SSignal s) g = Some g1 → subscribe_shutdown_signal g1 = (k, g2) → listener_recv k g2 = None.
Proof.
  intros Hs Hsub. unfold subscribe_shutdown_signal in Hsub. injection Hsub as <- <-.
  unfold listener_recv. simpl. rewrite list_lookup_middle by done. cbn [mbind option_bind ch_queue].
  rewrite bool_decide_eq_true_2; [done|]. apply elem_of_app. right. by apply list_elem_of_singleton.
Qed.

(** ** Witnesses *)

Lemma listener_gets_first_signal_witness :
  let ls := [SSubscribe; SSignal Terminate; SRecv 0; SSignal CtrlC] in
  ∃ g1 g2, subscribe_shutdown_signal (snd (subscribe_shutdown_signal rt_new)) = (1, g1) ∧
    sig_run ls g1 = Some g2 ∧ fst <$> listener_recv 1 g2 = Some Terminate.
Proof.
  intros ls. eexists _, _. split; [vm_compute; reflexivity|]. split; [vm_compute; reflexivity|].
  match goal with |- fst <$> listener_recv 1 ?g2 = _ =>
    destruct (listener_gets_first_signal [SSubscribe] ls (snd (subscribe_shutdown_signal rt_new)) 1
      (snd (subscribe_shutdown_signal (snd (subscribe_shutdown_signal rt_new)))) g2) as [Hr _] end.
  - vm_compute. reflexivity.
  - vm_compute. reflexivity.
  - repeat constructor.
  - vm_compute. reflexivity.
  - exact Hr.
Defined.

Lemma early_signal_missed_witness :
  let g := snd (subscribe_shutdown_signal rt_new) in
  ∃ g1 g2, sig_step (SSignal CtrlC) g = Some g1 ∧ subscribe_shutdown_signal g1 = (1, g2) ∧
    listener_recv 1 g2 = None.
Proof.
  intros g. eexists _, _. split; [vm_compute; reflexivity|]. split; [vm_compute; reflexivity|].
  match goal with |- listener_recv 1 ?g2 = _ =>
    apply (early_signal_missed g CtrlC 1 (mkRt true [0] [mkSigChan [CtrlC] true]) g2) end.
  - vm_compute. reflexivity.
  - vm_compute. reflexivity.
Defined.
