(* ===== verification/Requests.v ===== *)
(** * Messages, requests and replies

    Model of the request path of [concurrency/src/tasks/actor.rs] and
    [concurrency/src/threads/actor.rs] ([MessageEnvelope], [send],
    [request_raw], [request_with_timeout]) and of [Response] in
    [concurrency/src/response.rs], on top of the actors of [Actor].

    A request puts an envelope with one half of a oneshot channel into the
    actor's mailbox. The handler's result is sent through it; when the
    handler panics, or when the actor's receiver is dropped with the envelope
    still queued, that half is dropped and the requester is told that the
    actor has stopped. User code is a parameter: a step that ends a handler is
    told the value it returns. *)

From S2P Require Import Prelude Address Errors Mailbox Backpressure ChildSpec ProcessGroups Registry Links Actor.
Import Receiver.

(** ** The user mailbox *)

(** [mailbox_limits.send_user_*(&self.mailbox.user, item)]: the slot is
    taken before the channel is tried. [None]: the caller waits for a slot. *)
Definition user_send {M} (limits : ActorId → Limits) (i : ActorId) (m : M) (w : World M)
    : option (Result () ActorError * World M) :=
  c ← actors w !! i;
  let depth := N.of_nat (length (queue (user (c_mailbox c)))) in
  let full := match capacity (limits i) with Some cap => bool_decide (cap ≤ depth)%N | None => false end in
  if full then
    match mode (limits i) with FailFast => Some (Err MailboxFull, w) | Block => None end
  else if c_rx_open c then
    Some (Ok (), set_actors (<[i := send_user m c]> (actors w)) w)
  else Some (Err ActorStopped, w).

Lemma user_send_spec {M} limits i (m : M) w r w' :
  user_send limits i m w = Some (r, w') →
  match r with
  | Ok _ => ∃ c, actors w !! i = Some c ∧ c_rx_open c = true ∧
      w' = set_actors (<[i := send_user m c]> (actors w)) w
  | Err e => w' = w ∧ (e = MailboxFull ∨ e = ActorStopped)
  end.
Proof.
  unfold user_send. destruct (actors w !! i) as [c|] eqn:Hi; [|done]. cbn [mbind option_bind].
  destruct (match capacity _ with Some _ => _ | None => false end);
    [destruct (mode _); [intros [= <- <-]; auto|done]|].
  destruct (c_rx_open c) eqn:Ho; intros [= <- <-]; eauto.
Qed.

(** There is room, and the actor still receives. *)
Lemma user_send_room {M} limits i (m : M) w c :
  actors w !! i = Some c → c_rx_open c = true →
  (∀ cap, capacity (limits i) = Some cap → (N.of_nat (length (queue (user (c_mailbox c)))) < cap)%N) →
  user_send limits i m w = Some (Ok (), set_actors (<[i := send_user m c]> (actors w)) w).
Proof.
  intros Hi Ho Hcap. unfold user_send. rewrite Hi. cbn [mbind option_bind]. rewrite Ho.
  destruct (capacity (limits i)) as [cap|]; [|done].
  rewrite bool_decide_eq_false_2; [done|]. specialize (Hcap cap eq_refl). lia.
Qed.

(** ** Requests *)

(** The two ends of a oneshot channel: nothing sent yet, a value sent, the
    sending half dropped without sending. *)
Inductive Oneshot (R : Type) := OsOpen | OsSent (v : R) | OsDropped.
Arguments OsOpen {R}.
Arguments OsSent {R} v.
Arguments OsDropped {R}.

Section requests.
Context {Msg R : Type} `{ThisNode}.
(** The mailbox each actor was started with. *)
Context (limits : ActorId → Limits).

Record Envelope := mkEnvelope { e_msg : Msg; e_tx : option N }.

(** [rs_handling] is the envelope an actor's loop has taken from its mailbox;
    [rs_asked] and [rs_served] record what was asked and which handlers
    returned. *)
Record ReqSys := mkReqSys {
  rs_world : World Envelope;
  rs_handling : gmap ActorId Envelope;
  rs_oneshots : gmap N (Oneshot R);
  rs_next : N;
  rs_asked : gmap N (ActorId * Msg);
  rs_served : list (N * (Msg * R))
}.

Definition rs_new : ReqSys := mkReqSys empty_world ∅ ∅ 0 ∅ [].

Definition set_world w (s : ReqSys) : ReqSys :=
  mkReqSys w (rs_handling s) (rs_oneshots s) (rs_next s) (rs_asked s) (rs_served s).

(** [oneshot::Sender::send], or its drop. *)
Definition settle (o : Oneshot R) (e : Envelope) (m : gmap N (Oneshot R)) : gmap N (Oneshot R) :=
  match e_tx e with Some k => <[k := o]> m | None => m end.

(** The envelope is put into the mailbox of [i]. *)
Definition mailbox_send (i : ActorId) (e : Envelope) (s : ReqSys)
    : option (Result () ActorError * ReqSys) :=
  '(r, w) ← user_send limits i e (rs_world s); Some (r, set_world w s).

(** [ActorRef::send], [Context::send] *)
Definition send (i : ActorId) (m : Msg) (s : ReqSys) : option (Result () ActorError * ReqSys) :=
  mailbox_send i (mkEnvelope m None) s.

(** [request_raw]: on an error the envelope, and with it the sending half, is
    dropped. *)
Definition request_raw (i : ActorId) (m : Msg) (s : ReqSys)
    : option (Result N ActorError * ReqSys) :=
  let k := rs_next s in
  let s := mkReqSys (rs_world s) (rs_handling s) (<[k := OsOpen]> (rs_oneshots s)) (k + 1)%N
             (<[k := (i, m)]> (rs_asked s)) (rs_served s) in
  let e := mkEnvelope m (Some k) in
  '(r, s) ← mailbox_send i e s;
  match r with
  | Ok _ => Some (Ok k, s)
  | Err err =>
      Some (Err err, mkReqSys (rs_world s) (rs_handling s) (settle OsDropped e (rs_oneshots s))
                       (rs_next s) (rs_asked s) (rs_served s))
  end.

(** What the requester sees on the receiving half: [timeout(duration, rx)]
    of the tasks runtime and [rx.recv_timeout(duration)] of the threads
    runtime look at the channel first. [None] is pending. *)
Definition poll_reply (expired : bool) (k : N) (s : ReqSys) : option (Result R ActorError) :=
  match rs_oneshots s !! k with
  | Some (OsSent v) => Some (Ok v)
  | Some OsDropped => Some (Err ActorStopped)
  | _ => if expired then Some (Err RequestTimeout) else None
  end.

(** ** The actor's side *)

(** The loop has received [e]. *)
Definition begin_handling (i : ActorId) (e : Envelope) (s : ReqSys) : ReqSys :=
  mkReqSys (rs_world s) (<[i := e]> (rs_handling s)) (rs_oneshots s) (rs_next s) (rs_asked s)
    (rs_served s).

(** [MessageEnvelope::handle]: the handler has returned [v], or panicked and
    the envelope is dropped by the unwinding. *)
Definition end_handling (i : ActorId) (o : Outcome) (v : R) (s : ReqSys) : ReqSys :=
  match rs_handling s !! i with
  | Some e =>
      let hd := delete i (rs_handling s) in
      match o with
      | CbReturned =>
          mkReqSys (rs_world s) hd (settle (OsSent v) e (rs_oneshots s)) (rs_next s) (rs_asked s)
            (match e_tx e with Some k => [(k, (e_msg e, v))] | None => [] end ++ rs_served s)
      | CbPanicked _ =>
          mkReqSys (rs_world s) hd (settle OsDropped e (rs_oneshots s)) (rs_next s) (rs_asked s)
            (rs_served s)
      end
  | None => s
  end.

(** [run_actor] returns: the receiver is dropped, and all that is queued. *)
Definition drop_queue (es : list Envelope) (s : ReqSys) : ReqSys :=
  mkReqSys (rs_world s) (rs_handling s) (foldl (λ m e, settle OsDropped e m) (rs_oneshots s) es)
    (rs_next s) (rs_asked s) (rs_served s).

(** What the actor received in this step, and what it drops. *)
Definition received (c : Cell Envelope) : option Envelope :=
  match c_phase c with
  | Receiving => match recv (c_rt c) (c_mailbox c) with
                 | Returned (Some (Message e)) _ => Some e
                 | _ => None
                 end
  | _ => None
  end.
Definition dropped (c c' : Cell Envelope) : list Envelope :=
  if c_rx_open c && negb (c_rx_open c') then queue (user (c_mailbox c')) else [].

Definition actor_rstep (i : ActorId) (o : Outcome) (v : R) (s : ReqSys) : option ReqSys :=
  c ← actors (rs_world s) !! i;
  w' ← actor_step o i (rs_world s);
  c' ← actors w' !! i;
  let s := set_world w' s in
  let s := match received c with Some e => begin_handling i e s | None => s end in
  let s := match c_phase c with Handling false => end_handling i o v s | _ => s end in
  Some (drop_queue (dropped c c') s).

Inductive RLabel :=
| RSend (i : ActorId) (m : Msg)
| RRequest (i : ActorId) (m : Msg)
| RActor (i : ActorId) (o : Outcome) (v : R)
| RWorld (l : Label Envelope).

Definition rstep (l : RLabel) (s : ReqSys) : option ReqSys :=
  match l with
  | RSend i m => snd <$> send i m s
  | RRequest i m => snd <$> request_raw i m s
  | RActor i o v => actor_rstep i o v s
  | RWorld (LStep _ _) | RWorld (LSend _ _) => None
  | RWorld l => w ← step l (rs_world s); Some (set_world w s)
  end.

Fixpoint rrun (ls : list RLabel) (s : ReqSys) : option ReqSys :=
  match ls with [] => Some s | l :: ls => s' ← rstep l s; rrun ls s' end.

(** Fewer steps than there are actor ids. *)
Definition rreachable (s : ReqSys) : Prop :=
  ∃ ls, (N.of_nat (length ls) < 2 ^ 64 - 2)%N ∧ rrun ls rs_new = Some s.

(** [request_with_timeout], [request]: [ls] is what the system does until the
    deadline. *)
Definition request_with_timeout (ls : list RLabel) (i : ActorId) (m : Msg) (s : ReqSys)
    : option (Result R ActorError * ReqSys) :=
  '(r, s) ← request_raw i m s;
  match r with
  | Err e => Some (Err e, s)
  | Ok k => s ← rrun ls s; r ← poll_reply true k s; Some (r, s)
  end.
End requests.
Arguments Envelope Msg : clear implicits.
Arguments ReqSys Msg R : clear implicits.
Arguments RLabel Msg R : clear implicits.

(** ** The reply channels and the envelopes that can still answer *)

Section oneshots.
Context {Msg R : Type}.
Implicit Types (e : Envelope Msg) (os : gmap N (Oneshot R)) (out : ActorId → list (Envelope Msg)).

Abbreviation txs l := (omap e_tx l).

(** [out i] lists the envelopes actor [i] has queued or is handling. *)
Record oinv out os (next : N) (asked : gmap N (ActorId * Msg)) (served : list (N * (Msg * R))) : Prop := {
  oi_nodup i : NoDup (txs (out i));
  oi_open k : os !! k = Some OsOpen ↔ ∃ i, k ∈ txs (out i);
  oi_msg i e k : e ∈ out i → e_tx e = Some k → asked !! k = Some (i, e_msg e);
  oi_sent k v : os !! k = Some (OsSent v) ↔ ∃ m, (k, (m, v)) ∈ served;
  oi_served k m v : (k, (m, v)) ∈ served → ∃ i, asked !! k = Some (i, m);
  oi_once : NoDup (served.*1);
  oi_fresh k : is_Some (os !! k) ↔ (k < next)%N;
  oi_asked k : is_Some (asked !! k) ↔ (k < next)%N
}.

Lemma oinv_ext out out' os n a sv :
  (∀ i, out i ≡ₚ out' i) → oinv out os n a sv → oinv out' os n a sv.
Proof.
  intros Hp [H1 H2 H3 H4 H5 H6 H7 H8]. split; try done.
  - intros i. rewrite <- (Hp i). apply H1.
  - intros k. rewrite H2. split; intros (i & Hi); exists i; [by rewrite <- (Hp i)|by rewrite (Hp i)].
  - intros i e k He. apply H3. by rewrite (Hp i).
Qed.

(** The sending half of [k] belongs to one envelope. *)
Lemma tx_owner out os n a sv i j k :
  oinv out os n a sv → k ∈ txs (out i) → k ∈ txs (out j) → i = j.
Proof.
  intros Ho (e & He & Hk)%list_elem_of_omap (e' & He' & Hk')%list_elem_of_omap.
  pose proof (oi_msg _ _ _ _ _ Ho i e k He Hk). pose proof (oi_msg _ _ _ _ _ Ho j e' k He' Hk').
  congruence.
Qed.

(** An envelope is answered or dropped. *)
Lemma oinv_settle out out' os n a sv i e (r : option R) :
  oinv out os n a sv → out i ≡ₚ e :: out' i → (∀ j, j ≠ i → out' j = out j) →
  oinv out' (settle (match r with Some v => OsSent v | None => OsDropped end) e os) n a
    (match r, e_tx e with Some v, Some k => [(k, (e_msg e, v))] | _, _ => [] end ++ sv).
Proof.
  intros Ho Hi Hj. pose proof Ho as [H1 H2 H3 H4 H5 H6 H7 H8].
  assert (∀ j, out' j ⊆ out j) as Hsub.
  { intros j x Hx. destruct (decide (j = i)) as [->|Hne]; [rewrite Hi; by right|by rewrite <- Hj]. }
  unfold settle. destruct (e_tx e) as [k|] eqn:Hk.
  - assert (k ∈ txs (out i)) as Hki.
    { rewrite Hi. apply list_elem_of_omap. exists e. split; [by left|done]. }
    assert (os !! k = Some OsOpen) as Hopen by (apply H2; eauto).
    assert (∀ j, k ∉ txs (out' j)) as Hout.
    { intros j Hin. pose proof (H1 i) as Hnd. rewrite Hi in Hnd. csimpl in Hnd. rewrite Hk in Hnd.
      apply NoDup_cons in Hnd as [Hni _]. destruct (decide (j = i)) as [->|Hne]; [done|].
      apply Hne. apply (tx_owner out os n a sv j i k Ho); [|done]. by rewrite <- Hj. }
    assert (∀ m v, (k, (m, v)) ∉ sv) as Hnsv.
    { intros m v Hin. assert (os !! k = Some (OsSent v)) by (apply H4; eauto). congruence. }
    split.
    + intros j. destruct (decide (j = i)) as [->|Hne]; [|by rewrite Hj].
      pose proof (H1 i) as Hnd. rewrite Hi in Hnd. csimpl in Hnd. rewrite Hk in Hnd.
      by apply NoDup_cons in Hnd as [_ ?].
    + intros k'. destruct (decide (k' = k)) as [->|Hne].
      * rewrite lookup_insert_eq. split; [by destruct r|]. intros [j Hin]. by destruct (Hout j).
      * rewrite lookup_insert_ne, H2 by done. split; intros [j Hin]; exists j.
        -- destruct (decide (j = i)) as [->|?]; [|by rewrite Hj].
           rewrite Hi in Hin. csimpl in Hin. rewrite Hk in Hin.
           by apply elem_of_cons in Hin as [?|?].
        -- apply list_elem_of_omap in Hin as (x & Hx & ?). apply list_elem_of_omap. exists x.
           split; [by apply Hsub|done].
    + intros j x k' Hx. apply H3. by apply Hsub.
    + intros k' v'. destruct (decide (k' = k)) as [->|Hne].
      * rewrite lookup_insert_eq. destruct r as [v|].
        -- split; [intros [= ->]; exists (e_msg e); by left|].
           intros [m [Heq|Hin]%elem_of_cons]; [by simplify_eq|by destruct (Hnsv m v')].
        -- split; [done|]. intros [m Hin]. by destruct (Hnsv m v').
      * rewrite lookup_insert_ne, H4 by done. destruct r as [v|]; [|done].
        split; intros [m Hin]; exists m; [by right|].
        apply elem_of_cons in Hin as [Heq|?]; [by simplify_eq|done].
    + intros k' m v'. destruct r as [v|]; [|apply H5].
      intros [Heq|Hin]%elem_of_cons; [|by eapply H5]. simplify_eq. exists i.
      apply (H3 i e k); [rewrite Hi; by left|done].
    + destruct r as [v|]; [|done]. simpl. apply NoDup_cons. split; [|done].
      intros ((k' & m & v') & Heq & Hin)%list_elem_of_fmap. simpl in Heq. subst. by destruct (Hnsv m v').
    + intros k'. destruct (decide (k' = k)) as [->|Hne].
      * rewrite lookup_insert_eq. rewrite <- H7, Hopen. split; by eexists.
      * by rewrite lookup_insert_ne.
    + done.
  - assert (∀ j, txs (out j) ≡ₚ txs (out' j)) as Htx.
    { intros j. destruct (decide (j = i)) as [->|Hne]; [|by rewrite Hj]. rewrite Hi. csimpl.
      by rewrite Hk. }
    replace (match r with Some _ | _ => [] end ++ sv) with sv by by destruct r.
    split; try done.
    + intros j. rewrite <- (Htx j). apply H1.
    + intros k'. rewrite H2. split; intros [j Hin]; exists j; [by rewrite <- (Htx j)|by rewrite (Htx j)].
    + intros j x k' Hx. apply H3. by apply Hsub.
Qed.

(** The whole queue is dropped. *)
Lemma oinv_drop_all es out out' os n a sv i :
  oinv out os n a sv → out i ≡ₚ es ++ out' i → (∀ j, j ≠ i → out' j = out j) →
  oinv out' (foldl (λ m e, settle OsDropped e m) os es) n a sv.
Proof.
  revert out os. induction es as [|e es IH]; intros out os Ho Hi Hj; simpl.
  - apply (oinv_ext out); [|done]. intros j.
    destruct (decide (j = i)) as [->|Hne]; [done|by rewrite Hj].
  - apply (IH (λ j, if decide (j = i) then es ++ out' i else out' j)).
    + apply (oinv_settle out _ os n a sv i e None); [done|..].
      * by rewrite decide_True.
      * intros j Hne. rewrite decide_False by done. auto.
    + by rewrite decide_True.
    + intros j Hne. by rewrite decide_False.
Qed.

(** A new envelope is queued. *)
Lemma oinv_request out out' os n a sv i m :
  oinv out os n a sv → out' i ≡ₚ mkEnvelope m (Some n) :: out i → (∀ j, j ≠ i → out' j = out j) →
  oinv out' (<[n := OsOpen]> os) (n + 1) (<[n := (i, m)]> a) sv.
Proof.
  intros Ho Hi Hj. pose proof Ho as [H1 H2 H3 H4 H5 H6 H7 H8].
  assert (os !! n = None) as Hnone.
  { destruct (os !! n) eqn:He; [|done]. assert (n < n)%N by (apply H7; eauto). lia. }
  assert (a !! n = None) as Hanone.
  { destruct (a !! n) eqn:He; [|done]. assert (n < n)%N by (apply H8; eauto). lia. }
  assert (∀ j, n ∉ txs (out j)) as Hout.
  { intros j Hin. assert (os !! n = Some OsOpen) by (apply H2; eauto). congruence. }
  split.
  - intros j. destruct (decide (j = i)) as [->|Hne]; [|by rewrite Hj]. rewrite Hi. csimpl.
    by apply NoDup_cons.
  - intros k. destruct (decide (k = n)) as [->|Hne].
    + rewrite lookup_insert_eq. split; [|done]. intros _. exists i. rewrite Hi. csimpl. by left.
    + rewrite lookup_insert_ne, H2 by done. split; intros [j Hin]; exists j;
        (destruct (decide (j = i)) as [->|?]; [|first [by rewrite Hj|by rewrite Hj in Hin]]).
      * rewrite Hi. csimpl. by right.
      * rewrite Hi in Hin. csimpl in Hin. by apply elem_of_cons in Hin as [?|?].
  - intros j x k Hx Hk. destruct (decide (k = n)) as [->|Hne].
    + rewrite lookup_insert_eq. destruct (decide (j = i)) as [->|Hji].
      * rewrite Hi in Hx. apply elem_of_cons in Hx as [->|Hx]; [done|].
        destruct (Hout i). apply list_elem_of_omap. eauto.
      * rewrite Hj in Hx by done. destruct (Hout j). apply list_elem_of_omap. eauto.
    + rewrite lookup_insert_ne by done. apply H3; [|done].
      destruct (decide (j = i)) as [->|Hji]; [|by rewrite <- Hj].
      rewrite Hi in Hx. apply elem_of_cons in Hx as [->|Hx]; [|done]. by simplify_eq/=.
  - intros k v. destruct (decide (k = n)) as [->|Hne].
    + rewrite lookup_insert_eq. split; [done|]. intros Hs. apply H4 in Hs. congruence.
    + by rewrite lookup_insert_ne.
  - intros k m' v Hs. destruct (H5 k m' v Hs) as [j Hja]. exists j.
    rewrite lookup_insert_ne; [done|]. intros ->. congruence.
  - done.
  - intros k. rewrite lookup_insert_is_Some', H7. lia.
  - intros k. rewrite lookup_insert_is_Some', H8. lia.
Qed.

(** A message without a reply channel is queued. *)
Lemma oinv_send out out' os n a sv i m :
  oinv out os n a sv → out' i ≡ₚ mkEnvelope m None :: out i → (∀ j, j ≠ i → out' j = out j) →
  oinv out' os n a sv.
Proof.
  intros [H1 H2 H3 H4 H5 H6 H7 H8] Hi Hj.
  assert (∀ j, txs (out' j) ≡ₚ txs (out j)) as Htx.
  { intros j. destruct (decide (j = i)) as [->|Hne]; [by rewrite Hi|by rewrite Hj]. }
  split; try done.
  - intros j. by rewrite (Htx j).
  - intros k. rewrite H2. split; intros [j Hin]; exists j; [by rewrite (Htx j)|by rewrite <- (Htx j)].
  - intros j x k Hx Hk. apply H3; [|done].
    destruct (decide (j = i)) as [->|Hji]; [|by rewrite <- Hj].
    rewrite Hi in Hx. apply elem_of_cons in Hx as [->|Hx]; done.
Qed.
End oneshots.

(** ** What steps do to queues and handlers *)

Section views.
Context {Msg : Type} `{ThisNode}.
Implicit Types (c : Cell (Envelope Msg)) (a : gmap ActorId (Cell (Envelope Msg))) (w : World (Envelope Msg)).

(** The messages an actor can still receive, and whether it handles one. *)
Definition cell_view c : list (Envelope Msg) * bool :=
  (if c_rx_open c then queue (user (c_mailbox c)) else [], bool_decide (c_phase c = Handling false)).
Definition view (i : ActorId) a : list (Envelope Msg) * bool := from_option cell_view ([], false) (a !! i).
Definition keeps_view (f : Cell (Envelope Msg) → Cell (Envelope Msg)) : Prop :=
  ∀ c, cell_view (f c) = cell_view c.

Lemma view_alter f i j a : keeps_view f → view j (alter f i a) = view j a.
Proof.
  intros Hf. unfold view. rewrite lookup_alter. case_decide as Hij; [|done]. subst.
  destruct (a !! j) as [c|]; simpl; [apply Hf|done].
Qed.

Lemma view_insert f i j a c : keeps_view f → a !! i = Some c → view j (<[i := f c]> a) = view j a.
Proof.
  intros Hf Hi. unfold view. rewrite lookup_insert. case_decide as Hij; [|done]. subst.
  rewrite Hi. simpl. apply Hf.
Qed.

Lemma view_cancel c : cell_view (cancel c) = cell_view c.
Proof.
  destruct (cancel_fields c) as (_ & _ & _ & _ & _ & _ & _ & Ho & _ & Hp & _ & Hu).
  unfold cell_view. by rewrite Ho, Hp, Hu.
Qed.
Lemma view_post_stop : keeps_view post_stop.
Proof.
  intros c. unfold post_stop, send_stop. destruct (c_stop_posted c); [done|].
  unfold cell_view. by destruct (c_rx_open c) eqn:Ho; simpl; rewrite ?Ho.
Qed.
Lemma view_exit_signal i r : keeps_view (exit_signal i r).
Proof.
  intros c. pose proof (exit_signal_spec i r c) as Hs. unfold cell_view.
  by rewrite (sg_open _ _ _ _ Hs), (sg_phase _ _ _ _ Hs), (sg_user _ _ _ _ Hs).
Qed.
Lemma view_add_link p : keeps_view (add_link p).
Proof. intros c. unfold add_link. by case_bool_decide. Qed.
Lemma view_send_signal s : keeps_view (send_signal s).
Proof. intros c. unfold send_signal, cell_view. by destruct (c_rx_open c) eqn:Ho; simpl; rewrite ?Ho. Qed.

Lemma view_link_check x y j b : view j (link_check x y b) = view j b.
Proof.
  unfold link_check. destruct (exit_reason y b) as [r|]; [|done]. unfold take_self_from_peer_table.
  destruct (b !! y); [|done]. unfold make_signal.
  destruct (bool_decide _); rewrite ?view_alter; try done; apply view_exit_signal.
Qed.

Lemma view_propagate own r j a : view j (propagate_exit own r a) = view j a.
Proof.
  unfold propagate_exit. destruct (a !! own) as [c|]; [|done].
  transitivity (view j (alter (set_links []) own a)); [|by apply view_alter].
  generalize (alter (set_links []) own a). induction (c_links c) as [|p ps IH]; intros b; [done|].
  simpl. rewrite IH. unfold make_signal. rewrite !view_alter; [done|done|apply view_exit_signal].
Qed.

(** The rest of the system neither takes nor drops messages. *)
Lemma step_view l w w' j :
  (∀ i o, l ≠ LStep i o) → (∀ i m, l ≠ LSend i m) → world_ok w → step l w = Some w' →
  view j (actors w') = view j (actors w).
Proof.
  intros Hl1 Hl2 Hok.
  assert (∀ i f w', keeps_view f → on_cell i f w = Some w' → view j (actors w') = view j (actors w)) as Hcell.
  { intros i f w1 Hf. unfold on_cell. destruct (actors w !! i) as [c|] eqn:Hi; [|done].
    intros [= <-]. by apply view_insert. }
  destruct l as [i o|i|i|i|i|i b|x y|x y|x y|i m|i s|rt]; simpl.
  - by destruct (Hl1 i o).
  - destruct (actors w !! i) as [c|]; [|done]. simpl. destruct (c_cancelled c); [|done].
    apply Hcell, view_post_stop.
  - apply Hcell. intros c. apply view_cancel.
  - apply Hcell. intros c. unfold handle_shutdown. by rewrite view_cancel.
  - apply Hcell. intros c. unfold handle_kill. by rewrite view_cancel.
  - by apply Hcell.
  - destruct (actors w !! y); [|done]. apply Hcell, view_add_link.
  - destruct (actors w !! x), (actors w !! y); try done. intros [= <-]. apply view_link_check.
  - by apply Hcell.
  - by destruct (Hl2 i m).
  - apply Hcell, view_send_signal.
  - intros [= <-]. simpl. unfold view. rewrite lookup_insert. case_decide as Hj; [|done]. subst j.
    by rewrite (spawn_fresh w Hok).
Qed.

(** A step of an actor takes the next message, or drops the queue when its
    receiver goes, and touches nobody else's. *)
Lemma run_actor_step_view o c c' :
  cell_ok c → run_actor_step o c = Some c' →
  fst (cell_view c) = from_option (λ e, [e]) [] (received c) ++ dropped c c' ++ fst (cell_view c') ∧
  snd (cell_view c') = bool_decide (is_Some (received c)).
Proof.
  intros Hok. assert (∀ r c, user (c_mailbox (resolve r c)) = user (c_mailbox c) ∧
    c_rx_open (resolve r c) = false ∧ c_phase (resolve r c) ≠ Handling false) as Hres.
  { intros r d. unfold resolve. by destruct (resolve_exit_reason _ _ _) as [? [? ?]]. }
  assert (∀ r c, user (c_mailbox (finish r c)) = user (c_mailbox c) ∧
    (c_rx_open (finish r c) = false ∨ c_rx_open (finish r c) = c_rx_open c) ∧
    c_phase (finish r c) ≠ Handling false) as Hfin.
  { intros r d. unfold finish.
    destruct (cancel_fields d) as (_ & _ & _ & _ & _ & _ & _ & Ho & _ & _ & _ & Hu).
    destruct (c_skip_stopped _).
    - destruct (Hres r (cancel d)) as (-> & -> & Hp). rewrite Hu. auto.
    - split_and!; try done. by right. }
  assert (∀ d, c_rx_open c = true → user (c_mailbox d) = user (c_mailbox c) →
    (c_rx_open d = false ∨ c_rx_open d = c_rx_open c) → c_phase d ≠ Handling false → received c = None →
    fst (cell_view c) = from_option (λ e, [e]) [] (received c) ++ dropped c d ++ fst (cell_view d) ∧
    snd (cell_view d) = bool_decide (is_Some (received c))) as Hkeep.
  { intros d Ho Hu Hor Hp Hrc. rewrite Hrc. unfold dropped, cell_view. simpl.
    rewrite (bool_decide_eq_false_2 _ Hp). split; [|done].
    rewrite Ho in *. simpl. destruct Hor as [-> | ->]; simpl; rewrite ?Hu, ?app_nil_r; done. }
  pose proof (ok_open _ Hok) as Hop. unfold run_actor_step.
  destruct (c_phase c) as [| |b| |r|r|r|r|] eqn:Hp; try done.
  - assert (received c = None) as Hrc by (unfold received; by rewrite Hp).
    destruct o as [|msg]; [destruct (c_cancelled c); [destruct (c_skip_stopped c)|]|]; intros [= <-].
    + destruct (Hres Normal c) as (? & ? & ?). apply Hkeep; auto.
    + apply Hkeep; auto.
    + apply Hkeep; auto.
    + destruct (cancel_fields c) as (_ & _ & _ & _ & _ & _ & _ & _ & _ & _ & _ & Hu).
      apply Hkeep; auto.
  - pose proof (ok_live _ Hok) as Hl. rewrite Hp in Hl. specialize (Hl eq_refl).
    assert (received c = match take_next (c_mailbox c) with Some (Message e, _) => Some e | _ => None end)
      as Hrc.
    { unfold received. rewrite Hp, recv_live by done. by destruct (take_next (c_mailbox c)) as [[[] ?]|]. }
    rewrite recv_live by done. destruct (take_next (c_mailbox c)) as [[it mb]|] eqn:Hn; [|done].
    unfold take_next in Hn.
    assert (match it with Message e => queue (user (c_mailbox c)) = e :: queue (user mb)
            | _ => user mb = user (c_mailbox c) end) as Hq.
    { destruct (queue (signal (c_mailbox c))), (queue (stop (c_mailbox c))),
        (queue (supervision (c_mailbox c))), (queue (user (c_mailbox c))); by simplify_eq/=. }
    destruct it as [e|s|ex|]; intros [= <-].
    + rewrite Hrc. unfold dropped, cell_view. simpl. rewrite Hop. simpl. by rewrite Hq.
    + destruct (Hfin Normal (set_requested (Some Shutdown) (set_mailbox mb c))) as (Hu & Ho & Hph).
      apply Hkeep; auto. by rewrite Hu.
    + apply Hkeep; auto.
    + destruct (Hfin Normal (set_mailbox mb c)) as (Hu & Ho & Hph). apply Hkeep; auto. by rewrite Hu.
  - assert (received c = None) as Hrc by (unfold received; by rewrite Hp).
    destruct o as [|msg]; [destruct (c_cancelled c)|]; intros [= <-];
      try (match goal with |- context [finish ?r ?d] => destruct (Hfin r d) as (? & ? & ?) end);
      apply Hkeep; auto.
  - assert (received c = None) as Hrc by (unfold received; by rewrite Hp). intros [= <-].
    destruct (Hres Normal c) as (? & ? & ?). apply Hkeep; auto.
  - assert (received c = None) as Hrc by (unfold received; by rewrite Hp).
    destruct o as [|msg]; intros [= <-];
      (match goal with |- context [resolve ?r ?d] => destruct (Hres r d) as (? & ? & ?) end);
      apply Hkeep; auto.
Qed.

Lemma actor_step_view o i w w' c :
  world_ok w → actors w !! i = Some c → actor_step o i w = Some w' →
  (∀ j, j ≠ i → view j (actors w') = view j (actors w)) ∧
  ∃ c', actors w' !! i = Some c' ∧
    fst (cell_view c) = from_option (λ e, [e]) [] (received c) ++ dropped c c' ++ fst (cell_view c') ∧
    snd (cell_view c') = bool_decide (is_Some (received c)).
Proof.
  intros Hok Hi. unfold actor_step. rewrite Hi. cbn [mbind option_bind].
  pose proof (wk_cells _ Hok i c Hi) as Hci. pose proof (ok_open _ Hci) as Hop.
  assert (∀ c', c_rx_open c = false → c_rx_open c' = false → c_phase c' ≠ Handling false →
    received c = None →
    fst (cell_view c) = from_option (λ e, [e]) [] (received c) ++ dropped c c' ++ fst (cell_view c') ∧
    snd (cell_view c') = bool_decide (is_Some (received c))) as Hgone.
  { intros c' H1 H2 H3 H4. rewrite H4. unfold dropped, cell_view. rewrite H1, H2. simpl.
    by rewrite (bool_decide_eq_false_2 _ H3). }
  destruct (c_phase c) as [| |b| |r|r|r|r|] eqn:Hp; try done;
    try (destruct (run_actor_step o c) as [c'|] eqn:Hr; [|done]; intros [= <-]; split;
         [intros j Hne; unfold view; simpl; by rewrite lookup_insert_ne
         |exists c'; split; [apply lookup_insert_eq|by apply (run_actor_step_view o)]]);
    intros [= <-]; simpl; (split; [intros j Hne|]).
  - unfold view. rewrite lookup_alter_ne by done. apply view_propagate.
  - rewrite lookup_alter_eq.
    pose proof (view_propagate i r i (actors w)) as Hv. unfold view in Hv. rewrite Hi in Hv.
    rewrite (lookup_propagate i r _ c i Hi (lk_nodup _ (wk_links _ Hok) i c Hi)), Hi in *.
    cbn [fmap option_fmap option_map] in *. eexists. split; [reflexivity|].
    apply Hgone; try done; [|unfold received; by rewrite Hp].
    simpl. destruct (decide (i ∈ c_links c)), (decide (i = i));
      rewrite ?(sg_open _ _ _ _ (exit_signal_spec i r _)); done.
  - unfold view. by rewrite lookup_alter_ne.
  - rewrite lookup_alter_eq, Hi. eexists. split; [reflexivity|].
    apply Hgone; try done. unfold received. by rewrite Hp.
  - unfold view. by rewrite lookup_alter_ne.
  - rewrite lookup_alter_eq, Hi. eexists. split; [reflexivity|].
    apply Hgone; try done. unfold received. by rewrite Hp.
Qed.
End views.

(** ** The invariant *)

Lemma snoc_app_Permutation {A} (x : A) l k : (l ++ [x]) ++ k ≡ₚ x :: l ++ k.
Proof. rewrite <- app_assoc. symmetry. apply Permutation_middle. Qed.

Section invariant.
Context {Msg R : Type} `{ThisNode} (limits : ActorId → Limits).
Implicit Types s : ReqSys Msg R.

Abbreviation some_list x := (from_option (λ e, [e]) [] x).

(** The requests whose handler returned. *)
Definition answered s : list N := (rs_served s).*1.

(** The envelopes that actor [i] has queued or is handling. *)
Definition outstanding s (i : ActorId) : list (Envelope Msg) :=
  fst (view i (actors (rs_world s))) ++ some_list (rs_handling s !! i).

Record rinv s : Prop := {
  ri_world : world_ok (rs_world s);
  ri_handling i : bool_decide (is_Some (rs_handling s !! i)) = snd (view i (actors (rs_world s)));
  ri_out : oinv (outstanding s) (rs_oneshots s) (rs_next s) (rs_asked s) (rs_served s)
}.

Lemma mailbox_send_spec i e s r s' :
  mailbox_send limits i e s = Some (r, s') →
  match r with
  | Ok _ => ∃ c, actors (rs_world s) !! i = Some c ∧ c_rx_open c = true ∧
      s' = set_world (set_actors (<[i := send_user e c]> (actors (rs_world s))) (rs_world s)) s
  | Err err => s' = s ∧ (err = MailboxFull ∨ err = ActorStopped)
  end.
Proof.
  unfold mailbox_send. intros ([r1 w] & Hu & [= <- <-])%bind_Some. apply user_send_spec in Hu.
  destruct r1 as [u|err].
  - destruct Hu as (c & Hi & Ho & ->). eauto.
  - destruct Hu as [-> ?]. split; [by destruct s|done].
Qed.

(** What a queued message does to the invariant's parts. *)
Lemma send_user_effect i e s c :
  rinv s → actors (rs_world s) !! i = Some c → c_rx_open c = true →
  let w' := set_actors (<[i := send_user e c]> (actors (rs_world s))) (rs_world s) in
  world_ok w' ∧ (∀ j, snd (view j (actors w')) = snd (view j (actors (rs_world s)))) ∧
  fst (view i (actors w')) = fst (view i (actors (rs_world s))) ++ [e] ∧
  (∀ j, j ≠ i → view j (actors w') = view j (actors (rs_world s))).
Proof.
  intros Hinv Hi Ho w'. pose proof (ri_world _ Hinv) as Hok.
  assert (cell_view (send_user e c) = (fst (cell_view c) ++ [e], snd (cell_view c))) as Hv.
  { unfold cell_view, send_user. rewrite Ho. simpl. by rewrite Ho. }
  assert (∀ j, view j (actors w') = if decide (i = j) then cell_view (send_user e c)
    else view j (actors (rs_world s))) as Hview.
  { intros j. unfold view, w'. simpl. rewrite lookup_insert. by case_decide. }
  split_and!.
  - destruct (keeps_send_user e c). apply (world_ok_insert i c); try done.
    apply cell_ok_send_user. by apply (wk_cells _ Hok i).
  - intros j. rewrite Hview. case_decide as Hij; [|done]. subst j. rewrite Hv. simpl.
    unfold view. by rewrite Hi.
  - rewrite Hview, decide_True, Hv by done. unfold view. by rewrite Hi.
  - intros j Hne. by rewrite Hview, decide_False by congruence.
Qed.

Lemma rinv_send i m s r s' : rinv s → send limits i m s = Some (r, s') → rinv s'.
Proof.
  intros Hinv Hs. apply mailbox_send_spec in Hs. destruct r as [u|err]; [|by destruct Hs; subst].
  destruct Hs as (c & Hi & Ho & ->).
  destruct (send_user_effect i (mkEnvelope m None) s c Hinv Hi Ho) as (Hok & Hsnd & Hfst & Hoth).
  split; simpl; [done|intros j; rewrite Hsnd; apply Hinv|].
  apply (oinv_send (outstanding s) _ _ _ _ _ i m); [apply Hinv|..].
  - unfold outstanding. simpl. simpl in Hfst. rewrite Hfst. apply snoc_app_Permutation.
  - intros j Hne. unfold outstanding. simpl. simpl in Hoth. by rewrite Hoth.
Qed.

Lemma rinv_request i m s r s' : rinv s → request_raw limits i m s = Some (r, s') → rinv s'.
Proof.
  intros Hinv. unfold request_raw.
  set (s1 := mkReqSys (rs_world s) (rs_handling s) _ _ _ _).
  destruct (mailbox_send limits i (mkEnvelope m (Some (rs_next s))) s1) as [[r1 s2]|] eqn:Hs; [|done].
  cbn [mbind option_bind].
  assert (∀ out', out' i ≡ₚ mkEnvelope m (Some (rs_next s)) :: outstanding s i →
    (∀ j, j ≠ i → out' j = outstanding s j) →
    oinv out' (rs_oneshots s1) (rs_next s1) (rs_asked s1) (rs_served s1)) as Hreq.
  { intros out' Hi Hj. by apply (oinv_request (outstanding s)); [apply Hinv|..]. }
  apply mailbox_send_spec in Hs. destruct r1 as [u|err].
  - destruct Hs as (c & Hi & Ho & ->). intros [= <- <-].
    destruct (send_user_effect i (mkEnvelope m (Some (rs_next s))) s c Hinv Hi Ho)
      as (Hok & Hsnd & Hfst & Hoth). simpl in *.
    split; simpl; [done|intros j; rewrite Hsnd; apply Hinv|]. apply Hreq.
    + unfold outstanding. simpl. rewrite Hfst. apply snoc_app_Permutation.
    + intros j Hne. unfold outstanding. simpl. by rewrite Hoth.
  - destruct Hs as [-> _]. intros [= <- <-]. split; simpl; [apply Hinv|apply Hinv|].
    apply (oinv_settle (λ j, if decide (j = i) then mkEnvelope m (Some (rs_next s)) :: outstanding s i
      else outstanding s j) (outstanding s) _ _ _ _ i (mkEnvelope m (Some (rs_next s))) None).
    + apply Hreq; [by rewrite decide_True|intros j Hne; by rewrite decide_False].
    + by rewrite decide_True.
    + intros j Hne. by rewrite decide_False.
Qed.

Lemma rinv_world w s :
  rinv s → world_ok w → (∀ j, view j (actors w) = view j (actors (rs_world s))) → rinv (set_world w s).
Proof.
  intros [Hok Hh Ho] Hw Hv. split; simpl; [done|intros j; by rewrite Hv|].
  apply (oinv_ext (outstanding s)); [|done]. intros j. unfold outstanding. simpl. by rewrite Hv.
Qed.

(** A handler returns or panics. *)
Lemma oinv_end_handling i o v s e :
  rs_handling s !! i = Some e →
  let s' := end_handling i o v s in
  rs_handling s' = delete i (rs_handling s) ∧ rs_world s' = rs_world s ∧
  ∀ out out', oinv out (rs_oneshots s) (rs_next s) (rs_asked s) (rs_served s) →
    out i ≡ₚ e :: out' i → (∀ j, j ≠ i → out' j = out j) →
    oinv out' (rs_oneshots s') (rs_next s') (rs_asked s') (rs_served s').
Proof.
  intros Hi. unfold end_handling. rewrite Hi. simpl. destruct o as [|msg]; simpl.
  - split_and!; [done..|]. intros out out' Ho Hout Hj.
    apply (oinv_settle out out' _ _ _ _ i e (Some v) Ho Hout Hj).
  - split_and!; [done..|]. intros out out' Ho Hout Hj.
    apply (oinv_settle out out' _ _ _ _ i e None Ho Hout Hj).
Qed.

Lemma rinv_actor i o v s s' :
  rinv s → actor_rstep i o v s = Some s' → rinv s' ∧ next_id (rs_world s') = next_id (rs_world s).
Proof.
  intros Hinv. unfold actor_rstep.
  destruct (actors (rs_world s) !! i) as [c|] eqn:Hi; [|done]. cbn [mbind option_bind].
  destruct (actor_step o i (rs_world s)) as [w'|] eqn:Hs; [|done]. cbn [mbind option_bind].
  pose proof (actor_step_ok o i _ w' (ri_world _ Hinv) Hs) as Hok.
  pose proof (actor_step_next_id o i _ w' Hs) as Hid.
  destruct (actor_step_view o i _ w' c (ri_world _ Hinv) Hi Hs) as (Hoth & c' & Hi' & Hq & Hb).
  rewrite Hi'. cbn [mbind option_bind]. intros [= <-].
  assert (fst (view i (actors (rs_world s))) = some_list (received c) ++ dropped c c' ++ fst (view i (actors w'))) as Hq'.
  { unfold view. by rewrite Hi, Hi'. }
  assert (snd (view i (actors w')) = bool_decide (is_Some (received c))) as Hb'.
  { unfold view. by rewrite Hi'. }
  pose proof (ri_handling _ Hinv i) as Hh.
  assert (snd (view i (actors (rs_world s))) = bool_decide (c_phase c = Handling false)) as Hbi.
  { unfold view. by rewrite Hi. }
  rewrite Hbi in Hh. clear Hbi Hq Hb.
  set (s1 := set_world w' s).
  (* the middle part: the new message and the end of the old handler *)
  assert (∃ s2, s2 = match c_phase c with
      | Handling false => end_handling i o v
          (match received c with Some e => begin_handling i e s1 | None => s1 end)
      | _ => match received c with Some e => begin_handling i e s1 | None => s1 end end ∧
    rs_world s2 = w' ∧ (∀ j, j ≠ i → rs_handling s2 !! j = rs_handling s !! j) ∧
    rs_handling s2 !! i = received c ∧
    oinv (λ j, if decide (j = i) then dropped c c' ++ fst (view i (actors w')) ++ some_list (received c)
               else outstanding s j) (rs_oneshots s2) (rs_next s2) (rs_asked s2) (rs_served s2))
    as (s2 & <- & Hw2 & Hh2 & Hhi2 & Ho2).
  { eexists. split; [reflexivity|]. destruct (received c) as [e|] eqn:Hrc.
    - assert (c_phase c = Receiving) as Hp.
      { unfold received in Hrc. by destruct (c_phase c). }
      rewrite Hp in *. rewrite (bool_decide_eq_false_2 (Receiving = _)) in Hh by done.
      apply bool_decide_eq_false in Hh. apply eq_None_not_Some in Hh. simpl. split_and!; [done|..].
      + intros j Hne. by rewrite lookup_insert_ne.
      + apply lookup_insert_eq.
      + apply (oinv_ext (outstanding s)); [|apply Hinv]. intros j. case_decide as Hj; [|done]. subst j.
        unfold outstanding. rewrite Hq', Hh. simpl. rewrite app_nil_r, app_assoc.
        apply Permutation_cons_append.
    - destruct (decide (c_phase c = Handling false)) as [Hp|Hp].
      + rewrite Hp in *. rewrite (bool_decide_eq_true_2 (Handling false = _)) in Hh by done.
        apply bool_decide_eq_true in Hh as [e He].
        destruct (oinv_end_handling i o v s1 e He) as (Hhd & Hw & Ho). rewrite Hw, Hhd. split_and!; [done|..].
        * intros j Hne. by rewrite lookup_delete_ne.
        * apply lookup_delete_eq.
        * apply (Ho (outstanding s)); [apply Hinv|..].
          -- rewrite decide_True by done. unfold outstanding. rewrite Hq', He. simpl.
             rewrite app_nil_r. symmetry. apply Permutation_cons_append.
          -- intros j Hne. by rewrite decide_False.
      + assert ((match c_phase c with Handling false => end_handling i o v s1 | _ => s1 end) = s1) as ->.
        { by destruct (c_phase c) as [| |[]| | | | | |]. }
        rewrite (bool_decide_eq_false_2 _ Hp) in Hh. apply bool_decide_eq_false in Hh.
        apply eq_None_not_Some in Hh. split_and!; try done.
        apply (oinv_ext (outstanding s)); [|apply Hinv]. intros j. case_decide as Hj; [|done]. subst j.
        unfold outstanding. rewrite Hq', Hh. simpl. by rewrite !app_nil_r. }
  split; [|by simpl; rewrite Hw2]. split; simpl; rewrite ?Hw2; [done|..].
  - intros j. destruct (decide (j = i)) as [->|Hne]; [by rewrite Hhi2, Hb'|].
    rewrite Hh2, Hoth by done. apply Hinv.
  - eapply (oinv_drop_all _ _ _ _ _ _ _ i Ho2).
    + rewrite decide_True by done. unfold outstanding. simpl. by rewrite Hw2, Hhi2.
    + intros j Hne. rewrite decide_False by done. unfold outstanding. simpl. by rewrite Hw2, Hh2, Hoth.
Qed.

Lemma mailbox_send_next_id i e s r s' :
  mailbox_send limits i e s = Some (r, s') → next_id (rs_world s') = next_id (rs_world s).
Proof.
  intros Hs%mailbox_send_spec. destruct r; [destruct Hs as (c & _ & _ & ->)|destruct Hs as [-> _]]; done.
Qed.

Lemma rstep_inv l s s' :
  (next_id (rs_world s) < 2 ^ 64 - 1)%N → rinv s → rstep limits l s = Some s' →
  rinv s' ∧ (next_id (rs_world s') ≤ next_id (rs_world s) + 1)%N.
Proof.
  intros Hn Hinv. destruct l as [i m|i m|i o v|l]; simpl.
  - destruct (send limits i m s) as [[r s1]|] eqn:Hs; [|done]. intros [= <-]. simpl.
    split; [by apply (rinv_send i m s r)|]. apply mailbox_send_next_id in Hs. lia.
  - destruct (request_raw limits i m s) as [[r s1]|] eqn:Hs; [|done]. intros [= <-]. simpl.
    split; [by apply (rinv_request i m s r)|]. unfold request_raw in Hs.
    destruct (mailbox_send limits i _ _) as [[r1 s2]|] eqn:Hm; [|done]. simpl in Hs.
    apply mailbox_send_next_id in Hm. simpl in Hm. destruct r1; simplify_eq/=; lia.
  - intros Hs. destruct (rinv_actor i o v s s' Hinv Hs) as [? ->]. split; [done|lia].
  - intros Hs.
    assert ((∀ i o, l ≠ LStep i o) ∧ (∀ i m, l ≠ LSend i m)) as [Hl1 Hl2] by (by destruct l).
    assert (step l (rs_world s) ≫= (λ w, Some (set_world w s)) = Some s') as Hs' by (by destruct l).
    destruct (step l (rs_world s)) as [w|] eqn:Hw; [|done]. injection Hs' as <-.
    destruct (step_ok l _ w Hn (ri_world _ Hinv) Hw). split; [|done].
    apply rinv_world; [done..|]. intros j. apply (step_view l); auto. apply Hinv.
Qed.

Lemma rs_new_inv : rinv (rs_new (Msg := Msg) (R := R)).
Proof.
  split; simpl; [apply empty_world_ok|done|]. split; simpl; try done.
  - intros i. constructor.
  - intros k. split; [by rewrite lookup_empty|]. intros [i Hi]. by apply not_elem_of_nil in Hi.
  - intros i e k He. by apply not_elem_of_nil in He.
  - intros k v. split; [by rewrite lookup_empty|]. intros [m Hm]. by apply not_elem_of_nil in Hm.
  - intros k m v Hm. by apply not_elem_of_nil in Hm.
  - constructor.
  - intros k. rewrite lookup_empty. split; [by intros []|lia].
  - intros k. rewrite lookup_empty. split; [by intros []|lia].
Qed.
End invariant.

(** ** The result of a request *)

Section result.
Context {Msg R : Type} `{ThisNode} (limits : ActorId → Limits).
Implicit Types s : ReqSys Msg R.

Lemma rrun_app ls1 ls2 s : rrun limits (ls1 ++ ls2) s = rrun limits ls1 s ≫= rrun limits ls2.
Proof.
  revert s. induction ls1 as [|l ls1 IH]; intros s; [done|]. simpl.
  destruct (rstep limits l s) as [s1|]; [apply IH|done].
Qed.

(** What was asked is not forgotten. *)
Lemma rstep_asked l s s' : rinv s → rstep limits l s = Some s' → rs_asked s ⊆ rs_asked s'.
Proof.
  intros Hinv.
  assert (∀ i e s r s', mailbox_send limits i e s = Some (r, s') → rs_asked (R := R) s' = rs_asked s) as Hm.
  { intros i e s0 r s1 Hs%mailbox_send_spec.
    destruct r; [destruct Hs as (c & _ & _ & ->)|destruct Hs as [-> _]]; done. }
  destruct l as [i m|i m|i o v|l]; simpl.
  - destruct (send limits i m s) as [[r s1]|] eqn:Hs; [|done]. intros [= <-]. by rewrite (Hm _ _ _ _ _ Hs).
  - unfold request_raw. destruct (mailbox_send limits i _ _) as [[r s1]|] eqn:Hs; [|done]. simpl.
    apply Hm in Hs. simpl in Hs. pose proof (oi_asked _ _ _ _ _ (ri_out _ Hinv) (rs_next s)) as Hf.
    assert (rs_asked s !! rs_next s = None).
    { destruct (rs_asked s !! rs_next s); [|done]. assert (rs_next s < rs_next s)%N by (by apply Hf; eexists). lia. }
    destruct r; intros [= <-]; simpl; rewrite Hs; by apply insert_subseteq.
  - unfold actor_rstep. destruct (actors (rs_world s) !! i) as [c|]; [|done]. cbn [mbind option_bind].
    destruct (actor_step o i (rs_world s)) as [w'|]; [|done]. cbn [mbind option_bind].
    destruct (actors w' !! i) as [c'|]; [|done]. cbn [mbind option_bind]. intros [= <-]. simpl.
    assert (∀ s, rs_asked (end_handling i o v s) = rs_asked s) as He.
    { intros s0. unfold end_handling. destruct (rs_handling s0 !! i), o; done. }
    by destruct (received c), (c_phase c) as [| |[]| | | | | |]; simpl; rewrite ?He.
  - destruct l; try done; by intros (w & ? & [= <-])%bind_Some.
Qed.

Lemma rrun_inv ls s s' :
  (next_id (rs_world s) + N.of_nat (length ls) < 2 ^ 64 - 1)%N → rinv s → rrun limits ls s = Some s' →
  rinv s' ∧ rs_asked s ⊆ rs_asked s' ∧
  (next_id (rs_world s') ≤ next_id (rs_world s) + N.of_nat (length ls))%N.
Proof.
  revert s. induction ls as [|l ls IH]; intros s Hn Hinv Hrun.
  { injection Hrun as <-. split_and!; [done..|lia]. }
  cbn [length] in *. simpl in Hrun. destruct (rstep limits l s) as [s1|] eqn:Hs; [|done].
  destruct (rstep_inv limits l s s1 ltac:(lia) Hinv Hs) as [Hinv1 Hn1].
  destruct (IH s1 ltac:(lia) Hinv1 Hrun) as (? & ? & ?). split_and!; [done| |lia].
  etrans; [by eapply rstep_asked|done].
Qed.

Lemma rreachable_inv ls s :
  (N.of_nat (length ls) < 2 ^ 64 - 2)%N → rrun limits ls rs_new = Some s →
  rinv s ∧ (next_id (rs_world s) ≤ N.of_nat (length ls) + 1)%N.
Proof.
  intros Hlen Hrun.
  destruct (rrun_inv ls rs_new s) as (? & _ & Hn); [|apply rs_new_inv|done|].
  - simpl. unfold Ids.NEXT_ACTOR_ID_INIT. lia.
  - simpl in Hn. unfold Ids.NEXT_ACTOR_ID_INIT in Hn. split; [done|lia].
Qed.

(** A request that was accepted is on record; one that was refused has
    changed no mailbox. *)
Lemma request_raw_spec i m s q s1 :
  request_raw limits i m s = Some (q, s1) →
  match q with
  | Ok k => rs_asked s1 !! k = Some (i, m)
  | Err e => (e = MailboxFull ∨ e = ActorStopped) ∧ rs_world s1 = rs_world s
  end.
Proof.
  unfold request_raw. destruct (mailbox_send limits i _ _) as [[r s2]|] eqn:Hs; [|done].
  cbn [mbind option_bind]. apply mailbox_send_spec in Hs. destruct r as [u|err].
  - destruct Hs as (c & _ & _ & ->). intros [= <- <-]. apply lookup_insert_eq.
  - destruct Hs as [-> He]. by intros [= <- <-].
Qed.

(** Whether the requester is answered, and what it is told. *)
Lemma poll_reply_spec k i m s :
  rinv s → rs_asked s !! k = Some (i, m) →
  match poll_reply false k s with
  | Some (Ok v) => (k, (m, v)) ∈ rs_served s
  | Some (Err e) => e = ActorStopped ∧ (k ∉ answered s) ∧ k ∉ omap e_tx (outstanding s i)
  | None => k ∈ omap e_tx (outstanding s i) ∧ (k ∉ answered s) ∧
      exit_reason i (actors (rs_world s)) = None
  end.
Proof.
  intros Hinv Hk. pose proof (ri_out _ Hinv) as Ho. unfold poll_reply.
  assert (k < rs_next s)%N as Hlt by (apply (oi_asked _ _ _ _ _ Ho); by eexists).
  apply (oi_fresh _ _ _ _ _ Ho) in Hlt as [x Hx].
  assert (∀ v, rs_oneshots s !! k ≠ Some (OsSent v) → ∀ m, (k, (m, v)) ∉ rs_served s) as Hns.
  { intros v Hne m' Hin. apply Hne. apply (oi_sent _ _ _ _ _ Ho). eauto. }
  rewrite Hx. destruct x as [|v|].
  - apply (oi_open _ _ _ _ _ Ho) in Hx as Hx'. destruct Hx' as [j Hj].
    assert (j = i) as ->.
    { apply list_elem_of_omap in Hj as (e & He & Hek).
      pose proof (oi_msg _ _ _ _ _ Ho j e k He Hek). congruence. }
    split_and!; [done|..].
    + intros ((k' & m' & v') & Heq & Hin)%list_elem_of_fmap. simpl in Heq. subst k'.
      by apply (Hns v') in Hin; [|by rewrite Hx].
    + destruct (exit_reason i (actors (rs_world s))) as [r|] eqn:Hr; [|done]. exfalso.
      unfold exit_reason in Hr. destruct (actors (rs_world s) !! i) as [c|] eqn:Hi; [|done]. simpl in Hr.
      pose proof (wk_cells _ (ri_world _ Hinv) i c Hi) as Hc.
      assert (c_phase c = Completed) as Hp by (apply (ok_done _ Hc); by eexists).
      pose proof (ok_open _ Hc) as Hop. rewrite Hp in Hop.
      pose proof (ri_handling _ Hinv i) as Hh. unfold outstanding, view in *. rewrite Hi in *.
      unfold cell_view in *. simpl in *. rewrite Hop, Hp in *. simpl in *.
      apply bool_decide_eq_false, eq_None_not_Some in Hh. rewrite Hh in Hj. by apply not_elem_of_nil in Hj.
  - assert (∃ m', (k, (m', v)) ∈ rs_served s) as [m' Hm'] by (by apply (oi_sent _ _ _ _ _ Ho)).
    destruct (oi_served _ _ _ _ _ Ho k m' v Hm') as [j Hj]. congruence.
  - split_and!; [done|..].
    + intros ((k' & m' & v') & Heq & Hin)%list_elem_of_fmap. simpl in Heq. subst k'.
      by apply (Hns v') in Hin; [|by rewrite Hx].
    + intros Hin. assert (rs_oneshots s !! k = Some OsOpen) by (apply (oi_open _ _ _ _ _ Ho); eauto).
      congruence.
Qed.
End result.

(** C6: The promise of [request]. In any reachable system, let a message [m]
    be requested of an actor [i], and let anything happen until the deadline.
    If the mailbox refuses the message, the error is [MailboxFull] or
    [ActorStopped] and no mailbox has changed. Otherwise the request returns:
    a value that the handler returned for this very message, which was
    handled once only; or [ActorStopped], and then no handler ever answers it
    and it is in no mailbox any more; or [RequestTimeout], and then the actor
    has not completed and the message is still queued or being handled. In
    particular no requester of a completed actor waits for its timeout. *)
Theorem request_result {Msg R} `{ThisNode} (limits : ActorId → Limits) pre ls i m
    (s s1 : ReqSys Msg R) q :
  rrun limits pre rs_new = Some s → (N.of_nat (length pre + length ls + 1) < 2 ^ 64 - 2)%N →
  request_raw limits i m s = Some (q, s1) →
  match q with
  | Err e => (e = MailboxFull ∨ e = ActorStopped) ∧ rs_world s1 = rs_world s
  | Ok k => ∀ s', rrun limits ls s1 = Some s' →
      ∃ r, request_with_timeout limits ls i m s = Some (r, s') ∧ NoDup (answered s') ∧
      match r with
      | Ok v => (k, (m, v)) ∈ rs_served s'
      | Err ActorStopped => (k ∉ answered s') ∧ k ∉ omap e_tx (outstanding s' i)
      | Err RequestTimeout => (k ∉ answered s') ∧ k ∈ omap e_tx (outstanding s' i) ∧
          exit_reason i (actors (rs_world s')) = None
      | Err _ => False
      end
  end.
Proof.
  intros Hpre Hlen Hreq. pose proof (request_raw_spec limits i m s q s1 Hreq) as Hspec.
  destruct q as [k|e]; [|done]. intros s' Hls.
  destruct (rreachable_inv limits (pre ++ [RRequest i m]) s1) as [Hinv1 Hn1].
  { rewrite length_app. simpl. lia. }
  { rewrite rrun_app, Hpre. simpl. by rewrite Hreq. }
  rewrite length_app in Hn1. simpl in Hn1.
  destruct (rrun_inv limits ls s1 s' ltac:(lia) Hinv1 Hls) as (Hinv' & Hsub & _).
  pose proof (poll_reply_spec k i m s' Hinv' (lookup_weaken _ _ _ _ Hspec Hsub)) as Hpoll.
  unfold request_with_timeout. rewrite Hreq. cbn [mbind option_bind]. rewrite Hls. cbn [mbind option_bind].
  pose proof (oi_once _ _ _ _ _ (ri_out _ Hinv')) as Hnd.
  unfold poll_reply in *. destruct (rs_oneshots s' !! k) as [[|v|]|]; (eexists; split; [reflexivity|]);
    naive_solver.
Qed.

(** ** A waiting actor answers *)

Section responsive.
Context {Msg R : Type} `{ThisNode} (limits : ActorId → Limits).
Implicit Types s : ReqSys Msg R.

(** Actor [i] waits for messages, [q] are queued, and nothing tells it to
    stop. *)
Record serving (i : ActorId) (q : list (Envelope Msg)) s : Prop := {
  sv_cell : ∃ c, actors (rs_world s) !! i = Some c ∧ c_phase c = Receiving ∧ c_cancelled c = false ∧
    c_rx_open c = true ∧ live (c_mailbox c) ∧
    queue (signal (c_mailbox c)) = [] ∧ queue (stop (c_mailbox c)) = [] ∧
    queue (supervision (c_mailbox c)) = [] ∧ queue (user (c_mailbox c)) = q
}.

(** It receives the next message, and its handler returns [v]. *)
Lemma serve_one i e q s v :
  serving i (e :: q) s →
  ∃ s', rrun limits [RActor i CbReturned v; RActor i CbReturned v] s = Some s' ∧ serving i q s' ∧
    rs_oneshots s' = settle (OsSent v) e (rs_oneshots s).
Proof.
  intros [(c & Hi & Hp & Hca & Ho & Hl & Hsi & Hst & Hsu & Hu)].
  set (mb := mkReceiver (mkChan q true) (signal (c_mailbox c)) (stop (c_mailbox c))
    (supervision (c_mailbox c)) false false false false).
  assert (take_next (c_mailbox c) = Some (Message e, mb)) as Hn.
  { unfold take_next. by rewrite Hsi, Hst, Hsu, Hu. }
  assert (recv (c_rt c) (c_mailbox c) = Returned (Some (Message e)) mb) as Hrecv.
  { by rewrite recv_live, Hn. }
  set (c1 := set_phase (Handling false) (set_mailbox mb c)).
  assert (rstep limits (RActor i CbReturned v) s = Some (begin_handling i e
    (set_world (set_actors (<[i := c1]> (actors (rs_world s))) (rs_world s)) s))) as H1.
  { simpl. unfold actor_rstep, actor_step. rewrite Hi. cbn [mbind option_bind]. rewrite Hp.
    unfold run_actor_step, received. rewrite Hp, Hrecv. cbn [mbind option_bind].
    simpl. rewrite lookup_insert_eq. simpl. unfold dropped. simpl. rewrite Ho. done. }
  set (s1 := begin_handling i e _) in H1.
  assert (rstep limits (RActor i CbReturned v) s1 = Some (end_handling i CbReturned v
    (set_world (set_actors (<[i := set_phase Receiving c1]> (actors (rs_world s1))) (rs_world s1)) s1))) as H2.
  { simpl. unfold actor_rstep, actor_step. simpl. rewrite lookup_insert_eq. simpl.
    unfold run_actor_step. simpl. rewrite Hca. simpl. rewrite lookup_insert_eq. simpl.
    unfold dropped. simpl. rewrite Ho. simpl. unfold end_handling. simpl. rewrite lookup_insert_eq. done. }
  eexists. split; [cbn [rrun]; rewrite H1; cbn [mbind option_bind]; rewrite H2; reflexivity|].
  unfold end_handling. simpl. rewrite lookup_insert_eq. simpl. split; [|done].
  split. exists (set_phase Receiving c1). simpl. rewrite lookup_insert_eq.
  destruct Hl as (L1 & L2 & L3 & L4 & L5 & L6 & L7 & L8). split_and!; done.
Qed.

Definition serve_all (i : ActorId) (vs : list R) : list (RLabel Msg R) :=
  vs ≫= λ v, [RActor i CbReturned v; RActor i CbReturned v].

Lemma serve_queue i q vs s :
  serving i q s → length vs = length q →
  ∃ s', rrun limits (serve_all i vs) s = Some s' ∧ serving i [] s' ∧
    rs_oneshots s' = foldl (λ m ev, settle (OsSent (snd ev)) (fst ev) m) (rs_oneshots s) (zip q vs).
Proof.
  revert vs s. induction q as [|e q IH]; intros [|v vs] s Hs Hlen; try done.
  { exists s. split; [done|]. by split. }
  destruct (serve_one i e q s v Hs) as (s1 & Hr1 & Hs1 & Ho1).
  destruct (IH vs s1 Hs1 ltac:(simpl in Hlen; lia)) as (s' & Hr' & Hs' & Ho').
  exists s'. split; [|split; [done|by rewrite Ho', Ho1]].
  change (serve_all i (v :: vs)) with
    ([RActor i CbReturned v; RActor i CbReturned v] ++ serve_all i vs).
  rewrite rrun_app, Hr1. exact Hr'.
Qed.
End responsive.

(** C30: A live actor answers. If actor [i] waits for messages, is not cancelled
    and has neither stop, signal nor exit queued, and its mailbox has room
    after the messages [q] queued before the request, then the request is
    accepted; and once the actor has taken two steps per message, in none of
    which the handler panics and with nobody else acting on it, the requester
    gets the value that the handler returned last. *)
Theorem request_served_in_order {Msg R} `{ThisNode} (limits : ActorId → Limits) i m
    (s : ReqSys Msg R) q vs v :
  serving i q s →
  (∀ cap, capacity (limits i) = Some cap → (N.of_nat (length q) < cap)%N) → length vs = length q →
  ∃ k s1 s', request_raw limits i m s = Some (Ok k, s1) ∧
    rrun limits (serve_all i (vs ++ [v])) s1 = Some s' ∧ poll_reply false k s' = Some (Ok v) ∧
    request_with_timeout limits (serve_all i (vs ++ [v])) i m s = Some (Ok v, s').
Proof.
  intros Hs Hcap Hlen. pose proof Hs as [(c & Hi & Hp & Hca & Ho & Hl & Hsi & Hst & Hsu & Hu)].
  assert (∃ s1, request_raw limits i m s = Some (Ok (rs_next s), s1) ∧
    serving i (q ++ [mkEnvelope m (Some (rs_next s))]) s1) as (s1 & Hreq & Hs1).
  { unfold request_raw, mailbox_send. cbn [rs_world].
    rewrite (user_send_room limits i _ (rs_world s) c Hi Ho) by (by rewrite Hu).
    cbn [mbind option_bind]. eexists. split; [reflexivity|].
    split. exists (send_user (mkEnvelope m (Some (rs_next s))) c). simpl. rewrite lookup_insert_eq.
    unfold send_user. rewrite Ho. simpl. rewrite Hu. split_and!; done. }
  destruct (serve_queue limits i (q ++ [mkEnvelope m (Some (rs_next s))]) (vs ++ [v]) s1 Hs1)
    as (s' & Hrun & _ & Hos); [rewrite !length_app; simpl; lia|].
  assert (rs_oneshots s' !! rs_next s = Some (OsSent v)) as Hk.
  { rewrite Hos, zip_with_app, foldl_app by done. simpl. apply lookup_insert_eq. }
  exists (rs_next s), s1, s'. unfold poll_reply, request_with_timeout. rewrite Hreq, Hk.
  cbn [mbind option_bind]. rewrite Hrun. cbn [mbind option_bind]. unfold poll_reply. rewrite Hk. done.
Qed.

(** ** [Response] *)

Section response.
Context {T : Type}.

(** The states of a [Response]; a pending one holds what it will yield when
    its receiver, or the timed wait around it, is next polled. *)
Inductive ResponseState :=
| Receiver (rx : Oneshot T)
| TimedReceiver (rx : Oneshot T)
| Ready (r : Result T ActorError)
| Done.

Inductive Poll (A : Type) := PollReady (a : A) | PollPending.
Arguments PollReady {A} a.
Arguments PollPending {A}.

(** [From<Result<Receiver, _>>] and [from_with_timeout] *)
Definition response_from (r : Result (Oneshot T) ActorError) : ResponseState :=
  match r with Ok rx => Receiver rx | Err e => Ready (Err e) end.
Definition from_with_timeout (r : Result (Oneshot T) ActorError) : ResponseState :=
  match r with Ok rx => TimedReceiver rx | Err e => Ready (Err e) end.

(** The sending half acts between two polls. *)
Definition rx_set (o : Oneshot T) (s : ResponseState) : ResponseState :=
  match s with
  | Receiver OsOpen => Receiver o
  | TimedReceiver OsOpen => TimedReceiver o
  | _ => s
  end.

(** [poll]; [expired]: the timer of a timed receiver has fired. [None] is the
    panic of a response polled after completion. *)
Definition poll (expired : bool) (s : ResponseState) : option (Poll (Result T ActorError) * ResponseState) :=
  match s with
  | Receiver rx =>
      Some match rx with
           | OsSent v => (PollReady (Ok v), Done)
           | OsDropped => (PollReady (Err ActorStopped), Done)
           | OsOpen => (PollPending, s)
           end
  | TimedReceiver rx =>
      Some match rx with
           | OsSent v => (PollReady (Ok v), Done)
           | OsDropped => (PollReady (Err ActorStopped), Done)
           | OsOpen => if expired then (PollReady (Err RequestTimeout), Done) else (PollPending, s)
           end
  | Ready r => Some (PollReady r, Done)
  | Done => None
  end.

(** [unwrap], [expect]: [None] is a panic. *)
Definition response_unwrap (s : ResponseState) : option T :=
  match s with Ready (Ok v) => Some v | _ => None end.
Definition response_is_ok (s : ResponseState) : bool :=
  match s with Ready (Ok _) => true | _ => false end.
Definition response_is_err (s : ResponseState) : bool :=
  match s with Ready (Err _) => true | _ => false end.

(** An executor polls: before the [n]-th poll the sender may act, and the
    timer may have fired. *)
Fixpoint drive (evs : list (option (Oneshot T) * bool)) (s : ResponseState)
    : option (Poll (Result T ActorError) * ResponseState) :=
  match evs with
  | [] => Some (PollPending, s)
  | (o, expired) :: evs =>
      let s := match o with Some o => rx_set o s | None => s end in
      '(p, s) ← poll expired s;
      match p with PollReady r => Some (PollReady r, s) | PollPending => drive evs s end
  end.

(** What the events say: the first of an answer, a drop, and an expiry seen
    at a poll. *)
Fixpoint outcome (rx : Oneshot T) (evs : list (option (Oneshot T) * bool)) : option (Result T ActorError) :=
  match evs with
  | [] => None
  | (o, expired) :: evs =>
      let rx := match rx, o with OsOpen, Some o => o | _, _ => rx end in
      match rx with
      | OsSent v => Some (Ok v)
      | OsDropped => Some (Err ActorStopped)
      | OsOpen => if expired then Some (Err RequestTimeout) else outcome rx evs
      end
  end.

(** A response resolves once, with the first event, and is [Done] then: an
    executor that stops at [Ready] never polls it into the panic. *)
Theorem drive_timed rx evs :
  match outcome rx evs with
  | Some r => drive evs (TimedReceiver rx) = Some (PollReady r, Done)
  | None => ∃ rx', drive evs (TimedReceiver rx) = Some (PollPending, TimedReceiver rx')
  end.
Proof.
  revert rx. induction evs as [|[o expired] evs IH]; intros rx; [by exists rx|]. simpl.
  destruct rx as [|v|], o as [[|v'|]|], expired; simpl; try done; apply IH.
Qed.
End response.

(** ** Witnesses *)

Definition unlimited : ActorId → Limits := λ _, mkLimits None FailFast Tasks.
Definition asking : list (RLabel nat nat) := [RWorld (LSpawn Tasks); RActor (from_raw 1) CbReturned 0].

(** The handler panics: the requester is told that the actor has stopped. *)
Lemma request_result_witness :
  let _ : ThisNode := node_new "n@h" in
  let s := default rs_new (rrun unlimited asking rs_new) in
  let ls := [RActor (from_raw 1) CbReturned 0; RActor (from_raw 1) (CbPanicked "x") 0] in
  ∃ k s1, request_raw unlimited (from_raw 1) 5 s = Some (Ok k, s1) ∧
    ∀ s', rrun unlimited ls s1 = Some s' →
      ∃ r, request_with_timeout unlimited ls (from_raw 1) 5 s = Some (r, s') ∧ NoDup (answered s') ∧
      match r with
      | Ok v => (k, (5, v)) ∈ rs_served s'
      | Err ActorStopped => (k ∉ answered s') ∧ k ∉ omap e_tx (outstanding s' (from_raw 1))
      | Err RequestTimeout => (k ∉ answered s') ∧ k ∈ omap e_tx (outstanding s' (from_raw 1)) ∧
          exit_reason (from_raw 1) (actors (rs_world s')) = None
      | Err _ => False
      end.
Proof.
  intros T s ls. eexists _, _. split; [vm_compute; reflexivity|].
  match goal with |- ∀ s', rrun _ _ ?x = _ → _ =>
    apply (request_result unlimited asking ls (from_raw 1) 5 s x (Ok 0%N)) end.
  - vm_compute. reflexivity.
  - simpl. lia.
  - vm_compute. reflexivity.
Defined.

Lemma request_served_in_order_witness :
  let _ : ThisNode := node_new "n@h" in
  let s := default rs_new (rrun unlimited (asking ++ [RSend (from_raw 1) 3]) rs_new) in
  ∃ k s1 s', request_raw unlimited (from_raw 1) 5 s = Some (Ok k, s1) ∧
    rrun unlimited (serve_all (from_raw 1) ([8] ++ [9])) s1 = Some s' ∧
    poll_reply false k s' = Some (Ok 9) ∧
    request_with_timeout unlimited (serve_all (from_raw 1) ([8] ++ [9])) (from_raw 1) 5 s =
      Some (Ok 9, s').
Proof.
  intros T s.
  apply (request_served_in_order unlimited (from_raw 1) 5 s [mkEnvelope 3 None] [8] 9).
  - split. eexists. split; [vm_compute; reflexivity|]. split_and!; done.
  - done.
  - reflexivity.
Defined.
