(* ===== verification/Serving.v ===== *)
(** * An actor whose handler is known

    [Requests] leaves the values that handlers return open. Here one actor,
    [me], keeps a state of type [D] and answers a message by a function of
    the message and that state, as the actors of the library itself do
    (handlers of [concurrency/src/tasks/dynamic_supervisor.rs], called by
    [MessageEnvelope::handle] in [concurrency/src/tasks/actor.rs]). Between
    two messages the state moves by [drift], which may also end the actor. A
    handler that panics ends it too, and its state is gone. The replies of such
    an actor are those of a sequential execution of the messages whose handlers
    returned, in which every request takes effect once, after it was made and
    before its reply is seen. *)

From S2P Require Import Prelude Address Errors Mailbox Backpressure ChildSpec ProcessGroups Registry Links Actor Requests.
Import Receiver.

Section serving_actor.
Context {Msg R D : Type} `{ThisNode} (limits : ActorId → Limits) (me : ActorId).
(** [handle] is [None] where the handler panics, [drift] where the actor quits. *)
Context (handle : Msg → D → option (R * D)) (drift : D → option D → Prop).
Implicit Types (r : ReqSys Msg R) (d : D).

(** One handled message: its reply channel, the state it found, the reply. *)
Record Entry := mkEntry { en_key : option N; en_msg : Msg; en_before : D; en_reply : R }.

(** The state is [None] once a handler has panicked or the actor has quit. *)
Record ServerSys := mkServer { ss_req : ReqSys Msg R; ss_state : option D; ss_log : list Entry }.

(** The envelope whose handler actor [i] is about to finish. *)
Definition handling_now (i : ActorId) r : option (Envelope Msg) :=
  c ← actors (rs_world r) !! i;
  match c_phase c with Handling false => rs_handling r !! i | _ => None end.

Definition my_step (l : RLabel Msg R) : bool :=
  match l with RActor i _ _ => bool_decide (i = me) | _ => false end.

Inductive sstep : ServerSys → ServerSys → Prop :=
| st_other l r r' x h :
    my_step l = false → rstep limits l r = Some r' → sstep (mkServer r x h) (mkServer r' x h)
| st_loop o v r r' x h :
    handling_now me r = None → rstep limits (RActor me o v) r = Some r' →
    sstep (mkServer r x h) (mkServer r' x h)
| st_drift r d x h : drift d x → sstep (mkServer r (Some d) h) (mkServer r x h)
| st_handle e v r r' d d' h :
    handling_now me r = Some e → handle (e_msg e) d = Some (v, d') →
    rstep limits (RActor me CbReturned v) r = Some r' →
    sstep (mkServer r (Some d) h) (mkServer r' (Some d') (h ++ [mkEntry (e_tx e) (e_msg e) d v]))
| st_panic e msg v r r' d h :
    handling_now me r = Some e → handle (e_msg e) d = None →
    rstep limits (RActor me (CbPanicked msg) v) r = Some r' →
    sstep (mkServer r (Some d) h) (mkServer r' None h).

(** The log is a sequential execution that leads from [d0] to the state. *)
Inductive lin (d0 : D) : list Entry → D → Prop :=
| lin_nil : lin d0 [] d0
| lin_drift h d d' : lin d0 h d → drift d (Some d') → lin d0 h d'
| lin_handle h d k m v d' :
    lin d0 h d → handle m d = Some (v, d') → lin d0 (h ++ [mkEntry k m d v]) d'.
(** The state is the one the log leads to, as long as there is one. *)
Definition lin_to (d0 : D) (h : list Entry) (x : option D) : Prop :=
  ∃ d, lin d0 h d ∧ (x = Some d ∨ x = None).

(** Every prefix of the log is one, up to the state its next message found. *)
Lemma lin_prefix d0 h1 en h2 d :
  lin d0 (h1 ++ en :: h2) d →
  lin d0 h1 (en_before en) ∧ fst <$> handle (en_msg en) (en_before en) = Some (en_reply en).
Proof.
  remember (h1 ++ en :: h2) as h eqn:Hh. intros Hl. revert h2 Hh.
  induction Hl as [|h d d' _ IH _|h d k m v d' Hl IH Hd]; intros h2 Hh.
  - by destruct h1.
  - by apply (IH h2).
  - destruct h2 as [|x h2 _] using rev_ind.
    + apply app_inj_tail in Hh as [-> <-]. simpl. by rewrite Hd.
    + rewrite app_comm_cons, app_assoc in Hh. apply app_inj_tail in Hh as [-> _]. by apply (IH h2).
Qed.

(** ** What a step of the request system answers *)

Definition answers (l : RLabel Msg R) r : list (N * (Msg * R)) :=
  match l with
  | RActor i CbReturned v =>
      match handling_now i r with
      | Some e => match e_tx e with Some k => [(k, (e_msg e, v))] | None => [] end
      | None => []
      end
  | _ => []
  end.

Lemma mailbox_send_served i e r q r' :
  mailbox_send limits i e r = Some (q, r') → rs_served (R := R) r' = rs_served r.
Proof.
  intros Hs%mailbox_send_spec. destruct q; [by destruct Hs as (c & _ & _ & ->)|by destruct Hs as [-> _]].
Qed.

Lemma rstep_served l r r' :
  rstep limits l r = Some r' → rs_served r' = answers l r ++ rs_served r.
Proof.
  destruct l as [i m|i m|i o v|l]; simpl.
  - intros ([q r1] & Hs & ->)%fmap_Some. by apply mailbox_send_served in Hs.
  - intros ([q r1] & Hs & ->)%fmap_Some. unfold request_raw in Hs.
    apply bind_Some in Hs as ([q1 r2] & Hm%mailbox_send_served & Hq). simpl in Hm.
    by destruct q1; simplify_eq/=.
  - unfold actor_rstep, handling_now. destruct (actors (rs_world r) !! i) as [c|]; [|done].
    cbn [mbind option_bind]. destruct (actor_step o i (rs_world r)) as [w'|]; [|done].
    cbn [mbind option_bind]. destruct (actors w' !! i) as [c'|]; [|done]. cbn [mbind option_bind].
    intros [= <-]. unfold drop_queue, received. simpl.
    destruct (c_phase c) as [| |[]| | | | | |]; simpl; try (by destruct o);
      [by destruct (recv (c_rt c) (c_mailbox c)) as [[[]|]| | |], o|].
    unfold end_handling. simpl. by destruct (rs_handling r !! i) as [e|], o.
  - destruct l; try done; by intros (w & _ & [= <-])%bind_Some.
Qed.

(** ** Runs *)

(** The request system of a run is a run of [Requests]. *)
Lemma server_rrun n x y :
  nsteps sstep n x y → ∃ ls, length ls ≤ n ∧ rrun limits ls (ss_req x) = Some (ss_req y).
Proof.
  induction 1 as [x|n x y z Hst _ (ls & Hlen & Hr)]; [by exists []; split|].
  destruct Hst as [l r r' d h _ Hl|o v r r' d h _ Hl|r d d' h _|e v r r' d d' h _ _ Hl|e msg v r r' d h _ _ Hl];
    [exists (l :: ls)|exists (RActor me o v :: ls)|exists ls|exists (RActor me CbReturned v :: ls)
    |exists (RActor me (CbPanicked msg) v :: ls)];
    simpl in *; rewrite ?Hl; (split; [lia|done]).
Qed.

(** The log holds exactly the answers of [me]. *)
Record sinv (d0 : D) (x : ServerSys) : Prop := {
  si_req : rinv (ss_req x);
  si_lin : lin_to d0 (ss_log x) (ss_state x);
  si_mine k m v : (k, (m, v)) ∈ rs_served (ss_req x) → rs_asked (ss_req x) !! k = Some (me, m) →
    ∃ d, mkEntry (Some k) m d v ∈ ss_log x;
  si_entry en k : en ∈ ss_log x → en_key en = Some k →
    (k, (en_msg en, en_reply en)) ∈ rs_served (ss_req x);
  si_once : NoDup (omap en_key (ss_log x))
}.

Lemma handling_asked i r e k :
  rinv r → handling_now i r = Some e → e_tx e = Some k →
  rs_asked r !! k = Some (i, e_msg e) ∧ k ∉ answered r.
Proof.
  intros Hr. unfold handling_now. destruct (actors (rs_world r) !! i) as [c|]; [|done]. simpl.
  intros He Hk. assert (rs_handling r !! i = Some e) as Hh by (by destruct (c_phase c) as [| |[]| | | | | |]).
  assert (e ∈ outstanding r i) as Ho.
  { unfold outstanding. rewrite Hh. apply elem_of_app. right. by left. }
  pose proof (ri_out _ Hr) as Hoi. split; [by apply (oi_msg _ _ _ _ _ Hoi)|].
  intros ((k' & m & v) & Heq & Hin)%list_elem_of_fmap. simpl in Heq. subst k'.
  assert (rs_oneshots r !! k = Some OsOpen) by (apply (oi_open _ _ _ _ _ Hoi); exists i;
    apply list_elem_of_omap; eauto).
  assert (rs_oneshots r !! k = Some (OsSent v)) by (apply (oi_sent _ _ _ _ _ Hoi); eauto). congruence.
Qed.

Lemma asked_back l r r' k i m :
  rinv r → rstep limits l r = Some r' → rs_asked r' !! k = Some (i, m) →
  (k < rs_next r)%N → rs_asked r !! k = Some (i, m).
Proof.
  intros Hr Hl Hk Hlt. apply (oi_asked _ _ _ _ _ (ri_out _ Hr)) in Hlt as [x Hx].
  pose proof (lookup_weaken _ _ _ _ Hx (rstep_asked limits l r r' Hr Hl)). congruence.
Qed.

Lemma served_asked r k m v : rinv r → (k, (m, v)) ∈ rs_served r → (k < rs_next r)%N ∧ is_Some (rs_asked r !! k).
Proof.
  intros Hr Hin. pose proof (ri_out _ Hr) as Ho. destruct (oi_served _ _ _ _ _ Ho k m v Hin) as [i Hi].
  split; [apply (oi_asked _ _ _ _ _ Ho)|]; by eexists.
Qed.

(** A step that handles nothing of [me] keeps the log exact. *)
Lemma sinv_other d0 l r r' (x x' : option D) h :
  rinv r' → rstep limits l r = Some r' →
  (∀ k m v, (k, (m, v)) ∈ answers l r → rs_asked r !! k ≠ Some (me, m)) →
  x' = x ∨ x' = None → sinv d0 (mkServer r x h) → sinv d0 (mkServer r' x' h).
Proof.
  intros Hr' Hl Hno Hd [Hr Hlin Hmine Hent Honce]. split; simpl in *; try done.
  - destruct Hlin as (d & Hx & Hdx). exists d. split; [done|]. destruct Hd as [->| ->]; auto.
  - intros k m v. rewrite (rstep_served l r r' Hl). intros [Ha|Hs]%elem_of_app Hk.
    + destruct (Hno k m v Ha). unfold answers in Ha. destruct l as [| |i [] v'|]; try by apply not_elem_of_nil in Ha.
      destruct (handling_now i r) as [e|] eqn:He; [|by apply not_elem_of_nil in Ha].
      destruct (e_tx e) as [k'|] eqn:Hk'; [|by apply not_elem_of_nil in Ha].
      apply list_elem_of_singleton in Ha. simplify_eq.
      destruct (handling_asked i r e k' Hr He Hk') as [Hq _].
      apply (asked_back _ _ _ _ _ _ Hr Hl Hk). apply (oi_asked _ _ _ _ _ (ri_out _ Hr)). by eexists.
    + apply (Hmine k m v Hs). apply (asked_back _ _ _ _ _ _ Hr Hl Hk). by apply (served_asked r k m v).
  - intros en k Hen Hk. rewrite (rstep_served l r r' Hl). apply elem_of_app. right. by apply Hent.
Qed.

Lemma sinv_step d0 x y :
  (next_id (rs_world (ss_req x)) < 2 ^ 64 - 1)%N → sstep x y → sinv d0 x → sinv d0 y.
Proof.
  intros Hn Hst Hx. pose proof (si_req _ _ Hx) as Hr.
  destruct Hst as [l r r' d h Hm Hl|o v r r' d h Hh Hl|r d d' h Hd|e v r r' d d' h He Hhd Hl|e msg v r r' d h He Hhd Hl];
    simpl in *.
  - destruct (rstep_inv limits l r r' Hn Hr Hl) as [Hr' _]. apply (sinv_other d0 l r _ d); try done; [|by left].
    intros k m v Ha Hk. unfold answers in Ha. destruct l as [| |i [] v'|]; try by apply not_elem_of_nil in Ha.
    destruct (handling_now i r) as [e|] eqn:He; [|by apply not_elem_of_nil in Ha].
    destruct (e_tx e) as [k'|] eqn:Hk'; [|by apply not_elem_of_nil in Ha].
    apply list_elem_of_singleton in Ha. simplify_eq.
    destruct (handling_asked i r e k' Hr He Hk') as [Hq _]. simpl in Hm. bool_simpl. congruence.
  - destruct (rstep_inv limits (RActor me o v) r r' Hn Hr Hl) as [Hr' _]. apply (sinv_other d0 (RActor me o v) r _ d); try done; [|by left].
    intros k m v' Ha. unfold answers in Ha. rewrite Hh in Ha. destruct o; by apply not_elem_of_nil in Ha.
  - destruct Hx as [? (x & Hx & Hdx) ? ? ?]. split; simpl in *; try done. destruct Hdx as [[= <-]|?]; [|done].
    destruct d' as [d'|]; [exists d'|exists d; auto]. split; [by eapply lin_drift|by left].
  - destruct (rstep_inv limits (RActor me CbReturned v) r r' Hn Hr Hl) as [Hr' _].
    pose proof (rstep_served (RActor me CbReturned v) r r' Hl) as Hsv.
    unfold answers in Hsv. rewrite He in Hsv. destruct Hx as [_ Hlin Hmine Hent Honce]. simpl in *.
    split; simpl; [done|..].
    + destruct Hlin as (x & Hx & [[= <-]|?]); [|done]. exists d'. split; [by econstructor|by left].
    + intros k m v'. rewrite Hsv. intros [Ha|Hs]%elem_of_app Hk.
      * destruct (e_tx e) as [k'|]; [|by apply not_elem_of_nil in Ha].
        apply list_elem_of_singleton in Ha. simplify_eq. exists d. apply elem_of_app. right. by left.
      * destruct (Hmine k m v' Hs) as [d1 Hd1]; [|exists d1; apply elem_of_app; by left].
        apply (asked_back (RActor me CbReturned v) _ _ _ _ _ Hr Hl Hk). by apply (served_asked r k m v').
    + intros en k [Hen| ->%list_elem_of_singleton]%elem_of_app; simpl; intros Hk; rewrite Hsv.
      * apply elem_of_app. right. by apply Hent.
      * rewrite Hk. by left.
    + rewrite omap_app. simpl. destruct (e_tx e) as [k|] eqn:Hk; [|by rewrite app_nil_r].
      apply NoDup_app. split_and!; [done| |apply NoDup_singleton].
      intros k' (en & Hen & Hkey)%list_elem_of_omap ->%list_elem_of_singleton.
      destruct (handling_asked me r e k Hr He Hk) as [_ Hna]. apply Hna. unfold answered.
      apply list_elem_of_fmap. eexists. split; [|by apply (Hent en)]. done.
  - destruct (rstep_inv limits (RActor me (CbPanicked msg) v) r r' Hn Hr Hl) as [Hr' _].
    apply (sinv_other d0 (RActor me (CbPanicked msg) v) r _ (Some d)); try done; [|by right].
    by intros k m v' ?%not_elem_of_nil.
Qed.

Lemma sstep_log x y : sstep x y → ∃ h, ss_log y = ss_log x ++ h.
Proof. destruct 1; simpl; try (exists []; by rewrite app_nil_r); eauto. Qed.

Lemma sinv_run d0 n x y :
  (next_id (rs_world (ss_req x)) + N.of_nat n < 2 ^ 64 - 1)%N → sinv d0 x → nsteps sstep n x y →
  sinv d0 y ∧ (next_id (rs_world (ss_req y)) ≤ next_id (rs_world (ss_req x)) + N.of_nat n)%N ∧
  rs_asked (ss_req x) ⊆ rs_asked (ss_req y) ∧ ∃ h, ss_log y = ss_log x ++ h.
Proof.
  intros Hn Hx Hrun. revert Hn Hx. induction Hrun as [x|n x y z Hst Hrun IH]; intros Hn Hx.
  { split_and!; [done|lia|done|]. exists []. by rewrite app_nil_r. }
  pose proof (sinv_step d0 x y ltac:(lia) Hst Hx) as Hy.
  destruct (server_rrun 1 x y (nsteps_once _ _ Hst)) as (ls & Hlen & Hr).
  destruct (rrun_inv limits ls (ss_req x) (ss_req y) ltac:(lia) (si_req _ _ Hx) Hr) as (_ & Hsub & Hnx).
  destruct IH as (Hz & Hn' & Hsub' & h' & Hh'); [lia|done|]. destruct (sstep_log x y Hst) as [h Hh].
  split_and!; [done|lia|by etrans|]. exists (h ++ h'). by rewrite Hh', Hh, app_assoc.
Qed.

(** ** Requests take effect atomically *)

(** The run starts with no actors and the state [d0]. After [n] steps [m] is
    asked of [me] and accepted under the key [k]; [p] steps later the
    requester looks. *)
Lemma request_atomic d0 n p x m k r1 y :
  nsteps sstep n (mkServer rs_new (Some d0) []) x → (N.of_nat (n + p + 1) < 2 ^ 64 - 2)%N →
  request_raw limits me m (ss_req x) = Some (Ok k, r1) →
  nsteps sstep p (mkServer r1 (ss_state x) (ss_log x)) y →
  ∃ h, ss_log y = ss_log x ++ h ∧ lin_to d0 (ss_log y) (ss_state y) ∧
  match poll_reply false k (ss_req y) with
  | Some (Ok v) => ∃ h1 d h2, h = h1 ++ mkEntry (Some k) m d v :: h2 ∧ k ∉ omap en_key (h1 ++ h2)
  | Some (Err e) => e = ActorStopped ∧ (k ∉ omap en_key h) ∧ k ∉ omap e_tx (outstanding (ss_req y) me)
  | None => (k ∉ omap en_key h) ∧ k ∈ omap e_tx (outstanding (ss_req y) me) ∧
      exit_reason me (actors (rs_world (ss_req y))) = None
  end.
Proof.
  intros Hx Hlen Hreq Hy.
  assert (sinv d0 (mkServer rs_new (Some d0) [])) as H0.
  { split; simpl; [apply rs_new_inv|exists d0; split; [constructor|by left]|by intros * ?%not_elem_of_nil..|constructor]. }
  assert (next_id (rs_world (ss_req (mkServer (rs_new (Msg := Msg) (R := R)) (Some d0) []))) = 1%N) as Hid by done.
  destruct (sinv_run d0 n _ x ltac:(rewrite Hid; lia) H0 Hx) as (Hxi & Hnx & _ & _). rewrite Hid in Hnx.
  assert (nsteps sstep 1 x (mkServer r1 (ss_state x) (ss_log x))) as Hone.
  { apply nsteps_once. destruct x as [r d h]. apply (st_other (RRequest me m)); [done|]. simpl in *.
    by rewrite Hreq. }
  set (x1 := mkServer r1 _ _) in *.
  destruct (sinv_run d0 1 x x1 ltac:(lia) Hxi Hone) as (Hri & Hnr & _ & _).
  destruct (sinv_run d0 p x1 y ltac:(lia) Hri Hy) as ([Hyr Hyl Hym Hye Hyo] & _ & Hsub & h & Hh).
  simpl in Hh, Hsub. exists h. split_and!; [done|done|].
  pose proof (request_raw_spec limits me m _ _ _ Hreq) as Hk. simpl in Hk.
  pose proof (lookup_weaken _ _ _ _ Hk Hsub) as Hky.
  pose proof (poll_reply_spec k me m (ss_req y) Hyr Hky) as Hpoll.
  assert (k ∉ omap en_key (ss_log x)) as Hfresh.
  { intros (en & Hen & Hkey)%list_elem_of_omap.
    pose proof (si_entry _ _ Hxi en k Hen Hkey) as Hs. apply (served_asked _ _ _ _ (si_req _ _ Hxi)) in Hs as [Hlt _].
    unfold request_raw in Hreq. apply bind_Some in Hreq as ([q s2] & _ & Hq). destruct q; simplify_eq. lia. }
  assert (∀ en, en ∈ h → en ∈ ss_log y) as Hin by (intros en ?; rewrite Hh; apply elem_of_app; by right).
  assert (k ∉ answered (ss_req y) → k ∉ omap en_key h) as Hna.
  { intros Hn (en & Hen & Hkey)%list_elem_of_omap. apply Hn. unfold answered. apply list_elem_of_fmap.
    eexists. split; [|apply (Hye en k (Hin en Hen) Hkey)]. done. }
  destruct (poll_reply false k (ss_req y)) as [[v|e]|]; [|naive_solver..].
  destruct (Hym k m v Hpoll Hky) as [d Hd]. rewrite Hh in Hd. apply elem_of_app in Hd as [Hd|Hd].
  { destruct Hfresh. apply list_elem_of_omap. by exists (mkEntry (Some k) m d v). }
  apply list_elem_of_split in Hd as (h1 & h2 & ->). exists h1, d, h2. split; [done|].
  rewrite Hh, !omap_app in Hyo. simpl in Hyo. apply NoDup_app in Hyo as (_ & _ & Hyo).
  rewrite omap_app. apply NoDup_app in Hyo as (_ & Hdis & Hyo). apply NoDup_cons in Hyo as [Hn2 _].
  intros [H1|H2]%elem_of_app; [|done]. apply (Hdis k H1). by left.
Qed.
End serving_actor.
Arguments Entry Msg R D : clear implicits.
Arguments ServerSys Msg R D : clear implicits.
