(* ===== verification/Monitors.v ===== *)
(** * Monitors

    Model of [Context::monitor] and [Context::demonitor] in
    [concurrency/src/tasks/actor.rs] and [concurrency/src/threads/actor.rs]
    and of [concurrency/src/monitor.rs]. Each monitor has a watcher (a task,
    respectively a thread) that waits for the target's completion, takes the
    monitor out of the owner's table, reads the monitor's flag and sends
    [Down] to the owner; [demonitor] clears the flag while it holds the lock
    of the table. Steps of watchers, of [monitor] and [demonitor] calls and
    of the actors are interleaved in any order. *)

From S2P Require Import Prelude Address Errors Mailbox Backpressure ChildSpec ProcessGroups Registry Links Actor Requests.
Import Receiver.

(** Where a watcher is: in [wait_exit], past the removal of the table entry,
    past the test of the flag, returned. *)
Inductive WatchPc := WWait | WRemoved (r : ExitReason) | WSend (r : ExitReason) | WDone.

Record Watcher := mkWatcher { wt_owner : ActorId; wt_target : ActorId; wt_pc : WatchPc }.

Section monitors.
Context {M : Type} `{ThisNode}.
Context (limits : ActorId → Limits).
(** A [Down] as a message of the owner. *)
Context (mk_down : N → ExitReason → M).

(** [ms_table] holds the entries of all owners' tables, [ms_active] the flag
    shared by an entry and its watcher; [ms_downs] records the sends. *)
Record MonSys := mkMonSys {
  ms_world : World M;
  ms_next : N;
  ms_table : gset (ActorId * N);
  ms_active : gmap N bool;
  ms_watchers : gmap N Watcher;
  ms_downs : list (N * (ExitReason * Result () ActorError))
}.

(** [NEXT_MONITOR_ID] starts at 1. *)
Definition ms_new : MonSys := mkMonSys empty_world 1 ∅ ∅ ∅ [].

(** [Context::monitor]. *)
Definition monitor (owner target : ActorId) (s : MonSys) : N * MonSys :=
  let k := ms_next s in
  (k, mkMonSys (ms_world s) (wrapping_succ_u64 k) ({[(owner, k)]} ∪ ms_table s)
        (<[k := true]> (ms_active s)) (<[k := mkWatcher owner target WWait]> (ms_watchers s))
        (ms_downs s)).

(** [Context::demonitor] of a local monitor: the table stays locked while the
    flag is cleared. *)
Definition demonitor (owner : ActorId) (k : N) (s : MonSys) : MonSys :=
  if decide ((owner, k) ∈ ms_table s) then
    mkMonSys (ms_world s) (ms_next s) (ms_table s ∖ {[(owner, k)]}) (<[k := false]> (ms_active s))
      (ms_watchers s) (ms_downs s)
  else s.

Definition set_watch (k : N) (pc : WatchPc) (s : MonSys) : MonSys :=
  mkMonSys (ms_world s) (ms_next s) (ms_table s) (ms_active s)
    (alter (λ w, mkWatcher (wt_owner w) (wt_target w) pc) k (ms_watchers s)) (ms_downs s).

(** One step of the watcher of monitor [k]. *)
Definition watch_step (k : N) (s : MonSys) : option MonSys :=
  wt ← ms_watchers s !! k;
  match wt_pc wt with
  | WWait =>
      r ← exit_reason (wt_target wt) (actors (ms_world s));
      Some (set_watch k (WRemoved r)
        (mkMonSys (ms_world s) (ms_next s) (ms_table s ∖ {[(wt_owner wt, k)]}) (ms_active s)
           (ms_watchers s) (ms_downs s)))
  | WRemoved r =>
      Some (set_watch k (if decide (ms_active s !! k = Some true) then WSend r else WDone) s)
  | WSend r =>
      '(res, w) ← user_send limits (wt_owner wt) (mk_down k r) (ms_world s);
      Some (set_watch k WDone
        (mkMonSys w (ms_next s) (ms_table s) (ms_active s) (ms_watchers s)
           ((k, (r, res)) :: ms_downs s)))
  | WDone => None
  end.

Inductive MLabel :=
| MMonitor (owner target : ActorId)
| MDemonitor (owner : ActorId) (k : N)
| MWatch (k : N)
| MWorld (l : Label M).

Definition mstep (l : MLabel) (s : MonSys) : option MonSys :=
  match l with
  | MMonitor owner target =>
      _ ← actors (ms_world s) !! owner; _ ← actors (ms_world s) !! target;
      Some (snd (monitor owner target s))
  | MDemonitor owner k => Some (demonitor owner k s)
  | MWatch k => watch_step k s
  | MWorld l =>
      w ← step l (ms_world s);
      Some (mkMonSys w (ms_next s) (ms_table s) (ms_active s) (ms_watchers s) (ms_downs s))
  end.

Fixpoint mrun (ls : list MLabel) (s : MonSys) : option MonSys :=
  match ls with [] => Some s | l :: ls => s' ← mstep l s; mrun ls s' end.

(** Reached in fewer steps than there are ids. *)
Definition mreachable (s : MonSys) : Prop :=
  ∃ ls, (N.of_nat (length ls) < 2 ^ 64 - 2)%N ∧ mrun ls ms_new = Some s.
End monitors.
Arguments MonSys M : clear implicits.
Arguments MLabel M : clear implicits.

(** ** A completion is final *)

Section completions.
Context {M : Type} `{ThisNode}.
Implicit Types (c : Cell M) (a : gmap ActorId (Cell M)) (w : World M).

Definition keeps_completion (f : Cell M → Cell M) : Prop := ∀ c, c_completion (f c) = c_completion c.

Lemma reason_alter f i j a : keeps_completion f → exit_reason j (alter f i a) = exit_reason j a.
Proof.
  intros Hf. unfold exit_reason. rewrite lookup_alter. case_decide as Hij; [|done]. subst.
  destruct (a !! j) as [c|]; simpl; [apply Hf|done].
Qed.

Lemma reason_insert i j c c' a :
  a !! i = Some c → c_completion c' = c_completion c →
  exit_reason j (<[i := c']> a) = exit_reason j a.
Proof.
  intros Hi Hc. unfold exit_reason. rewrite lookup_insert. case_decide as Hij; [|done]. subst.
  by rewrite Hi.
Qed.

Lemma completion_signal i r : keeps_completion (exit_signal i r).
Proof. intros c. apply (sg_completion _ _ _ _ (exit_signal_spec i r c)). Qed.
Lemma completion_add_link p : keeps_completion (add_link p).
Proof. intros c. unfold add_link. by case_bool_decide. Qed.
Lemma completion_cancel : keeps_completion cancel.
Proof. intros c. by destruct (cancel_fields c) as (_ & _ & _ & _ & _ & _ & _ & _ & ? & _). Qed.

Lemma reason_link_check x y j (b : gmap ActorId (Cell M)) : exit_reason j (link_check x y b) = exit_reason j b.
Proof.
  unfold link_check. destruct (exit_reason y b) as [r|]; [|done]. unfold take_self_from_peer_table.
  destruct (b !! y); [|done]. unfold make_signal.
  destruct (bool_decide _); rewrite ?reason_alter; try done; apply completion_signal.
Qed.

Lemma reason_propagate own r j a : exit_reason j (propagate_exit own r a) = exit_reason j a.
Proof.
  unfold propagate_exit. destruct (a !! own) as [c|]; [|done].
  transitivity (exit_reason j (alter (set_links []) own a)); [|by apply reason_alter].
  generalize (alter (set_links []) own a). induction (c_links c) as [|p ps IH]; intros b; [done|].
  simpl. rewrite IH. unfold make_signal. rewrite !reason_alter; [done|done|apply completion_signal].
Qed.

Lemma user_send_reason limits i (m : M) w r w' j :
  user_send limits i m w = Some (r, w') → exit_reason j (actors w') = exit_reason j (actors w).
Proof.
  intros Hs%user_send_spec. destruct r; [|by destruct Hs as [-> _]].
  destruct Hs as (c & Hi & Ho & ->). apply (reason_insert i j c); [done|].
  unfold send_user. by rewrite Ho.
Qed.

(** No step changes the reason of a completed actor. *)
Lemma step_reason l w w' j r :
  world_ok w → step l w = Some w' → exit_reason j (actors w) = Some r → exit_reason j (actors w') = Some r.
Proof.
  intros Hok Hs Hr.
  assert (∀ i f w', keeps_completion f → on_cell i f w = Some w' → exit_reason j (actors w') = Some r) as Hcell.
  { intros i f w1 Hf. unfold on_cell. destruct (actors w !! i) as [c|] eqn:Hi; [|done].
    intros [= <-]. rewrite <- Hr. by apply (reason_insert i j c). }
  destruct l as [i o|i|i|i|i|i b|x y|x y|x y|i m|i s|rt]; simpl in Hs.
  - unfold actor_step in Hs. destruct (actors w !! i) as [c|] eqn:Hi; [|done]. cbn [mbind option_bind] in Hs.
    destruct (c_phase c) as [| |b| |r'|r'|r'|r'|] eqn:Hp; try done;
      try (destruct (run_actor_step o c) as [c'|] eqn:Hst; [|done]; injection Hs as <-; rewrite <- Hr;
           apply (reason_insert i j c); [done|by apply (run_actor_step_keeps o)]);
      injection Hs as <-; simpl.
    + rewrite reason_alter, reason_propagate by done. done.
    + by rewrite reason_alter.
    + unfold exit_reason in *. rewrite lookup_alter. case_decide as Hij; [|done]. subst j.
      rewrite Hi in Hr. simpl in Hr. pose proof (wk_cells _ Hok i c Hi) as Hc.
      assert (c_phase c = Completed) by (apply (ok_done _ Hc); rewrite Hr; eauto). congruence.
  - destruct (actors w !! i) as [c|]; [|done]. simpl in Hs. destruct (c_cancelled c); [|done].
    apply (Hcell i post_stop); [|done]. intros d. unfold post_stop, send_stop.
    destruct (c_stop_posted d); [done|]. by destruct (c_rx_open d).
  - apply (Hcell i handle_stop); [|done]. intros c. apply completion_cancel.
  - apply (Hcell i handle_shutdown); [|done]. intros c. unfold handle_shutdown. by rewrite completion_cancel.
  - apply (Hcell i handle_kill); [|done]. intros c. unfold handle_kill. by rewrite completion_cancel.
  - by apply (Hcell i (set_trap_exit b)).
  - destruct (actors w !! y); [|done]. apply (Hcell x (add_link y)); [apply completion_add_link|done].
  - destruct (actors w !! x), (actors w !! y); try done. injection Hs as <-. simpl.
    by rewrite reason_link_check.
  - by apply (Hcell x (remove_link y)).
  - apply (Hcell i (send_user m)); [|done]. intros c. unfold send_user. by destruct (c_rx_open c).
  - apply (Hcell i (send_signal s)); [|done]. intros c. unfold send_signal. by destruct (c_rx_open c).
  - injection Hs as <-. simpl. unfold exit_reason in *. rewrite lookup_insert. case_decide as Hj; [|done].
    subst j. by rewrite (spawn_fresh w Hok) in Hr.
Qed.
End completions.

(** ** The invariant *)

Section invariant.
Context {M : Type} `{ThisNode} (limits : ActorId → Limits) (mk_down : N → ExitReason → M).
Implicit Types s : MonSys M.

Definition down_sent (k : N) s : Prop := ∃ x, (k, x) ∈ ms_downs s.

(** What holds of monitor [k] with flag [b], by the watcher's position. *)
Definition watcher_ok s (k : N) (wt : Watcher) (b : bool) : Prop :=
  match wt_pc wt with
  | WWait => (b = true ↔ (wt_owner wt, k) ∈ ms_table s) ∧ ¬ down_sent k s
  | WRemoved r =>
      exit_reason (wt_target wt) (actors (ms_world s)) = Some r ∧ ((wt_owner wt, k) ∉ ms_table s) ∧
      ¬ down_sent k s
  | WSend r =>
      exit_reason (wt_target wt) (actors (ms_world s)) = Some r ∧ ((wt_owner wt, k) ∉ ms_table s) ∧
      b = true ∧ ¬ down_sent k s
  | WDone =>
      ((wt_owner wt, k) ∉ ms_table s) ∧
      ∃ r, exit_reason (wt_target wt) (actors (ms_world s)) = Some r ∧
      if b then ∃ res, (k, (r, res)) ∈ ms_downs s else ¬ down_sent k s
  end.

Record minv s : Prop := {
  mi_world : world_ok (ms_world s);
  mi_keys k : is_Some (ms_watchers s !! k) ↔ is_Some (ms_active s !! k);
  mi_fresh k : is_Some (ms_watchers s !! k) → (k < ms_next s)%N;
  mi_table o k : (o, k) ∈ ms_table s → ∃ t, ms_watchers s !! k = Some (mkWatcher o t WWait);
  mi_downs k x : (k, x) ∈ ms_downs s → is_Some (ms_watchers s !! k);
  mi_once : NoDup (ms_downs s).*1;
  mi_ok k wt b : ms_watchers s !! k = Some wt → ms_active s !! k = Some b → watcher_ok s k wt b
}.

(** A monitor whose own data is unchanged. *)
Lemma watcher_ok_ext s s' k wt b :
  (∀ o, (o, k) ∈ ms_table s' ↔ (o, k) ∈ ms_table s) → (∀ x, (k, x) ∈ ms_downs s' ↔ (k, x) ∈ ms_downs s) →
  (∀ r, exit_reason (wt_target wt) (actors (ms_world s)) = Some r →
    exit_reason (wt_target wt) (actors (ms_world s')) = Some r) →
  watcher_ok s k wt b → watcher_ok s' k wt b.
Proof.
  intros Ht Hd Hr. assert (down_sent k s' ↔ down_sent k s) as Hds.
  { split; intros [x Hx]; exists x; by apply Hd. }
  unfold watcher_ok. destruct (wt_pc wt); rewrite ?Ht, ?Hds.
  - done.
  - intros (H1 & H2 & H3). auto.
  - intros (H1 & H2 & H3). auto.
  - intros (H1 & r & H2 & H3). split; [done|]. exists r. split; [auto|].
    destruct b; [|by rewrite Hds]. destruct H3 as [res ?]. exists res. by apply Hd.
Qed.

Lemma minv_monitor o t s :
  (ms_next s < 2 ^ 64 - 1)%N → minv s → minv (snd (monitor o t s)).
Proof.
  intros Hn Hinv. destruct Hinv as [Hw Hk Hf Ht Hd Ho Hok].
  assert (ms_watchers s !! ms_next s = None) as Hnone.
  { destruct (ms_watchers s !! ms_next s) eqn:He; [|done].
    assert (ms_next s < ms_next s)%N by (apply Hf; eauto). lia. }
  assert (∀ o, (o, ms_next s) ∉ ms_table s) as Hnt.
  { intros o' Hin. destruct (Ht _ _ Hin) as [? ?]. congruence. }
  assert (∀ x, (ms_next s, x) ∉ ms_downs s) as Hnd.
  { intros x Hin. destruct (Hd _ _ Hin) as [? ?]. congruence. }
  split; simpl.
  - done.
  - intros k. destruct (decide (k = ms_next s)) as [->|Hne]; rewrite ?lookup_insert_eq; [done|].
    by rewrite !lookup_insert_ne.
  - intros k. unfold wrapping_succ_u64. rewrite N.mod_small by lia.
    destruct (decide (k = ms_next s)) as [->|Hne]; [lia|]. rewrite lookup_insert_ne by done.
    intros ?%Hf. lia.
  - intros o' k. rewrite elem_of_union, elem_of_singleton. intros [[= -> ->]|Hin].
    + exists t. apply lookup_insert_eq.
    + destruct (Ht _ _ Hin) as [t' Ht']. exists t'. rewrite lookup_insert_ne; [done|].
      intros <-. by destruct (Hnt o').
  - intros k x Hin. destruct (decide (k = ms_next s)) as [->|Hne]; [by rewrite lookup_insert_eq|].
    rewrite lookup_insert_ne by done. eauto.
  - done.
  - intros k wt b. destruct (decide (k = ms_next s)) as [->|Hne].
    + rewrite !lookup_insert_eq. intros [= <-] [= <-]. unfold watcher_ok, down_sent. simpl.
      split; [|by intros [x ?%Hnd]]. split; [set_solver|done].
    + rewrite !lookup_insert_ne by done. intros Hwt Hb.
      apply (watcher_ok_ext s); simpl; [set_solver|done|done|by apply Hok].
Qed.

Lemma minv_demonitor o k s : minv s → minv (demonitor o k s).
Proof.
  intros Hinv. unfold demonitor. case_decide as Hin; [|done]. destruct Hinv as [Hw Hk Hf Ht Hd Ho Hok].
  destruct (Ht _ _ Hin) as [t Hwt]. assert (is_Some (ms_active s !! k)) as [b Hb] by (apply Hk; eauto).
  split; simpl; try done.
  - intros k'. rewrite lookup_insert_is_Some', Hk. split; [auto|]. intros [<-|?]; eauto.
  - intros o' k' Hin'. apply Ht. set_solver.
  - intros k' wt b'. destruct (decide (k' = k)) as [->|Hne].
    + rewrite lookup_insert_eq. intros Hwt' [= <-]. simplify_eq. unfold watcher_ok. simpl.
      destruct (Hok _ _ _ Hwt Hb) as [_ Hnd]. split; [set_solver|done].
    + rewrite lookup_insert_ne by done. intros Hwt' Hb'.
      apply (watcher_ok_ext s); simpl; [set_solver|done|done|by apply Hok].
Qed.

Lemma minv_world w s :
  minv s → world_ok w →
  (∀ j r, exit_reason j (actors (ms_world s)) = Some r → exit_reason j (actors w) = Some r) →
  minv (mkMonSys w (ms_next s) (ms_table s) (ms_active s) (ms_watchers s) (ms_downs s)).
Proof.
  intros [Hw Hk Hf Ht Hd Ho Hok] Hw' Hr. split; simpl; try done. intros k wt b Hwt Hb.
  apply (watcher_ok_ext s); simpl; auto.
Qed.

(** Moving the watcher of [k]. *)
Lemma minv_watch k s wt b pc w tbl dn :
  minv s → ms_watchers s !! k = Some wt → ms_active s !! k = Some b → wt_pc wt ≠ WWait ∨ pc ≠ WWait →
  world_ok w →
  (∀ j r, exit_reason j (actors (ms_world s)) = Some r → exit_reason j (actors w) = Some r) →
  tbl = ms_table s ∖ {[(wt_owner wt, k)]} →
  NoDup dn.*1 → (∀ k' x, (k', x) ∈ dn → k' = k ∨ (k', x) ∈ ms_downs s) →
  (∀ x, x ∈ ms_downs s → x ∈ dn) →
  let s' := mkMonSys w (ms_next s) tbl (ms_active s)
    (alter (λ wt, mkWatcher (wt_owner wt) (wt_target wt) pc) k (ms_watchers s)) dn in
  watcher_ok s' k (mkWatcher (wt_owner wt) (wt_target wt) pc) b → minv s'.
Proof.
  intros [Hw Hk Hf Ht Hd Ho Hok] Hwt Hb Hpc Hw' Hr -> Hnd Hdn Hdn' s' Hs'.
  assert (∀ k', is_Some (ms_watchers s' !! k') ↔ is_Some (ms_watchers s !! k')) as Hdom.
  { intros k'. simpl. rewrite lookup_alter. case_decide as Hkk; [|done]. subst. by rewrite Hwt. }
  split.
  - done.
  - intros k'. rewrite Hdom. apply Hk.
  - intros k'. rewrite Hdom. apply Hf.
  - intros o k' Hin. simpl in Hin. simpl.
    destruct (Ht o k') as [t Ht']; [set_solver|]. exists t. rewrite lookup_alter_ne; [done|].
    intros ->. rewrite Hwt in Ht'. injection Ht' as ->. simpl in Hin. set_solver.
  - intros k' x Hin. rewrite Hdom. destruct (Hdn k' x Hin) as [->|?]; [by rewrite Hwt|eauto].
  - done.
  - intros k' wt' b' Hwt' Hb'. simpl in Hwt', Hb'. destruct (decide (k' = k)) as [->|Hne].
    + rewrite lookup_alter_eq, Hwt in Hwt'. injection Hwt' as <-. simpl in *. by simplify_eq.
    + rewrite lookup_alter_ne in Hwt' by done.
      apply (watcher_ok_ext s); simpl; [set_solver| |auto|by apply Hok].
      intros x. split; [|apply Hdn']. intros [->|?]%Hdn; done.
Qed.

Lemma minv_watch_step k s s' : minv s → watch_step limits mk_down k s = Some s' → minv s' ∧ next_id (ms_world s') = next_id (ms_world s).
Proof.
  intros Hinv Hs. unfold watch_step in Hs. destruct (ms_watchers s !! k) as [wt|] eqn:Hwt; [|done].
  cbn [mbind option_bind] in Hs.
  assert (is_Some (ms_active s !! k)) as [b Hb] by (apply (mi_keys _ Hinv); eauto).
  pose proof (mi_ok _ Hinv k wt b Hwt Hb) as Hwk. unfold watcher_ok in Hwk.
  pose proof (mi_once _ Hinv) as Hnd.
  destruct (wt_pc wt) as [|r|r|] eqn:Hpc; [..|done].
  - destruct (exit_reason (wt_target wt) (actors (ms_world s))) as [r|] eqn:Hr; [|done].
    injection Hs as <-. split; [|done].
    apply (minv_watch k s wt b (WRemoved r)); try done; [by right|apply Hinv|by right|].
    unfold watcher_ok. simpl. split_and!; [done|set_solver|apply Hwk].
  - injection Hs as <-. split; [|done]. destruct Hwk as (Hr & Hnt & Hns).
    apply (minv_watch k s wt b); try done; [left; by rewrite Hpc|apply Hinv|set_solver|by right|].
    unfold watcher_ok. simpl. rewrite Hb. case_decide as Hbt.
    + injection Hbt as ->. done.
    + split; [done|]. exists r. split; [done|]. by destruct b.
  - destruct (user_send limits (wt_owner wt) (mk_down k r) (ms_world s)) as [[res w]|] eqn:Hu; [|done].
    injection Hs as <-. destruct Hwk as (Hr & Hnt & -> & Hns).
    assert (world_ok w ∧ next_id w = next_id (ms_world s)) as [Hw Hid].
    { pose proof (user_send_spec _ _ _ _ _ _ Hu) as Hsp. pose proof (mi_world _ Hinv) as Hok.
      destruct res; [|destruct Hsp as [-> _]; done]. destruct Hsp as (c & Hi & Ho & ->).
      destruct (keeps_send_user (mk_down k r) c). split; [|done].
      apply (world_ok_insert (wt_owner wt) c); try done. apply cell_ok_send_user.
      by apply (wk_cells _ Hok (wt_owner wt)). }
    split; [|done].
    apply (minv_watch k s wt true WDone); try done.
    + left. by rewrite Hpc.
    + intros j r'. simpl. by rewrite (user_send_reason _ _ _ _ _ _ j Hu).
    + set_solver.
    + simpl. apply NoDup_cons. split; [|done].
      intros ([k' x] & Heq & Hin)%list_elem_of_fmap. simpl in Heq. subst k'. apply Hns. by exists x.
    + intros k' x [[= -> _]|?]%elem_of_cons; auto.
    + intros x ?. by right.
    + unfold watcher_ok. simpl. split; [done|]. exists r.
      rewrite (user_send_reason _ _ _ _ _ _ _ Hu). split; [done|]. exists res. by left.
Qed.

Lemma mstep_inv l s s' :
  (next_id (ms_world s) < 2 ^ 64 - 1)%N → (ms_next s < 2 ^ 64 - 1)%N → minv s →
  mstep limits mk_down l s = Some s' →
  minv s' ∧ (next_id (ms_world s') ≤ next_id (ms_world s) + 1)%N ∧ (ms_next s' ≤ ms_next s + 1)%N.
Proof.
  intros Hn1 Hn2 Hinv. destruct l as [o t|o k|k|l]; simpl.
  - destruct (actors (ms_world s) !! o), (actors (ms_world s) !! t); try done. intros [= <-].
    split_and!; [by apply minv_monitor|simpl; lia|simpl]. unfold wrapping_succ_u64.
    rewrite N.mod_small; lia.
  - intros [= <-]. split; [by apply minv_demonitor|]. unfold demonitor. case_decide; simpl; lia.
  - intros Hs. destruct (minv_watch_step k s s' Hinv Hs) as [? ->]. split_and!; [done|lia|].
    unfold watch_step in Hs. apply bind_Some in Hs as (wt & _ & Hs). destruct (wt_pc wt); try done.
    + apply bind_Some in Hs as (r & _ & [= <-]). simpl. lia.
    + injection Hs as <-. simpl. lia.
    + apply bind_Some in Hs as ([res w] & _ & [= <-]). simpl. lia.
  - intros (w & Hw & [= <-])%bind_Some.
    destruct (step_ok l _ w Hn1 (mi_world _ Hinv) Hw). split_and!; [|done|simpl; lia].
    apply minv_world; [done..|]. intros j r. apply (step_reason l); [apply Hinv|done].
Qed.

Lemma mrun_inv ls s s' :
  (next_id (ms_world s) + N.of_nat (length ls) < 2 ^ 64 - 1)%N →
  (ms_next s + N.of_nat (length ls) < 2 ^ 64 - 1)%N → minv s →
  mrun limits mk_down ls s = Some s' → minv s'.
Proof.
  revert s. induction ls as [|l ls IH]; intros s Hn1 Hn2 Hinv Hrun; [by injection Hrun as <-|].
  cbn [length] in *. simpl in Hrun. destruct (mstep limits mk_down l s) as [s1|] eqn:Hs; [|done].
  destruct (mstep_inv l s s1 ltac:(lia) ltac:(lia) Hinv Hs) as (? & ? & ?).
  apply (IH s1); [lia|lia|done|done].
Qed.

Lemma ms_new_inv : minv (ms_new (M := M)).
Proof.
  split; simpl; try done.
  - apply empty_world_ok.
  - intros k. by rewrite !lookup_empty.
  - intros k. rewrite lookup_empty. by intros [].
  - intros k x Hin. by apply not_elem_of_nil in Hin.
  - constructor.
Qed.

Lemma mreachable_inv s : mreachable limits mk_down s → minv s.
Proof.
  intros (ls & Hlen & Hrun). apply (mrun_inv ls ms_new); [..|apply ms_new_inv|done];
    simpl; unfold Ids.NEXT_ACTOR_ID_INIT; lia.
Qed.

Lemma mrun_app ls1 ls2 s :
  mrun limits mk_down (ls1 ++ ls2) s = mrun limits mk_down ls1 s ≫= mrun limits mk_down ls2.
Proof.
  revert s. induction ls1 as [|l ls1 IH]; intros s; [done|]. simpl.
  destruct (mstep limits mk_down l s) as [s1|]; [apply IH|done].
Qed.
End invariant.

(** ** What a monitor promises *)

(** C14: At most one [Down] per monitor, and only the right one. In every
    reachable state no monitor has sent [Down] twice, and a [Down] that was
    sent carries the exit reason of the monitored actor, which has
    completed, and belongs to a monitor that was not cancelled. When a
    watcher has returned, its target has completed, its table entry is gone,
    and it has sent [Down] exactly if the monitor was not cancelled. *)
Theorem monitor_down_once {M} `{ThisNode} limits mk_down (s : MonSys M) k wt b :
  mreachable limits mk_down s → ms_watchers s !! k = Some wt → ms_active s !! k = Some b →
  NoDup (ms_downs s).*1 ∧
  (∀ r res, (k, (r, res)) ∈ ms_downs s →
     exit_reason (wt_target wt) (actors (ms_world s)) = Some r ∧ b = true) ∧
  (wt_pc wt = WDone → ((wt_owner wt, k) ∉ ms_table s) ∧
     ∃ r, exit_reason (wt_target wt) (actors (ms_world s)) = Some r ∧
       (b = true ↔ ∃ res, (k, (r, res)) ∈ ms_downs s)).
Proof.
  intros Hr%mreachable_inv Hwt Hb. pose proof (mi_ok _ Hr k wt b Hwt Hb) as Hok.
  pose proof (mi_once _ Hr) as Hnd. split_and!; [done|..].
  - intros r res Hin. assert (down_sent k s) as Hds by (by eexists).
    unfold watcher_ok in Hok. destruct (wt_pc wt); try (by destruct_and!).
    destruct Hok as (_ & r' & Hr' & Hx). destruct b; [|done]. destruct Hx as [res' Hin'].
    assert ((r, res) = (r', res')) as [= -> ->]; [|done].
    apply list_elem_of_lookup in Hin as [i Hi], Hin' as [j Hj].
    assert (i = j) as <-.
    { eapply (NoDup_lookup _ _ _ k Hnd); rewrite list_lookup_fmap; by rewrite ?Hi, ?Hj. }
    by simplify_eq.
  - intros Hpc. unfold watcher_ok in Hok. rewrite Hpc in Hok. destruct Hok as (Hnt & r & Hr' & Hx).
    split; [done|]. exists r. split; [done|]. destruct b; [done|]. split; [done|].
    intros [res Hin]. destruct Hx. by eexists.
Qed.

(** The [Down] arrives. Once the target of a monitor that is still set
    has completed, three steps of the watcher, with nobody else interfering,
    append [Down] with the target's exit reason to the owner's mailbox,
    provided the owner still receives and its mailbox has room. *)
Theorem monitor_down_delivered {M} `{ThisNode} limits mk_down (s : MonSys M) k o t r c :
  mreachable limits mk_down s → ms_watchers s !! k = Some (mkWatcher o t WWait) →
  (o, k) ∈ ms_table s → exit_reason t (actors (ms_world s)) = Some r →
  actors (ms_world s) !! o = Some c → c_rx_open c = true →
  (∀ cap, capacity (limits o) = Some cap → (N.of_nat (length (queue (user (c_mailbox c)))) < cap)%N) →
  ∃ s' c', mrun limits mk_down [MWatch k; MWatch k; MWatch k] s = Some s' ∧
    actors (ms_world s') !! o = Some c' ∧
    queue (user (c_mailbox c')) = queue (user (c_mailbox c)) ++ [mk_down k r] ∧
    ms_downs s' = (k, (r, Ok ())) :: ms_downs s ∧ (o, k) ∉ ms_table s'.
Proof.
  intros Hr%mreachable_inv Hwt Hin Hx Ho Hop Hcap.
  assert (ms_active s !! k = Some true) as Hb.
  { assert (is_Some (ms_active s !! k)) as [b Hb] by (apply (mi_keys _ Hr); eauto).
    destruct (mi_ok _ Hr k _ b Hwt Hb) as [Hiff _]. simpl in Hiff. rewrite Hb. f_equal. by apply Hiff. }
  set (s1 := set_watch k (WRemoved r) (mkMonSys (ms_world s) (ms_next s) (ms_table s ∖ {[(o, k)]})
    (ms_active s) (ms_watchers s) (ms_downs s))).
  assert (watch_step limits mk_down k s = Some s1) as H1.
  { unfold watch_step. rewrite Hwt. simpl. rewrite Hx. done. }
  assert (watch_step limits mk_down k s1 = Some (set_watch k (WSend r) s1)) as H2.
  { unfold watch_step. simpl. rewrite lookup_alter_eq, Hwt. simpl. by rewrite decide_True. }
  set (w' := set_actors (<[o := send_user (mk_down k r) c]> (actors (ms_world s))) (ms_world s)).
  assert (watch_step limits mk_down k (set_watch k (WSend r) s1) = Some (set_watch k WDone
    (mkMonSys w' (ms_next s) (ms_table s1) (ms_active s) (ms_watchers (set_watch k (WSend r) s1))
      ((k, (r, Ok ())) :: ms_downs s)))) as H3.
  { unfold watch_step. simpl. rewrite !lookup_alter_eq, Hwt. simpl.
    by rewrite (user_send_room limits o _ (ms_world s) c Ho Hop Hcap). }
  eexists _, (send_user (mk_down k r) c). split.
  { cbn [mrun mstep]. rewrite H1. cbn [mbind option_bind]. rewrite H2. cbn [mbind option_bind].
    rewrite H3. reflexivity. }
  simpl. rewrite lookup_insert_eq. unfold send_user. rewrite Hop. simpl. split_and!; [done..|set_solver].
Qed.

Section demonitor.
Context {M : Type} `{ThisNode} (limits : ActorId → Limits) (mk_down : N → ExitReason → M).
Implicit Types s : MonSys M.

(** A cancelled monitor stays cancelled. *)
Lemma mstep_cancelled l s s' k :
  minv s → ms_active s !! k = Some false → mstep limits mk_down l s = Some s' →
  ms_active s' !! k = Some false.
Proof.
  intros Hinv Hb. destruct l as [o t|o k'|k'|l]; simpl.
  - destruct (actors (ms_world s) !! o), (actors (ms_world s) !! t); try done. intros [= <-]. simpl.
    rewrite lookup_insert_ne; [done|]. intros <-.
    assert (ms_next s < ms_next s)%N; [|lia]. apply (mi_fresh _ Hinv). apply (mi_keys _ Hinv). eauto.
  - intros [= <-]. unfold demonitor. case_decide; [|done]. simpl.
    rewrite lookup_insert. by case_decide.
  - unfold watch_step. intros (wt & _ & Hs)%bind_Some. destruct (wt_pc wt); try done.
    + by apply bind_Some in Hs as (r & _ & [= <-]).
    + by injection Hs as <-.
    + by apply bind_Some in Hs as ([res w] & _ & [= <-]).
  - by intros (w & _ & [= <-])%bind_Some.
Qed.

Lemma mrun_cancelled ls s s' k :
  (next_id (ms_world s) + N.of_nat (length ls) < 2 ^ 64 - 1)%N →
  (ms_next s + N.of_nat (length ls) < 2 ^ 64 - 1)%N → minv s → ms_active s !! k = Some false →
  mrun limits mk_down ls s = Some s' → minv s' ∧ ms_active s' !! k = Some false.
Proof.
  revert s. induction ls as [|l ls IH]; intros s Hn1 Hn2 Hinv Hb Hrun; [by injection Hrun as <-|].
  cbn [length] in *. simpl in Hrun. destruct (mstep limits mk_down l s) as [s1|] eqn:Hs; [|done].
  destruct (mstep_inv limits mk_down l s s1 ltac:(lia) ltac:(lia) Hinv Hs) as (? & ? & ?).
  apply (IH s1); try done; [lia..|]. by apply (mstep_cancelled l s).
Qed.

(** How far the counters get. *)
Lemma mrun_counters ls s s' :
  (next_id (ms_world s) + N.of_nat (length ls) < 2 ^ 64 - 1)%N →
  (ms_next s + N.of_nat (length ls) < 2 ^ 64 - 1)%N → minv s → mrun limits mk_down ls s = Some s' →
  (next_id (ms_world s') ≤ next_id (ms_world s) + N.of_nat (length ls))%N ∧
  (ms_next s' ≤ ms_next s + N.of_nat (length ls))%N.
Proof.
  revert s. induction ls as [|l ls IH]; intros s Hn1 Hn2 Hinv Hrun; [injection Hrun as <-; simpl; lia|].
  cbn [length] in *. simpl in Hrun. destruct (mstep limits mk_down l s) as [s1|] eqn:Hs; [|done].
  destruct (mstep_inv limits mk_down l s s1 ltac:(lia) ltac:(lia) Hinv Hs) as (? & ? & ?).
  destruct (IH s1 ltac:(lia) ltac:(lia)) as [? ?]; [done|done|lia].
Qed.
End demonitor.

(** [demonitor] in time is final. In a reachable state in which the
    target of [k] has not completed, let the owner cancel the monitor; then
    whatever happens afterwards, no [Down] is ever sent for it. *)
Theorem demonitor_silences {M} `{ThisNode} limits mk_down pre ls (s s' : MonSys M) k o t pc :
  mrun limits mk_down pre ms_new = Some s →
  (N.of_nat (length pre + length ls) < 2 ^ 64 - 3)%N →
  ms_watchers s !! k = Some (mkWatcher o t pc) → exit_reason t (actors (ms_world s)) = None →
  mrun limits mk_down ls (demonitor o k s) = Some s' →
  ∀ x, (k, x) ∉ ms_downs s'.
Proof.
  intros Hpre Hlen Hwt Hx Hrun x Hin.
  assert (minv s ∧ (next_id (ms_world s) ≤ 1 + N.of_nat (length pre))%N ∧
    (ms_next s ≤ 1 + N.of_nat (length pre))%N) as (Hinv & Hn1 & Hn2).
  { destruct (mrun_counters limits mk_down pre ms_new s) as [? ?];
      [simpl; unfold Ids.NEXT_ACTOR_ID_INIT; lia|simpl; lia|apply ms_new_inv|done|].
    split_and!; [|done..]. apply (mreachable_inv limits mk_down). exists pre. split; [lia|done]. }
  assert (is_Some (ms_active s !! k)) as [b Hb] by (apply (mi_keys _ Hinv); eauto).
  pose proof (mi_ok _ Hinv k _ b Hwt Hb) as Hok. unfold watcher_ok in Hok. simpl in Hok.
  assert (pc = WWait ∧ ms_active (demonitor o k s) !! k = Some false) as [-> Hb'].
  { destruct pc as [|r|r|]; [|destruct Hok; congruence..|destruct Hok as (_ & r & ? & _); congruence].
    split; [done|]. unfold demonitor. case_decide as Hd; simpl; [apply lookup_insert_eq|].
    rewrite Hb. f_equal. destruct b; [|done]. destruct Hd. by apply Hok. }
  assert (next_id (ms_world (demonitor o k s)) = next_id (ms_world s) ∧
    ms_next (demonitor o k s) = ms_next s) as [He1 He2] by (unfold demonitor; by case_decide).
  destruct (mrun_cancelled limits mk_down ls (demonitor o k s) s' k) as [Hinv' Hbf];
    [lia|lia|by apply minv_demonitor|done|done|].
  assert (is_Some (ms_watchers s' !! k)) as [wt Hwt'] by (by apply (mi_downs _ Hinv' k x)).
  pose proof (mi_ok _ Hinv' k wt false Hwt' Hbf) as Hok'. assert (down_sent k s') by (by exists x).
  unfold watcher_ok in Hok'. destruct (wt_pc wt).
  - by destruct Hok'.
  - by destruct Hok' as (_ & _ & ?).
  - by destruct Hok' as (_ & _ & ? & _).
  - by destruct Hok' as (_ & r & _ & ?).
Qed.

(** ** A [Down] that is lost *)

(** The owner, actor 1, has a bounded mailbox with one slot, and an ordinary
    message in it. Actor 2 panics. *)
Definition one_slot : ActorId → Limits := λ _, mkLimits (Some 1%N) FailFast Tasks.
Definition down_or_msg : N → ExitReason → option (N * ExitReason) := λ k r, Some (k, r).
Definition down_lost_run : list (MLabel (option (N * ExitReason))) :=
  let a := from_raw 1 in let b := from_raw 2 in
  [MWorld (LSpawn Tasks); MWorld (LSpawn Tasks); MWorld (LStep a CbReturned); MMonitor a b;
   MWorld (LSend a None);
   MWorld (LStep b (CbPanicked "boom")); MWorld (LStep b CbReturned); MWorld (LStep b CbReturned);
   MWorld (LStep b CbReturned); MWatch 1; MWatch 1; MWatch 1].

(** A [Down] can be lost: there is a reachable state in which actor 1
    monitors actor 2 and never cancelled the monitor, actor 2 has panicked,
    the watcher has returned and the table entry is gone, and the living
    actor 1 has no [Down] in its mailbox, because its bounded mailbox was
    full at that moment and the watcher ignores the error of its send. *)
Theorem down_lost_when_full `{ThisNode} :
  ∃ s c, mrun one_slot down_or_msg down_lost_run ms_new = Some s ∧
    exit_reason (from_raw 2) (actors (ms_world s)) = Some (Panic "panic in started(): boom") ∧
    ms_watchers s !! 1%N = Some (mkWatcher (from_raw 1) (from_raw 2) WDone) ∧
    ms_active s !! 1%N = Some true ∧ ms_table s = ∅ ∧
    ms_downs s = [(1%N, (Panic "panic in started(): boom", Err MailboxFull))] ∧
    actors (ms_world s) !! from_raw 1 = Some c ∧ c_phase c = Receiving ∧
    queue (user (c_mailbox c)) = [None].
Proof.
  eexists _, _. split; [vm_compute; reflexivity|]. split_and!; vm_compute; reflexivity.
Qed.

(** ** Witnesses *)

Definition roomy : ActorId → Limits := λ _, mkLimits None FailFast Tasks.
Definition watched : list (MLabel (option (N * ExitReason))) := take 9 down_lost_run.

Lemma monitor_down_once_witness :
  let _ : ThisNode := node_new "n@h" in
  let s := default ms_new (mrun one_slot down_or_msg down_lost_run ms_new) in
  NoDup (ms_downs s).*1 ∧
  (∀ r res, (1%N, (r, res)) ∈ ms_downs s →
     exit_reason (from_raw 2) (actors (ms_world s)) = Some r ∧ true = true) ∧
  (WDone = WDone → ((from_raw 1, 1%N) ∉ ms_table s) ∧
     ∃ r, exit_reason (from_raw 2) (actors (ms_world s)) = Some r ∧
       (true = true ↔ ∃ res, (1%N, (r, res)) ∈ ms_downs s)).
Proof.
  intros T s. apply (monitor_down_once one_slot down_or_msg s 1 (mkWatcher (from_raw 1) (from_raw 2) WDone)).
  - exists down_lost_run. split; [vm_compute; reflexivity|]. vm_compute. reflexivity.
  - vm_compute. reflexivity.
  - vm_compute. reflexivity.
Defined.

Lemma monitor_down_delivered_witness :
  let _ : ThisNode := node_new "n@h" in
  let s := default ms_new (mrun roomy down_or_msg watched ms_new) in
  let c := default (new_cell Tasks) (actors (ms_world s) !! from_raw 1) in
  ∃ s' c', mrun roomy down_or_msg [MWatch 1; MWatch 1; MWatch 1] s = Some s' ∧
    actors (ms_world s') !! from_raw 1 = Some c' ∧
    queue (user (c_mailbox c')) =
      queue (user (c_mailbox c)) ++ [down_or_msg 1 (Panic "panic in started(): boom")] ∧
    ms_downs s' = (1%N, (Panic "panic in started(): boom", Ok ())) :: ms_downs s ∧
    (from_raw 1, 1%N) ∉ ms_table s'.
Proof.
  intros T s c. apply (monitor_down_delivered roomy down_or_msg s 1 (from_raw 1) (from_raw 2)).
  - exists watched. split; vm_compute; reflexivity.
  - vm_compute. reflexivity.
  - apply (bool_decide_unpack _). vm_compute. reflexivity.
  - vm_compute. reflexivity.
  - vm_compute. reflexivity.
  - vm_compute. reflexivity.
  - done.
Defined.

(** Monitored while alive, cancelled, then killed. *)
Lemma demonitor_silences_witness :
  let _ : ThisNode := node_new "n@h" in
  let s := default ms_new (mrun roomy down_or_msg (take 4 down_lost_run) ms_new) in
  mrun roomy down_or_msg (take 6 (drop 5 down_lost_run)) (demonitor (from_raw 1) 1 s) ≠ None ∧
  ∀ s', mrun roomy down_or_msg (take 6 (drop 5 down_lost_run)) (demonitor (from_raw 1) 1 s) = Some s' →
    ∀ x, (1%N, x) ∉ ms_downs s'.
Proof.
  intros T s. split; [vm_compute; discriminate|]. intros s' Hrun.
  apply (demonitor_silences roomy down_or_msg (take 4 down_lost_run) (take 6 (drop 5 down_lost_run))
    s s' 1 (from_raw 1) (from_raw 2) WWait).
  - vm_compute. reflexivity.
  - vm_compute. reflexivity.
  - vm_compute. reflexivity.
  - vm_compute. reflexivity.
  - exact Hrun.
Defined.
