(* ===== verification/Timers.v ===== *)
(** * Timers, streams and futures that send messages

    Model of [send_after] and [send_interval] in
    [concurrency/src/tasks/time.rs] and [threads/time.rs], of
    [spawn_listener] in the two [stream.rs], and of [send_message_on] in
    [concurrency/src/tasks/actor.rs], on the actors of [Actor]. Each of them
    is a task or a thread that sends to one actor and gives up when the
    actor's token is cancelled. The clock is part of the state. *)

From S2P Require Import Prelude Address Errors Mailbox Backpressure ChildSpec ProcessGroups Registry Links Actor Requests.
Import Receiver.

(** ** Definitions *)

Section timers.
Context {M : Type} `{ThisNode}.
Context (limits : ActorId → Limits).

(** Where the thread of a timer is: it waits in [recv_timeout] (or, in the
    tasks runtime, in [select]); it has timed out and is about to look at the
    tokens; it is about to send; it has returned. *)
Inductive TimerPc := TWait | TTimedOut | TSend | TDone.

(** [tm_armed] is when the current wait began, [tm_cancelled] the timer's own
    token, [tm_wake] whether a callback of one of the tokens has written to
    the channel of the thread; [tm_fired] lists when it decided to send. *)
Record Timer := mkTimer {
  tm_rt : MailboxRuntime;
  tm_actor : ActorId;
  tm_msg : M;
  tm_period : Duration;
  tm_repeat : bool;
  tm_armed : Instant;
  tm_cancelled : bool;
  tm_wake : bool;
  tm_pc : TimerPc;
  tm_fired : list Instant
}.

Definition set_pc pc (t : Timer) : Timer :=
  mkTimer (tm_rt t) (tm_actor t) (tm_msg t) (tm_period t) (tm_repeat t) (tm_armed t) (tm_cancelled t)
    (tm_wake t) pc (tm_fired t).
Definition cancel_timer (t : Timer) : Timer :=
  mkTimer (tm_rt t) (tm_actor t) (tm_msg t) (tm_period t) (tm_repeat t) (tm_armed t) true
    (tm_wake t) (tm_pc t) (tm_fired t).
Definition wake_timer (t : Timer) : Timer :=
  mkTimer (tm_rt t) (tm_actor t) (tm_msg t) (tm_period t) (tm_repeat t) (tm_armed t) (tm_cancelled t)
    true (tm_pc t) (tm_fired t).

(** [send_after] and [send_interval] of the two runtimes. *)
Definition new_timer rt repeat i m period now : Timer :=
  mkTimer rt i m period repeat now false false TWait [].
Definition tasks_send_after i m period now : Timer := new_timer Tasks false i m period now.
Definition tasks_send_interval i m period now : Timer := new_timer Tasks true i m period now.
Definition threads_send_after i m period now : Timer := new_timer Threads false i m period now.
Definition threads_send_interval i m period now : Timer := new_timer Threads true i m period now.

(** [actor_cancellation_token.is_cancelled()] *)
Definition actor_cancelled (i : ActorId) (w : World M) : bool :=
  match actors w !! i with Some c => c_cancelled c | None => false end.
Definition timer_off (t : Timer) (w : World M) : bool := tm_cancelled t || actor_cancelled (tm_actor t) w.

(** The message was sent, whatever the result: the next round, or the end. *)
Definition after_send (now : Instant) (t : Timer) : Timer :=
  mkTimer (tm_rt t) (tm_actor t) (tm_msg t) (tm_period t) (tm_repeat t) now (tm_cancelled t) (tm_wake t)
    (if tm_repeat t then TWait else TDone) (tm_fired t).
Definition decide_send (now : Instant) (t : Timer) : Timer :=
  mkTimer (tm_rt t) (tm_actor t) (tm_msg t) (tm_period t) (tm_repeat t) (tm_armed t) (tm_cancelled t)
    (tm_wake t) TSend (tm_fired t ++ [now]).

(** One step of a timer; [None] while it has to wait. The tasks runtime polls
    the cancellations before the sleep; the thread is woken through its
    channel, and looks at the tokens after a timeout. *)
Definition timer_step (now : Instant) (t : Timer) (w : World M) : option (Timer * World M) :=
  let expired := bool_decide (tm_armed t + tm_period t ≤ now)%Z in
  match tm_pc t, tm_rt t with
  | TWait, Tasks =>
      if timer_off t w then Some (set_pc TDone t, w)
      else if expired then Some (decide_send now t, w) else None
  | TWait, Threads =>
      if tm_wake t then Some (set_pc TDone t, w)
      else if expired then Some (set_pc TTimedOut t, w) else None
  | TTimedOut, _ => Some (if timer_off t w then set_pc TDone t else decide_send now t, w)
  | TSend, _ => '(_, w) ← user_send limits (tm_actor t) (tm_msg t) w; Some (after_send now t, w)
  | TDone, _ => None
  end.

(** All timers of a process, its actors, and the clock. *)
Record TimerSys := mkTimerSys { tsy_world : World M; tsy_now : Instant; tsy_timers : list Timer }.

Inductive TLabel :=
| TStart (t : MailboxRuntime * bool * ActorId * M * Duration)
| TTimer (k : nat)
| TCancel (k : nat)
| TWake (k : nat)
| TTick (d : Duration)
| TWorld (l : Label M).

Definition tstep (l : TLabel) (s : TimerSys) : option TimerSys :=
  match l with
  | TStart (rt, repeat, i, m, period) =>
      if decide (0 ≤ period)%Z
      then Some (mkTimerSys (tsy_world s) (tsy_now s) (tsy_timers s ++ [new_timer rt repeat i m period (tsy_now s)]))
      else None
  | TTimer k =>
      t ← tsy_timers s !! k;
      '(t, w) ← timer_step (tsy_now s) t (tsy_world s);
      Some (mkTimerSys w (tsy_now s) (<[k := t]> (tsy_timers s)))
  | TCancel k => Some (mkTimerSys (tsy_world s) (tsy_now s) (alter cancel_timer k (tsy_timers s)))
  | TWake k =>
      t ← tsy_timers s !! k;
      if timer_off t (tsy_world s)
      then Some (mkTimerSys (tsy_world s) (tsy_now s) (<[k := wake_timer t]> (tsy_timers s))) else None
  | TTick d => if decide (0 ≤ d)%Z then Some (mkTimerSys (tsy_world s) (tsy_now s + d)%Z (tsy_timers s)) else None
  | TWorld l => w ← step l (tsy_world s); Some (mkTimerSys w (tsy_now s) (tsy_timers s))
  end.
Fixpoint trun (ls : list TLabel) (s : TimerSys) : option TimerSys :=
  match ls with [] => Some s | l :: ls => s' ← tstep l s; trun ls s' end.

(** ** Streams and futures *)

(** [spawn_listener]: what is still to come, and what was sent. *)
Record Listener := mkListener {
  ls_rt : MailboxRuntime;
  ls_actor : ActorId;
  ls_items : list M;
  ls_sent : list M;
  ls_done : bool
}.
Definition spawn_listener rt i items : Listener := mkListener rt i items [] false.
Definition ls_end (l : Listener) : Listener := mkListener (ls_rt l) (ls_actor l) (ls_items l) (ls_sent l) true.

(** One round of the loop on the next item. The tasks runtime polls the
    cancellation before the stream; the thread looks at it after the send. *)
Definition listener_step (l : Listener) (w : World M) : option (Listener * World M) :=
  if ls_done l then None
  else if bool_decide (ls_rt l = Tasks) && actor_cancelled (ls_actor l) w then Some (ls_end l, w)
  else match ls_items l with
       | [] => Some (ls_end l, w)
       | m :: items =>
           '(r, w) ← user_send limits (ls_actor l) m w;
           match r with
           | Err _ => Some (mkListener (ls_rt l) (ls_actor l) items (ls_sent l) true, w)
           | Ok _ =>
               Some (mkListener (ls_rt l) (ls_actor l) items (ls_sent l ++ [m])
                       (bool_decide (ls_rt l = Threads) && actor_cancelled (ls_actor l) w), w)
           end
       end.

(** The listener and the actors, which run in between. *)
Fixpoint listen (ls : list (option (Label M))) (l : Listener) (w : World M) : option (Listener * World M) :=
  match ls with
  | [] => Some (l, w)
  | None :: ls => '(l, w) ← listener_step l w; listen ls l w
  | Some x :: ls => w ← step x w; listen ls l w
  end.

(** [send_message_on]: [ready] is whether the future has completed. *)
Definition send_message_on (ready : bool) (i : ActorId) (m : M) (w : World M) : option (bool * World M) :=
  if actor_cancelled i w then Some (false, w)
  else if ready then '(r, w) ← user_send limits i m w; Some (is_ok r, w) else None.
End timers.
Arguments Timer M : clear implicits.
Arguments TimerSys M : clear implicits.
Arguments TLabel M : clear implicits.
Arguments Listener M : clear implicits.

(** ** A cancelled token stays cancelled *)

Section cancelled.
Context {M : Type} `{ThisNode}.
Implicit Types (c : Cell M) (a : gmap ActorId (Cell M)) (w : World M).

Definition off i a : Prop := ∃ c, a !! i = Some c ∧ c_cancelled c = true.
Definition stays_off (f : Cell M → Cell M) : Prop := ∀ c, c_cancelled c = true → c_cancelled (f c) = true.

Lemma actor_cancelled_off i w : actor_cancelled i w = true ↔ off i (actors w).
Proof. unfold actor_cancelled, off. destruct (actors w !! i); naive_solver. Qed.

Lemma off_alter f i j a : stays_off f → off j a → off j (alter f i a).
Proof.
  intros Hf (c & Hc & Ho). unfold off. rewrite lookup_alter. case_decide; [subst|by eauto].
  rewrite Hc. simpl. eauto.
Qed.
Lemma off_insert i j c c' a :
  a !! i = Some c → (c_cancelled c = true → c_cancelled c' = true) → off j a → off j (<[i := c']> a).
Proof.
  intros Hi Hf (d & Hd & Ho). unfold off. rewrite lookup_insert. case_decide; [subst|by eauto].
  simplify_eq. eauto.
Qed.

Lemma off_post_stop : stays_off post_stop.
Proof. intros c. unfold post_stop, send_stop. destruct (c_stop_posted c); [done|]. by destruct (c_rx_open c). Qed.
Lemma off_cancel c : c_cancelled (cancel c) = true.
Proof. unfold cancel. destruct (c_rt c); [done|]. by apply off_post_stop. Qed.
Lemma off_record r : stays_off (record_and_cancel r).
Proof. intros c _. apply off_cancel. Qed.
Lemma off_exit_signal i r : stays_off (exit_signal i r).
Proof.
  intros c Hc. unfold exit_signal, send_supervision.
  destruct r; [| | |by apply off_record];
    destruct (c_trap_exit c); simpl; try done; try (by apply off_record); destruct (c_rx_open c); done.
Qed.
Lemma off_add_link p : stays_off (add_link p).
Proof. intros c. unfold add_link. by case_bool_decide. Qed.

Lemma off_remove_link p : stays_off (remove_link p).
Proof. by intros c. Qed.

Lemma off_link_check x y j (b : gmap ActorId (Cell M)) : off j b → off j (link_check x y b).
Proof.
  intros Hb. unfold link_check. destruct (exit_reason y b) as [r|]; [|done]. unfold take_self_from_peer_table.
  destruct (b !! y); [|done]. unfold make_signal.
  destruct (bool_decide _); repeat (apply off_alter; [apply off_exit_signal || apply off_remove_link|]); done.
Qed.

Lemma off_propagate own r j a : off j a → off j (propagate_exit own r a).
Proof.
  intros Hj. unfold propagate_exit. destruct (a !! own) as [c|]; [|done].
  assert (off j (alter (set_links []) own a)) as Hb by (apply off_alter; [by intros d|done]).
  revert Hb. generalize (alter (set_links []) own a). induction (c_links c) as [|p ps IH]; intros b Hb; [done|].
  simpl. apply IH. unfold make_signal. do 2 (apply off_alter; [apply off_exit_signal || apply off_remove_link|]). done.
Qed.

Lemma off_resolve r c : c_cancelled (resolve r c) = c_cancelled c.
Proof. unfold resolve. by destruct (resolve_exit_reason _ _ _) as [? [? ?]]. Qed.
Lemma off_finish r c : c_cancelled (finish r c) = true.
Proof. unfold finish. destruct (c_skip_stopped _); [rewrite off_resolve|]; apply off_cancel. Qed.

Lemma off_run_actor o c c' : run_actor_step o c = Some c' → c_cancelled c = true → c_cancelled c' = true.
Proof.
  intros Hs Hc. unfold run_actor_step in Hs.
  destruct (c_phase c); try done.
  - destruct o; [rewrite Hc in Hs; destruct (c_skip_stopped c)|]; injection Hs as <-; rewrite ?off_resolve; try done.
    apply off_cancel.
  - destruct (recv _ _) as [[[]|]| | |]; try done; injection Hs as <-; try done; apply off_finish.
  - destruct o; [rewrite Hc in Hs|]; injection Hs as <-; apply off_finish.
  - injection Hs as <-. by rewrite off_resolve.
  - destruct o; injection Hs as <-; by rewrite off_resolve.
Qed.

Lemma step_off l w w' j : world_ok w → step l w = Some w' → off j (actors w) → off j (actors w').
Proof.
  intros Hok Hs Hj.
  assert (∀ i f w', stays_off f → on_cell i f w = Some w' → off j (actors w')) as Hcell.
  { intros i f w1 Hf. unfold on_cell. destruct (actors w !! i) as [c|] eqn:Hi; [|done].
    intros [= <-]. apply (off_insert i j c); [done|apply Hf|done]. }
  destruct l as [i o|i|i|i|i|i b|x y|x y|x y|i m|i s|rt]; simpl in Hs.
  - unfold actor_step in Hs. destruct (actors w !! i) as [c|] eqn:Hi; [|done]. cbn [mbind option_bind] in Hs.
    destruct (c_phase c) as [| |b| |r'|r'|r'|r'|]; try done;
      try (destruct (run_actor_step o c) as [c'|] eqn:Hst; [|done]; injection Hs as <-;
           apply (off_insert i j c); [done|by apply (off_run_actor o)|done]);
      injection Hs as <-; simpl; (apply off_alter; [by intros d|]); [by apply off_propagate|done|done].
  - destruct (actors w !! i) as [c|]; [|done]. simpl in Hs. destruct (c_cancelled c); [|done].
    apply (Hcell i post_stop); [apply off_post_stop|done].
  - apply (Hcell i handle_stop); [|done]. intros c _. apply off_cancel.
  - apply (Hcell i handle_shutdown); [|done]. intros c _. apply off_cancel.
  - apply (Hcell i handle_kill); [|done]. intros c _. apply off_cancel.
  - apply (Hcell i (set_trap_exit b)); [by intros c|done].
  - destruct (actors w !! y); [|done]. apply (Hcell x (add_link y)); [apply off_add_link|done].
  - destruct (actors w !! x), (actors w !! y); try done. injection Hs as <-. by apply off_link_check.
  - apply (Hcell x (remove_link y)); [apply off_remove_link|done].
  - apply (Hcell i (send_user m)); [|done]. intros c. unfold send_user. by destruct (c_rx_open c).
  - apply (Hcell i (send_signal s)); [|done]. intros c. unfold send_signal. by destruct (c_rx_open c).
  - injection Hs as <-. simpl. destruct Hj as (c & Hc & Ho). exists c. split; [|done].
    rewrite lookup_insert_ne; [done|]. intros Heq. rewrite <- Heq in Hc. by rewrite (spawn_fresh w Hok) in Hc.
Qed.
End cancelled.

(** ** Timers keep their pace, and stop *)

Section pace.
Context {M : Type} `{ThisNode} (limits : ActorId → Limits).
Implicit Types (t : Timer M) (s : TimerSys M).

(** A timer that was started at [start]: it has not sent more often than its
    period allows, and a single timer not more than once. *)
Record timer_ok (start now : Instant) t : Prop := {
  tk_period : (0 ≤ tm_period t)%Z;
  tk_pace : (start + Z.of_nat (length (tm_fired t)) * tm_period t ≤
             match tm_pc t with TWait | TTimedOut => tm_armed t | _ => now end)%Z;
  tk_armed : (tm_armed t ≤ now)%Z;
  tk_due : tm_pc t = TTimedOut → (tm_armed t + tm_period t ≤ now)%Z;
  tk_once : tm_repeat t = false →
    length (tm_fired t) ≤ match tm_pc t with TWait | TTimedOut => 0 | _ => 1 end
}.

Lemma timer_ok_now start now now' t : (now ≤ now')%Z → timer_ok start now t → timer_ok start now' t.
Proof. intros Hle [Hp Hpace Ha Hd Ho]. split; try done; [|lia|naive_solver lia]. destruct (tm_pc t); lia. Qed.

Lemma timer_step_ok start now t w t' w' :
  timer_ok start now t → timer_step limits now t w = Some (t', w') → timer_ok start now t'.
Proof.
  intros [Hp Hpace Ha Hd Ho] Hs. unfold timer_step in Hs.
  assert ((tm_armed t + tm_period t ≤ now)%Z → (tm_pc t = TWait ∨ tm_pc t = TTimedOut) →
    timer_ok start now (decide_send now t)) as Hdec.
  { intros Hdue Hpc. split; simpl; try done.
    - rewrite length_app. simpl. destruct Hpc as [Hpc|Hpc]; rewrite Hpc in Hpace; lia.
    - intros Hr. specialize (Ho Hr). rewrite length_app. simpl. destruct Hpc as [Hpc|Hpc]; rewrite Hpc in Ho; lia. }
  assert ((tm_pc t = TWait ∨ tm_pc t = TTimedOut) → timer_ok start now (set_pc TDone t)) as Hdone.
  { intros Hpc. split; simpl; try done.
    - destruct Hpc as [Hpc|Hpc]; rewrite Hpc in Hpace; lia.
    - intros Hr. specialize (Ho Hr). destruct Hpc as [Hpc|Hpc]; rewrite Hpc in Ho; lia. }
  destruct (tm_pc t) eqn:Hpc; [destruct (tm_rt t)| | |done].
  - destruct (timer_off t w); [injection Hs as <- <-; auto|]. case_bool_decide; [|done]. injection Hs as <- <-. auto.
  - destruct (tm_wake t); [injection Hs as <- <-; auto|]. case_bool_decide; [|done]. injection Hs as <- <-.
    by split.
  - destruct (timer_off t w); injection Hs as <- <-; auto.
  - destruct (user_send _ _ _ w) as [[r w1]|]; [|done]. injection Hs as <- <-.
    split; simpl; try done; try lia; destruct (tm_repeat t); simpl; try done; lia.
Qed.

(** What a step does to timer [k]. *)
Lemma tstep_timer l s s' k t :
  tstep limits l s = Some s' → tsy_timers s !! k = Some t →
  (tsy_now s ≤ tsy_now s')%Z ∧
  ∃ t', tsy_timers s' !! k = Some t' ∧
    (t' = t ∨ t' = cancel_timer t ∨ t' = wake_timer t ∨
     (tsy_now s' = tsy_now s ∧ timer_step limits (tsy_now s) t (tsy_world s) = Some (t', tsy_world s'))).
Proof.
  intros Hs Hk. destruct l as [[[[[rt rp] i] m] p]|j|j|j|d|l]; simpl in Hs.
  - case_decide; [|done]. injection Hs as <-. split; [done|]. exists t. split; [|by left].
    simpl. by apply lookup_app_l_Some.
  - destruct (tsy_timers s !! j) as [u|] eqn:Hj; [|done]. cbn [mbind option_bind] in Hs.
    destruct (timer_step _ _ u _) as [[u' w']|] eqn:Hu; [|done]. injection Hs as <-. split; [done|]. simpl.
    destruct (decide (j = k)) as [->|Hne].
    + simplify_eq. exists u'. rewrite list_lookup_insert_eq by (by eapply lookup_lt_Some). naive_solver.
    + exists t. rewrite list_lookup_insert_ne by done. naive_solver.
  - injection Hs as <-. split; [done|]. simpl. destruct (decide (j = k)) as [->|Hne].
    + exists (cancel_timer t). rewrite list_lookup_alter_eq, Hk. naive_solver.
    + exists t. rewrite list_lookup_alter_ne by done. naive_solver.
  - destruct (tsy_timers s !! j) as [u|] eqn:Hj; [|done]. cbn [mbind option_bind] in Hs.
    destruct (timer_off u _); [|done]. injection Hs as <-. split; [done|]. simpl.
    destruct (decide (j = k)) as [->|Hne].
    + simplify_eq. eexists. rewrite list_lookup_insert_eq by (by eapply lookup_lt_Some). naive_solver.
    + exists t. rewrite list_lookup_insert_ne by done. naive_solver.
  - case_decide; [|done]. injection Hs as <-. simpl. split; [lia|]. naive_solver.
  - destruct (step l _); [|done]. injection Hs as <-. split; [done|]. naive_solver.
Qed.

Lemma timer_step_fields now t w t' w' :
  timer_step limits now t w = Some (t', w') →
  tm_period t' = tm_period t ∧ tm_repeat t' = tm_repeat t ∧ tm_actor t' = tm_actor t ∧ tm_cancelled t' = tm_cancelled t.
Proof.
  unfold timer_step. destruct (tm_pc t); [destruct (tm_rt t)| | |done]; intros Hs; repeat case_match; simplify_option_eq;
    try done; by destruct (user_send _ _ _ w) as [[]|]; simplify_eq/=.
Qed.

(** A step of the system keeps the actors in order and their tokens cancelled. *)
Lemma user_send_world i (m : M) w r w' :
  user_send limits i m w = Some (r, w') → world_ok w →
  world_ok w' ∧ next_id w' = next_id w ∧ ∀ j, off j (actors w) → off j (actors w').
Proof.
  intros Hs%user_send_spec Hok. destruct r; [|by destruct Hs as [-> _]]. destruct Hs as (c & Hi & Ho & ->).
  destruct (keeps_send_user m c). split_and!; [|done|].
  - apply (world_ok_insert i c); try done. apply cell_ok_send_user. by apply (wk_cells _ Hok i).
  - intros j. apply (off_insert i j c); [done|]. unfold send_user. by destruct (c_rx_open c).
Qed.

Lemma tstep_world l s s' :
  (next_id (tsy_world s) < 2 ^ 64 - 1)%N → world_ok (tsy_world s) → tstep limits l s = Some s' →
  world_ok (tsy_world s') ∧ (next_id (tsy_world s') ≤ next_id (tsy_world s) + 1)%N ∧
  ∀ j, off j (actors (tsy_world s)) → off j (actors (tsy_world s')).
Proof.
  intros Hn Hok Hs. destruct l as [[[[[rt rp] i] m] p]|j|j|j|d|l]; simpl in Hs.
  - case_decide; [|done]. injection Hs as <-. split_and!; [done|simpl; lia|done].
  - destruct (tsy_timers s !! j) as [u|]; [|done]. cbn [mbind option_bind] in Hs.
    destruct (timer_step _ _ u _) as [[u' w']|] eqn:Hu; [|done]. injection Hs as <-. simpl.
    unfold timer_step in Hu.
    assert (w' = tsy_world s ∨ ∃ r, user_send limits (tm_actor u) (tm_msg u) (tsy_world s) = Some (r, w')) as [->|[r Hr]].
    { destruct (tm_pc u); [destruct (tm_rt u)| | |done].
      - destruct (timer_off u _); [|case_bool_decide]; simplify_eq; auto.
      - destruct (tm_wake u); [|case_bool_decide]; simplify_eq; auto.
      - simplify_eq; auto.
      - destruct (user_send _ _ _ _) as [[r w1]|]; [|done]. simplify_eq/=. eauto. }
    + split_and!; [done|lia|done].
    + destruct (user_send_world _ _ _ _ _ Hr Hok) as (? & -> & ?). split_and!; [done|lia|done].
  - injection Hs as <-. split_and!; [done|simpl; lia|done].
  - destruct (tsy_timers s !! j) as [u|]; [|done]. cbn [mbind option_bind] in Hs.
    destruct (timer_off u _); [|done]. injection Hs as <-. split_and!; [done|simpl; lia|done].
  - case_decide; [|done]. injection Hs as <-. split_and!; [done|simpl; lia|done].
  - destruct (step l (tsy_world s)) as [w|] eqn:Hw; [|done]. injection Hs as <-. simpl.
    destruct (step_ok l _ _ Hn Hok Hw). split_and!; [done|done|]. intros j. by apply (step_off l).
Qed.

Lemma trun_timer ls s s' k t start :
  trun limits ls s = Some s' → tsy_timers s !! k = Some t → timer_ok start (tsy_now s) t →
  ∃ t', tsy_timers s' !! k = Some t' ∧ timer_ok start (tsy_now s') t' ∧ tm_period t' = tm_period t ∧
    tm_repeat t' = tm_repeat t.
Proof.
  revert s t. induction ls as [|l ls IH]; intros s t Hrun Hk Hok; [injection Hrun as <-; eauto|].
  simpl in Hrun. destruct (tstep limits l s) as [s1|] eqn:Hs; [|done]. cbn [mbind option_bind] in Hrun.
  destruct (tstep_timer l s s1 k t Hs Hk) as (Hnow & t1 & Hk1 & Hcase).
  assert (timer_ok start (tsy_now s1) t1 ∧ tm_period t1 = tm_period t ∧ tm_repeat t1 = tm_repeat t) as (H1 & H2 & H3).
  { pose proof (timer_ok_now _ _ _ _ Hnow Hok) as Hok1.
    destruct Hcase as [->|[->|[->|[Heq Hst]]]]; [by destruct Hok1|by destruct Hok1|by destruct Hok1|].
    rewrite Heq. destruct (timer_step_fields _ _ _ _ _ Hst) as (? & ? & _).
    split; [by apply (timer_step_ok _ _ t (tsy_world s) t1 (tsy_world s1))|done]. }
  destruct (IH s1 t1 Hrun Hk1 H1) as (t2 & ? & ? & ? & ?). exists t2. split_and!; [done|done|congruence|congruence].
Qed.

(** A timer started with period [p] has sent at most [n] messages by the
    time [n] periods have passed, and a timer of [send_after] at most one in
    all, whatever actors, timers and cancellations do meanwhile. *)
Theorem timer_pace rt repeat i m p s s1 ls s' :
  tstep limits (TStart (rt, repeat, i, m, p)) s = Some s1 → trun limits ls s1 = Some s' →
  ∃ t, tsy_timers s' !! length (tsy_timers s) = Some t ∧
    (Z.of_nat (length (tm_fired t)) * p ≤ tsy_now s' - tsy_now s)%Z ∧
    (repeat = false → length (tm_fired t) ≤ 1).
Proof.
  intros Hstart Hrun. simpl in Hstart. case_decide; [|done]. injection Hstart as <-.
  destruct (trun_timer ls _ s' (length (tsy_timers s)) (new_timer rt repeat i m p (tsy_now s)) (tsy_now s) Hrun)
    as (t & Hk & [Hp Hpace Ha _ Ho] & Hper & Hrep).
  - simpl. by rewrite lookup_app_r, Nat.sub_diag by done.
  - split; simpl; try done; lia.
  - simpl in Hper, Hrep. exists t. split; [done|]. rewrite Hper in Hpace. split.
    + destruct (tm_pc t); lia.
    + intros ->. specialize (Ho Hrep). destruct (tm_pc t); lia.
Qed.

(** Once a timer or the actor it sends to has been cancelled, the timer
    decides to send nothing more. *)
Theorem cancelled_timer_silent ls s s' k t :
  world_ok (tsy_world s) → (next_id (tsy_world s) + N.of_nat (length ls) < 2 ^ 64 - 1)%N →
  tsy_timers s !! k = Some t → timer_off t (tsy_world s) = true → trun limits ls s = Some s' →
  ∃ t', tsy_timers s' !! k = Some t' ∧ tm_fired t' = tm_fired t.
Proof.
  revert s t. induction ls as [|l ls IH]; intros s t Hok Hn Hk Hoff Hrun; [injection Hrun as <-; eauto|].
  cbn [length] in Hn. simpl in Hrun. destruct (tstep limits l s) as [s1|] eqn:Hs; [|done]. cbn [mbind option_bind] in Hrun.
  destruct (tstep_timer l s s1 k t Hs Hk) as (_ & t1 & Hk1 & Hcase).
  destruct (tstep_world l s s1 ltac:(lia) Hok Hs) as (Hok1 & Hn1 & Hoff1).
  assert (tm_fired t1 = tm_fired t ∧ timer_off t1 (tsy_world s1) = true) as [Hf Ho1].
  { unfold timer_off in *. rewrite orb_true_iff, actor_cancelled_off in *.
    destruct Hcase as [->|[->|[->|[_ Hst]]]]; simpl; [naive_solver..|].
    destruct (timer_step_fields _ _ _ _ _ Hst) as (_ & _ & Hact & Hcan). rewrite Hact, Hcan.
    split; [|naive_solver]. assert (timer_off t (tsy_world s) = true) as Hb
      by (unfold timer_off; by rewrite orb_true_iff, actor_cancelled_off).
    unfold timer_step in Hst. rewrite Hb in Hst.
    destruct (tm_pc t); [destruct (tm_rt t)| | |done]; repeat case_match; simplify_option_eq; try done;
      by destruct (user_send _ _ _ _) as [[]|]; simplify_eq/=. }
  destruct (IH s1 t1 Hok1 ltac:(lia) Hk1 Ho1 Hrun) as (t2 & ? & ?). exists t2. split; [done|congruence].
Qed.
End pace.

(** ** Streams are forwarded in order *)

Section streams.
Context {M : Type} `{ThisNode} (limits : ActorId → Limits).

(** Part of a stream was sent, at most one item was refused, the rest is to
    come; if the listener has ended with items to come, one was refused or
    the actor is stopping. *)
Definition forwarded (items : list M) (l : Listener M) (w : World M) : Prop :=
  ∃ lost, items = ls_sent l ++ lost ++ ls_items l ∧ length lost ≤ 1 ∧ (ls_done l = false → lost = []) ∧
    (ls_done l = true → lost = [] → ls_items l ≠ [] → off (ls_actor l) (actors w)).

Lemma listener_step_forwarded items l w l' w' :
  world_ok w → forwarded items l w → listener_step limits l w = Some (l', w') →
  forwarded items l' w' ∧ world_ok w' ∧ next_id w' = next_id w.
Proof.
  intros Hok (lost & Hi & Hl & Hr & _) Hs. unfold listener_step in Hs.
  destruct (ls_done l); [done|]. specialize (Hr eq_refl). subst lost. rewrite app_nil_l in Hi.
  destruct (_ && _) eqn:Hc.
  { injection Hs as <- <-. bool_simpl. split; [|done]. exists []. split_and!; [done|simpl; lia|done|].
    intros _ _ _. by apply actor_cancelled_off. }
  destruct (ls_items l) as [|m rest] eqn:Hit.
  { injection Hs as <- <-. split; [|done]. exists []. simpl. rewrite Hit. split_and!; [done|lia|done|done]. }
  destruct (user_send limits (ls_actor l) m w) as [[r w1]|] eqn:Hu; [|done]. cbn [mbind option_bind] in Hs.
  destruct (user_send_world limits _ _ _ _ _ Hu Hok) as (Hok1 & Hn1 & _). destruct r; injection Hs as <- <-.
  - split; [|done]. exists []. simpl. rewrite <- app_assoc. split_and!; [done|lia|done|].
    intros Hd _ _. bool_simpl. by apply actor_cancelled_off.
  - split; [|done]. exists [m]. simpl. split_and!; [done|lia|done|done].
Qed.

(** A listener forwards its stream in order, without gaps: what it has
    sent is a prefix of the stream; it ends before the end of the stream only
    when the actor has been cancelled or has refused an item. *)
Theorem listener_forwards rt i items ls w l w' :
  world_ok w → (next_id w + N.of_nat (length ls) < 2 ^ 64 - 1)%N →
  listen limits ls (spawn_listener rt i items) w = Some (l, w') → forwarded items l w'.
Proof.
  intros Hok Hn Hls.
  assert (forwarded items (spawn_listener rt i items) w) as Hf
    by (exists []; simpl; split_and!; [done|lia|done|done]).
  revert Hf Hls. generalize (spawn_listener rt i items).
  revert w Hok Hn. induction ls as [|[x|] ls IH]; intros w Hok Hn l0 Hf Hls; simpl in Hls; cbn [length] in Hn.
  - by injection Hls as <- <-.
  - destruct (step x w) as [w1|] eqn:Hx; [|done]. cbn [mbind option_bind] in Hls.
    destruct (step_ok x w w1 ltac:(lia) Hok Hx) as [Hok1 Hn1]. apply (IH w1 Hok1 ltac:(lia) l0); [|done].
    destruct Hf as (lost & ? & ? & ? & Hd). exists lost. split_and!; try done.
    intros ???. by apply (step_off x w), Hd.
  - destruct (listener_step limits l0 w) as [[l1 w1]|] eqn:Hs; [|done]. cbn [mbind option_bind] in Hls.
    destruct (listener_step_forwarded items l0 w l1 w1 Hok Hf Hs) as (Hf1 & Hok1 & Hn1).
    apply (IH w1 Hok1 ltac:(lia) l1); done.
Qed.
End streams.

(** ** Witnesses *)

Definition timer_world `{ThisNode} : World nat := default empty_world (run [LSpawn Tasks; LStep (from_raw 1) CbReturned] empty_world).
Lemma timer_world_ok `{ThisNode} : world_ok timer_world.
Proof.
  apply reachable_ok. exists [LSpawn Tasks; LStep (from_raw 1) CbReturned]. split; [done|].
  unfold timer_world. destruct (run _ _) eqn:Hr; [done|]. by vm_compute in Hr.
Qed.

(** Three ticks of an interval timer in 31 time units of period 10. *)
Definition ticks : list (TLabel nat) :=
  [TTick 10; TTimer 0; TTimer 0; TTick 10; TTimer 0; TTimer 0; TTick 11; TTimer 0; TTimer 0].
Lemma timer_pace_witness :
  let _ : ThisNode := node_new "n@h" in
  let s := mkTimerSys timer_world 0 [] in
  ∃ s1 s' t, tstep unlimited (TStart (Tasks, true, from_raw 1, 5, 10%Z)) s = Some s1 ∧
    trun unlimited ticks s1 = Some s' ∧ tsy_timers s' !! 0 = Some t ∧
    (Z.of_nat (length (tm_fired t)) * 10 ≤ tsy_now s' - 0)%Z.
Proof.
  intros T s. destruct (tstep unlimited (TStart (Tasks, true, from_raw 1, 5, 10%Z)) s) as [s1|] eqn:H1;
    [|apply (f_equal (fmap tsy_now)) in H1; vm_compute in H1; discriminate].
  destruct (trun unlimited ticks s1) as [s'|] eqn:H2.
  2: { assert (tsy_now <$> (tstep unlimited (TStart (Tasks, true, from_raw 1, 5, 10%Z)) s ≫= trun unlimited ticks) =
         Some 31%Z) as Hx by (vm_compute; reflexivity). rewrite H1 in Hx. cbn [mbind option_bind] in Hx.
       rewrite H2 in Hx. discriminate. }
  destruct (timer_pace unlimited Tasks true (from_raw 1) 5 10%Z s s1 ticks s' H1 H2) as (t & Hk & Hp & _).
  exists s1, s', t. split; [reflexivity|]. split; [exact H2|]. split; [exact Hk|exact Hp].
Defined.

Lemma cancelled_timer_silent_witness :
  let _ : ThisNode := node_new "n@h" in
  let t := cancel_timer (threads_send_interval (from_raw 1) 5 10%Z 0%Z) in
  ∃ s' t', trun unlimited [TTick 20; TTimer 0; TTimer 0] (mkTimerSys timer_world 0%Z [t]) = Some s' ∧
    tsy_timers s' !! 0 = Some t' ∧ tm_fired t' = [].
Proof.
  intros T t. destruct (trun unlimited [TTick 20; TTimer 0; TTimer 0] (mkTimerSys timer_world 0%Z [t])) as [s'|] eqn:Hr.
  2: { apply (f_equal (fmap tsy_now)) in Hr. vm_compute in Hr. discriminate. }
  destruct (cancelled_timer_silent unlimited [TTick 20; TTimer 0; TTimer 0] (mkTimerSys timer_world 0%Z [t]) s' 0 t)
    as (t' & Hk & Hf); [apply timer_world_ok|vm_compute; reflexivity|reflexivity|reflexivity|exact Hr|].
  exists s', t'. split; [reflexivity|]. split; [exact Hk|exact Hf].
Defined.

Lemma listener_forwards_witness :
  let _ : ThisNode := node_new "n@h" in
  ∃ l w', listen unlimited [None; Some (LStop (from_raw 1)); None] (spawn_listener Tasks (from_raw 1) [4; 5; 6])
    timer_world = Some (l, w') ∧ ls_sent l = [4] ∧ forwarded [4; 5; 6] l w'.
Proof.
  intros T. destruct (listen unlimited [None; Some (LStop (from_raw 1)); None]
    (spawn_listener Tasks (from_raw 1) [4; 5; 6]) timer_world) as [[l w']|] eqn:Hl.
  2: { apply (f_equal (fmap (ls_sent ∘ fst))) in Hl. vm_compute in Hl. discriminate. }
  exists l, w'. split; [reflexivity|]. split.
  - assert (ls_sent ∘ fst <$> Some (l, w') = Some [4]) as Hx by (rewrite <- Hl; vm_compute; reflexivity).
    injection Hx as Hx. exact Hx.
  - apply (listener_forwards unlimited Tasks (from_raw 1) [4; 5; 6]
      [None; Some (LStop (from_raw 1)); None] timer_world l w'); [apply timer_world_ok|vm_compute; reflexivity|exact Hl].
Defined.
