(* ===== verification/Handles.v ===== *)
(** * What supervisors rely on: the environment of a supervisor

    The interface between the supervisors and the actors they start
    ([ChildEnv]): starting a linked child, reading and awaiting its exit, the
    lifecycle requests of a [ChildHandle], the supervisor's own mailbox of
    [Exit] messages, the clock. [ChildLaws] states what the supervisors'
    theorems use of it. On top of it, the shutdown routines of
    [concurrency/src/child_spec.rs] ([shutdown_child_async] and
    [shutdown_child_blocking], which have the same text). *)

From S2P Require Import Prelude Address Errors ChildSpec.

(** [A] is what a user's child constructor builds, [W] the outside world.
    Waiting operations run the rest of the system until they return. *)
Class ChildEnv (A W : Type) := {
  (** [spec.start_child(&ctx.child_handle())]: the child runs from the moment
      it is spawned, and is linked after that. *)
  ce_start : ChildSpec A → W → ActorId * W;
  (** a record of the children that had signalled their links before they
      were linked to the supervisor and published their exit only after:
      the supervisor is not told of their exit *)
  ce_late : W → list ActorId;
  ce_exit_reason : ActorId → W → option ExitReason;
  ce_shutdown : ActorId → W → W;
  ce_kill : ActorId → W → W;
  ce_wait : ActorId → W → ExitReason * W;
  ce_wait_timeout : ActorId → Duration → W → option ExitReason * W;
  (** [Instant::now()], [sleep(delay)], [ctx.stop()], [ctx.trap_exit(true)] *)
  ce_now : W → Instant * W;
  ce_sleep : Duration → W → W;
  ce_stop_self : W → W;
  ce_trap_exit : W → W;
  (** the supervisor's own cancellation token *)
  ce_self_cancelled : W → bool;
  (** the [Exit] messages waiting in the supervisor's mailbox, and taking the
      first of them *)
  ce_inbox : W → list Exit;
  ce_recv : W → option (Exit * W)
}.

(** A child is accounted for when it runs, or its [Exit] message is waiting,
    or the supervisor itself has been told to stop. The last case is not only
    an orderly stop: a child that exits with [Kill] cancels a supervisor that
    traps exits, since [make_signal] does not let a [Kill] be trapped. *)
Class ChildLaws (A W : Type) `{ThisNode} `{ChildEnv A W} := {
  (** the worlds the laws speak about: the supervisor traps exits, ... *)
  cl_ok : W → Prop;
  cl_known : W → ActorId → Prop;
  cl_accounted : W → ActorId → Prop;
  (** [cl_le w w']: the world [w] may evolve into [w'] *)
  cl_le : W → W → Prop;
  cl_le_refl w : cl_le w w;
  cl_le_trans w1 w2 w3 : cl_le w1 w2 → cl_le w2 w3 → cl_le w1 w3;
  cl_le_ok w w' : cl_le w w' → cl_ok w → cl_ok w';
  cl_le_known w w' i : cl_ok w → cl_le w w' → cl_known w i → cl_known w' i;
  cl_le_exited w w' i r :
    cl_ok w → cl_le w w' → ce_exit_reason i w = Some r → ce_exit_reason i w' = Some r;
  cl_le_accounted w w' i :
    cl_ok w → cl_le w w' → cl_accounted w i → cl_accounted w' i;
  cl_le_late w w' i : cl_ok w → cl_le w w' → i ∈ ce_late w → i ∈ ce_late w';
  cl_accounted_spec w i :
    cl_ok w → cl_accounted w i →
    ce_exit_reason i w = None ∨ (∃ r, mkExit (local_addr i) r ∈ ce_inbox w) ∨
    ce_self_cancelled w = true;
  cl_start spec w :
    cl_ok w → is_remote spec = false → cs_start spec ≠ UnreachableStart →
    let '(i, w') := ce_start spec w in
    cl_le w w' ∧ ¬ cl_known w i ∧ cl_known w' i ∧ (cl_accounted w' i ∨ i ∈ ce_late w');
  cl_shutdown i w : cl_ok w → cl_le w (ce_shutdown i w);
  cl_kill i w : cl_ok w → cl_le w (ce_kill i w);
  (** an asked-for exit comes: [cl_stopping] holds after a request *)
  cl_stopping : W → ActorId → Prop;
  cl_shutdown_stopping i w : cl_ok w → cl_known w i → cl_stopping (ce_shutdown i w) i;
  cl_kill_stopping i w : cl_ok w → cl_known w i → cl_stopping (ce_kill i w) i;
  cl_wait i w :
    cl_ok w → let '(r, w') := ce_wait i w in
    cl_le w w' ∧ (cl_stopping w i → ce_exit_reason i w' = Some r);
  cl_wait_timeout i d w :
    cl_ok w → let '(r, w') := ce_wait_timeout i d w in
    cl_le w w' ∧ (∀ r', r = Some r' → ce_exit_reason i w' = Some r');
  (** a received message no longer accounts for its sender *)
  cl_recv w e w' :
    cl_ok w → ce_recv w = Some (e, w') →
    cl_ok w' ∧ (∀ i, cl_known w i → cl_known w' i) ∧
    (∀ i, cl_accounted w i → from e ≠ local_addr i → cl_accounted w' i) ∧
    (∀ i, i ∈ ce_late w → i ∈ ce_late w');
  cl_now w : cl_ok w → cl_le w (snd (ce_now w));
  cl_sleep d w : cl_ok w → cl_le w (ce_sleep d w)
}.

Section shutdown.
Context {A W : Type} `{ChildEnv A W}.

(** [shutdown_child_async], [shutdown_child_blocking] *)
Definition shutdown_child (h : ActorId) (shutdown : ShutdownType) (w : W) : ExitReason * W :=
  match ce_exit_reason h w with
  | Some reason => (reason, w)
  | None =>
      match shutdown with
      | BrutalKill => ce_wait h (ce_kill h w)
      | Infinity => ce_wait h (ce_shutdown h w)
      | Timeout duration =>
          let '(r, w) := ce_wait_timeout h duration (ce_shutdown h w) in
          match r with
          | Some reason => (reason, w)
          | None => ce_wait h (ce_kill h w)
          end
      end
  end.
End shutdown.

Section laws.
Context {A W : Type} `{ChildLaws A W}.

(** What a supervisor can count on of a child that it takes for alive. *)
Definition watched (w : W) (i : ActorId) : Prop := cl_accounted w i ∨ i ∈ ce_late w.

Lemma watched_le w w' i : cl_ok w → cl_le w w' → watched w i → watched w' i.
Proof.
  intros Hok Hle [Ha|Hl]; [left; exact (cl_le_accounted _ _ _ Hok Hle Ha)|right; exact (cl_le_late _ _ _ Hok Hle Hl)].
Qed.
Lemma watched_recv w e w' i :
  cl_ok w → ce_recv w = Some (e, w') → watched w i → from e ≠ local_addr i → watched w' i.
Proof.
  intros Hok Hr Hw Hf. destruct (cl_recv w e w' Hok Hr) as (_ & _ & Ha & Hl).
  destruct Hw; [left|right]; auto.
Qed.
Lemma watched_spec w i :
  cl_ok w → watched w i →
  ce_exit_reason i w = None ∨ (∃ r, mkExit (local_addr i) r ∈ ce_inbox w) ∨
  ce_self_cancelled w = true ∨ i ∈ ce_late w.
Proof. intros Hok [Ha|Hl]; [destruct (cl_accounted_spec w i Hok Ha); naive_solver|auto]. Qed.

Lemma shutdown_child_le_exited h sd w :
  cl_ok w → cl_known w h →
  let '(r, w') := shutdown_child h sd w in
  cl_le w w' ∧ ce_exit_reason h w' = Some r.
Proof.
  intros Hok Hk. unfold shutdown_child.
  destruct (ce_exit_reason h w) as [r|] eqn:Hr; [split; [apply cl_le_refl|done]|].
  pose proof (cl_shutdown h w Hok) as Hs. pose proof (cl_kill h w Hok) as Hki.
  assert (∀ w0, cl_ok w0 → cl_le w w0 → cl_stopping w0 h →
    let '(r, w') := ce_wait h w0 in cl_le w w' ∧ ce_exit_reason h w' = Some r) as Hwait.
  { intros w0 Hok0 Hle Hst. pose proof (cl_wait h w0 Hok0) as Hw.
    destruct (ce_wait h w0) as [r w']. destruct Hw as [Hle' Hx]. split; [|auto].
    exact (cl_le_trans _ _ _ Hle Hle'). }
  destruct sd as [|d|].
  - apply Hwait; [exact (cl_le_ok _ _ Hs Hok)|done|by apply cl_shutdown_stopping].
  - pose proof (cl_le_ok _ _ Hs Hok) as Hok1.
    pose proof (cl_wait_timeout h d (ce_shutdown h w) Hok1) as Ht.
    destruct (ce_wait_timeout h d (ce_shutdown h w)) as [[r|] w1]; destruct Ht as [Hle1 Hx].
    + split; [exact (cl_le_trans _ _ _ Hs Hle1)|by apply Hx].
    + pose proof (cl_le_trans _ _ _ Hs Hle1) as Hle.
      pose proof (cl_le_ok _ _ Hle Hok) as Hok2. pose proof (cl_kill h w1 Hok2) as Hk2.
      apply Hwait; [exact (cl_le_ok _ _ Hk2 Hok2)|exact (cl_le_trans _ _ _ Hle Hk2)|].
      apply cl_kill_stopping; [done|exact (cl_le_known _ _ _ Hok Hle Hk)].
  - apply Hwait; [exact (cl_le_ok _ _ Hki Hok)|done|by apply cl_kill_stopping].
Qed.
End laws.

(** ** The requests made, in order *)

(** The same environment with a record of what children are told. *)
Inductive Told := ToldShutdown (i : ActorId) | ToldKill (i : ActorId).

Section logged.
Context {A W : Type} `{ChildEnv A W}.

Definition tell (t : Told) (f : W → W) (wl : W * list Told) : W * list Told := (f wl.1, wl.2 ++ [t]).
Definition quietly (f : W → W) (wl : W * list Told) : W * list Told := (f wl.1, wl.2).
Definition quietly_get {X} (f : W → X * W) (wl : W * list Told) : X * (W * list Told) :=
  let '(x, w) := f wl.1 in (x, (w, wl.2)).

Definition logged_env : ChildEnv A (W * list Told) := {|
  ce_start spec := quietly_get (ce_start spec);
  ce_late wl := ce_late wl.1;
  ce_exit_reason i wl := ce_exit_reason i wl.1;
  ce_shutdown i := tell (ToldShutdown i) (ce_shutdown i);
  ce_kill i := tell (ToldKill i) (ce_kill i);
  ce_wait i := quietly_get (ce_wait i);
  ce_wait_timeout i d := quietly_get (ce_wait_timeout i d);
  ce_now := quietly_get ce_now;
  ce_sleep d := quietly (ce_sleep d);
  ce_stop_self := quietly ce_stop_self;
  ce_trap_exit := quietly ce_trap_exit;
  ce_self_cancelled wl := ce_self_cancelled wl.1;
  ce_inbox wl := ce_inbox wl.1;
  ce_recv wl := '(e, w) ← ce_recv wl.1; Some (e, (w, wl.2))
|}.

(** What a shutdown of [h] tells it. *)
Definition told_as (h : ActorId) (sd : ShutdownType) (t : list Told) : Prop :=
  match sd with
  | BrutalKill => t = [ToldKill h]
  | Infinity => t = [ToldShutdown h]
  | Timeout _ => t = [ToldShutdown h] ∨ t = [ToldShutdown h; ToldKill h]
  end.

Lemma shutdown_child_logged h sd w l :
  ∃ t, match ce_exit_reason h w with Some _ => t = [] | None => told_as h sd t end ∧
    shutdown_child (H := logged_env) h sd (w, l) =
      (fst (shutdown_child h sd w), (snd (shutdown_child h sd w), l ++ t)).
Proof.
  unfold shutdown_child. cbn [ce_exit_reason logged_env fst snd].
  destruct (ce_exit_reason h w) as [r|]; [exists []; by rewrite app_nil_r|].
  assert (∀ w l, ce_wait (ChildEnv := logged_env) h (w, l) = (fst (ce_wait h w), (snd (ce_wait h w), l))) as Hw.
  { intros w0 l0. cbn [ce_wait logged_env]. unfold quietly_get. simpl. by destruct (ce_wait h w0). }
  destruct sd as [|d|]; cbn [ce_shutdown ce_kill ce_wait_timeout logged_env]; unfold tell; cbn [fst snd].
  - exists [ToldShutdown h]. split; [done|]. by rewrite Hw.
  - unfold quietly_get. cbn [fst snd]. destruct (ce_wait_timeout h d (ce_shutdown h w)) as [[r|] w1].
    + exists [ToldShutdown h]. split; [by left|done].
    + exists [ToldShutdown h; ToldKill h]. split; [by right|]. rewrite Hw. simpl. by rewrite <- app_assoc.
  - exists [ToldKill h]. split; [done|]. by rewrite Hw.
Qed.
End logged.
