(* ===== verification/Supervised.v ===== *)
(** * Actors as the environment of a supervisor

    The system of [Actor] is an instance of the interface [ChildEnv] that the
    supervisors are written against, and it satisfies the laws [ChildLaws]:
    the supervisor is the actor [me] of the system, its children are actors
    linked to it, and its [Exit] messages are those of its supervision
    channel. While the supervisor waits or sleeps, the rest of the system
    makes moves that the environment chooses ([sw_future]); they may do
    anything except run the supervisor itself, change its trap flag or its
    links. So it does while the supervisor starts a child, between the spawn,
    the locks of the link and those of the group ([sw_starts], a list of
    windows per start): the child runs from the moment it is spawned. Actor
    ids come from a counter that does not wrap. *)

From S2P Require Import Prelude Address Errors Mailbox ChildSpec ProcessGroups Registry Links Actor Handles.
Import Receiver.

Inductive Move (M A : Type) :=
| MLabel (l : Label M)
| MSpawn (rt : MailboxRuntime)
| MLinkOwn (i : ActorId)
| MLinkPeer (i : ActorId)
| MLinkCheck (i : ActorId)
| MJoin (key : GroupKey) (i : ActorId)
| MTypedJoin (key : GroupKey) (i : ActorId).
Arguments MLabel {M A}. Arguments MSpawn {M A}. Arguments MLinkOwn {M A}. Arguments MLinkPeer {M A}.
Arguments MLinkCheck {M A}. Arguments MJoin {M A}. Arguments MTypedJoin {M A}.

Record SWorld (M A : Type) := mkSWorld {
  sw_world : World M;
  sw_clock : Instant;
  sw_future : list (list (Move M A));
  sw_starts : list (list (list (Move M A)));
  sw_late : list ActorId
}.
Arguments mkSWorld {M A}. Arguments sw_world {M A}. Arguments sw_clock {M A}.
Arguments sw_future {M A}. Arguments sw_starts {M A}. Arguments sw_late {M A}.

Section moves.
Context {M A : Type} `{ThisNode} (me : ActorId) (rt : MailboxRuntime).
Implicit Types (w : World M) (s : SWorld M A) (c : Cell M).

Definition allowed (l : Label M) : bool :=
  match l with
  | LStep i _ | LTrapExit i _ => bool_decide (i ≠ me)
  | LAddLink a b | LLinkCheck a b | LDropLink a b => bool_decide (a ≠ me) && bool_decide (b ≠ me)
  | LSpawn _ => false
  | _ => true
  end.

Definition move (m : Move M A) w : World M :=
  match m with
  | MLabel l => if allowed l then default w (step l w) else w
  | MSpawn rt => snd (spawn_with N.succ rt w)
  | MLinkOwn i => set_actors (alter (add_link i) me (actors w)) w
  | MLinkPeer i => set_actors (alter (add_link me) i (actors w)) w
  | MLinkCheck i => set_actors (link_check me i (actors w)) w
  | MJoin key i => mkWorld (actors w) (fst (join_scoped key i (pg w))) (names w) (next_id w)
  | MTypedJoin key i =>
      mkWorld (actors w) (typed_join key "ActorRef" (local_addr i) i (pg w)) (names w) (next_id w)
  end.

Definition moves (ms : list (Move M A)) w : World M := foldl (λ w m, move m w) w ms.

(** The system moves while the supervisor waits. *)
Definition wait_moves s : SWorld M A :=
  mkSWorld (moves (default [] (head (sw_future s))) (sw_world s)) (sw_clock s)
    (tail (sw_future s)) (sw_starts s) (sw_late s).

Definition map_world (f : World M → World M) s : SWorld M A :=
  mkSWorld (f (sw_world s)) (sw_clock s) (sw_future s) (sw_starts s) (sw_late s).

(** The actor [i] runs to its end. *)
Definition finish_actor (i : ActorId) : list (Move M A) :=
  if decide (i = me) then []
  else MLabel (LPostStop i) :: replicate 5 (MLabel (LStep i CbReturned)).

Definition exit_of (i : ActorId) s : option ExitReason := exit_reason i (actors (sw_world s)).

Definition sup_cell s : option (Cell M) := actors (sw_world s) !! me.

Definition before_propagation (p : Phase) : bool :=
  match p with Propagated _ | Left _ | Completed => false | _ => true end.

(** What happens before the supervisor enters itself in the table of the new
    child [i], and before it looks whether the child is dead. *)
Definition until_peer (ws : list (list (Move M A))) (i : ActorId) : list (Move M A) :=
  [MSpawn rt] ++ nth 0 ws [] ++ [MLinkOwn i] ++ nth 1 ws [].
Definition until_check (ws : list (list (Move M A))) (i : ActorId) : list (Move M A) :=
  until_peer ws i ++ [MLinkPeer i] ++ nth 2 ws [].
(** The exit of the child falls into the window in which it is not reported:
    it had signalled its links when the supervisor entered itself, and has
    not published its exit when the supervisor looks. *)
Definition missed (ws : list (list (Move M A))) (i : ActorId) w : bool :=
  match actors (moves (until_peer ws i) w) !! i with
  | Some c => negb (before_propagation (c_phase c))
  | None => false
  end &&
  match exit_reason i (actors (moves (until_check ws i) w)) with None => true | Some _ => false end.

#[export] Instance actor_env : ChildEnv A (SWorld M A) := {
  ce_start spec s :=
    let i := from_raw (next_id (sw_world s)) in
    let ws := default [] (head (sw_starts s)) in
    match start_child_with N.succ rt (λ k, moves (nth k ws [])) spec me (sw_world s) with
    | Some (_, w) =>
        (i, mkSWorld w (sw_clock s) (sw_future s) (tail (sw_starts s))
              (if missed ws i (sw_world s) then i :: sw_late s else sw_late s))
    | None => (i, s)
    end;
  ce_late := sw_late;
  ce_exit_reason := exit_of;
  ce_shutdown i := map_world (move (MLabel (LShutdown i)));
  ce_kill i := map_world (move (MLabel (LKill i)));
  ce_wait i s :=
    let s := map_world (moves (finish_actor i)) (wait_moves s) in
    (default Normal (exit_of i s), s);
  ce_wait_timeout i d s := let s := wait_moves s in (exit_of i s, s);
  ce_now s := (sw_clock s, s);
  ce_sleep d s := let s := wait_moves s in mkSWorld (sw_world s) (sw_clock s + d)%Z (sw_future s) (sw_starts s) (sw_late s);
  ce_stop_self := map_world (move (MLabel (LStop me)));
  ce_trap_exit := map_world (λ w, default w (step (LTrapExit me true) w));
  ce_self_cancelled s := match sup_cell s with Some c => c_cancelled c | None => false end;
  ce_inbox s := match sup_cell s with Some c => queue (supervision (c_mailbox c)) | None => [] end;
  ce_recv s :=
    c ← sup_cell s;
    match c_phase c, take_next (c_mailbox c) with
    | Receiving, Some (ExitItem e, mb) =>
        Some (e, map_world (λ w, set_actors (<[me := set_mailbox mb c]> (actors w)) w) s)
    | _, _ => None
    end
}.

(** ** How cells evolve *)

Definition linked c : Prop := me ∈ c_links c ∧ before_propagation (c_phase c) = true.

(** The changes other actors make to a cell. *)
Record calm c c' : Prop := {
  cm_completion : c_completion c' = c_completion c;
  cm_trap : c_trap_exit c' = c_trap_exit c;
  cm_phase : c_phase c' = c_phase c;
  cm_mail : ∃ q, queue (supervision (c_mailbox c')) = queue (supervision (c_mailbox c)) ++ q;
  cm_cancelled : c_cancelled c = true → c_cancelled c' = true;
  cm_links : me ∈ c_links c → me ∈ c_links c'
}.

Definition delivered (i : ActorId) (a : gmap ActorId (Cell M)) : Prop :=
  ∃ cm, a !! me = Some cm ∧
    ((∃ r, mkExit (local_addr i) r ∈ queue (supervision (c_mailbox cm))) ∨ c_cancelled cm = true).

Record evolves (a a' : gmap ActorId (Cell M)) (x : ActorId) c c' : Prop := {
  ev_completion : ∀ r, c_completion c = Some r → c_completion c' = Some r;
  ev_cancelled : c_cancelled c = true → c_cancelled c' = true;
  ev_me : x = me → calm c c';
  ev_linked : x ≠ me → linked c → linked c' ∨ delivered x a';
  ev_stays : x ≠ me → me ∈ c_links c → before_propagation (c_phase c) = false →
    (me ∈ c_links c' ∧ before_propagation (c_phase c') = false) ∨ delivered x a'
}.

Definition evolve (a a' : gmap ActorId (Cell M)) : Prop :=
  ∀ x c, a !! x = Some c → ∃ c', a' !! x = Some c' ∧ evolves a a' x c c'.

Lemma calm_refl c : calm c c.
Proof. split; try done. exists []. by rewrite app_nil_r. Qed.

Lemma calm_trans c1 c2 c3 : calm c1 c2 → calm c2 c3 → calm c1 c3.
Proof.
  intros [? ? ? [q1 Hq1] ? ?] [? ? ? [q2 Hq2] ? ?]. split; try congruence; auto.
  exists (q1 ++ q2). by rewrite Hq2, Hq1, app_assoc.
Qed.

Lemma calm_evolves a a' x c c' : calm c c' → evolves a a' x c c'.
Proof.
  intros Hc. pose proof Hc as [Hco Ht Hp Hm Hca Hl]. split; auto.
  - intros r Hr. congruence.
  - intros _ [Hin Hb]. left. split; [auto|congruence].
  - intros _ Hin Hb. left. split; [auto|congruence].
Qed.

Lemma delivered_evolve i a a' : evolve a a' → delivered i a → delivered i a'.
Proof.
  intros He (cm & Hm & Hd). destruct (He me cm Hm) as (cm' & Hm' & [_ _ Hme _ _]).
  destruct (Hme eq_refl) as [_ _ _ [q Hq] Hca _]. exists cm'. split; [done|].
  destruct Hd as [[r Hr]|Hc]; [left; exists r|by right; auto].
  rewrite Hq. apply elem_of_app. by left.
Qed.

Lemma evolve_refl a : evolve a a.
Proof. intros x c Hx. exists c. split; [done|]. apply calm_evolves, calm_refl. Qed.

Lemma evolve_trans a1 a2 a3 : evolve a1 a2 → evolve a2 a3 → evolve a1 a3.
Proof.
  intros H12 H23 x c1 H1. destruct (H12 x c1 H1) as (c2 & H2 & [Hc Hca Hm Hl Hst]).
  destruct (H23 x c2 H2) as (c3 & H3 & [Hc' Hca' Hm' Hl' Hst']). exists c3. split; [done|]. split; auto.
  - intros ->. exact (calm_trans _ _ _ (Hm eq_refl) (Hm' eq_refl)).
  - intros Hx Hlk. destruct (Hl Hx Hlk) as [?|Hd]; [auto|]. right. by apply (delivered_evolve x a2).
  - intros Hx Hin Hb. destruct (Hst Hx Hin Hb) as [[? ?]|Hd]; [auto|]. right. by apply (delivered_evolve x a2).
Qed.

Lemma evolve_cells a a' :
  (∀ x c, a !! x = Some c → ∃ c', a' !! x = Some c' ∧ calm c c') → evolve a a'.
Proof.
  intros Hc x c Hx. destruct (Hc x c Hx) as (c' & Hx' & Hcalm). exists c'. split; [done|].
  by apply calm_evolves.
Qed.

Lemma evolve_alter a f i : (∀ c, calm c (f c)) → evolve a (alter f i a).
Proof.
  intros Hf. apply evolve_cells. intros x c Hx. rewrite lookup_alter. case_decide; subst.
  - rewrite Hx. eexists. split; [done|]. apply Hf.
  - exists c. split; [done|apply calm_refl].
Qed.

Lemma evolve_insert a i c c' :
  a !! i = Some c → evolves a (<[i := c']> a) i c c' → evolve a (<[i := c']> a).
Proof.
  intros Hi He x d Hx. rewrite lookup_insert. case_decide; subst.
  - rewrite Hi in Hx. injection Hx as <-. eauto.
  - exists d. split; [done|]. apply calm_evolves, calm_refl.
Qed.

(** ** Each move makes cells evolve *)

Lemma calm_cancel c : calm c (cancel c).
Proof.
  destruct (cancel_fields c) as (_ & Ht & Hl & _ & _ & _ & Hca & _ & Hco & Hp & Hs & _).
  split; try done; rewrite ?Hl, ?Hs; try done. exists []. by rewrite app_nil_r.
Qed.

Lemma calm_post_stop c : calm c (post_stop c).
Proof.
  unfold post_stop, send_stop. destruct (c_stop_posted c); [apply calm_refl|].
  destruct (c_rx_open c); split; simpl; try done; exists []; by rewrite app_nil_r.
Qed.

Lemma calm_send_user m c : calm c (send_user m c).
Proof.
  unfold send_user. destruct (c_rx_open c); [|apply calm_refl].
  split; simpl; try done. exists []. by rewrite app_nil_r.
Qed.

Lemma calm_send_signal o c : calm c (send_signal o c).
Proof.
  unfold send_signal. destruct (c_rx_open c); [|apply calm_refl].
  split; simpl; try done. exists []. by rewrite app_nil_r.
Qed.

Lemma calm_exit_signal i r c : calm c (exit_signal i r c).
Proof.
  destruct (exit_signal_spec i r c). split; try done; [eauto|..].
  - rewrite sg_cancelled. by intros ->.
  - by rewrite sg_links.
Qed.

Lemma calm_remove_link p c : p ≠ me → calm c (remove_link p c).
Proof.
  intros Hp. split; simpl; try done; [exists []; by rewrite app_nil_r|].
  rewrite elem_of_iter_filter. intros Hin. split; [done|]. by apply bool_decide_eq_true.
Qed.

Lemma calm_add_link p c : calm c (add_link p c).
Proof.
  unfold add_link. case_bool_decide; [apply calm_refl|].
  split; simpl; try done; [exists []; by rewrite app_nil_r|]. rewrite elem_of_app. by left.
Qed.

(** The requests of a [ChildHandle]. *)
Lemma calm_handle c :
  calm c (handle_stop c) ∧ calm c (handle_shutdown c) ∧ calm c (handle_kill c).
Proof.
  unfold handle_stop, handle_shutdown, handle_kill. split_and!; [apply calm_cancel|..].
  - apply (calm_trans _ (set_requested (Some Shutdown) c)); [|apply calm_cancel].
    split; simpl; try done. exists []. by rewrite app_nil_r.
  - apply (calm_trans _ (set_skip_stopped true (set_requested (Some Kill) c))); [|apply calm_cancel].
    split; simpl; try done. exists []. by rewrite app_nil_r.
Qed.

Lemma link_check_evolve x y a : x ≠ me → evolve a (link_check x y a).
Proof.
  intros Hx. unfold link_check. destruct (exit_reason y _) as [r|]; [|apply evolve_refl].
  unfold take_self_from_peer_table. destruct (a !! y); [|apply evolve_refl].
  assert (evolve a (alter (remove_link x) y a)) as Hm
    by (apply evolve_alter; intros; by apply calm_remove_link).
  case_bool_decide; [|done]. apply (evolve_trans _ _ _ Hm). apply evolve_alter, calm_exit_signal.
Qed.

(** A step of [run_actor] stays before the epilogue and never un-cancels. *)
Lemma run_actor_step_before o c c' :
  run_actor_step o c = Some c' →
  before_propagation (c_phase c') = true ∧ (c_cancelled c = true → c_cancelled c' = true).
Proof.
  assert (∀ r c, before_propagation (c_phase (resolve r c)) = true ∧
    c_cancelled (resolve r c) = c_cancelled c) as Hres.
  { intros r d. unfold resolve. by destruct (resolve_exit_reason _ _ _) as [? [? ?]]. }
  assert (∀ r c, before_propagation (c_phase (finish r c)) = true ∧
    c_cancelled (finish r c) = true) as Hfin.
  { intros r d. unfold finish.
    destruct (cancel_fields d) as (_ & _ & _ & _ & _ & _ & Hca & _).
    destruct (c_skip_stopped _); [|done]. destruct (Hres r (cancel d)) as [? ->]. done. }
  unfold run_actor_step. destruct (c_phase c) eqn:Hp; try done.
  - destruct o; [destruct (c_cancelled c) eqn:Hcc; [destruct (c_skip_stopped c)|]|]; intros [= <-];
      try done.
    + destruct (Hres Normal c) as [? ?]. split; [done|congruence].
    + by destruct (cancel_fields c) as (_ & _ & _ & _ & _ & _ & ? & _).
  - destruct (recv _ _) as [[[]|] mb| | |]; try done; intros [= <-]; try done;
      match goal with |- context [finish Normal ?d] => destruct (Hfin Normal d) end; done.
  - destruct o; [destruct (c_cancelled c)|]; intros [= <-]; try done.
    + by destruct (Hfin Normal c).
    + by match goal with |- context [finish ?r c] => destruct (Hfin r c) end.
  - intros [= <-]. destruct (Hres Normal c) as [? ->]. done.
  - destruct o; intros [= <-];
      match goal with |- context [resolve ?r c] => destruct (Hres r c) as [? ->] end; done.
Qed.

(** Propagation: the supervisor hears of it, or is cancelled. *)
Lemma propagate_delivers i r a c cm :
  a !! i = Some c → NoDup (c_links c) → i ≠ me → me ∈ c_links c → a !! me = Some cm →
  c_trap_exit cm = true → c_rx_open cm = true → delivered i (propagate_exit i r a).
Proof.
  intros Hi Hnd Hne Hin Hm Ht Ho. unfold delivered.
  rewrite (lookup_propagate i r a c me Hi Hnd), Hm. cbn [fmap option_fmap option_map].
  eexists. split; [done|]. rewrite decide_True by done.
  rewrite (decide_False (P := me = i)) by done.
  destruct (exit_signal_spec i r (remove_link i cm)) as [Hca _ Hmail].
  rewrite Hca, Hmail. unfold signal_mail, signal_kills. simpl. rewrite Ht, Ho. simpl.
  destruct (decide (r = Kill)) as [->|Hr].
  - right. by rewrite orb_true_r.
  - left. exists r. rewrite bool_decide_eq_true_2 by done. apply elem_of_app. right. left.
Qed.

Lemma propagate_evolve i r a c x d :
  a !! i = Some c → NoDup (c_links c) → i ≠ me → x ≠ i → a !! x = Some d →
  ∃ d', propagate_exit i r a !! x = Some d' ∧ calm d d'.
Proof.
  intros Hi Hnd Hne Hx Hd. rewrite (lookup_propagate i r a c x Hi Hnd), Hd.
  cbn [fmap option_fmap option_map]. eexists. split; [done|].
  rewrite (decide_False (P := x = i)) by done. destruct (decide _); [|apply calm_refl].
  apply (calm_trans _ (remove_link i d)); [by apply calm_remove_link|apply calm_exit_signal].
Qed.

(** The worlds in which the laws hold: the supervisor waits for messages
    and traps exits. *)
Definition sup_ok w : Prop :=
  world_ok w ∧ ∃ cm, actors w !! me = Some cm ∧ c_trap_exit cm = true ∧ c_phase cm = Receiving.

Lemma propagation_evolve i r w c :
  sup_ok w → actors w !! i = Some c → i ≠ me → c_phase c = Exiting r →
  evolve (actors w) (alter (set_phase (Propagated r)) i (propagate_exit i r (actors w))).
Proof.
  intros [Hok (cm & Hm & Ht & Hp)] Hi Hne Hph x d Hx.
  pose proof (lk_nodup _ (wk_links _ Hok) i c Hi) as Hnd.
  pose proof (ok_open _ (wk_cells _ Hok me cm Hm)) as Ho. rewrite Hp in Ho.
  set (a' := propagate_exit i r (actors w)).
  assert (me ∈ c_links c → delivered i (alter (set_phase (Propagated r)) i a')) as Hdel.
  { intros Hin. destruct (propagate_delivers i r (actors w) c cm Hi Hnd Hne Hin Hm Ht Ho)
      as (cm' & Hm' & Hd). exists cm'. by rewrite lookup_alter_ne. }
  destruct (decide (x = i)) as [->|Hxi].
  - rewrite lookup_alter_eq. unfold a'. rewrite (lookup_propagate i r _ c i Hi Hnd), Hi.
    rewrite Hi in Hx. injection Hx as <-. cbn [fmap option_fmap option_map].
    eexists. split; [done|]. rewrite (decide_True (P := i = i)) by done. destruct (decide _); split; simpl; try done.
    + intros s Hs. rewrite (sg_completion _ _ _ _ (exit_signal_spec i r _)). done.
    + intros Hca. by apply (cm_cancelled _ _ (calm_exit_signal i r _)).
    + intros _ [Hin _]. right. by apply Hdel.
    + intros _ _ Hb. by rewrite Hph in Hb.
    + intros _ [Hin _]. right. by apply Hdel.
    + intros _ _ Hb. by rewrite Hph in Hb.
  - destruct (propagate_evolve i r (actors w) c x d Hi Hnd Hne Hxi Hx) as (d' & Hd' & Hc).
    exists d'. rewrite lookup_alter_ne by done. split; [done|]. by apply calm_evolves.
Qed.

Lemma actor_step_evolve o i w w' :
  sup_ok w → i ≠ me → actor_step o i w = Some w' → evolve (actors w) (actors w').
Proof.
  intros Hok Hne. unfold actor_step.
  destruct (actors w !! i) as [c|] eqn:Hi; [|done]. cbn [mbind option_bind].
  assert (∀ c', run_actor_step o c = Some c' → before_propagation (c_phase c) = true →
    evolve (actors w) (<[i := c']> (actors w))) as Hrun.
  { intros c' Hr Hb. destruct (run_actor_step_keeps o c c' Hr) as [Hlk Hco].
    destruct (run_actor_step_before o c c' Hr) as [Hb' Hca].
    apply (evolve_insert _ _ c); [done|]. split; try done.
    - intros r0 Hr0. congruence.
    - intros _ [Hin _]. left. split; [congruence|done].
    - intros _ _ Hb2. congruence. }
  destruct (c_phase c) as [| | | |r|r|r|r|] eqn:Hph;
    try (destruct (run_actor_step o c) as [c'|] eqn:Hr; [|done]; intros [= <-]; by apply Hrun);
    try done; intros [= <-]; simpl.
  - by apply (propagation_evolve i r w c).
  - rewrite (alter_insert_cell _ _ _ c Hi). apply (evolve_insert _ _ c); [done|].
    split; try done.
    + intros _ [_ Hb]. by rewrite Hph in Hb.
    + intros _ Hin _. by left.
  - rewrite (alter_insert_cell _ _ _ c Hi). apply (evolve_insert _ _ c); [done|].
    split; try done.
    + intros s Hs. assert (Left r = Completed) as [=]. rewrite <- Hph.
      apply (ok_done _ (wk_cells _ (proj1 Hok) i c Hi)). by rewrite Hs.
    + intros _ [_ Hb]. by rewrite Hph in Hb.
    + intros _ Hin _. by left.
Qed.

Lemma on_cell_evolve i f w w' :
  (∀ c, calm c (f c)) → on_cell i f w = Some w' → evolve (actors w) (actors w').
Proof.
  intros Hf. unfold on_cell. destruct (actors w !! i) as [c|] eqn:Hi; [|done]. intros [= <-]. simpl.
  apply (evolve_insert _ _ c); [done|]. by apply calm_evolves.
Qed.

Lemma step_evolve l w w' :
  sup_ok w → allowed l = true → step l w = Some w' → evolve (actors w) (actors w').
Proof.
  intros Hok Hal. destruct l as [i o|i|i|i|i|i b|x y|x y|x y|i m|i s|rt'];
    cbn [step]; simpl in Hal; bool_simpl; try done.
  - by apply actor_step_evolve.
  - destruct (actors w !! i) as [c|] eqn:Hi; [|done]. cbn [mbind option_bind].
    destruct (c_cancelled c); [|done]. apply on_cell_evolve, calm_post_stop.
  - apply on_cell_evolve. intros c. apply calm_handle.
  - apply on_cell_evolve. intros c. apply calm_handle.
  - apply on_cell_evolve. intros c. apply calm_handle.
  - unfold on_cell. destruct (actors w !! i) as [c|] eqn:Hi; [|done]. intros [= <-].
    apply (evolve_insert _ _ c); [done|]. split; try done.
    + intros _ Hl. by left.
    + intros _ Hl ?. by left.
  - destruct (actors w !! y); [|done]. apply on_cell_evolve, calm_add_link.
  - destruct (actors w !! x), (actors w !! y); try done. intros [= <-]. by apply link_check_evolve.
  - apply on_cell_evolve. intros c. by apply calm_remove_link.
  - apply on_cell_evolve, calm_send_user.
  - apply on_cell_evolve, calm_send_signal.
Qed.

(** ** Starting a child *)

Lemma spawn_evolve succ rt' w : world_ok w → evolve (actors w) (actors (snd (spawn_with succ rt' w))).
Proof.
  intros Hok. apply evolve_cells. intros x c Hx. exists c. simpl. split; [|apply calm_refl].
  rewrite lookup_insert_ne; [done|]. intros <-. by rewrite (spawn_fresh w Hok) in Hx.
Qed.

(** The supervisor's own look at a child it has linked to: it does not lose
    track of a linked child, and hears of one that is dead. *)
Lemma own_check_evolve i w :
  sup_ok w → evolve (actors w) (link_check me i (actors w)) ∧
  (i ≠ me → (∃ c, actors w !! i = Some c ∧ me ∈ c_links c) → is_Some (exit_reason i (actors w)) →
   delivered i (link_check me i (actors w))).
Proof.
  intros [Hok (cm & Hm & Ht & Hp)]. pose proof (ok_open _ (wk_cells _ Hok me cm Hm)) as Ho. rewrite Hp in Ho.
  unfold link_check. destruct (exit_reason i (actors w)) as [r|] eqn:Hr; [|split; [apply evolve_refl|by intros _ _ []]].
  unfold exit_reason in Hr. destruct (actors w !! i) as [c|] eqn:Hi; [|done]. simpl in Hr.
  pose proof (proj1 (ok_done _ (wk_cells _ Hok i c Hi)) (ex_intro _ r Hr)) as Hph.
  assert (i ≠ me) as Hne by (intros ->; congruence). unfold take_self_from_peer_table. rewrite Hi.
  set (taken := bool_decide _). set (a' := if taken then make_signal me i r (alter (remove_link me) i (actors w))
    else alter (remove_link me) i (actors w)).
  assert (a' !! i = Some (remove_link me c)) as Hi'.
  { unfold a'. destruct taken; unfold make_signal; [rewrite lookup_alter_ne by done|]; by rewrite lookup_alter_eq, Hi. }
  assert (taken = true → delivered i a') as Hdel.
  { intros Htk. unfold a'. rewrite Htk. eexists. split; [unfold make_signal; rewrite lookup_alter_eq, lookup_alter_ne, Hm by done; done|].
    destruct (exit_signal_spec i r cm) as [Hca _ Hmail]. rewrite Hca, Hmail. unfold signal_mail, signal_kills. rewrite Ht, Ho.
    destruct (decide (r = Kill)) as [->|Hnk]; [right; by rewrite orb_true_r|].
    left. exists r. rewrite bool_decide_eq_true_2 by done. apply elem_of_app. right. left. }
  assert (me ∈ c_links c → taken = true) as Htaken.
  { intros Hin. apply bool_decide_eq_true. simpl. intros Hlen. revert Hin. revert Hlen.
    generalize (c_links c). induction l as [|x l IH]; simpl; [by intros _ ?%not_elem_of_nil|].
    pose proof (iter_filter_length (λ e, bool_decide (e ≠ me)) l). case_bool_decide as Hx; simpl; [|lia].
    intros [= Hlen] [->|Hin]%elem_of_cons; [done|auto]. }
  split.
  - intros x d Hx. destruct (decide (x = i)) as [->|Hxi].
    + rewrite Hi in Hx. injection Hx as <-. exists (remove_link me c). split; [done|]. split; try done.
      * intros _ [_ Hb]. by rewrite Hph in Hb.
      * intros _ Hin _. right. auto.
    + unfold a'. destruct taken; unfold make_signal.
      * rewrite lookup_alter. case_decide; subst; rewrite ?lookup_alter_ne, Hx by done; eexists; (split; [done|]);
          apply calm_evolves; [apply calm_exit_signal|apply calm_refl].
      * rewrite lookup_alter_ne, Hx by done. eexists. split; [done|]. apply calm_evolves, calm_refl.
  - intros _ (d & Hd & Hin) _. simplify_eq. auto.
Qed.

(** ** The laws *)

Lemma move_ok m w : sup_ok w → sup_ok (move m w) ∧ evolve (actors w) (actors (move m w)).
Proof.
  intros Hok. assert (∀ w', world_ok w' → evolve (actors w) (actors w') → sup_ok w') as Hsup.
  { intros w' Hok' Hev. split; [done|]. destruct Hok as [_ (cm & Hm & Ht & Hp)].
    destruct (Hev me cm Hm) as (cm' & Hm' & [_ _ Hme _ _]).
    destruct (Hme eq_refl) as [_ Ht' Hp' _ _ _]. exists cm'. split_and!; congruence. }
  assert (∀ w', world_ok w' → evolve (actors w) (actors w') →
    sup_ok w' ∧ evolve (actors w) (actors w')) as Hboth by auto.
  destruct m as [l|rt'|i|i|i|key i|key i]; cbn [move].
  - destruct (allowed l) eqn:Hal; [|split; [done|apply evolve_refl]].
    destruct (step l w) as [w'|] eqn:Hs; simpl; [|split; [done|apply evolve_refl]].
    apply Hboth; [|by apply (step_evolve l)].
    apply (step_ok_same l w w'); [by destruct l|apply Hok|done].
  - apply Hboth; [|by apply spawn_evolve, Hok]. apply spawn_with_ok; [lia|apply Hok].
  - apply Hboth; [|apply evolve_alter, calm_add_link].
    apply world_ok_alter; [apply cell_ok_add_link|apply add_link_NoDup|apply Hok].
  - apply Hboth; [|apply evolve_alter, calm_add_link].
    apply world_ok_alter; [apply cell_ok_add_link|apply add_link_NoDup|apply Hok].
  - apply Hboth; [apply link_check_world_ok, Hok|by apply own_check_evolve].
  - apply Hboth; [|apply evolve_refl]. destruct Hok as [[Hc Hl Hf] _]. by split.
  - apply Hboth; [|apply evolve_refl]. destruct Hok as [[Hc Hl Hf] _]. by split.
Qed.

Lemma moves_ok ms w : sup_ok w → sup_ok (moves ms w) ∧ evolve (actors w) (actors (moves ms w)).
Proof.
  revert w. induction ms as [|m ms IH]; intros w Hok; [split; [done|apply evolve_refl]|].
  destruct (move_ok m w Hok) as [Hok1 Hev1]. destruct (IH _ Hok1) as [Hok2 Hev2].
  split; [done|]. exact (evolve_trans _ _ _ Hev1 Hev2).
Qed.

Lemma moves_cons m ms w : moves (m :: ms) w = moves ms (move m w).
Proof. done. Qed.

Lemma steps_world_ok n i w :
  world_ok w → world_ok (moves (replicate n (MLabel (LStep i CbReturned))) w).
Proof.
  revert w. induction n as [|n IH]; intros w Hok; [done|]. cbn [replicate]. rewrite moves_cons.
  apply IH. cbn [move]. destruct (allowed _); [|done]. cbn [step].
  destruct (actor_step CbReturned i w) eqn:Hs; [|done]. by eapply actor_step_ok.
Qed.

(** The moves of [finish_actor] complete a cancelled actor. *)
Lemma steps_complete n i w p :
  i ≠ me → world_ok w → stopping i w → phase_of i w = Some p → rank p ≤ n →
  phase_of i (moves (replicate n (MLabel (LStep i CbReturned))) w) = Some Completed.
Proof.
  intros Hne. revert w p. induction n as [|n IH]; intros w p Hok Hst Hp Hr.
  { destruct p; simpl in Hr; (done || lia). }
  cbn [replicate]. rewrite moves_cons. cbn [move]. assert (allowed (LStep i CbReturned) = true) as -> by (by apply bool_decide_eq_true).
  cbn [step]. destruct (decide (p = Completed)) as [->|Hnc].
  - assert (actor_step CbReturned i w = None) as ->.
    { unfold actor_step. unfold phase_of in Hp. destruct (actors w !! i) as [c|]; [|done].
      injection Hp as Hp. cbn [mbind option_bind]. by rewrite Hp. }
    cbn [default]. apply (IH w Completed); try done. simpl. lia.
  - destruct (actor_step_rank CbReturned i w p Hok Hst Hp Hnc) as (w' & p' & -> & ? & ? & ? & ?).
    cbn [default]. apply (IH w' p'); try done. lia.
Qed.

Lemma finish_completes i w c :
  i ≠ me → world_ok w → actors w !! i = Some c → c_cancelled c = true →
  is_Some (exit_reason i (actors (moves (finish_actor i) w))).
Proof.
  intros Hne Hok Hi Hca. unfold finish_actor. rewrite decide_False by done.
  rewrite moves_cons. set (w1 := move _ w).
  assert (w1 = set_actors (<[i := post_stop c]> (actors w)) w) as Hw1.
  { unfold w1. cbn [move allowed step]. rewrite Hi. cbn [mbind option_bind]. rewrite Hca.
    unfold on_cell. by rewrite Hi. }
  assert (world_ok w1) as Hok1.
  { assert (step (LPostStop i) w = Some w1) as Hs.
    { cbn [step]. rewrite Hi. cbn [mbind option_bind]. rewrite Hca, Hw1. unfold on_cell. by rewrite Hi. }
    by apply (step_ok_same (LPostStop i) w w1). }
  assert (actors w1 !! i = Some (post_stop c)) as Hi1 by (rewrite Hw1; apply lookup_insert_eq).
  assert (stopping i w1) as Hst.
  { exists (post_stop c). split; [done|]. split; [by apply (cm_cancelled _ _ (calm_post_stop c))|].
    unfold post_stop. by destruct (c_stop_posted c) eqn:Hsp. }
  pose proof (steps_complete 5 i w1 (c_phase (post_stop c)) Hne Hok1 Hst) as Hdone.
  unfold phase_of at 1 in Hdone. rewrite Hi1 in Hdone. specialize (Hdone eq_refl).
  assert (rank (c_phase (post_stop c)) ≤ 5) as Hrk by (destruct (c_phase (post_stop c)); simpl; lia).
  specialize (Hdone Hrk).
  pose proof (steps_world_ok 5 i w1 Hok1) as Hok2.
  unfold phase_of in Hdone. unfold exit_reason.
  destruct (actors (moves _ w1) !! i) as [c'|] eqn:Hi'; [|done]. injection Hdone as Hp'.
  cbn [mbind option_bind]. by apply (ok_done _ (wk_cells _ Hok2 i c' Hi')).
Qed.

Definition accounted (i : ActorId) w : Prop :=
  i ≠ me ∧ ((∃ c, actors w !! i = Some c ∧ linked c) ∨ delivered i (actors w)).

Lemma accounted_evolve i w w' : evolve (actors w) (actors w') → accounted i w → accounted i w'.
Proof.
  intros Hev [Hne [(c & Hi & Hl)|Hd]]; split; try done; [|right; by apply (delivered_evolve i (actors w))].
  destruct (Hev i c Hi) as (c' & Hi' & [_ _ _ Hlk _]).
  destruct (Hlk Hne Hl) as [?|?]; [left; eauto|by right].
Qed.

Definition sw_le s s' : Prop := (∃ ms, sw_world s' = moves ms (sw_world s)) ∧ ∀ i, i ∈ sw_late s → i ∈ sw_late s'.

Lemma moves_app ms1 ms2 w : moves (ms1 ++ ms2) w = moves ms2 (moves ms1 w).
Proof. apply foldl_app. Qed.

Lemma sw_le_moves s s' ms : sw_world s' = moves ms (sw_world s) → sw_late s' = sw_late s → sw_le s s'.
Proof. intros Hw Hl. split; [by exists ms|]. by rewrite Hl. Qed.

Lemma sw_le_trans s1 s2 s3 : sw_le s1 s2 → sw_le s2 s3 → sw_le s1 s3.
Proof. intros [[m1 H1] L1] [[m2 H2] L2]. split; [|auto]. exists (m1 ++ m2). by rewrite moves_app, <- H1. Qed.

Lemma sw_le_wait s : sw_le s (wait_moves s).
Proof. by eapply sw_le_moves. Qed.

Lemma sw_le_evolve s s' :
  sup_ok (sw_world s) → sw_le s s' →
  sup_ok (sw_world s') ∧ evolve (actors (sw_world s)) (actors (sw_world s')).
Proof. intros Hok [[ms ->] _]. by apply moves_ok. Qed.

(** *** Starting a child *)

Definition join_moves (spec : ChildSpec A) (ws : list (list (Move M A))) (i : ActorId) : list (Move M A) :=
  match cs_pg_membership spec with
  | Some m => nth 3 ws [] ++ [MJoin (mkGroupKey (scope m) (group m)) i] ++ nth 4 ws [] ++
      [MTypedJoin (mkGroupKey (scope m) (group m)) i]
  | None => []
  end.

Lemma start_child_moves (spec : ChildSpec A) ws w :
  cs_start spec ≠ UnreachableStart →
  let i := from_raw (next_id w) in
  start_child_with N.succ rt (λ k, moves (nth k ws [])) spec me w =
    Some (i, moves (until_check ws i ++ [MLinkCheck i] ++ join_moves spec ws i) w).
Proof.
  intros Hst i. unfold start_child_with, start_linked_with, link_between. destruct (cs_start spec); [|done].
  unfold until_check, until_peer, join_moves, join_ref. rewrite !moves_app. cbn [moves foldl move].
  destruct (cs_pg_membership spec); [|done]. by rewrite !moves_app.
Qed.

(** A new child is accounted for, or its exit fell into the window. *)
Lemma start_child_accounted (spec : ChildSpec A) ws w :
  sup_ok w → let i := from_raw (next_id w) in
  let w' := moves (until_check ws i ++ [MLinkCheck i] ++ join_moves spec ws i) w in
  i ≠ me ∧ is_Some (actors w' !! i) ∧ (missed ws i w = true ∨ accounted i w').
Proof.
  intros Hok i w'. pose proof (spawn_fresh w (proj1 Hok)) as Hfr. fold i in Hfr.
  assert (i ≠ me) as Hne by (intros He; destruct Hok as [_ (cm & Hm & _)]; rewrite <- He in Hm; congruence).
  set (w0 := move (MSpawn rt) w). assert (actors w0 !! i = Some (new_cell rt)) as H0 by (unfold w0; simpl; apply lookup_insert_eq).
  destruct (move_ok (MSpawn rt) w Hok) as [Hok0 _]. fold w0 in Hok0.
  set (w1 := moves (until_peer ws i) w).
  assert (w1 = moves (nth 0 ws [] ++ [MLinkOwn i] ++ nth 1 ws []) w0) as Hw1 by done.
  destruct (moves_ok (nth 0 ws [] ++ [MLinkOwn i] ++ nth 1 ws []) w0 Hok0) as [Hok1 Hev1]. rewrite <- Hw1 in Hok1, Hev1.
  destruct (Hev1 i _ H0) as (c1 & Hc1 & _).
  set (w2 := move (MLinkPeer i) w1). destruct (move_ok (MLinkPeer i) w1 Hok1) as [Hok2 _]. fold w2 in Hok2.
  assert (actors w2 !! i = Some (add_link me c1)) as Hc2 by (unfold w2; simpl; by rewrite lookup_alter_eq, Hc1).
  assert (me ∈ c_links (add_link me c1)) as Hin2 by (apply elem_of_add_link; by right).
  assert (c_phase (add_link me c1) = c_phase c1) as Hph2 by (unfold add_link; by case_bool_decide).
  set (w3 := moves (until_check ws i) w).
  assert (w3 = moves (nth 2 ws []) w2) as Hw3 by (unfold w3, until_check; rewrite !moves_app; done).
  destruct (moves_ok (nth 2 ws []) w2 Hok2) as [Hok3 Hev3]. rewrite <- Hw3 in Hok3, Hev3.
  destruct (Hev3 i _ Hc2) as (c3 & Hc3 & [_ _ _ Hlk3 Hst3]).
  assert (w' = moves (MLinkCheck i :: join_moves spec ws i) w3) as Hw' by (unfold w', w3; rewrite moves_app; done).
  destruct (moves_ok (MLinkCheck i :: join_moves spec ws i) w3 Hok3) as [_ Hev']. rewrite <- Hw' in Hev'.
  destruct (Hev' i c3 Hc3) as (c' & Hc' & _). split_and!; [done|by rewrite Hc'|].
  unfold missed. fold w1 w3. rewrite Hc1. destruct (before_propagation (c_phase c1)) eqn:Hb.
  - right. apply (accounted_evolve i w3); [done|]. split; [done|].
    destruct (Hlk3 Hne) as [?|?]; [split; [done|congruence]|left; eauto|by right].
  - destruct (exit_reason i (actors w3)) as [r|] eqn:Hr; [right|by left].
    destruct (Hst3 Hne Hin2) as [[Hin3 _]|Hd]; [congruence|..].
    + destruct (move_ok (MLinkCheck i) w3 Hok3) as [Hok4 _].
      destruct (moves_ok (join_moves spec ws i) _ Hok4) as [_ Hev5].
      rewrite Hw', moves_cons. apply (accounted_evolve i (move (MLinkCheck i) w3)); [done|]. split; [done|right].
      apply (own_check_evolve i w3 Hok3); [done|eauto|by rewrite Hr].
    + apply (accounted_evolve i w3); [done|]. split; [done|by right].
Qed.

(** Taking the first [Exit] message. *)
Lemma take_next_exit (mb mb' : MailboxReceiver M) e :
  take_next mb = Some (ExitItem e, mb') →
  queue (supervision mb) = e :: queue (supervision mb').
Proof.
  unfold take_next.
  destruct (queue (signal mb)); [|done]. destruct (queue (stop mb)); [|done].
  destruct (queue (supervision mb)) eqn:Hq; [by destruct (queue (user mb))|].
  by intros [= -> <-].
Qed.

Lemma recv_law s e s' :
  sup_ok (sw_world s) → ce_recv s = Some (e, s') →
  sup_ok (sw_world s') ∧ sw_late s' = sw_late s ∧
  (∀ i, is_Some (actors (sw_world s) !! i) → is_Some (actors (sw_world s') !! i)) ∧
  (∀ i, accounted i (sw_world s) → from e ≠ local_addr i → accounted i (sw_world s')).
Proof.
  intros [Hok (cm & Hm & Ht & Hp)]. simpl. unfold sup_cell. rewrite Hm. cbn [mbind option_bind].
  rewrite Hp. destruct (take_next (c_mailbox cm)) as [[[] mb]|] eqn:Hn; try done. intros [= -> <-].
  pose proof (wk_cells _ Hok me cm Hm) as Hcm.
  assert (actors (sw_world (map_world (λ w, set_actors (<[me:=set_mailbox mb cm]> (actors w)) w) s)) !! me
    = Some (set_mailbox mb cm)) as Hm' by apply lookup_insert_eq.
  split_and!.
  - split; [|by exists (set_mailbox mb cm)]. apply (world_ok_insert me cm); try done.
    by apply (cell_ok_received cm (ExitItem e)).
  - done.
  - intros i. simpl. rewrite lookup_insert. by case_decide.
  - intros i [Hne [(c & Hi & Hl)|(cm' & Hcm' & Hd)]] Hfrom; (split; [done|]).
    + left. exists c. simpl. by rewrite lookup_insert_ne.
    + right. exists (set_mailbox mb cm). split; [done|]. simpl in *.
      rewrite Hm in Hcm'. injection Hcm' as <-. destruct Hd as [[r Hr]|?]; [left; exists r|by right].
      rewrite (take_next_exit _ _ _ Hn) in Hr. apply elem_of_cons in Hr as [<-|?]; [done|done].
Qed.

Lemma request_cancels f i s c :
  (∀ c, c_cancelled (f c) = true) → actors (sw_world s) !! i = Some c →
  ∃ c', actors (default (sw_world s) (on_cell i f (sw_world s))) !! i = Some c' ∧ c_cancelled c' = true.
Proof.
  intros Hf Hi. unfold on_cell. rewrite Hi. cbn. rewrite lookup_insert_eq. eauto.
Qed.

Lemma wait_law i s :
  sup_ok (sw_world s) → let '(r, s') := ce_wait i s in
  sw_le s s' ∧ (i ≠ me ∧ (∃ c, actors (sw_world s) !! i = Some c ∧ c_cancelled c = true) →
    ce_exit_reason i s' = Some r).
Proof.
  intros Hok. simpl. split.
  - apply (sw_le_trans _ _ _ (sw_le_wait s)). by eapply (sw_le_moves _ _ (finish_actor i)).
  - intros [Hne (c & Hi & Hca)].
    destruct (sw_le_evolve _ _ Hok (sw_le_wait s)) as [Hok1 Hev].
    destruct (Hev i c Hi) as (c1 & Hi1 & [_ Hca1 _ _ _]).
    destruct (finish_completes i _ c1 Hne (proj1 Hok1) Hi1 (Hca1 Hca)) as [r Hr].
    unfold exit_of. simpl in *. by rewrite Hr.
Qed.

#[export] Instance actor_laws : ChildLaws A (SWorld M A).
Proof.
  refine {|
    cl_ok s := sup_ok (sw_world s);
    cl_known s i := i ≠ me ∧ is_Some (actors (sw_world s) !! i);
    cl_accounted s i := accounted i (sw_world s);
    cl_le := sw_le;
    cl_stopping s i := i ≠ me ∧ ∃ c, actors (sw_world s) !! i = Some c ∧ c_cancelled c = true
  |}.
  - intros s. by apply (sw_le_moves _ _ []).
  - intros s1 s2 s3. apply sw_le_trans.
  - intros s s' Hle Hok. by apply (sw_le_evolve s).
  - intros s s' i Hok Hle [Hne [c Hi]]. split; [done|]. destruct (sw_le_evolve _ _ Hok Hle) as [_ Hev].
    destruct (Hev i c Hi) as (c' & -> & _). done.
  - intros s s' i r Hok Hle. destruct (sw_le_evolve _ _ Hok Hle) as [_ Hev]. simpl.
    unfold exit_of, exit_reason. destruct (actors (sw_world s) !! i) as [c|] eqn:Hi; [|done].
    destruct (Hev i c Hi) as (c' & -> & [Hco _ _ _ _]). apply Hco.
  - intros s s' i Hok Hle. apply accounted_evolve. by apply (sw_le_evolve s).
  - intros s s' i _ [_ Hl]. apply Hl.
  - intros s i [Hok _] [Hne [(c & Hi & Hl)|(cm & Hm & [Hd|Hd])]]; simpl;
      unfold sup_cell; rewrite ?Hm; auto.
    left. unfold exit_of, exit_reason. rewrite Hi. cbn [mbind option_bind].
    destruct (c_completion c) as [r|] eqn:Hco; [|done]. destruct Hl as [_ Hb].
    by rewrite (proj1 (ok_done _ (wk_cells _ Hok i c Hi)) (ex_intro _ r Hco)) in Hb.
  - intros spec s Hok _ Hst. cbn [ce_start ce_late actor_env].
    set (ws := default [] _). set (i := from_raw _).
    pose proof (start_child_accounted spec ws (sw_world s) Hok) as (Hne & Hi & Hacc). fold i in Hne, Hi, Hacc.
    rewrite (start_child_moves spec ws (sw_world s) Hst). fold i. cbn [sw_world sw_late]. split; [|split; [|split]].
    + split; [by eexists|]. cbn [sw_late]. intros j Hj. destruct (missed _ _ _); [by right|done].
    + intros [_ [d Hd]]. pose proof (spawn_fresh _ (proj1 Hok)) as Hfr. change (actors (sw_world s) !! i = None) in Hfr. congruence.
    + by split.
    + destruct Hacc as [->|?]; [right; left|by left].
  - intros i s _. by apply (sw_le_moves _ _ [MLabel (LShutdown i)]).
  - intros i s _. by apply (sw_le_moves _ _ [MLabel (LKill i)]).
  - intros i s Hok [Hne [c Hi]]. split; [done|]. apply (request_cancels handle_shutdown i s c); [|done].
    intros d. by destruct (cancel_fields (set_requested (Some Shutdown) d)) as (_ & _ & _ & _ & _ & _ & ? & _).
  - intros i s Hok [Hne [c Hi]]. split; [done|]. apply (request_cancels handle_kill i s c); [|done].
    intros d. by destruct (cancel_fields (set_skip_stopped true (set_requested (Some Kill) d)))
      as (_ & _ & _ & _ & _ & _ & ? & _).
  - apply wait_law.
  - intros i d s Hok. simpl. split; [apply sw_le_wait|done].
  - intros s e s' Hok Hr. destruct (recv_law s e s' Hok Hr) as (? & Hl & Hk & ?).
    split_and!; try done; [intros i [? Hi]; split; [done|by apply Hk]|]. intros i. simpl. by rewrite Hl.
  - intros s _. by apply (sw_le_moves _ _ []).
  - intros d s _. apply (sw_le_trans _ _ _ (sw_le_wait s)). by apply (sw_le_moves _ _ []).
Defined.
End moves.
