(* ===== verification/RemoteSpawn.v ===== *)
(** * Spawning and stopping children on other nodes

    Model of the client side of [concurrency/src/cluster/remote_spawn.rs] and
    of [concurrency/src/cluster/supervision_remote.rs]: the wire form of a
    child spec, the correlated spawn request with its retries, and the
    shutdown of a remote child. The transport is a parameter ([RemoteEnv]).
    The wire types are those of [cluster/src/protocol.rs]. *)

From S2P Require Import Prelude Address Errors ChildSpec.

Inductive WireRestartType := WPermanent | WTransient | WTemporary.

Record RemoteSpecOverrides := mkOverrides {
  ov_restart : option WireRestartType;
  ov_pg_scope : option string;
  ov_pg_group : option string
}.

Inductive RemoteSpawnSpec :=
| WorkerSpec (worker_type : string) (init : list Byte.byte)
| NamedSpec (name : string) (overrides : RemoteSpecOverrides).

Inductive SupervisionSignal := SigStop | SigShutdown | SigKill.

Inductive SupervisionEvent :=
| SpawnRequest (parent : ActorAddress) (placement : NodeId) (spec : RemoteSpawnSpec) (link : bool)
| SpawnOk (child : ActorAddress)
| SpawnErr (error : string)
| SignalEv (target : ActorAddress) (signal : SupervisionSignal)
| ChildExit (child parent : ActorAddress) (reason : WireExit.WireExitReason)
| DownEv (owner : ActorAddress) (monitor_ref : N) (child : ActorAddress)
    (reason : WireExit.WireExitReason)
| MonitorEv (owner target : ActorAddress) (monitor_ref : N)
| DemonitorEv (owner target : ActorAddress) (monitor_ref : N)
| LinkEv (a b : ActorAddress)
| UnlinkEv (a b : ActorAddress).

Record SupervisionEnvelope := mkEnvelope { correlation_id : N; event : SupervisionEvent }.

Inductive RemoteSpawnError :=
| TransportErr (msg : string)
| SpawnFailed (msg : string)
| InvalidReply
| PublishNotInstalled
| RequestNotInstalled.

Inductive RemoteShutdownError := SignalErr (msg : string) | WaitTimeout | Interrupted.

Record RemoteChildHandle := mkRemoteHandle { rh_address : ActorAddress; rh_parent : ActorAddress }.

Record RemoteSpawnMeta := mkMeta {
  meta_spec : RemoteSpawnSpec;
  meta_placement : NodeId;
  meta_link : bool
}.

Record RemoteSpawnRetryPolicy := mkRetryPolicy {
  max_attempts : N;
  base_delay : Duration;
  max_delay : Duration
}.
Definition default_retry : RemoteSpawnRetryPolicy :=
  mkRetryPolicy 3 (from_millis 50) (from_secs 2).

Definition KILL_GRACE : Duration := from_millis 100.

(** The installed transport hooks and the waits for a remote exit. *)
Class RemoteEnv (W : Type) := {
  re_correlation : W → N * W;
  re_request : NodeId → SupervisionEnvelope → W → Result SupervisionEnvelope string * W;
  re_publish : SupervisionEnvelope → W → W;
  re_register_wait : ActorId → W → W;
  re_clear_wait : ActorId → W → W;
  re_wait : ActorId → option Duration → W → Result () RemoteShutdownError * W;
  re_sleep : Duration → W → W;
  (** [register_supervision_actor] of the broker *)
  re_register_actor : ActorAddress → W → W
}.

(** ** Specs on the wire *)

Definition restart_to_wire (r : RestartType) : WireRestartType :=
  match r with
  | Permanent => WPermanent
  | Transient => WTransient
  | Temporary => WTemporary
  end.

Definition wire_restart (r : WireRestartType) : RestartType :=
  match r with
  | WPermanent => Permanent
  | WTransient => Transient
  | WTemporary => Temporary
  end.

Section spec.
Context {A : Type}.
Implicit Types spec : ChildSpec A.

Definition overrides_from_spec spec : RemoteSpecOverrides :=
  mkOverrides (Some (restart_to_wire (cs_restart spec)))
    (scope <$> cs_pg_membership spec) (group <$> cs_pg_membership spec).

Definition remote_spawn_spec_from_inner spec : option RemoteSpawnSpec :=
  r ← cs_remote spec;
  Some (match r with
        | Named spec_name => NamedSpec spec_name (overrides_from_spec spec)
        | RemoteWorker worker_type init => WorkerSpec worker_type init
        end).

(** [apply_overrides], on the placement node. *)
Definition apply_overrides (o : RemoteSpecOverrides) spec : ChildSpec A :=
  mkChildSpec (cs_id spec)
    (match ov_restart o with Some r => wire_restart r | None => cs_restart spec end)
    (cs_shutdown spec) (cs_child_type spec) (cs_mailbox spec) (cs_backoff spec)
    (match ov_pg_scope o, ov_pg_group o with
     | Some s, Some g => Some (mkPgMembership s g)
     | _, _ => cs_pg_membership spec
     end)
    (cs_start spec) (cs_placement spec) (cs_remote spec).
End spec.

(** The overrides a parent sends carry its restart policy and group over
    the wire: applied to the spec registered on the placement node they give
    the parent's restart type, and the parent's process group when it has
    one, and change nothing else. *)
Theorem overrides_roundtrip {A} (parent child : ChildSpec A) :
  let spec := apply_overrides (overrides_from_spec parent) child in
  cs_restart spec = cs_restart parent ∧
  cs_pg_membership spec =
    match cs_pg_membership parent with Some m => Some m | None => cs_pg_membership child end ∧
  cs_id spec = cs_id child ∧ cs_shutdown spec = cs_shutdown child ∧
  cs_child_type spec = cs_child_type child ∧ cs_mailbox spec = cs_mailbox child ∧
  cs_backoff spec = cs_backoff child ∧ cs_start spec = cs_start child ∧
  cs_placement spec = cs_placement child ∧ cs_remote spec = cs_remote child.
Proof.
  destruct parent as [pid [] psd pct pmb pb [[s g]|] ps ppl pr]; split_and!; reflexivity.
Qed.

(** ** Requests *)

Section client.
Context {W : Type} `{RemoteEnv W}.

(** [request_spawn] *)
Definition request_spawn (placement : NodeId) (parent : ActorAddress) (spec : RemoteSpawnSpec)
    (link : bool) : St W (Result ActorAddress RemoteSpawnError) := λ w,
  let '(cid, w) := re_correlation w in
  let envelope := mkEnvelope cid (SpawnRequest parent placement spec link) in
  let '(reply, w) := re_request placement envelope w in
  (match reply with
   | Err e => Err (TransportErr e)
   | Ok reply =>
       if decide (correlation_id reply ≠ cid) then Err InvalidReply else
       match event reply with
       | SpawnOk child => Ok child
       | SpawnErr error => Err (SpawnFailed error)
       | _ => Err InvalidReply
       end
   end, w).

Definition transport_retry_delay (attempt : Z) (policy : RemoteSpawnRetryPolicy) : Duration :=
  let exp := Z.min (saturating_sub_u32 attempt 1) 16 in
  Z.min (duration_saturating_mul (base_delay policy) (Z.shiftl 1 exp)) (max_delay policy).

Definition is_transport_error (e : RemoteSpawnError) : bool :=
  match e with TransportErr _ => true | _ => false end.

(** The loop of [request_spawn_with_retry_async] and [_blocking]; the fuel
    bounds the rounds. The result comes with the number of the last attempt. *)
Fixpoint retry_loop (fuel : nat) (attempt : N) (placement : NodeId) (parent : ActorAddress)
    (spec : RemoteSpawnSpec) (link : bool) (policy : RemoteSpawnRetryPolicy)
    : St W (option (Result ActorAddress RemoteSpawnError) * N) := λ w,
  match fuel with
  | O => ((None, attempt), w)
  | S fuel =>
      let attempt := (attempt + 1)%N in
      let '(r, w) := request_spawn placement parent spec link w in
      match r with
      | Ok address => ((Some (Ok address), attempt), w)
      | Err e =>
          if is_transport_error e && bool_decide (attempt < max_attempts policy)%N then
            retry_loop fuel attempt placement parent spec link policy
              (re_sleep (transport_retry_delay (Z.of_N attempt) policy) w)
          else ((Some (Err e), attempt), w)
      end
  end.

Definition request_spawn_with_retry (placement : NodeId) (parent : ActorAddress)
    (spec : RemoteSpawnSpec) (link : bool) (policy : RemoteSpawnRetryPolicy)
    : St W (Result ActorAddress RemoteSpawnError) := λ w,
  let '((r, _), w) := retry_loop (S (N.to_nat (max_attempts policy))) 0 placement parent spec link
                        policy w in
  (default (Err InvalidReply) r, w).

(** ** Shutdown of a remote child *)

(** [RemoteChildHandle::signal] *)
Definition remote_handle_signal (s : SupervisionSignal) (remote : RemoteChildHandle) (w : W) : W :=
  re_publish (mkEnvelope 0 (SignalEv (rh_address remote) s)) w.

Definition remote_signal (remote : RemoteChildHandle) (shutdown : ShutdownType) (w : W) : W :=
  remote_handle_signal (match shutdown with BrutalKill => SigKill | _ => SigShutdown end) remote w.

(** [shutdown_remote_and_wait] *)
Definition shutdown_remote_and_wait (remote : RemoteChildHandle) (shutdown : ShutdownType)
    : St W (Result () RemoteShutdownError) := λ w,
  let actor := actor_id (rh_address remote) in
  let w := remote_signal remote shutdown (re_register_wait actor w) in
  let '(result, w) :=
    match shutdown with
    | BrutalKill => re_wait actor (Some KILL_GRACE) w
    | Infinity => re_wait actor None w
    | Timeout duration =>
        let '(r, w) := re_wait actor (Some duration) w in
        match r with
        | Err WaitTimeout =>
            let w := remote_handle_signal SigKill remote w in
            let w := re_register_wait actor (re_clear_wait actor w) in
            re_wait actor (Some KILL_GRACE) w
        | _ => (r, w)
        end
    end in
  (result, re_clear_wait actor w).

(** [run_shutdown_policy_blocking] and [shutdown_remote_and_wait_blocking] *)
Definition shutdown_remote_and_wait_blocking (remote : RemoteChildHandle) (shutdown : ShutdownType)
    : St W (Result () RemoteShutdownError) := λ w,
  let actor := actor_id (rh_address remote) in
  let w := re_register_wait actor w in
  let '(result, w) :=
    match shutdown with
    | BrutalKill => re_wait actor (Some KILL_GRACE) (remote_handle_signal SigKill remote w)
    | Infinity => re_wait actor None (remote_handle_signal SigShutdown remote w)
    | Timeout duration =>
        let '(r, w) := re_wait actor (Some duration) (remote_handle_signal SigShutdown remote w) in
        match r with
        | Err _ => re_wait actor (Some KILL_GRACE) (remote_handle_signal SigKill remote w)
        | Ok _ => (Ok (), w)
        end
    end in
  (result, re_clear_wait actor w).

(** Enough fuel: with [max_attempts - attempt] rounds and one more the loop
    returns. *)
Lemma retry_loop_total fuel attempt placement parent spec link policy w :
  (max_attempts policy ≤ attempt + N.of_nat fuel)%N →
  ∃ r n w', retry_loop (S fuel) attempt placement parent spec link policy w = ((Some r, n), w') ∧
    (attempt < n ≤ N.max (attempt + 1) (max_attempts policy))%N ∧
    (∀ msg, r = Err (TransportErr msg) → n = N.max (attempt + 1) (max_attempts policy)).
Proof.
  revert attempt w. induction fuel as [|fuel IH]; intros attempt w Hf; cbn [retry_loop];
    destruct (request_spawn placement parent spec link w) as [[a|e] w1].
  - eexists _, _, _. split; [done|]. split; [lia|done].
  - rewrite bool_decide_eq_false_2 by lia. rewrite andb_false_r.
    eexists _, _, _. split; [done|]. split; lia.
  - eexists _, _, _. split; [done|]. split; [lia|done].
  - destruct (is_transport_error e) eqn:He; simpl.
    + case_bool_decide as Hlt.
      * destruct (IH (attempt + 1)%N
          (re_sleep (transport_retry_delay (Z.of_N (attempt + 1)) policy) w1) ltac:(lia))
          as (r & n & w' & Heq & Hn & Hx).
        cbn [retry_loop] in Heq. rewrite Heq. eexists _, _, _. split; [done|].
        split; [lia|]. intros msg Hr. rewrite (Hx msg Hr). lia.
      * eexists _, _, _. split; [done|]. split; lia.
    + eexists _, _, _. split; [done|]. split; [lia|]. intros msg [= ->]. done.
Qed.

End client.

(** A remote spawn request always returns, after at least one and at most
    [max 1 max_attempts] attempts; it reports a transport error only after
    the last allowed attempt, and any other answer at once. *)
Theorem request_spawn_retry_bounded {W} `{RemoteEnv W} placement parent spec link policy (w : W) :
  ∃ r n w', retry_loop (S (N.to_nat (max_attempts policy))) 0 placement parent spec link policy w =
      ((Some r, n), w') ∧
    request_spawn_with_retry placement parent spec link policy w = (r, w') ∧
    (1 ≤ n ≤ N.max 1 (max_attempts policy))%N ∧
    (∀ msg, r = Err (TransportErr msg) → n = N.max 1 (max_attempts policy)).
Proof.
  destruct (retry_loop_total (N.to_nat (max_attempts policy)) 0 placement parent spec link policy w)
    as (r & n & w' & Heq & Hn & Hx); [lia|].
  exists r, n, w'. unfold request_spawn_with_retry. rewrite Heq. split_and!; try done; lia.
Qed.
