(* ===== verification/Supervisor.v ===== *)
(** * The static supervisor

    Model of [concurrency/src/tasks/supervisor.rs] and of
    [concurrency/src/threads/supervisor.rs], whose text differs only in the
    blocking form of the calls; [rt] selects the form of the remote shutdown,
    the one call whose two forms behave differently. The actors the
    supervisor starts, its mailbox and the clock are the interface [ChildEnv];
    other nodes are the interface [RemoteEnv]. Observability calls are left
    out. *)

From S2P Require Import Prelude Address Errors Mailbox ChildSpec SupervisorLogic Handles RemoteSpawn.

Record SupervisorBuilder (A : Type) := mkBuilder {
  b_strategy : SupervisorStrategy;
  b_intensity : RestartIntensity;
  b_specs : list (ChildSpec A)
}.
Arguments mkBuilder {A}. Arguments b_strategy {A}. Arguments b_intensity {A}. Arguments b_specs {A}.

Record Supervisor (A : Type) := mkSupervisor {
  logic : SupervisorLogic;
  specs : list (ChildSpec A);
  handles : gmap string ActorId;
  remote_handles : gmap string RemoteChildHandle;
  remote_spawn_meta : gmap string RemoteSpawnMeta;
  remote_actor_to_id : gmap ActorId string
}.
Arguments mkSupervisor {A}. Arguments logic {A}. Arguments specs {A}. Arguments handles {A}.
Arguments remote_handles {A}. Arguments remote_spawn_meta {A}. Arguments remote_actor_to_id {A}.

Section builder.
Context {A : Type}.
Definition builder_new : SupervisorBuilder A := mkBuilder OneForOne default_intensity [].
Definition builder_strategy s (b : SupervisorBuilder A) : SupervisorBuilder A :=
  mkBuilder s (b_intensity b) (b_specs b).
Definition builder_intensity i (b : SupervisorBuilder A) : SupervisorBuilder A :=
  mkBuilder (b_strategy b) i (b_specs b).
Definition builder_child spec (b : SupervisorBuilder A) : SupervisorBuilder A :=
  mkBuilder (b_strategy b) (b_intensity b) (b_specs b ++ [spec]).
(** [SupervisorBuilder::start]: the initial state of the actor. *)
Definition builder_start (b : SupervisorBuilder A) : Supervisor A :=
  mkSupervisor (logic_new (b_strategy b) (b_intensity b)) (b_specs b) ∅ ∅ ∅ ∅.
End builder.

Section supervisor.
Context {A W : Type} `{ThisNode} `{ChildEnv A W} `{RemoteEnv W}.
Context (rt : MailboxRuntime) (me : ActorId).
Implicit Types (s : Supervisor A) (w : W).

Definition set_logic l s : Supervisor A :=
  mkSupervisor l (specs s) (handles s) (remote_handles s) (remote_spawn_meta s)
    (remote_actor_to_id s).
Definition set_handles h s : Supervisor A :=
  mkSupervisor (logic s) (specs s) h (remote_handles s) (remote_spawn_meta s)
    (remote_actor_to_id s).
Definition set_remote rh meta r2i s : Supervisor A :=
  mkSupervisor (logic s) (specs s) (handles s) rh meta r2i.

Definition child_policy (spec : ChildSpec A) (start_index : nat) : ChildPolicy :=
  mkChildPolicy (cs_id spec) (cs_restart spec) start_index.

Definition find_spec (id : string) s : option (ChildSpec A) :=
  iter_find (λ spec, bool_decide (cs_id spec = id)) (specs s).

(** [start_child] *)
Definition start_child (spec : ChildSpec A) (start_index : nat) s w : Supervisor A * W :=
  let '(h, w) := ce_start spec w in
  (set_handles (<[cs_id spec := h]> (handles s))
     (set_logic (register_child (child_policy spec start_index) (mkSlot h true) (logic s)) s), w).

(** [start_child_remote] *)
Definition start_child_remote (spec : ChildSpec A) (start_index : nat) s w : Supervisor A * W :=
  match remote_spawn_spec_from_inner spec, cs_placement spec with
  | None, _ => (s, w)
  | Some _, PLocal => (s, w)
  | Some wire_spec, PRemote placement =>
      let parent := local_addr me in
      let '(r, w) := request_spawn_with_retry placement parent wire_spec true default_retry w in
      match r with
      | Err _ => (s, w)
      | Ok address =>
          (set_remote (<[cs_id spec := mkRemoteHandle address parent]> (remote_handles s))
             (<[cs_id spec := mkMeta wire_spec placement true]> (remote_spawn_meta s))
             (<[actor_id address := cs_id spec]> (remote_actor_to_id s))
             (set_logic (register_child (child_policy spec start_index)
                           (mkSlot (actor_id address) true) (logic s)) s), w)
      end
  end.

(** [restart_remote_child] *)
Definition restart_remote_child (child_id : string) s w : Supervisor A * W :=
  match remote_spawn_meta s !! child_id with
  | None => (s, w)
  | Some meta =>
      let s := set_remote (delete child_id (remote_handles s)) (remote_spawn_meta s)
                 (filter (λ kv, kv.2 ≠ child_id) (remote_actor_to_id s)) s in
      let parent := local_addr me in
      let '(r, w) := request_spawn_with_retry (meta_placement meta) parent (meta_spec meta)
                       (meta_link meta) default_retry w in
      match r with
      | Err _ =>
          (set_remote (remote_handles s) (delete child_id (remote_spawn_meta s))
             (remote_actor_to_id s)
             (set_logic (snd (remove_child_by_id child_id (logic s))) s), w)
      | Ok address =>
          (set_remote (<[child_id := mkRemoteHandle address parent]> (remote_handles s))
             (remote_spawn_meta s) (<[actor_id address := child_id]> (remote_actor_to_id s))
             (set_logic (replace_child_handle child_id (mkSlot (actor_id address) true) (logic s)) s),
           w)
      end
  end.

(** [restart_child] *)
Definition restart_child (child_id : string) s w : Supervisor A * W :=
  match find_spec child_id s with
  | None => (s, w)
  | Some spec =>
      let '(h, w) := ce_start spec w in
      (set_handles (<[child_id := h]> (handles s))
         (set_logic (replace_child_handle child_id (mkSlot h true) (logic s)) s), w)
  end.

Definition shutdown_for (id : string) s : ShutdownType :=
  match find_spec id s with Some spec => cs_shutdown spec | None => Infinity end.

(** [shutdown_remote_and_wait] in the tasks runtime, its blocking form in the
    threads runtime. *)
Definition remote_shutdown (remote : RemoteChildHandle) (sd : ShutdownType) (w : W) : W :=
  snd (match rt with
       | Tasks => shutdown_remote_and_wait remote sd w
       | Threads => shutdown_remote_and_wait_blocking remote sd w
       end).

(** One iteration of [terminate_children]. *)
Definition terminate_one (id : string) s w : Supervisor A * W :=
  let shutdown := shutdown_for id s in
  match remote_handles s !! id with
  | Some remote =>
      if is_child_alive id (logic s) then
        (set_logic (mark_child_dead (actor_id (rh_address remote)) (logic s)) s,
         remote_shutdown remote shutdown w)
      else (s, w)
  | None =>
      match handles s !! id with
      | Some h => (set_logic (mark_child_dead h (logic s)) s, snd (shutdown_child h shutdown w))
      | None => (s, w)
      end
  end.

(** [terminate_children] *)
Fixpoint terminate_children (ids : list string) s w : Supervisor A * W :=
  match ids with
  | [] => (s, w)
  | id :: ids => let '(s, w) := terminate_one id s w in terminate_children ids s w
  end.

Definition backoff_for (child_id : string) s : RestartBackoff :=
  match find_spec child_id s with Some spec => cs_backoff spec | None => default_backoff end.

(** [restart_child_with_backoff] *)
Definition restart_child_with_backoff (child_id : string) s w : Supervisor A * W :=
  let '(delay, l) := backoff_delay child_id (backoff_for child_id s) (logic s) in
  let s := set_logic l s in
  let w := if decide (delay = 0%Z) then w else ce_sleep delay w in
  if bool_decide (is_Some (remote_spawn_meta s !! child_id))
  then restart_remote_child child_id s w
  else restart_child child_id s w.

Fixpoint restart_all (ids : list string) s w : Supervisor A * W :=
  match ids with
  | [] => (s, w)
  | id :: ids => let '(s, w) := restart_child_with_backoff id s w in restart_all ids s w
  end.

(** [maybe_complete_batch_restart]: remote children first. *)
Definition maybe_complete_batch_restart s w : Supervisor A * W :=
  if negb (pending_batch_restart_complete (logic s)) then (s, w) else
  match take_pending_restart_ids (logic s) with
  | (None, l) => (set_logic l s, w)
  | (Some ids, l) =>
      let s := set_logic l s in
      let is_rem id := bool_decide (is_Some (remote_spawn_meta s !! id)) in
      let '(s, w) := restart_all (iter_filter is_rem ids) s w in
      restart_all (iter_filter (λ id, negb (is_rem id)) ids) s w
  end.

(** [handle_exit] *)
Definition handle_exit (e : Exit) s w : Supervisor A * W :=
  let a := actor_id (from e) in
  if suppress_restarts (logic s) then
    maybe_complete_batch_restart (set_logic (note_exit_during_batch a (logic s)) s) w
  else
    let '(now, w) := ce_now w in
    let '(act, l) := on_child_exit a (reason e) now (logic s) in
    let s := set_logic l s in
    match act with
    | Ignore => (s, w)
    | RestartOne id => restart_child_with_backoff id s w
    | TerminateBatch ids =>
        let '(s, w) := terminate_children ids s w in
        maybe_complete_batch_restart s w
    | Meltdown => (s, ce_stop_self w)
    end.

(** What [handle_exit] decides on, for statements about it. *)
Definition exit_action (e : Exit) s w : SupervisorAction :=
  if suppress_restarts (logic s) then Ignore
  else fst (on_child_exit (actor_id (from e)) (reason e) (fst (ce_now w)) (logic s)).

Fixpoint start_specs (index : nat) (l : list (ChildSpec A)) s w : Supervisor A * W :=
  match l with
  | [] => (s, w)
  | spec :: l =>
      let '(s, w) := if is_remote spec then start_child_remote spec index s w
                     else start_child spec index s w in
      start_specs (S index) l s w
  end.

(** [Actor::started] *)
Definition started s w : Supervisor A * W :=
  let w := re_register_actor (local_addr me) (ce_trap_exit w) in
  start_specs 0 (specs s) s w.

(** One iteration of the loop of [Actor::stopped]. *)
Definition stop_one (id : string) s w : W :=
  let shutdown := shutdown_for id s in
  let w := match handles s !! id with
           | Some h => snd (shutdown_child h shutdown w)
           | None => w
           end in
  match remote_handles s !! id with
  | Some remote => remote_shutdown remote shutdown w
  | None => w
  end.

(** [Actor::stopped] *)
Definition stopped s w : Supervisor A * W :=
  let s := set_logic (set_suppress_restarts true (logic s)) s in
  let w := foldl (λ w id, stop_one id s w) w (shutdown_order (logic s)) in
  (mkSupervisor (logic s) (specs s) ∅ ∅ ∅ ∅, w).

End supervisor.

(** ** The guarantee of a supervisor with local children *)

Section guarantee.
Context {A W : Type} `{ChildLaws A W} `{RemoteEnv W}.
Context (rt : MailboxRuntime) (me : ActorId).
Implicit Types (s : Supervisor A) (w : W) (ps : list (ChildSpec A)).

(** Unique ids, every spec started on this node. *)
Definition local_specs ps : Prop :=
  NoDup (cs_id <$> ps) ∧
  ∀ spec, spec ∈ ps → is_remote spec = false ∧ cs_start spec ≠ UnreachableStart.

Definition policies_of ps : list ChildPolicy := imap (λ i spec, child_policy spec i) ps.

(** [ps] are the specs started so far, [X] the children being restarted, [h]
    the exits handled so far. *)
Record sup_inv ps (X : list string) (h : list Exit) s w : Prop := {
  si_ok : cl_ok w;
  si_wf : wf (logic s);
  si_policies : policy <$> children (logic s) = policies_of ps;
  si_handles : ∀ c, c ∈ children (logic s) → ∃ slot, handle c = Some slot ∧
    handles s !! cp_id (policy c) = Some (slot_id slot) ∧ cl_known w (slot_id slot);
  si_slots : ∀ c d sc sd, c ∈ children (logic s) → d ∈ children (logic s) →
    handle c = Some sc → handle d = Some sd → slot_id sc = slot_id sd →
    cp_id (policy c) = cp_id (policy d);
  si_alive : ∀ c a, c ∈ children (logic s) → slot_is_alive a c = true → watched w a;
  si_dead : ∀ c, c ∈ children (logic s) → slot_alive c = false →
    cp_id (policy c) ∈ X ∨ ∃ e slot, e ∈ h ∧ handle c = Some slot ∧
      actor_id (from e) = slot_id slot ∧
      should_restart (cp_restart (policy c)) (reason e) = false;
  si_remote : remote_handles s = ∅ ∧ remote_spawn_meta s = ∅
}.

Definition quiet s : Prop :=
  suppress_restarts (logic s) = false ∧ pending_batch_restart (logic s) = None.

Lemma sup_inv_le ps X h s w w' : cl_le w w' → sup_inv ps X h s w → sup_inv ps X h s w'.
Proof.
  intros Hle [Hok Hwf Hp Hh Hsl Ha Hd Hr]. split; try done.
  - exact (cl_le_ok _ _ Hle Hok).
  - intros c Hc. destruct (Hh c Hc) as (slot & ? & ? & Hk). exists slot.
    split_and!; try done. exact (cl_le_known _ _ _ Hok Hle Hk).
  - intros c a Hc Hs. exact (watched_le _ _ _ Hok Hle (Ha c a Hc Hs)).
Qed.

(** Only the children matter. *)
Lemma sup_inv_logic ps X h s w l :
  children l = children (logic s) → sup_inv ps X h s w → sup_inv ps X h (set_logic l s) w.
Proof.
  intros He [Hok Hwf Hp Hh Hsl Ha Hd Hr]. split; simpl; rewrite ?He; try done.
  by apply (wf_same_children (logic s)).
Qed.

Lemma sup_inv_mono ps X X' h h' s w :
  X ⊆ X' → h ⊆ h' → sup_inv ps X h s w → sup_inv ps X' h' s w.
Proof.
  intros HX Hhh [Hok Hwf Hp Hh Hsl Ha Hd Hr]. split; try done.
  intros c Hc Hs. destruct (Hd c Hc Hs) as [?|(e & slot & ? & ? & ? & ?)]; [by left; apply HX|].
  right. exists e, slot. split_and!; auto.
Qed.

(** Marking the actor [a] dead; the world may have lost track of [a] only. *)
Lemma sup_inv_mark ps X X' h h' s w w' a :
  sup_inv ps X h s w → cl_ok w' → (∀ i, cl_known w i → cl_known w' i) →
  (∀ i, watched w i → i ≠ a → watched w' i) → X ⊆ X' → h ⊆ h' →
  (∀ c, c ∈ children (logic s) → slot_is_alive a c = true →
     cp_id (policy c) ∈ X' ∨ ∃ e, e ∈ h' ∧ actor_id (from e) = a ∧
       should_restart (cp_restart (policy c)) (reason e) = false) →
  sup_inv ps X' h' (set_logic (mark_child_dead a (logic s)) s) w'.
Proof.
  intros [Hok Hwf Hp Hh Hsl Ha Hd Hr] Hok' Hkn Hacc HX Hhh Hnew.
  split; simpl; try done.
  - by apply wf_mark_child_dead.
  - by rewrite mark_child_dead_policies.
  - intros c (d & Hdin & ->)%elem_of_marked; [|done].
    destruct (Hh d Hdin) as (slot & Hs & Hhd & Hk).
    destruct (slot_is_alive a d); [|exists slot; split_and!; auto].
    exists (mkSlot (slot_id slot) false). simpl. rewrite Hs. split_and!; auto.
  - intros c d sc sd (c0 & Hc0 & ->)%elem_of_marked (d0 & Hd0 & ->)%elem_of_marked; [|done..].
    assert (∀ (b : bool) c (sl : ChildHandleSlot), handle (if b then kill_slot c else c) = Some sl →
      policy (if b then kill_slot c else c) = policy c ∧
      ∃ sl0, handle c = Some sl0 ∧ slot_id sl0 = slot_id sl) as Hks.
    { intros [] c sl; simpl; [|eauto]. intros (s0 & -> & ->)%fmap_Some. eauto. }
    intros Hc Hd'. apply Hks in Hc as (-> & sc0 & Hsc0 & <-), Hd' as (-> & sd0 & Hsd0 & <-). eauto.
  - intros c b (d & Hdin & ->)%elem_of_marked; [|done]. intros Hb.
    destruct (slot_is_alive a d) eqn:Had; [by rewrite slot_is_alive_kill in Hb|].
    apply Hacc; [by apply (Ha d)|]. intros ->. congruence.
  - intros c (d & Hdin & ->)%elem_of_marked Hsa; [|done].
    destruct (Hh d Hdin) as (slot & Hs & _).
    destruct (slot_is_alive a d) eqn:Had.
    + simpl. destruct (Hnew d Hdin Had) as [?|(e & He & Hae & Hsr)]; [by left|]. right.
      exists e, (mkSlot (slot_id slot) false). rewrite Hs. split_and!; try done. simpl.
      rewrite Hae. symmetry. by apply (slot_is_alive_slot_id a d).
    + destruct (Hd d Hdin Hsa) as [?|(e & sl & ? & ? & ? & ?)]; [left; by apply HX|].
      right. exists e, sl. split_and!; auto.
Qed.

(** *** Restarting *)

Lemma find_spec_elem id s spec :
  find_spec id s = Some spec → spec ∈ specs s ∧ cs_id spec = id.
Proof. intros [Hin Hb]%iter_find_Some. split; [done|]. by bool_simpl. Qed.

Lemma find_spec_is_Some id s : id ∈ (cs_id <$> specs s) → is_Some (find_spec id s).
Proof.
  intros (spec & -> & Hin)%list_elem_of_fmap.
  destruct (find_spec (cs_id spec) s) as [sp|] eqn:Hf; [by eexists|].
  unfold find_spec in Hf. rewrite iter_find_None in Hf. specialize (Hf spec Hin). by bool_simpl.
Qed.

Lemma sup_inv_replace ps X h s w w' id i :
  cl_le w w' → ¬ cl_known w i → cl_known w' i → watched w' i →
  sup_inv ps (id :: X) h s w →
  sup_inv ps X h (set_handles (<[id := i]> (handles s))
    (set_logic (replace_child_handle id (mkSlot i true) (logic s)) s)) w'.
Proof.
  intros Hle Hnk Hk Hacc Hinv.
  assert (fresh_actor i (logic s)) as Hfresh.
  { intros c Hc. apply not_true_iff_false. intros Ha.
    destruct (si_handles _ _ _ _ _ Hinv c Hc) as (slot & Hs & _ & Hkn).
    rewrite (slot_is_alive_slot_id i c slot Hs Ha) in Hkn. done. }
  pose proof (si_handles _ _ _ _ _ Hinv) as Hold.
  apply (sup_inv_le _ _ _ _ _ _ Hle) in Hinv. destruct Hinv as [Hok Hwf Hp Hh Hsl Ha Hd Hr].
  split; cbn [logic handles remote_handles remote_spawn_meta set_handles set_logic]; try done.
  - by apply wf_replace.
  - rewrite <- Hp. apply (fmap_modify_first policy). done.
  - intros c (d & Hdin & ->)%elem_of_replaced; [|done].
    destruct (has_id id d) eqn:Hid; unfold has_id in Hid; bool_simpl; simpl.
    + exists (mkSlot i true). rewrite Hid, lookup_insert_eq. done.
    + destruct (Hh d Hdin) as (slot & Hs & Hhd & Hkn). exists slot.
      rewrite lookup_insert_ne by done. done.
  - intros c d sc sd (c0 & Hc0 & ->)%elem_of_replaced (d0 & Hd0 & ->)%elem_of_replaced; [|done..].
    assert (∀ c0 sc, c0 ∈ children (logic s) → handle c0 = Some sc → slot_id sc ≠ i) as Hni.
    { intros x sx Hx Hsx <-. destruct (Hold x Hx) as (sl & Hsl' & _ & Hkn). congruence. }
    destruct (has_id id c0) eqn:Hc, (has_id id d0) eqn:Hd'; unfold has_id in *; bool_simpl; simpl.
    + by rewrite Hc, Hd'.
    + intros [= <-] Hsd He. by destruct (Hni d0 sd).
    + intros Hsc [= <-] He. by destruct (Hni c0 sc).
    + eauto.
  - intros c a (d & Hdin & ->)%elem_of_replaced; [|done].
    destruct (has_id id d); [|by apply Ha]. intros Hs. apply slot_is_alive_inv in Hs.
    by injection Hs as <-.
  - intros c (d & Hdin & ->)%elem_of_replaced Hs; [|done].
    destruct (has_id id d) eqn:Hid; [done|].
    destruct (Hd d Hdin Hs) as [[?|?]%elem_of_cons|?]; [|by left|by right].
    unfold has_id in Hid. by bool_simpl.
Qed.

Lemma restart_inv ps X h s w id :
  specs s = ps → local_specs ps → id ∈ (cs_id <$> ps) → sup_inv ps (id :: X) h s w →
  let '(s', w') := restart_child_with_backoff me id s w in
  sup_inv ps X h s' w' ∧ specs s' = ps ∧ cl_le w w' ∧
  suppress_restarts (logic s') = suppress_restarts (logic s) ∧
  pending_batch_restart (logic s') = pending_batch_restart (logic s).
Proof.
  intros Hsp [Hnd Hloc] Hid Hinv. unfold restart_child_with_backoff.
  pose proof (backoff_delay_keeps id (backoff_for id s) (logic s)) as Hk.
  destruct (backoff_delay id (backoff_for id s) (logic s)) as [delay l]. destruct Hk as (Hc & Hsu & Hpe & _).
  set (w1 := if decide (delay = 0%Z) then w else ce_sleep delay w).
  assert (cl_le w w1) as Hle.
  { unfold w1. case_decide; [apply cl_le_refl|]. apply cl_sleep. apply (si_ok _ _ _ _ _ Hinv). }
  pose proof (sup_inv_le _ _ _ _ _ _ Hle (sup_inv_logic _ _ _ _ _ l Hc Hinv)) as Hinv1.
  clearbody w1. rewrite bool_decide_eq_false_2; [|].
  2:{ simpl. rewrite (proj2 (si_remote _ _ _ _ _ Hinv)), lookup_empty. by intros []. }
  unfold restart_child. destruct (find_spec id (set_logic l s)) as [spec|] eqn:Hf.
  - pose proof (find_spec_elem _ _ _ Hf) as [Hin Hide]. simpl in Hin. rewrite Hsp in Hin.
    destruct (Hloc spec Hin) as [Hrem Hst].
    pose proof (cl_start spec w1 (si_ok _ _ _ _ _ Hinv1) Hrem Hst) as Hstart.
    destruct (ce_start spec w1) as [i w2]. destruct Hstart as (Hle2 & Hnk & Hk & Hacc).
    split_and!; try done; [by apply (sup_inv_replace ps X h (set_logic l s) w1)|].
    exact (cl_le_trans _ _ _ Hle Hle2).
  - rewrite <- Hsp in Hid. destruct (find_spec_is_Some id s Hid) as [sp Hsome].
    unfold find_spec in *. simpl in Hf. congruence.
Qed.

Lemma restart_all_inv ps X h ids s w :
  specs s = ps → local_specs ps → (∀ id, id ∈ ids → id ∈ (cs_id <$> ps)) →
  sup_inv ps (ids ++ X) h s w →
  let '(s', w') := restart_all me ids s w in
  sup_inv ps X h s' w' ∧ specs s' = ps ∧ cl_le w w' ∧
  suppress_restarts (logic s') = suppress_restarts (logic s) ∧
  pending_batch_restart (logic s') = pending_batch_restart (logic s).
Proof.
  intros Hsp Hloc. revert s w Hsp. induction ids as [|id ids IH]; intros s w Hsp Hids Hinv; simpl.
  { split_and!; try done. apply cl_le_refl. }
  pose proof (restart_inv ps (ids ++ X) h s w id Hsp Hloc (Hids id ltac:(left)) Hinv) as Hr.
  destruct (restart_child_with_backoff me id s w) as [s1 w1].
  destruct Hr as (Hinv1 & Hsp1 & Hle1 & Hs1 & Hp1).
  specialize (IH s1 w1 Hsp1 ltac:(intros; apply Hids; by right) Hinv1).
  destruct (restart_all me ids s1 w1) as [s2 w2]. destruct IH as (Hinv2 & Hsp2 & Hle2 & Hs2 & Hp2).
  split_and!; try done; try congruence. exact (cl_le_trans _ _ _ Hle1 Hle2).
Qed.

(** *** Terminating *)

Lemma policies_ids ps : cp_id <$> policies_of ps = cs_id <$> ps.
Proof.
  unfold policies_of. rewrite fmap_imap. apply list_eq. intros i.
  rewrite list_lookup_imap, list_lookup_fmap. by destruct (ps !! i).
Qed.

Lemma child_of_id ps X h s w id :
  sup_inv ps X h s w → id ∈ (cs_id <$> ps) ↔ ∃ c, c ∈ children (logic s) ∧ cp_id (policy c) = id.
Proof.
  intros Hinv. rewrite <- policies_ids, <- (si_policies _ _ _ _ _ Hinv).
  rewrite <- list_fmap_compose, list_elem_of_fmap. naive_solver.
Qed.

Lemma aligned_inv ps X h s w : sup_inv ps X h s w → aligned (logic s).
Proof.
  intros Hinv i c Hc.
  assert ((policy <$> children (logic s)) !! i = Some (policy c)) as Hp
    by (by rewrite list_lookup_fmap, Hc).
  rewrite (si_policies _ _ _ _ _ Hinv) in Hp. unfold policies_of in Hp.
  apply list_lookup_imap_Some in Hp as (spec & _ & ->). done.
Qed.

Record terminated (ids : list string) ps X h s w s' w' : Prop := {
  tm_inv : sup_inv ps X h s' w';
  tm_specs : specs s' = specs s;
  tm_le : cl_le w w';
  tm_batch : same_batch (logic s) (logic s');
  tm_strategy : strategy (logic s') = strategy (logic s);
  tm_dead : ∀ c, c ∈ children (logic s') → slot_alive c = true →
    c ∈ children (logic s) ∧ cp_id (policy c) ∉ ids
}.

Lemma mark_child_dead_strategy a l : strategy (mark_child_dead a l) = strategy l.
Proof. unfold mark_child_dead. by destruct (child_index_by_actor a l). Qed.

Lemma terminate_one_inv ps X h id s w :
  id ∈ (cs_id <$> ps) → id ∈ X → sup_inv ps X h s w →
  let '(s', w') := terminate_one rt id s w in terminated [id] ps X h s w s' w'.
Proof.
  intros Hps HX Hinv. unfold terminate_one.
  rewrite (proj1 (si_remote _ _ _ _ _ Hinv)), lookup_empty.
  apply (child_of_id _ _ _ _ _ _ Hinv) in Hps as (d & Hd & Hide).
  destruct (si_handles _ _ _ _ _ Hinv d Hd) as (slot & Hs & Hh & Hk). rewrite Hide in Hh. rewrite Hh.
  pose proof (shutdown_child_le_exited (slot_id slot) (shutdown_for id s) w
    (si_ok _ _ _ _ _ Hinv) Hk) as Hsd.
  destruct (shutdown_child (slot_id slot) (shutdown_for id s) w) as [r w']. destruct Hsd as [Hle _].
  split; simpl; try done.
  - apply (sup_inv_mark ps X X h h s w); try done.
    + exact (cl_le_ok _ _ Hle (si_ok _ _ _ _ _ Hinv)).
    + intros i Hi. exact (cl_le_known _ _ _ (si_ok _ _ _ _ _ Hinv) Hle Hi).
    + intros i Hi _. exact (watched_le _ _ _ (si_ok _ _ _ _ _ Hinv) Hle Hi).
    + intros c Hc Ha. left. apply slot_is_alive_inv in Ha.
      by rewrite (si_slots _ _ _ _ _ Hinv c d _ slot Hc Hd Ha Hs), Hide.
  - split; [apply mark_child_dead_policies|..];
      unfold mark_child_dead; by destruct (child_index_by_actor _ _).
  - apply mark_child_dead_strategy.
  - intros c (c0 & Hc0 & ->)%elem_of_marked Ha; [|apply (si_wf _ _ _ _ _ Hinv)].
    apply slot_alive_iff in Ha as [b Hb].
    destruct (slot_is_alive (slot_id slot) c0) eqn:Hal; [by rewrite slot_is_alive_kill in Hb|].
    split; [done|]. rewrite list_elem_of_singleton. intros Hid.
    destruct (si_handles _ _ _ _ _ Hinv c0 Hc0) as (sl & Hsl & Hhc & _).
    rewrite Hid, Hh in Hhc. injection Hhc as Heq.
    rewrite <- (slot_is_alive_slot_id b c0 sl Hsl Hb) in Hb. congruence.
Qed.

Lemma terminate_children_inv ps X h ids s w :
  (∀ id, id ∈ ids → id ∈ (cs_id <$> ps) ∧ id ∈ X) → sup_inv ps X h s w →
  let '(s', w') := terminate_children rt ids s w in terminated ids ps X h s w s' w'.
Proof.
  revert s w. induction ids as [|id ids IH]; intros s w Hids Hinv; simpl.
  { split; try done; [apply cl_le_refl|]. intros c Hc _. split; [done|apply not_elem_of_nil]. }
  destruct (Hids id ltac:(left)) as [Hp HX].
  pose proof (terminate_one_inv ps X h id s w Hp HX Hinv) as Ht1.
  destruct (terminate_one rt id s w) as [s1 w1]. destruct Ht1 as [Hi1 Hs1 Hle1 [Hb1 Hb1' Hb1''] Hst1 Hd1].
  specialize (IH s1 w1 ltac:(intros; apply Hids; by right) Hi1).
  destruct (terminate_children rt ids s1 w1) as [s2 w2].
  destruct IH as [Hi2 Hs2 Hle2 [Hb2 Hb2' Hb2''] Hst2 Hd2].
  split; try done; try congruence.
  - exact (cl_le_trans _ _ _ Hle1 Hle2).
  - split; congruence.
  - intros c Hc Ha. destruct (Hd2 c Hc Ha) as [Hc1 Hni]. destruct (Hd1 c Hc1 Ha) as [Hc0 Hni0].
    split; [done|]. rewrite elem_of_cons. rewrite list_elem_of_singleton in Hni0. naive_solver.
Qed.

(** *** Completing a batch *)

Lemma maybe_complete_inv ps h pending s w :
  specs s = ps → local_specs ps → pending_batch_restart (logic s) = Some pending →
  (∀ i, pending = FromIndex i → i < length ps) →
  sup_inv ps (batch_ids pending (children (logic s))) h s w →
  (∀ c, c ∈ children (logic s) → slot_alive c = true →
     cp_id (policy c) ∉ batch_ids pending (children (logic s))) →
  let '(s', w') := maybe_complete_batch_restart me s w in
  sup_inv ps [] h s' w' ∧ specs s' = ps ∧ quiet s' ∧ cl_le w w'.
Proof.
  intros Hsp Hloc Hp Hi Hinv Hdead. unfold maybe_complete_batch_restart.
  pose proof (f_equal length (si_policies _ _ _ _ _ Hinv)) as Hlen.
  unfold policies_of in Hlen. rewrite length_fmap, length_imap in Hlen.
  assert (pending_batch_restart_complete (logic s) = true) as Hcomp.
  { apply (complete_iff (logic s) pending Hp).
    - intros i ->. split; [by eapply aligned_inv|]. rewrite Hlen. by apply Hi.
    - intros c Hc Ht. apply not_true_iff_false. intros Ha. apply (Hdead c Hc Ha).
      by apply (elem_of_batch_ids pending (logic s) c (wf_ids _ (si_wf _ _ _ _ _ Hinv)) Hc). }
  rewrite Hcomp. simpl. unfold take_pending_restart_ids. rewrite Hp.
  set (ids := batch_ids pending (children (logic s))) in *.
  set (s1 := set_logic _ s).
  assert (sup_inv ps (ids ++ []) h s1 w) as Hinv1 by (rewrite app_nil_r; by apply sup_inv_logic).
  assert (∀ id, id ∈ ids → id ∈ (cs_id <$> ps)) as Hids.
  { intros id Hid. unfold ids in Hid. rewrite batch_ids_policies in Hid.
    apply list_elem_of_fmap in Hid as (p & -> & [Hpin _]%elem_of_iter_filter).
    rewrite <- policies_ids, <- (si_policies _ _ _ _ _ Hinv). by apply list_elem_of_fmap_2. }
  assert (∀ id, remote_spawn_meta s1 !! id = None) as Hnone.
  { intros id. simpl. by rewrite (proj2 (si_remote _ _ _ _ _ Hinv)), lookup_empty. }
  rewrite iter_filter_none; [|intros id _; apply bool_decide_eq_false; rewrite Hnone; by intros []].
  cbn [restart_all]. rewrite iter_filter_all;
    [|intros id _; rewrite bool_decide_eq_false_2; [done|rewrite Hnone; by intros []]].
  pose proof (restart_all_inv ps [] h ids s1 w Hsp Hloc Hids Hinv1) as Hr.
  destruct (restart_all me ids s1 w) as [s' w']. destruct Hr as (? & ? & ? & Hsu & Hpe).
  by split_and!.
Qed.

(** *** Handling an exit *)

(** The targets of a batch are children, and the dead one is among them. *)
Lemma batch_targets ps X h s w a r now ids l :
  sup_inv ps X h s w → on_child_exit a r now (logic s) = (TerminateBatch ids, l) →
  ∃ pending, pending_batch_restart l = Some pending ∧ ids = batch_ids pending (children l) ∧
    (∀ id, id ∈ ids → id ∈ (cs_id <$> ps)) ∧
    (∀ c, c ∈ children (logic s) → slot_is_alive a c = true → cp_id (policy c) ∈ ids) ∧
    (∀ i, pending = FromIndex i → i < length ps).
Proof.
  intros Hinv Hex. apply on_child_exit_batch in Hex
    as (pending & c0 & i0 & Hpend & Hsupl & Hids & Hch & Hc0 & Hac0 & Hstr).
  exists pending. split; [done|]. split; [done|].
  rewrite Hids, batch_ids_policies, Hch, mark_child_dead_policies. split_and!.
  - intros id (p & -> & [Hpin _]%elem_of_iter_filter)%list_elem_of_fmap.
    rewrite <- policies_ids, <- (si_policies _ _ _ _ _ Hinv). by apply list_elem_of_fmap_2.
  - intros c Hc Hac. apply list_elem_of_fmap_2, elem_of_iter_filter.
    split; [by apply list_elem_of_fmap_2|]. assert (c = c0) as ->.
    { apply list_elem_of_lookup in Hc as [j Hj].
      assert (i0 = j) as <- by (by apply (wf_alive _ (si_wf _ _ _ _ _ Hinv) a i0 j c0 c)). congruence. }
    destruct Hstr as [[-> _]|[-> _]]; [|done]. by apply bool_decide_eq_true.
  - intros i ->. destruct Hstr as [[[= ->] _]|[[=] _]].
    rewrite (aligned_inv _ _ _ _ _ Hinv i0 c0 Hc0).
    pose proof (f_equal length (si_policies _ _ _ _ _ Hinv)) as Hlen.
    unfold policies_of in Hlen. rewrite length_fmap, length_imap in Hlen.
    rewrite <- Hlen. by apply lookup_lt_Some in Hc0.
Qed.

(** Taking an exit out of the inbox and marking its child dead leaves the
    children of [X] to be restarted. *)
Lemma sup_inv_exit ps X h s w e w1 w2 l :
  sup_inv ps [] h s w → ce_recv w = Some (e, w1) → cl_le w1 w2 →
  children l = children (mark_child_dead (actor_id (from e)) (logic s)) →
  (∀ c, c ∈ children (logic s) → slot_is_alive (actor_id (from e)) c = true →
     cp_id (policy c) ∈ X ∨ should_restart (cp_restart (policy c)) (reason e) = false) →
  sup_inv ps X (e :: h) (set_logic l s) w2.
Proof.
  intros Hinv Hrecv Hle2 Hch HX.
  destruct (cl_recv w e w1 (si_ok _ _ _ _ _ Hinv) Hrecv) as (Hok1 & Hkn1 & _).
  set (a := actor_id (from e)) in *.
  apply (sup_inv_logic _ _ _ (set_logic (mark_child_dead a (logic s)) s) _ l Hch).
  apply (sup_inv_mark ps [] X h (e :: h) s w w2 a Hinv).
  - exact (cl_le_ok _ _ Hle2 Hok1).
  - intros i Hi. exact (cl_le_known _ _ _ Hok1 Hle2 (Hkn1 i Hi)).
  - intros i Hi Hne. apply (watched_le _ _ _ Hok1 Hle2).
    apply (watched_recv w e w1 i (si_ok _ _ _ _ _ Hinv) Hrecv Hi).
    intros He. apply Hne. unfold a. by rewrite He.
  - by intros x ?%not_elem_of_nil.
  - intros x Hx. by right.
  - intros c Hc Hac. destruct (HX c Hc Hac) as [?|Hr]; [by left|]. right. exists e.
    split_and!; [left|done|done].
Qed.

Lemma handle_exit_inv ps h s w e w1 :
  specs s = ps → local_specs ps → quiet s → sup_inv ps [] h s w → ce_recv w = Some (e, w1) →
  exit_action e s w1 ≠ Meltdown →
  let '(s', w') := handle_exit rt me e s w1 in
  sup_inv ps [] (e :: h) s' w' ∧ specs s' = ps ∧ quiet s'.
Proof.
  intros Hsp Hloc [Hsup Hpen] Hinv Hrecv Hnm.
  destruct (cl_recv w e w1 (si_ok _ _ _ _ _ Hinv) Hrecv) as (Hok1 & Hkn1 & _).
  unfold handle_exit. unfold exit_action in Hnm. rewrite Hsup in *.
  pose proof (cl_now w1 Hok1) as Hle2. destruct (ce_now w1) as [now w2]. simpl in Hle2, Hnm.
  set (a := actor_id (from e)) in *.
  pose proof (on_child_exit_cases a (reason e) now (logic s) Hsup (si_wf _ _ _ _ _ Hinv)) as Hcase.
  pose proof (λ ids l, batch_targets ps [] h s w a (reason e) now ids l Hinv) as Hbatch.
  destruct (on_child_exit a (reason e) now (logic s)) as [act l]. simpl in Hnm.
  destruct Hcase as (Hch & Hact & Hex).
  assert (∀ X, (∀ c, c ∈ children (logic s) → slot_is_alive a c = true →
      cp_id (policy c) ∈ X ∨ should_restart (cp_restart (policy c)) (reason e) = false) →
    sup_inv ps X (e :: h) (set_logic l s) w2) as Hmark
    by (intros X; by apply (sup_inv_exit ps X h s w e w1 w2 l)).
  destruct act as [|id|ids|]; [..|done].
  - destruct Hact as (Hs & Hp & Hno). split_and!; [|done|split; simpl; congruence].
    apply Hmark. intros c Hc Hac. right. by apply Hno.
  - destruct Hact as (Hs & Hp & Hid). destruct Hex as (c0 & Hc0 & Hid0).
    assert (id ∈ (cs_id <$> ps)) as Hin by (apply (child_of_id _ _ _ _ _ _ Hinv); eauto).
    assert (sup_inv ps [id] (e :: h) (set_logic l s) w2) as Hinv2.
    { apply Hmark. intros c Hc Hac. left. rewrite (Hid c Hc Hac). left. }
    pose proof (restart_inv ps [] (e :: h) (set_logic l s) w2 id Hsp Hloc Hin Hinv2) as Hr.
    destruct (restart_child_with_backoff me id (set_logic l s) w2) as [s' w'].
    destruct Hr as (? & ? & _ & Hs' & Hp'). split_and!; try done.
    split; [by rewrite Hs'|rewrite Hp'; simpl; congruence].
  - destruct (Hbatch ids l eq_refl) as (pending & Hpend & Hids & Hin & Hall & Hlt).
    assert (sup_inv ps ids (e :: h) (set_logic l s) w2) as Hinv2.
    { apply Hmark. intros c Hc Hac. left. by apply Hall. }
    pose proof (terminate_children_inv ps ids (e :: h) ids (set_logic l s) w2
      ltac:(intros; split; auto) Hinv2) as Ht.
    destruct (terminate_children rt ids (set_logic l s) w2) as [s3 w3].
    destruct Ht as [Hinv3 Hsp3 Hle3 [Hb1 Hb2 Hb3] _ Hdead3]. simpl in *.
    assert (ids = batch_ids pending (children (logic s3))) as Hids3
      by (by rewrite Hids, !batch_ids_policies, Hb1).
    pose proof (maybe_complete_inv ps (e :: h) pending s3 w3) as Hm.
    destruct (maybe_complete_batch_restart me s3 w3) as [s' w'].
    destruct Hm as (? & ? & ? & _); try done; [congruence|congruence|by rewrite <- Hids3|].
    intros c Hc Ha. rewrite <- Hids3. by apply Hdead3.
Qed.

(** *** Starting *)

Lemma next_start_index_aligned l : aligned l → next_start_index l ≤ length (children l).
Proof.
  intros Hal. unfold next_start_index. destruct (iter_max _) as [m|] eqn:Hm; [|lia].
  apply iter_max_elem, list_elem_of_fmap in Hm as (c & -> & [i Hi]%list_elem_of_lookup). simpl.
  rewrite (Hal i c Hi). apply lookup_lt_Some in Hi. lia.
Qed.

Lemma policies_of_snoc ps spec :
  policies_of (ps ++ [spec]) = policies_of ps ++ [child_policy spec (length ps)].
Proof. unfold policies_of. rewrite imap_app. simpl. by rewrite Nat.add_0_r. Qed.

Lemma start_child_inv ps spec s w :
  local_specs (ps ++ [spec]) → quiet s → sup_inv ps [] [] s w →
  let '(s', w') := start_child spec (length ps) s w in
  sup_inv (ps ++ [spec]) [] [] s' w' ∧ specs s' = specs s ∧ quiet s'.
Proof.
  intros [Hnd Hloc] Hq Hinv. unfold start_child.
  destruct (Hloc spec) as [Hrem Hst]; [apply elem_of_app; right; left|].
  pose proof (cl_start spec w (si_ok _ _ _ _ _ Hinv) Hrem Hst) as Hstart.
  destruct (ce_start spec w) as [i w']. destruct Hstart as (Hle & Hnk & Hk & Hacc).
  pose proof (f_equal length (si_policies _ _ _ _ _ Hinv)) as Hlen.
  unfold policies_of in Hlen. rewrite length_fmap, length_imap in Hlen.
  pose proof (aligned_inv _ _ _ _ _ Hinv) as Hal.
  assert (∀ c, c ∈ children (logic s) → cp_id (policy c) ≠ cs_id spec) as Hnew.
  { intros c Hc He. rewrite fmap_app in Hnd. apply NoDup_app in Hnd as (_ & Hdis & _).
    apply (Hdis (cs_id spec)); [|left]. apply (child_of_id _ _ _ _ _ _ Hinv). eauto. }
  assert (op_ok (OpRegister (child_policy spec (length ps)) (mkSlot i true)) (logic s)) as Hop.
  { split_and!; simpl.
    - apply existsb_false. intros c Hc. unfold has_id. apply bool_decide_eq_false. by apply Hnew.
    - rewrite <- Hlen. by apply next_start_index_aligned.
    - intros c Hc. apply not_true_iff_false. intros Ha.
      destruct (si_handles _ _ _ _ _ Hinv c Hc) as (slot & Hs & _ & Hkn).
      rewrite (slot_is_alive_slot_id i c slot Hs Ha) in Hkn. done. }
  pose proof (si_handles _ _ _ _ _ Hinv) as Hold.
  apply (sup_inv_le _ _ _ _ _ _ Hle) in Hinv. destruct Hinv as [Hok Hwf Hp Hh Hsl Ha Hd Hr].
  split_and!; [|done|done].
  split; cbn [logic handles remote_handles remote_spawn_meta set_handles set_logic]; try done.
  - by apply wf_register.
  - simpl. rewrite fmap_app, Hp, policies_of_snoc. done.
  - simpl. intros c [Hc|Hc]%elem_of_app.
    + destruct (Hh c Hc) as (slot & ? & ? & ?). exists slot. rewrite lookup_insert_ne; [done|].
      intros He. by apply (Hnew c Hc).
    + apply list_elem_of_singleton in Hc as ->. exists (mkSlot i true). simpl.
      by rewrite lookup_insert_eq.
  - assert (∀ c sc, c ∈ children (logic s) → handle c = Some sc → slot_id sc ≠ i) as Hni.
    { intros x sx Hx Hsx <-. destruct (Hold x Hx) as (sl & Hsl' & _ & Hkn). congruence. }
    simpl. intros c d sc sd [Hc|Hc]%elem_of_app [Hdd|Hdd]%elem_of_app;
      try apply list_elem_of_singleton in Hc as ->; try apply list_elem_of_singleton in Hdd as ->;
      simpl; eauto.
    + intros Hsc [= <-] He. by destruct (Hni c sc).
    + intros [= <-] Hsd He. by destruct (Hni d sd).
  - simpl. intros c a [Hc|Hc]%elem_of_app; [by apply Ha|].
    apply list_elem_of_singleton in Hc as ->. intros Hs. apply slot_is_alive_inv in Hs.
    by injection Hs as <-.
  - simpl. intros c [Hc|Hc]%elem_of_app; [by apply Hd|]. by apply list_elem_of_singleton in Hc as ->.
Qed.

Lemma start_specs_inv ps rest s w :
  local_specs (ps ++ rest) → quiet s → sup_inv ps [] [] s w →
  let '(s', w') := start_specs me (length ps) rest s w in
  sup_inv (ps ++ rest) [] [] s' w' ∧ specs s' = specs s ∧ quiet s'.
Proof.
  revert ps s w. induction rest as [|spec rest IH]; intros ps s w Hloc Hq Hinv; simpl.
  { by rewrite app_nil_r. }
  rewrite (proj1 (proj2 Hloc spec ltac:(apply elem_of_app; right; left))).
  rewrite cons_middle, app_assoc in Hloc.
  assert (local_specs (ps ++ [spec])) as Hloc1.
  { destruct Hloc as [Hnd Hl]. rewrite fmap_app in Hnd. apply NoDup_app in Hnd as (Hnd & _ & _).
    split; [done|]. intros sp Hsp. apply Hl. apply elem_of_app. by left. }
  pose proof (start_child_inv ps spec s w Hloc1 Hq Hinv) as Hs.
  destruct (start_child spec (length ps) s w) as [s1 w1]. destruct Hs as (Hinv1 & Hsp1 & Hq1).
  specialize (IH (ps ++ [spec]) s1 w1 Hloc Hq1 Hinv1). rewrite length_app in IH. simpl in IH.
  replace (length ps + 1) with (S (length ps)) in IH by lia.
  destruct (start_specs me (S (length ps)) rest s1 w1) as [s2 w2].
  rewrite cons_middle, app_assoc. destruct IH as (? & ? & ?). split_and!; try done. congruence.
Qed.

(** *** Histories *)

(** States reached by a supervisor built by [b]: it starts its children,
    the rest of the system moves, it handles the first exit in its mailbox.
    It stops at a meltdown. *)
Inductive sup_reach (b : SupervisorBuilder A) (w0 : W) : list Exit → Supervisor A → W → Prop :=
| reach_started s w :
    started me (builder_start b) w0 = (s, w) → sup_reach b w0 [] s w
| reach_env h s w w' :
    sup_reach b w0 h s w → cl_le w w' → sup_reach b w0 h s w'
| reach_exit h s w e w1 s' w' :
    sup_reach b w0 h s w → ce_recv w = Some (e, w1) → exit_action e s w1 ≠ Meltdown →
    handle_exit rt me e s w1 = (s', w') → sup_reach b w0 (e :: h) s' w'.

Lemma sup_reach_inv b w0 h s w :
  local_specs (b_specs b) → cl_ok (re_register_actor (local_addr me) (ce_trap_exit w0)) →
  sup_reach b w0 h s w → sup_inv (b_specs b) [] h s w ∧ specs s = b_specs b ∧ quiet s.
Proof.
  intros Hloc Hok. induction 1 as [s w Hst|h s w w' _ IH Hle|h s w e w1 s' w' _ IH Hrecv Hnm Hh].
  - unfold started in Hst.
    assert (sup_inv [] [] [] (builder_start b)
      (re_register_actor (local_addr me) (ce_trap_exit w0))) as Hinv0.
    { split; simpl; try done; try (by intros * ?%not_elem_of_nil). apply wf_new. }
    pose proof (start_specs_inv [] (b_specs b) (builder_start b) _ Hloc ltac:(done) Hinv0) as Hs.
    simpl in Hs. simpl in Hst. rewrite Hst in Hs. exact Hs.
  - destruct IH as (Hinv & Hsp & Hq). split_and!; try done. exact (sup_inv_le _ _ _ _ _ _ Hle Hinv).
  - destruct IH as (Hinv & Hsp & Hq).
    pose proof (handle_exit_inv (b_specs b) h s w e w1 Hsp Hloc Hq Hinv Hrecv Hnm) as Hx.
    by rewrite Hh in Hx.
Qed.
End guarantee.

(** ** What a supervisor promises *)

Section promises.
Context {A W : Type} `{ChildLaws A W} `{RemoteEnv W} (rt : MailboxRuntime) (me : ActorId).
Implicit Types (s : Supervisor A) (w : W) (ps : list (ChildSpec A)).

(** The child of a spec. *)
Lemma spec_child ps X h s w spec :
  sup_inv ps X h s w → spec ∈ ps →
  ∃ c slot, c ∈ children (logic s) ∧ cp_id (policy c) = cs_id spec ∧
    cp_restart (policy c) = cs_restart spec ∧ handle c = Some slot ∧
    handles s !! cs_id spec = Some (slot_id slot) ∧ cl_known w (slot_id slot).
Proof.
  intros [_ _ Hp Hh _ _ _ _] [j Hj]%list_elem_of_lookup.
  assert (∃ c, children (logic s) !! j = Some c ∧ policy c = child_policy spec j) as (c & Hc & Hpc).
  { assert ((policy <$> children (logic s)) !! j = Some (child_policy spec j)) as Hl
      by (rewrite Hp; unfold policies_of; by rewrite list_lookup_imap, Hj).
    rewrite list_lookup_fmap in Hl. destruct (children (logic s) !! j); simplify_eq/=. eauto. }
  apply list_elem_of_lookup_2 in Hc. destruct (Hh c Hc) as (slot & Hslot & Hlk & Hk).
  exists c, slot. rewrite Hpc in *. done.
Qed.

Lemma shutdown_for_spec s spec :
  NoDup (cs_id <$> specs s) → spec ∈ specs s → shutdown_for (cs_id spec) s = cs_shutdown spec.
Proof.
  intros Hnd Hs. unfold shutdown_for. destruct (find_spec_is_Some (cs_id spec) s) as [sp Hf]; [by apply list_elem_of_fmap_2|].
  rewrite Hf. destruct (find_spec_elem _ _ _ Hf) as [Hin Hid].
  apply list_elem_of_lookup in Hs as [j Hj], Hin as [k Hk]. f_equal.
  assert (k = j) as ->; [|congruence].
  apply (NoDup_lookup (cs_id <$> specs s) k j (cs_id spec) Hnd); rewrite list_lookup_fmap; [rewrite Hk|rewrite Hj]; simpl; congruence.
Qed.

Lemma child_ids_specs ps X h s w :
  sup_inv ps X h s w → all_child_ids (children (logic s)) = cs_id <$> ps.
Proof. intros Hinv. by rewrite all_child_ids_policies, (si_policies _ _ _ _ _ Hinv), policies_ids. Qed.

(** One round of the loop of [stopped], for a supervisor without remote
    children. *)
Lemma stop_one_exits s w id i :
  remote_handles s = ∅ → handles s !! id = Some i → cl_ok w → cl_known w i →
  let w' := stop_one rt id s w in cl_le w w' ∧ is_Some (ce_exit_reason i w').
Proof.
  intros Hr Hh Hok Hk. unfold stop_one. rewrite Hh, Hr, lookup_empty.
  pose proof (shutdown_child_le_exited i (shutdown_for id s) w Hok Hk) as Hx.
  destruct (shutdown_child _ _ w) as [r w']. destruct Hx as [? Hx]. simpl. by rewrite Hx.
Qed.

Lemma stop_all_exits s ids w :
  remote_handles s = ∅ → cl_ok w →
  (∀ id, id ∈ ids → ∃ i, handles s !! id = Some i ∧ cl_known w i) →
  let w' := foldl (λ w id, stop_one rt id s w) w ids in
  cl_le w w' ∧ ∀ id i, id ∈ ids → handles s !! id = Some i → is_Some (ce_exit_reason i w').
Proof.
  intros Hr. revert w. induction ids as [|id ids IH]; intros w Hok Hk; simpl.
  { split; [apply cl_le_refl|]. by intros ? ? ?%not_elem_of_nil. }
  destruct (Hk id) as (i & Hi & Hki); [left|].
  destruct (stop_one_exits s w id i Hr Hi Hok Hki) as [Hle [r Hx]].
  pose proof (cl_le_ok _ _ Hle Hok) as Hok1.
  destruct (IH (stop_one rt id s w) Hok1) as [Hle' Hall].
  { intros id' Hin. destruct (Hk id') as (i' & ? & Hki'); [by right|]. exists i'. split; [done|].
    exact (cl_le_known _ _ _ Hok Hle Hki'). }
  split; [exact (cl_le_trans _ _ _ Hle Hle')|]. intros id' i' [->|Hin]%elem_of_cons Hi'; [|by eapply Hall].
  rewrite Hi in Hi'. injection Hi' as <-. exists r. exact (cl_le_exited _ _ _ _ Hok1 Hle' Hx).
Qed.
End promises.

(** C1: the supervision guarantee. Take a supervisor built with local
    children of distinct ids, any strategy, restart types, back-offs and
    shutdown types, and any history of exits short of a meltdown, the rest of
    the system moving in between. Whenever all its [Exit] messages are
    handled and it has not been told to stop, its children are its specs in
    order, and each of them runs, or last exited with a reason for which its
    restart type asks no restart, or exited in the window of its own start in
    which its exit signal is lost: it had signalled its links before it was
    linked, and published its exit only after ([ce_late]). *)
Theorem supervisor_guarantee {A W} `{ChildLaws A W} `{RemoteEnv W} rt me
    (b : SupervisorBuilder A) (w0 : W) h s w :
  local_specs (b_specs b) → cl_ok (re_register_actor (local_addr me) (ce_trap_exit w0)) →
  sup_reach rt me b w0 h s w → ce_inbox w = [] → ce_self_cancelled w = false →
  all_child_ids (children (logic s)) = cs_id <$> b_specs b ∧
  ∀ spec, spec ∈ b_specs b → ∃ i, handles s !! cs_id spec = Some i ∧
    (ce_exit_reason i w = None ∨
     (∃ e, e ∈ h ∧ actor_id (from e) = i ∧ should_restart (cs_restart spec) (reason e) = false) ∨
     i ∈ ce_late w).
Proof.
  intros Hloc Hok Hr Hin Hnc. destruct (sup_reach_inv rt me b w0 h s w Hloc Hok Hr) as (Hinv & _ & _).
  split; [by eapply child_ids_specs|]. intros spec Hs.
  destruct (spec_child _ _ _ _ _ _ Hinv Hs) as (c & slot & Hc & Hid & Hre & Hslot & Hh & _).
  exists (slot_id slot). split; [done|]. destruct (slot_alive c) eqn:Hal.
  - assert (slot_is_alive (slot_id slot) c = true) as Hsa.
    { unfold slot_alive in Hal. unfold slot_is_alive. rewrite Hslot in *. rewrite Hal.
      by rewrite bool_decide_eq_true_2. }
    destruct (watched_spec w _ (si_ok _ _ _ _ _ Hinv) (si_alive _ _ _ _ _ Hinv c _ Hc Hsa))
      as [?|[[r Hx]|[?|?]]]; [by left| |congruence|by right; right].
    rewrite Hin in Hx. by apply not_elem_of_nil in Hx.
  - right. left. destruct (si_dead _ _ _ _ _ Hinv c Hc Hal) as [Hx|(e & sl & He & Hsl' & Hf & Hsr)];
      [by apply not_elem_of_nil in Hx|].
    rewrite Hslot in Hsl'. injection Hsl' as <-. rewrite Hre in Hsr. eauto.
Qed.

(** *** Stopping, with a record of the requests *)

Section recorded.
Context {A W : Type} `{ThisNode} `{ChildEnv A W} `{RemoteEnv W} (rt : MailboxRuntime).

Definition logged_remote : RemoteEnv (W * list Told) := {|
  re_correlation := quietly_get re_correlation;
  re_request n env := quietly_get (re_request n env);
  re_publish env := quietly (re_publish env);
  re_register_wait i := quietly (re_register_wait i);
  re_clear_wait i := quietly (re_clear_wait i);
  re_wait i d := quietly_get (re_wait i d);
  re_sleep d := quietly (re_sleep d);
  re_register_actor a := quietly (re_register_actor a)
|}.
(** [stopped] in the environment that records what children are told. *)
Definition stopped_logged (s : Supervisor A) (wl : W * list Told) : Supervisor A * (W * list Told) :=
  stopped (H0 := logged_env) (H1 := logged_remote) rt s wl.

Lemma stop_all_logged (s : Supervisor A) ids w l :
  remote_handles s = ∅ → (∀ id, id ∈ ids → is_Some (handles s !! id)) →
  ∃ told, foldl (λ w id, stop_one (H0 := logged_env) (H1 := logged_remote) rt id s w) (w, l) ids =
      (foldl (λ w id, stop_one rt id s w) w ids, l ++ concat told) ∧
    Forall2 (λ id t, ∃ i, handles s !! id = Some i ∧ (t = [] ∨ told_as i (shutdown_for id s) t)) ids told.
Proof.
  intros Hr. revert w l. induction ids as [|id ids IH]; intros w l Hids.
  { exists []. split; [by rewrite app_nil_r|constructor]. }
  destruct (Hids id ltac:(left)) as [i Hi].
  destruct (shutdown_child_logged i (shutdown_for id s) w l) as (t & Ht & Hs).
  destruct (IH (stop_one rt id s w) (l ++ t)) as (told & Hf & Hall); [intros; apply Hids; by right|].
  exists (t :: told). split.
  - cbn [foldl concat]. rewrite app_assoc, <- Hf. f_equal. unfold stop_one. rewrite Hi, Hr, lookup_empty. by rewrite Hs.
  - constructor; [|done]. exists i. split; [done|]. destruct (ce_exit_reason i w); auto.
Qed.
End recorded.

