(* ===== verification/DynamicSupervisor.v ===== *)
(** * The dynamic supervisor

    Model of [concurrency/src/dynamic_supervisor/mod.rs] and of
    [concurrency/src/tasks/dynamic_supervisor.rs] (the threads file differs
    in the blocking form of the calls; [rt] selects the form of the remote
    shutdown, as in [Supervisor]). The process-wide registry of values, in
    which children may be given a name, is threaded next to the world.
    Observability calls are left out. *)

From stdpp Require Import pretty.
From S2P Require Import Prelude Address Errors Mailbox ChildSpec SupervisorLogic Registry Handles RemoteSpawn.
Import Values.

Inductive DynamicSupervisorError :=
| MaxChildrenExceeded
| ChildNotFound (a : ActorId)
| DuplicateChildId (id : string)
| SupervisorStopping
| RegistryErr (msg : string)
| RemoteSpawnErr (msg : string).

Record DynamicChildInfo := mkDynamicChildInfo {
  dci_id : string;
  dci_actor_id : ActorId;
  dci_alive : bool;
  dci_restart : RestartType;
  dci_shutdown : ShutdownType
}.

(** [format!("{template_id}#{counter}")] *)
Definition instance_id (template_id : string) (counter : N) : string :=
  template_id +:+ "#" +:+ pretty counter.

(** The [Display] of the errors that the supervisor turns into strings. *)
Definition display_registry_error (e : RegistryError) : string :=
  match e with AlreadyRegistered name => "name '" +:+ name +:+ "' is already registered" end.
Definition display_spawn_error (e : RemoteSpawnError) : string :=
  match e with
  | TransportErr m => "supervision transport error: " +:+ m
  | SpawnFailed m => "remote spawn failed: " +:+ m
  | InvalidReply => "invalid spawn reply"
  | PublishNotInstalled => "supervision publish not installed"
  | RequestNotInstalled => "supervision request not installed"
  end.
Definition display_shutdown_error (e : RemoteShutdownError) : string :=
  match e with
  | SignalErr m => "remote shutdown signal failed: " +:+ m
  | WaitTimeout => "remote shutdown timed out"
  | Interrupted => "remote shutdown wait interrupted"
  end.

Record DynamicSupervisorBuilder := mkDynBuilder {
  db_intensity : RestartIntensity;
  db_max_children : option nat
}.
Definition dyn_builder_new : DynamicSupervisorBuilder := mkDynBuilder default_intensity None.
Definition dyn_builder_intensity i (b : DynamicSupervisorBuilder) : DynamicSupervisorBuilder :=
  mkDynBuilder i (db_max_children b).
Definition dyn_builder_max_children n (b : DynamicSupervisorBuilder) : DynamicSupervisorBuilder :=
  mkDynBuilder (db_intensity b) (Some n).

Record DynamicSupervisor (A : Type) := mkDyn {
  d_logic : SupervisorLogic;
  d_specs : gmap string (ChildSpec A);
  d_handles : gmap string ActorId;
  d_actor_to_id : gmap ActorId string;
  d_reg_names : gmap string string;
  d_id_counter : N;
  d_max_children : option nat;
  d_stopping : bool;
  d_remote_handles : gmap string RemoteChildHandle;
  d_remote_actor_to_id : gmap ActorId string;
  d_remote_spawn_meta : gmap string RemoteSpawnMeta
}.
Arguments mkDyn {A}. Arguments d_logic {A}. Arguments d_specs {A}. Arguments d_handles {A}.
Arguments d_actor_to_id {A}. Arguments d_reg_names {A}. Arguments d_id_counter {A}.
Arguments d_max_children {A}. Arguments d_stopping {A}. Arguments d_remote_handles {A}.
Arguments d_remote_actor_to_id {A}. Arguments d_remote_spawn_meta {A}.

Definition dyn_builder_start {A} (b : DynamicSupervisorBuilder) : DynamicSupervisor A :=
  mkDyn (logic_new OneForOne (db_intensity b)) ∅ ∅ ∅ ∅ 0 (db_max_children b) false ∅ ∅ ∅.

Section dynamic.
Context {A W : Type} `{ThisNode} `{ChildEnv A W} `{RemoteEnv W}.
Context (rt : MailboxRuntime) (me : ActorId).
Implicit Types (s : DynamicSupervisor A) (w : W).

(** The registry: names of child handles and of other values. *)
Abbreviation Reg := (gmap string (Boxed (V := ActorId))) (only parsing).
Implicit Types (g : Reg).
Abbreviation State := (DynamicSupervisor A * Reg * W)%type (only parsing).

(** The type at which a child handle is registered. *)
Definition CHILD_HANDLE : string := "ChildHandle".

Definition d_set_logic l s : DynamicSupervisor A :=
  mkDyn l (d_specs s) (d_handles s) (d_actor_to_id s) (d_reg_names s) (d_id_counter s)
    (d_max_children s) (d_stopping s) (d_remote_handles s) (d_remote_actor_to_id s)
    (d_remote_spawn_meta s).
Definition d_set_locals sp h a s : DynamicSupervisor A :=
  mkDyn (d_logic s) sp h a (d_reg_names s) (d_id_counter s)
    (d_max_children s) (d_stopping s) (d_remote_handles s) (d_remote_actor_to_id s)
    (d_remote_spawn_meta s).
Definition d_set_names n s : DynamicSupervisor A :=
  mkDyn (d_logic s) (d_specs s) (d_handles s) (d_actor_to_id s) n (d_id_counter s)
    (d_max_children s) (d_stopping s) (d_remote_handles s) (d_remote_actor_to_id s)
    (d_remote_spawn_meta s).
Definition d_set_counter c s : DynamicSupervisor A :=
  mkDyn (d_logic s) (d_specs s) (d_handles s) (d_actor_to_id s) (d_reg_names s) c
    (d_max_children s) (d_stopping s) (d_remote_handles s) (d_remote_actor_to_id s)
    (d_remote_spawn_meta s).
Definition d_set_remote rh r2i meta s : DynamicSupervisor A :=
  mkDyn (d_logic s) (d_specs s) (d_handles s) (d_actor_to_id s) (d_reg_names s) (d_id_counter s)
    (d_max_children s) (d_stopping s) rh r2i meta.

(** [cleanup_child]: the first name of the child is unregistered. *)
Definition cleanup_child (child_id : string) s g : DynamicSupervisor A * Reg :=
  let '(names, g) :=
    match iter_find (λ kv, bool_decide (kv.2 = child_id)) (map_to_list (d_reg_names s)) with
    | Some (name, _) => (delete name (d_reg_names s), unregister name g)
    | None => (d_reg_names s, g)
    end in
  let a2i := match d_handles s !! child_id with
             | Some h => delete h (d_actor_to_id s)
             | None => d_actor_to_id s
             end in
  (mkDyn (snd (remove_child_by_id child_id (d_logic s))) (delete child_id (d_specs s))
     (delete child_id (d_handles s)) a2i names (d_id_counter s) (d_max_children s) (d_stopping s)
     (d_remote_handles s) (d_remote_actor_to_id s) (delete child_id (d_remote_spawn_meta s)), g).

(** Whether [max_children] forbids another child. *)
Definition at_capacity s : bool :=
  match d_max_children s with
  | Some max => bool_decide (max ≤ child_count (d_logic s))
  | None => false
  end.

(** [start_child] *)
Definition dyn_start_child (spec : ChildSpec A) (reg_name : option string) s g w
    : Result ActorId DynamicSupervisorError * State :=
  if d_stopping s then (Err SupervisorStopping, (s, g, w))
  else if at_capacity s then (Err MaxChildrenExceeded, (s, g, w))
  else
    let s := d_set_counter (wrapping_succ_u64 (d_id_counter s)) s in
    let child_id := instance_id (cs_id spec) (d_id_counter s) in
    if has_child_id child_id (d_logic s) then (Err (DuplicateChildId child_id), (s, g, w))
    else
      let start_index := next_start_index (d_logic s) in
      let '(h, w) := ce_start spec w in
      let s := d_set_locals (<[child_id := spec]> (d_specs s)) (<[child_id := h]> (d_handles s))
                 (<[h := child_id]> (d_actor_to_id s))
                 (d_set_logic (register_child (mkChildPolicy child_id (cs_restart spec) start_index)
                                 (mkSlot h true) (d_logic s)) s) in
      match reg_name with
      | None => (Ok h, (s, g, w))
      | Some name =>
          match register name CHILD_HANDLE h g with
          | (Err e, g) =>
              let '(s, g) := cleanup_child child_id s g in
              (Err (RegistryErr (display_registry_error e)), (s, g, w))
          | (Ok _, g) => (Ok h, (d_set_names (<[name := child_id]> (d_reg_names s)) s, g, w))
          end
      end.

(** [start_child_remote] *)
Definition dyn_start_child_remote (spec : RemoteSpawnSpec) (placement : NodeId) (link : bool) s g w
    : Result RemoteChildHandle DynamicSupervisorError * State :=
  if d_stopping s then (Err SupervisorStopping, (s, g, w))
  else if at_capacity s then (Err MaxChildrenExceeded, (s, g, w))
  else
    let s := d_set_counter (wrapping_succ_u64 (d_id_counter s)) s in
    let child_id := instance_id "remote" (d_id_counter s) in
    if has_child_id child_id (d_logic s) then (Err (DuplicateChildId child_id), (s, g, w))
    else
      let parent := local_addr me in
      let '(r, w) := request_spawn_with_retry placement parent spec link default_retry w in
      match r with
      | Err e => (Err (RemoteSpawnErr (display_spawn_error e)), (s, g, w))
      | Ok address =>
          let remote := mkRemoteHandle address parent in
          let start_index := next_start_index (d_logic s) in
          (Ok remote,
           (d_set_remote (<[child_id := remote]> (d_remote_handles s))
              (<[actor_id address := child_id]> (d_remote_actor_to_id s))
              (<[child_id := mkMeta spec placement link]> (d_remote_spawn_meta s))
              (d_set_logic (register_child (mkChildPolicy child_id Permanent start_index)
                              (mkSlot (actor_id address) true) (d_logic s)) s), g, w))
      end.

(** [restart_remote_child] *)
Definition dyn_restart_remote_child (child_id : string) s g w : State :=
  match d_remote_spawn_meta s !! child_id with
  | None => (s, g, w)
  | Some meta =>
      let s := d_set_remote (delete child_id (d_remote_handles s))
                 (filter (λ kv, kv.2 ≠ child_id) (d_remote_actor_to_id s))
                 (d_remote_spawn_meta s) s in
      let parent := local_addr me in
      let '(r, w) := request_spawn_with_retry (meta_placement meta) parent (meta_spec meta)
                       (meta_link meta) default_retry w in
      match r with
      | Err _ => let '(s, g) := cleanup_child child_id s g in (s, g, w)
      | Ok address =>
          (d_set_remote (<[child_id := mkRemoteHandle address parent]> (d_remote_handles s))
             (<[actor_id address := child_id]> (d_remote_actor_to_id s)) (d_remote_spawn_meta s)
             (d_set_logic (replace_child_handle child_id (mkSlot (actor_id address) true)
                             (d_logic s)) s), g, w)
      end
  end.

(** [restart_child] *)
Definition dyn_restart_child (child_id : string) s g w : State :=
  match d_specs s !! child_id with
  | None => (s, g, w)
  | Some spec =>
      let '(h, w) := ce_start spec w in
      let a2i := match d_handles s !! child_id with
                 | Some old => delete old (d_actor_to_id s)
                 | None => d_actor_to_id s
                 end in
      (d_set_locals (d_specs s) (<[child_id := h]> (d_handles s)) (<[h := child_id]> a2i)
         (d_set_logic (replace_child_handle child_id (mkSlot h true) (d_logic s)) s), g, w)
  end.

Definition dyn_shutdown_for (id : string) s : ShutdownType :=
  match d_specs s !! id with Some spec => cs_shutdown spec | None => Infinity end.

Definition dyn_remote_shutdown (remote : RemoteChildHandle) (sd : ShutdownType) (w : W)
    : Result () RemoteShutdownError * W :=
  match rt with
  | Tasks => shutdown_remote_and_wait remote sd w
  | Threads => shutdown_remote_and_wait_blocking remote sd w
  end.

(** The part of [terminate_child_by_actor] for local children. *)
Definition terminate_local (a : ActorId) s g w : Result () DynamicSupervisorError * State :=
  match d_actor_to_id s !! a with
  | None => (Err (ChildNotFound a), (s, g, w))
  | Some child_id =>
      let shutdown := dyn_shutdown_for child_id s in
      match d_handles s !! child_id with
      | None => (Err (ChildNotFound a), (s, g, w))
      | Some h =>
          let s := d_set_logic (snd (remove_child_by_id child_id (d_logic s))) s in
          let '(_, w) := shutdown_child h shutdown w in
          let '(s, g) := cleanup_child child_id s g in
          (Ok (), (s, g, w))
      end
  end.

(** [terminate_child_by_actor] *)
Definition terminate_child_by_actor (a : ActorId) s g w
    : Result () DynamicSupervisorError * State :=
  match d_remote_actor_to_id s !! a ≫= λ id, (λ r, (id, r)) <$> d_remote_handles s !! id with
  | Some (child_id, remote) =>
      let s := d_set_remote (delete child_id (d_remote_handles s)) (d_remote_actor_to_id s)
                 (d_remote_spawn_meta s) s in
      let '(r, w) := dyn_remote_shutdown remote (dyn_shutdown_for child_id s) w in
      match r with
      | Err e => (Err (RemoteSpawnErr (display_shutdown_error e)), (s, g, w))
      | Ok _ =>
          (Ok (), (d_set_remote (d_remote_handles s) (delete a (d_remote_actor_to_id s))
                     (delete child_id (d_remote_spawn_meta s))
                     (d_set_logic (snd (remove_child_by_id child_id (d_logic s))) s), g, w))
      end
  | None => terminate_local a s g w
  end.

Definition dyn_backoff_for (child_id : string) s : RestartBackoff :=
  match d_specs s !! child_id with Some spec => cs_backoff spec | None => default_backoff end.

(** [restart_child_with_backoff] *)
Definition dyn_restart_child_with_backoff (child_id : string) s g w : State :=
  let '(delay, l) := backoff_delay child_id (dyn_backoff_for child_id s) (d_logic s) in
  let s := d_set_logic l s in
  let w := if decide (delay = 0%Z) then w else ce_sleep delay w in
  if bool_decide (is_Some (d_remote_spawn_meta s !! child_id))
  then dyn_restart_remote_child child_id s g w
  else dyn_restart_child child_id s g w.

(** [handle_exit] *)
Definition dyn_handle_exit (e : Exit) s g w : State :=
  let '(now, w) := ce_now w in
  let '(act, l) := on_child_exit (actor_id (from e)) (reason e) now (d_logic s) in
  let s := d_set_logic l s in
  match act with
  | Ignore =>
      match child_id_by_actor_any (actor_id (from e)) (d_logic s) with
      | Some child_id => let '(s, g) := cleanup_child child_id s g in (s, g, w)
      | None => (s, g, w)
      end
  | RestartOne id => dyn_restart_child_with_backoff id s g w
  | TerminateBatch _ | Meltdown => (s, g, ce_stop_self w)
  end.

(** [Actor::started] *)
Definition dyn_started w : W := re_register_actor (local_addr me) (ce_trap_exit w).

(** One iteration of the loop of [Actor::stopped]. *)
Definition dyn_stop_one (id : string) s w : W :=
  let shutdown := dyn_shutdown_for id s in
  let w := match d_handles s !! id with
           | Some h => snd (shutdown_child h shutdown w)
           | None => w
           end in
  match d_remote_handles s !! id with
  | Some remote => snd (dyn_remote_shutdown remote shutdown w)
  | None => w
  end.

(** [Actor::stopped] *)
Definition dyn_stopped s g w : State :=
  let l := set_suppress_restarts true (d_logic s) in
  let w := foldl (λ w id, dyn_stop_one id s w) w (shutdown_order l) in
  let g := foldl (λ g name, unregister name g) g (fst <$> map_to_list (d_reg_names s)) in
  (mkDyn l ∅ ∅ ∅ ∅ (d_id_counter s) (d_max_children s) true ∅ ∅ ∅, g, w).

(** The handlers of [CountChildren] and [WhichChildren]. *)
Definition count_children s : nat := child_count (d_logic s).
Definition which_children s : list DynamicChildInfo :=
  (λ c, mkDynamicChildInfo (ci_id c) (ci_actor_id c) (ci_alive c) (ci_restart c)
          (dyn_shutdown_for (ci_id c) s)) <$> list_children (d_logic s).
End dynamic.

(** ** Instance ids *)

(** The text after the last [#]. *)
Fixpoint after_hash (s : string) : option string :=
  match s with
  | EmptyString => None
  | String c s =>
      match after_hash s with
      | Some r => Some r
      | None => if decide (c = Ascii.ascii_of_nat 35) then Some s else None
      end
  end.

Lemma after_hash_app t d : after_hash d = None → after_hash (t +:+ "#" +:+ d) = Some d.
Proof.
  intros Hd. induction t as [|c t IH].
  - change (match after_hash d with Some r => Some r | None => Some d end = Some d). by rewrite Hd.
  - change (match after_hash (t +:+ "#" +:+ d) with Some r => Some r
            | None => if decide (c = Ascii.ascii_of_nat 35) then Some (t +:+ "#" +:+ d) else None
            end = Some d). by rewrite IH.
Qed.

Lemma after_hash_pretty (k : N) : after_hash (pretty k) = None.
Proof.
  assert (∀ x s, after_hash s = None → after_hash (pretty_N_go x s) = None) as Hgo.
  { intros x. induction (N.lt_wf_0 x) as [x _ IH]. intros s Hs.
    assert (x = 0 ∨ 0 < x)%N as [->|Hx] by lia; [by rewrite pretty_N_go_0|].
    rewrite pretty_N_go_step by done. apply IH; [by apply N.div_lt|]. simpl. rewrite Hs.
    rewrite decide_False; [done|]. unfold pretty_N_char. by repeat case_match. }
  unfold pretty, pretty_N. case_decide; [done|]. by apply Hgo.
Qed.

(** Different counters give different ids, whatever the templates. *)
Lemma instance_id_counter t t' k k' : instance_id t k = instance_id t' k' → k = k'.
Proof.
  intros He%(f_equal after_hash). unfold instance_id in He.
  rewrite !after_hash_app in He by apply after_hash_pretty. injection He as He. by apply (inj (pretty (A := N))).
Qed.

(** ** The bookkeeping invariant *)

Section invariant.
Context {A W : Type} `{ChildLaws A W} `{RemoteEnv W}.
Context (rt : MailboxRuntime) (me : ActorId).
Implicit Types (s : DynamicSupervisor A) (w : W) (g : gmap string (Boxed (V := ActorId))).

Definition local_spec (spec : ChildSpec A) : Prop :=
  is_remote spec = false ∧ cs_start spec ≠ UnreachableStart.

(** [x] is a child whose exit is being handled. *)
Record child_ok (x : option string) s w (c : SupervisedChild) (i : ActorId) (spec : ChildSpec A)
    : Prop := {
  co_slot : ∃ b, handle c = Some (mkSlot i b) ∧ (x ≠ Some (cp_id (policy c)) → b = true);
  co_handle : d_handles s !! cp_id (policy c) = Some i;
  co_spec : d_specs s !! cp_id (policy c) = Some spec;
  co_restart : cp_restart (policy c) = cs_restart spec;
  co_local : local_spec spec;
  co_id : ∃ t k, cp_id (policy c) = instance_id t k ∧ (k ≤ d_id_counter s)%N;
  co_known : cl_known w i;
  co_watched : x ≠ Some (cp_id (policy c)) → watched w i
}.

Record dyn_inv (x : option string) s w : Prop := {
  di_ok : cl_ok w;
  di_wf : wf (d_logic s);
  di_one : strategy (d_logic s) = OneForOne ∧ suppress_restarts (d_logic s) = false;
  di_child : ∀ c, c ∈ children (d_logic s) → ∃ i spec, child_ok x s w c i spec;
  di_handles : ∀ id i, d_handles s !! id = Some i → ∃ c, c ∈ children (d_logic s) ∧ cp_id (policy c) = id;
  di_specs : ∀ id spec, d_specs s !! id = Some spec → is_Some (d_handles s !! id);
  di_a2i : ∀ i id, d_actor_to_id s !! i = Some id ↔ d_handles s !! id = Some i;
  di_names : ∀ n id, d_reg_names s !! n = Some id → is_Some (d_handles s !! id) ∧
    ∀ n', d_reg_names s !! n' = Some id → n' = n;
  di_max : ∀ m, d_max_children s = Some m → length (children (d_logic s)) ≤ m;
  di_remote : d_remote_handles s = ∅ ∧ d_remote_actor_to_id s = ∅ ∧ d_remote_spawn_meta s = ∅;
  di_stopping : d_stopping s = false
}.

Lemma dyn_inv_le x s w w' : cl_le w w' → dyn_inv x s w → dyn_inv x s w'.
Proof.
  intros Hle [Hok Hwf Hone Hc Hh Hsp Ha Hn Hm Hr Hst]. split; try done; [exact (cl_le_ok _ _ Hle Hok)|].
  intros c Hin. destruct (Hc c Hin) as (i & spec & []). exists i, spec. split; try done.
  - exact (cl_le_known _ _ _ Hok Hle co_known0).
  - intros Hx. exact (watched_le _ _ _ Hok Hle (co_watched0 Hx)).
Qed.

Lemma dyn_inv_weaken id s w : dyn_inv None s w → dyn_inv (Some id) s w.
Proof.
  intros [Hok Hwf Hone Hc Hh Hsp Ha Hn Hm Hr Hst]. split; try done. intros c Hin.
  destruct (Hc c Hin) as (i & spec & [(b & Hb & Hbt)]). exists i, spec. split; auto.
  exists b. auto.
Qed.

(** Two children with the same actor are the same child. *)
Lemma dyn_inv_slot x s w c d i spec j spec' :
  dyn_inv x s w → child_ok x s w c i spec → child_ok x s w d j spec' → i = j →
  cp_id (policy c) = cp_id (policy d).
Proof.
  intros Hinv [_ Hc _ _ _ _ _ _] [_ Hd _ _ _ _ _ _] ->.
  apply (di_a2i _ _ _ Hinv) in Hc, Hd. congruence.
Qed.

Lemma dyn_inv_logic x s w l :
  children l = children (d_logic s) → strategy l = strategy (d_logic s) →
  suppress_restarts l = suppress_restarts (d_logic s) →
  dyn_inv x s w → dyn_inv x (d_set_logic l s) w.
Proof.
  intros Hch Hst Hsu [Hok Hwf Hone Hc Hh Hsp Ha Hn Hm Hr Hs]. split; simpl; rewrite ?Hch, ?Hst, ?Hsu; try done.
  - by apply (wf_same_children (d_logic s)).
  - intros c Hin. destruct (Hc c Hin) as (i & spec & []). exists i, spec. by split.
Qed.

(** *** Removing *)

Lemma elem_of_removed id l c :
  wf l → c ∈ children (snd (remove_child_by_id id l)) ↔ c ∈ children l ∧ cp_id (policy c) ≠ id.
Proof.
  intros Hwf. unfold remove_child_by_id, remove_child_where.
  destruct (position (has_id id) (children l)) as [k|] eqn:Hp.
  - apply position_Some in Hp as (d & Hk & Hid & _). unfold has_id in Hid. bool_simpl. simpl.
    rewrite !list_elem_of_lookup.
    assert (∀ j e, children l !! j = Some e → cp_id (policy e) = id ↔ j = k) as Hjk.
    { intros j e Hj. split; [|intros ->; congruence]. intros He.
      apply (NoDup_lookup _ j k id (wf_ids _ Hwf)); unfold all_child_ids;
        rewrite list_lookup_fmap; [rewrite Hj|rewrite Hk]; simpl; congruence. }
    split.
    + intros [j Hj]. destruct (decide (j < k)) as [Hlt|Hge].
      * rewrite list_lookup_delete_lt in Hj by done. split; [eauto|]. rewrite (Hjk j c Hj). lia.
      * rewrite list_lookup_delete_ge in Hj by lia. split; [eauto|]. rewrite (Hjk _ c Hj). lia.
    + intros [[j Hj] Hne]. rewrite (Hjk j c Hj) in Hne. destruct (decide (j < k)) as [Hlt|Hge].
      * exists j. by rewrite list_lookup_delete_lt.
      * exists (j - 1). rewrite list_lookup_delete_ge by lia. by replace (S (j - 1)) with j by lia.
  - rewrite position_None in Hp. simpl. split; [|naive_solver]. intros Hc. split; [done|].
    specialize (Hp c Hc). unfold has_id in Hp. by bool_simpl.
Qed.

Lemma remove_keeps id l :
  strategy (snd (remove_child_by_id id l)) = strategy l ∧
  suppress_restarts (snd (remove_child_by_id id l)) = suppress_restarts l ∧
  length (children (snd (remove_child_by_id id l))) ≤ length (children l).
Proof.
  unfold remove_child_by_id, remove_child_where. destruct (position _ _) as [k|]; simpl; [|done].
  split_and!; try done. by apply sublist_length, sublist_delete.
Qed.

(** What [cleanup_child] does to the names: it looks for one name of the child
    and unregisters it, which is the only one it can have. *)
Lemma release_names_spec id (names : gmap string string) (g : gmap string (Boxed (V := ActorId))) :
  (∀ n n', names !! n = Some id → names !! n' = Some id → n' = n) →
  let '(names', g') :=
    match iter_find (λ kv, bool_decide (kv.2 = id)) (map_to_list names) with
    | Some (name, _) => (delete name names, unregister name g)
    | None => (names, g)
    end in
  (∀ n j, names' !! n = Some j ↔ names !! n = Some j ∧ j ≠ id) ∧
  (∀ n, names !! n = Some id → g' !! n = None) ∧
  (∀ n, names !! n ≠ Some id → g' !! n = g !! n ∧ names' !! n = names !! n).
Proof.
  intros Hu. destruct (iter_find _ _) as [[n0 i0]|] eqn:Hf.
  - apply iter_find_Some in Hf as [Hn0%elem_of_map_to_list Hb]. simpl in Hb. bool_simpl. subst i0.
    split_and!.
    + intros n j. rewrite lookup_delete_Some. split.
      * intros [Hne Hnj]. split; [done|]. intros ->. by destruct (Hu n0 n Hn0 Hnj).
      * intros [Hnj Hne]. split; [|done]. intros ->. congruence.
    + intros n Hn. rewrite (Hu n0 n Hn0 Hn). apply lookup_delete_eq.
    + intros n Hn. split; apply lookup_delete_ne; congruence.
  - rewrite iter_find_None in Hf.
    assert (∀ n, names !! n ≠ Some id) as Hno.
    { intros n Hn. specialize (Hf (n, id) ltac:(by apply elem_of_map_to_list)). simpl in Hf.
      by rewrite bool_decide_eq_true_2 in Hf. }
    split_and!; [|naive_solver|done]. intros n j. split; [|naive_solver].
    intros Hnj. split; [done|]. intros ->. by apply (Hno n).
Qed.

(** [cleanup_child] erases a child; nothing else changes. *)
Lemma cleanup_inv id s g w :
  dyn_inv (Some id) s w →
  let '(s', g') := cleanup_child id s g in
  dyn_inv None s' w ∧ d_handles s' = delete id (d_handles s) ∧
  (∀ n, d_reg_names s !! n = Some id → g' !! n = None) ∧
  (∀ n, d_reg_names s !! n ≠ Some id → g' !! n = g !! n ∧ d_reg_names s' !! n = d_reg_names s !! n) ∧
  (∀ n, d_reg_names s' !! n ≠ Some id).
Proof.
  intros [Hok Hwf Hone Hc Hh Hsp Ha Hn Hm Hr Hs]. unfold cleanup_child.
  pose proof (release_names_spec id (d_reg_names s) g) as Hrel.
  destruct (match iter_find _ _ with Some _ => _ | None => _ end) as [names g1].
  destruct Hrel as (Hnames & Hgone & Hkept); [intros n n' Hi Hi'; exact (proj2 (Hn n id Hi) n' Hi')|].
  destruct (remove_keeps id (d_logic s)) as (Hk1 & Hk2 & Hk3).
  split; [split; simpl|split_and!; simpl].
  - done.
  - by apply wf_remove.
  - by rewrite Hk1, Hk2.
  - intros c [Hin Hne]%elem_of_removed; [|done]. destruct (Hc c Hin) as (i & spec & [(b & Hb & Hbt)]).
    exists i, spec. split; simpl; try done; auto.
    + exists b. split; [done|]. intros _. apply Hbt. congruence.
    + by rewrite lookup_delete_ne.
    + by rewrite lookup_delete_ne.
    + intros _. apply co_watched0. congruence.
  - intros j i [Hne Hj]%lookup_delete_Some. destruct (Hh j i Hj) as (c & Hin & <-).
    exists c. split; [|done]. by apply elem_of_removed.
  - intros j sp [Hne Hj]%lookup_delete_Some. rewrite lookup_delete_ne by done. by apply (Hsp j sp).
  - intros i j. rewrite lookup_delete_Some. destruct (d_handles s !! id) as [h|] eqn:Hid.
    + rewrite lookup_delete_Some, Ha. split.
      * intros [Hne Hj]. split; [|done]. intros ->. congruence.
      * intros [Hne Hj]. split; [|done]. intros ->. apply Ha in Hid, Hj. congruence.
    + rewrite Ha. split; [|naive_solver]. intros Hj. split; [|done]. intros ->. congruence.
  - intros n j [Hnj Hne]%Hnames. destruct (Hn n j Hnj) as [Hs' Hu]. split.
    + by rewrite lookup_delete_ne.
    + intros n' [Hn' _]%Hnames. by apply Hu.
  - intros m Hm'. specialize (Hm m Hm'). lia.
  - destruct Hr as (-> & -> & ->). by rewrite delete_empty.
  - done.
  - done.
  - done.
  - done.
  - intros n [_ ?]%Hnames. done.
Qed.

Lemma cleanup_tables id s g :
  let s' := fst (cleanup_child id s g) in
  children (snd (remove_child_by_id id (d_logic s))) = children (d_logic s') ∧
  d_specs s' = delete id (d_specs s) ∧
  d_actor_to_id s' = match d_handles s !! id with
                     | Some h => delete h (d_actor_to_id s) | None => d_actor_to_id s end.
Proof. unfold cleanup_child. by destruct (iter_find _ _) as [[]|]. Qed.

(** *** Exits *)

Lemma dyn_inv_mark x s w w' a l :
  dyn_inv None s w → cl_ok w' → (∀ i, cl_known w i → cl_known w' i) →
  (∀ i, watched w i → i ≠ a → watched w' i) →
  children l = children (mark_child_dead a (d_logic s)) →
  strategy l = strategy (d_logic s) → suppress_restarts l = false →
  (∀ c, c ∈ children (d_logic s) → slot_is_alive a c = true → x = Some (cp_id (policy c))) →
  dyn_inv x (d_set_logic l s) w'.
Proof.
  intros [Hok Hwf Hone Hc Hh Hsp Ha Hn Hm Hr Hs] Hok' Hkn Hacc Hch Hstr Hsup Hx.
  pose proof (λ c, elem_of_marked a (d_logic s) c Hwf) as Hel.
  split; simpl; rewrite ?Hch; try done.
  - apply (wf_same_children (mark_child_dead a (d_logic s))); [by apply wf_mark_child_dead|done].
  - split; [rewrite Hstr; apply Hone|done].
  - intros c (d & Hd & ->)%Hel. destruct (Hc d Hd) as (i & spec & [(b & Hb & Hbt)]).
    exists i, spec. specialize (Hbt ltac:(done)). subst b.
    assert (policy (if slot_is_alive a d then kill_slot d else d) = policy d) as Hp
      by (by destruct (slot_is_alive a d)).
    split; rewrite ?Hp; simpl; try done; auto.
    + destruct (slot_is_alive a d) eqn:Had; simpl; rewrite Hb; [|by exists true].
      exists false. split; [done|]. intros Hne. by destruct Hne; apply Hx.
    + intros Hne. apply Hacc; [by apply co_watched0|]. intros ->. apply Hne, (Hx d Hd).
      by apply slot_is_alive_inv.
  - intros id i Hi. destruct (Hh id i Hi) as (c & Hin & <-).
    exists (if slot_is_alive a c then kill_slot c else c). split; [|by destruct (slot_is_alive a c)].
    apply Hel. eauto.
  - intros m Hm'. specialize (Hm m Hm').
    pose proof (f_equal length (mark_child_dead_policies a (d_logic s))) as Hl.
    rewrite !length_fmap in Hl. lia.
Qed.

(** A freshly started actor is in no table. *)
Lemma fresh_handle x s w i id : dyn_inv x s w → ¬ cl_known w i → d_handles s !! id ≠ Some i.
Proof.
  intros Hinv Hnk Hi. destruct (di_handles _ _ _ Hinv id i Hi) as (c & Hin & <-).
  destruct (di_child _ _ _ Hinv c Hin) as (j & spec & [_ Hj _ _ _ _ Hk _]). congruence.
Qed.

Lemma fresh_slot x s w i : dyn_inv x s w → ¬ cl_known w i → fresh_actor i (d_logic s).
Proof.
  intros Hinv Hnk c Hin. apply not_true_iff_false. intros Ha%slot_is_alive_inv.
  destruct (di_child _ _ _ Hinv c Hin) as (j & spec & [(b & Hb & _) _ _ _ _ _ Hk _]).
  rewrite Ha in Hb. injection Hb as -> _. done.
Qed.

(** *** Restarts *)

Lemma replaced_policy id slot l c :
  c ∈ children l → ∃ c1, policy c = policy c1 ∧ c1 ∈ children (replace_child_handle id slot l).
Proof.
  intros Hc. apply list_elem_of_fmap. simpl. rewrite (fmap_modify_first policy) by done.
  by apply list_elem_of_fmap_2.
Qed.

Lemma dyn_inv_restarted id s w w' h c0 :
  dyn_inv (Some id) s w → cl_le w w' → ¬ cl_known w h → cl_known w' h → watched w' h →
  c0 ∈ children (d_logic s) → cp_id (policy c0) = id →
  dyn_inv None (d_set_locals (d_specs s) (<[id := h]> (d_handles s))
    (<[h := id]> (match d_handles s !! id with Some old => delete old (d_actor_to_id s)
                  | None => d_actor_to_id s end))
    (d_set_logic (replace_child_handle id (mkSlot h true) (d_logic s)) s)) w'.
Proof.
  intros Hinv0 Hle Hnk Hk Hacc Hc0 Hid0.
  pose proof (λ j, fresh_handle _ s w h j Hinv0 Hnk) as Hfh.
  pose proof (fresh_slot _ s w h Hinv0 Hnk) as Hfs.
  pose proof (dyn_inv_le _ _ _ _ Hle Hinv0) as [Hok Hwf Hone Hc Hh Hsp Ha Hn Hm Hr Hs].
  pose proof (λ c, elem_of_replaced id (mkSlot h true) (d_logic s) c Hwf) as Hel.
  assert (length (children (replace_child_handle id (mkSlot h true) (d_logic s))) =
    length (children (d_logic s))) as Hlen.
  { rewrite <- (length_fmap policy), <- (length_fmap policy (children (d_logic s))). f_equal.
    by apply (fmap_modify_first policy). }
  destruct (Hc c0 Hc0) as (i0 & sp0 & [_ Hi0 _ _ _ _ _ _]). rewrite Hid0 in Hi0.
  split; cbn [d_logic d_handles d_specs d_actor_to_id d_reg_names d_max_children d_remote_handles
    d_remote_actor_to_id d_remote_spawn_meta d_stopping d_id_counter d_set_locals d_set_logic]; try done.
  - by apply wf_replace.
  - intros c (d & Hd & ->)%Hel. destruct (Hc d Hd) as (i & spec & [(b & Hb & Hbt)]).
    destruct (has_id id d) eqn:Hid; unfold has_id in Hid; bool_simpl.
    + exists h, spec. split; simpl; try done.
      * by exists true.
      * by rewrite Hid, lookup_insert_eq.
    + exists i, spec. split; simpl; try done.
      * exists b. split; [done|]. intros _. apply Hbt. congruence.
      * by rewrite lookup_insert_ne.
      * intros _. apply co_watched0. congruence.
  - intros j i. destruct (decide (j = id)) as [->|Hne].
    + intros _. exists (mkChild (policy c0) (Some (mkSlot h true))). split; [|done].
      destruct (replaced_policy id (mkSlot h true) (d_logic s) c0 Hc0) as (c1 & Hp1 & Hc1). destruct (Hel c1 Hc1) as (d & Hd & He).
      destruct (has_id id d) eqn:Hid; subst c1; simpl in *.
      * by rewrite Hp1.
      * unfold has_id in Hid. bool_simpl. congruence.
    + rewrite lookup_insert_ne by done. intros Hj. destruct (Hh j i Hj) as (c & Hin & Hcj).
      destruct (replaced_policy id (mkSlot h true) (d_logic s) c Hin) as (c1 & Hp1 & Hc1). exists c1. by rewrite <- Hp1.
  - intros j sp Hj. rewrite lookup_insert. case_decide; [done|]. by apply (Hsp j sp).
  - intros i j. rewrite Hi0, !lookup_insert_Some, lookup_delete_Some, Ha. split.
    + intros [[-> ->]|(Hne & Hne' & Hj)]; [by left|]. right. split; [|done]. intros ->. congruence.
    + intros [[-> ->]|[Hne Hj]]; [by left|]. right. split_and!; [|..|done].
      * intros ->. by apply (Hfh j).
      * intros ->. apply Ha in Hi0, Hj. congruence.
  - intros n j Hnj. destruct (Hn n j Hnj) as [Hsome Hu]. split; [|done].
    rewrite lookup_insert. by case_decide.
  - intros m Hm'. rewrite Hlen. by apply Hm.
Qed.

Lemma dyn_restart_inv id s g w c0 :
  dyn_inv (Some id) s w → c0 ∈ children (d_logic s) → cp_id (policy c0) = id →
  let '(s', g', w') := dyn_restart_child_with_backoff me id s g w in
  dyn_inv None s' w' ∧ g' = g ∧ d_max_children s' = d_max_children s ∧ d_id_counter s' = d_id_counter s.
Proof.
  intros Hinv Hc0 Hid0. unfold dyn_restart_child_with_backoff.
  pose proof (backoff_delay_keeps id (dyn_backoff_for id s) (d_logic s)) as Hk.
  destruct (backoff_delay id (dyn_backoff_for id s) (d_logic s)) as [delay l].
  destruct Hk as (Hch & Hsu & _ & Hst).
  set (w1 := if decide (delay = 0%Z) then w else ce_sleep delay w).
  assert (cl_le w w1) as Hle.
  { unfold w1. case_decide; [apply cl_le_refl|]. apply cl_sleep, Hinv. }
  pose proof (dyn_inv_le _ _ _ _ Hle (dyn_inv_logic _ _ _ l Hch Hst Hsu Hinv)) as Hinv1.
  clearbody w1. rewrite bool_decide_eq_false_2; [|].
  2:{ simpl. destruct (di_remote _ _ _ Hinv) as (_ & _ & ->). rewrite lookup_empty. by intros []. }
  unfold dyn_restart_child. rewrite <- Hch in Hc0.
  destruct (di_child _ _ _ Hinv1 c0 Hc0) as (i & spec & [_ _ Hsp _ [Hrem Hstart] _ _ _]).
  rewrite Hid0 in Hsp. rewrite Hsp.
  pose proof (cl_start spec w1 (di_ok _ _ _ Hinv1) Hrem Hstart) as Hs.
  destruct (ce_start spec w1) as [h w2]. destruct Hs as (Hle2 & Hnk & Hkn & Hacc).
  split_and!; try done. by apply (dyn_inv_restarted id _ w1 w2 h c0).
Qed.

(** *** Starting *)

(** A counter not used yet gives an id that no child has. *)
Lemma fresh_instance x s w t k c :
  dyn_inv x s w → (d_id_counter s < k)%N → c ∈ children (d_logic s) →
  cp_id (policy c) ≠ instance_id t k.
Proof.
  intros Hinv Hlt Hin He.
  destruct (di_child _ _ _ Hinv c Hin) as (i & sp & [_ _ _ _ _ (t' & k' & Hid' & Hk') _ _]).
  rewrite He in Hid'. apply instance_id_counter in Hid'. lia.
Qed.

Lemma dyn_inv_started spec s w w' h id k t :
  dyn_inv None s w → local_spec spec → cl_le w w' → ¬ cl_known w h → cl_known w' h →
  watched w' h → id = instance_id t k → (d_id_counter s < k)%N → at_capacity s = false →
  dyn_inv None (d_set_locals (<[id := spec]> (d_specs s)) (<[id := h]> (d_handles s))
    (<[h := id]> (d_actor_to_id s))
    (d_set_logic (register_child (mkChildPolicy id (cs_restart spec) (next_start_index (d_logic s)))
                    (mkSlot h true) (d_logic s)) (d_set_counter k s))) w' ∧
  d_handles s !! id = None.
Proof.
  intros Hinv0 Hloc Hle Hnk Hk Hacc Hidk Hlt Hcap.
  pose proof (λ j, fresh_handle _ s w h j Hinv0 Hnk) as Hfh.
  pose proof (fresh_slot _ s w h Hinv0 Hnk) as Hfs.
  pose proof (dyn_inv_le _ _ _ _ Hle Hinv0) as [Hok Hwf Hone Hc Hh Hsp Ha Hn Hm Hr Hs].
  assert (∀ c, c ∈ children (d_logic s) → cp_id (policy c) ≠ id) as Hnew.
  { rewrite Hidk. intros c Hin. by apply (fresh_instance None s w). }
  assert (d_handles s !! id = None) as Hnone.
  { destruct (d_handles s !! id) as [i|] eqn:Hi; [|done]. destruct (Hh id i Hi) as (c & Hin & He).
    by destruct (Hnew c Hin). }
  split; [|done].
  split; cbn [d_logic d_handles d_specs d_actor_to_id d_reg_names d_max_children d_remote_handles
    d_remote_actor_to_id d_remote_spawn_meta d_stopping d_id_counter d_set_locals d_set_logic
    d_set_counter]; try done.
  - apply wf_register; [|done]. split_and!; simpl; [|done|done].
    apply existsb_false. intros c Hin. unfold has_id. apply bool_decide_eq_false. by apply Hnew.
  - simpl. intros c [Hin|Hin]%elem_of_app.
    + destruct (Hc c Hin) as (i & sp & [? ? ? ? ? (t' & k' & ? & ?) ? ?]). exists i, sp.
      assert (cp_id (policy c) ≠ id) as Hne by (by apply Hnew).
      split; simpl; rewrite ?lookup_insert_ne by done; try done.
      exists t', k'. split; [done|lia].
    + apply list_elem_of_singleton in Hin as ->. exists h, spec.
      split; simpl; rewrite ?lookup_insert_eq; try done; [by exists true|].
      exists t, k. split; [done|lia].
  - simpl. intros j i [[-> ->]|[Hne Hj]]%lookup_insert_Some.
    + eexists. split; [apply elem_of_app; right; left|done].
    + destruct (Hh j i Hj) as (c & Hin & Hcj). exists c. split; [|done]. apply elem_of_app. by left.
  - intros j sp Hj. rewrite lookup_insert. case_decide; [done|]. rewrite lookup_insert_ne in Hj by done. by apply (Hsp j sp).
  - intros i j. rewrite !lookup_insert_Some, Ha. split.
    + intros [[-> ->]|[Hne Hj]]; [by left|]. right. split; [|done]. intros ->. congruence.
    + intros [[-> ->]|[Hne Hj]]; [by left|]. right. split; [|done]. intros ->. by apply (Hfh j).
  - intros n j Hnj. destruct (Hn n j Hnj) as [Hsome Hu]. split; [|done].
    rewrite lookup_insert. by case_decide.
  - simpl. intros m Hm'. rewrite length_app. simpl. unfold at_capacity in Hcap. rewrite Hm' in Hcap.
    bool_simpl. assert (child_count (d_logic s) = length (children (d_logic s))) as Hcnt; [|lia].
    unfold child_count. rewrite iter_filter_all; [done|]. intros c Hin.
    destruct (Hc c Hin) as (i & sp & [(b & Hb & Hbt) _ _ _ _ _ _ _]).
    unfold slot_alive. rewrite Hb. simpl. by apply Hbt.
Qed.

(** What [start_child] does, on every branch. *)
Definition started_as (spec : ChildSpec A) (reg_name : option string) (r : Result ActorId DynamicSupervisorError)
    s g w s' g' w' : Prop :=
  match r with
  | Ok i =>
      let id := instance_id (cs_id spec) (d_id_counter s + 1) in
      (∀ m, d_max_children s = Some m → count_children s < m) ∧
      d_handles s !! id = None ∧ ¬ cl_known w i ∧ watched w' i ∧
      children (d_logic s') = children (d_logic s) ++
        [mkChild (mkChildPolicy id (cs_restart spec) (next_start_index (d_logic s))) (Some (mkSlot i true))] ∧
      d_specs s' = <[id := spec]> (d_specs s) ∧ d_handles s' = <[id := i]> (d_handles s) ∧
      d_actor_to_id s' = <[i := id]> (d_actor_to_id s) ∧
      match reg_name with
      | Some n => g !! n = None ∧ g' = <[n := mkBoxed CHILD_HANDLE i]> g ∧
          d_reg_names s' = <[n := id]> (d_reg_names s)
      | None => g' = g ∧ d_reg_names s' = d_reg_names s
      end
  | Err MaxChildrenExceeded =>
      (∃ m, d_max_children s = Some m ∧ m ≤ count_children s) ∧ s' = s ∧ g' = g ∧ w' = w
  | Err (RegistryErr _) => (∀ m, d_max_children s = Some m → count_children s < m) ∧
      (∃ n, reg_name = Some n ∧ is_Some (g !! n)) ∧ g' = g ∧
      children (d_logic s') = children (d_logic s) ∧ d_specs s' = d_specs s ∧
      d_handles s' = d_handles s ∧ d_actor_to_id s' = d_actor_to_id s ∧ d_reg_names s' = d_reg_names s ∧
      ∃ i, ¬ cl_known w i ∧ cl_known w' i ∧ watched w' i
  | Err _ => False
  end.

Lemma below_capacity s m : at_capacity s = false → d_max_children s = Some m → count_children s < m.
Proof. unfold at_capacity, count_children. intros Hc Hm. rewrite Hm in Hc. bool_simpl. lia. Qed.

(** Removing the child that was entered last. *)
Lemma remove_registered p slot l :
  (∀ c, c ∈ children l → cp_id (policy c) ≠ cp_id p) →
  children (snd (remove_child_by_id (cp_id p) (register_child p slot l))) = children l.
Proof.
  intros Hnew. unfold remove_child_by_id, remove_child_where, register_child. cbn [children set_children].
  assert (position (has_id (cp_id p)) (children l ++ [mkChild p (Some slot)]) = Some (length (children l))) as ->.
  { induction (children l) as [|c cs IH]; simpl; unfold has_id at 1; simpl.
    - by rewrite bool_decide_eq_true_2.
    - rewrite bool_decide_eq_false_2; [|apply Hnew; left]. rewrite IH; [done|]. intros d Hd. apply Hnew. by right. }
  simpl. induction (children l) as [|c cs IH]; simpl; [done|]. f_equal. apply IH. intros d Hd. apply Hnew. by right.
Qed.

Lemma dyn_start_inv spec reg_name s g w :
  dyn_inv None s w → local_spec spec → (d_id_counter s < 2 ^ 64 - 1)%N →
  let '(r, (s', g', w')) := dyn_start_child spec reg_name s g w in
  dyn_inv None s' w' ∧ cl_le w w' ∧ started_as spec reg_name r s g w s' g' w'.
Proof.
  intros Hinv Hloc Hcnt. unfold dyn_start_child. rewrite (di_stopping _ _ _ Hinv).
  destruct (at_capacity s) eqn:Hcap.
  { split; [done|]. split; [apply cl_le_refl|]. split_and!; try done. unfold at_capacity in Hcap.
    destruct (d_max_children s) as [m|]; [|done]. bool_simpl. by exists m. }
  assert (wrapping_succ_u64 (d_id_counter s) = d_id_counter s + 1)%N as Hsucc
    by (apply N.mod_small; lia).
  rewrite Hsucc. cbn [d_set_counter d_logic d_id_counter].
  set (k := (d_id_counter s + 1)%N). set (id := instance_id (cs_id spec) k).
  assert (∀ c, c ∈ children (d_logic s) → cp_id (policy c) ≠ id) as Hnew.
  { intros c Hin. apply (fresh_instance None s w); [done|lia|done]. }
  assert (has_child_id id (d_logic s) = false) as ->.
  { apply existsb_false. intros c Hin. unfold has_id. apply bool_decide_eq_false. by apply Hnew. }
  pose proof (cl_start spec w (di_ok _ _ _ Hinv) (proj1 Hloc) (proj2 Hloc)) as Hs.
  destruct (ce_start spec w) as [h w']. destruct Hs as (Hle & Hnk & Hk & Hacc).
  destruct (dyn_inv_started spec s w w' h id k (cs_id spec) Hinv Hloc Hle Hnk Hk Hacc eq_refl
    ltac:(lia) Hcap) as [Hinv' Hnone]. cbn [d_set_counter d_specs d_handles d_actor_to_id].
  set (s1 := d_set_locals _ _ _ _) in *.
  assert (d_specs s !! id = None) as Hnos.
  { destruct (d_specs s !! id) as [sp|] eqn:Hs; [|done]. destruct (di_specs _ _ _ Hinv id sp Hs) as [i Hi]. congruence. }
  assert (d_actor_to_id s !! h = None) as Hnoa.
  { destruct (d_actor_to_id s !! h) as [j|] eqn:Hj; [|done]. apply (di_a2i _ _ _ Hinv) in Hj.
    by destruct (fresh_handle None s w h j Hinv Hnk). }
  assert (∀ n, d_reg_names s !! n ≠ Some id) as Hnn.
  { intros n Hn. destruct (di_names _ _ _ Hinv n id Hn) as [[i Hi] _]. congruence. }
  assert (∀ m, d_max_children s = Some m → count_children s < m) as Hlim by (intros m; by apply below_capacity).
  destruct reg_name as [name|]; [|by split_and!].
  unfold register. destruct (g !! name) as [b|] eqn:Hg.
  - pose proof (cleanup_inv id s1 g w' (dyn_inv_weaken id _ _ Hinv')) as Hc.
    destruct (cleanup_tables id s1 g) as (Hc2 & Hsp2 & Ha2).
    destruct (cleanup_child id s1 g) as [s2 g2]. destruct Hc as (Hinv2 & Hh2 & _ & Hg2 & _).
    cbn [fst] in Hc2, Hsp2, Ha2. split; [done|]. split; [done|]. split_and!; try done.
    + by exists name.
    + apply map_eq. intros n. by apply Hg2.
    + rewrite <- Hc2. apply (remove_registered (mkChildPolicy id (cs_restart spec) (next_start_index (d_logic s)))). exact Hnew.
    + rewrite Hsp2. simpl. rewrite delete_insert_eq. by apply delete_id.
    + rewrite Hh2. simpl. by apply delete_insert_id.
    + rewrite Ha2. simpl. rewrite lookup_insert_eq, delete_insert_eq. by apply delete_id.
    + apply map_eq. intros n. destruct (Hg2 n) as [_ ->]; [|done]. apply Hnn.
    + exists h. done.
  - split_and!; try done.
    destruct Hinv' as [Hok Hwf Hone Hc Hh Hsp Ha Hn Hm Hr Hst]. split; try done.
    + intros c Hin. destruct (Hc c Hin) as (i & sp & []). exists i, sp. by split.
    + simpl. intros n j [[<- <-]|[Hne Hnj]]%lookup_insert_Some.
      * split; [by rewrite lookup_insert_eq|]. intros n' [[<- _]|[_ Hn']]%lookup_insert_Some; [done|].
        by destruct (Hnn n').
      * destruct (Hn n j Hnj) as [Hsome Hu]. split; [done|].
        intros n' [[_ <-]|[_ Hn']]%lookup_insert_Some; [by destruct (Hnn n)|by apply Hu].
Qed.

(** What [start_child_remote] does; the spawn request is [RemoteSpawn]'s. *)
Definition remote_started_as (spec : RemoteSpawnSpec) (placement : NodeId) (link : bool)
    (r : Result RemoteChildHandle DynamicSupervisorError) s g w s' g' w' : Prop :=
  let id := instance_id "remote" (d_id_counter s + 1) in
  let '(q, w1) := request_spawn_with_retry placement (local_addr me) spec link default_retry w in
  g' = g ∧ d_handles s' = d_handles s ∧ d_actor_to_id s' = d_actor_to_id s ∧ d_specs s' = d_specs s ∧
  match r with
  | Ok h => (∀ m, d_max_children s = Some m → count_children s < m) ∧ w' = w1 ∧
      q = Ok (rh_address h) ∧ rh_parent h = local_addr me ∧
      (∀ c, c ∈ children (d_logic s) → cp_id (policy c) ≠ id) ∧
      children (d_logic s') = children (d_logic s) ++
        [mkChild (mkChildPolicy id Permanent (next_start_index (d_logic s)))
           (Some (mkSlot (actor_id (rh_address h)) true))] ∧
      d_remote_handles s' = <[id := h]> (d_remote_handles s) ∧
      d_remote_actor_to_id s' = <[actor_id (rh_address h) := id]> (d_remote_actor_to_id s) ∧
      d_remote_spawn_meta s' = <[id := mkMeta spec placement link]> (d_remote_spawn_meta s)
  | Err MaxChildrenExceeded =>
      (∃ m, d_max_children s = Some m ∧ m ≤ count_children s) ∧ s' = s ∧ w' = w
  | Err (RemoteSpawnErr msg) => (∀ m, d_max_children s = Some m → count_children s < m) ∧ w' = w1 ∧
      (∃ e, q = Err e ∧ msg = display_spawn_error e) ∧ children (d_logic s') = children (d_logic s) ∧
      d_remote_handles s' = d_remote_handles s ∧ d_remote_actor_to_id s' = d_remote_actor_to_id s ∧
      d_remote_spawn_meta s' = d_remote_spawn_meta s
  | Err _ => False
  end.

Lemma start_remote_spec spec placement link s g w :
  dyn_inv None s w → (d_id_counter s < 2 ^ 64 - 1)%N →
  let '(r, (s', g', w')) := dyn_start_child_remote me spec placement link s g w in
  remote_started_as spec placement link r s g w s' g' w'.
Proof.
  intros Hinv Hcnt. unfold dyn_start_child_remote, remote_started_as. rewrite (di_stopping _ _ _ Hinv).
  destruct (at_capacity s) eqn:Hcap.
  { destruct (request_spawn_with_retry _ _ _ _ _ w) as [q w1]. split_and!; try done. unfold at_capacity in Hcap.
    destruct (d_max_children s) as [m|]; [|done]. bool_simpl. by exists m. }
  assert (∀ m, d_max_children s = Some m → count_children s < m) as Hlim by (intros m; by apply below_capacity).
  assert (wrapping_succ_u64 (d_id_counter s) = d_id_counter s + 1)%N as Hsucc by (apply N.mod_small; lia).
  rewrite Hsucc. cbn [d_set_counter d_logic d_id_counter].
  assert (∀ c, c ∈ children (d_logic s) → cp_id (policy c) ≠ instance_id "remote" (d_id_counter s + 1)) as Hnew.
  { intros c Hin. apply (fresh_instance None s w); [done|lia|done]. }
  assert (has_child_id (instance_id "remote" (d_id_counter s + 1)) (d_logic s) = false) as ->.
  { apply existsb_false. intros c Hin. unfold has_id. apply bool_decide_eq_false. by apply Hnew. }
  destruct (request_spawn_with_retry _ _ _ _ _ w) as [[a|e] w1]; simpl; split_and!; try done. by exists e.
Qed.

(** *** Terminating *)

Lemma remove_twice id l :
  wf l → snd (remove_child_by_id id (snd (remove_child_by_id id l))) = snd (remove_child_by_id id l).
Proof.
  intros Hwf. pose proof (λ c, elem_of_removed id l c Hwf) as Hel.
  set (l' := snd (remove_child_by_id id l)) in *. clearbody l'.
  unfold remove_child_by_id, remove_child_where.
  destruct (position (has_id id) (children l')) as [k|] eqn:Hp; [|done].
  apply position_Some in Hp as (d & Hk & Hid & _). apply list_elem_of_lookup_2, Hel in Hk as [_ Hne].
  unfold has_id in Hid. by bool_simpl.
Qed.

(** What [terminate_child_by_actor] does. *)
Definition terminated_as (a : ActorId) (r : Result () DynamicSupervisorError) s g w s' g' w' : Prop :=
  match d_actor_to_id s !! a with
  | Some id => r = Ok () ∧ is_Some (ce_exit_reason a w') ∧ d_handles s' = delete id (d_handles s) ∧
      (∀ n, d_reg_names s !! n = Some id → g' !! n = None) ∧
      (∀ n, d_reg_names s !! n ≠ Some id → g' !! n = g !! n)
  | None => r = Err (ChildNotFound a) ∧ s' = s ∧ g' = g ∧ w' = w
  end.

Lemma terminate_inv a s g w :
  dyn_inv None s w →
  let '(r, (s', g', w')) := terminate_child_by_actor rt a s g w in
  dyn_inv None s' w' ∧ cl_le w w' ∧ d_id_counter s' = d_id_counter s ∧ terminated_as a r s g w s' g' w'.
Proof.
  intros Hinv. unfold terminate_child_by_actor, terminated_as.
  destruct (di_remote _ _ _ Hinv) as (_ & Hr & _). rewrite Hr, lookup_empty. cbn [mbind option_bind].
  unfold terminate_local. destruct (d_actor_to_id s !! a) as [id|] eqn:Ha.
  2:{ split_and!; try done. apply cl_le_refl. }
  apply (di_a2i _ _ _ Hinv) in Ha. rewrite Ha.
  destruct (di_handles _ _ _ Hinv id a Ha) as (c & Hin & Hid).
  destruct (di_child _ _ _ Hinv c Hin) as (i & spec & [_ Hi _ _ _ _ Hk _]).
  rewrite Hid, Ha in Hi. injection Hi as <-.
  pose proof (shutdown_child_le_exited a (dyn_shutdown_for id s) w (di_ok _ _ _ Hinv) Hk) as Hx.
  destruct (shutdown_child a (dyn_shutdown_for id s) w) as [x w']. destruct Hx as [Hle Hx].
  assert (cleanup_child id (d_set_logic (snd (remove_child_by_id id (d_logic s))) s) g =
    cleanup_child id s g) as ->.
  { unfold cleanup_child. cbn [d_logic d_set_logic d_reg_names d_handles d_specs d_actor_to_id
      d_id_counter d_max_children d_stopping d_remote_handles d_remote_actor_to_id d_remote_spawn_meta].
    by rewrite remove_twice by apply Hinv. }
  pose proof (cleanup_inv id s g w' (dyn_inv_weaken id _ _ (dyn_inv_le _ _ _ _ Hle Hinv))) as Hc.
  assert (d_id_counter (fst (cleanup_child id s g)) = d_id_counter s) as Hcnt.
  { unfold cleanup_child. by destruct (iter_find _ _) as [[]|]. }
  destruct (cleanup_child id s g) as [s2 g2]. destruct Hc as (Hinv2 & Hh2 & Hg1 & Hg2 & _).
  split_and!; try done. intros n Hn. by apply Hg2.
Qed.

(** *** Handling an exit *)

Definition dyn_exit_action (e : Exit) s w : SupervisorAction :=
  fst (on_child_exit (actor_id (from e)) (reason e) (fst (ce_now w)) (d_logic s)).

(** What an exit of actor [a] leaves to do: the tables are in order but for
    the child whose live slot it held. *)
Definition dyn_marked s l w2 a : Prop :=
  ∀ x, suppress_restarts l = false →
    (∀ c, c ∈ children (d_logic s) → slot_is_alive a c = true → x = Some (cp_id (policy c))) →
    dyn_inv x (d_set_logic l s) w2.

(** A child that is not restarted is erased. *)
Lemma dyn_forget_inv s g w w2 l a :
  dyn_inv None s w → children l = children (mark_child_dead a (d_logic s)) →
  suppress_restarts l = false → dyn_marked s l w2 a →
  let '(s', g', w') :=
    match child_id_by_actor_any a l with
    | Some id => let '(s, g) := cleanup_child id (d_set_logic l s) g in (s, g, w2)
    | None => (d_set_logic l s, g, w2)
    end in dyn_inv None s' w'.
Proof.
  intros Hinv Hch Hs Hmark.
  destruct (child_id_by_actor_any a l) as [cid|] eqn:Hany; unfold child_id_by_actor_any in Hany.
  + apply fmap_Some in Hany as (c' & [Hin' Hsl]%iter_find_Some & ->).
    rewrite Hch in Hin'. apply elem_of_marked in Hin' as (d & Hd & ->); [|apply Hinv].
    pose proof (cleanup_inv (cp_id (policy d)) (d_set_logic l s) g w2) as Hc.
    assert (policy (if slot_is_alive a d then kill_slot d else d) = policy d) as Hpd
      by (by destruct (slot_is_alive a d)). cbn [compose]. rewrite Hpd.
    destruct (cleanup_child _ _ g) as [s2 g2]. apply Hc. apply Hmark; [done|].
    intros c Hc' Hac. f_equal. apply slot_is_alive_inv in Hac.
    destruct (di_child _ _ _ Hinv c Hc') as (i & sp & Hi).
    destruct (di_child _ _ _ Hinv d Hd) as (j & sp' & Hj).
    apply (dyn_inv_slot None s w d c j sp' i sp Hinv Hj Hi).
    destruct Hi as [(b & Hbi & _)]. destruct Hj as [(b' & Hbj & _)]. rewrite Hac in Hbi.
    injection Hbi as <- _. unfold slot_is in Hsl.
    destruct (slot_is_alive a d); simpl in Hsl; rewrite Hbj in Hsl; simpl in Hsl; by bool_simpl.
  + apply Hmark; [done|]. intros c Hc Hac. exfalso.
    apply fmap_None in Hany. rewrite iter_find_None in Hany.
    specialize (Hany (kill_slot c)). rewrite Hch in Hany.
    assert (slot_is a (kill_slot c) = true) as Hk.
    { apply slot_is_alive_inv in Hac. unfold slot_is. simpl. rewrite Hac. simpl.
      by apply bool_decide_eq_true. }
    rewrite Hany in Hk; [done|]. apply elem_of_marked; [apply Hinv|]. exists c. by rewrite Hac.
Qed.

Lemma dyn_handle_exit_inv s g w e w1 :
  dyn_inv None s w → ce_recv w = Some (e, w1) → dyn_exit_action e s w1 ≠ Meltdown →
  let '(s', g', w') := dyn_handle_exit me e s g w1 in dyn_inv None s' w'.
Proof.
  intros Hinv Hrecv Hnm. unfold dyn_handle_exit. unfold dyn_exit_action in Hnm.
  destruct (cl_recv w e w1 (di_ok _ _ _ Hinv) Hrecv) as (Hok1 & Hkn1 & _).
  pose proof (cl_now w1 Hok1) as Hle2. destruct (ce_now w1) as [now w2]. simpl in Hle2, Hnm.
  set (a := actor_id (from e)) in *. destruct (di_one _ _ _ Hinv) as [Hone Hsup].
  pose proof (on_child_exit_cases a (reason e) now (d_logic s) Hsup (di_wf _ _ _ Hinv)) as Hcase.
  pose proof (on_child_exit_strategy a (reason e) now (d_logic s)) as Hstr.
  pose proof (λ ids l, on_child_exit_batch a (reason e) now (d_logic s) ids l) as Hb.
  destruct (on_child_exit a (reason e) now (d_logic s)) as [act l]. simpl in Hnm, Hstr.
  destruct Hcase as (Hch & Hact & Hex).
  assert (dyn_marked s l w2 a) as Hmark.
  { intros x Hsl Hx. apply (dyn_inv_mark x s w w2 a); try done.
    - exact (cl_le_ok _ _ Hle2 Hok1).
    - intros i Hi. exact (cl_le_known _ _ _ Hok1 Hle2 (Hkn1 i Hi)).
    - intros i Hi Hne. apply (watched_le _ _ _ Hok1 Hle2).
      apply (watched_recv w e w1 i (di_ok _ _ _ Hinv) Hrecv Hi).
      intros He. apply Hne. unfold a. by rewrite He. }
  destruct act as [|id|ids|]; [| | |done].
  - destruct Hact as (Hs & _ & _). exact (dyn_forget_inv s g w w2 l a Hinv Hch Hs Hmark).
  - destruct Hact as (Hs & _ & Hid). destruct Hex as (c0 & Hc0 & Hid0).
    assert (dyn_inv (Some id) (d_set_logic l s) w2) as Hinv2.
    { apply Hmark; [done|]. intros c Hc Hac. by rewrite (Hid c Hc Hac). }
    pose proof (dyn_restart_inv id (d_set_logic l s) g w2
      (if slot_is_alive a c0 then kill_slot c0 else c0) Hinv2) as Hr.
    destruct (dyn_restart_child_with_backoff me id (d_set_logic l s) g w2) as [[s' g'] w'].
    apply Hr; [|by destruct (slot_is_alive a c0)]. simpl. rewrite Hch. apply elem_of_marked; [apply Hinv|].
    eauto.
  - destruct (Hb ids l eq_refl) as (_ & _ & _ & _ & _ & _ & _ & _ & _ & [[_ ?]|[_ ?]]); congruence.
Qed.

(** ** Histories *)

(** States of a dynamic supervisor: the rest of the system moves and may
    change the registry, and the supervisor handles requests and exits. It
    stops at a meltdown. *)
Inductive dyn_reach (b : DynamicSupervisorBuilder) (w0 : W)
    : DynamicSupervisor A → gmap string (Boxed (V := ActorId)) → W → Prop :=
| dreach_started g :
    dyn_reach b w0 (dyn_builder_start b) g (dyn_started me w0)
| dreach_env s g w g' w' :
    dyn_reach b w0 s g w → cl_le w w' → dyn_reach b w0 s g' w'
| dreach_start s g w spec reg_name r s' g' w' :
    dyn_reach b w0 s g w → local_spec spec → (d_id_counter s < 2 ^ 64 - 1)%N →
    dyn_start_child spec reg_name s g w = (r, (s', g', w')) → dyn_reach b w0 s' g' w'
| dreach_terminate s g w a r s' g' w' :
    dyn_reach b w0 s g w → terminate_child_by_actor rt a s g w = (r, (s', g', w')) →
    dyn_reach b w0 s' g' w'
| dreach_exit s g w e w1 s' g' w' :
    dyn_reach b w0 s g w → ce_recv w = Some (e, w1) → dyn_exit_action e s w1 ≠ Meltdown →
    dyn_handle_exit me e s g w1 = (s', g', w') → dyn_reach b w0 s' g' w'.

(** The limit never changes. *)
Lemma cleanup_max id s g : d_max_children (fst (cleanup_child id s g)) = d_max_children s.
Proof. unfold cleanup_child. by destruct (iter_find _ _) as [[]|]. Qed.

Lemma dyn_start_max spec n s g w :
  d_max_children (fst (fst (snd (dyn_start_child spec n s g w)))) = d_max_children s.
Proof.
  unfold dyn_start_child. destruct (d_stopping s), (at_capacity s); try done.
  destruct (has_child_id _ _); [done|]. destruct (ce_start spec w) as [h w'].
  destruct n as [n|]; [|done]. destruct (register n _ h g) as [[] g']; [done|].
  match goal with |- context [cleanup_child ?i ?x ?y] => pose proof (cleanup_max i x y) as Hc;
    destruct (cleanup_child i x y) end. done.
Qed.

Lemma terminate_max a s g w :
  dyn_inv None s w →
  d_max_children (fst (fst (snd (terminate_child_by_actor rt a s g w)))) = d_max_children s.
Proof.
  intros Hinv. unfold terminate_child_by_actor.
  destruct (di_remote _ _ _ Hinv) as (_ & Hr & _). rewrite Hr, lookup_empty. cbn [mbind option_bind].
  unfold terminate_local. destruct (d_actor_to_id s !! a) as [id|]; [|done].
  destruct (d_handles s !! id) as [h|]; [|done]. destruct (shutdown_child _ _ _) as [? ?].
  match goal with |- context [cleanup_child ?i ?x ?y] => pose proof (cleanup_max i x y) as Hc;
    destruct (cleanup_child i x y) end. done.
Qed.

Lemma dyn_handle_exit_max e s g w :
  d_remote_spawn_meta s = ∅ →
  d_max_children (fst (fst (dyn_handle_exit me e s g w))) = d_max_children s.
Proof.
  intros Hr. unfold dyn_handle_exit. destruct (ce_now w) as [now w'].
  destruct (on_child_exit _ _ now _) as [[|id| |] l]; try done.
  - destruct (child_id_by_actor_any _ _); [|done].
    match goal with |- context [cleanup_child ?i ?x ?y] => pose proof (cleanup_max i x y) as Hc;
      destruct (cleanup_child i x y) end. done.
  - unfold dyn_restart_child_with_backoff. destruct (backoff_delay _ _ _) as [delay l'].
    rewrite bool_decide_eq_false_2 by (simpl; rewrite Hr, lookup_empty; by intros []).
    unfold dyn_restart_child. simpl. destruct (d_specs s !! id); [|done].
    by destruct (ce_start _ _).
Qed.

Lemma dyn_reach_inv b w0 s g w :
  cl_ok (dyn_started me w0) → dyn_reach b w0 s g w →
  dyn_inv None s w ∧ d_max_children s = db_max_children b.
Proof.
  intros Hok. induction 1 as [g|s g w g' w' _ IH Hle|s g w spec n r s' g' w' _ IH Hloc Hcnt Hs
    |s g w a r s' g' w' _ IH Ht|s g w e w1 s' g' w' _ IH Hrecv Hnm Hh]; try destruct IH as [Hinv Hmax].
  - split; [|done]. split; simpl; try done; try (by intros * ?%not_elem_of_nil); try lia.
    apply wf_new.
  - split; [|done]. exact (dyn_inv_le _ _ _ _ Hle Hinv).
  - pose proof (dyn_start_inv spec n s g w Hinv Hloc Hcnt) as Hi.
    pose proof (dyn_start_max spec n s g w) as Hm. rewrite Hs in Hi, Hm. simpl in Hm.
    destruct Hi as [? _]. split; [done|congruence].
  - pose proof (terminate_inv a s g w Hinv) as Hi. pose proof (terminate_max a s g w Hinv) as Hm.
    rewrite Ht in Hi, Hm. simpl in Hm. destruct Hi as [? _]. split; [done|congruence].
  - pose proof (dyn_handle_exit_inv s g w e w1 Hinv Hrecv Hnm) as Hi.
    pose proof (dyn_handle_exit_max e s g w1) as Hm. rewrite Hh in Hi, Hm.
    destruct (di_remote _ _ _ Hinv) as (_ & _ & Hr). split; [done|]. rewrite <- Hmax. by apply Hm.
Qed.

(** ** Reading the invariant *)

Lemma which_children_ids s :
  (∀ c, c ∈ children (d_logic s) → is_Some (handle c)) →
  dci_id <$> which_children s = all_child_ids (children (d_logic s)).
Proof.
  intros Hh. unfold which_children, list_children, all_child_ids. rewrite <- list_fmap_compose.
  induction (children (d_logic s)) as [|c cs IH]; [done|].
  destruct (Hh c ltac:(left)) as [sl Hsl]. csimpl. unfold child_info at 1. rewrite Hsl. csimpl.
  f_equal. apply IH. intros d Hd. apply Hh. by right.
Qed.

Lemma elem_of_which s i :
  i ∈ which_children s ↔ ∃ c sl, c ∈ children (d_logic s) ∧ handle c = Some sl ∧
    i = mkDynamicChildInfo (cp_id (policy c)) (slot_id sl) (alive sl) (cp_restart (policy c))
          (dyn_shutdown_for (cp_id (policy c)) s).
Proof.
  unfold which_children, list_children. rewrite list_elem_of_fmap. split.
  - intros (ci & -> & (c & Hc & Hin)%list_elem_of_omap). unfold child_info in Hin.
    destruct (handle c) as [sl|] eqn:Hsl; [|done]. injection Hin as <-. eauto.
  - intros (c & sl & Hc & Hsl & ->). eexists. split; [|apply list_elem_of_omap; exists c; split; [done|];
      unfold child_info; by rewrite Hsl]. done.
Qed.

Lemma children_alive s w :
  dyn_inv None s w → ∀ c, c ∈ children (d_logic s) → slot_alive c = true.
Proof.
  intros Hinv c Hin. destruct (di_child _ _ _ Hinv c Hin) as (i & sp & [(b & Hb & Hbt) _ _ _ _ _ _ _]).
  unfold slot_alive. rewrite Hb. simpl. by apply Hbt.
Qed.

Lemma dyn_stop_all s ids w :
  dyn_inv None s w → (∀ id, id ∈ ids → is_Some (d_handles s !! id)) →
  let w' := foldl (λ w id, dyn_stop_one rt id s w) w ids in
  cl_le w w' ∧ ∀ id i, id ∈ ids → d_handles s !! id = Some i → is_Some (ce_exit_reason i w').
Proof.
  revert w. induction ids as [|id ids IH]; intros w Hinv Hids; simpl.
  { split; [apply cl_le_refl|]. by intros ? ? ?%not_elem_of_nil. }
  destruct (Hids id ltac:(left)) as [i Hi].
  destruct (di_handles _ _ _ Hinv id i Hi) as (c & Hin & Hid).
  destruct (di_child _ _ _ Hinv c Hin) as (j & sp & [_ Hj _ _ _ _ Hk _]).
  rewrite Hid, Hi in Hj. injection Hj as <-.
  assert (let w' := dyn_stop_one rt id s w in cl_le w w' ∧ is_Some (ce_exit_reason i w')) as [Hle1 [r Hx]].
  { unfold dyn_stop_one. destruct (di_remote _ _ _ Hinv) as (-> & _). rewrite Hi, lookup_empty.
    pose proof (shutdown_child_le_exited i (dyn_shutdown_for id s) w (di_ok _ _ _ Hinv) Hk) as Hx.
    destruct (shutdown_child i (dyn_shutdown_for id s) w) as [r w']. destruct Hx as [? Hx]. simpl.
    by rewrite Hx. }
  pose proof (cl_le_ok _ _ Hle1 (di_ok _ _ _ Hinv)) as Hok1.
  destruct (IH (dyn_stop_one rt id s w)) as [Hle' Hall].
  { exact (dyn_inv_le _ _ _ _ Hle1 Hinv). }
  { intros id' Hin'. apply Hids. by right. }
  split; [exact (cl_le_trans _ _ _ Hle1 Hle')|].
  intros id' i' [->|Hin']%elem_of_cons Hi'; [|by eapply Hall].
  rewrite Hi in Hi'. injection Hi' as <-. exists r. exact (cl_le_exited _ _ _ _ Hok1 Hle' Hx).
Qed.
End invariant.

Lemma unregister_all ns (g : gmap string (Boxed (V := ActorId))) n :
  foldl (λ g name, unregister name g) g ns !! n = if decide (n ∈ ns) then None else g !! n.
Proof.
  revert g. induction ns as [|m ns IH]; intros g; cbn [foldl].
  { rewrite decide_False; [done|apply not_elem_of_nil]. }
 
  rewrite IH. unfold unregister. destruct (decide (n ∈ ns)) as [Hin|Hni].
  - rewrite decide_True by (by right). done.
  - rewrite lookup_delete. destruct (decide (m = n)) as [->|Hne].
    + rewrite decide_True; [done|left].
    + rewrite decide_False; [done|]. intros [?|?]%elem_of_cons; congruence.
Qed.

(** ** What a dynamic supervisor promises *)

(** What the tables say about the children. *)
Definition reports_ok {A W} `{ThisNode} `{ChildEnv A W} (limit : option nat) (s : DynamicSupervisor A) (w : W) : Prop :=
  NoDup (dci_id <$> which_children s) ∧ count_children s = length (which_children s) ∧
  (∀ m, limit = Some m → count_children s ≤ m) ∧
  (∀ i id, d_actor_to_id s !! i = Some id ↔
     ∃ c, c ∈ which_children s ∧ dci_actor_id c = i ∧ dci_id c = id) ∧
  ∀ c, c ∈ which_children s → dci_alive c = true ∧
    (ce_exit_reason (dci_actor_id c) w = None ∨
     (∃ r, mkExit (local_addr (dci_actor_id c)) r ∈ ce_inbox w) ∨
     ce_self_cancelled w = true ∨ dci_actor_id c ∈ ce_late w).

Lemma dyn_inv_reports {A W} `{ChildLaws A W} (limit : option nat) (s : DynamicSupervisor A) (w : W) :
  dyn_inv None s w → d_max_children s = limit → reports_ok limit s w.
Proof.
  intros Hinv Hmax.
  pose proof (children_alive s w Hinv) as Hal.
  assert (dci_id <$> which_children s = all_child_ids (children (d_logic s))) as Hids.
  { apply which_children_ids. intros c Hc. specialize (Hal c Hc). unfold slot_alive in Hal.
    by destruct (handle c). }
  assert (count_children s = length (children (d_logic s))) as Hcnt.
  { unfold count_children, child_count. by rewrite iter_filter_all. }
  assert (∀ ci, ci ∈ which_children s → dci_alive ci = true ∧ watched w (dci_actor_id ci) ∧
    d_handles s !! dci_id ci = Some (dci_actor_id ci)) as Hall.
  { intros ci (c & sl & Hc & Hsl & ->)%elem_of_which. simpl.
    destruct (di_child _ _ _ Hinv c Hc) as (i & sp & [(bb & Hb & Hbt) Hh _ _ _ _ _ Hacc]).
    rewrite Hsl in Hb. injection Hb as ->. simpl. by split_and!; [apply Hbt|apply Hacc|]. }
  split_and!.
  - rewrite Hids. apply Hinv.
  - rewrite Hcnt, <- (length_fmap dci_id (which_children s)), Hids. unfold all_child_ids.
    by rewrite length_fmap.
  - intros m Hm. rewrite Hcnt. apply (di_max _ _ _ Hinv). congruence.
  - intros i id. rewrite (di_a2i _ _ _ Hinv). split.
    + intros Hi. destruct (di_handles _ _ _ Hinv id i Hi) as (c & Hc & <-).
      destruct (di_child _ _ _ Hinv c Hc) as (j & sp & [(bb & Hb & _) Hh _ _ _ _ _ _]).
      rewrite Hh in Hi. injection Hi as ->. eexists. split; [apply elem_of_which; by eauto|done].
    + intros (c & Hc & <- & <-). by apply Hall.
  - intros ci Hci. destruct (Hall ci Hci) as (? & Hw & _). split; [done|].
    exact (watched_spec w _ (di_ok _ _ _ Hinv) Hw).
Qed.

(** C3: the guarantee of a dynamic supervisor whose children are all local.
    After any sequence of start requests (of local specs, fewer than 2^64 of
    them), terminate requests and handled exits short of a meltdown, and
    whatever is still waiting for it: the children it reports have distinct
    ids and are exactly those it counts and those that can be terminated by
    their actor id, never more than [max_children]; all are reported alive.
    A child it reports does run unless its [Exit] message is waiting in the
    supervisor's inbox, or the supervisor has itself been cancelled, or the
    child exited in the window of its own start in which the exit signal is
    lost ([ce_late]). *)
Theorem dynamic_supervisor_guarantee {A W} `{ChildLaws A W} `{RemoteEnv W} rt me b (w0 : W)
    (s : DynamicSupervisor A) g w :
  cl_ok (dyn_started me w0) → dyn_reach rt me b w0 s g w →
  NoDup (dci_id <$> which_children s) ∧ count_children s = length (which_children s) ∧
  (∀ m, db_max_children b = Some m → count_children s ≤ m) ∧
  (∀ i id, d_actor_to_id s !! i = Some id ↔
     ∃ c, c ∈ which_children s ∧ dci_actor_id c = i ∧ dci_id c = id) ∧
  ∀ c, c ∈ which_children s → dci_alive c = true ∧
    (ce_exit_reason (dci_actor_id c) w = None ∨
     (∃ r, mkExit (local_addr (dci_actor_id c)) r ∈ ce_inbox w) ∨
     ce_self_cancelled w = true ∨ dci_actor_id c ∈ ce_late w).
Proof.
  intros Hok Hr. destruct (dyn_reach_inv rt me b w0 s g w Hok Hr) as [Hinv Hmax]. by apply dyn_inv_reports.
Qed.


(** [terminate_child_by_actor] from any state the supervisor can be in. A
    child it manages is terminated: when the request returns the child has
    exited, its id is out of the tables and its name out of the registry,
    and nothing else has changed there. Any other actor is reported as not
    found and nothing changes. *)
Theorem terminate_child_spec {A W} `{ChildLaws A W} `{RemoteEnv W} rt me b (w0 : W)
    (s : DynamicSupervisor A) g w a :
  cl_ok (dyn_started me w0) → dyn_reach rt me b w0 s g w →
  let '(r, (s', g', w')) := terminate_child_by_actor rt a s g w in terminated_as a r s g w s' g' w'.
Proof.
  intros Hok Hr. destruct (dyn_reach_inv rt me b w0 s g w Hok Hr) as [Hinv _].
  pose proof (terminate_inv rt a s g w Hinv) as Hi.
  destruct (terminate_child_by_actor rt a s g w) as [r [[s' g'] w']]. by destruct Hi as (_ & _ & _ & ?).
Qed.

(** C26: stopping a dynamic supervisor of local children leaves none of the
    children it reports running: each has exited. Every name it registered is
    free and no other name is touched, all its tables (specs, handles, actor
    ids, names and those of remote children) are empty, no exit makes it
    restart a child any more, and it refuses to start another. An actor it
    started and did not enter in its tables, because its name was taken, is
    not among the children it reports. *)
Theorem dyn_stopped_terminates_all {A W} `{ChildLaws A W} `{RemoteEnv W} rt me b (w0 : W)
    (s : DynamicSupervisor A) g w :
  cl_ok (dyn_started me w0) → dyn_reach rt me b w0 s g w →
  let '(s', g', w') := dyn_stopped rt s g w in
  (∀ c, c ∈ which_children s → is_Some (ce_exit_reason (dci_actor_id c) w')) ∧
  (∀ n, is_Some (d_reg_names s !! n) → g' !! n = None) ∧
  (∀ n, d_reg_names s !! n = None → g' !! n = g !! n) ∧
  (d_specs s' = ∅ ∧ d_handles s' = ∅ ∧ d_actor_to_id s' = ∅ ∧ d_reg_names s' = ∅ ∧
   d_remote_handles s' = ∅ ∧ d_remote_actor_to_id s' = ∅ ∧ d_remote_spawn_meta s' = ∅) ∧
  (∀ e, dyn_exit_action e s' w' = Ignore) ∧
  ∀ spec n, fst (dyn_start_child spec n s' g' w') = Err SupervisorStopping.
Proof.
  intros Hok Hr. destruct (dyn_reach_inv rt me b w0 s g w Hok Hr) as [Hinv _].
  unfold dyn_stopped. set (l := set_suppress_restarts true (d_logic s)).
  assert (shutdown_order l = reverse (all_child_ids (children (d_logic s)))) as Hord.
  { rewrite shutdown_order_reverse; [done|].
    by apply (wf_same_children (d_logic s)); [apply Hinv|]. }
  assert (∀ n, n ∈ (fst <$> map_to_list (d_reg_names s)) ↔ is_Some (d_reg_names s !! n)) as Hnames.
  { intros n. rewrite list_elem_of_fmap. split.
    - intros ([m id] & -> & Hm%elem_of_map_to_list). by exists id.
    - intros [id Hn]. exists (n, id). split; [done|]. by apply elem_of_map_to_list. }
  split_and!; try done.
  - intros ci (c & sl & Hc & Hsl & ->)%elem_of_which. simpl.
    destruct (di_child _ _ _ Hinv c Hc) as (i & sp & [(bb & Hb & _) Hh _ _ _ _ _ _]).
    rewrite Hsl in Hb. injection Hb as ->. simpl.
    destruct (dyn_stop_all rt s (shutdown_order l) w Hinv) as [_ Hall].
    + rewrite Hord. intros id (d & -> & Hd)%elem_of_reverse%list_elem_of_fmap.
      destruct (di_child _ _ _ Hinv d Hd) as (j & sp' & [_ Hj _ _ _ _ _ _]). by exists j.
    + apply (Hall (cp_id (policy c))); [|done]. rewrite Hord. apply elem_of_reverse, list_elem_of_fmap.
      by exists c.
  - intros n Hn. rewrite unregister_all, decide_True; [done|]. by apply Hnames.
  - intros n Hn. rewrite unregister_all, decide_False; [done|]. rewrite Hnames, Hn. by intros [].
Qed.
