(* ===== verification/ThreadsSupervisors.v ===== *)
(** * The supervisors of the threads runtime

    [concurrency/src/threads/supervisor.rs] and
    [concurrency/src/threads/dynamic_supervisor.rs] repeat their tasks
    counterparts with blocking calls. Each of their functions is the
    function of [Supervisor] or [DynamicSupervisor] at the runtime [Threads];
    the theorems of those files hold for both runtimes. Here: that the two
    runtimes do exactly the same as long as no child is remote. *)

From S2P Require Import Prelude Address Errors Mailbox ChildSpec SupervisorLogic Registry Handles RemoteSpawn Supervisor DynamicSupervisor.
Import Values.

Section threads.
Context {A W : Type} `{ThisNode} `{ChildEnv A W} `{RemoteEnv W} (me : ActorId).
Implicit Types (s : Supervisor A) (d : DynamicSupervisor A) (w : W).
Implicit Types (g : gmap string (Boxed (V := ActorId))).

Definition threads_start_child (spec : ChildSpec A) start_index s w :=
  start_child spec start_index s w.
Definition threads_start_child_remote (spec : ChildSpec A) start_index s w :=
  start_child_remote me spec start_index s w.
Definition threads_restart_remote_child child_id s w := restart_remote_child me child_id s w.
Definition threads_restart_child child_id s w := restart_child child_id s w.
Definition threads_terminate_children ids s w := terminate_children Threads ids s w.
Definition threads_restart_child_with_backoff child_id s w :=
  restart_child_with_backoff me child_id s w.
Definition threads_maybe_complete_batch_restart s w := maybe_complete_batch_restart me s w.
Definition threads_handle_exit (e : Exit) s w := handle_exit Threads me e s w.
Definition threads_started s w := started me s w.
Definition threads_stopped s w := stopped Threads s w.

Definition threads_dyn_start_child (spec : ChildSpec A) reg_name d g w :=
  dyn_start_child spec reg_name d g w.
Definition threads_dyn_start_child_remote spec placement link d g w :=
  dyn_start_child_remote me spec placement link d g w.
Definition threads_dyn_restart_remote_child child_id d g w :=
  dyn_restart_remote_child me child_id d g w.
Definition threads_dyn_restart_child child_id d g w := dyn_restart_child child_id d g w.
Definition threads_cleanup_child child_id d g := cleanup_child child_id d g.
Definition threads_terminate_child_by_actor a d g w := terminate_child_by_actor Threads a d g w.
Definition threads_dyn_restart_child_with_backoff child_id d g w :=
  dyn_restart_child_with_backoff me child_id d g w.
Definition threads_dyn_handle_exit (e : Exit) d g w := dyn_handle_exit me e d g w.
Definition threads_dyn_stopped d g w := dyn_stopped Threads d g w.

Lemma terminate_agree ids s w :
  remote_handles s = ∅ → threads_terminate_children ids s w = terminate_children Tasks ids s w.
Proof.
  unfold threads_terminate_children. revert s w. induction ids as [|id ids IH]; intros s w Hr; [done|].
  simpl. assert (terminate_one Threads id s w = terminate_one Tasks id s w) as ->.
  { unfold terminate_one. by rewrite Hr, lookup_empty. }
  assert (remote_handles (fst (terminate_one Tasks id s w)) = ∅) as Hr'.
  { unfold terminate_one. rewrite Hr, lookup_empty. by destruct (handles s !! id). }
  destruct (terminate_one Tasks id s w) as [s' w']. by apply IH.
Qed.
End threads.

(** The two runtimes agree on local supervision. For a supervisor, static
    or dynamic, that has no remote child, handling an exit, terminating a
    child and stopping do exactly the same in the threads runtime as in the
    tasks runtime: the same state, the same calls in the same order. *)
Theorem runtimes_agree {A W} `{ThisNode} `{ChildEnv A W} `{RemoteEnv W} me
    (s : Supervisor A) (d : DynamicSupervisor A) (g : gmap string (Boxed (V := ActorId))) (w : W) e a :
  remote_handles s = ∅ → d_remote_handles d = ∅ →
  threads_handle_exit me e s w = handle_exit Tasks me e s w ∧
  threads_stopped s w = stopped Tasks s w ∧
  threads_terminate_child_by_actor a d g w = terminate_child_by_actor Tasks a d g w ∧
  threads_dyn_stopped d g w = dyn_stopped Tasks d g w.
Proof.
  intros Hr Hd. split_and!.
  - unfold threads_handle_exit, handle_exit. destruct (suppress_restarts (logic s)); [done|].
    destruct (ce_now w) as [now w']. destruct (on_child_exit _ _ now _) as [[| |ids|] l]; try done.
    fold (threads_terminate_children ids (set_logic l s) w').
    by rewrite terminate_agree.
  - unfold threads_stopped, stopped. f_equal. apply foldl_ext. intros w1 id.
    unfold stop_one. simpl. by rewrite Hr, lookup_empty.
  - unfold threads_terminate_child_by_actor, terminate_child_by_actor.
    destruct (d_remote_actor_to_id d !! a) as [id|]; [|done]. simpl. by rewrite Hd, lookup_empty.
  - unfold threads_dyn_stopped, dyn_stopped. f_equal. apply foldl_ext. intros w1 id.
    unfold dyn_stop_one. by rewrite Hd, lookup_empty.
Qed.
