(* ===== verification/Pool.v ===== *)
(** * Pools of workers

    Model of [concurrency/src/pool.rs] (the choice of one member), of the
    target selection and the builder of [concurrency/src/tasks/pool.rs], and
    of the broadcasts of [concurrency/src/tasks/pg.rs]; the threads files
    have the same text with blocking calls. Sending to an actor and its
    mailbox depth are parameters; [TypedGroups] says which members there are,
    and [Broadcast] models the dispatch to local and remote members. *)

From S2P Require Import Prelude Address Errors Mailbox ChildSpec ProcessGroups Handles DynamicSupervisor.

Inductive PoolStrategy := RoundRobin | LeastLoaded.

Record PoolDispatcher := mkDispatcher {
  pd_scope : string;
  pd_group : string;
  pd_strategy : PoolStrategy;
  pd_next : N
}.

Definition dispatcher_new (group : string) (strategy : PoolStrategy) : PoolDispatcher :=
  mkDispatcher DEFAULT_SCOPE group strategy 0.
Definition with_scope (scope : string) (d : PoolDispatcher) : PoolDispatcher :=
  mkDispatcher scope (pd_group d) (pd_strategy d) (pd_next d).
Definition dispatcher_key (d : PoolDispatcher) : GroupKey := mkGroupKey (pd_scope d) (pd_group d).

(** The loop of [LeastLoaded]: from position [i] on, with the best position
    so far. *)
Fixpoint least_from (i best min : nat) (depths : list nat) : nat :=
  match depths with
  | [] => best
  | d :: depths =>
      if d <? min then least_from (S i) i d depths else least_from (S i) best min depths
  end.

(** [select_member_index]; [next] is the [AtomicUsize], which wraps. *)
Definition select_member_index (member_count : nat) (strategy : PoolStrategy) (depths : list nat)
    (next : N) : option nat * N :=
  if decide (member_count = 0) then (None, next)
  else
    match strategy with
    | RoundRobin => (Some (N.to_nat (next mod N.of_nat member_count)), wrapping_succ_u64 next)
    | LeastLoaded => (Some (least_from 1 0 (default 0 (head depths)) (tail depths)), next)
    end.

(** [PoolDispatcher::select_index] *)
Definition select_index (depths : list nat) (d : PoolDispatcher) : option nat * PoolDispatcher :=
  let '(r, next) := select_member_index (length depths) (pd_strategy d) depths (pd_next d) in
  (r, mkDispatcher (pd_scope d) (pd_group d) (pd_strategy d) next).

Inductive PoolError := NoMembers | PoolActor (e : ActorError).

Section targets.
Context `{ThisNode} (is_alive : ActorId → bool) (mailbox_depth : ActorId → nat) (ty : TypeId).

(** [members_scoped] of [tasks/pg.rs]: the live [ActorRef]s of a group. *)
Definition members_scoped (key : GroupKey) (st : PgStore) : list ActorId :=
  iter_filter is_alive (typed_members key ty st).

(** [select_local_target]; [None] is the index out of bounds. *)
Definition select_local_target (d : PoolDispatcher) (st : PgStore)
    : option (Result ActorId PoolError) * PoolDispatcher :=
  let members := members_scoped (dispatcher_key d) st in
  if decide (members = []) then (Some (Err NoMembers), d)
  else
    let '(idx, d) := select_index (mailbox_depth <$> members) d in
    (i ← idx; m ← members !! i; Some (Ok m), d).

Inductive FederatedTarget := LocalTarget (m : ActorId) | RemoteTarget (a : ActorAddress).

(** [select_federated_target]: remote members count as depth 0. Reading the
    group also prunes its dead members, see [ProcessGroups]. *)
Definition select_federated_target (d : PoolDispatcher) (st : PgStore)
    : option (Result FederatedTarget PoolError) * PoolDispatcher :=
  let members := members_scoped (dispatcher_key d) st in
  let remote_addrs := iter_filter (λ a, negb (is_local a))
    (fst (member_addresses_scoped is_alive (dispatcher_key d) st)) in
  let depths := (mailbox_depth <$> members) ++ replicate (length remote_addrs) 0 in
  if decide (depths = []) then (Some (Err NoMembers), d)
  else
    let '(idx, d) := select_index depths d in
    (i ← idx;
     if i <? length members then m ← members !! i; Some (Ok (LocalTarget m))
     else a ← remote_addrs !! (i - length members); Some (Ok (RemoteTarget a)), d).
End targets.

(** ** Broadcast *)

Section broadcast.
Context {M W : Type} (send : ActorId → M → W → Result () ActorError * W).

Record PgSendReport := mkReport { delivered : nat; failed : list (ActorId * ActorError) }.

(** The loop of [cast_scoped]. *)
Fixpoint cast_all (members : list ActorId) (msg : M) (report : PgSendReport) (w : W)
    : PgSendReport * W :=
  match members with
  | [] => (report, w)
  | m :: members =>
      let '(r, w) := send m msg w in
      cast_all members msg
        (match r with
         | Ok _ => mkReport (delivered report + 1) (failed report)
         | Err e => mkReport (delivered report) (failed report ++ [(m, e)])
         end) w
  end.

Definition cast_scoped (is_alive : ActorId → bool) (ty : TypeId) (key : GroupKey) (msg : M)
    (st : PgStore) (w : W) : PgSendReport * W :=
  cast_all (members_scoped is_alive ty key st) msg (mkReport 0 []) w.
End broadcast.

(** ** The pool builder *)

Record ActorPoolBuilder := mkPoolBuilder {
  pb_group : string;
  pb_strategy : PoolStrategy;
  pb_max_children : option nat;
  pb_scope : option string
}.
Definition pool_builder_new (group : string) : ActorPoolBuilder :=
  mkPoolBuilder group RoundRobin None None.

Section pool.
Context {A W : Type} `{ChildEnv A W}.

(** The spec a worker is started with. *)
Definition pool_worker_spec (b : ActorPoolBuilder) (spec : ChildSpec A) : ChildSpec A :=
  if has_pg_membership spec then spec else with_pg_group (pb_group b) spec.

Definition pool_dispatcher (b : ActorPoolBuilder) : PoolDispatcher :=
  let d := dispatcher_new (pb_group b) (pb_strategy b) in
  match pb_scope b with Some sc => with_scope sc d | None => d end.

(** The loop of [start]: [None] is the panic of [expect]. *)
Fixpoint start_workers (b : ActorPoolBuilder) (spec_for : nat → ChildSpec A) (i n : nat)
    (st : DynamicSupervisor A * gmap string (Registry.Values.Boxed (V := ActorId)) * W)
    : option (DynamicSupervisor A * gmap string (Registry.Values.Boxed (V := ActorId)) * W) :=
  match n with
  | 0 => Some st
  | S n =>
      let '(s, g, w) := st in
      match dyn_start_child (pool_worker_spec b (spec_for i)) None s g w with
      | (Ok _, st) => start_workers b spec_for (S i) n st
      | (Err _, _) => None
      end
  end.

(** [ActorPoolBuilder::start]; [g] is the registry of names. *)
Definition pool_start (b : ActorPoolBuilder) (count : nat) (spec_for : nat → ChildSpec A)
    (g : gmap string (Registry.Values.Boxed (V := ActorId))) (w : W) :=
  let builder := match pb_max_children b with
                 | Some max => dyn_builder_max_children max dyn_builder_new
                 | None => dyn_builder_new
                 end in
  st ← start_workers b spec_for 0 count (dyn_builder_start builder, g, w);
  Some (st, pool_dispatcher b).
End pool.

(** ** Selection *)

(** The loop keeps the first position of the least depth seen. *)
Lemma least_from_spec depths pre best min :
  pre !! best = Some min →
  (∀ j d, pre !! j = Some d → min ≤ d ∧ (d = min → best ≤ j)) →
  ∃ m, (pre ++ depths) !! least_from (length pre) best min depths = Some m ∧
    ∀ j d, (pre ++ depths) !! j = Some d →
      m ≤ d ∧ (d = m → least_from (length pre) best min depths ≤ j).
Proof.
  revert pre best min. induction depths as [|d depths IH]; intros pre best min Hb Hmin; simpl.
  { rewrite app_nil_r. eauto. }
  assert (length (pre ++ [d]) = S (length pre)) as Hlen by (rewrite length_app; simpl; lia).
  assert (∀ j e, (pre ++ [d]) !! j = Some e → pre !! j = Some e ∨ j = length pre ∧ e = d) as Hsplit.
  { intros j e [Hj|[Hle Hj]]%lookup_app_Some; [by left|].
    right. destruct (j - length pre) as [|k] eqn:Hk; [|by destruct k]. simpl in Hj.
    injection Hj as ->. split; [lia|done]. }
  rewrite cons_middle, app_assoc. destruct (Nat.ltb_spec d min) as [Hlt|Hge]; rewrite <- Hlen.
  - apply IH; [rewrite lookup_app_r, Nat.sub_diag by lia; done|].
    intros j e [Hj|[-> ->]]%Hsplit; [|lia]. destruct (Hmin j e Hj). lia.
  - apply IH; [by apply lookup_app_l_Some|].
    intros j e [Hj|[-> ->]]%Hsplit; [by apply Hmin|]. split; [done|]. intros _.
    apply lookup_lt_Some in Hb. lia.
Qed.

Fixpoint select_n (n : nat) (depths : list nat) (d : PoolDispatcher) : list (option nat) * PoolDispatcher :=
  match n with
  | 0 => ([], d)
  | S n =>
      let '(r, d) := select_index depths d in
      let '(rs, d) := select_n n depths d in (r :: rs, d)
  end.

(** A dispatcher selects a member exactly when there is one, and always
    an existing one; the least-loaded strategy selects the first of the
    members with the smallest mailbox depth. *)
Theorem select_index_spec depths d :
  let '(r, d') := select_index depths d in
  (r = None ↔ depths = []) ∧ dispatcher_key d' = dispatcher_key d ∧
  ∀ i, r = Some i → ∃ m, depths !! i = Some m ∧
    (pd_strategy d = LeastLoaded → ∀ j e, depths !! j = Some e → m ≤ e ∧ (e = m → i ≤ j)).
Proof.
  unfold select_index, select_member_index. destruct depths as [|x depths]; simpl; [done|].
  destruct (pd_strategy d); simpl; (split; [done|]); (split; [done|]); intros i [= <-].
  - assert (N.to_nat (pd_next d mod N.of_nat (S (length depths))) < length (x :: depths)) as Hlt.
    { simpl. pose proof (N.mod_lt (pd_next d) (N.of_nat (S (length depths)))). lia. }
    apply lookup_lt_is_Some_2 in Hlt as [m Hm]. exists m. done.
  - destruct (least_from_spec depths [x] 0 x) as (m & Hm & Hall); [done|..].
    { intros [|j] e; simpl; [intros [= ->]; lia|done]. }
    exists m. done.
Qed.

Lemma round_robin_seq n depths d :
  pd_strategy d = RoundRobin → depths ≠ [] → (pd_next d + N.of_nat n ≤ 2 ^ 64)%N →
  fst (select_n n depths d) =
    (λ k, Some ((N.to_nat (pd_next d) + k) mod length depths)) <$> seq 0 n.
Proof.
  intros Hs Hne. revert d Hs. induction n as [|n IH]; intros d Hs Hn; [done|]. simpl.
  unfold select_index, select_member_index. rewrite Hs. destruct (decide _) as [Hz|Hz];
    [by apply nil_length_inv in Hz|]. simpl.
  set (d1 := mkDispatcher _ _ _ _).
  assert (n ≠ 0 → pd_next d1 = (pd_next d + 1)%N) as Hnext.
  { intros Hn0. simpl. unfold wrapping_succ_u64. apply N.mod_small. lia. }
  destruct (select_n n depths d1) as [rs d2] eqn:Hsel. simpl. f_equal.
  - rewrite Nat.add_0_r. f_equal. rewrite N2Nat.inj_mod, Nat2N.id. done.
  - destruct n as [|n]; [simpl in Hsel; by injection Hsel as <- _|].
    specialize (IH d1 eq_refl). rewrite Hsel in IH. simpl fst in IH. rewrite IH; [|rewrite Hnext by done; lia].
    rewrite <- (fmap_S_seq 0), <- list_fmap_compose. apply list_fmap_ext. intros _ k _.
    cbn [compose]. do 2 f_equal. rewrite Hnext by done. lia.
Qed.

(** The round-robin strategy is fair: as long as its counter does not
    wrap, as many selections in a row as there are members select each
    member exactly once. *)
Theorem round_robin_fair depths d :
  pd_strategy d = RoundRobin → depths ≠ [] →
  (pd_next d + N.of_nat (length depths) ≤ 2 ^ 64)%N →
  fst (select_n (length depths) depths d) ≡ₚ Some <$> seq 0 (length depths).
Proof.
  intros Hs Hne Hn. rewrite round_robin_seq by done. set (n := length depths).
  assert (0 < n) as Hpos by (unfold n; destruct depths; simpl; [done|lia]).
  rewrite (list_fmap_compose (λ k, (N.to_nat (pd_next d) + k) mod n) Some). apply fmap_Permutation.
  symmetry. apply NoDup_Permutation_bis.
  - apply NoDup_ListNoDup, NoDup_seq.
  - by rewrite length_fmap, !length_seq.
  - intros x Hx%list_elem_of_In%elem_of_seq. apply list_elem_of_In, list_elem_of_fmap.
    set (c := N.to_nat (pd_next d) mod n). assert (c < n) as Hc by (apply Nat.mod_upper_bound; lia).
    exists ((x + n - c) mod n). split.
    + rewrite Nat.Div0.add_mod_idemp_r.
      assert (N.to_nat (pd_next d) = n * (N.to_nat (pd_next d) / n) + c) as -> by (apply Nat.div_mod_eq).
      replace (n * _ + c + (x + n - c)) with (x + (N.to_nat (pd_next d) / n + 1) * n) by lia.
      rewrite Nat.Div0.mod_add. rewrite Nat.mod_small; lia.
    + apply elem_of_seq. split; [lia|]. apply Nat.mod_upper_bound. lia.
Qed.

Lemma round_robin_fair_witness :
  fst (select_n 3 [5; 0; 9] (mkDispatcher "s" "g" RoundRobin 4)) ≡ₚ Some <$> seq 0 3.
Proof. apply (round_robin_fair [5; 0; 9]); [reflexivity|discriminate|simpl; lia]. Defined.

(** A pool with a scope cannot find its own workers. The builder joins
    the workers to the pool's group in the default scope, but gives its
    dispatcher the requested scope: unless the two scopes are equal, a
    worker spec without a group of its own is joined to a group that the
    dispatcher never reads. *)
Theorem scoped_pool_misses_workers {A} (b : ActorPoolBuilder) (spec : ChildSpec A) sc :
  pb_scope b = Some sc → sc ≠ DEFAULT_SCOPE → has_pg_membership spec = false →
  ∃ m, cs_pg_membership (pool_worker_spec b spec) = Some m ∧ group m = pd_group (pool_dispatcher b) ∧
    mkGroupKey (scope m) (group m) ≠ dispatcher_key (pool_dispatcher b).
Proof.
  intros Hsc Hne Hm. unfold pool_worker_spec, pool_dispatcher. rewrite Hm, Hsc.
  eexists. split; [done|]. split; [done|]. intros [= He]. done.
Qed.

Lemma scoped_pool_misses_workers_witness :
  let b := mkPoolBuilder "jobs" RoundRobin None (Some "batch") in
  ∃ m, cs_pg_membership (pool_worker_spec b (worker "w" () Permanent)) = Some m ∧
    group m = pd_group (pool_dispatcher b) ∧
    mkGroupKey (scope m) (group m) ≠ dispatcher_key (pool_dispatcher b).
Proof.
  apply (scoped_pool_misses_workers (mkPoolBuilder "jobs" RoundRobin None (Some "batch"))
    (worker "w" () Permanent) "batch"); [reflexivity|discriminate|reflexivity].
Defined.

(** A broadcast reports on every member: what it delivered and what
    failed add up to the members of the group, and the failures are members,
    in order. *)
Theorem cast_all_accounts {M W} (send : ActorId → M → W → Result () ActorError * W)
    is_alive ty key msg st w :
  let '(rep, _) := cast_scoped send is_alive ty key msg st w in
  delivered rep + length (failed rep) = length (members_scoped is_alive ty key st) ∧
  sublist (fst <$> failed rep) (members_scoped is_alive ty key st).
Proof.
  unfold cast_scoped. generalize (members_scoped is_alive ty key st) as ms.
  assert (∀ ms rep w,
    let '(rep', _) := cast_all send ms msg rep w in
    ∃ fs, failed rep' = failed rep ++ fs ∧ sublist (fst <$> fs) ms ∧
      delivered rep' + length fs = delivered rep + length ms) as Hgen.
  { induction ms as [|m ms IH]; intros rep v; simpl.
    { exists []. rewrite app_nil_r. split_and!; [done|constructor|simpl; lia]. }
    destruct (send m msg v) as [r v']. destruct r as [u|e].
    - specialize (IH (mkReport (delivered rep + 1) (failed rep)) v').
      destruct (cast_all send ms msg _ v') as [rep' ?]. destruct IH as (fs & Hf & Hs & Hl).
      exists fs. simpl in *. split_and!; [done|by constructor|lia].
    - specialize (IH (mkReport (delivered rep) (failed rep ++ [(m, e)])) v').
      destruct (cast_all send ms msg _ v') as [rep' ?]. destruct IH as (fs & Hf & Hs & Hl).
      exists ((m, e) :: fs). simpl in *. split_and!; [by rewrite Hf, <- app_assoc|by constructor|lia]. }
  intros ms. specialize (Hgen ms (mkReport 0 []) w).
  destruct (cast_all send ms msg (mkReport 0 []) w) as [rep ?]. destruct Hgen as (fs & Hf & Hs & Hl).
  simpl in *. rewrite Hf. split; [lia|done].
Qed.
