(* ===== verification/TypedGroups.v ===== *)
(** * Typed members of process groups

    Model of the typed half of the group store: [join], [join_scoped] and
    [members_scoped] of [concurrency/src/tasks/pg.rs] and
    [concurrency/src/threads/pg.rs], over [typed_join] and [typed_members] of
    [concurrency/src/pg.rs]. A group keeps, beside its counted members, a
    bucket of references for each actor type; broadcasts and pools read the
    buckets. The theorem says what they find there. *)

From S2P Require Import Prelude Address Errors ProcessGroups Pool.

(** The reference of an actor in a bucket. *)
Definition tmem (st : PgStore) (key : GroupKey) (ty : TypeId) (a : ActorAddress) : option ActorId :=
  typed st !! (key, ty) ≫= λ bucket, bucket !! a.

Section typed.
Context `{ThisNode}.

(** [tasks::pg::join_scoped], [threads::pg::join_scoped]: [pg::join_scoped] and
    [pg::typed_join] lock the store one after the other; [between] is what
    other threads do to it in between. *)
Definition typed_join_scoped (between : PgStore → PgStore) (key : GroupKey) (ty : TypeId) (id : ActorId) (st : PgStore)
    : PgStore * list PgEvent :=
  let '(st, evs) := join_scoped key id st in
  (typed_join key ty (local_addr id) id (between st), evs).

(** ** What the operations do to the buckets *)

(** [st'] has the entries of [st] without some of those that [gone] allows. *)
Definition keeps_typed (gone : GroupKey → ActorAddress → Prop) (st st' : PgStore) : Prop :=
  ∀ k ty a, tmem st' k ty a = tmem st k ty a ∨ tmem st' k ty a = None ∧ gone k a.

Lemma keeps_typed_refl gone st : keeps_typed gone st st.
Proof. intros k ty a. by left. Qed.
Lemma keeps_typed_same gone st st' : typed st' = typed st → keeps_typed gone st st'.
Proof. intros He k ty a. left. unfold tmem. by rewrite He. Qed.
Lemma keeps_typed_trans (gone : GroupKey → ActorAddress → Prop) st1 st2 st3 :
  keeps_typed gone st1 st2 → keeps_typed gone st2 st3 → keeps_typed gone st1 st3.
Proof.
  intros H12 H23 k ty a. destruct (H23 k ty a) as [->|[? ?]]; [|by right]. apply H12.
Qed.
Lemma keeps_typed_weaken (g1 g2 : GroupKey → ActorAddress → Prop) st st' :
  (∀ k a, g1 k a → g2 k a) → keeps_typed g1 st st' → keeps_typed g2 st st'.
Proof. intros Hg Hk k ty a. destruct (Hk k ty a) as [?|[? ?]]; [by left|right; auto]. Qed.

(** A filter of the buckets. *)
Lemma tmem_filter (P : GroupKey * TypeId → Prop) `{∀ k, Decision (P k)} st k ty a :
  (filter (λ kv : (GroupKey * TypeId) * gmap ActorAddress ActorId, P kv.1 ∧ kv.2 ≠ ∅) (typed st) !! (k, ty) ≫= λ b, b !! a) =
    if decide (P (k, ty)) then tmem st k ty a else None.
Proof.
  unfold tmem. destruct (typed st !! (k, ty)) as [b|] eqn:Hb; simpl.
  - case_decide as HP.
    + destruct (decide (b = ∅)) as [->|Hne].
      * rewrite lookup_empty. destruct (filter _ _ !! (k, ty)) as [b'|] eqn:Hf; [|done].
        apply map_lookup_filter_Some in Hf as [Hf [_ Hne]]. by simplify_eq/=.
      * rewrite (proj2 (map_lookup_filter_Some _ _ _ b)); [done|]. split; [done|]. by split.
    + rewrite (proj2 (map_lookup_filter_None _ _ _)); [done|]. right. intros b' _ [? _]. done.
  - rewrite (proj2 (map_lookup_filter_None _ _ _)) by by left. by case_decide.
Qed.

(** A group goes, with its buckets, when nobody is left in it. *)
Lemma keeps_remove_group key st :
  keeps_typed (λ k a, k = key ∧ mem st key a = None) st (remove_group_if_empty key st).
Proof.
  intros k ty a. unfold remove_group_if_empty. destruct (none_or_empty (groups st !! key)) eqn:Hl; simpl.
  - destruct (none_or_empty (remote st !! key)); simpl; [|by left].
    pose proof (tmem_filter (λ kt, kt.1 ≠ key) st k ty a) as Ht. unfold tmem at 1 3. cbn [typed fst] in *. rewrite Ht.
    case_decide as Hk; [by left|]. right. split; [done|]. split; [done|].
    unfold mem. by apply none_or_empty_true.
  - destruct (none_or_empty (remote st !! key)); by left.
Qed.

Lemma keeps_remove_group_of key st st1 :
  typed st1 = typed st → keeps_typed (λ k a, k = key ∧ mem st1 key a = None) st (remove_group_if_empty key st1).
Proof. intros Ht. eapply keeps_typed_trans; [by apply keeps_typed_same|apply keeps_remove_group]. Qed.

Lemma tmem_retain_nonempty st (f : GroupKey * TypeId → gmap ActorAddress ActorId → gmap ActorAddress ActorId) k ty a :
  tmem (set_typed (retain_nonempty (map_imap (λ bk b, Some (f bk b)) (typed st))) st) k ty a =
    (typed st !! (k, ty) ≫= λ b, f (k, ty) b !! a).
Proof.
  unfold tmem at 1, retain_nonempty. cbn [typed set_typed].
  destruct (filter _ _ !! (k, ty)) as [b'|] eqn:Hf.
  - apply map_lookup_filter_Some in Hf as [Hf _]. rewrite map_lookup_imap in Hf.
    destruct (typed st !! (k, ty)); by simplify_eq/=.
  - apply map_lookup_filter_None in Hf. rewrite map_lookup_imap in Hf.
    destruct (typed st !! (k, ty)) as [b|]; [|done]. simpl in *. destruct Hf as [?|Hf]; [done|].
    specialize (Hf _ eq_refl). apply dec_stable in Hf. simpl in Hf. by rewrite Hf.
Qed.

Lemma keeps_forget key a st :
  keeps_typed (λ k b, k = key ∧ (b = a ∨ mem st key b = None)) st (forget_member key a st) ∧
  ∀ ty, tmem (forget_member key a st) key ty a = None.
Proof.
  unfold forget_member. set (st1 := remove_group_if_empty key _). set (st2 := match index st1 !! a with Some _ => _ | None => _ end).
  assert (keeps_typed (λ k b, k = key ∧ (b = a ∨ mem st key b = None)) st st2) as Hk.
  { apply (keeps_typed_trans _ st st1); [|apply keeps_typed_same; by unfold st2; destruct (index st1 !! a)].
    eapply keeps_typed_weaken; [|by apply keeps_remove_group_of].
    intros k b [-> Hb]. split; [done|]. rewrite mem_alter_delete in Hb. case_decide; [left; naive_solver|by right]. }
  clearbody st2. clear st1.
  assert (∀ k ty b, tmem (set_typed (retain_nonempty
      (map_imap (λ bk b, Some (if decide (bk.1 = key) then delete a b else b)) (typed st2))) st2) k ty b =
      if decide (k = key ∧ b = a) then None else tmem st2 k ty b) as Ht.
  { intros k ty b. rewrite (tmem_retain_nonempty st2 (λ bk b, if decide (bk.1 = key) then delete a b else b)). cbn [fst].
    unfold tmem. destruct (typed st2 !! (k, ty)) as [bu|]; simpl; [|by case_decide].
    destruct (decide (k = key)) as [->|]; [|by rewrite decide_False by naive_solver]. rewrite lookup_delete.
    destruct (decide (a = b)) as [->|]; [by rewrite decide_True|]. by rewrite decide_False by naive_solver. }
  split.
  - intros k ty b. rewrite Ht. case_decide as Hd; [right; naive_solver|apply Hk].
  - intros ty. by rewrite Ht, decide_True.
Qed.

Lemma keeps_remove_loop a keys st :
  keeps_typed (λ k b, b = a ∨ mem st k b = None) st (remove_loop a keys st).
Proof.
  revert st. induction keys as [|key keys IH]; intros st; [apply keeps_typed_refl|].
  change (remove_loop a (key :: keys) st) with (remove_loop a keys (remove_actor_from a key st)).
  eapply keeps_typed_trans.
  - eapply keeps_typed_weaken; [|by apply (keeps_remove_group_of key st (set_remote (alter (delete a) key (remote st))
      (set_groups (alter (delete a) key (groups st)) st)))].
    intros k b [-> Hb]. rewrite mem_set_remote, mem_alter_delete in Hb.
    case_decide; [left; naive_solver|by right].
  - eapply keeps_typed_weaken; [|apply IH]. intros k b [->|Hb]; [by left|]. rewrite mem_remove_actor_from in Hb.
    case_decide; [left; naive_solver|by right].
Qed.
Lemma keeps_remove_actor a st :
  keeps_typed (λ k b, b = a ∨ mem st k b = None) st (store_remove_actor a st) ∧
  ∀ k ty, tmem (store_remove_actor a st) k ty a = None.
Proof.
  unfold store_remove_actor. set (st1 := match index st !! a with Some _ => _ | None => _ end).
  assert (keeps_typed (λ k b, b = a ∨ mem st k b = None) st st1) as Hk.
  { unfold st1. destruct (index st !! a) as [ks|]; [|apply keeps_typed_refl].
    eapply keeps_typed_trans; [|exact (keeps_remove_loop a (elements ks) (set_index (delete a (index st)) st))].
    by apply keeps_typed_same. }
  clearbody st1.
  assert (∀ k ty b, tmem (set_typed (retain_nonempty (delete a <$> typed st1)) st1) k ty b =
    if decide (b = a) then None else tmem st1 k ty b) as Ht.
  { intros k ty b. pose proof (tmem_retain_nonempty st1 (λ _ b, delete a b) k ty b) as Ht.
    assert (map_imap (λ _ b, Some (delete a b)) (typed st1) = delete a <$> typed st1) as He
      by (apply map_eq; intros i; rewrite map_lookup_imap, lookup_fmap; by destruct (typed st1 !! i)).
    cbn beta in Ht. rewrite He in Ht. rewrite Ht. unfold tmem. destruct (typed st1 !! (k, ty)) as [bu|]; simpl; [|by case_decide].
    rewrite lookup_delete. destruct (decide (a = b)) as [->|]; [by rewrite decide_True|]. by rewrite decide_False by naive_solver. }
  split.
  - intros k ty b. rewrite Ht. case_decide as Hd; [right; naive_solver|apply Hk].
  - intros k ty. by rewrite Ht, decide_True.
Qed.

Lemma keeps_remote ev st : keeps_typed (λ k a, mem st k a = None) st (apply_remote_pg_event ev st).
Proof.
  assert (∀ key b st, typed (apply_remote_join key b st) = typed st) as Hj
    by (intros key b st0; unfold apply_remote_join; by destruct (is_local b)).
  destruct ev as [key b|key b|es]; simpl; [by apply keeps_typed_same| |].
  - unfold apply_remote_leave. destruct (is_local b); [apply keeps_typed_refl|].
    destruct (_ ≫= _) as [m|]; [|apply keeps_typed_refl]. unfold remove_remote_if_empty.
    set (st1 := match remote _ !! key with Some _ => _ | None => _ end).
    assert (typed st1 = typed st ∧ groups st1 = groups st) as [Ht Hg]
      by (unfold st1; destruct (_ !! key) as [g|]; [destruct (bool_decide (g = ∅))|]; done).
    eapply keeps_typed_weaken; [|by apply (keeps_remove_group_of key st st1)].
    intros k a [-> Ha]. unfold mem in *. by rewrite Hg in Ha.
  - apply keeps_typed_same. revert st. induction es as [|e es IH]; intros st; simpl; [done|]. by rewrite IH, Hj.
Qed.

(** The two readers of a group leave the same store. *)
Lemma member_addresses_store is_alive key st :
  snd (member_addresses_scoped is_alive key st) = remove_group_if_empty key (prune is_alive key st).
Proof.
  unfold member_addresses_scoped. cbn [snd]. destruct (groups st !! key) as [ms|] eqn:Hms.
  - case_decide as He.
    + unfold prune, remove_group_if_empty. cbn [groups remote set_groups index typed]. rewrite lookup_delete_eq.
      rewrite lookup_alter_eq, Hms. cbn [fmap option_fmap option_map none_or_empty]. rewrite bool_decide_eq_true_2 by done.
      rewrite !delete_delete_eq. rewrite delete_alter_eq. done.
    + by rewrite (alter_insert_eq ms (retain_alive is_alive)).
  - f_equal. unfold prune. destruct st as [g r i t]. unfold set_groups. cbn [groups] in *. f_equal.
    apply map_eq. intros k. rewrite lookup_alter. case_decide; [subst; by rewrite Hms|done].
Qed.
Lemma keeps_prune is_alive key st :
  keeps_typed (λ k a, k = key ∧ alive_member is_alive (mem st key a) = None) st
    (remove_group_if_empty key (prune is_alive key st)).
Proof.
  eapply keeps_typed_weaken; [|by apply keeps_remove_group_of].
  intros k a [-> Ha]. split; [done|]. by rewrite mem_prune, decide_True in Ha.
Qed.

(** ** Histories *)

(** What happens to the store of a node; [TDie] is an actor that publishes
    its exit reason, after which it does not count as alive. *)
Inductive TOp :=
| TJoin (key : GroupKey) (ty : TypeId) (id : ActorId)
| TJoinUntyped (key : GroupKey) (id : ActorId)
| TLeave (key : GroupKey) (id : ActorId)
| TRemove (id : ActorId)
| TMembers (key : GroupKey)
| TAddresses (key : GroupKey)
| TRemote (ev : PgEvent)
| TDie (id : ActorId).

Record TState := mkTState { ts_store : PgStore; ts_dead : gset ActorId }.
Definition alive (dead : gset ActorId) (id : ActorId) : bool := bool_decide (id ∉ dead).
Definition tstep (op : TOp) (s : TState) : TState :=
  let dead := ts_dead s in
  let st := ts_store s in
  match op with
  | TJoin key ty id => mkTState (fst (typed_join_scoped (λ st, st) key ty id st)) dead
  | TJoinUntyped key id => mkTState (fst (join_scoped key id st)) dead
  | TLeave key id => mkTState (fst (snd (leave_scoped key id st))) dead
  | TRemove id => mkTState (fst (remove_actor id st)) dead
  | TMembers key => mkTState (snd (get_local_members_scoped (alive dead) key st)) dead
  | TAddresses key => mkTState (snd (member_addresses_scoped (alive dead) key st)) dead
  | TRemote ev => mkTState (apply_remote_pg_event ev st) dead
  | TDie id => mkTState st ({[id]} ∪ dead)
  end.

(** The reference: how often each actor has joined each group, and under which
    types its references are there. *)
Record TSpec := mkTSpec { sp_count : GroupKey → ActorId → Z; sp_typed : GroupKey → TypeId → ActorId → bool; sp_dead : gset ActorId }.
Definition tspec (op : TOp) (s : TSpec) : TSpec :=
  let '(mkTSpec c t dead) := s in
  match op with
  | TJoin key ty id =>
      mkTSpec (λ k i, if decide (k = key ∧ i = id) then (c k i + 1)%Z else c k i)
        (λ k y i, bool_decide (k = key ∧ y = ty ∧ i = id) || t k y i) dead
  | TJoinUntyped key id => mkTSpec (λ k i, if decide (k = key ∧ i = id) then (c k i + 1)%Z else c k i) t dead
  | TLeave key id =>
      if decide (c key id = 0%Z) then s
      else mkTSpec (λ k i, if decide (k = key ∧ i = id) then (c k i - 1)%Z else c k i)
             (λ k y i, negb (bool_decide (k = key ∧ i = id ∧ c key id = 1%Z)) && t k y i) dead
  | TRemove id => mkTSpec (λ k i, if decide (i = id) then 0%Z else c k i) (λ k y i, negb (bool_decide (i = id)) && t k y i) dead
  | TMembers key | TAddresses key =>
      mkTSpec (λ k i, if decide (k = key) then if alive dead i then c k i else 0%Z else c k i) t dead
  | TRemote _ => s
  | TDie id => mkTSpec c t ({[id]} ∪ dead)
  end.
Definition tspec_new : TSpec := mkTSpec (λ _ _, 0%Z) (λ _ _ _, false) ∅.

(** The buckets hold references under the address of their actor; those of
    live actors are the reference's, and these actors are counted. *)
Record trefines (s : TState) (p : TSpec) : Prop := {
  tr_ok : ok (ts_store s);
  tr_dead : sp_dead p = ts_dead s;
  tr_count : ∀ k i, counts (ts_store s) k i = sp_count p k i;
  tr_address : ∀ k ty a id, tmem (ts_store s) k ty a = Some id → a = local_addr id;
  tr_live : ∀ k ty id, id ∉ ts_dead s → tmem (ts_store s) k ty (local_addr id) = Some id ↔ sp_typed p k ty id = true;
  tr_member : ∀ k ty id, id ∉ ts_dead s → tmem (ts_store s) k ty (local_addr id) = Some id →
    mem (ts_store s) k (local_addr id) ≠ None
}.

(** A step that only removes entries, and of live actors only those it means to. *)
Lemma trefines_keeps st st' dead (gone : GroupKey → ActorAddress → Prop) c c' t t' :
  trefines (mkTState st dead) (mkTSpec c t dead) → ok st' → keeps_typed gone st st' →
  (∀ k i, counts st' k i = c' k i) →
  (∀ k id, id ∉ dead → gone k (local_addr id) → mem st k (local_addr id) ≠ None → mem st' k (local_addr id) = None) →
  (∀ k id, id ∉ dead → mem st k (local_addr id) ≠ None → mem st' k (local_addr id) = None → 
     ∀ ty, tmem st' k ty (local_addr id) = None) →
  (∀ k ty id, id ∉ dead → t' k ty id = t k ty id && negb (bool_decide (mem st' k (local_addr id) = None))) →
  trefines (mkTState st' dead) (mkTSpec c' t' dead).
Proof.
  intros [Hok _ Hc Ha Hl Hm] Hok' Hk Hc' Hg Hgone Ht. cbn [ts_store ts_dead sp_typed sp_count] in *.
  assert (∀ k ty id, id ∉ dead → tmem st' k ty (local_addr id) = Some id ↔
    tmem st k ty (local_addr id) = Some id ∧ mem st' k (local_addr id) ≠ None) as Hiff.
  { intros k ty id Hd. split.
    - intros He. assert (tmem st k ty (local_addr id) = Some id) as He0 by (destruct (Hk k ty (local_addr id)) as [<-|[? _]]; congruence).
      split; [done|]. intros Hn. rewrite (Hgone k id Hd) in He by eauto. done.
    - intros [He Hn]. destruct (Hk k ty (local_addr id)) as [->|[_ Hgo]]; [done|].
      destruct Hn. eauto. }
  split; cbn [ts_store ts_dead sp_typed sp_count]; try done.
  - intros k ty a id He. apply (Ha k ty). destruct (Hk k ty a) as [<-|[? _]]; congruence.
  - intros k ty id Hd. rewrite Hiff, Hl, Ht by done. rewrite andb_true_iff, negb_true_iff, bool_decide_eq_false. done.
  - intros k ty id Hd He. by apply Hiff in He as [_ Hn].
Qed.

Lemma trefines_mem s p k ty id :
  trefines s p → id ∉ ts_dead s → sp_typed p k ty id = true → mem (ts_store s) k (local_addr id) ≠ None.
Proof. intros Hr Hd Ht. eapply (tr_member s p Hr); [done|]. by apply (tr_live s p Hr). Qed.

Lemma trefines_join_untyped key id s p :
  trefines s p → (∀ k i, sp_count p k i < JOINS_LIMIT - 1)%Z →
  trefines (tstep (TJoinUntyped key id) s) (tspec (TJoinUntyped key id) p).
Proof.
  destruct s as [st dead], p as [c t dead']. intros Hr Hlt. pose proof (tr_dead _ _ Hr) as Hd. simpl in Hd. subst dead'.
  pose proof (tr_count _ _ Hr) as Hc. cbn [ts_store sp_count] in Hc, Hlt.
  assert (pg_op_ok (OpJoin key id) st) as Hop by (simpl; rewrite Hc; apply Hlt).
  pose proof (pg_step_refines (OpJoin key id) st (tr_ok _ _ Hr) Hop) as Hs. cbn [pg_step spec_step] in Hs.
  cbn [tstep tspec ts_store ts_dead]. destruct (join_scoped key id st) as [st' evs] eqn:Hj. destruct Hs as (Hok & _ & Hcount).
  assert (∀ k a, mem st k a ≠ None → mem st' k a ≠ None) as Hmem.
  { intros k a Hm. change st' with (fst (st', evs)). rewrite <- Hj, mem_join. by case_decide. }
  eapply (trefines_keeps st st' dead (λ _ _, False) c _ t); try done.
  - apply keeps_typed_same. unfold join_scoped in Hj. by injection Hj as <- _.
  - intros k i. rewrite Hcount. by rewrite Hc.
  - intros k i _ Hm Hm'. by destruct (Hmem k _ Hm).
  - intros k ty i Hi. destruct (t k ty i) eqn:Ht; [|done]. rewrite bool_decide_eq_false_2; [done|].
    apply Hmem. by apply (trefines_mem (mkTState st dead) _ k ty i Hr Hi).
Qed.

Lemma tmem_typed_join key ty a id st k y b :
  tmem (typed_join key ty a id st) k y b = if decide (k = key ∧ y = ty ∧ b = a) then Some id else tmem st k y b.
Proof.
  unfold tmem, typed_join. cbn [typed set_typed]. rewrite lookup_insert. destruct (decide ((key, ty) = (k, y))) as [[= -> ->]|Hne].
  - simpl. rewrite lookup_insert. destruct (decide (a = b)) as [->|Hb]; [by rewrite decide_True|].
    rewrite decide_False by naive_solver. by destruct (typed st !! (k, y)).
  - rewrite decide_False; [done|]. naive_solver.
Qed.
Lemma ok_set_typed t st : ok st → ok (set_typed t st).
Proof. intros [[Hi Hj Hg Hr] Ho]. by split. Qed.

Lemma trefines_join key ty id s p :
  trefines s p → (∀ k i, sp_count p k i < JOINS_LIMIT - 1)%Z → trefines (tstep (TJoin key ty id) s) (tspec (TJoin key ty id) p).
Proof.
  intros Hr Hlt. pose proof (trefines_join_untyped key id s p Hr Hlt) as Hu. destruct s as [st dead], p as [c t dead'].
  cbn [tstep tspec ts_store ts_dead] in *. unfold typed_join_scoped. destruct (join_scoped key id st) as [st' evs] eqn:Hj.
  cbn [fst] in *. destruct Hu as [Hok Hd Hc Ha Hl Hm]. cbn [ts_store ts_dead sp_typed sp_count sp_dead] in *.
  assert (mem st' key (local_addr id) ≠ None) as Hin.
  { change st' with (fst (st', evs)). rewrite <- Hj, mem_join. by rewrite decide_True. }
  split; cbn [ts_store ts_dead sp_typed sp_count sp_dead]; try done.
  - by apply ok_set_typed.
  - intros k y a i. rewrite tmem_typed_join. case_decide as Hk; [|apply Ha]. destruct Hk as (_ & _ & ->). by intros [= ->].
  - intros k y i Hi. rewrite tmem_typed_join, orb_true_iff, bool_decide_eq_true, <- (Hl k y i Hi). case_decide as Hk.
    + destruct Hk as (-> & -> & He%local_addr_inj). subst. naive_solver.
    + split; [by right|]. intros [(-> & -> & ->)|?]; [by destruct Hk|done].
  - intros k y i Hi. change (mem (typed_join key ty (local_addr id) id st')) with (mem st'). rewrite tmem_typed_join.
    case_decide as Hk; [|apply Hm]; [|done]. destruct Hk as (-> & -> & ->). done.
Qed.

Lemma trefines_leave key id s p : trefines s p → trefines (tstep (TLeave key id) s) (tspec (TLeave key id) p).
Proof.
  destruct s as [st dead], p as [c t dead']. intros Hr. pose proof (tr_dead _ _ Hr) as Hd. simpl in Hd. subst dead'.
  pose proof (tr_count _ _ Hr) as Hc. cbn [ts_store sp_count] in Hc. pose proof (tr_ok _ _ Hr) as Hok. simpl in Hok.
  pose proof (pg_step_refines (OpLeave key id) st Hok I) as Hs. cbn [pg_step spec_step] in Hs.
  cbn [tstep tspec ts_store ts_dead]. rewrite leave_cases in * by apply Hok.
  pose proof (joins_zero st key (local_addr id) (proj1 Hok)) as Hz. fold (counts st key id) in Hz.
  assert (mem st key (local_addr id) ≠ None → c key id ≠ 0%Z) as Hnz by (rewrite <- Hc; intros ? ?%Hz; done).
  rewrite Hc in Hz.
  destruct (mem st key (local_addr id)) as [m|] eqn:Hm; cbn [fst snd] in *.
  2:{ by rewrite decide_True by by apply Hz. }
  rewrite (decide_False (P := c key id = 0%Z)) by by apply Hnz.
  rewrite (decide_False (P := counts st key id = 0%Z)) in Hs by (rewrite Hc; by apply Hnz).
  assert (c key id = m_joins m) as Hcm by (rewrite <- Hc; unfold counts, joins; by rewrite Hm).
  destruct (decide (m_joins m = 1%Z)) as [H1|H1]; destruct Hs as (Hok' & _ & Hcount); cbn [fst snd] in *.
  - destruct (keeps_forget key (local_addr id) st) as [Hk Hn].
    eapply (trefines_keeps st _ dead _ c _ t _ Hr Hok' Hk).
    + intros k i. rewrite Hcount. by rewrite Hc.
    + intros k i _ [-> [->%local_addr_inj|Hno]] Hm'; [|done]. by rewrite mem_forget, decide_True.
    + intros k i _ Hm' Hm2 ty. rewrite mem_forget in Hm2. case_decide as Hk2; [|done]. destruct Hk2 as [-> ->]. apply Hn.
    + intros k ty i Hi. rewrite mem_forget, Hcm. rewrite (decide_ext _ _ _ _ (and_local k key i id)).
      destruct (t k ty i) eqn:Ht; [|by rewrite andb_false_r]. rewrite andb_true_r. cbn [andb]. f_equal.
      pose proof (trefines_mem (mkTState st dead) _ k ty i Hr Hi Ht) as Hmi. cbn [ts_store] in Hmi.
      case_decide as Hk2; [by rewrite !bool_decide_eq_true_2 by naive_solver|]. rewrite !bool_decide_eq_false_2; [done|done|naive_solver].
  - eapply (trefines_keeps st _ dead (λ _ _, False) c _ t _ Hr Hok').
    + by apply keeps_typed_same.
    + intros k i. rewrite Hcount. by rewrite Hc.
    + done.
    + intros k i _ Hm' Hm2. rewrite (mem_decrement key _ m) in Hm2 by done. by case_decide.
    + intros k ty i Hi. destruct (t k ty i) eqn:Ht; [|by rewrite andb_false_r]. rewrite andb_true_r. cbn [andb]. f_equal.
      pose proof (trefines_mem (mkTState st dead) _ k ty i Hr Hi Ht) as Hmi. cbn [ts_store] in Hmi.
      rewrite (mem_decrement key _ m) by done. rewrite bool_decide_eq_false_2 by (rewrite Hcm; naive_solver).
      symmetry. apply bool_decide_eq_false_2. by case_decide.
Qed.

(** A step that changes neither what is typed nor what of live actors is counted. *)
Lemma trefines_unchanged st st' dead (gone : GroupKey → ActorAddress → Prop) c c' t :
  trefines (mkTState st dead) (mkTSpec c t dead) → ok st' → keeps_typed gone st st' →
  (∀ k i, counts st' k i = c' k i) →
  (∀ k id, id ∉ dead → gone k (local_addr id) → mem st k (local_addr id) = None) →
  (∀ k id, id ∉ dead → mem st k (local_addr id) ≠ None → mem st' k (local_addr id) ≠ None) →
  trefines (mkTState st' dead) (mkTSpec c' t dead).
Proof.
  intros Hr Hok Hk Hc Hg Hm. eapply (trefines_keeps st st' dead gone c c' t t); try done.
  - intros k i Hi Hgo Hmi. by destruct (Hmi (Hg k i Hi Hgo)).
  - intros k i Hi Hmi Hmi'. by destruct (Hm k i Hi Hmi).
  - intros k ty i Hi. destruct (t k ty i) eqn:Ht; [|done]. rewrite bool_decide_eq_false_2; [done|].
    apply Hm; [done|]. by apply (trefines_mem (mkTState st dead) _ k ty i Hr Hi).
Qed.

Lemma trefines_remove id s p : trefines s p → trefines (tstep (TRemove id) s) (tspec (TRemove id) p).
Proof.
  destruct s as [st dead], p as [c t dead']. intros Hr. pose proof (tr_dead _ _ Hr) as Hd. simpl in Hd. subst dead'.
  pose proof (tr_count _ _ Hr) as Hc. cbn [ts_store sp_count] in Hc. pose proof (tr_ok _ _ Hr) as Hok. simpl in Hok.
  pose proof (pg_step_refines (OpRemoveActor id) st Hok I) as Hs. cbn [pg_step spec_step fst remove_actor] in Hs.
  destruct Hs as (Hok' & _ & Hcount). cbn [tstep tspec ts_store ts_dead remove_actor fst].
  destruct (keeps_remove_actor (local_addr id) st) as [Hk Hn].
  assert (∀ k i, mem (store_remove_actor (local_addr id) st) k (local_addr i) =
    if decide (i = id) then None else mem st k (local_addr i)) as Hmem.
  { intros k i. rewrite mem_store_remove_actor by apply Hok. destruct (decide (i = id)) as [->|Hne]; [by rewrite decide_True|].
    rewrite decide_False; [done|]. by intros ?%local_addr_inj. }
  eapply (trefines_keeps st _ dead _ c _ t _ Hr Hok' Hk).
  - intros k i. rewrite Hcount. by rewrite Hc.
  - intros k i _ [->%local_addr_inj|Hno] Hmi; [|done]. by rewrite Hmem, decide_True.
  - intros k i _ Hmi Hmi' ty. rewrite Hmem in Hmi'. case_decide; [subst; apply Hn|done].
  - intros k ty i Hi. rewrite Hmem. destruct (t k ty i) eqn:Ht; [|by rewrite andb_false_r]. rewrite andb_true_r. cbn [andb]. f_equal.
    pose proof (trefines_mem (mkTState st dead) _ k ty i Hr Hi Ht) as Hmi. cbn [ts_store] in Hmi. case_decide.
    + by rewrite !bool_decide_eq_true_2.
    + by rewrite !bool_decide_eq_false_2.
Qed.

Lemma trefines_prune key st st' dead c t :
  trefines (mkTState st dead) (mkTSpec c t dead) → ok st' →
  keeps_typed (λ k a, k = key ∧ alive_member (alive dead) (mem st key a) = None) st st' →
  (∀ k a, mem st' k a = mem (prune (alive dead) key st) k a) →
  trefines (mkTState st' dead)
    (mkTSpec (λ k i, if decide (k = key) then if alive dead i then c k i else 0%Z else c k i) t dead).
Proof.
  intros Hr Hok' Hk Hmem. pose proof (tr_ok _ _ Hr) as [_ Hown]. simpl in Hown. pose proof (tr_count _ _ Hr) as Hc.
  cbn [ts_store sp_count] in Hc.
  assert (∀ k i, i ∉ dead → alive_member (alive dead) (mem st k (local_addr i)) = mem st k (local_addr i)) as Hal.
  { intros k i Hi. destruct (mem st k (local_addr i)) as [m|] eqn:Hm; [|done]. simpl.
    apply Hown, local_addr_inj in Hm as ->. unfold alive. by rewrite bool_decide_eq_true_2. }
  eapply (trefines_unchanged st _ dead _ c _ t Hr Hok' Hk).
  - intros k i. rewrite <- Hc. unfold counts, joins. rewrite Hmem, mem_prune. case_decide; [|done].
    destruct (mem st k (local_addr i)) as [m|] eqn:Hm; simpl; [|by destruct (alive dead i)].
    apply Hown, local_addr_inj in Hm as ->. by destruct (alive dead (m_handle m)).
  - intros k i Hi [-> Ha]. by rewrite Hal in Ha.
  - intros k i Hi Hm. rewrite Hmem, mem_prune. case_decide; [by rewrite Hal|done].
Qed.

Lemma trefines_reads key s p :
  trefines s p → trefines (tstep (TMembers key) s) (tspec (TMembers key) p) ∧ trefines (tstep (TAddresses key) s) (tspec (TAddresses key) p).
Proof.
  destruct s as [st dead], p as [c t dead']. intros Hr. pose proof (tr_dead _ _ Hr) as Hd. simpl in Hd. subst dead'.
  pose proof (tr_ok _ _ Hr) as Hok. simpl in Hok. cbn [tstep tspec ts_store ts_dead]. split.
  - apply (trefines_prune key st _ dead c t Hr); [by apply get_local_members_ok| |intros; apply mem_get_local_members].
    destruct (get_local_members_cases (alive dead) key st) as [[Hn ->]|[(ms & _ & _ & ->)|(ms & _ & _ & ->)]]; cbn [snd].
    + apply keeps_typed_refl.
    + apply keeps_prune.
    + by apply keeps_typed_same.
  - rewrite member_addresses_store.
    apply (trefines_prune key st _ dead c t Hr); [by apply prune_remove_ok|apply keeps_prune|]. intros k a. apply mem_remove_group.
Qed.

Lemma trefines_step op s p :
  trefines s p → (∀ k i, sp_count p k i < JOINS_LIMIT - 1)%Z → trefines (tstep op s) (tspec op p).
Proof.
  intros Hr Hlt. destruct op as [key ty id|key id|key id|id|key|key|ev|id].
  - by apply trefines_join.
  - by apply trefines_join_untyped.
  - by apply trefines_leave.
  - by apply trefines_remove.
  - by apply trefines_reads.
  - by apply trefines_reads.
  - destruct s as [st dead], p as [c t dead']. pose proof (tr_dead _ _ Hr) as Hd. simpl in Hd. subst dead'.
    pose proof (tr_ok _ _ Hr) as Hok. cbn [tstep tspec ts_store ts_dead].
    eapply (trefines_unchanged st _ dead _ c _ t Hr); [by apply apply_remote_ok|apply keeps_remote|..].
    + intros k i. unfold counts, joins. rewrite mem_apply_remote. apply (tr_count _ _ Hr).
    + done.
    + intros k i _. by rewrite mem_apply_remote.
  - destruct s as [st dead], p as [c t dead'], Hr as [Hok Hd Hc Ha Hl Hm]. cbn [tstep tspec ts_store ts_dead sp_dead sp_typed sp_count] in *.
    subst dead'. split; cbn [ts_store ts_dead sp_dead sp_typed sp_count]; try done.
    + intros k ty i Hi. apply Hl. set_solver.
    + intros k ty i Hi. apply Hm. set_solver.
Qed.

Fixpoint trun (ops : list TOp) (s : TState) : TState := match ops with [] => s | op :: ops => trun ops (tstep op s) end.
Fixpoint tspec_run (ops : list TOp) (p : TSpec) : TSpec := match ops with [] => p | op :: ops => tspec_run ops (tspec op p) end.

Lemma tspec_count op p n :
  (∀ k i, 0 ≤ sp_count p k i ≤ n)%Z → ∀ k i, (0 ≤ sp_count (tspec op p) k i ≤ n + 1)%Z.
Proof.
  intros Hb k i. destruct p as [c t dead]. simpl in Hb. pose proof (Hb k i).
  destruct op as [key ty id|key id|key id|id|key|key|ev|id]; simpl; repeat case_decide; subst; simpl;
    repeat case_match; try lia; destruct_and?; subst; try lia.
Qed.
Lemma trun_refines ops s p n :
  trefines s p → (∀ k i, 0 ≤ sp_count p k i ≤ n)%Z → (n + Z.of_nat (length ops) < JOINS_LIMIT)%Z →
  trefines (trun ops s) (tspec_run ops p).
Proof.
  revert s p n. induction ops as [|op ops IH]; intros s p n Hr Hb Hn; [done|]. simpl in *.
  apply (IH _ _ (n + 1)%Z); [|by apply tspec_count|lia]. apply trefines_step; [done|]. intros k i. specialize (Hb k i). lia.
Qed.
Lemma trefines_new : trefines (mkTState empty_store ∅) tspec_new.
Proof.
  split; cbn [ts_store ts_dead tspec_new sp_dead sp_typed sp_count]; try done.
Qed.

Lemma elem_of_typed_members s p k ty id :
  trefines s p → id ∈ typed_members k ty (ts_store s) ↔ tmem (ts_store s) k ty (local_addr id) = Some id.
Proof.
  intros Hr. pose proof (tr_address s p Hr) as Ha. unfold typed_members. unfold tmem in *. specialize (Ha k ty).
  destruct (typed (ts_store s) !! (k, ty)) as [b|]; simpl in *; [|split; [by intros ?%elem_of_nil|done]].
  rewrite list_elem_of_fmap. split.
  - intros ([a i] & -> & Hin%elem_of_map_to_list). simpl. by rewrite <- (Ha a i Hin).
  - intros Hin. exists (local_addr id, id). split; [done|]. by apply elem_of_map_to_list.
Qed.
Lemma NoDup_typed_members s p k ty : trefines s p → NoDup (typed_members k ty (ts_store s)).
Proof.
  intros Hr. pose proof (tr_address s p Hr k ty) as Ha. unfold typed_members. unfold tmem in Ha.
  destruct (typed (ts_store s) !! (k, ty)) as [b|]; simpl in *; [|constructor].
  apply NoDup_fmap_2_strong; [|apply NoDup_map_to_list].
  intros [a1 i1] [a2 i2] H1%elem_of_map_to_list H2%elem_of_map_to_list He. simpl in He. subst i2.
  by rewrite (Ha a1 i1 H1), (Ha a2 i1 H2).
Qed.
(** C12: What a broadcast or a pool finds in a group. After any sequence of
    fewer than 2^32 joins, leaves, exits, reads and events of other nodes, one
    after the other, the
    typed members of a group are, each once, exactly the live actors that
    joined it under that type and have not since left it as often as they
    joined, nor been removed; and all of them are counted as members. *)
Theorem typed_members_exact ops key ty :
  (Z.of_nat (length ops) < JOINS_LIMIT)%Z →
  let s := trun ops (mkTState empty_store ∅) in
  let p := tspec_run ops tspec_new in
  let found := members_scoped (alive (ts_dead s)) ty key (ts_store s) in
  NoDup found ∧ (∀ id, id ∈ found ↔ (id ∉ sp_dead p) ∧ sp_typed p key ty id = true) ∧
  ∀ id, id ∈ found → (0 < sp_count p key id)%Z.
Proof.
  intros Hlen s p found. assert (trefines s p) as Hr.
  { apply (trun_refines ops _ _ 0); [apply trefines_new|done|lia]. }
  assert (∀ id, id ∈ found ↔ (id ∉ sp_dead p) ∧ sp_typed p key ty id = true) as Hf.
  { intros id. unfold found, members_scoped. rewrite elem_of_iter_filter, (elem_of_typed_members s p) by done.
    unfold alive. rewrite bool_decide_eq_true, (tr_dead s p Hr). split.
    - intros [Hm Hd]. split; [done|]. by apply (tr_live s p Hr).
    - intros [Hd Hm]. split; [|done]. by apply (tr_live s p Hr). }
  split; [by eapply NoDup_iter_filter, NoDup_typed_members|]. split; [done|].
  intros id [Hd Ht]%Hf. rewrite (tr_dead s p Hr) in Hd. rewrite <- (tr_count s p Hr).
  pose proof (trefines_mem s p key ty id Hr Hd Ht) as Hm. pose proof (tr_ok s p Hr) as [Hinv _].
  unfold counts, joins. destruct (mem (ts_store s) key (local_addr id)) as [m|] eqn:He; [|done].
  by apply (inv_joins _ Hinv _ _ _ He).
Qed.
End typed.

Lemma typed_members_exact_witness :
  let _ : ThisNode := node_new "n@h" in
  let w (i : nat) := from_raw (N.of_nat i) in
  let ops := [TJoin pool_key "Worker" (w 1); TJoin pool_key "Worker" (w 2); TJoin pool_key "Worker" (w 1);
              TJoin pool_key "Logger" (w 3); TLeave pool_key (w 1); TDie (w 2); TAddresses pool_key] in
  let s := trun ops (mkTState empty_store ∅) in
  members_scoped (alive (ts_dead s)) "Worker" pool_key (ts_store s) = [w 1] ∧
  NoDup (members_scoped (alive (ts_dead s)) "Worker" pool_key (ts_store s)).
Proof.
  intros nd w ops s. split; [vm_compute; reflexivity|].
  apply (typed_members_exact ops pool_key "Worker"). vm_compute. reflexivity.
Defined.

(** A join under a type is not atomic. When another thread makes the actor
    leave the group between the two locks of a join, the actor has left, and
    yet broadcasts and pools still find it under its type. *)
Theorem typed_join_interleaved :
  let _ : ThisNode := node_new "n@h" in
  let leave st := fst (snd (leave_scoped pool_key (from_raw 1) st)) in
  let st := fst (typed_join_scoped leave pool_key "Worker" (from_raw 1) empty_store) in
  counts st pool_key (from_raw 1) = 0%Z ∧ fst (get_local_members_scoped (λ _, true) pool_key st) = [] ∧
  members_scoped (λ _, true) "Worker" pool_key st = [from_raw 1].
Proof. vm_compute. split_and!; reflexivity. Qed.
