(* ===== verification/Wire.v ===== *)
(** * Frames and supervision envelopes on the wire

    Model of [cluster/src/frame.rs] (length-prefixed frames) and of
    [cluster/src/supervision_validate.rs] (what a supervision envelope and
    its reply must satisfy), with the errors of [cluster/src/error.rs] and of
    [wire/src/lib.rs]. A byte stream is the list of the bytes still to come. *)

From Stdlib Require Import Strings.Byte.
From stdpp Require Import pretty.
From S2P Require Import Prelude Address RemoteSpawn.

Inductive WireError :=
| Encode (msg : string)
| Decode (msg : string)
| MessageIdMismatch (expected actual : string).

Inductive TransportError :=
| RemoteUnreachable
| WireErr (e : WireError)
| Io (msg : string)
| Protocol (msg : string).

(** [Display] of a node, an id and an address *)
Definition show_node (n : NodeId) : string := as_str n.
Definition show_id (i : ActorId) : string := "ActorId(" +:+ pretty (raw i) +:+ ")".
Definition show_address (a : ActorAddress) : string := show_node (node a) +:+ "#" +:+ show_id (actor_id a).

Definition MAX_FRAME_SIZE : N := (16 * 1024 * 1024)%N.

(** ** Integers as bytes *)

Definition byte_of (n : N) : byte := default x00 (Byte.of_N (n mod 256)).

(** [u32::to_be_bytes], [u32::from_be_bytes] *)
Definition to_be_bytes (n : N) : list byte :=
  [byte_of (N.shiftr n 24); byte_of (N.shiftr n 16); byte_of (N.shiftr n 8); byte_of n].
Definition from_be_bytes (bs : list byte) : N :=
  foldl (λ acc b, (N.shiftl acc 8 + Byte.to_N b)%N) 0%N bs.

(** ** Frames *)

(** [write_frame]: what is written, or the error. The stream does not fail. *)
Definition write_frame (body : list byte) : Result (list byte) TransportError :=
  let len := N.of_nat (length body) in
  if bool_decide (MAX_FRAME_SIZE < len)%N
  then Err (Protocol ("frame too large: " +:+ pretty len +:+ " bytes"))
  else Ok (to_be_bytes (len mod 2 ^ 32) ++ body).

(** [Read::read_exact] *)
Definition read_exact (n : nat) (input : list byte) : Result (list byte) TransportError * list byte :=
  if n <=? length input then (Ok (take n input), drop n input)
  else (Err (Io "failed to fill whole buffer"), []).

(** [read_frame]: the frame, and the rest of the stream. *)
Definition read_frame (input : list byte) : Result (list byte) TransportError * list byte :=
  match read_exact 4 input with
  | (Err e, rest) => (Err e, rest)
  | (Ok len_buf, rest) =>
      let len := from_be_bytes len_buf in
      if bool_decide (MAX_FRAME_SIZE < len)%N
      then (Err (Protocol ("frame too large: " +:+ pretty len +:+ " bytes")), rest)
      else read_exact (N.to_nat len) rest
  end.

(** Reading until the stream ends, with a bound on the number of frames. *)
Fixpoint read_frames (n : nat) (input : list byte) : list (list byte) * list byte :=
  match n with
  | 0 => ([], input)
  | S n =>
      match read_frame input with
      | (Ok body, rest) => let '(bs, rest) := read_frames n rest in (body :: bs, rest)
      | (Err _, rest) => ([], rest)
      end
  end.

Definition write_all (bodies : list (list byte)) : list byte :=
  concat ((λ b, match write_frame b with Ok bs => bs | Err _ => [] end) <$> bodies).

(** [lia] with division and remainder by constants. *)
#[local] Ltac Zify.zify_post_hook ::= Z.to_euclidean_division_equations.

Lemma to_N_byte_of n : Byte.to_N (byte_of n) = (n mod 256)%N.
Proof.
  unfold byte_of. assert (n mod 256 <= 255)%N as Hle by (pose proof (N.mod_lt n 256); lia).
  destruct (Byte.of_N (n mod 256)) as [b|] eqn:Hb; simpl; [by apply Byte.to_of_N|].
  apply Byte.of_N_None_iff in Hb. lia.
Qed.

Lemma be_bytes_roundtrip n : (n < 2 ^ 32)%N → from_be_bytes (to_be_bytes n) = n.
Proof.
  intros Hn. unfold from_be_bytes, to_be_bytes. cbn [foldl]. rewrite !to_N_byte_of.
  rewrite !N.shiftr_div_pow2, !N.shiftl_mul_pow2.
  change (2 ^ 24)%N with 16777216%N. change (2 ^ 16)%N with 65536%N. change (2 ^ 8)%N with 256%N.
  lia.
Qed.

Lemma byte_of_to_N b : byte_of (Byte.to_N b) = b.
Proof.
  unfold byte_of. pose proof (Byte.to_N_bounded b). rewrite N.mod_small by lia. by rewrite Byte.of_to_N.
Qed.

Lemma from_be_bytes_inv hd : length hd = 4 → to_be_bytes (from_be_bytes hd) = hd.
Proof.
  destruct hd as [|a [|b [|c [|d [|]]]]]; try done. intros _. unfold from_be_bytes, to_be_bytes.
  cbn [foldl]. rewrite !N.shiftr_div_pow2, !N.shiftl_mul_pow2.
  change (2 ^ 24)%N with 16777216%N. change (2 ^ 16)%N with 65536%N. change (2 ^ 8)%N with 256%N.
  pose proof (Byte.to_N_bounded a). pose proof (Byte.to_N_bounded b).
  pose proof (Byte.to_N_bounded c). pose proof (Byte.to_N_bounded d).
  set (n := (_ + Byte.to_N d)%N).
  assert (∀ x y, x mod 256 = Byte.to_N y → byte_of x = y)%N as Hb.
  { intros x y Hx. rewrite <- (byte_of_to_N y), <- Hx. unfold byte_of. by rewrite N.Div0.mod_mod. }
  repeat f_equal; apply Hb; unfold n; lia.
Qed.

Lemma read_exact_app bs rest : read_exact (length bs) (bs ++ rest) = (Ok bs, rest).
Proof.
  unfold read_exact. rewrite (proj2 (Nat.leb_le _ _)) by (rewrite length_app; lia).
  by rewrite take_app_length, drop_app_length.
Qed.

Lemma read_written_frame body rest :
  (N.of_nat (length body) ≤ MAX_FRAME_SIZE)%N →
  ∃ bs, write_frame body = Ok bs ∧ read_frame (bs ++ rest) = (Ok body, rest).
Proof.
  intros Hlen. unfold write_frame. rewrite bool_decide_eq_false_2 by lia.
  eexists. split; [done|]. assert (N.of_nat (length body) < 2 ^ 32)%N as Hlt.
  { unfold MAX_FRAME_SIZE in Hlen. lia. }
  unfold read_frame. rewrite <- app_assoc, (N.mod_small _ (2 ^ 32)) by done.
  set (hd := to_be_bytes _). pose proof (read_exact_app hd (body ++ rest)) as He.
  change (length hd) with 4 in He. rewrite He. unfold hd. rewrite be_bytes_roundtrip by done.
  rewrite bool_decide_eq_false_2 by lia. rewrite Nat2N.id. apply read_exact_app.
Qed.

(** C33: frames survive the wire: any sequence of bodies within the size limit,
    written one after the other, is read back frame by frame, and what
    follows in the stream is left untouched. *)
Theorem frames_roundtrip bodies rest :
  Forall (λ b, (N.of_nat (length b) ≤ MAX_FRAME_SIZE)%N) bodies →
  read_frames (length bodies) (write_all bodies ++ rest) = (bodies, rest).
Proof.
  induction 1 as [|b bodies Hb Hbs IH]; [done|]. unfold write_all. csimpl.
  rewrite <- app_assoc. fold (write_all bodies).
  destruct (read_written_frame b (write_all bodies ++ rest) Hb) as (bs & -> & Hr).
  rewrite Hr, IH. done.
Qed.

Lemma frames_roundtrip_witness :
  read_frames 2 (write_all [[x68; x69]; []] ++ [xff]) = ([[x68; x69]; []], [xff]).
Proof.
  apply (frames_roundtrip [[x68; x69]; []]).
  repeat constructor; vm_compute; discriminate.
Defined.

Lemma read_exact_short n inp : length inp < n → ∃ m, read_exact n inp = (Err (Io m), []).
Proof. intros Hlt. unfold read_exact. destruct (Nat.leb_spec n (length inp)); [lia|by eauto]. Qed.

Lemma read_exact_spec n inp :
  match read_exact n inp with
  | (Ok b, rest) => length b = n ∧ inp = b ++ rest
  | (Err (Io _), rest) => length inp < n ∧ rest = []
  | _ => False
  end.
Proof.
  unfold read_exact. destruct (Nat.leb_spec n (length inp)); [|done].
  split; [rewrite length_take; lia|by rewrite take_drop].
Qed.

(** C34: oversized frames are refused on both sides: nothing is written for a
    body over the limit, and a header announcing more than the limit is
    rejected before any byte of the body is read. A frame that is read is the
    one its header announces; a frame cut short, in its header or in its
    body, is an I/O error. *)
Theorem frame_bounds body input :
  ((MAX_FRAME_SIZE < N.of_nat (length body))%N ↔ ∃ m, write_frame body = Err (Protocol m)) ∧
  (∀ b rest, read_frame input = (Ok b, rest) →
     (N.of_nat (length b) ≤ MAX_FRAME_SIZE)%N ∧ input = to_be_bytes (N.of_nat (length b)) ++ b ++ rest) ∧
  (∀ m rest, read_frame input = (Err (Protocol m), rest) →
     ∃ hd, length hd = 4 ∧ (MAX_FRAME_SIZE < from_be_bytes hd)%N ∧ input = hd ++ rest) ∧
  (∀ n, (N.of_nat n ≤ MAX_FRAME_SIZE)%N → length input < 4 + n →
     (4 ≤ length input → take 4 input = to_be_bytes (N.of_nat n)) →
     ∃ m, read_frame input = (Err (Io m), [])).
Proof.
  split.
  { unfold write_frame. case_bool_decide; [split; [by eauto|done]|]. split; [lia|by intros [m ?]]. }
  unfold read_frame. pose proof (read_exact_spec 4 input) as H4.
  destruct (read_exact 4 input) as [[hd|e] rest0]; [|destruct e; try done].
  - destruct H4 as [Hhd ->]. split; [|split].
    + case_bool_decide as Hmax; [done|]. intros b rest Hb.
      pose proof (read_exact_spec (N.to_nat (from_be_bytes hd)) rest0) as Hre. rewrite Hb in Hre.
      destruct Hre as [Hlen ->]. rewrite Hlen, N2Nat.id, from_be_bytes_inv by done. split; [lia|done].
    + case_bool_decide as Hmax; [intros m rest [= <- <-]; by exists hd|]. intros m rest Hb.
      pose proof (read_exact_spec (N.to_nat (from_be_bytes hd)) rest0) as Hre. by rewrite Hb in Hre.
    + intros n Hn. rewrite length_app, take_app_length' by done. intros Hlen Hhd4.
      rewrite Hhd4, be_bytes_roundtrip, bool_decide_eq_false_2, Nat2N.id
        by (unfold MAX_FRAME_SIZE in *; lia).
      apply read_exact_short. lia.
  - destruct H4 as [Hlen ->]. split_and!; [done|done|]. by eauto.
Qed.

(** ** Validation of supervision envelopes *)

Definition MAX_REMOTE_SPAWN_INIT_BYTES : N := (64 * 1024)%N.

Definition requires_correlation (event : SupervisionEvent) : bool :=
  match event with SpawnRequest _ _ _ _ | SpawnOk _ | SpawnErr _ => true | _ => false end.

(** The error messages quote the event in its [Debug] form, a parameter. *)
Section validate.
Context (debug : SupervisionEvent → string).

Definition validate_spawn_spec (spec : RemoteSpawnSpec) : Result () TransportError :=
  match spec with
  | WorkerSpec _ init =>
      let len := N.of_nat (length init) in
      if bool_decide (MAX_REMOTE_SPAWN_INIT_BYTES < len)%N
      then Err (Protocol ("remote spawn init too large: " +:+ pretty len +:+ " bytes (max " +:+
                          pretty MAX_REMOTE_SPAWN_INIT_BYTES +:+ ")"))
      else Ok ()
  | NamedSpec _ _ => Ok ()
  end.

Definition validate_envelope (envelope : SupervisionEnvelope) : Result () TransportError :=
  let needs_correlation := requires_correlation (event envelope) in
  if needs_correlation && bool_decide (correlation_id envelope = 0%N)
  then Err (Protocol ("supervision event " +:+ debug (event envelope) +:+
                      " requires non-zero correlation_id"))
  else if negb needs_correlation && bool_decide (correlation_id envelope ≠ 0%N)
  then Err (Protocol ("supervision event " +:+ debug (event envelope) +:+
                      " must use correlation_id 0"))
  else match event envelope with
       | SpawnRequest _ _ spec _ => validate_spawn_spec spec
       | _ => Ok ()
       end.

Definition validate_reply (request reply : SupervisionEnvelope) : Result () TransportError :=
  match validate_envelope reply with
  | Err e => Err e
  | Ok _ =>
      if bool_decide (correlation_id reply ≠ correlation_id request)
      then Err (Protocol ("supervision correlation mismatch: expected " +:+
                          pretty (correlation_id request) +:+ ", got " +:+
                          pretty (correlation_id reply)))
      else match event request, event reply with
           | SpawnRequest _ _ _ _, SpawnOk _ | SpawnRequest _ _ _ _, SpawnErr _ => Ok ()
           | _, _ => Err (Protocol ("invalid supervision reply " +:+ debug (event reply) +:+
                                    " for request " +:+ debug (event request)))
           end
  end.
End validate.

(** An accepted reply answers its request: it is the outcome of a spawn,
    the request was a spawn request, and both carry the same correlation id,
    which is not zero; and every such pair is accepted. *)
Theorem validate_reply_iff debug request reply :
  validate_reply debug request reply = Ok () ↔
  (∃ p n sp l, event request = SpawnRequest p n sp l) ∧
  ((∃ c, event reply = SpawnOk c) ∨ (∃ m, event reply = SpawnErr m)) ∧
  correlation_id reply = correlation_id request ∧ correlation_id reply ≠ 0%N.
Proof.
  destruct request as [cq eq], reply as [cr er]. unfold validate_reply, validate_envelope. simpl. split.
  - intros Hv. destruct eq, er; simpl in Hv; repeat case_match; simplify_eq/=; try done;
      bool_simpl; split_and!; try naive_solver; by apply dec_stable.
  - intros ((p & n & sp & l & ->) & [[c ->]|[m ->]] & -> & Hne); simpl;
      by rewrite bool_decide_eq_false_2, bool_decide_eq_false_2 by naive_solver.
Qed.
