(* ===== verification/RemoteRefs.v ===== *)
(** * Remote references and the dispatch of inbound messages

    Model of [wire/src/lib.rs] (envelopes and their bodies), of
    [cluster/src/dispatch.rs], [router.rs] and [transport.rs], and of
    [concurrency/src/cluster/wire_dispatch.rs] and [remote_actor_ref.rs].

    Serialization (postcard) is the class [Codec], a parameter; the only fact
    used of it is that decoding inverts encoding ([CodecLaws]). The actor
    behind a reference is a [Recipient]: its operations change the state of
    its node. *)

From Stdlib Require Import Strings.Byte.
From stdpp Require Import pretty.
From S2P Require Import Prelude Address Errors Mailbox RemoteSpawn Wire.

(** ** Bodies and envelopes *)

(** [postcard::to_allocvec] and [postcard::from_bytes] at a type; an error
    carries its text. *)
Class Codec (T : Type) := {
  to_allocvec : T → Result (list byte) string;
  from_bytes : list byte → Result T string
}.
Class CodecLaws (T : Type) `{Codec T} : Prop :=
  from_to_bytes v bs : to_allocvec v = Ok bs → from_bytes bs = Ok v.

(** [RemoteMessage::REMOTE_ID] *)
Class RemoteMessage (M : Type) := REMOTE_ID : string.
#[global] Hint Mode RemoteMessage ! : typeclass_instances.
Arguments REMOTE_ID M {_}.

Record WireEnvelope := mkWireEnvelope {
  we_to : ActorAddress;
  we_msg_id : string;
  we_payload : list byte;
  we_correlation : N
}.

Definition encode `{Codec T} (v : T) : Result (list byte) WireError := result_map_err Encode (to_allocvec v).
Definition decode `{Codec T} (bs : list byte) : Result T WireError := result_map_err Decode (from_bytes bs).

Definition encode_payload `{Codec M} (message : M) : Result (list byte) WireError := encode message.

Definition decode_payload `{Codec M} `{RemoteMessage M} (envelope : WireEnvelope) : Result M WireError :=
  if decide (we_msg_id envelope ≠ REMOTE_ID M)
  then Err (MessageIdMismatch (REMOTE_ID M) (we_msg_id envelope))
  else decode (we_payload envelope).

Definition encode_reply `{Codec R} (value : R) : Result (list byte) WireError := encode value.
Definition decode_reply `{Codec R} (payload : list byte) : Result R WireError := decode payload.
Definition encode_envelope `{Codec WireEnvelope} (e : WireEnvelope) : Result (list byte) WireError := encode e.
Definition decode_envelope `{Codec WireEnvelope} (bs : list byte) : Result WireEnvelope WireError := decode bs.

(** [WireEnvelope::request] and [WireEnvelope::fire_and_forget] *)
Definition request_envelope_of `{Codec M} `{RemoteMessage M} (to : ActorAddress) (message : M) (cid : N)
    : Result WireEnvelope WireError :=
  match encode_payload message with
  | Ok payload => Ok (mkWireEnvelope to (REMOTE_ID M) payload cid)
  | Err e => Err e
  end.
Definition fire_and_forget `{Codec M} `{RemoteMessage M} (to : ActorAddress) (message : M)
    : Result WireEnvelope WireError :=
  match encode_payload message with
  | Ok payload => Ok (mkWireEnvelope to (REMOTE_ID M) payload 0)
  | Err e => Err e
  end.

(** [Display for WireEnvelope] *)
Definition show_envelope (e : WireEnvelope) : string :=
  "WireEnvelope { to: " +:+ show_address (we_to e) +:+ ", msg: " +:+ we_msg_id e +:+
  ", correlation: " +:+ pretty (we_correlation e) +:+ " }".

(** ** Dispatch by address *)

Section dispatch.
Context {W : Type}.

(** [InboundDispatch]: the reply of a correlated request. *)
Definition InboundDispatch : Type := WireEnvelope → Call W (option (list byte)) TransportError.

(** [AddressDispatch] *)
Abbreviation AddressDispatch := (gmap ActorAddress (list InboundDispatch)).

Definition dispatch_new : AddressDispatch := ∅.
Definition register (address : ActorAddress) (handler : InboundDispatch) (routes : AddressDispatch)
    : AddressDispatch :=
  <[address := default [] (routes !! address) ++ [handler]]> routes.

Fixpoint try_handlers (envelope : WireEnvelope) (last_wire : option TransportError)
    (handlers : list InboundDispatch) : Call W (option (list byte)) TransportError := λ w,
  match handlers with
  | [] =>
      Some (Err (default (Protocol ("no handler accepted message " +:+ we_msg_id envelope +:+ " for " +:+
                                    show_address (we_to envelope))) last_wire), w)
  | handler :: handlers =>
      '(r, w) ← handler envelope w;
      match r with
      | Ok result => Some (Ok result, w)
      | Err (WireErr (MessageIdMismatch _ _) as err) => try_handlers envelope (Some err) handlers w
      | Err (Protocol _) => try_handlers envelope last_wire handlers w
      | Err err => Some (Err err, w)
      end
  end.

Definition dispatch (routes : AddressDispatch) : InboundDispatch := λ envelope w,
  match routes !! we_to envelope with
  | None => Some (Err (Protocol ("no handler for " +:+ show_address (we_to envelope))), w)
  | Some handlers => try_handlers envelope None handlers w
  end.
End dispatch.
Arguments InboundDispatch W : clear implicits.
Abbreviation AddressDispatch W := (gmap ActorAddress (list (InboundDispatch W))).

(** ** Recipients and their wire handlers *)

(** [Receiver<M>] with the two ways to wait for a reply: [timeout(d, rx)] and
    [rx.recv()] without a limit. A receiving half is a number. *)
Record Recipient (W M R : Type) := mkRecipient {
  rc_send : M → Call W () ActorError;
  rc_request_raw : M → Call W N ActorError;
  rc_timeout : Duration → N → Call W R ActorError;
  rc_recv : N → Call W R ActorError
}.
Arguments mkRecipient {W M R}.
Arguments rc_send {W M R}.
Arguments rc_request_raw {W M R}.
Arguments rc_timeout {W M R}.
Arguments rc_recv {W M R}.

(** [tasks::request] *)
Definition request {W M R} (recipient : Recipient W M R) (msg : M) (d : Duration) : Call W R ActorError :=
  rx ←? rc_request_raw recipient msg; rc_timeout recipient d rx.

Section wire_dispatch.
Context {W M R : Type} `{Codec M} `{RemoteMessage M} `{Codec R}.

Definition unreachable {E} (_ : E) : TransportError := Wire.RemoteUnreachable.

(** The part of the two [dispatch] functions that they share; [wait] makes
    the request and waits for its reply. *)
Definition wire_dispatch (address : ActorAddress) (recipient : Recipient W M R)
    (wait : M → Call W R TransportError) : InboundDispatch W := λ envelope,
  if decide (we_to envelope ≠ address)
  then call_of (Err (Protocol ("unexpected target address " +:+ show_address (we_to envelope))))
  else
    msg ←? call_of (result_map_err WireErr (decode_payload envelope));
    if decide (we_correlation envelope = 0%N) then
      _ ←? map_err unreachable (rc_send recipient msg); call_of (Ok None)
    else
      result ←? wait msg;
      bytes ←? call_of (result_map_err WireErr (encode_reply result));
      call_of (Ok (Some bytes)).

(** [TasksWireDispatch]: the request runs on [runtime]; when that runtime has
    been shut down its task is dropped, and with it the channel that the
    handler waits on. *)
Record TasksWireDispatch := mkTasksWireDispatch {
  tw_address : ActorAddress;
  tw_recipient : Recipient W M R;
  tw_runtime : W → bool
}.
Definition tasks_dispatch (d : TasksWireDispatch) : InboundDispatch W :=
  wire_dispatch (tw_address d) (tw_recipient d) (λ msg w,
    if tw_runtime d w then map_err unreachable (request (tw_recipient d) msg (from_secs 5)) w
    else Some (Err Wire.RemoteUnreachable, w)).

(** [ThreadsWireDispatch]: no limit on the wait. *)
Record ThreadsWireDispatch := mkThreadsWireDispatch {
  th_address : ActorAddress;
  th_recipient : Recipient W M R
}.
Definition threads_dispatch (d : ThreadsWireDispatch) : InboundDispatch W :=
  wire_dispatch (th_address d) (th_recipient d) (λ msg,
    rx ←? map_err unreachable (rc_request_raw (th_recipient d) msg);
    map_err unreachable (rc_recv (th_recipient d) rx)).

(** [tasks_wire_dispatch], [threads_wire_dispatch], and
    [Node::register_tasks_wire], [Node::register_threads_wire]. *)
Definition tasks_wire_dispatch address recipient runtime : InboundDispatch W :=
  tasks_dispatch (mkTasksWireDispatch address recipient runtime).
Definition threads_wire_dispatch address recipient : InboundDispatch W :=
  threads_dispatch (mkThreadsWireDispatch address recipient).
Definition register_tasks_wire (address : ActorAddress) (recipient : Recipient W M R) (runtime : W → bool)
    (routes : AddressDispatch W) : AddressDispatch W :=
  register address (tasks_wire_dispatch address recipient runtime) routes.
Definition register_threads_wire (address : ActorAddress) (recipient : Recipient W M R)
    (routes : AddressDispatch W) : AddressDispatch W :=
  register address (threads_wire_dispatch address recipient) routes.
End wire_dispatch.
Arguments TasksWireDispatch W M R : clear implicits.
Arguments ThreadsWireDispatch W M R : clear implicits.

(** ** Transports and the router *)

(** [Transport] and [AsyncTransport] *)
Record Transport (W : Type) := mkTransport {
  send_envelope : WireEnvelope → Call W () TransportError;
  request_envelope : WireEnvelope → Call W (list byte) TransportError
}.
Arguments mkTransport {W}.
Arguments send_envelope {W}.
Arguments request_envelope {W}.

Definition UnavailableTransport {W} : Transport W :=
  mkTransport (λ _, call_of (Err Wire.RemoteUnreachable)) (λ _, call_of (Err Wire.RemoteUnreachable)).

Record ClusterRouter (W : Type) := mkRouter {
  cr_transport : Transport W;
  cr_async : option (Transport W)
}.
Arguments mkRouter {W}.
Arguments cr_transport {W}.
Arguments cr_async {W}.

Section router.
Context {W : Type}.
Implicit Types router : ClusterRouter W.

Definition router_new (t : Transport W) : ClusterRouter W := mkRouter t None.
Definition with_async (t : Transport W) (a : option (Transport W)) : ClusterRouter W := mkRouter t a.
Definition unavailable : ClusterRouter W := router_new UnavailableTransport.

(** [DEFAULT_ROUTER]: a cell that is written once. *)
Definition global (cell : option (ClusterRouter W)) : ClusterRouter W * option (ClusterRouter W) :=
  match cell with
  | Some router => (router, cell)
  | None => (unavailable, Some unavailable)
  end.
Definition set_global router (cell : option (ClusterRouter W)) : bool * option (ClusterRouter W) :=
  match cell with
  | Some _ => (false, cell)
  | None => (true, Some router)
  end.

Definition send_remote router : WireEnvelope → Call W () TransportError := send_envelope (cr_transport router).
Definition request_remote router : WireEnvelope → Call W (list byte) TransportError :=
  request_envelope (cr_transport router).

(** Without an async transport the request runs in [spawn_blocking]. *)
Definition request_remote_async router (envelope : WireEnvelope) : Call W (list byte) TransportError :=
  match cr_async router with
  | Some t => request_envelope t envelope
  | None => request_envelope (cr_transport router) envelope
  end.
End router.

(** ** References *)

Section refs.
Context {W M R : Type} `{ThisNode} `{Codec M} `{RemoteMessage M} `{Codec R}.
(** The counter [CORRELATION]. *)
Context (correlation : W → N) (set_correlation : N → W → W).

Inductive LocalRecipient :=
| LocalTasks (r : Recipient W M R)
| LocalThreads (r : Recipient W M R).
Definition recipient_of (l : LocalRecipient) : Recipient W M R :=
  match l with LocalTasks r | LocalThreads r => r end.

Record RemoteActorRef := mkRemoteRef {
  ra_address : ActorAddress;
  ra_local : option LocalRecipient;
  ra_router : ClusterRouter W
}.

Definition local_tasks address r cell : RemoteActorRef * option (ClusterRouter W) :=
  let '(router, cell) := global cell in (mkRemoteRef address (Some (LocalTasks r)) router, cell).
Definition local_threads address r cell : RemoteActorRef * option (ClusterRouter W) :=
  let '(router, cell) := global cell in (mkRemoteRef address (Some (LocalThreads r)) router, cell).
Definition remote (address : ActorAddress) (router : ClusterRouter W) : RemoteActorRef :=
  mkRemoteRef address None router.
Definition remote_global address cell : RemoteActorRef * option (ClusterRouter W) :=
  let '(router, cell) := global cell in (remote address router, cell).

(** Every error of the transport, and of the encoding, is [RemoteUnreachable]. *)
Definition map_transport_error (err : TransportError) : ActorError :=
  match err with
  | Wire.RemoteUnreachable | WireErr _ | Io _ | Protocol _ => Errors.RemoteUnreachable
  end.
Definition from_wire_error (err : WireError) : ActorError := Errors.RemoteUnreachable.

Definition next_correlation_id : Call W N ActorError := λ w,
  let c := correlation w in Some (Ok c, set_correlation (wrapping_succ_u64 c) w).

(** The local recipient, when the address is on this node. *)
Definition local_route (r : RemoteActorRef) : option LocalRecipient :=
  if is_local (ra_address r) then ra_local r else None.

Definition ref_send (r : RemoteActorRef) (msg : M) : Call W () ActorError :=
  match local_route r with
  | Some l => rc_send (recipient_of l) msg
  | None =>
      envelope ←? call_of (result_map_err from_wire_error (fire_and_forget (ra_address r) msg));
      map_err map_transport_error (send_remote (ra_router r) envelope)
  end.

Inductive RemoteRequest :=
| ReqLocal (l : LocalRecipient) (rx : N)
| ReqRemote (payload : list byte).

Definition ref_request_raw (r : RemoteActorRef) (msg : M) : Call W RemoteRequest ActorError :=
  match local_route r with
  | Some l => rx ←? rc_request_raw (recipient_of l) msg; call_of (Ok (ReqLocal l rx))
  | None =>
      cid ←? next_correlation_id;
      envelope ←? call_of (result_map_err from_wire_error (request_envelope_of (ra_address r) msg cid));
      payload ←? map_err map_transport_error (request_remote (ra_router r) envelope);
      call_of (Ok (ReqRemote payload))
  end.

(** [RequestRx::recv], [RemoteRequest::recv] *)
Definition rx_recv (l : LocalRecipient) (rx : N) : Call W R ActorError :=
  map_err (λ _, ActorStopped) (rc_recv (recipient_of l) rx).
Definition request_recv (q : RemoteRequest) : Call W R ActorError :=
  match q with
  | ReqLocal l rx => rx_recv l rx
  | ReqRemote payload => call_of (result_map_err from_wire_error (decode_reply payload))
  end.

Definition request_async (r : RemoteActorRef) (msg : M) : Call W R ActorError :=
  match local_route r with
  | Some (LocalTasks rc) => map_err (λ _, Errors.RemoteUnreachable) (request rc msg (from_secs 30))
  | Some (LocalThreads rc) =>
      rx ←? map_err (λ _, Errors.RemoteUnreachable) (rc_request_raw rc msg);
      map_err (λ _, ActorStopped) (rc_recv rc rx)
  | None =>
      cid ←? next_correlation_id;
      envelope ←? call_of (result_map_err from_wire_error (request_envelope_of (ra_address r) msg cid));
      payload ←? map_err map_transport_error (request_remote_async (ra_router r) envelope);
      call_of (result_map_err from_wire_error (decode_reply payload))
  end.
End refs.
Arguments LocalRecipient W M R : clear implicits.
Arguments RemoteActorRef W M R : clear implicits.
Arguments RemoteRequest W M R : clear implicits.

(** ** Which handler takes a message *)

(** What a node registers for an address: a message type with its id, and the
    recipient on one of the runtimes. *)
Record Wired (W : Type) := mkWired {
  wd_msg : Type;
  wd_reply : Type;
  wd_codec : Codec wd_msg;
  wd_id : RemoteMessage wd_msg;
  wd_codec_reply : Codec wd_reply;
  wd_recipient : Recipient W wd_msg wd_reply;
  wd_runtime : option (W → bool)
}.
Arguments mkWired {W} wd_msg wd_reply {_ _ _} wd_recipient wd_runtime.
Arguments wd_msg {W}.
Arguments wd_reply {W}.
Arguments wd_codec {W}.
Arguments wd_id {W}.
Arguments wd_codec_reply {W}.
Arguments wd_recipient {W}.
Arguments wd_runtime {W}.

Section selection.
Context {W : Type}.
Implicit Types (h : Wired W) (env : WireEnvelope) (w : W).

(** [Node::register_tasks_wire] or [Node::register_threads_wire] *)
Definition handler_of (a : ActorAddress) h : InboundDispatch W :=
  let _ := wd_codec h in let _ := wd_id h in let _ := wd_codec_reply h in
  match wd_runtime h with
  | Some runtime => tasks_wire_dispatch a (wd_recipient h) runtime
  | None => threads_wire_dispatch a (wd_recipient h)
  end.
Definition register_wired (routes : AddressDispatch W) (r : ActorAddress * Wired W) : AddressDispatch W :=
  register r.1 (handler_of r.1 r.2) routes.
Definition message_id h : string := let _ := wd_id h in REMOTE_ID (wd_msg h).

(** The handlers of an address in the order of their registration. *)
Definition handlers_at (a : ActorAddress) (regs : list (ActorAddress * Wired W)) : list (Wired W) :=
  omap (λ r : ActorAddress * Wired W, if decide (r.1 = a) then Some r.2 else None) regs.

Lemma routes_at a regs :
  foldl register_wired dispatch_new regs !! a =
    match handlers_at a regs with [] => None | hs => Some (handler_of a <$> hs) end.
Proof.
  induction regs as [|[b h] regs IH] using rev_ind; [done|].
  rewrite foldl_app. cbn [foldl]. unfold register_wired at 1, register. cbn [fst snd].
  unfold handlers_at. rewrite omap_app. fold (handlers_at a regs). cbn [omap list_omap fst snd].
  destruct (decide (b = a)) as [->|Hne].
  - rewrite lookup_insert_eq, IH. destruct (handlers_at a regs) as [|h0 hs]; [done|].
    cbn [app default]. f_equal. apply (eq_sym (fmap_app (handler_of a) (h0 :: hs) [h])).
  - rewrite lookup_insert_ne by done. by rewrite app_nil_r, IH.
Qed.

(** A handler never leaves a message of its own id to the next one, and
    always leaves one of another id, untouched. *)
Lemma handler_other a h env w :
  we_to env = a → we_msg_id env ≠ message_id h →
  handler_of a h env w = Some (Err (WireErr (MessageIdMismatch (message_id h) (we_msg_id env))), w).
Proof.
  intros Ha Hne. unfold handler_of, tasks_wire_dispatch, threads_wire_dispatch, tasks_dispatch,
    threads_dispatch, wire_dispatch, decode_payload.
  destruct (wd_runtime h); simpl; (rewrite decide_False by (intros Hx; by apply Hx));
    unfold call_bind, call_of; cbn [mbind option_bind]; by rewrite decide_True.
Qed.

Definition final (e : TransportError) : bool :=
  match e with WireErr (MessageIdMismatch _ _) | Protocol _ => false | _ => true end.

Lemma wire_dispatch_final {M R} `{Codec M} `{RemoteMessage M} `{Codec R} a (rc : Recipient W M R) wait env w e w' :
  (∀ m w e w', wait m w = Some (Err e, w') → final e = true) →
  we_to env = a → we_msg_id env = REMOTE_ID M →
  wire_dispatch a rc wait env w = Some (Err e, w') → final e = true.
Proof.
  intros Hwait Ha Hid. unfold wire_dispatch, decode_payload.
  rewrite decide_False by (intros Hx; by apply Hx). rewrite decide_False by (intros Hx; by apply Hx).
  unfold call_bind, call_of, map_err. cbn [mbind option_bind].
  destruct (decode (we_payload env)) as [m|er] eqn:Hd; cbn [result_map_err].
  2: { intros [= <- <-]. unfold decode in Hd. by destruct (from_bytes _); simplify_eq/=. }
  case_decide.
  - destruct (rc_send rc m w) as [[[u|er] w1]|]; intros; by simplify_eq/=.
  - destruct (wait m w) as [[[v|er] w1]|] eqn:Hw; cbn [mbind option_bind]; [|intros [= <- <-]; by eapply Hwait|done].
    unfold encode_reply, encode. by destruct (to_allocvec v); intros; simplify_eq/=.
Qed.

Lemma handler_own a h env w e w' :
  we_to env = a → we_msg_id env = message_id h → handler_of a h env w = Some (Err e, w') → final e = true.
Proof.
  intros Ha Hid. unfold handler_of, tasks_wire_dispatch, threads_wire_dispatch, tasks_dispatch, threads_dispatch.
  destruct (wd_runtime h) as [rt|]; simpl; apply wire_dispatch_final; try done.
  - intros m w0 e0 w1. unfold map_err. destruct (rt w0); [|by intros [= <- _]].
    destruct (request _ m _ w0) as [[[v|er] w2]|]; intros; by simplify_eq/=.
  - intros m w0 e0 w1. unfold call_bind, map_err. destruct (rc_request_raw _ m w0) as [[[k|er] w2]|]; simpl.
    + destruct (rc_recv _ k w2) as [[[v|er] w3]|]; intros; by simplify_eq/=.
    + by intros [= <- _].
    + done.
Qed.

Definition mismatch env h : TransportError := WireErr (MessageIdMismatch (message_id h) (we_msg_id env)).

Lemma try_handlers_first env hs w lw :
  try_handlers env lw (handler_of (we_to env) <$> hs) w =
    match iter_find (λ h, bool_decide (we_msg_id env = message_id h)) hs with
    | Some h => handler_of (we_to env) h env w
    | None => try_handlers env (match last hs with Some h => Some (mismatch env h) | None => lw end) [] w
    end.
Proof.
  revert lw. induction hs as [|h hs IH]; intros lw; [done|]. cbn [fmap list_fmap iter_find try_handlers].
  case_bool_decide as Hid.
  - destruct (handler_of (we_to env) h env w) as [[[r|e] w']|] eqn:He; cbn [mbind option_bind]; [done| |done].
    pose proof (handler_own _ h env w e w' eq_refl Hid He) as Hf.
    destruct e as [|[]| |]; done.
  - rewrite handler_other by done. cbn [mbind option_bind]. rewrite IH.
    destruct (iter_find _ hs); [done|].
    destruct hs as [|h' hs]; [done|]. change (last (h :: h' :: hs)) with (last (h' :: hs)).
    destruct (last (h' :: hs)) eqn:Hl; [done|]. apply last_None in Hl. discriminate.
Qed.

(** A message is taken by the actor it is addressed to and by the handler
    of its type: of the handlers registered for the address, in that order,
    the first one with the id of the message runs, and no other does. When
    there is none the message is refused and nothing changes. *)
Theorem dispatch_selects regs env w :
  dispatch (foldl register_wired dispatch_new regs) env w =
    match iter_find (λ h, bool_decide (we_msg_id env = message_id h)) (handlers_at (we_to env) regs),
          last (handlers_at (we_to env) regs) with
    | Some h, _ => handler_of (we_to env) h env w
    | None, Some h => Some (Err (mismatch env h), w)
    | None, None => Some (Err (Protocol ("no handler for " +:+ show_address (we_to env))), w)
    end.
Proof.
  unfold dispatch. rewrite routes_at. destruct (handlers_at (we_to env) regs) as [|h hs]; [done|].
  rewrite try_handlers_first. destruct (iter_find _ _); [done|].
  destruct (last (h :: hs)) as [h'|] eqn:Hl; [done|]. apply last_None in Hl. discriminate.
Qed.
End selection.

(** ** Requests to another node *)

(** What a transport promises for the node [n] whose inbound messages [d]
    dispatches: while the transport is [ready] for that node, a request that
    it can carry is handled once, and the caller gets its reply or an error.
    [core] is the state that the handlers see. *)
Class Delivers {S W : Type} (t : Transport S) (n : NodeId) (d : InboundDispatch W) (core : S → W)
    (ready : S → Prop) (carries : WireEnvelope → Prop) (carries_reply : N → list byte → Prop) : Prop :=
  dl_request env s r w :
    ready s → node (we_to env) = n → we_correlation env ≠ 0%N → carries env →
    (∀ p, r = Ok p → carries_reply (we_correlation env) (default [] p)) →
    d env (core s) = Some (r, w) →
    ∃ e s', request_envelope t env s =
        Some (match r with Ok p => Ok (default [] p) | Err _ => Err e end, s') ∧
      core s' = w ∧ (is_ok r = true → ready s').

Section transparent.
Context {S W M R : Type} `{ThisNode} `{CodecLaws M} `{RemoteMessage M} `{CodecLaws R}.
(** The counter of correlation ids is part of the state of the nodes. *)
Context (correlation : W → N) (set_correlation : N → W → W).
Context (core : S → W) (set_core : (W → W) → S → S).
Context (core_set : ∀ f s, core (set_core f s) = f (core s)).
Context (t : Transport S) (n : NodeId) (regs : list (ActorAddress * Wired W)).
Context (ready : S → Prop) (carries : WireEnvelope → Prop) (carries_reply : N → list byte → Prop).
Context (ready_set : ∀ f s, ready s → ready (set_core f s)).
Context `{!Delivers t n (dispatch (foldl register_wired dispatch_new regs)) core ready carries carries_reply}.

(** The client's side counter. *)
Definition s_correlation (s : S) : N := correlation (core s).
Definition s_set_correlation (c : N) (s : S) : S := set_core (set_correlation c) s.

(** How a registered handler makes the request: with a limit of five seconds
    on the tasks runtime [rt], unless that has been shut down, and without a
    limit in a thread. *)
Definition served (rt : option (W → bool)) (rc : Recipient W M R) (m : M) : Call W R ActorError :=
  match rt with
  | Some rt => λ w, if rt w then request rc m (from_secs 5) w else Some (Err Errors.RemoteUnreachable, w)
  | None => rx ←? rc_request_raw rc m; rc_recv rc rx
  end.

Lemma dispatch_own (rc : Recipient W M R) rt env w m :
  iter_find (λ h, bool_decide (we_msg_id env = message_id h)) (handlers_at (we_to env) regs) =
    Some (mkWired M R rc rt) →
  we_msg_id env = REMOTE_ID M → encode_payload m = Ok (we_payload env) → we_correlation env ≠ 0%N →
  dispatch (foldl register_wired dispatch_new regs) env w =
    '(r, w) ← served rt rc m w;
    Some (match r with
          | Ok v => match encode_reply v with Ok b => Ok (Some b) | Err e => Err (WireErr e) end
          | Err _ => Err Wire.RemoteUnreachable
          end, w).
Proof.
  intros Hsel Hid Hp Hcid. unfold dispatch. rewrite routes_at.
  destruct (handlers_at (we_to env) regs) as [|h hs]; [done|]. rewrite try_handlers_first, Hsel.
  unfold decode, encode_payload, encode in *. destruct (to_allocvec m) as [bs|] eqn:Hto; [|done].
  injection Hp as Hp. subst bs.
  unfold handler_of. simpl. unfold tasks_wire_dispatch, threads_wire_dispatch, tasks_dispatch, threads_dispatch,
    wire_dispatch, decode_payload, decode, served.
  destruct rt as [rt|]; cbn [tw_address tw_recipient tw_runtime th_address th_recipient];
    rewrite !decide_False by (intros Hx; by apply Hx); rewrite (from_to_bytes m _ Hto);
    unfold call_bind, call_of, map_err; cbn [mbind option_bind result_map_err]; rewrite decide_False by done.
  - destruct (rt w); [|done]. destruct (request rc m (from_secs 5) w) as [[[v|e] w']|]; [|done|done].
    cbn [mbind option_bind result_map_err]. by destruct (encode_reply v).
  - destruct (rc_request_raw rc m w) as [[[k|e] w']|]; [|done|done]. cbn [mbind option_bind result_map_err].
    destruct (rc_recv rc k w') as [[[v|e] w2]|]; [|done|done]. cbn [mbind option_bind result_map_err].
    by destruct (encode_reply v).
Qed.

End transparent.

(** ** The global router *)

(** The first use of the process-wide router decides it: a reference made
    before the node is built installs a router without transport, which the
    node's own router does not replace; every reference to another node made
    through the global router then fails. *)
Theorem early_reference_pins_router {W M R} `{ThisNode} `{Codec M} `{RemoteMessage M} `{Codec R}
    (correlation : W → N) (set_correlation : N → W → W) (a : ActorAddress) (rc : Recipient W M R)
    (router : ClusterRouter W) (b : ActorAddress) (m : M) w :
  let '(_, cell) := local_tasks a rc None in
  let '(installed, cell) := set_global router cell in
  let '(r, _) := remote_global (M := M) (R := R) b cell in
  installed = false ∧ ref_send r m w = Some (Err Errors.RemoteUnreachable, w) ∧
  ∃ w', request_async correlation set_correlation r m w = Some (Err Errors.RemoteUnreachable, w').
Proof.
  split; [done|]. unfold ref_send, request_async, local_route. cbn [ra_address ra_local remote].
  replace (if is_local b then None else None) with (@None (LocalRecipient W M R)) by (by destruct (is_local b)).
  unfold fire_and_forget, request_envelope_of, encode_payload, encode, call_bind, call_of, map_err, next_correlation_id.
  cbn [mbind option_bind]. destruct (to_allocvec m) as [p|e]; cbn [result_map_err mbind option_bind]; eauto.
Qed.
