(* ===== verification/Broadcast.v ===== *)
(** * Broadcasts and pools over typed members

    Model of the broadcasts of [concurrency/src/tasks/pg.rs] and
    [concurrency/src/threads/pg.rs] ([cast], [call] and their federated
    variants) and of the dispatch of [concurrency/src/tasks/pool.rs] and
    [concurrency/src/threads/pool.rs]. The members found in the group store
    are reached through their mailboxes, the members on other nodes through
    the router of [RemoteRefs]; both are calls that may not return. A report
    is proved to be that of asking each member once, in order. *)

From S2P Require Import Prelude Address Errors ChildSpec ProcessGroups Wire RemoteRefs Pool TypedGroups.

(** Where the groups of a node live, and how its actors are reached: the
    reference of an actor as a recipient, its mailbox depth and whether it is
    alive, and the process-wide router. *)
Class GroupEnv (W M R : Type) := {
  ge_store : W → PgStore;
  ge_set_store : PgStore → W → W;
  ge_alive : W → ActorId → bool;
  ge_depth : W → ActorId → nat;
  ge_ref : ActorId → Recipient W M R;
  ge_router : option (ClusterRouter W);
  ge_correlation : W → N;
  ge_set_correlation : N → W → W
}.

Section groups.
Context {W M R : Type} `{ThisNode} `{Codec M} `{RemoteMessage M} `{Codec R} `{!GroupEnv W M R}.
Context (ty : TypeId).

Definition DEFAULT_REQUEST_TIMEOUT : Duration := from_secs 5.

(** [members_scoped::<A>] *)
Definition group_members (key : GroupKey) (w : W) : list ActorId :=
  members_scoped (ge_alive w) ty key (ge_store w).

(** [pg::member_addresses_scoped], without the local ones. *)
Definition remote_addresses (key : GroupKey) (w : W) : list ActorAddress * W :=
  let '(addresses, st) := member_addresses_scoped (ge_alive w) key (ge_store w) in
  (iter_filter (λ a, negb (is_local a)) addresses, ge_set_store st w).

(** [member.send], [member.request], [RemoteActorRef::remote_global(address)] *)
Definition member_send (msg : M) (id : ActorId) : Call W () ActorError := rc_send (ge_ref id) msg.
Definition member_request (msg : M) (id : ActorId) : Call W R ActorError :=
  request (ge_ref id) msg DEFAULT_REQUEST_TIMEOUT.
Definition remote_ref (a : ActorAddress) : RemoteActorRef W M R := fst (remote_global a ge_router).
Definition remote_send (msg : M) (a : ActorAddress) : Call W () ActorError := ref_send (remote_ref a) msg.

(** The two ways [call_remote] waits for the reply of another node. *)
Definition remote_call_tasks (msg : M) (a : ActorAddress) : Call W R ActorError :=
  q ←? ref_request_raw ge_correlation ge_set_correlation (remote_ref a) msg; request_recv q.
Definition remote_call_threads (msg : M) (a : ActorAddress) : Call W R ActorError :=
  q ←? ref_request_raw ge_correlation ge_set_correlation (remote_ref a) msg;
  match q with
  | ReqRemote payload => call_of (result_map_err (λ _, Errors.RemoteUnreachable) (decode_reply payload))
  | ReqLocal _ _ => call_of (Err Errors.RemoteUnreachable)
  end.

(** ** [cast] *)

Fixpoint cast_local (msg : M) (members : list ActorId) (report : PgSendReport) (w : W) : option (PgSendReport * W) :=
  match members with
  | [] => Some (report, w)
  | m :: members =>
      '(r, w) ← member_send msg m w;
      cast_local msg members
        (match r with
         | Ok _ => mkReport (delivered report + 1) (failed report)
         | Err e => mkReport (delivered report) (failed report ++ [(m, e)])
         end) w
  end.
Fixpoint cast_addresses (msg : M) (addresses : list ActorAddress) (report : PgSendReport) (w : W)
    : option (PgSendReport * W) :=
  match addresses with
  | [] => Some (report, w)
  | a :: addresses =>
      if is_local a then cast_addresses msg addresses report w
      else
        '(r, w) ← remote_send msg a w;
        cast_addresses msg addresses
          (match r with
           | Ok _ => mkReport (delivered report + 1) (failed report)
           | Err e => mkReport (delivered report) (failed report ++ [(actor_id a, e)])
           end) w
  end.
Definition cast_remote (key : GroupKey) (msg : M) (report : PgSendReport) (w : W) : option (PgSendReport * W) :=
  let '(addresses, st) := member_addresses_scoped (ge_alive w) key (ge_store w) in
  cast_addresses msg addresses report (ge_set_store st w).
Definition group_cast_scoped (key : GroupKey) (msg : M) (w : W) : option (PgSendReport * W) :=
  cast_local msg (group_members key w) (mkReport 0 []) w.
Definition cast_federated_scoped (key : GroupKey) (msg : M) (w : W) : option (PgSendReport * W) :=
  '(report, w) ← group_cast_scoped key msg w; cast_remote key msg report w.
Definition group_cast (group : string) := group_cast_scoped (mkGroupKey DEFAULT_SCOPE group).
Definition cast_federated (group : string) := cast_federated_scoped (mkGroupKey DEFAULT_SCOPE group).

(** ** [call] *)

Record PgCallReport := mkCallReport { cr_ok : list (ActorId * R); cr_failed : list (ActorId * ActorError) }.
Definition add_reply (id : ActorId) (r : Result R ActorError) (report : PgCallReport) : PgCallReport :=
  match r with
  | Ok v => mkCallReport (cr_ok report ++ [(id, v)]) (cr_failed report)
  | Err e => mkCallReport (cr_ok report) (cr_failed report ++ [(id, e)])
  end.
Fixpoint call_local (msg : M) (members : list ActorId) (report : PgCallReport) (w : W) : option (PgCallReport * W) :=
  match members with
  | [] => Some (report, w)
  | m :: members => '(r, w) ← member_request msg m w; call_local msg members (add_reply m r report) w
  end.
Fixpoint call_addresses (ask : M → ActorAddress → Call W R ActorError) (msg : M) (addresses : list ActorAddress)
    (report : PgCallReport) (w : W) : option (PgCallReport * W) :=
  match addresses with
  | [] => Some (report, w)
  | a :: addresses =>
      if is_local a then call_addresses ask msg addresses report w
      else '(r, w) ← ask msg a w; call_addresses ask msg addresses (add_reply (actor_id a) r report) w
  end.
Definition call_remote (ask : M → ActorAddress → Call W R ActorError) (key : GroupKey) (msg : M) (report : PgCallReport)
    (w : W) : option (PgCallReport * W) :=
  let '(addresses, st) := member_addresses_scoped (ge_alive w) key (ge_store w) in
  call_addresses ask msg addresses report (ge_set_store st w).
Definition group_call_scoped (key : GroupKey) (msg : M) (w : W) : option (PgCallReport * W) :=
  call_local msg (group_members key w) (mkCallReport [] []) w.
Definition call_federated_scoped (ask : M → ActorAddress → Call W R ActorError) (key : GroupKey) (msg : M) (w : W)
    : option (PgCallReport * W) :=
  '(report, w) ← group_call_scoped key msg w; call_remote ask key msg report w.
Definition group_call (group : string) := group_call_scoped (mkGroupKey DEFAULT_SCOPE group).
Definition call_federated ask (group : string) := call_federated_scoped ask (mkGroupKey DEFAULT_SCOPE group).

(** ** Pools *)

(** A call of the pool: the dispatcher's counter is shared, [None] does not
    return. *)
Definition PoolCall (A : Type) : Type := PoolDispatcher → W → option (Result A PoolError * PoolDispatcher * W).

Definition on_target {T A} (sel : option (Result T PoolError) * PoolDispatcher) (k : T → Call W A ActorError) (w : W)
    : option (Result A PoolError * PoolDispatcher * W) :=
  r ← sel.1;
  match r with
  | Err e => Some (Err e, sel.2, w)
  | Ok t => '(r, w) ← k t w; Some (result_map_err PoolActor r, sel.2, w)
  end.
Definition pool_select_local (d : PoolDispatcher) (w : W) :=
  select_local_target (ge_alive w) (ge_depth w) ty d (ge_store w).
(** Reading the addresses prunes the group. *)
Definition pool_select_federated (d : PoolDispatcher) (w : W) :=
  (select_federated_target (ge_alive w) (ge_depth w) ty d (ge_store w),
   ge_set_store (snd (member_addresses_scoped (ge_alive w) (dispatcher_key d) (ge_store w))) w).

Definition pool_dispatch (msg : M) : PoolCall () := λ d w, on_target (pool_select_local d w) (member_send msg) w.
Definition call_one (msg : M) : PoolCall R := λ d w, on_target (pool_select_local d w) (member_request msg) w.
Definition dispatch_federated (msg : M) : PoolCall () := λ d w,
  let '(sel, w) := pool_select_federated d w in
  on_target sel (λ t, match t with LocalTarget m => member_send msg m | RemoteTarget a => remote_send msg a end) w.
Definition call_one_federated (ask : M → ActorAddress → Call W R ActorError) (msg : M) : PoolCall R := λ d w,
  let '(sel, w) := pool_select_federated d w in
  on_target sel (λ t, match t with LocalTarget m => member_request msg m | RemoteTarget a => ask msg a end) w.

(** ** The reference: asking each of them once *)

Fixpoint ask_each {X T} (ask : X → Call W T ActorError) (xs : list X) (w : W) : option (list (X * Result T ActorError) * W) :=
  match xs with
  | [] => Some ([], w)
  | x :: xs => '(r, w) ← ask x w; '(rs, w) ← ask_each ask xs w; Some ((x, r) :: rs, w)
  end.
Definition oks {X T} (f : X → ActorId) (rs : list (X * Result T ActorError)) : list (ActorId * T) :=
  omap (λ xr, match xr.2 with Ok v => Some (f xr.1, v) | Err _ => None end) rs.
Definition errs {X T} (f : X → ActorId) (rs : list (X * Result T ActorError)) : list (ActorId * ActorError) :=
  omap (λ xr, match xr.2 with Ok _ => None | Err e => Some (f xr.1, e) end) rs.

Lemma ask_each_fst {X T} (ask : X → Call W T ActorError) xs w rs w' :
  ask_each ask xs w = Some (rs, w') → rs.*1 = xs.
Proof.
  revert w rs. induction xs as [|x xs IH]; intros w rs He; simplify_eq/=; [done|].
  destruct (ask x w) as [[r w1]|]; [|done]. simpl in He. destruct (ask_each ask xs w1) as [[rs' w2]|] eqn:Hx; [|done].
  simplify_eq/=. f_equal. by eapply IH.
Qed.
(** Every one asked is reported on once, as a reply or as a failure. *)
Lemma oks_errs {X T} (f : X → ActorId) (rs : list (X * Result T ActorError)) :
  (oks f rs).*1 ++ (errs f rs).*1 ≡ₚ f <$> rs.*1.
Proof.
  unfold oks, errs. induction rs as [|[x [v|e]] rs IH]; [done|simpl; by constructor|]. simpl.
  rewrite <- Permutation_middle. by constructor.
Qed.

Definition call_report {X} (f : X → ActorId) (report : PgCallReport) (rs : list (X * Result R ActorError)) : PgCallReport :=
  mkCallReport (cr_ok report ++ oks f rs) (cr_failed report ++ errs f rs).
Lemma call_report_cons {X} (f : X → ActorId) report (x : X) (r : Result R ActorError) rs :
  call_report f report ((x, r) :: rs) = call_report f (add_reply (f x) r report) rs.
Proof. unfold call_report. destruct r; cbn [add_reply cr_ok cr_failed]; by rewrite <- app_assoc. Qed.

Lemma call_local_spec msg members report w :
  call_local msg members report w = '(rs, w) ← ask_each (member_request msg) members w; Some (call_report id report rs, w).
Proof.
  revert report w. induction members as [|m members IH]; intros report w; simpl.
  { unfold call_report. simpl. rewrite !app_nil_r. by destruct report. }
  destruct (member_request msg m w) as [[r w1]|]; [|done]. simpl. rewrite IH.
  destruct (ask_each (member_request msg) members w1) as [[rs w2]|]; [|done]. simpl. by rewrite (call_report_cons id).
Qed.
Lemma call_addresses_spec ask msg addresses report w :
  call_addresses ask msg addresses report w =
    '(rs, w) ← ask_each (ask msg) (iter_filter (λ a, negb (is_local a)) addresses) w; Some (call_report actor_id report rs, w).
Proof.
  revert report w. induction addresses as [|a addresses IH]; intros report w; simpl.
  { unfold call_report. simpl. rewrite !app_nil_r. by destruct report. }
  destruct (is_local a); simpl; [apply IH|].
  destruct (ask msg a w) as [[r w1]|]; [|done]. simpl. rewrite IH.
  destruct (ask_each (ask msg) _ w1) as [[rs w2]|]; [|done]. simpl. by rewrite call_report_cons.
Qed.

(** The order in which a federated call asks. *)
Lemma call_federated_order ask key msg w :
  call_federated_scoped ask key msg w =
    '(rs, w1) ← ask_each (member_request msg) (group_members key w) w;
    let '(remotes, w2) := remote_addresses key w1 in
    '(qs, w3) ← ask_each (ask msg) remotes w2;
    Some (mkCallReport (oks id rs ++ oks actor_id qs) (errs id rs ++ errs actor_id qs), w3).
Proof.
  unfold call_federated_scoped, group_call_scoped. rewrite call_local_spec.
  destruct (ask_each (member_request msg) (group_members key w) w) as [[rs w1]|]; [|done]. cbn [mbind option_bind].
  unfold call_remote, remote_addresses. destruct (member_addresses_scoped _ _ _) as [addresses st].
  rewrite call_addresses_spec. cbn [mbind option_bind fst snd]. destruct (ask_each (ask msg) _ _) as [[qs w3]|]; reflexivity.
Qed.

(** ** Whom a broadcast reaches *)

(** What the operations of [ProcessGroups] and [TypedGroups] keep true of a
    store: its index and counts, members of this node under their own address. *)
Definition sound_store (st : PgStore) : Prop :=
  ok st ∧ ∀ k a i, tmem st k ty a = Some i → a = local_addr i.

Lemma refined_store_sound s p : trefines s p → sound_store (ts_store s).
Proof. intros Hr. split; [apply (tr_ok s p Hr)|]. intros k. exact (tr_address s p Hr k ty). Qed.

(** The local members found: each once, those that are in the group under the
    type and alive. *)
Lemma group_members_live key w :
  sound_store (ge_store w) → NoDup (group_members key w) ∧
  ∀ i, i ∈ group_members key w ↔ tmem (ge_store w) key ty (local_addr i) = Some i ∧ ge_alive w i = true.
Proof.
  intros [_ Ha]. unfold group_members, members_scoped, typed_members. specialize (Ha key). unfold tmem in *.
  destruct (typed (ge_store w) !! (key, ty)) as [b|]; simpl in *.
  - split.
    + apply NoDup_iter_filter, NoDup_fmap_2_strong; [|apply NoDup_map_to_list].
      intros [a1 i1] [a2 i2] Hi1%elem_of_map_to_list Hi2%elem_of_map_to_list He. simpl in He. subst i2.
      by rewrite (Ha a1 i1 Hi1), (Ha a2 i1 Hi2).
    + intros i. rewrite elem_of_iter_filter, list_elem_of_fmap. split.
      * intros [([a j] & -> & Hin%elem_of_map_to_list) Hal]. simpl in *. split; [by rewrite <- (Ha a j Hin)|done].
      * intros [Hin Hal]. split; [|done]. exists (local_addr i, i). split; [done|]. by apply elem_of_map_to_list.
  - split; [constructor|]. intros i. split; [by intros ?%not_elem_of_nil|by intros [? _]].
Qed.

(** The members on other nodes: each once, those that other nodes announced. *)
Lemma remote_addresses_members key w :
  sound_store (ge_store w) → NoDup (fst (remote_addresses key w)) ∧
  ∀ a, a ∈ fst (remote_addresses key w) ↔ is_local a = false ∧ is_Some (rmem (ge_store w) key a).
Proof.
  intros [[_ Hown] _]. unfold remote_addresses, member_addresses_scoped. cbn [fst].
  set (st1 := match groups (ge_store w) !! key with Some _ => _ | None => _ end).
  assert (ProcessGroups.remote st1 = ProcessGroups.remote (ge_store w)) as Hrem.
  { unfold st1. destruct (groups (ge_store w) !! key); [|done]. by case_decide. }
  assert (∀ a m, default ∅ (groups st1 !! key) !! a = Some m → is_local a = true) as Hloc.
  { intros a m Ha. assert (mem (ge_store w) key a = Some m) as Hm.
    { unfold st1 in Ha. unfold mem. destruct (groups (ge_store w) !! key) as [ms|] eqn:Hg; [|by rewrite Hg in Ha].
      case_decide; simpl in Ha; [by rewrite lookup_delete_eq in Ha|]. rewrite lookup_insert_eq in Ha. simpl in *.
      unfold retain_alive in Ha. by apply map_lookup_filter_Some in Ha as [? _]. }
    rewrite (Hown key a m Hm). by apply is_local_local. }
  assert (iter_filter (λ a, negb (is_local a)) (fst <$> map_to_list (default ∅ (groups st1 !! key))) = []) as Hnil.
  { destruct (iter_filter _ _) as [|a l] eqn:He; [done|]. assert (a ∈ a :: l) as Hin by left. rewrite <- He in Hin.
    apply elem_of_iter_filter in Hin as [([a' m] & -> & Hin%elem_of_map_to_list)%list_elem_of_fmap Hn].
    simpl in Hn. by rewrite (Hloc _ _ Hin) in Hn. }
  rewrite iter_filter_app, Hnil, Hrem. cbn [app]. unfold rmem. split.
  - apply NoDup_iter_filter, NoDup_fst_map_to_list.
  - intros a. rewrite elem_of_iter_filter, list_elem_of_fmap, negb_true_iff. split.
    + intros [([a' m] & -> & Hin%elem_of_map_to_list) Hn]. split; [done|]. simpl in *.
      destruct (ProcessGroups.remote (ge_store w) !! key) as [ms|]; simpl in *; [by exists m|by rewrite lookup_empty in Hin].
    + intros [Hn [m Hm]]. split; [|done]. exists (a, m). split; [done|]. apply elem_of_map_to_list.
      by destruct (ProcessGroups.remote (ge_store w) !! key).
Qed.

(** C24: A request to a federated group is put to each member once. Let the
    group store be one that the operations of [ProcessGroups] and
    [TypedGroups] lead to, and stay one while members handle the request.
    Then exactly the actors of this node that are in the group under the type
    and alive when the call is made are asked, each once and one after the
    other; then exactly the members on other nodes that the group has by then,
    each once. The call returns when all of these return, and its report has,
    in that order, the replies and the failures of exactly these members, one
    entry for each. *)
Theorem call_federated_exact ask key msg w :
  sound_store (ge_store w) →
  (∀ m w0 r w1, sound_store (ge_store w0) → member_request msg m w0 = Some (r, w1) → sound_store (ge_store w1)) →
  ∃ locals, NoDup locals ∧
    (∀ i, i ∈ locals ↔ tmem (ge_store w) key ty (local_addr i) = Some i ∧ ge_alive w i = true) ∧
    match ask_each (member_request msg) locals w with
    | None => call_federated_scoped ask key msg w = None
    | Some (rs, w1) => ∃ remotes, NoDup remotes ∧
        (∀ a, a ∈ remotes ↔ is_local a = false ∧ is_Some (rmem (ge_store w1) key a)) ∧
        match ask_each (ask msg) remotes (snd (remote_addresses key w1)) with
        | None => call_federated_scoped ask key msg w = None
        | Some (qs, w2) => ∃ report, call_federated_scoped ask key msg w = Some (report, w2) ∧
            cr_ok report = oks id rs ++ oks actor_id qs ∧ cr_failed report = errs id rs ++ errs actor_id qs ∧
            (cr_ok report).*1 ++ (cr_failed report).*1 ≡ₚ locals ++ (actor_id <$> remotes)
        end
    end.
Proof.
  intros Hst Hkeep. destruct (group_members_live key w Hst) as [Hnd Hel].
  exists (group_members key w). split; [done|]. split; [done|]. rewrite call_federated_order.
  destruct (ask_each (member_request msg) (group_members key w) w) as [[rs w1]|] eqn:Hrs; [|done].
  assert (sound_store (ge_store w1)) as Hst1.
  { clear Hnd Hel. revert Hst Hrs. generalize (group_members key w) as ms. intros ms. revert w rs.
    induction ms as [|m ms IH]; intros w0 rs Hst Hrs; simpl in Hrs; [by simplify_eq|].
    destruct (member_request msg m w0) as [[r w2]|] eqn:Hm; [|done]. simpl in Hrs.
    destruct (ask_each (member_request msg) ms w2) as [[rs' w3]|] eqn:Hx; [|done]. simplify_eq/=.
    apply (IH w2 rs'); [by apply (Hkeep m w0 r)|done]. }
  destruct (remote_addresses_members key w1 Hst1) as [Hndr Helr]. cbn [mbind option_bind].
  exists (fst (remote_addresses key w1)). split; [done|]. split; [done|].
  destruct (remote_addresses key w1) as [remotes w2]. cbn [fst snd].
  destruct (ask_each (ask msg) remotes w2) as [[qs w3]|] eqn:Hqs; [|done]. cbn [mbind option_bind].
  eexists. split; [done|]. split; [done|]. split; [done|]. cbn [cr_ok cr_failed]. rewrite !fmap_app.
  rewrite <- (ask_each_fst _ _ _ _ _ Hrs), <- (ask_each_fst _ _ _ _ _ Hqs).
  rewrite <- (oks_errs actor_id qs). pose proof (oks_errs id rs) as Hp. rewrite list_fmap_id in Hp. rewrite <- Hp.
  by solve_Permutation.
Qed.

(** Both runtimes read the reply of another node in the same way: a reference
    made with [remote_global] has no local recipient. *)
Lemma remote_ref_route a : local_route (remote_ref a) = None.
Proof. unfold remote_ref, remote_global, local_route. destruct (global ge_router). simpl. by destruct (is_local a). Qed.
Lemma remote_calls_agree msg a w : remote_call_tasks msg a w = remote_call_threads msg a w.
Proof.
  unfold remote_call_tasks, remote_call_threads, ref_request_raw. rewrite remote_ref_route.
  unfold call_bind, next_correlation_id, call_of. cbn [mbind option_bind].
  destruct (request_envelope_of _ _ _) as [env|err]; cbn [result_map_err]; [|done].
  by destruct (map_err _ _ _) as [[[payload|err] w1]|].
Qed.

(** The same of [cast]: the count and the failures. *)
Definition send_report {X} (f : X → ActorId) (report : PgSendReport) (rs : list (X * Result () ActorError)) : PgSendReport :=
  mkReport (delivered report + length (oks f rs)) (failed report ++ errs f rs).
Lemma send_report_cons {X} (f : X → ActorId) report (x : X) (r : Result () ActorError) rs :
  send_report f report ((x, r) :: rs) =
    send_report f (match r with
                   | Ok _ => mkReport (delivered report + 1) (failed report)
                   | Err e => mkReport (delivered report) (failed report ++ [(f x, e)])
                   end) rs.
Proof.
  unfold send_report. destruct r; cbn [delivered failed].
  - f_equal. change (oks f ((x, Ok a) :: rs)) with ((f x, a) :: oks f rs). simpl. lia.
  - by rewrite <- app_assoc.
Qed.
Lemma cast_local_spec msg members report w :
  cast_local msg members report w = '(rs, w) ← ask_each (member_send msg) members w; Some (send_report id report rs, w).
Proof.
  revert report w. induction members as [|m members IH]; intros report w; simpl.
  { unfold send_report. simpl. rewrite Nat.add_0_r, app_nil_r. by destruct report. }
  destruct (member_send msg m w) as [[r w1]|]; [|done]. simpl. rewrite IH.
  destruct (ask_each (member_send msg) members w1) as [[rs w2]|]; [|done]. simpl. by rewrite (send_report_cons id).
Qed.
Lemma cast_addresses_spec msg addresses report w :
  cast_addresses msg addresses report w =
    '(rs, w) ← ask_each (remote_send msg) (iter_filter (λ a, negb (is_local a)) addresses) w; Some (send_report actor_id report rs, w).
Proof.
  revert report w. induction addresses as [|a addresses IH]; intros report w; simpl.
  { unfold send_report. simpl. rewrite Nat.add_0_r, app_nil_r. by destruct report. }
  destruct (is_local a); simpl; [apply IH|].
  destruct (remote_send msg a w) as [[r w1]|]; [|done]. simpl. rewrite IH.
  destruct (ask_each (remote_send msg) _ w1) as [[rs w2]|]; [|done]. simpl. by rewrite send_report_cons.
Qed.

(** A broadcast to a federated group is sent once to each live local member
    of the type and once to each member on another node; the report counts
    the accepted sends and lists the refused ones. *)
Theorem cast_federated_exact key msg w :
  cast_federated_scoped key msg w =
    '(rs, w1) ← ask_each (member_send msg) (group_members key w) w;
    let '(remotes, w2) := remote_addresses key w1 in
    '(qs, w3) ← ask_each (remote_send msg) remotes w2;
    Some (mkReport (length (oks id rs) + length (oks actor_id qs)) (errs id rs ++ errs actor_id qs), w3).
Proof.
  unfold cast_federated_scoped, group_cast_scoped. rewrite cast_local_spec.
  destruct (ask_each (member_send msg) (group_members key w) w) as [[rs w1]|]; [|done]. cbn [mbind option_bind].
  unfold cast_remote, remote_addresses. destruct (member_addresses_scoped _ _ _) as [addresses st].
  rewrite cast_addresses_spec. cbn [mbind option_bind fst snd]. destruct (ask_each (remote_send msg) _ _) as [[qs w3]|]; reflexivity.
Qed.

(** ** Dispatch *)

(** The targets of a federated dispatch and the depths it compares. *)
Definition targets (d : PoolDispatcher) (w : W) : list (FederatedTarget) :=
  (LocalTarget <$> group_members (dispatcher_key d) w) ++ (RemoteTarget <$> fst (remote_addresses (dispatcher_key d) w)).
Definition target_depths (d : PoolDispatcher) (w : W) : list nat :=
  (ge_depth w <$> group_members (dispatcher_key d) w) ++ replicate (length (fst (remote_addresses (dispatcher_key d) w))) 0.
Definition use_target {A} (local : ActorId → Call W A ActorError) (remote : ActorAddress → Call W A ActorError)
    (t : FederatedTarget) : Call W A ActorError :=
  match t with LocalTarget m => local m | RemoteTarget a => remote a end.

Lemma remote_addresses_store key w :
  snd (remote_addresses key w) = ge_set_store (snd (member_addresses_scoped (ge_alive w) key (ge_store w))) w.
Proof. unfold remote_addresses. by destruct (member_addresses_scoped _ _ _). Qed.
Lemma remote_addresses_list key w :
  fst (remote_addresses key w) = iter_filter (λ a, negb (is_local a)) (fst (member_addresses_scoped (ge_alive w) key (ge_store w))).
Proof. unfold remote_addresses. by destruct (member_addresses_scoped _ _ _). Qed.

Lemma select_federated_targets d w :
  fst (pool_select_federated d w) =
    match select_index (target_depths d w) d with
    | (Some i, d') => (Ok <$> targets d w !! i, d')
    | (None, _) => (Some (Err NoMembers), d)
    end.
Proof.
  unfold pool_select_federated, select_federated_target. cbn [fst]. fold (group_members (dispatcher_key d) w).
  rewrite <- remote_addresses_list. fold (target_depths d w).
  pose proof (select_index_spec (target_depths d w) d) as Hs.
  destruct (select_index (target_depths d w) d) as [[i|] d']; destruct Hs as (Hn & _ & Hi).
  - rewrite decide_False by (intros He; by apply Hn in He). f_equal. cbn [mbind option_bind].
    unfold targets. destruct (Nat.ltb_spec i (length (group_members (dispatcher_key d) w))) as [Hlt|Hge].
    + rewrite lookup_app_l by by rewrite length_fmap. rewrite list_lookup_fmap.
      by destruct (group_members (dispatcher_key d) w !! i).
    + rewrite lookup_app_r by by rewrite length_fmap. rewrite list_lookup_fmap, length_fmap.
      by destruct (fst (remote_addresses (dispatcher_key d) w) !! _).
  - rewrite decide_True by by apply Hn. done.
Qed.

(** Which one is picked: the least loaded, or the next in turn. *)
Definition picked (d d' : PoolDispatcher) (depths : list nat) (i : nat) : Prop :=
  dispatcher_key d' = dispatcher_key d ∧ i < length depths ∧
  match pd_strategy d with
  | LeastLoaded => pd_next d' = pd_next d ∧ ∃ m, depths !! i = Some m ∧ ∀ j e, depths !! j = Some e → m ≤ e ∧ (e = m → i ≤ j)
  | RoundRobin => pd_next d' = wrapping_succ_u64 (pd_next d) ∧ i = N.to_nat (pd_next d mod N.of_nat (length depths))
  end.
Lemma select_index_picked depths d :
  match select_index depths d with
  | (Some i, d') => picked d d' depths i
  | (None, d') => depths = []
  end.
Proof.
  pose proof (select_index_spec depths d) as Hs. unfold picked. unfold select_index, select_member_index in *.
  destruct (decide (length depths = 0)); [by apply nil_length_inv|].
  destruct (pd_strategy d); cbn in *; destruct Hs as (_ & _ & Hi); destruct (Hi _ eq_refl) as (m & Hm & Hl);
    (split; [done|]; split; [by eapply lookup_lt_Some|]); [done|]. split; [done|]. eauto.
Qed.
Lemma targets_length d w : length (targets d w) = length (target_depths d w).
Proof. unfold targets, target_depths. by rewrite !length_app, !length_fmap, length_replicate. Qed.

(** A federated pool sends each message to one member. With no member
    here or elsewhere the answer is [NoMembers] and nothing is sent; otherwise
    the strategy picks one of the live local members of the type and the
    members on other nodes (these count as empty mailboxes), the message or the
    request goes to it alone, and its error comes back as an [Actor] error. The
    index is never out of range. *)
Theorem federated_dispatch_one ask msg d w :
  let w' := snd (remote_addresses (dispatcher_key d) w) in
  (targets d w = [] ∧ dispatch_federated msg d w = Some (Err NoMembers, d, w') ∧
   call_one_federated ask msg d w = Some (Err NoMembers, d, w')) ∨
  ∃ i t d', targets d w !! i = Some t ∧ picked d d' (target_depths d w) i ∧
    dispatch_federated msg d w =
      ('(r, w1) ← use_target (member_send msg) (remote_send msg) t w'; Some (result_map_err PoolActor r, d', w1)) ∧
    call_one_federated ask msg d w =
      ('(r, w1) ← use_target (member_request msg) (ask msg) t w'; Some (result_map_err PoolActor r, d', w1)).
Proof.
  intros w'. unfold dispatch_federated, call_one_federated.
  assert (pool_select_federated d w = (fst (pool_select_federated d w), w')) as ->.
  { unfold pool_select_federated, w'. cbn [fst]. by rewrite remote_addresses_store. }
  rewrite select_federated_targets. pose proof (select_index_picked (target_depths d w) d) as Hp.
  destruct (select_index (target_depths d w) d) as [[i|] d'].
  - right. destruct (lookup_lt_is_Some_2 (targets d w) i) as [t Ht]; [rewrite targets_length; apply Hp|].
    exists i, t, d'. rewrite Ht. split_and!; done.
  - left. split; [|done]. apply nil_length_inv. by rewrite targets_length, Hp.
Qed.

(** The same of a pool on one node. *)
Theorem local_dispatch_one msg d w :
  let ms := group_members (dispatcher_key d) w in
  (ms = [] ∧ pool_dispatch msg d w = Some (Err NoMembers, d, w) ∧ call_one msg d w = Some (Err NoMembers, d, w)) ∨
  ∃ i m d', ms !! i = Some m ∧ picked d d' (ge_depth w <$> ms) i ∧
    pool_dispatch msg d w = ('(r, w1) ← member_send msg m w; Some (result_map_err PoolActor r, d', w1)) ∧
    call_one msg d w = ('(r, w1) ← member_request msg m w; Some (result_map_err PoolActor r, d', w1)).
Proof.
  intros ms. unfold pool_dispatch, call_one, pool_select_local, select_local_target. fold (group_members (dispatcher_key d) w). fold ms.
  destruct (decide (ms = [])) as [He|Hne]; [by left|]. right.
  pose proof (select_index_picked (ge_depth w <$> ms) d) as Hp.
  destruct (select_index (ge_depth w <$> ms) d) as [[i|] d']; [|by apply fmap_nil_inv in Hp].
  destruct (lookup_lt_is_Some_2 ms i) as [m Hm]; [destruct Hp as (_ & Hlt & _); by rewrite length_fmap in Hlt|].
  exists i, m, d'. cbn [mbind option_bind]. rewrite Hm. split_and!; done.
Qed.

(** So with [LeastLoaded] a member on another node is preferred to every local
    member that has a message queued, whatever is queued there. *)
Lemma least_loaded_prefers_remote msg d w :
  pd_strategy d = LeastLoaded → fst (remote_addresses (dispatcher_key d) w) ≠ [] →
  (∀ m, m ∈ group_members (dispatcher_key d) w → 0 < ge_depth w m) →
  ∃ a d', a ∈ fst (remote_addresses (dispatcher_key d) w) ∧
    dispatch_federated msg d w =
      ('(r, w1) ← remote_send msg a (snd (remote_addresses (dispatcher_key d) w)); Some (result_map_err PoolActor r, d', w1)).
Proof.
  intros Hs Hne Hbusy. unfold dispatch_federated.
  assert (pool_select_federated d w = (fst (pool_select_federated d w), snd (remote_addresses (dispatcher_key d) w))) as ->.
  { unfold pool_select_federated. cbn [fst]. by rewrite remote_addresses_store. }
  rewrite select_federated_targets. pose proof (select_index_picked (target_depths d w) d) as Hp.
  set (ms := group_members (dispatcher_key d) w) in *. set (rs := fst (remote_addresses (dispatcher_key d) w)) in *.
  assert (target_depths d w !! length ms = Some 0) as Hz.
  { unfold target_depths. fold ms rs. rewrite lookup_app_r by by rewrite length_fmap. rewrite length_fmap, Nat.sub_diag.
    destruct rs; [done|]. done. }
  destruct (select_index (target_depths d w) d) as [[i|] d']; [|by rewrite Hp in Hz].
  destruct Hp as (_ & Hlt & Hp). rewrite Hs in Hp. destruct Hp as (_ & m & Hm & Hmin).
  destruct (Hmin _ _ Hz) as [Hm0 Hle]. assert (m = 0) as -> by lia.
  assert (length ms ≤ i) as Hge.
  { destruct (decide (i < length ms)) as [Hi|]; [|lia]. exfalso. unfold target_depths in Hm. fold ms in Hm.
    rewrite lookup_app_l in Hm by by rewrite length_fmap. rewrite list_lookup_fmap in Hm.
    destruct (ms !! i) as [x|] eqn:Hx; [|done]. simplify_eq/=. pose proof (Hbusy x (list_elem_of_lookup_2 _ _ _ Hx)). lia. }
  destruct (rs !! (i - length ms)) as [a|] eqn:Ha.
  - exists a, d'. split; [by eapply list_elem_of_lookup_2|]. unfold targets. fold ms rs.
    rewrite lookup_app_r by by rewrite length_fmap. rewrite length_fmap, list_lookup_fmap, Ha. done.
  - apply lookup_ge_None in Ha. rewrite <- targets_length in Hlt. unfold targets in Hlt. fold ms rs in Hlt.
    rewrite length_app, !length_fmap in Hlt. lia.
Qed.
End groups.
Arguments PgCallReport R : clear implicits.

(** ** A call to a group *)

Section sample.
#[local] Instance here : ThisNode := nodeA.
(** Numbers, written in unary. *)
#[local] Instance unary : Codec nat := {|
  to_allocvec n := Ok (replicate n Byte.x00);
  from_bytes bs := Ok (length bs)
|}.
#[local] Instance ask_message : RemoteMessage nat := "app.Ask/v1".

(** Actors 1 and 2 joined under the type [Worker] and 3 under another; 2 has
    died since; node b announced its actor 5. A member answers with its id,
    and the world notes who was asked. *)
Definition sample_ops : list TOp :=
  [TJoin pool_key "Worker" (from_raw 1); TJoin pool_key "Worker" (from_raw 2); TJoin pool_key "Other" (from_raw 3);
   TRemote (PgJoin pool_key (on nodeB (from_raw 5))); TDie (from_raw 2)].
Definition sample_groups : TState := trun sample_ops (mkTState empty_store ∅).
Definition noting (id : ActorId) : Recipient (PgStore * list ActorId) nat nat := mkRecipient
  (λ _ w, Some (Ok (), w)) (λ _ '(st, asked), Some (Ok (raw id), (st, asked ++ [id])))
  (λ _ k w, Some (Ok (N.to_nat k), w)) (λ k w, Some (Ok (N.to_nat k), w)).
#[local] Instance sample_env : GroupEnv (PgStore * list ActorId) nat nat := {|
  ge_store := fst;
  ge_set_store st w := (st, snd w);
  ge_alive _ := alive (ts_dead sample_groups);
  ge_depth _ _ := 0;
  ge_ref := noting;
  ge_router := None;
  ge_correlation _ := 1%N;
  ge_set_correlation _ w := w
|}.

Lemma call_federated_exact_witness :
  let w := (ts_store sample_groups, []) in
  let ask (_ : nat) (a : ActorAddress) : Call (PgStore * list ActorId) nat ActorError :=
    λ w, Some (Ok 9, (w.1, w.2 ++ [actor_id a])) in
  (snd <$> (snd <$> call_federated_scoped "Worker" ask pool_key 7 w)) = Some [from_raw 1; from_raw 5] ∧
  ∃ locals, NoDup locals ∧
    (∀ i, i ∈ locals ↔ tmem (ge_store w) pool_key "Worker" (local_addr i) = Some i ∧ ge_alive w i = true) ∧
    match ask_each (member_request 7) locals w with
    | None => call_federated_scoped "Worker" ask pool_key 7 w = None
    | Some (rs, w1) => ∃ remotes, NoDup remotes ∧
        (∀ a, a ∈ remotes ↔ is_local a = false ∧ is_Some (rmem (ge_store w1) pool_key a)) ∧
        match ask_each (ask 7) remotes (snd (remote_addresses pool_key w1)) with
        | None => call_federated_scoped "Worker" ask pool_key 7 w = None
        | Some (qs, w2) => ∃ report, call_federated_scoped "Worker" ask pool_key 7 w = Some (report, w2) ∧
            cr_ok report = oks id rs ++ oks actor_id qs ∧ cr_failed report = errs id rs ++ errs actor_id qs ∧
            (cr_ok report).*1 ++ (cr_failed report).*1 ≡ₚ locals ++ (actor_id <$> remotes)
        end
    end.
Proof.
  intros w ask. split; [vm_compute; reflexivity|].
  apply (call_federated_exact "Worker" ask pool_key 7 w).
  - apply (refined_store_sound "Worker" sample_groups (tspec_run sample_ops tspec_new)).
    apply (trun_refines sample_ops _ _ 0); [apply trefines_new|done|vm_compute; reflexivity].
  - intros m [st l] r w1 Hs [= <- <-]. exact Hs.
Defined.
End sample.
