(* ===== verification/Tcp.v ===== *)
(** * The TCP transport

    Model of [cluster/src/tcp/transport.rs] (the client side: connections,
    requests, broadcasts), [tcp/listener.rs] (the server side:
    [serve_connection]), [control.rs], [registry.rs], [pg_sync.rs] and
    [supervision_sync.rs] (the hooks and what is exchanged on connect) and
    the frames of [protocol.rs].

    A connection is the bytes on their way in each direction and where the
    thread that serves it stands. That thread runs, after every write of the
    client, until it waits for more bytes. [W] is the state of all nodes;
    hooks and handlers change it. *)

From Stdlib Require Import Strings.Byte.
From stdpp Require Import pretty.
From S2P Require Import Prelude Address Errors Mailbox ProcessGroups Registry RemoteSpawn Wire RemoteRefs.

(** ** Frames *)

Definition PROTOCOL_VERSION : N := 3.

Record Handshake := mkHandshake { hs_version : N; hs_node : NodeId }.
Definition handshake_local (n : NodeId) : Handshake := mkHandshake PROTOCOL_VERSION n.

Inductive ClusterFrame :=
| FActor (e : WireEnvelope)
| FRegistry (e : Names.RegistryEvent)
| FPg (e : PgEvent)
| FSupervision (e : SupervisionEnvelope).

Record WireReply := mkWireReply { wr_correlation : N; wr_payload : list byte }.

(** postcard at the types that cross the network. *)
Class Codecs := {
  codec_handshake :: Codec Handshake;
  codec_frame :: Codec ClusterFrame;
  codec_reply :: Codec WireReply;
  codec_supervision :: Codec SupervisionEnvelope
}.

Section codecs.
Context `{Codecs}.
Definition encode_handshake (h : Handshake) : Result (list byte) WireError := encode h.
Definition decode_handshake (bs : list byte) : Result Handshake WireError := decode bs.
Definition encode_cluster_frame (f : ClusterFrame) : Result (list byte) WireError := encode f.
Definition decode_cluster_frame (bs : list byte) : Result ClusterFrame WireError := decode bs.
Definition encode_wire_reply (r : WireReply) : Result (list byte) WireError := encode r.
Definition decode_reply_frame (bs : list byte) : Result WireReply WireError := decode bs.

Definition encode_registry_event (e : Names.RegistryEvent) : Result (list byte) TransportError :=
  result_map_err WireErr (encode_cluster_frame (FRegistry e)).
Definition encode_pg_event (e : PgEvent) : Result (list byte) TransportError :=
  result_map_err WireErr (encode_cluster_frame (FPg e)).
Definition encode_supervision_frame (e : SupervisionEnvelope) : Result (list byte) TransportError :=
  result_map_err WireErr (encode_cluster_frame (FSupervision e)).
(** A reply is the bare envelope; its errors are protocol errors. *)
Definition encode_supervision (e : SupervisionEnvelope) : Result (list byte) TransportError :=
  result_map_err Protocol (to_allocvec e).
Definition decode_supervision (bs : list byte) : Result SupervisionEnvelope TransportError :=
  result_map_err Protocol (from_bytes bs).
Definition decode_supervision_reply (debug : SupervisionEvent → string) (request : SupervisionEnvelope)
    (bs : list byte) : Result SupervisionEnvelope TransportError :=
  match decode_supervision bs with
  | Err e => Err e
  | Ok reply => match validate_reply debug request reply with Err e => Err e | Ok _ => Ok reply end
  end.
End codecs.

(** ** Hooks *)

Section tcp.
Context {W : Type} `{Codecs}.
Context (debug : SupervisionEvent → string).

Record RegistryHooks := mkRegistryHooks {
  rg_inbound : option (Names.RegistryEvent → Call W () TransportError);
  rg_snapshot : option (W → list (string * ActorAddress))
}.
Record PgHooks := mkPgHooks {
  pg_inbound : option (PgEvent → Call W () TransportError);
  pg_snapshot : option (W → list PgMemberEntry)
}.
Record SupervisionHooks := mkSupervisionHooks {
  sp_inbound : option (SupervisionEnvelope → Call W (option SupervisionEnvelope) TransportError)
}.
Record ControlPlaneHooks := mkControl {
  ctl_registry : RegistryHooks;
  ctl_pg : PgHooks;
  ctl_supervision : SupervisionHooks
}.

Definition hooks_none : ControlPlaneHooks :=
  mkControl (mkRegistryHooks None None) (mkPgHooks None None) (mkSupervisionHooks None).
Definition federated registry_apply registry_snapshot pg_apply pg_snap : ControlPlaneHooks :=
  mkControl (mkRegistryHooks (Some registry_apply) (Some registry_snapshot))
    (mkPgHooks (Some pg_apply) (Some pg_snap)) (mkSupervisionHooks None).
Definition with_supervision (s : SupervisionHooks) (c : ControlPlaneHooks) : ControlPlaneHooks :=
  mkControl (ctl_registry c) (ctl_pg c) s.

Definition apply_registry_event (hooks : RegistryHooks) (event : Names.RegistryEvent)
    : Call W () TransportError :=
  match rg_inbound hooks with Some inbound => inbound event | None => call_of (Ok ()) end.
Definition apply_pg_event (hooks : PgHooks) (event : PgEvent) : Call W () TransportError :=
  match pg_inbound hooks with Some inbound => inbound event | None => call_of (Ok ()) end.
Definition apply_supervision (hooks : SupervisionHooks) (envelope : SupervisionEnvelope)
    : Call W (option SupervisionEnvelope) TransportError :=
  _ ←? call_of (validate_envelope debug envelope);
  match sp_inbound hooks with Some inbound => inbound envelope | None => call_of (Ok None) end.

(** [stub_supervision_hooks] *)
Definition stub_supervision_hooks : SupervisionHooks :=
  mkSupervisionHooks (Some (λ envelope,
    _ ←? call_of (validate_envelope debug envelope);
    call_of (Ok (match event envelope with
                 | SpawnRequest _ _ _ _ =>
                     Some (mkEnvelope (correlation_id envelope) (SpawnErr "supervision broker not running"))
                 | _ => None
                 end)))).

(** What each side tells the other on connect, over any stream. *)
Section snapshots.
Context {S : Type} (write : list byte → Call S () TransportError) (world : S → W).

Definition send_control_plane_snapshots (hooks : ControlPlaneHooks) : Call S () TransportError := λ s,
  let registry_event :=
    Names.Snapshot (match rg_snapshot (ctl_registry hooks) with Some f => f (world s) | None => [] end) in
  (registry_bytes ←? call_of (encode_registry_event registry_event);
   _ ←? write registry_bytes;
   λ s,
     let pg_event :=
       PgSnapshot (match pg_snapshot (ctl_pg hooks) with Some f => f (world s) | None => [] end) in
     (pg_bytes ←? call_of (encode_pg_event pg_event); write pg_bytes) s) s.
End snapshots.

Fixpoint for_each_call {A S E} (f : A → Call S () E) (l : list A) : Call S () E :=
  match l with [] => call_of (Ok ()) | x :: l => _ ←? f x; for_each_call f l end.

Definition apply_registry_snapshot (hooks : ControlPlaneHooks) (frame : list byte) : Call W () TransportError :=
  match decode_cluster_frame frame with
  | Ok (FRegistry (Names.Snapshot entries)) =>
      match rg_inbound (ctl_registry hooks) with
      | Some _ => for_each_call (λ e : string * ActorAddress,
                    apply_registry_event (ctl_registry hooks) (Names.Register e.1 e.2)) entries
      | None => call_of (Ok ())
      end
  | _ => call_of (Ok ())
  end.
Definition apply_pg_snapshot (hooks : ControlPlaneHooks) (frame : list byte) : Call W () TransportError :=
  match decode_cluster_frame frame with
  | Ok (FPg (PgSnapshot entries)) =>
      match pg_inbound (ctl_pg hooks) with
      | Some _ => for_each_call (λ e, apply_pg_event (ctl_pg hooks) (PgJoin (pe_key e) (pe_address e))) entries
      | None => call_of (Ok ())
      end
  | _ => call_of (Ok ())
  end.

(** ** The server *)

(** [TcpClusterListener] *)
Record Server := mkServer {
  sv_node : NodeId;
  sv_dispatch : InboundDispatch W;
  sv_control : ControlPlaneHooks
}.

(** What the serving thread has written since it last read, and the world. *)
Abbreviation Out := (list byte * W)%type.
Definition out_write (body : list byte) : Call Out () TransportError := λ s,
  match write_frame body with
  | Ok bs => Some (Ok (), (s.1 ++ bs, s.2))
  | Err e => Some (Err e, s)
  end.
Definition on_world {T} (m : Call W T TransportError) : Call Out T TransportError := λ s,
  '(r, w) ← m s.2; Some (r, (s.1, w)).

Definition unsupported {T} (v : N) : Result T TransportError :=
  Err (Protocol ("unsupported protocol version " +:+ pretty v)).

(** [serve_connection] before its loop, on the first frame. *)
Definition serve_handshake (sv : Server) (frame : list byte) : Call Out () TransportError :=
  peer ←? call_of (result_map_err WireErr (decode_handshake frame));
  if decide (hs_version peer ≠ PROTOCOL_VERSION) then call_of (unsupported (hs_version peer))
  else
    ack ←? call_of (result_map_err WireErr (encode_handshake (handshake_local (sv_node sv))));
    _ ←? out_write ack;
    send_control_plane_snapshots out_write snd (sv_control sv).

(** The body of its loop. *)
Definition serve_frame (sv : Server) (frame : list byte) : Call Out () TransportError :=
  f ←? call_of (result_map_err WireErr (decode_cluster_frame frame));
  match f with
  | FRegistry ev => on_world (apply_registry_event (ctl_registry (sv_control sv)) ev)
  | FPg ev => on_world (apply_pg_event (ctl_pg (sv_control sv)) ev)
  | FActor envelope =>
      let cid := we_correlation envelope in
      reply ←? on_world (sv_dispatch sv envelope);
      if decide (cid = 0%N) then call_of (Ok ())
      else
        bytes ←? call_of (result_map_err WireErr (encode_wire_reply (mkWireReply cid (default [] reply))));
        out_write bytes
  | FSupervision envelope =>
      reply ←? on_world (apply_supervision (ctl_supervision (sv_control sv)) envelope);
      match reply with
      | Some r => bytes ←? call_of (encode_supervision r); out_write bytes
      | None => call_of (Ok ())
      end
  end.

(** Where the serving thread stands: [ClosedBy] when it has returned and the
    socket is closed, [Stuck] when a handler panicked or never returns. *)
Inductive ServePc := AwaitHandshake | Serving | ClosedBy (e : TransportError) | Stuck.

(** [cn_in] is written by the client and not read yet, [cn_out] is written by
    the server; [cn_reset] once a write has met a closed socket. *)
Record Conn := mkConn {
  cn_server : Server;
  cn_in : list byte;
  cn_out : list byte;
  cn_pc : ServePc;
  cn_reset : bool
}.

Definition serve_one (sv : Server) (pc : ServePc) (frame : list byte) (w : W) : ServePc * list byte * W :=
  match (match pc with AwaitHandshake => serve_handshake | _ => serve_frame end) sv frame ([], w) with
  | Some (Ok _, (out, w)) => (Serving, out, w)
  | Some (Err e, (out, w)) => (ClosedBy e, out, w)
  | None => (Stuck, [], w)
  end.

Definition running (pc : ServePc) : bool :=
  match pc with AwaitHandshake | Serving => true | _ => false end.

(** The thread serves frames while a complete one has arrived. *)
Fixpoint serve (fuel : nat) (c : Conn) (w : W) : Conn * W :=
  match fuel with
  | O => (c, w)
  | S fuel =>
      if running (cn_pc c) then
        match read_frame (cn_in c) with
        | (Err (Io _), _) => (c, w)
        | (Err e, rest) => (mkConn (cn_server c) rest (cn_out c) (ClosedBy e) (cn_reset c), w)
        | (Ok frame, rest) =>
            let '(pc, out, w) := serve_one (cn_server c) (cn_pc c) frame w in
            serve fuel (mkConn (cn_server c) rest (cn_out c ++ out) pc (cn_reset c)) w
        end
      else (c, w)
  end.
Definition serve_connection (c : Conn) (w : W) : Conn * W := serve (S (length (cn_in c))) c w.

(** ** The client *)

Abbreviation SocketAddr := string (only parsing).

(** The peers in the iteration order of the map. *)
Record TcpTransport := mkTcp {
  tt_local : NodeId;
  tt_peers : list (NodeId * SocketAddr);
  tt_control : ControlPlaneHooks
}.

Definition push_in (bs : list byte) (c : Conn) : Conn :=
  mkConn (cn_server c) (cn_in c ++ bs) (cn_out c) (cn_pc c) (cn_reset c).

(** [TcpStream] as the client uses it. The first write after the server has
    closed is accepted and lost; the answer to it makes the later ones fail. *)
Definition stream_write (body : list byte) : Call (Conn * W) () TransportError := λ '(c, w),
  match write_frame body with
  | Err e => Some (Err e, (c, w))
  | Ok bs =>
      match cn_pc c with
      | ClosedBy _ =>
          if cn_reset c then Some (Err (Io "Broken pipe"), (c, w))
          else Some (Ok (), (mkConn (cn_server c) (cn_in c) [] (cn_pc c) true, w))
      | _ => Some (Ok (), serve_connection (push_in bs c) w)
      end
  end.
(** What has not arrived when the serving thread waits never will: the read
    ends with the end of the stream or with the timeout of the socket. *)
Definition stream_read : Call (Conn * W) (list byte) TransportError := λ '(c, w),
  let '(r, rest) := read_frame (cn_out c) in
  Some (r, (mkConn (cn_server c) (cn_in c) rest (cn_pc c) (cn_reset c), w)).
Definition on_stream_world {T} (m : Call W T TransportError) : Call (Conn * W) T TransportError := λ '(c, w),
  '(r, w) ← m w; Some (r, (c, w)).

Definition apply_control_plane_snapshots (hooks : ControlPlaneHooks) : Call (Conn * W) () TransportError :=
  registry_frame ←? stream_read;
  _ ←? on_stream_world (apply_registry_snapshot hooks registry_frame);
  pg_frame ←? stream_read;
  on_stream_world (apply_pg_snapshot hooks pg_frame).

(** [connect] once the socket is open. *)
Definition client_handshake (t : TcpTransport) : Call (Conn * W) () TransportError :=
  hs ←? call_of (result_map_err WireErr (encode_handshake (handshake_local (tt_local t))));
  _ ←? stream_write hs;
  ack_frame ←? stream_read;
  ack ←? call_of (result_map_err WireErr (decode_handshake ack_frame));
  if decide (hs_version ack ≠ PROTOCOL_VERSION) then call_of (unsupported (hs_version ack))
  else
    _ ←? send_control_plane_snapshots stream_write snd (tt_control t);
    apply_control_plane_snapshots (tt_control t).

(** Who listens where. *)
Context (listening : SocketAddr → option Server).

Definition peer_addr (t : TcpTransport) (n : NodeId) : option SocketAddr :=
  snd <$> iter_find (λ p : NodeId * SocketAddr, bool_decide (p.1 = n)) (tt_peers t).

Definition connect (t : TcpTransport) (n : NodeId) : Call W Conn TransportError := λ w,
  match peer_addr t n with
  | None => Some (Err Wire.RemoteUnreachable, w)
  | Some addr =>
      match listening addr with
      | None => Some (Err (Io "Connection refused"), w)
      | Some sv =>
          '(r, (c, w)) ← client_handshake t (mkConn sv [] [] AwaitHandshake false, w);
          Some (match r with Ok _ => Ok c | Err e => Err e end, w)
      end
  end.

(** The pool of connections of one transport, and the world. *)
Record TcpSys := mkTcpSys { ts_conns : gmap NodeId Conn; ts_world : W }.

Definition on_conn {R} (n : NodeId) (f : Call (Conn * W) R TransportError) (c : Conn)
    : Call TcpSys R TransportError := λ s,
  '(r, (c, w)) ← f (c, ts_world s);
  Some (r, mkTcpSys (match r with Ok _ => <[n := c]> (ts_conns s) | Err _ => delete n (ts_conns s) end) w).

Definition with_connection {R} (t : TcpTransport) (n : NodeId) (f : Call (Conn * W) R TransportError)
    : Call TcpSys R TransportError := λ s,
  match ts_conns s !! n with
  | Some c => on_conn n f c s
  | None =>
      '(r, w) ← connect t n (ts_world s);
      let s := mkTcpSys (ts_conns s) w in
      match r with
      | Err e => Some (Err e, s)
      | Ok c => on_conn n f c s
      end
  end.

Definition send_on_stream (envelope : WireEnvelope) : Call (Conn * W) () TransportError :=
  bytes ←? call_of (result_map_err WireErr (encode_cluster_frame (FActor envelope)));
  stream_write bytes.

Definition request_on_stream (envelope : WireEnvelope) : Call (Conn * W) (list byte) TransportError :=
  let cid := we_correlation envelope in
  if decide (cid = 0%N) then call_of (Err (Protocol "request envelope requires non-zero correlation id"))
  else
    bytes ←? call_of (result_map_err WireErr (encode_cluster_frame (FActor envelope)));
    _ ←? stream_write bytes;
    reply_frame ←? stream_read;
    reply ←? call_of (result_map_err WireErr (decode_reply_frame reply_frame));
    if decide (wr_correlation reply ≠ cid)
    then call_of (Err (Protocol ("correlation mismatch: expected " +:+ pretty cid +:+ ", got " +:+
                                 pretty (wr_correlation reply))))
    else call_of (Ok (wr_payload reply)).

Definition tcp_send_envelope (t : TcpTransport) (envelope : WireEnvelope) : Call TcpSys () TransportError :=
  if decide (we_correlation envelope ≠ 0%N)
  then call_of (Err (Protocol "fire-and-forget envelope must use correlation_id 0"))
  else with_connection t (node (we_to envelope)) (send_on_stream envelope).
Definition tcp_request_envelope (t : TcpTransport) (envelope : WireEnvelope)
    : Call TcpSys (list byte) TransportError :=
  with_connection t (node (we_to envelope)) (request_on_stream envelope).
(** [Transport for TcpTransport]; [TcpAsyncTransport] runs the same two
    functions in [spawn_blocking]. *)
Definition tcp_transport (t : TcpTransport) : Transport TcpSys :=
  mkTransport (tcp_send_envelope t) (tcp_request_envelope t).

Definition send_supervision_on_stream (envelope : SupervisionEnvelope) : Call (Conn * W) () TransportError :=
  bytes ←? call_of (encode_supervision_frame envelope); stream_write bytes.
Definition request_supervision_on_stream (envelope : SupervisionEnvelope)
    : Call (Conn * W) SupervisionEnvelope TransportError :=
  bytes ←? call_of (encode_supervision_frame envelope);
  _ ←? stream_write bytes;
  reply_frame ←? stream_read;
  call_of (decode_supervision_reply debug envelope reply_frame).

Definition send_supervision (t : TcpTransport) (n : NodeId) (envelope : SupervisionEnvelope)
    : Call TcpSys () TransportError :=
  _ ←? call_of (validate_envelope debug envelope);
  if decide (correlation_id envelope ≠ 0%N)
  then call_of (Err (Protocol "send_supervision requires correlation_id 0"))
  else with_connection t n (send_supervision_on_stream envelope).
Definition request_supervision (t : TcpTransport) (n : NodeId) (envelope : SupervisionEnvelope)
    : Call TcpSys SupervisionEnvelope TransportError :=
  _ ←? call_of (validate_envelope debug envelope);
  with_connection t n (request_supervision_on_stream envelope).

Definition peer_nodes (t : TcpTransport) : list NodeId := fst <$> tt_peers t.

(** [broadcast_registry], [broadcast_pg]: the first error ends the loop. *)
Definition broadcast_frame (t : TcpTransport) (bytes : Result (list byte) TransportError)
    : Call TcpSys () TransportError :=
  match tt_peers t with
  | [] => call_of (Ok ())
  | _ =>
      bytes ←? call_of bytes;
      for_each_call (λ n, with_connection t n (stream_write bytes)) (peer_nodes t)
  end.
Definition broadcast_registry (t : TcpTransport) (event : Names.RegistryEvent) : Call TcpSys () TransportError :=
  broadcast_frame t (encode_registry_event event).
Definition broadcast_pg (t : TcpTransport) (event : PgEvent) : Call TcpSys () TransportError :=
  broadcast_frame t (encode_pg_event event).
Definition sync_peers (t : TcpTransport) : Call TcpSys () TransportError :=
  match tt_peers t with
  | [] => call_of (Ok ())
  | _ => for_each_call (λ n, with_connection t n (call_of (Ok ()))) (peer_nodes t)
  end.
End tcp.
Arguments RegistryHooks W : clear implicits.
Arguments PgHooks W : clear implicits.
Arguments SupervisionHooks W : clear implicits.
Arguments ControlPlaneHooks W : clear implicits.
Arguments Server W : clear implicits.
Arguments Conn W : clear implicits.
Arguments TcpTransport W : clear implicits.
Arguments TcpSys W : clear implicits.

(** ** Serving a byte stream *)

Lemma read_exact_more n inp x :
  match read_exact n inp with
  | (Ok b, rest) => read_exact n (inp ++ x) = (Ok b, rest ++ x) ∧ length b = n ∧ length rest + n = length inp
  | _ => True
  end.
Proof.
  unfold read_exact. destruct (Nat.leb_spec n (length inp)); [|done].
  rewrite (proj2 (Nat.leb_le _ _)) by (rewrite length_app; lia).
  rewrite take_app_le, drop_app_le, length_take, length_drop by lia. split_and!; [done|lia|lia].
Qed.

Lemma read_frame_more inp x :
  match read_frame inp with
  | (Ok b, rest) => read_frame (inp ++ x) = (Ok b, rest ++ x) ∧ length rest < length inp
  | (Err (Io _), _) => True
  | (Err (Protocol m), rest) => read_frame (inp ++ x) = (Err (Protocol m), rest ++ x)
  | _ => False
  end.
Proof.
  unfold read_frame. pose proof (read_exact_more 4 inp x) as H4. pose proof (read_exact_spec 4 inp) as Hs.
  destruct (read_exact 4 inp) as [[hd|e] rest]; [|by destruct e].
  destruct H4 as (-> & Hhd & Hlen). case_bool_decide; [done|].
  pose proof (read_exact_more (N.to_nat (from_be_bytes hd)) rest x) as Hb.
  pose proof (read_exact_spec (N.to_nat (from_be_bytes hd)) rest) as Hs2.
  destruct (read_exact _ rest) as [[b|e] rest2]; [|by destruct e].
  destruct Hb as (-> & _ & Hl2). split; [done|lia].
Qed.

(** [read_written_frame] with the bytes named. *)
Lemma read_back body bs rest : write_frame body = Ok bs → read_frame (bs ++ rest) = (Ok body, rest).
Proof.
  intros Hw. destruct (read_written_frame body rest) as (bs' & Hw' & Hr); [|congruence].
  unfold write_frame in Hw. case_bool_decide; [done|lia].
Qed.

Section serving.
Context {W : Type} `{Codecs} (debug : SupervisionEvent → string).
Implicit Types (c : Conn W) (w : W).

(** The thread waits, or has ended. *)
Definition waits c : Prop := running (cn_pc c) = false ∨ ∃ e rest, read_frame (cn_in c) = (Err (Io e), rest).

Lemma serve_waiting n c w : waits c → serve debug n c w = (c, w).
Proof.
  intros Hw. destruct n as [|n]; [done|]. simpl. destruct (running (cn_pc c)) eqn:Hr; [|done].
  destruct Hw as [Hw|(e & rest & ->)]; [congruence|done].
Qed.

Lemma serve_enough n c w : length (cn_in c) < n → waits (fst (serve debug n c w)).
Proof.
  revert c w. induction n as [|n IH]; intros c w Hn; [lia|]. simpl.
  destruct (running (cn_pc c)) eqn:Hr; [|by left]. pose proof (read_frame_more (cn_in c) []) as Hm.
  destruct (read_frame (cn_in c)) as [[b|e] rest] eqn:Hf.
  - destruct Hm as [_ Hlt]. destruct (serve_one _ _ _ _ _) as [[pc out] w']. apply IH. simpl. lia.
  - destruct e; try done; [right; eauto|by left].
Qed.

Lemma serve_fuel n m c w :
  length (cn_in c) < n → length (cn_in c) < m → serve debug n c w = serve debug m c w.
Proof.
  revert m c w. induction n as [|n IH]; intros [|m] c w Hn Hm; try lia. simpl.
  destruct (running (cn_pc c)); [|done]. pose proof (read_frame_more (cn_in c) []) as Hx.
  destruct (read_frame (cn_in c)) as [[b|e] rest]; [|done]. destruct Hx as [_ Hlt].
  destruct (serve_one _ _ _ _ _) as [[pc out] w']. apply IH; simpl; lia.
Qed.

Lemma serve_app n b c w m :
  length (cn_in c) < n → length (cn_in c) + length b < m →
  serve debug m (push_in b c) w =
    let '(c1, w1) := serve debug n c w in serve debug (S (length (cn_in (push_in b c1)))) (push_in b c1) w1.
Proof.
  revert c w m. induction n as [|n IH]; intros c w m Hn Hm; [lia|]. destruct m as [|m]; [lia|].
  cbn [serve]. destruct (running (cn_pc c)) eqn:Hr.
  - pose proof (read_frame_more (cn_in c) b) as Hx.
    destruct (read_frame (cn_in c)) as [[fr|e] rest] eqn:Hf.
    + destruct Hx as [Hx Hlt]. cbn [push_in cn_in cn_pc cn_server cn_out cn_reset]. rewrite Hr, Hx.
      destruct (serve_one _ _ _ _ _) as [[pc out] w'].
      apply (IH (mkConn (cn_server c) rest (cn_out c ++ out) pc (cn_reset c)) w' m); simpl; lia.
    + destruct e as [|?|e|e]; try done.
      * refine (serve_fuel (S m) (S (length (cn_in (push_in b c)))) (push_in b c) w _ _);
          simpl; rewrite length_app; lia.
      * simpl. by rewrite Hr, Hx.
  - simpl. by rewrite Hr.
Qed.

(** C18: How TCP cuts the stream does not matter: whatever the pieces in which
    the client's bytes arrive, once they are all there the serving thread has
    written the same replies and reached the same state as if they had come
    at once; and it has served every complete frame: it waits for more bytes,
    or has ended. *)
Theorem serve_chunks chunks c w :
  waits c →
  serve_connection debug (push_in (concat chunks) c) w =
    foldl (λ cw b, serve_connection debug (push_in b cw.1) cw.2) (c, w) chunks ∧
  waits (serve_connection debug (push_in (concat chunks) c) w).1.
Proof.
  intros Hw. split; [|by apply serve_enough; lia].
  assert (∀ chunks x c w, foldl (λ cw b, serve_connection debug (push_in b cw.1) cw.2)
    (serve_connection debug (push_in x c) w) chunks = serve_connection debug (push_in (x ++ concat chunks) c) w) as Hc.
  { clear. induction chunks as [|b chunks IH]; intros x c w; simpl; [by rewrite app_nil_r|].
    assert (serve_connection debug (push_in b (serve_connection debug (push_in x c) w).1)
              (serve_connection debug (push_in x c) w).2 =
            serve_connection debug (push_in (x ++ b) c) w) as Hxb.
    { unfold serve_connection at 1 4. unfold serve_connection.
      replace (push_in (x ++ b) c) with (push_in b (push_in x c)) by (unfold push_in; simpl; by rewrite app_assoc).
      rewrite (serve_app (S (length (cn_in (push_in x c)))) b (push_in x c)); [|lia|].
      - by destruct (serve debug _ (push_in x c) w).
      - destruct c; simpl. rewrite !length_app. lia. }
    by rewrite Hxb, IH, <- app_assoc. }
  assert (serve_connection debug (push_in [] c) w = (c, w)) as H0.
  { unfold serve_connection. replace (push_in [] c) with c by (destruct c; unfold push_in; simpl; by rewrite app_nil_r).
    by apply serve_waiting. }
  rewrite <- H0. by rewrite Hc.
Qed.
End serving.

(** ** Requests over a connection *)

Class CodecsLaws `{Codecs} : Prop := {
  laws_handshake :: CodecLaws Handshake;
  laws_frame :: CodecLaws ClusterFrame;
  laws_reply :: CodecLaws WireReply;
  laws_supervision :: CodecLaws SupervisionEnvelope
}.

Lemma decode_encode {T} `{CodecLaws T} (v : T) bs : encode v = Ok bs → decode bs = Ok v.
Proof.
  unfold encode, decode. destruct (to_allocvec v) as [b|e] eqn:He; [|done]. intros [= ->].
  by rewrite (from_to_bytes v bs).
Qed.

Section client.
Context {W : Type} `{CodecsLaws} (debug : SupervisionEvent → string).
Context (listening : string → option (Server W)).
Implicit Types (c : Conn W) (w : W) (sv : Server W) (t : TcpTransport W).

(** The handshake is done and nothing is on its way. *)
Definition idle c : Prop := cn_pc c = Serving ∧ cn_in c = [] ∧ cn_out c = [].

(** One frame is served: what the thread has then written, and where it is. *)
Lemma write_served c w body bs :
  running (cn_pc c) = true → cn_in c = [] → write_frame body = Ok bs →
  stream_write debug body (c, w) =
    Some (Ok (), let '(pc, out, w') := serve_one debug (cn_server c) (cn_pc c) body w in
                 (mkConn (cn_server c) [] (cn_out c ++ out) pc (cn_reset c), w')).
Proof.
  intros Hr Hin Hw. unfold stream_write. rewrite Hw.
  assert (serve_connection debug (push_in bs c) w =
    let '(pc, out, w') := serve_one debug (cn_server c) (cn_pc c) body w in
    (mkConn (cn_server c) [] (cn_out c ++ out) pc (cn_reset c), w')) as Hs.
  { unfold serve_connection, push_in. rewrite Hin. cbn [serve cn_pc cn_in cn_server cn_out cn_reset app].
    rewrite Hr. pose proof (read_back body bs [] Hw) as Hb. rewrite app_nil_r in Hb. rewrite Hb.
    destruct (serve_one _ _ _ _ _) as [[pc out] w']. apply serve_waiting. right. by eexists _, _. }
  rewrite Hs. by destruct (cn_pc c).
Qed.

Lemma read_next c w body bs rest :
  write_frame body = Ok bs → cn_out c = bs ++ rest →
  stream_read (c, w) = Some (Ok body, (mkConn (cn_server c) (cn_in c) rest (cn_pc c) (cn_reset c), w)).
Proof. intros Hw Ho. unfold stream_read. by rewrite Ho, (read_back body bs rest Hw). Qed.

Lemma read_one c w body bs :
  write_frame body = Ok bs → cn_out c = bs →
  stream_read (c, w) = Some (Ok body, (mkConn (cn_server c) (cn_in c) [] (cn_pc c) (cn_reset c), w)).
Proof. intros Hw Ho. apply (read_next c w body bs []); [done|]. by rewrite app_nil_r. Qed.

Lemma read_none c w : cn_out c = [] → ∃ m, stream_read (c, w) = Some (Err (Io m), (mkConn (cn_server c) (cn_in c) [] (cn_pc c) (cn_reset c), w)).
Proof. intros Ho. unfold stream_read. rewrite Ho. by eexists. Qed.

(** The client reads, and nothing was written. *)
Ltac no_reply :=
  match goal with |- context [stream_read (?x, ?y)] => destruct (read_none x y) as [? ->] end;
  [done|]; by eexists.

(** What a request should give: the handler's reply, provided that request
    and reply can be encoded and fit in a frame; and the state after it. *)
Definition fits (r : Result (list byte) WireError) : bool :=
  match r with Ok bs => is_ok (write_frame bs) | Err _ => false end.
Definition request_outcome sv (env : WireEnvelope) (w : W) : option (list byte) * W :=
  if bool_decide (we_correlation env = 0%N) || negb (fits (encode_cluster_frame (FActor env))) then (None, w)
  else match sv_dispatch sv env w with
       | None => (None, w)
       | Some (Err _, w') => (None, w')
       | Some (Ok p, w') =>
           (if fits (encode_wire_reply (mkWireReply (we_correlation env) (default [] p)))
            then Some (default [] p) else None, w')
       end.

Lemma fits_inv r : fits r = true → ∃ bs out, r = Ok bs ∧ write_frame bs = Ok out.
Proof. unfold fits. destruct r as [bs|]; [|done]. destruct (write_frame bs) eqn:?; [eauto|done]. Qed.

Lemma serve_actor sv env bs w :
  encode_cluster_frame (FActor env) = Ok bs →
  serve_one debug sv Serving bs w =
    match sv_dispatch sv env w with
    | None => (Stuck, [], w)
    | Some (Err e, w') => (ClosedBy e, [], w')
    | Some (Ok p, w') =>
        if decide (we_correlation env = 0%N) then (Serving, [], w')
        else match encode_wire_reply (mkWireReply (we_correlation env) (default [] p)) with
             | Err e => (ClosedBy (WireErr e), [], w')
             | Ok rb => match write_frame rb with
                        | Ok out => (Serving, out, w') | Err e => (ClosedBy e, [], w') end
             end
    end.
Proof.
  intros He. unfold serve_one, serve_frame, decode_cluster_frame. rewrite (decode_encode (FActor env) bs) by done.
  unfold call_bind, on_world, call_of. cbn [mbind option_bind result_map_err snd fst].
  destruct (sv_dispatch _ env _) as [[[p|e] w']|]; cbn [mbind option_bind]; [|done|done].
  case_decide; [done|]. destruct (encode_wire_reply _) as [rb|e]; [|done]. cbn [result_map_err].
  unfold out_write. by destruct (write_frame rb).
Qed.

Lemma request_over_connection t s env c :
  ts_conns s !! node (we_to env) = Some c → idle c →
  let '(o, w') := request_outcome (cn_server c) env (ts_world s) in
  ∃ r, tcp_request_envelope debug listening t env s =
      Some (r, mkTcpSys (match o with Some _ => ts_conns s | None => delete (node (we_to env)) (ts_conns s) end) w') ∧
    match o with Some p => r = Ok p | None => is_err r = true end.
Proof.
  intros Hc (Hpc & Hin & Hout). unfold tcp_request_envelope, with_connection, on_conn. rewrite Hc.
  unfold request_outcome, request_on_stream. case_bool_decide as Hcid; cbn [orb negb].
  { rewrite decide_True by done. by eexists. }
  rewrite decide_False by done. destruct (fits (encode_cluster_frame (FActor env))) eqn:Hf; cbn [negb].
  2: { unfold fits in Hf. destruct (encode_cluster_frame (FActor env)) as [bs|e]; [|by eexists].
       unfold call_bind at 1, call_of. cbn [mbind option_bind result_map_err]. unfold call_bind at 1, stream_write.
       destruct (write_frame bs) as [|e]; [done|]. by eexists. }
  apply fits_inv in Hf as (bs & frame & He & Hw). rewrite He.
  unfold call_bind at 1, call_of. cbn [mbind option_bind result_map_err]. unfold call_bind at 1.
  rewrite (write_served c _ bs frame) by (by rewrite ?Hpc). rewrite Hpc, Hout. cbn [mbind option_bind app].
  rewrite (serve_actor _ env) by done. unfold call_bind.
  destruct (sv_dispatch _ env _) as [[[p|e] w']|].
  2,3: no_reply.
  rewrite decide_False by done. destruct (fits (encode_wire_reply _)) eqn:Hfr.
  - apply fits_inv in Hfr as (rb & rframe & Her & Hwr). rewrite Her, Hwr.
    rewrite (read_one _ _ rb rframe) by done. unfold decode_reply_frame. cbn [mbind option_bind].
    rewrite (decode_encode _ rb Her). cbn [result_map_err wr_correlation wr_payload call_of mbind option_bind].
    rewrite decide_False by (intros Hx; by apply Hx). eexists. split; [|done]. simpl.
    rewrite insert_id; [done|]. rewrite Hc. destruct c; simpl in *; by subst.
  - destruct (encode_wire_reply _) as [rb|e]; [simpl in Hfr; destruct (write_frame rb); [done|]|].
    all: no_reply.
Qed.

(** A request over an idle connection gives what the handler on the other
    node gives, and runs it exactly once; the connection stays for the next
    request. When the request cannot be sent, the handler refuses it or does
    not return, or its reply cannot be sent, the caller gets an error and the
    connection is removed from the pool. *)
Theorem tcp_request_exact t s env c :
  ts_conns s !! node (we_to env) = Some c → idle c →
  let '(o, w') := request_outcome (cn_server c) env (ts_world s) in
  ∃ r, tcp_request_envelope debug listening t env s =
      Some (r, mkTcpSys (match o with Some _ => ts_conns s | None => delete (node (we_to env)) (ts_conns s) end) w') ∧
    match o with Some p => r = Ok p | None => is_err r = true end.
Proof. apply request_over_connection. Qed.

(** The transport keeps the promise that remote references rely on. *)
#[export] Instance tcp_delivers t n sv :
  Delivers (tcp_transport debug listening t) n (sv_dispatch sv) ts_world
    (λ s, ∃ c, ts_conns s !! n = Some c ∧ idle c ∧ cn_server c = sv)
    (λ env, fits (encode_cluster_frame (FActor env)) = true)
    (λ cid p, fits (encode_wire_reply (mkWireReply cid p)) = true).
Proof.
  intros env s r w (c & Hc & Hi & Hsv) Hn Hcid Hcar Hrep Hd.
  pose proof (request_over_connection t s env c) as Hx. rewrite Hn in Hx. specialize (Hx Hc Hi).
  unfold request_outcome in Hx. rewrite bool_decide_eq_false_2, Hcar, Hsv, Hd in Hx by done. cbn [orb negb] in Hx.
  destruct r as [p|e].
  - rewrite (Hrep p eq_refl) in Hx. destruct Hx as (r & Hx & ->). eexists Wire.RemoteUnreachable, _.
    split; [exact Hx|]. split; [done|]. intros _. by exists c.
  - destruct Hx as (r & Hx & Hr). destruct r as [|e']; [done|]. exists e'. eexists.
    split; [exact Hx|]. by split.
Qed.

(** ** Supervision events over a connection *)

Lemma serve_supervision sv env bs w :
  encode_supervision_frame env = Ok bs →
  serve_one debug sv Serving bs w =
    match apply_supervision debug (ctl_supervision (sv_control sv)) env w with
    | None => (Stuck, [], w)
    | Some (Err e, w') => (ClosedBy e, [], w')
    | Some (Ok None, w') => (Serving, [], w')
    | Some (Ok (Some reply), w') =>
        match encode_supervision reply with
        | Err e => (ClosedBy e, [], w')
        | Ok rb => match write_frame rb with Ok out => (Serving, out, w') | Err e => (ClosedBy e, [], w') end
        end
    end.
Proof.
  intros He. unfold encode_supervision_frame in He.
  destruct (encode_cluster_frame (FSupervision env)) as [b|] eqn:Hb; [|done]. injection He as ->.
  unfold serve_one, serve_frame, decode_cluster_frame. rewrite (decode_encode (FSupervision env) bs) by done.
  unfold call_bind at 1, call_of. cbn [mbind option_bind result_map_err]. unfold call_bind at 1, on_world.
  cbn [snd fst]. destruct (apply_supervision _ _ env w) as [[[[reply|]|e] w']|]; cbn [mbind option_bind]; try done.
  unfold call_bind. cbn [mbind option_bind]. destruct (encode_supervision reply) as [rb|e]; [|done].
  unfold out_write. by destruct (write_frame rb).
Qed.

(** The first frame that a connection does not survive, and what follows. *)
Lemma write_closed c w body bs e :
  write_frame body = Ok bs → cn_pc c = ClosedBy e →
  stream_write debug body (c, w) =
    Some (if cn_reset c then Err (Io "Broken pipe") else Ok (),
          (if cn_reset c then c else mkConn (cn_server c) (cn_in c) [] (cn_pc c) true, w)).
Proof. intros Hw Hpc. unfold stream_write. rewrite Hw, Hpc. by destruct (cn_reset c). Qed.

Definition can_send (env : SupervisionEnvelope) : Prop :=
  validate_envelope debug env = Ok () ∧ correlation_id env = 0%N ∧
  ∃ bs out, encode_supervision_frame env = Ok bs ∧ write_frame bs = Ok out.

Lemma send_supervision_pooled t n env s c :
  can_send env → ts_conns s !! n = Some c →
  ∃ bs out, encode_supervision_frame env = Ok bs ∧ write_frame bs = Ok out ∧
    send_supervision debug listening t n env s =
      '(r, (c, w)) ← stream_write debug bs (c, ts_world s);
      Some (r, mkTcpSys (match r with Ok _ => <[n := c]> (ts_conns s) | Err _ => delete n (ts_conns s) end) w).
Proof.
  intros (Hv & Hcid & bs & out & He & Hw) Hc. exists bs, out. split_and!; [done..|].
  unfold send_supervision, call_bind at 1, call_of. cbn [mbind option_bind]. rewrite Hv.
  rewrite decide_False by (intros Hx; by apply Hx). unfold with_connection. rewrite Hc.
  unfold on_conn, send_supervision_on_stream, call_bind, call_of. cbn [mbind option_bind]. by rewrite He.
Qed.

(** A supervision event sent over an idle connection is applied by the
    other node exactly once, before the next one, and the connection stays
    idle when it is accepted. But the sender is not told of a refusal: it
    makes the other node close the connection, the send still succeeds, and
    so does the next send, whose event is lost. *)
Theorem supervision_sends t n env env2 s c :
  ts_conns s !! n = Some c → idle c → cn_reset c = false → can_send env → can_send env2 →
  match apply_supervision debug (ctl_supervision (sv_control (cn_server c))) env (ts_world s) with
  | Some (Ok None, w') =>
      send_supervision debug listening t n env s = Some (Ok (), mkTcpSys (ts_conns s) w')
  | Some (Err e, w') =>
      ∃ s1 s2, send_supervision debug listening t n env s = Some (Ok (), s1) ∧ ts_world s1 = w' ∧
        send_supervision debug listening t n env2 s1 = Some (Ok (), s2) ∧ ts_world s2 = w'
  | _ => True
  end.
Proof.
  intros Hc (Hpc & Hin & Hout) Hrst Hcs Hcs2.
  destruct (send_supervision_pooled t n env s c Hcs Hc) as (bs & out & He & Hw & Hsend).
  rewrite (write_served c _ bs out) in Hsend by (by rewrite ?Hpc).
  rewrite Hpc, Hout, (serve_supervision _ env) in Hsend by done. cbn [mbind option_bind] in Hsend.
  destruct (apply_supervision _ _ env _) as [[[[reply|]|e] w']|]; try done.
  - rewrite Hsend. do 3 f_equal. apply insert_id. rewrite Hc. destruct c; simpl in *; by subst.
  - eexists _. rewrite Hsend.
    destruct (send_supervision_pooled t n env2 (mkTcpSys (<[n := mkConn (cn_server c) [] [] (ClosedBy e) (cn_reset c)]>
      (ts_conns s)) w') (mkConn (cn_server c) [] [] (ClosedBy e) (cn_reset c)) Hcs2) as (bs2 & out2 & _ & Hw2 & Hsend2);
      [apply lookup_insert_eq|].
    rewrite (write_closed _ _ bs2 out2 e) in Hsend2 by done. simpl in Hsend2. rewrite Hrst in Hsend2.
    eexists. split_and!; [done|done|rewrite Hrst; exact Hsend2|done].
Qed.

(** The reply to a spawn request, when there is one that the client takes. *)
Definition spawn_outcome sv (env : SupervisionEnvelope) (w : W) : option SupervisionEnvelope * W :=
  match apply_supervision debug (ctl_supervision (sv_control sv)) env w with
  | None => (None, w)
  | Some (Err _, w') | Some (Ok None, w') => (None, w')
  | Some (Ok (Some reply), w') =>
      (match encode_supervision reply with
       | Ok rb => if is_ok (write_frame rb) && is_ok (validate_reply debug env reply) then Some reply else None
       | Err _ => None
       end, w')
  end.

(** A spawn request gets the reply of the other node's broker, if it is a
    valid reply to that very request; in every other case the caller gets an
    error and the connection is given up. *)
Theorem spawn_request_exact t n env s c bs out :
  ts_conns s !! n = Some c → idle c → validate_envelope debug env = Ok () →
  encode_supervision_frame env = Ok bs → write_frame bs = Ok out →
  let '(o, w') := spawn_outcome (cn_server c) env (ts_world s) in
  ∃ r, request_supervision debug listening t n env s =
      Some (r, mkTcpSys (match o with Some _ => ts_conns s | None => delete n (ts_conns s) end) w') ∧
    match o with Some reply => r = Ok reply | None => is_err r = true end.
Proof.
  intros Hc (Hpc & Hin & Hout) Hv He Hw.
  unfold request_supervision, call_bind at 1, call_of. cbn [mbind option_bind]. rewrite Hv.
  unfold with_connection. rewrite Hc. unfold on_conn, request_supervision_on_stream.
  unfold call_bind at 1, call_of. cbn [mbind option_bind]. rewrite He. unfold call_bind at 1.
  rewrite (write_served c _ bs out) by (by rewrite ?Hpc).
  rewrite Hpc, Hout, (serve_supervision _ env) by done. cbn [mbind option_bind app]. unfold spawn_outcome.
  unfold call_bind.
  destruct (apply_supervision _ _ env _) as [[[[reply|]|e] w']|].
  2-4: no_reply.
  destruct (encode_supervision reply) as [rb|e] eqn:Her.
  2: no_reply.
  destruct (write_frame rb) as [rframe|e] eqn:Hwr.
  2: no_reply.
  rewrite (read_one _ _ rb rframe) by done. cbn [mbind option_bind is_ok andb].
  unfold decode_supervision_reply, decode_supervision. unfold encode_supervision in Her.
  destruct (to_allocvec reply) as [rb'|] eqn:Hto; [|done]. injection Her as ->.
  rewrite (from_to_bytes reply rb Hto). cbn [result_map_err].
  destruct (validate_reply debug env reply) as [u|e]; [|by eexists].
  eexists. split; [|done]. simpl. do 3 f_equal. rewrite insert_id; [done|]. rewrite Hc.
  destruct c; simpl in *; by subst.
Qed.

(** ** Connecting *)

(** Hooks that never refuse, such as those of the registries. *)
Record Stores := mkStores {
  st_register : Names.RegistryEvent → W → W;
  st_names : W → list (string * ActorAddress);
  st_join : PgEvent → W → W;
  st_members : W → list PgMemberEntry
}.
Definition hooks_of (x : Stores) (sup : SupervisionHooks W) : ControlPlaneHooks W :=
  with_supervision sup
    (federated (λ e w, Some (Ok (), st_register x e w)) (st_names x)
       (λ e w, Some (Ok (), st_join x e w)) (st_members x)).

Definition names_frame (x : Stores) w : Result (list byte) WireError :=
  encode_cluster_frame (FRegistry (Names.Snapshot (st_names x w))).
Definition members_frame (x : Stores) w : Result (list byte) WireError :=
  encode_cluster_frame (FPg (PgSnapshot (st_members x w))).

Lemma for_each_pure {A} (f : A → W → W) l w :
  for_each_call (λ (x : A) w, Some (Ok (E := TransportError) (), f x w)) l w =
    Some (Ok (), foldl (λ w x, f x w) w l).
Proof.
  revert w. induction l as [|x l IH]; intros w; [done|]. cbn [for_each_call foldl].
  unfold call_bind. cbn [mbind option_bind]. apply IH.
Qed.

(** What the two sides have applied once they are connected: the server the
    client's snapshots, then the client the server's, entry by entry. *)
Definition after_connect (cl sv : Stores) w : W :=
  let w1 := st_register sv (Names.Snapshot (st_names cl w)) w in
  let w2 := st_join sv (PgSnapshot (st_members cl w1)) w1 in
  let w3 := foldl (λ w e, st_register cl (Names.Register e.1 e.2) w) w2 (st_names sv w) in
  foldl (λ w e, st_join cl (PgJoin (pe_key e) (pe_address e)) w) w3 (st_members sv w).

(** Everything that is sent fits in a frame. *)
Record connectable (cl sv : Stores) (me peer : NodeId) w : Prop := {
  cb_client : fits (encode_handshake (handshake_local me)) = true;
  cb_server : fits (encode_handshake (handshake_local peer)) = true;
  cb_server_names : fits (names_frame sv w) = true;
  cb_server_members : fits (members_frame sv w) = true;
  cb_client_names : fits (names_frame cl w) = true;
  cb_client_members : fits (members_frame cl (st_register sv (Names.Snapshot (st_names cl w)) w)) = true
}.

Lemma serve_hello sv me x sup w hello ack af names nf members mf :
  sv_control sv = hooks_of x sup →
  encode_handshake (handshake_local me) = Ok hello →
  encode_handshake (handshake_local (sv_node sv)) = Ok ack → write_frame ack = Ok af →
  names_frame x w = Ok names → write_frame names = Ok nf →
  members_frame x w = Ok members → write_frame members = Ok mf →
  serve_one debug sv AwaitHandshake hello w = (Serving, af ++ nf ++ mf, w).
Proof.
  intros Hctl Hh Ha Haf Hn Hnf Hm Hmf. unfold serve_one, serve_handshake, decode_handshake.
  rewrite (decode_encode _ hello Hh). unfold call_bind at 1, call_of. cbn [mbind option_bind result_map_err].
  rewrite decide_False by (intros Hx; by apply Hx). rewrite Ha.
  unfold send_control_plane_snapshots, encode_registry_event, encode_pg_event. rewrite Hctl.
  unfold names_frame in Hn. unfold members_frame in Hm.
  unfold call_bind, call_of, out_write. cbn [mbind option_bind result_map_err fst snd app]. rewrite Haf.
  cbn [fst snd app hooks_of with_supervision federated ctl_registry ctl_pg rg_snapshot pg_snapshot mbind option_bind result_map_err].
  rewrite Hn. cbn [fst snd mbind option_bind result_map_err]. rewrite Hnf. cbn [fst snd mbind option_bind].
  rewrite Hm. cbn [fst snd mbind option_bind result_map_err]. rewrite Hmf. by rewrite <- app_assoc.
Qed.

Lemma serve_control sv x sup f bs w :
  sv_control sv = hooks_of x sup → encode_cluster_frame f = Ok bs →
  match f with
  | FRegistry e => serve_one debug sv Serving bs w = (Serving, [], st_register x e w)
  | FPg e => serve_one debug sv Serving bs w = (Serving, [], st_join x e w)
  | _ => True
  end.
Proof.
  intros Hctl He. destruct f as [|e|e|]; try done; unfold serve_one, serve_frame, decode_cluster_frame;
    rewrite (decode_encode _ bs He), Hctl; done.
Qed.

(** The client reads the two snapshots and applies them entry by entry. *)
Lemma apply_snapshots_exact cl ss sup w0 c w names nf members mf :
  names_frame ss w0 = Ok names → write_frame names = Ok nf →
  members_frame ss w0 = Ok members → write_frame members = Ok mf → cn_out c = nf ++ mf →
  apply_control_plane_snapshots (hooks_of cl sup) (c, w) =
    Some (Ok (), (mkConn (cn_server c) (cn_in c) [] (cn_pc c) (cn_reset c),
      foldl (λ w e, st_join cl (PgJoin (pe_key e) (pe_address e)) w)
        (foldl (λ w e, st_register cl (Names.Register e.1 e.2) w) w (st_names ss w0)) (st_members ss w0))).
Proof.
  intros Hn Hnf Hm Hmf Hout.
  unfold apply_control_plane_snapshots. unfold call_bind at 1. rewrite (read_next _ _ names nf mf) by done.
  cbn [mbind option_bind cn_server cn_in cn_pc cn_reset].
  unfold apply_registry_snapshot, decode_cluster_frame. unfold names_frame in Hn. rewrite (decode_encode _ names Hn).
  cbn [rg_inbound ctl_registry hooks_of with_supervision federated].
  unfold call_bind at 1, on_stream_world, apply_registry_event.
  cbn [rg_inbound ctl_registry hooks_of with_supervision federated].
  rewrite (for_each_pure (λ e : string * ActorAddress, st_register cl (Names.Register e.1 e.2))).
  cbn [mbind option_bind]. unfold call_bind at 1. rewrite (read_one _ _ members mf) by done.
  cbn [mbind option_bind cn_server cn_in cn_pc cn_reset].
  unfold apply_pg_snapshot, decode_cluster_frame. unfold members_frame in Hm.
  rewrite (decode_encode _ members Hm). cbn [pg_inbound ctl_pg hooks_of with_supervision federated].
  unfold apply_pg_event. cbn [pg_inbound ctl_pg hooks_of with_supervision federated].
  rewrite (for_each_pure (λ e, st_join cl (PgJoin (pe_key e) (pe_address e)))).
  done.
Qed.

Lemma connect_exact t n addr sv cl ss sup sup' w :
  peer_addr t n = Some addr → listening addr = Some sv →
  tt_control t = hooks_of cl sup → sv_control sv = hooks_of ss sup' →
  connectable cl ss (tt_local t) (sv_node sv) w →
  ∃ c, connect debug listening t n w = Some (Ok c, after_connect cl ss w) ∧
    idle c ∧ cn_server c = sv ∧ cn_reset c = false.
Proof.
  intros Haddr Hsv Hct Hcs [Hh Ha Hn Hm Hcn Hcm].
  apply fits_inv in Hh as (hello & hf & Hh & Hhf). apply fits_inv in Ha as (ack & af & Ha & Haf).
  apply fits_inv in Hn as (names & nf & Hn & Hnf). apply fits_inv in Hm as (members & mf & Hm & Hmf).
  apply fits_inv in Hcn as (cnames & cnf & Hcn & Hcnf). apply fits_inv in Hcm as (cmembers & cmf & Hcm & Hcmf).
  unfold connect. rewrite Haddr, Hsv. unfold client_handshake. rewrite Hh.
  unfold call_bind at 1, call_of. cbn [mbind option_bind result_map_err call_of]. unfold call_bind at 1.
  rewrite (write_served _ _ hello hf) by done.
  cbn [cn_server cn_pc cn_out cn_reset app].
  rewrite (serve_hello sv (tt_local t) ss sup' w hello ack af names nf members mf) by done.
  cbn [mbind option_bind]. unfold call_bind at 1. rewrite (read_next _ _ ack af (nf ++ mf)) by done.
  cbn [mbind option_bind cn_server cn_in cn_pc cn_reset]. unfold decode_handshake.
  rewrite (decode_encode _ ack Ha). unfold call_bind at 1. cbn [mbind option_bind result_map_err call_of].
  rewrite decide_False by (intros Hx; by apply Hx).
  unfold call_bind at 1. unfold send_control_plane_snapshots. rewrite Hct.
  cbn [hooks_of with_supervision federated ctl_registry ctl_pg rg_snapshot pg_snapshot snd].
  unfold encode_registry_event, encode_pg_event.
  unfold names_frame in Hcn. rewrite Hcn. unfold call_bind at 1. cbn [mbind option_bind result_map_err call_of].
  unfold call_bind at 1. rewrite (write_served _ _ cnames cnf) by done.
  cbn [cn_server cn_pc cn_out cn_reset mbind option_bind].
  rewrite (serve_control sv ss sup' (FRegistry _) cnames w Hcs Hcn). cbn [snd mbind option_bind].
  unfold members_frame in Hcm. rewrite Hcm. unfold call_bind at 1. cbn [mbind option_bind result_map_err call_of].
  rewrite (write_served _ _ cmembers cmf) by done.
  cbn [cn_server cn_pc cn_out cn_reset mbind option_bind].
  rewrite (serve_control sv ss sup' (FPg _) cmembers _ Hcs Hcm). rewrite !app_nil_r. cbn [mbind option_bind].
  rewrite (apply_snapshots_exact cl ss sup w _ _ names nf members mf) by done.
  cbn [mbind option_bind]. eexists. split_and!; [reflexivity|done..].
Qed.

(** ** Broadcasts *)

(** The peer has an idle connection to a node with these stores. *)
Definition linked_to (s : TcpSys W) (n : NodeId) (x : Stores) : Prop :=
  ∃ c sup, ts_conns s !! n = Some c ∧ idle c ∧ sv_control (cn_server c) = hooks_of x sup.

Lemma control_write_pooled t n x f bs s :
  linked_to s n x → encode_cluster_frame f = Ok bs → is_ok (write_frame bs) = true →
  match f with
  | FRegistry e => with_connection debug listening t n (stream_write debug bs) s =
      Some (Ok (), mkTcpSys (ts_conns s) (st_register x e (ts_world s)))
  | FPg e => with_connection debug listening t n (stream_write debug bs) s =
      Some (Ok (), mkTcpSys (ts_conns s) (st_join x e (ts_world s)))
  | _ => True
  end.
Proof.
  intros (c & sup & Hc & (Hpc & Hin & Hout) & Hctl) He Hf. destruct (write_frame bs) as [out|] eqn:Hw; [|done].
  pose proof (serve_control (cn_server c) x sup f bs (ts_world s) Hctl He) as Hs.
  assert (<[n := mkConn (cn_server c) [] [] Serving (cn_reset c)]> (ts_conns s) = ts_conns s) as Hi.
  { apply insert_id. rewrite Hc. destruct c; simpl in *; by subst. }
  unfold with_connection. rewrite Hc. unfold on_conn. rewrite (write_served c _ bs out) by (by rewrite ?Hpc).
  rewrite Hpc, Hout. destruct f; try done; rewrite Hs; cbn [mbind option_bind app]; by rewrite Hi.
Qed.

Lemma broadcast_loop t (x : NodeId → Stores) e bs nodes s k :
  (∀ n, n ∈ nodes → linked_to s n (x n)) →
  encode_cluster_frame (FRegistry e) = Ok bs → is_ok (write_frame bs) = true →
  for_each_call (λ n, with_connection debug listening t n (stream_write debug bs)) (nodes ++ k) s =
    for_each_call (λ n, with_connection debug listening t n (stream_write debug bs)) k
      (mkTcpSys (ts_conns s) (foldl (λ w n, st_register (x n) e w) (ts_world s) nodes)).
Proof.
  revert s. induction nodes as [|n nodes IH]; intros s Hl He Hf; [by destruct s|].
  cbn [app for_each_call foldl]. unfold call_bind at 1.
  rewrite (control_write_pooled t n (x n) (FRegistry e) bs s) by (done || apply Hl; by left).
  cbn [mbind option_bind]. apply (IH (mkTcpSys (ts_conns s) (st_register (x n) e (ts_world s)))); try done.
  intros m Hm. apply (Hl m). by right.
Qed.

(** A broadcast is applied once by every peer that comes before the first
    one that cannot be reached, in the order of the peers; the peers after
    that one are skipped, although their connections are open. *)
Theorem broadcast_registry_prefix t (x : NodeId → Stores) e s reached rest :
  peer_nodes t = reached ++ rest → fits (encode_cluster_frame (FRegistry e)) = true →
  (∀ n, n ∈ reached → linked_to s n (x n)) →
  match rest with
  | [] => True
  | n :: _ => ts_conns s !! n = None ∧ ∃ addr, peer_addr t n = Some addr ∧ listening addr = None
  end →
  broadcast_registry debug listening t e s =
    Some (match rest with [] => Ok () | _ => Err (Io "Connection refused") end,
          mkTcpSys (ts_conns s) (foldl (λ w n, st_register (x n) e w) (ts_world s) reached)).
Proof.
  intros Hp Hf Hl Hr. apply fits_inv in Hf as (bs & out & He & Hw).
  assert (is_ok (write_frame bs) = true) as Hok by by rewrite Hw.
  unfold broadcast_registry, broadcast_frame, encode_registry_event. rewrite He.
  destruct (tt_peers t) as [|p ps] eqn:Htp.
  { unfold peer_nodes in Hp. rewrite Htp in Hp. symmetry in Hp. apply app_nil in Hp as [-> ->]. by destruct s. }
  unfold call_bind at 1, call_of. cbn [mbind option_bind result_map_err].
  rewrite Hp, (broadcast_loop t x e bs reached s rest) by done.
  destruct rest as [|n rest]; [done|]. destruct Hr as [Hn (addr & Ha & Hlis)].
  cbn [for_each_call]. unfold call_bind, with_connection. cbn [ts_conns ts_world]. rewrite Hn.
  unfold connect. by rewrite Ha, Hlis.
Qed.
End client.
