(* ===== verification/Libp2p.v ===== *)
(** * The libp2p transport

    Model of [cluster/src/libp2p/mod.rs] and [libp2p/codec.rs]: a background
    thread owns the libp2p swarm, takes commands from a channel, hands frames
    to the swarm and answers the callers, who wait on a channel each.

    The swarm itself is third-party code, the class [SwarmOps]; what is used
    of it is that the ids of outbound requests are never given twice
    ([SwarmLaws]). Everything the network does are events, in any order. The
    mutex of the shared state is never poisoned, because no code that holds
    it panics. *)

From Stdlib Require Import Strings.Byte.
From stdpp Require Import pretty.
From S2P Require Import Prelude Address Errors ProcessGroups Registry Requests RemoteSpawn Wire RemoteRefs Tcp.

(** ** The codec of the streams *)

Definition read_frame_async (reader : list byte) : Result (list byte) TransportError * list byte :=
  let '(len_buf, reader) := read_exact 4 reader in
  match len_buf with
  | Err e => (Err e, reader)
  | Ok len_buf =>
      let len := from_be_bytes len_buf in
      if bool_decide (MAX_FRAME_SIZE < len)%N
      then (Err (Protocol ("frame too large: " +:+ pretty len +:+ " bytes")), reader)
      else read_exact (N.to_nat len) reader
  end.
Definition write_frame_async (body : list byte) : Result (list byte) TransportError :=
  let len := N.of_nat (length body) in
  if bool_decide (MAX_FRAME_SIZE < len)%N
  then Err (Protocol ("frame too large: " +:+ pretty len +:+ " bytes"))
  else Ok (to_be_bytes (len mod 2 ^ 32) ++ body).

(** ** The swarm *)

Section swarm.
Context (Sw PeerId Multiaddr RequestId Channel : Type).
Context `{Countable PeerId} `{Countable RequestId}.

Inductive SwarmEvent :=
| NewListenAddr (address : Multiaddr)
| ConnectionEstablished (peer : PeerId)
| InboundRequest (channel : Channel) (request : list byte)
| InboundResponse (id : RequestId) (response : list byte)
| OutboundFailure (id : RequestId)
| OutgoingConnectionError (peer : option PeerId)
| ConnectionClosed (peer : PeerId)
| OtherEvent.

(** [occurs] is what happens in the swarm when it produces an event. *)
Class SwarmOps := {
  is_connected : PeerId → Sw → bool;
  dial : Multiaddr → Sw → Result () string * Sw;
  send_request : PeerId → list byte → Sw → RequestId * Sw;
  send_response : Channel → list byte → Sw → Sw;
  occurs : SwarmEvent → Sw → Sw
}.

(** [outbound] is all that was ever given to [send_request]. *)
Class SwarmLaws `{SwarmOps} := {
  outbound : Sw → list (RequestId * (PeerId * list byte));
  outbound_fresh p f s : (send_request p f s).1 ∉ (outbound s).*1;
  outbound_send p f s :
    outbound (send_request p f s).2 = outbound s ++ [((send_request p f s).1, (p, f))];
  outbound_dial a s : outbound (dial a s).2 = outbound s;
  outbound_response c f s : outbound (send_response c f s) = outbound s;
  outbound_occurs e s : outbound (occurs e s) = outbound s;
  connected_send p q f s : is_connected q (send_request p f s).2 = is_connected q s;
  connected_answered q id b s : is_connected q (occurs (InboundResponse id b) s) = is_connected q s;
  connected_closed p s : is_connected p (occurs (ConnectionClosed p) s) = false
}.
End swarm.
Arguments NewListenAddr {_ _ _ _} address.
Arguments ConnectionEstablished {_ _ _ _} peer.
Arguments InboundRequest {_ _ _ _} channel request.
Arguments InboundResponse {_ _ _ _} id response.
Arguments OutboundFailure {_ _ _ _} id.
Arguments OutgoingConnectionError {_ _ _ _} peer.
Arguments ConnectionClosed {_ _ _ _} peer.
Arguments OtherEvent {_ _ _ _}.
Arguments is_connected {_ _ _ _ _ _} p s.
Arguments dial {_ _ _ _ _ _} a s.
Arguments send_request {_ _ _ _ _ _} p f s.
Arguments send_response {_ _ _ _ _ _} c f s.
Arguments occurs {_ _ _ _ _ _} e s.
Arguments outbound {_ _ _ _ _ _ _} s.
Arguments outbound_fresh {_ _ _ _ _ _ _} p f s.
Arguments outbound_send {_ _ _ _ _ _ _} p f s.

Section libp2p.
Context {Sw PeerId Multiaddr RequestId Channel : Type}.
Context `{Countable PeerId} `{Countable RequestId}.
Context `{!SwarmOps Sw PeerId Multiaddr RequestId Channel}.
Context {W : Type} `{Codecs} (debug : SupervisionEvent → string).

(** ** Commands and state *)

Record Libp2pPeer := mkPeer { lp_node : NodeId; lp_peer_id : PeerId; lp_addr : Multiaddr }.

(** [RequestReply], [PendingReply] and [VoidReply]: the sending half of a
    caller's channel, for a caller that waits up to 30 seconds ([Sync]) or as
    long as it takes ([Async]). Channels are numbered. *)
Inductive ReplyTo := SyncTx (tx : N) | AsyncTx (tx : N).
Definition reply_to (async : bool) (tx : N) : ReplyTo := if async then AsyncTx tx else SyncTx tx.
Definition tx_of (r : ReplyTo) : N := match r with SyncTx tx | AsyncTx tx => tx end.

Record DeferredSend := mkDeferred {
  ds_peer : PeerId;
  ds_frame : list byte;
  ds_expect_reply : bool;
  ds_respond_to : ReplyTo
}.
Inductive RuntimeCommand :=
| CmdSend (send : DeferredSend)
| CmdBroadcast (frame : list byte) (respond_to : ReplyTo)
| CmdSyncPeer (peer : PeerId) (respond_to : ReplyTo).

(** What [start] gives to the thread and to the handle, and the thread never
    changes. *)
Record Config := mkConfig {
  cf_peer_to_node : gmap PeerId NodeId;
  cf_node_to_peer : gmap NodeId PeerId;
  cf_peer_addrs : gmap PeerId Multiaddr;
  cf_dispatch : InboundDispatch W;
  cf_control : ControlPlaneHooks W
}.
Definition config_of (peers : list Libp2pPeer) dispatch control : Config :=
  mkConfig (foldl (λ m p, <[lp_peer_id p := lp_node p]> m) ∅ peers)
    (foldl (λ m p, <[lp_node p := lp_peer_id p]> m) ∅ peers)
    (foldl (λ m p, <[lp_peer_id p := lp_addr p]> m) ∅ peers) dispatch control.

(** What the thread works on. [lb_chans] are the callers' channels: those of
    sends carry bytes, those of broadcasts and syncs nothing. *)
Record Lib := mkLib {
  lb_swarm : Sw;
  lb_world : W;
  lb_pending : gmap RequestId ReplyTo;
  lb_listen_addrs : list Multiaddr;
  lb_synced : gset PeerId;
  lb_deferred : list DeferredSend;
  lb_chans : gmap N (Oneshot (Result (list byte) TransportError))
}.
Definition set_swarm sw lb := mkLib sw (lb_world lb) (lb_pending lb) (lb_listen_addrs lb) (lb_synced lb) (lb_deferred lb) (lb_chans lb).
Definition set_lb_world w lb := mkLib (lb_swarm lb) w (lb_pending lb) (lb_listen_addrs lb) (lb_synced lb) (lb_deferred lb) (lb_chans lb).
Definition set_pending p lb := mkLib (lb_swarm lb) (lb_world lb) p (lb_listen_addrs lb) (lb_synced lb) (lb_deferred lb) (lb_chans lb).
Definition set_listen_addrs l lb := mkLib (lb_swarm lb) (lb_world lb) (lb_pending lb) l (lb_synced lb) (lb_deferred lb) (lb_chans lb).
Definition set_synced y lb := mkLib (lb_swarm lb) (lb_world lb) (lb_pending lb) (lb_listen_addrs lb) y (lb_deferred lb) (lb_chans lb).
Definition set_deferred d lb := mkLib (lb_swarm lb) (lb_world lb) (lb_pending lb) (lb_listen_addrs lb) (lb_synced lb) d (lb_chans lb).
Definition set_chans c lb := mkLib (lb_swarm lb) (lb_world lb) (lb_pending lb) (lb_listen_addrs lb) (lb_synced lb) (lb_deferred lb) c.

(** [complete_pending] and [complete_void], and a sending half that goes out
    of scope. *)
Definition complete (r : ReplyTo) (v : Result (list byte) TransportError) lb : Lib :=
  set_chans (<[tx_of r := OsSent v]> (lb_chans lb)) lb.
Definition drop_tx (r : ReplyTo) lb : Lib := set_chans (<[tx_of r := OsDropped]> (lb_chans lb)) lb.

(** Code on the state of the nodes, and code on the swarm. *)
Definition on_lb_world {T} (m : Call W T TransportError) : Call Lib T TransportError := λ lb,
  '(r, w) ← m (lb_world lb); Some (r, set_lb_world w lb).
Definition hand_over (p : PeerId) (frame : list byte) lb : Lib :=
  set_swarm (send_request p frame (lb_swarm lb)).2 lb.

(** ** The background thread *)

Section thread.
Context (cf : Config).

Definition ensure_peer_dialed (p : PeerId) : Call Lib () TransportError := λ lb,
  if is_connected p (lb_swarm lb) then Some (Ok (), lb)
  else match cf_peer_addrs cf !! p with
       | Some addr => let '(r, sw) := dial addr (lb_swarm lb) in Some (result_map_err Io r, set_swarm sw lb)
       | None => Some (Ok (), lb)
       end.

(** An entry of [pending] that is replaced is dropped. *)
Definition dispatch_send (send : DeferredSend) lb : Lib :=
  let '(id, sw) := send_request (ds_peer send) (ds_frame send) (lb_swarm lb) in
  let lb := set_swarm sw lb in
  if ds_expect_reply send then
    let lb := match lb_pending lb !! id with Some old => drop_tx old lb | None => lb end in
    set_pending (<[id := ds_respond_to send]> (lb_pending lb)) lb
  else complete (ds_respond_to send) (Ok []) lb.

Fixpoint flush_from (sends remaining : list DeferredSend) lb : Lib :=
  match sends with
  | [] => set_deferred remaining lb
  | send :: sends =>
      if is_connected (ds_peer send) (lb_swarm lb) then flush_from sends remaining (dispatch_send send lb)
      else flush_from sends (remaining ++ [send]) lb
  end.
Definition flush_deferred_sends lb : Lib := flush_from (lb_deferred lb) [] (set_deferred [] lb).

Definition snapshot_frames (w : W) : Result (list (list byte)) TransportError :=
  let control := cf_control cf in
  let registry_event :=
    Names.Snapshot (match rg_snapshot (ctl_registry control) with Some f => f w | None => [] end) in
  let pg_event := PgSnapshot (match pg_snapshot (ctl_pg control) with Some f => f w | None => [] end) in
  match encode_registry_event registry_event with
  | Err e => Err e
  | Ok r => match encode_pg_event pg_event with Err e => Err e | Ok p => Ok [r; p] end
  end.
Definition send_control_snapshots_to_peer (p : PeerId) : Call Lib () TransportError := λ lb,
  match snapshot_frames (lb_world lb) with
  | Err e => Some (Err e, lb)
  | Ok frames => Some (Ok (), foldl (λ lb frame, hand_over p frame lb) lb frames)
  end.

(** When a command fails its sending half is dropped. *)
Definition or_drop (r : ReplyTo) (m : Call Lib () TransportError) : Call Lib () TransportError := λ lb,
  '(x, lb) ← m lb; Some (x, match x with Ok _ => lb | Err _ => drop_tx r lb end).

Definition handle_command (cmd : RuntimeCommand) : Call Lib () TransportError :=
  match cmd with
  | CmdSend send => or_drop (ds_respond_to send) (
      _ ←? ensure_peer_dialed (ds_peer send);
      λ lb, Some (Ok (),
        if is_connected (ds_peer send) (lb_swarm lb) then dispatch_send send lb
        else set_deferred (lb_deferred lb ++ [send]) lb))
  | CmdBroadcast frame respond_to => or_drop respond_to (
      _ ←? for_each_call (λ p, _ ←? ensure_peer_dialed p; λ lb, Some (Ok (), hand_over p frame lb))
             (fst <$> map_to_list (cf_peer_to_node cf));
      λ lb, Some (Ok (), complete respond_to (Ok []) lb))
  | CmdSyncPeer p respond_to => or_drop respond_to (
      _ ←? ensure_peer_dialed p;
      _ ←? send_control_snapshots_to_peer p;
      λ lb, Some (Ok (), complete respond_to (Ok []) (set_synced ({[p]} ∪ lb_synced lb) lb)))
  end.

Definition apply_inbound_frame (frame : list byte) : Call W () TransportError :=
  if bool_decide (frame = []) then call_of (Ok ())
  else
    f ←? call_of (result_map_err WireErr (decode_cluster_frame frame));
    match f with
    | FRegistry ev => apply_registry_event (ctl_registry (cf_control cf)) ev
    | FPg ev => apply_pg_event (ctl_pg (cf_control cf)) ev
    | FSupervision envelope =>
        _ ←? apply_supervision debug (ctl_supervision (cf_control cf)) envelope; call_of (Ok ())
    | FActor _ => call_of (Ok ())
    end.

Definition handle_inbound_frame (frame : list byte) : Call W (list byte) TransportError :=
  f ←? call_of (result_map_err WireErr (decode_cluster_frame frame));
  match f with
  | FRegistry ev => _ ←? apply_registry_event (ctl_registry (cf_control cf)) ev; call_of (Ok [])
  | FPg ev => _ ←? apply_pg_event (ctl_pg (cf_control cf)) ev; call_of (Ok [])
  | FSupervision envelope =>
      reply ←? apply_supervision debug (ctl_supervision (cf_control cf)) envelope;
      call_of (match reply with Some r => encode_supervision r | None => Ok [] end)
  | FActor envelope =>
      let cid := we_correlation envelope in
      reply ←? cf_dispatch cf envelope;
      call_of (if decide (cid = 0%N) then Ok []
               else result_map_err WireErr (encode_wire_reply (mkWireReply cid (default [] reply))))
  end.

Definition handle_swarm_event (event : SwarmEvent PeerId Multiaddr RequestId Channel)
    : Call Lib () TransportError := λ lb,
  match event with
  | NewListenAddr address => Some (Ok (), set_listen_addrs (lb_listen_addrs lb ++ [address]) lb)
  | ConnectionEstablished p =>
      if decide (p ∈ lb_synced lb) then Some (Ok (), lb)
      else (_ ←? send_control_snapshots_to_peer p;
            λ lb, Some (Ok (), set_synced ({[p]} ∪ lb_synced lb) lb)) lb
  | InboundRequest channel request =>
      (response ←? on_lb_world (handle_inbound_frame request);
       λ lb, Some (Ok (), set_swarm (send_response channel response (lb_swarm lb)) lb)) lb
  | InboundResponse id response =>
      match lb_pending lb !! id with
      | Some tx => Some (Ok (), complete tx (Ok response) (set_pending (delete id (lb_pending lb)) lb))
      | None => on_lb_world (apply_inbound_frame response) lb
      end
  | _ => Some (Ok (), lb)
  end.
End thread.

(** ** The thread's loop and its callers *)

(** [cl_thread] is what the thread has returned, once it has; [cl_next]
    numbers the channels. *)
Record Cluster := mkCluster {
  cl_lib : Lib;
  cl_cmds : list RuntimeCommand;
  cl_shutdown : bool;
  cl_thread : option (Result () TransportError);
  cl_next : N
}.
Definition cluster_new (sw : Sw) (w : W) : Cluster :=
  mkCluster (mkLib sw w ∅ [] ∅ [] ∅) [] false None 0.

Definition respond_to_of (cmd : RuntimeCommand) : ReplyTo :=
  match cmd with
  | CmdSend send => ds_respond_to send
  | CmdBroadcast _ r | CmdSyncPeer _ r => r
  end.
Definition drop_all (l : list ReplyTo) lb : Lib := foldl (λ lb r, drop_tx r lb) lb l.

(** The thread returns: the receiver of the commands and the deferred sends
    are dropped; [pending] belongs to the handle too and stays. *)
Definition end_thread (r : Result () TransportError) (cmds : list RuntimeCommand) (lb : Lib) (s : Cluster) : Cluster :=
  mkCluster (drop_all ((respond_to_of <$> cmds) ++ (ds_respond_to <$> lb_deferred lb)) (set_deferred [] lb))
    [] (cl_shutdown s) (Some r) (cl_next s).

Section loop.
Context (cf : Config).

(** [while let Ok(cmd) = cmd_rx.try_recv()]; with what is left on an error. *)
Fixpoint drain (cmds : list RuntimeCommand) lb : option (Result () TransportError * list RuntimeCommand * Lib) :=
  match cmds with
  | [] => Some (Ok (), [], lb)
  | cmd :: cmds =>
      '(r, lb) ← handle_command cf cmd lb;
      match r with Ok _ => drain cmds lb | Err e => Some (Err e, cmds, lb) end
  end.

(** One round of the loop of [run_swarm_async]: [event] is what the swarm
    produces, [None] when the 20 milliseconds pass first. [None] as a result
    when the thread has ended, or does not return from a handler. *)
Definition run_swarm_round (event : option (SwarmEvent PeerId Multiaddr RequestId Channel)) (s : Cluster)
    : option Cluster :=
  match cl_thread s with
  | Some _ => None
  | None =>
      if cl_shutdown s then Some (end_thread (Ok ()) (cl_cmds s) (cl_lib s) s)
      else
        '(r, cmds, lb) ← drain (cl_cmds s) (cl_lib s);
        match r with
        | Err e => Some (end_thread (Err e) cmds lb s)
        | Ok _ =>
            let lb := flush_deferred_sends lb in
            match event with
            | None => Some (mkCluster lb [] false None (cl_next s))
            | Some event =>
                '(r, lb) ← handle_swarm_event cf event (set_swarm (occurs event (lb_swarm lb)) lb);
                match r with
                | Err e => Some (end_thread (Err e) [] lb s)
                | Ok _ => Some (mkCluster (flush_deferred_sends lb) [] false None (cl_next s))
                end
            end
        end
  end.

(** [cmd_tx.send] with a new channel. *)
Definition send_command (cmd : N → RuntimeCommand) (s : Cluster) : Result N TransportError * Cluster :=
  match cl_thread s with
  | Some _ => (Err Wire.RemoteUnreachable, s)
  | None =>
      let tx := cl_next s in
      (Ok tx, mkCluster (set_chans (<[tx := OsOpen]> (lb_chans (cl_lib s))) (cl_lib s)) (cl_cmds s ++ [cmd tx])
                (cl_shutdown s) None (tx + 1)%N)
  end.

(** [send_frame] and [send_frame_async] up to the wait. *)
Definition start_send (async : bool) (n : NodeId) (frame : list byte) (expect_reply : bool) (s : Cluster)
    : Result N TransportError * Cluster :=
  match cf_node_to_peer cf !! n with
  | None => (Err Wire.RemoteUnreachable, s)
  | Some p => send_command (λ tx, CmdSend (mkDeferred p frame expect_reply (reply_to async tx))) s
  end.

(** The wait: [recv_timeout] of 30 seconds, which have passed when [expired]
    is set, or the await of a oneshot. [None] is a wait that goes on. *)
Definition wait_reply (async expired : bool) (tx : N) (s : Cluster)
    : option (Result (list byte) TransportError) :=
  match lb_chans (cl_lib s) !! tx with
  | Some (OsSent r) => Some r
  | Some OsDropped => Some (Err Wire.RemoteUnreachable)
  | _ => if negb async && expired then Some (Err Wire.RemoteUnreachable) else None
  end.

Inductive LibLabel :=
| LibRound (event : option (SwarmEvent PeerId Multiaddr RequestId Channel))
| LibSend (async : bool) (n : NodeId) (frame : list byte) (expect_reply : bool)
| LibBroadcast (frame : list byte)
| LibSyncPeer (p : PeerId)
| LibShutdown.

Definition lib_step (l : LibLabel) (s : Cluster) : option Cluster :=
  match l with
  | LibRound event => run_swarm_round event s
  | LibSend async n frame expect_reply => Some (start_send async n frame expect_reply s).2
  | LibBroadcast frame => Some (send_command (λ tx, CmdBroadcast frame (SyncTx tx)) s).2
  | LibSyncPeer p => Some (send_command (λ tx, CmdSyncPeer p (SyncTx tx)) s).2
  | LibShutdown => Some (mkCluster (cl_lib s) (cl_cmds s) true (cl_thread s) (cl_next s))
  end.
Fixpoint lib_run (ls : list LibLabel) (s : Cluster) : option Cluster :=
  match ls with [] => Some s | l :: ls => s ← lib_step l s; lib_run ls s end.
End loop.
End libp2p.
Arguments Lib Sw PeerId Multiaddr RequestId {_ _ _ _} W.

(** ** Where the sending halves are *)

Section replies.
Context {Sw PeerId Multiaddr RequestId Channel : Type}.
Context `{Countable PeerId} `{Countable RequestId}.
Context `{SW : !SwarmOps Sw PeerId Multiaddr RequestId Channel, !SwarmLaws Sw PeerId Multiaddr RequestId Channel}.
Context {W : Type} `{Codecs} (debug : SupervisionEvent → string).
Abbreviation lib := (Lib Sw PeerId Multiaddr RequestId W).
Implicit Types (lb : lib) (q : list N) (r : ReplyTo).

Definition cmd_txs (cmds : list (RuntimeCommand (PeerId := PeerId))) : list N := (λ c, tx_of (respond_to_of c)) <$> cmds.
Definition deferred_txs lb : list N := (λ d, tx_of (ds_respond_to d)) <$> lb_deferred lb.
Definition pending_txs lb : list N := (λ e, tx_of e.2) <$> map_to_list (lb_pending lb).
Definition held lb : list N := deferred_txs lb ++ pending_txs lb.

(** Besides those in [lb], [q] are the sending halves that exist: each exists
    once, and they are those of the channels that are open. *)
Record lib_inv q lb : Prop := {
  li_nodup : NoDup (q ++ held lb);
  li_open tx : tx ∈ q ++ held lb ↔ lb_chans lb !! tx = Some OsOpen;
  li_issued id : is_Some (lb_pending lb !! id) → id ∈ (outbound (lb_swarm lb)).*1
}.

(** A channel that is settled, or does not exist, stays as it is. *)
Definition settled lb lb' : Prop :=
  ∀ tx, lb_chans lb !! tx ≠ Some OsOpen → lb_chans lb' !! tx = lb_chans lb !! tx.
#[local] Instance settled_preorder : PreOrder settled.
Proof.
  split; [by intros ? ?|]. intros x y z Hxy Hyz tx Ht. rewrite Hyz; rewrite Hxy by done; done.
Qed.

(** A pending request stays pending until it gets a response. *)
Definition answered lb r : Prop := ∃ b, lb_chans lb !! tx_of r = Some (OsSent (Ok b)).
Definition pends lb lb' : Prop :=
  ∀ id r, lb_pending lb !! id = Some r → lb_pending lb' !! id = Some r ∨ answered lb' r.
Lemma pends_subseteq lb lb' : lb_pending lb ⊆ lb_pending lb' → pends lb lb'.
Proof. intros Hsub id r Hr. left. by eapply lookup_weaken. Qed.

(** What an operation does that takes over the halves [q] and leaves [q']. *)
Definition moves q lb q' lb' : Prop := lib_inv q lb → lib_inv q' lb' ∧ settled lb lb' ∧ pends lb lb'.
Lemma moves_refl q lb : moves q lb q lb.
Proof. intros Hi. split_and!; [done|done|by apply pends_subseteq]. Qed.
Lemma moves_trans q1 lb1 q2 lb2 q3 lb3 :
  moves q1 lb1 q2 lb2 → moves q2 lb2 q3 lb3 → moves q1 lb1 q3 lb3.
Proof.
  intros Ha Hb Hi. destruct (Ha Hi) as (Hi2 & Hs & Hp). destruct (Hb Hi2) as (Hi3 & Hs' & Hp').
  split_and!; [done|by transitivity lb2|]. intros id r Hr. destruct (Hp id r Hr) as [Hr2|[b Hb2]]; [by apply Hp'|].
  right. exists b. rewrite Hs'; [done|congruence].
Qed.

Lemma lib_inv_perm q q' lb : q ≡ₚ q' → lib_inv q lb → lib_inv q' lb.
Proof.
  intros Hp [Hn Ho Hs]. split; [by rewrite <- Hp| |done]. intros tx. by rewrite <- Ho, Hp.
Qed.
Lemma moves_perm q1 q1' lb q2 q2' lb' :
  q1 ≡ₚ q1' → q2 ≡ₚ q2' → moves q1 lb q2 lb' → moves q1' lb q2' lb'.
Proof.
  intros Ha Hb Hm Hi. destruct (Hm (lib_inv_perm _ _ _ (symmetry Ha) Hi)) as [Hi' Hs].
  split; [by apply (lib_inv_perm q2)|exact Hs].
Qed.

(** A half is used up. *)
Lemma settle_moves q tx lb c :
  c ≠ OsOpen → moves (tx :: q) lb q (set_chans (<[tx := c]> (lb_chans lb)) lb).
Proof.
  intros Hc [Hn Ho Hs]. unfold held, deferred_txs, pending_txs in *.
  cbn [app] in *. apply NoDup_cons in Hn as [Hnot Hn]. split_and!; [split; simpl; [done| |done]| |by apply pends_subseteq].
  - intros t. destruct (decide (t = tx)) as [->|Ht].
    + rewrite lookup_insert_eq. split; [done|congruence].
    + rewrite lookup_insert_ne by done. rewrite <- Ho. set_solver.
  - intros t Ht. simpl. rewrite lookup_insert_ne; [done|]. intros ->. apply Ht, Ho. set_solver.
Qed.
Lemma complete_moves q r v lb : moves (tx_of r :: q) lb q (complete r v lb).
Proof. by apply settle_moves. Qed.
Lemma drop_moves q r lb : moves (tx_of r :: q) lb q (drop_tx r lb).
Proof. by apply settle_moves. Qed.
Lemma drop_all_moves l q lb : moves ((tx_of <$> l) ++ q) lb q (drop_all l lb).
Proof.
  revert lb. induction l as [|r l IH]; intros lb; [apply moves_refl|]. simpl.
  eapply moves_trans; [apply drop_moves|apply IH].
Qed.

(** Halves change places, and the swarm gets requests. *)
Lemma shift_inv q lb q' lb' :
  q' ++ held lb' ≡ₚ q ++ held lb → lb_chans lb' = lb_chans lb →
  (outbound (lb_swarm lb)).*1 ⊆ (outbound (lb_swarm lb')).*1 →
  (∀ id, is_Some (lb_pending lb' !! id) → is_Some (lb_pending lb !! id) ∨ id ∈ (outbound (lb_swarm lb')).*1) →
  lib_inv q lb → lib_inv q' lb'.
Proof.
  intros Hp Hc Ho Hid [Hn Hop Hs]. split.
  - by rewrite Hp.
  - intros tx. by rewrite Hp, Hc.
  - intros id [Hx|Hx]%Hid; [by apply Ho, Hs|done].
Qed.
Lemma shift_moves q lb q' lb' :
  q' ++ held lb' ≡ₚ q ++ held lb → lb_chans lb' = lb_chans lb →
  (outbound (lb_swarm lb)).*1 ⊆ (outbound (lb_swarm lb')).*1 →
  (∀ id, is_Some (lb_pending lb' !! id) → is_Some (lb_pending lb !! id) ∨ id ∈ (outbound (lb_swarm lb')).*1) →
  lb_pending lb ⊆ lb_pending lb' → moves q lb q' lb'.
Proof.
  intros Hp Hc Ho Hid Hsub Hi.
  split_and!; [by eapply shift_inv|intros tx _; by rewrite Hc|by apply pends_subseteq].
Qed.
Lemma same_moves q lb lb' :
  lb_pending lb' = lb_pending lb → lb_deferred lb' = lb_deferred lb → lb_chans lb' = lb_chans lb →
  (outbound (lb_swarm lb)).*1 ⊆ (outbound (lb_swarm lb')).*1 → moves q lb q lb'.
Proof.
  intros Hp Hd Hc Ho. apply shift_moves; [|done|done| |by rewrite Hp].
  - unfold held, deferred_txs, pending_txs. by rewrite Hp, Hd.
  - intros id. rewrite Hp. by left.
Qed.
Lemma hand_over_moves q p f lb : moves q lb q (hand_over p f lb).
Proof. apply same_moves; [done..|]. simpl. rewrite outbound_send, fmap_app. set_solver. Qed.
Lemma hand_all_moves q p fs lb : moves q lb q (foldl (λ lb f, hand_over p f lb) lb fs).
Proof.
  revert lb. induction fs as [|f fs IH]; intros lb; [apply moves_refl|]. simpl.
  eapply moves_trans; [apply hand_over_moves|apply IH].
Qed.

(** Rearranging the lists of halves. *)
Ltac solve_held :=
  unfold held, deferred_txs, pending_txs; simpl; rewrite ?fmap_app; cbn [fmap list_fmap snd];
  solve_Permutation.

Lemma defer_moves q send lb :
  moves (tx_of (ds_respond_to send) :: q) lb q (set_deferred (lb_deferred lb ++ [send]) lb).
Proof. apply shift_moves; [solve_held|done|done|by left|done]. Qed.
Lemma pend_moves q id r lb :
  lb_pending lb !! id = None → id ∈ (outbound (lb_swarm lb)).*1 →
  moves (tx_of r :: q) lb q (set_pending (<[id := r]> (lb_pending lb)) lb).
Proof.
  intros Hid Hin. apply shift_moves; [|done|done| |by apply insert_subseteq].
  - unfold held, pending_txs. simpl. rewrite map_to_list_insert by done. solve_held.
  - intros id' Hx. destruct (decide (id' = id)) as [->|Hne]; [by right|left].
    simpl in Hx. by rewrite lookup_insert_ne in Hx.
Qed.

Lemma dispatch_send_moves q send lb : moves (tx_of (ds_respond_to send) :: q) lb q (dispatch_send send lb).
Proof.
  unfold dispatch_send.
  pose proof (hand_over_moves (tx_of (ds_respond_to send) :: q) (ds_peer send) (ds_frame send) lb) as Hm.
  pose proof (outbound_fresh (ds_peer send) (ds_frame send) (lb_swarm lb)) as Hf.
  pose proof (outbound_send (ds_peer send) (ds_frame send) (lb_swarm lb)) as Ho.
  unfold hand_over in Hm. destruct (send_request _ _ _) as [id sw]. cbn [fst snd] in *.
  destruct (ds_expect_reply send); [|eapply moves_trans; [apply Hm|apply complete_moves]].
  intros Hi. assert (lb_pending lb !! id = None) as Hid.
  { apply eq_None_not_Some. intros Hx. by apply Hf, (li_issued _ _ Hi). }
  cbn [lb_pending set_swarm]. rewrite Hid. revert Hi.
  eapply moves_trans; [apply Hm|]. apply pend_moves; [done|]. simpl. rewrite Ho, fmap_app. set_solver.
Qed.
Lemma dispatch_send_deferred send lb : lb_deferred (dispatch_send send lb) = lb_deferred lb.
Proof.
  unfold dispatch_send. destruct (send_request _ _ _). destruct (ds_expect_reply send); [|done].
  simpl. by case_match.
Qed.

Lemma flush_from_moves sends : ∀ remaining q lb,
  lb_deferred lb = [] →
  moves (((λ d, tx_of (ds_respond_to d)) <$> remaining ++ sends) ++ q) lb q (flush_from sends remaining lb).
Proof.
  induction sends as [|send sends IH]; intros remaining q lb Hd.
  - apply shift_moves; [|done|done|by left|done]. unfold held, deferred_txs. rewrite Hd, app_nil_r. solve_held.
  - cbn [flush_from]. case_match.
    + eapply moves_perm; [| |eapply moves_trans;
        [apply (dispatch_send_moves _ send)|apply (IH remaining q); by rewrite dispatch_send_deferred]]; [|done].
      solve_held.
    + eapply moves_perm; [| |apply (IH (remaining ++ [send]) q lb Hd)]; [|done]. by rewrite <- app_assoc.
Qed.
Lemma flush_moves q lb : moves q lb q (flush_deferred_sends lb).
Proof.
  eapply moves_trans; [|apply (flush_from_moves (lb_deferred lb) [] q (set_deferred [] lb) eq_refl)].
  apply shift_moves; [solve_held|done|done|by left|done].
Qed.

Section moving.
Context (cf : Config (PeerId := PeerId) (Multiaddr := Multiaddr) (W := W)).

(** A call that neither takes nor gives halves. *)
Definition neutral (m : Call lib () TransportError) : Prop :=
  ∀ q lb x lb', m lb = Some (x, lb') → moves q lb q lb'.
Lemma neutral_bind (m1 m2 : Call lib () TransportError) :
  neutral m1 → neutral m2 → neutral (_ ←? m1; m2).
Proof.
  intros Ha Hb q lb x lb'. unfold call_bind. destruct (m1 lb) as [[[[]|e] lb1]|] eqn:Hm1; [| |done]; simpl.
  - intros Hm2. eapply moves_trans; [by apply (Ha q lb _ lb1 Hm1)|by apply (Hb q lb1 x)].
  - intros [= <- <-]. by apply (Ha q lb _ lb1 Hm1).
Qed.
Lemma neutral_pure (f : lib → lib) : (∀ q lb, moves q lb q (f lb)) → neutral (λ lb, Some (Ok (), f lb)).
Proof. intros Hf q lb x lb' [= <- <-]. apply Hf. Qed.
Lemma neutral_for_each {T} (f : T → Call lib () TransportError) l :
  (∀ x, neutral (f x)) → neutral (for_each_call f l).
Proof.
  intros Hf. induction l as [|x l IH]; [|by apply neutral_bind].
  intros q lb x lb' [= <- <-]. apply moves_refl.
Qed.
Lemma dialed_neutral p : neutral (ensure_peer_dialed cf p).
Proof.
  intros q lb x lb'. unfold ensure_peer_dialed. case_match; [by intros [= <- <-]; apply moves_refl|].
  destruct (cf_peer_addrs cf !! p) as [a|]; [|by intros [= <- <-]; apply moves_refl].
  pose proof (outbound_dial _ _ _ _ _ a (lb_swarm lb)) as Ho. destruct (dial a _) as [r sw].
  intros [= <- <-]. apply same_moves; [done..|]. simpl in *. by rewrite Ho.
Qed.
Lemma snapshots_neutral p : neutral (send_control_snapshots_to_peer cf p).
Proof.
  intros q lb x lb'. unfold send_control_snapshots_to_peer.
  destruct (snapshot_frames _ _); intros [= <- <-]; [apply hand_all_moves|apply moves_refl].
Qed.
Lemma on_world_neutral {T} (m : Call W T TransportError) q lb x lb' :
  on_lb_world m lb = Some (x, lb') → moves q lb q lb'.
Proof.
  unfold on_lb_world. destruct (m _) as [[r w]|]; [|done]. intros [= <- <-]. by apply same_moves.
Qed.

(** A command that takes over the half of its caller. *)
Lemma or_drop_moves r (m k : Call lib () TransportError) q lb x lb' :
  neutral m → (∀ q lb x lb', k lb = Some (x, lb') → x = Ok () ∧ moves (tx_of r :: q) lb q lb') →
  or_drop r (_ ←? m; k) lb = Some (x, lb') → moves (tx_of r :: q) lb q lb'.
Proof.
  intros Hm Hk. unfold or_drop, call_bind. destruct (m lb) as [[[[]|e] lb1]|] eqn:Hm1; [| |done]; simpl.
  - destruct (k lb1) as [[x1 lb2]|] eqn:Hk1; [|done]. destruct (Hk q _ _ _ Hk1) as [-> Hmv]. simpl.
    intros [= <- <-]. eapply moves_trans; [by apply (Hm _ lb _ lb1 Hm1)|done].
  - intros [= <- <-]. eapply moves_trans; [by apply (Hm _ lb _ lb1 Hm1)|apply drop_moves].
Qed.

Lemma handle_command_moves cmd q lb x lb' :
  handle_command cf cmd lb = Some (x, lb') → moves (tx_of (respond_to_of cmd) :: q) lb q lb'.
Proof.
  destruct cmd as [send|frame r|p r]; simpl; intros Hc.
  - eapply or_drop_moves; [| |exact Hc]; [apply dialed_neutral|].
    intros q' lb1 x' lb2 [= <- <-]. split; [done|]. case_match; [apply dispatch_send_moves|apply defer_moves].
  - eapply or_drop_moves; [| |exact Hc].
    + apply neutral_for_each. intros p. apply neutral_bind; [apply dialed_neutral|].
      apply neutral_pure. intros. apply hand_over_moves.
    + intros q' lb1 x' lb2 [= <- <-]. split; [done|apply complete_moves].
  - assert (or_drop r (_ ←? (_ ←? ensure_peer_dialed cf p; send_control_snapshots_to_peer cf p);
      λ lb, Some (Ok (), complete r (Ok []) (set_synced ({[p]} ∪ lb_synced lb) lb))) lb = Some (x, lb')) as Hc'.
    { rewrite <- Hc. unfold or_drop, call_bind. by destruct (ensure_peer_dialed cf p lb) as [[[] ?]|]. }
    eapply or_drop_moves; [| |exact Hc']; [apply neutral_bind; [apply dialed_neutral|apply snapshots_neutral]|].
    intros q' lb1 x' lb2 [= <- <-]. split; [done|].
    eapply moves_trans; [|apply complete_moves]. by apply same_moves.
Qed.

Lemma handle_swarm_event_moves ev q lb x lb' :
  handle_swarm_event (Channel := Channel) debug cf ev lb = Some (x, lb') → moves q lb q lb'.
Proof.
  destruct ev as [a|p|ch req|id resp|id|p|p|]; simpl; intros Hh.
  - injection Hh as <- <-. by apply same_moves.
  - case_decide; [injection Hh as <- <-; apply moves_refl|]. revert Hh.
    apply neutral_bind; [apply snapshots_neutral|]. apply neutral_pure. intros. by apply same_moves.
  - unfold call_bind in Hh. destruct (on_lb_world _ lb) as [[[r|e] lb1]|] eqn:Hw; [| |done]; simpl in Hh.
    + injection Hh as <- <-. eapply moves_trans; [by eapply on_world_neutral|].
      apply same_moves; [done..|]. simpl. by rewrite outbound_response.
    + injection Hh as <- <-. by eapply on_world_neutral.
  - destruct (lb_pending lb !! id) as [r|] eqn:Hid; [|by eapply on_world_neutral]. injection Hh as <- <-.
    intros Hi. apply (shift_inv q lb (tx_of r :: q) (set_pending (delete id (lb_pending lb)) lb)) in Hi; [|clear Hi|done|done|clear Hi].
    { destruct (complete_moves q r (Ok resp) _ Hi) as (Hi' & Hs & _). split_and!; [done|exact Hs|].
      intros id' r' Hr'. destruct (decide (id' = id)) as [->|Hne].
      - right. rewrite Hid in Hr'. injection Hr' as <-. exists resp. apply lookup_insert_eq.
      - left. simpl. by rewrite lookup_delete_ne. }
    + pose proof (map_to_list_delete (lb_pending lb) id r Hid) as Hp.
      unfold held, pending_txs. simpl. rewrite <- Hp. solve_held.
    + intros id' Hx. left. simpl in Hx. destruct Hx as [y Hx]. apply lookup_delete_Some in Hx as [_ Hx]. by exists y.
  - injection Hh as <- <-. apply moves_refl.
  - injection Hh as <- <-. apply moves_refl.
  - injection Hh as <- <-. apply moves_refl.
  - injection Hh as <- <-. apply moves_refl.
Qed.

Lemma drain_moves cmds : ∀ q lb x rest lb',
  drain cf cmds lb = Some (x, rest, lb') → moves (cmd_txs cmds ++ q) lb (cmd_txs rest ++ q) lb' ∧ (x = Ok () → rest = []).
Proof.
  induction cmds as [|cmd cmds IH]; intros q lb x rest lb'; simpl.
  - intros [= <- <- <-]. split; [apply moves_refl|done].
  - destruct (handle_command cf cmd lb) as [[[[]|e] lb1]|] eqn:Hc; [| |done]; simpl.
    + intros Hd. destruct (IH q _ _ _ _ Hd) as [Hm Hr]. split; [|done].
      eapply moves_trans; [by apply (handle_command_moves cmd _ lb (Ok ()) lb1 Hc)|done].
    + intros [= <- <- <-]. split; [|done]. by apply (handle_command_moves cmd _ lb (Err e) lb1 Hc).
Qed.

(** ** Clusters *)

Implicit Types s : Cluster (Sw := Sw) (PeerId := PeerId) (Multiaddr := Multiaddr) (RequestId := RequestId) (W := W).

Record cl_inv s : Prop := {
  ci_lib : lib_inv (cmd_txs (cl_cmds s)) (cl_lib s);
  ci_next tx : (cl_next s ≤ tx)%N → lb_chans (cl_lib s) !! tx = None;
  ci_ended : is_Some (cl_thread s) → cl_cmds s = [] ∧ lb_deferred (cl_lib s) = []
}.
Definition kept s s' : Prop :=
  (∀ tx v, lb_chans (cl_lib s) !! tx = Some v → v ≠ OsOpen → lb_chans (cl_lib s') !! tx = Some v) ∧
  pends (cl_lib s) (cl_lib s').

Lemma settled_kept s s' : settled (cl_lib s) (cl_lib s') → pends (cl_lib s) (cl_lib s') → kept s s'.
Proof. intros Hs Hp. split; [|done]. intros tx v Hv Hne. rewrite Hs; [done|]. rewrite Hv. congruence. Qed.
Lemma kept_refl s : kept s s.
Proof. split; [done|by apply pends_subseteq]. Qed.
Lemma kept_trans s1 s2 s3 : kept s1 s2 → kept s2 s3 → kept s1 s3.
Proof.
  intros [Ha Hp] [Hb Hp']. split; [by eauto|]. intros id r Hr.
  destruct (Hp id r Hr) as [Hr2|[b Hb2]]; [by apply Hp'|]. right. exists b. by apply Hb.
Qed.

(** The thread's own steps. *)
Lemma thread_step s s' :
  cl_inv s → moves (cmd_txs (cl_cmds s)) (cl_lib s) (cmd_txs (cl_cmds s')) (cl_lib s') →
  cl_next s' = cl_next s → (is_Some (cl_thread s') → cl_cmds s' = [] ∧ lb_deferred (cl_lib s') = []) →
  cl_inv s' ∧ kept s s'.
Proof.
  intros [Hl Hn He] Hm Hnx He'. destruct (Hm Hl) as (Hl' & Hs & Hp). split; [|by apply settled_kept].
  split; [done| |done]. rewrite Hnx. intros tx Htx. rewrite Hs; rewrite Hn by done; done.
Qed.

Lemma end_thread_moves x cmds lb s q :
  moves (cmd_txs cmds ++ q) lb q (cl_lib (end_thread x cmds lb s)).
Proof.
  simpl. eapply moves_trans; [|apply (drop_all_moves
    ((respond_to_of <$> cmds) ++ (ds_respond_to <$> lb_deferred lb)) q (set_deferred [] lb))].
  apply shift_moves; [|done|done|by left|done]. unfold held, deferred_txs, pending_txs, cmd_txs. simpl.
  rewrite fmap_app, <- !list_fmap_compose. unfold compose. solve_Permutation.
Qed.
Lemma end_thread_deferred x cmds lb s : lb_deferred (cl_lib (end_thread x cmds lb s)) = [].
Proof.
  unfold end_thread. simpl.
  generalize ((respond_to_of <$> cmds) ++ (ds_respond_to <$> lb_deferred lb)) (set_deferred [] lb) (eq_refl : lb_deferred (set_deferred [] lb) = []).
  intros l. induction l as [|r l IH]; intros lb' Hd; [done|]. by apply IH.
Qed.

Lemma round_step ev s s' :
  cl_inv s → run_swarm_round debug cf ev s = Some s' → cl_inv s' ∧ kept s s'.
Proof.
  intros Hi. unfold run_swarm_round. destruct (cl_thread s); [done|]. destruct (cl_shutdown s).
  { intros [= <-]. apply thread_step; [done| |done|]; [|by rewrite end_thread_deferred].
    rewrite <- (app_nil_r (cmd_txs (cl_cmds s))). apply end_thread_moves. }
  destruct (drain cf (cl_cmds s) (cl_lib s)) as [[[x rest] lb]|] eqn:Hd; [|done]. cbn [mbind option_bind].
  destruct (drain_moves _ [] _ _ _ _ Hd) as [Hm Hr]. rewrite !app_nil_r in Hm.
  destruct x as [[]|e].
  2: { intros [= <-]. apply thread_step; [done| |done|]; [|by rewrite end_thread_deferred].
       eapply moves_trans; [exact Hm|]. rewrite <- (app_nil_r (cmd_txs rest)). apply end_thread_moves. }
  rewrite (Hr eq_refl) in Hm.
  pose proof (moves_trans _ _ _ _ _ _ Hm (flush_moves _ lb)) as Hm'. destruct ev as [ev|].
  2: { intros [= <-]. apply thread_step; [done|exact Hm'|done|by intros [? ?]]. }
  set (lb1 := flush_deferred_sends lb) in *.
  destruct (handle_swarm_event debug cf ev (set_swarm (occurs ev (lb_swarm lb1)) lb1)) as [[x lb2]|] eqn:Hh; [|done].
  cbn [mbind option_bind].
  assert (moves (cmd_txs (cl_cmds s)) (cl_lib s) [] lb2) as Hm2.
  { eapply moves_trans; [exact Hm'|]. eapply moves_trans; [|by eapply handle_swarm_event_moves].
    apply same_moves; [done..|]. simpl. by rewrite outbound_occurs. }
  destruct x as [[]|e]; intros [= <-].
  - apply thread_step; [done| |done|by intros [? ?]]. eapply moves_trans; [exact Hm2|apply flush_moves].
  - apply thread_step; [done| |done|]; [|by rewrite end_thread_deferred].
    eapply moves_trans; [exact Hm2|]. apply (end_thread_moves (Err e) [] lb2 s []).
Qed.

Lemma command_step mk s :
  (∀ tx, tx_of (respond_to_of (mk tx)) = tx) → cl_inv s →
  cl_inv (send_command mk s).2 ∧ kept s (send_command mk s).2.
Proof.
  intros Hmk Hi. unfold send_command. destruct (cl_thread s) eqn:Ht; [by split; [|apply kept_refl]|].
  destruct Hi as [[Hn Ho Hs] Hnx He]. set (tx := cl_next s) in *.
  assert (lb_chans (cl_lib s) !! tx = None) as Hfree by by apply Hnx.
  assert (tx ∉ cmd_txs (cl_cmds s) ++ held (cl_lib s)) as Hnew by (rewrite Ho, Hfree; done).
  assert (cmd_txs (cl_cmds s ++ [mk tx]) ++ held (cl_lib s) ≡ₚ tx :: cmd_txs (cl_cmds s) ++ held (cl_lib s)) as Hp.
  { unfold cmd_txs. rewrite fmap_app. cbn [fmap list_fmap]. rewrite Hmk. solve_Permutation. }
  split; [split|].
  - split; simpl; [| |done].
    + change (held (set_chans _ _)) with (held (cl_lib s)). rewrite Hp. by apply NoDup_cons.
    + intros t. change (held (set_chans _ _)) with (held (cl_lib s)). rewrite Hp, elem_of_cons, Ho.
      destruct (decide (t = tx)) as [->|Hne]; [rewrite lookup_insert_eq; naive_solver|].
      rewrite lookup_insert_ne by done. naive_solver.
  - simpl. intros t Hle. rewrite lookup_insert_ne by lia. apply Hnx. lia.
  - simpl. by intros [? ?].
  - split; [|by apply pends_subseteq].
    intros t v Hv Hne. simpl. rewrite lookup_insert_ne; [done|]. congruence.
Qed.

Lemma lib_step_inv l s s' : cl_inv s → lib_step debug cf l s = Some s' → cl_inv s' ∧ kept s s'.
Proof.
  intros Hi. destruct l as [ev|async n frame er|frame|p|]; simpl.
  - by apply round_step.
  - intros [= <-]. unfold start_send. destruct (cf_node_to_peer cf !! n); [|by split; [|apply kept_refl]].
    apply command_step; [|done]. intros tx. by destruct async.
  - intros [= <-]. by apply command_step.
  - intros [= <-]. by apply command_step.
  - intros [= <-]. destruct Hi. by split; [|split; [|by apply pends_subseteq]].
Qed.
Lemma lib_run_inv ls : ∀ s s', cl_inv s → lib_run debug cf ls s = Some s' → cl_inv s' ∧ kept s s'.
Proof.
  induction ls as [|l ls IH]; intros s s' Hi; simpl; [intros [= <-]; by split; [|apply kept_refl]|].
  destruct (lib_step debug cf l s) as [s1|] eqn:Hs; [|done]. cbn [mbind option_bind]. intros Hr.
  destruct (lib_step_inv _ _ _ Hi Hs) as [Hi1 Hk1]. destruct (IH _ _ Hi1 Hr) as [Hi2 Hk2].
  split; [done|]. by eapply kept_trans.
Qed.
Lemma cluster_new_inv sw w : cl_inv (cluster_new sw w).
Proof.
  split; simpl; [|done|by intros [? ?]]. split; unfold held, deferred_txs, pending_txs; simpl.
  - rewrite map_to_list_empty. apply NoDup_nil_2.
  - intros tx. rewrite map_to_list_empty. by split; [intros Hx%elem_of_nil|].
  - by intros id [? ?].
Qed.

(** All sending halves that exist. *)
Definition waiting s : list N := cmd_txs (cl_cmds s) ++ held (cl_lib s).

(** C19: Every caller is answered at most once and none is forgotten. In any run,
    whatever the network does, each caller that has not been answered is in
    exactly one place, among the queued commands, the deferred sends or the
    pending requests; an answer is never replaced; a pending request stays
    one until its response arrives; and when the thread has ended, the
    callers that are left are those of the pending requests. *)
Theorem callers_answered_once ls sw w s :
  lib_run debug cf ls (cluster_new sw w) = Some s →
  NoDup (waiting s) ∧ (∀ tx, lb_chans (cl_lib s) !! tx = Some OsOpen ↔ tx ∈ waiting s) ∧
  (is_Some (cl_thread s) → waiting s = pending_txs (cl_lib s)) ∧
  ∀ ls' s', lib_run debug cf ls' s = Some s' →
    (∀ tx v, lb_chans (cl_lib s) !! tx = Some v → v ≠ OsOpen → lb_chans (cl_lib s') !! tx = Some v) ∧
    (∀ id r, lb_pending (cl_lib s) !! id = Some r → lb_pending (cl_lib s') !! id = Some r ∨
       ∃ b, lb_chans (cl_lib s') !! tx_of r = Some (OsSent (Ok b))).
Proof.
  intros Hr. destruct (lib_run_inv _ _ _ (cluster_new_inv sw w) Hr) as [Hi _].
  destruct (ci_lib _ Hi) as [Hn Ho _]. split_and!; [done|by intros tx; rewrite Ho| |].
  - intros [Hc Hd]%(ci_ended _ Hi). unfold waiting, held, deferred_txs. by rewrite Hc, Hd.
  - intros ls' s' Hr'. by destruct (lib_run_inv _ _ _ Hi Hr') as [_ Hk].
Qed.

(** A request that fails is never told so. Once a request has been given to
    the swarm its caller gets a response or nothing: not even the failure
    that the swarm reports, nor the end of the thread, ends the wait. A
    caller of the synchronous interface gives up after 30 seconds; one of the
    asynchronous interface waits for ever when no response comes. *)
Theorem failed_request_not_told ls sw w s id r ls' s' :
  lib_run debug cf ls (cluster_new sw w) = Some s → lb_pending (cl_lib s) !! id = Some r →
  lib_run debug cf ls' s = Some s' →
  (∃ b, ∀ async expired, wait_reply async expired (tx_of r) s' = Some (Ok b)) ∨
  (∀ expired, wait_reply true expired (tx_of r) s' = None).
Proof.
  intros Hr Hid Hr'. destruct (lib_run_inv _ _ _ (cluster_new_inv sw w) Hr) as [Hi _].
  destruct (lib_run_inv _ _ _ Hi Hr') as [Hi' [_ Hp]]. unfold wait_reply.
  destruct (Hp id r Hid) as [Hr2|[b Hb]]; [right|left; exists b; by rewrite Hb].
  intros expired. rewrite (proj1 (li_open _ _ (ci_lib _ Hi') (tx_of r))); [done|].
  apply elem_of_app. right. unfold held. apply elem_of_app. right. unfold pending_txs.
  apply list_elem_of_fmap. exists (id, r). split; [done|]. by apply elem_of_map_to_list.
Qed.
End moving.
End replies.

(** ** The same service as over TCP *)

Section service.
Context {PeerId Multiaddr W : Type} `{Countable PeerId} `{Codecs} (debug : SupervisionEvent → string).
Context (cf : Config (PeerId := PeerId) (Multiaddr := Multiaddr) (W := W)).

(** The codec is that of the TCP transport. *)
Lemma frame_async_eq body input :
  write_frame_async body = write_frame body ∧ read_frame_async input = read_frame input.
Proof. split; [done|]. unfold read_frame_async, read_frame. by destruct (read_exact 4 input) as [[] ?]. Qed.

(** C20: A node serves a frame in the same way over both transports: the same
    handlers run with the same effect and the same errors, and the response
    is the frame that the TCP server writes, or empty when it writes none. *)
Theorem serves_like_tcp n frame out w :
  let sv := mkServer n (cf_dispatch cf) (cf_control cf) in
  match handle_inbound_frame debug cf frame w with
  | None => serve_frame debug sv frame (out, w) = None
  | Some (Err e, w') => serve_frame debug sv frame (out, w) = Some (Err e, (out, w'))
  | Some (Ok response, w') =>
      serve_frame debug sv frame (out, w) = out_write response (out, w') ∨
      (response = [] ∧ serve_frame debug sv frame (out, w) = Some (Ok (), (out, w')))
  end.
Proof.
  intros sv. unfold handle_inbound_frame, serve_frame, call_bind, call_of, on_world.
  destruct (decode_cluster_frame frame) as [f|e]; [|done]. cbn [result_map_err mbind option_bind].
  destruct f as [env|ev|ev|env]; cbn [sv_dispatch sv_control sv snd fst].
  - destruct (cf_dispatch cf env w) as [[[p|e] w']|]; [|done|done]. cbn [mbind option_bind].
    case_decide; [by right|]. destruct (encode_wire_reply _); [by left|done].
  - destruct (apply_registry_event _ ev w) as [[[[]|e] w']|]; cbn; [by right|done|done].
  - destruct (apply_pg_event _ ev w) as [[[[]|e] w']|]; cbn; [by right|done|done].
  - destruct (apply_supervision _ _ env w) as [[[[r|]|e] w']|]; cbn [mbind option_bind]; [|by right|done|done].
    destruct (encode_supervision r); [by left|done].
Qed.
End service.

(** ** What stops a node, and what a peer is told *)

Section events.
Context {Sw PeerId Multiaddr RequestId Channel : Type}.
Context `{Countable PeerId} `{Countable RequestId}.
Context `{SW : !SwarmOps Sw PeerId Multiaddr RequestId Channel, !SwarmLaws Sw PeerId Multiaddr RequestId Channel}.
Context {W : Type} `{Codecs} (debug : SupervisionEvent → string).
Context (cf : Config (PeerId := PeerId) (Multiaddr := Multiaddr) (W := W)).
Implicit Types s : Cluster (Sw := Sw) (PeerId := PeerId) (Multiaddr := Multiaddr) (RequestId := RequestId) (W := W).

(** The thread runs and has nothing to do. *)
Definition at_rest s : Prop :=
  cl_thread s = None ∧ cl_shutdown s = false ∧ cl_cmds s = [] ∧ lb_deferred (cl_lib s) = [].

Lemma flush_none lb : lb_deferred lb = [] → flush_deferred_sends (Sw := Sw) (W := W) (PeerId := PeerId)
  (Multiaddr := Multiaddr) (RequestId := RequestId) (Channel := Channel) lb = lb.
Proof. intros Hd. unfold flush_deferred_sends. rewrite Hd. destruct lb. simpl in *. by subst. Qed.

Lemma round_at_rest ev s :
  at_rest s →
  run_swarm_round debug cf (Some ev) s =
    '(x, lb) ← handle_swarm_event (Channel := Channel) debug cf ev
                 (set_swarm (occurs ev (lb_swarm (cl_lib s))) (cl_lib s));
    Some (match x with
          | Err e => end_thread (Err e) [] lb s
          | Ok _ => mkCluster (flush_deferred_sends lb) [] false None (cl_next s)
          end).
Proof.
  intros (Ht & Hsh & Hc & Hd). unfold run_swarm_round. rewrite Ht, Hsh, Hc. cbn [drain mbind option_bind].
  rewrite flush_none by done. by destruct (handle_swarm_event _ _ _ _) as [[[] ?]|].
Qed.

Lemma hand_all_outbound p fs : ∀ lb : Lib Sw PeerId Multiaddr RequestId W,
  lb_deferred (foldl (λ lb f, hand_over p f lb) lb fs) = lb_deferred lb ∧
  snd <$> outbound (lb_swarm (foldl (λ lb f, hand_over p f lb) lb fs)) =
    (snd <$> outbound (lb_swarm lb)) ++ (pair p <$> fs).
Proof.
  induction fs as [|f fs IH]; intros lb; [by rewrite app_nil_r|]. simpl. destruct (IH (hand_over p f lb)) as [-> ->].
  split; [done|]. simpl. by rewrite outbound_send, fmap_app, <- app_assoc.
Qed.

(** One frame that a node cannot serve, from any peer, ends its transport: the
    thread returns, and every later command fails. It may be a frame that
    does not decode, or one that a hook or the dispatch refuses, such as a
    message to an actor that is not registered. *)
Theorem bad_frame_stops_node s channel request e w' :
  at_rest s → handle_inbound_frame debug cf request (lb_world (cl_lib s)) = Some (Err e, w') →
  ∃ s', run_swarm_round debug cf (Some (InboundRequest channel request)) s = Some s' ∧
    cl_thread s' = Some (Err e) ∧
    (∀ ev, run_swarm_round (Channel := Channel) debug cf ev s' = None) ∧
    (∀ async n frame er, start_send cf async n frame er s' = (Err Wire.RemoteUnreachable, s')).
Proof.
  intros Hs Hf. rewrite round_at_rest by done. cbn [handle_swarm_event]. unfold call_bind, on_lb_world.
  cbn [lb_world set_swarm]. rewrite Hf. cbn [mbind option_bind]. eexists. split_and!; [done|done|done|].
  intros async n frame er. unfold start_send. by destruct (cf_node_to_peer cf !! n).
Qed.

(** A peer is told the names and groups of this node on its first connection
    and not again: when it connects once more, perhaps after a restart in
    which it lost them, the swarm is given no request for it. *)
Theorem synced_on_first_connection s p frames :
  at_rest s → snapshot_frames cf (lb_world (cl_lib s)) = Ok frames →
  ∃ s', run_swarm_round (Channel := Channel) debug cf (Some (ConnectionEstablished p)) s = Some s' ∧
    at_rest s' ∧ p ∈ lb_synced (cl_lib s') ∧
    (snd <$> outbound (lb_swarm (cl_lib s'))) =
      (snd <$> outbound (lb_swarm (cl_lib s))) ++ (if decide (p ∈ lb_synced (cl_lib s)) then [] else pair p <$> frames).
Proof.
  intros Hs Hf. rewrite round_at_rest by done. destruct Hs as (Ht & Hsh & Hc & Hd).
  cbn [handle_swarm_event]. cbn [lb_synced set_swarm]. case_decide as Hin; cbn [mbind option_bind].
  { eexists. split; [done|]. rewrite flush_none by done. split_and!; [done|done|].
    cbn [cl_lib lb_swarm set_swarm]. by rewrite outbound_occurs, app_nil_r. }
  unfold call_bind, send_control_snapshots_to_peer. cbn [lb_world set_swarm]. rewrite Hf. cbn [mbind option_bind].
  eexists. split; [done|].
  set (lb0 := set_swarm (occurs (ConnectionEstablished p) (lb_swarm (cl_lib s))) (cl_lib s)).
  destruct (hand_all_outbound p frames lb0) as [Hdf Hof].
  rewrite flush_none by (simpl; by rewrite Hdf).
  split_and!; [by unfold at_rest; simpl; rewrite Hdf| |].
  - simpl. set_solver.
  - simpl. rewrite Hof. simpl. by rewrite outbound_occurs.
Qed.

(** What [dispatch_send] gives to the swarm, and what it leaves alone. *)
Lemma dispatch_send_outbound send (lb : Lib Sw PeerId Multiaddr RequestId W) :
  snd <$> outbound (lb_swarm (dispatch_send send lb)) =
    (snd <$> outbound (lb_swarm lb)) ++ [(ds_peer send, ds_frame send)] ∧
  (∀ q, is_connected q (lb_swarm (dispatch_send send lb)) = is_connected q (lb_swarm lb)).
Proof.
  unfold dispatch_send. pose proof (outbound_send (ds_peer send) (ds_frame send) (lb_swarm lb)) as Ho.
  pose proof (λ q, connected_send _ _ _ _ _ (ds_peer send) q (ds_frame send) (lb_swarm lb)) as Hc.
  destruct (send_request _ _ _) as [id sw]. cbn [fst snd] in *.
  destruct (ds_expect_reply send); [|by simpl; rewrite Ho, fmap_app].
  cbn [lb_pending set_swarm]. destruct (lb_pending lb !! id); simpl; by rewrite Ho, fmap_app.
Qed.

(** A deferred send goes out as soon as its peer is connected, in the order
    of the sends, and stays where it is otherwise. *)
Theorem flush_exact (lb : Lib Sw PeerId Multiaddr RequestId W) :
  let ready d := is_connected (ds_peer d) (lb_swarm lb) in
  let lb' := flush_deferred_sends lb in
  lb_deferred lb' = iter_filter (λ d, negb (ready d)) (lb_deferred lb) ∧
  snd <$> outbound (lb_swarm lb') = (snd <$> outbound (lb_swarm lb)) ++
    ((λ d, (ds_peer d, ds_frame d)) <$> iter_filter ready (lb_deferred lb)).
Proof.
  intros ready lb'. unfold lb', flush_deferred_sends.
  enough (∀ sends remaining lb1, (∀ q, is_connected q (lb_swarm lb1) = is_connected q (lb_swarm lb)) →
    lb_deferred (flush_from sends remaining lb1) = remaining ++ iter_filter (λ d, negb (ready d)) sends ∧
    snd <$> outbound (lb_swarm (flush_from sends remaining lb1)) = (snd <$> outbound (lb_swarm lb1)) ++
      ((λ d, (ds_peer d, ds_frame d)) <$> iter_filter ready sends)) as Hx
    by by apply (Hx _ [] (set_deferred [] lb)).
  induction sends as [|d sends IH]; intros remaining lb1 Hq; simpl; [by rewrite !app_nil_r|].
  rewrite Hq. change (is_connected (ds_peer d) (lb_swarm lb)) with (ready d). destruct (ready d); simpl.
  - destruct (dispatch_send_outbound d lb1) as [Ho Hc].
    destruct (IH remaining (dispatch_send d lb1)) as [-> ->]; [by intros q; rewrite Hc|]. split; [done|].
    by rewrite Ho, <- app_assoc.
  - destruct (IH (remaining ++ [d]) lb1 Hq) as [-> ->]. by rewrite <- app_assoc.
Qed.
End events.

(** ** Requests to a peer *)

Section requests.
Context {Sw PeerId Multiaddr RequestId Channel : Type}.
Context `{Countable PeerId} `{Countable RequestId}.
Context `{SW : !SwarmOps Sw PeerId Multiaddr RequestId Channel, !SwarmLaws Sw PeerId Multiaddr RequestId Channel}.
Context {W : Type} `{CodecsLaws} (debug : SupervisionEvent → string).
Abbreviation config := (Config (PeerId := PeerId) (Multiaddr := Multiaddr) (W := W)).
Abbreviation cluster := (Cluster (Sw := Sw) (PeerId := PeerId) (Multiaddr := Multiaddr) (RequestId := RequestId) (W := W)).
Abbreviation event := (SwarmEvent PeerId Multiaddr RequestId Channel).
Context (cf peer : config).
Implicit Types s : cluster.

(** A frame on a stream between two swarms, through the codec. *)
Definition carry (frame : list byte) : option (list byte) :=
  match write_frame_async frame with
  | Ok bs => match fst (read_frame_async bs) with Ok frame => Some frame | Err _ => None end
  | Err _ => None
  end.

(** The network takes the request that was given to the swarm after [sent]
    earlier ones, if there is one, to the peer, and brings its response back,
    or the failure when the peer does not respond. A frame that the peer's
    handler refuses ends the peer's thread ([bad_frame_stops_node]): its swarm
    is dropped and the connection is closed. *)
Definition peer_answers (sent : nat) s : option cluster :=
  match last (drop sent (outbound (lb_swarm (cl_lib s)))) with
  | None => Some s
  | Some (id, (p, frame)) =>
      match carry frame with
      | None => run_swarm_round debug cf (Some (OutboundFailure id : event)) s
      | Some frame =>
          '(r, w) ← handle_inbound_frame debug peer frame (lb_world (cl_lib s));
          let s := mkCluster (set_lb_world w (cl_lib s)) (cl_cmds s) (cl_shutdown s) (cl_thread s) (cl_next s) in
          match r with
          | Ok response =>
              run_swarm_round debug cf (Some (match carry response with
                | Some b => InboundResponse id b | None => OutboundFailure id end : event)) s
          | Err _ =>
              s ← run_swarm_round debug cf (Some (OutboundFailure id : event)) s;
              run_swarm_round debug cf (Some (ConnectionClosed p : event)) s
          end
      end
  end.

(** The end of [request_envelope]. *)
Definition read_reply (cid : N) (reply_bytes : list byte) : Result (list byte) TransportError :=
  if bool_decide (reply_bytes = []) then Ok []
  else match decode_reply_frame reply_bytes with
       | Err e => Err (WireErr e)
       | Ok reply =>
           if decide (wr_correlation reply ≠ cid)
           then Err (Protocol ("correlation mismatch: expected " +:+ pretty cid +:+ ", got " +:+
                               pretty (wr_correlation reply)))
           else Ok (wr_payload reply)
       end.

(** [send_frame], when the thread takes the command at once and the peer
    answers at once or not at all; the caller waits for the answer or its 30
    seconds. *)
Definition send_frame (n : NodeId) (frame : list byte) (expect_reply : bool) : Call cluster (list byte) TransportError := λ s,
  match start_send cf false n frame expect_reply s with
  | (Err e, s) => Some (Err e, s)
  | (Ok tx, s) =>
      let sent := length (outbound (lb_swarm (cl_lib s))) in
      s ← run_swarm_round debug cf (None : option event) s; s ← peer_answers sent s;
      r ← wait_reply false true tx s; Some (r, s)
  end.

(** [Transport for Libp2pCluster] *)
Definition libp2p_send_envelope (env : WireEnvelope) : Call cluster () TransportError :=
  if decide (we_correlation env ≠ 0%N)
  then call_of (Err (Protocol "fire-and-forget envelope must use correlation_id 0"))
  else
    bytes ←? call_of (result_map_err WireErr (encode_cluster_frame (FActor env)));
    _ ←? send_frame (node (we_to env)) bytes false; call_of (Ok ()).
Definition libp2p_request_envelope (env : WireEnvelope) : Call cluster (list byte) TransportError :=
  let cid := we_correlation env in
  if decide (cid = 0%N) then call_of (Err (Protocol "request envelope requires non-zero correlation id"))
  else
    bytes ←? call_of (result_map_err WireErr (encode_cluster_frame (FActor env)));
    reply_bytes ←? send_frame (node (we_to env)) bytes true; call_of (read_reply cid reply_bytes).
Definition libp2p_transport : Transport cluster := mkTransport libp2p_send_envelope libp2p_request_envelope.

(** ** The promise to remote references *)

Definition connected_to (n : NodeId) s : Prop :=
  at_rest s ∧ cl_inv s ∧ ∃ p, cf_node_to_peer cf !! n = Some p ∧ is_connected p (lb_swarm (cl_lib s)) = true.

Lemma carry_fits frame out : write_frame frame = Ok out → carry frame = Some frame.
Proof.
  intros Hw. unfold carry. destruct (frame_async_eq frame out) as [-> Hr]. rewrite Hw, Hr.
  pose proof (read_back frame out [] Hw) as Hb. rewrite app_nil_r in Hb. by rewrite Hb.
Qed.

(** The command is taken and given to the swarm. *)
Lemma request_sent n s bytes :
  connected_to n s →
  ∃ p id lb, start_send cf false n bytes true s = (Ok (cl_next s),
      mkCluster (set_chans (<[cl_next s := OsOpen]> (lb_chans (cl_lib s))) (cl_lib s))
        [CmdSend (mkDeferred p bytes true (SyncTx (cl_next s)))] false None (cl_next s + 1)) ∧
    run_swarm_round debug cf (None : option event) (start_send cf false n bytes true s).2 =
      Some (mkCluster lb [] false None (cl_next s + 1)) ∧
    cf_node_to_peer cf !! n = Some p ∧ is_connected p (lb_swarm lb) = true ∧
    lb_deferred lb = [] ∧ lb_world lb = lb_world (cl_lib s) ∧ lb_pending lb !! id = Some (SyncTx (cl_next s)) ∧
    lb_chans lb !! cl_next s = Some OsOpen ∧ cl_inv (mkCluster lb [] false None (cl_next s + 1)) ∧
    outbound (lb_swarm lb) = outbound (lb_swarm (cl_lib s)) ++ [(id, (p, bytes))].
Proof.
  intros ((Ht & Hsh & Hc & Hd) & Hi & p & Hp & Hcon).
  pose proof (outbound_fresh p bytes (lb_swarm (cl_lib s))) as Hf.
  pose proof (outbound_send p bytes (lb_swarm (cl_lib s))) as Ho.
  pose proof (connected_send _ _ _ _ _ p p bytes (lb_swarm (cl_lib s))) as Hcs.
  destruct (send_request p bytes (lb_swarm (cl_lib s))) as [id sw] eqn:Hsr. cbn [fst snd] in *.
  assert (lb_pending (cl_lib s) !! id = None) as Hid.
  { apply eq_None_not_Some. intros Hx. by apply Hf, (li_issued _ _ (ci_lib _ Hi)). }
  assert (∀ lb, run_swarm_round debug cf (None : option event) (start_send cf false n bytes true s).2 =
    Some (mkCluster lb [] false None (cl_next s + 1)) → cl_inv (mkCluster lb [] false None (cl_next s + 1))) as Hinv.
  { intros lb Hr. destruct (lib_step_inv debug cf (LibSend false n bytes true) s _ Hi eq_refl) as [Hi1 _].
    by destruct (round_step debug cf None _ _ Hi1 Hr). }
  revert Hinv. eexists p, id, _. revert Hinv. unfold start_send, send_command. rewrite Hp, Ht, Hc, Hsh.
  intros Hinv. split; [done|].
  assert (∀ P Q : Prop, P → (P → Q) → P ∧ Q) as Hpq by tauto. apply Hpq; clear Hpq; [|intros Hround; split; [done|]].
  - unfold run_swarm_round. cbn [snd cl_thread cl_shutdown cl_cmds cl_lib app drain handle_command cl_next].
    unfold or_drop, call_bind, ensure_peer_dialed. cbn [lb_swarm set_chans ds_peer]. rewrite Hcon.
    cbn [mbind option_bind lb_swarm set_chans ds_peer]. rewrite Hcon. unfold dispatch_send.
    cbn [ds_peer ds_frame ds_expect_reply ds_respond_to lb_swarm set_chans]. rewrite Hsr.
    cbn [lb_pending set_swarm set_chans]. rewrite Hid. cbn [mbind option_bind].
    rewrite flush_none by done. reflexivity.
  - cbn [lb_swarm lb_deferred lb_world lb_pending lb_chans set_pending set_swarm set_chans reply_to].
    rewrite Hcs, Hcon, !lookup_insert_eq, Ho. split_and!; try done. exact (Hinv _ Hround).
Qed.

(** The peer answers: its response comes back, and the connection can be used
    again. When it refuses, the caller waits in vain, and the connection to
    the peer is lost. *)
Lemma send_frame_answered n s bytes out r w :
  connected_to n s → write_frame bytes = Ok out →
  handle_inbound_frame debug peer bytes (lb_world (cl_lib s)) = Some (r, w) →
  match r with
  | Ok rb => ∀ ro, write_frame rb = Ok ro →
      ∃ s', send_frame n bytes true s = Some (Ok rb, s') ∧ lb_world (cl_lib s') = w ∧ connected_to n s'
  | Err _ => ∃ s', send_frame n bytes true s = Some (Err Wire.RemoteUnreachable, s') ∧ lb_world (cl_lib s') = w ∧
      ∀ p, cf_node_to_peer cf !! n = Some p → is_connected p (lb_swarm (cl_lib s')) = false
  end.
Proof.
  intros Hs Hw Hh.
  destruct (request_sent n s bytes Hs) as (p & id & lb & Hst & Hro & Hp & Hcon & Hdf & Hwo & Hpe & Hch & Hi & Hla).
  unfold send_frame. rewrite Hst in *. cbn [snd] in Hro. rewrite Hro. cbn [mbind option_bind]. unfold peer_answers.
  cbn [cl_lib cl_cmds cl_shutdown cl_thread cl_next lb_swarm set_chans].
  rewrite Hla, drop_app_length. cbn [last].
  rewrite (carry_fits bytes out Hw), Hwo, Hh. cbn [mbind option_bind].
  set (s2 := mkCluster (set_lb_world w lb) [] false None (cl_next s + 1)).
  assert (at_rest s2) as Hrest by done.
  assert (cl_inv s2) as Hi2 by by destruct Hi as [[? ? ?] ? ?].
  destruct r as [rb|e].
  - intros ro Hwr. rewrite (carry_fits rb ro Hwr), round_at_rest by done.
    cbn [handle_swarm_event cl_lib s2 lb_pending set_lb_world set_swarm].
    rewrite Hpe. cbn [mbind option_bind cl_next]. rewrite flush_none by done. eexists. split.
    + unfold wait_reply. cbn [cl_lib lb_chans complete set_chans tx_of]. by rewrite lookup_insert_eq.
    + split; [done|]. split; [done|]. split.
      * eapply (round_step debug cf (Some (InboundResponse id rb : event)) s2 _ Hi2). rewrite round_at_rest by done.
        cbn [handle_swarm_event cl_lib s2 lb_pending set_lb_world set_swarm]. rewrite Hpe. cbn [mbind option_bind cl_next].
        by rewrite flush_none.
      * exists p. split; [done|]. simpl. by rewrite connected_answered.
  - rewrite round_at_rest by done. cbn [handle_swarm_event mbind option_bind]. rewrite flush_none by done.
    rewrite round_at_rest by done. cbn [handle_swarm_event mbind option_bind]. rewrite flush_none by done.
    eexists. split.
    + unfold wait_reply. cbn [cl_lib lb_chans set_swarm s2 set_lb_world]. by rewrite Hch.
    + split; [done|]. intros q Hq. rewrite Hp in Hq. injection Hq as <-.
      cbn [cl_lib lb_swarm set_swarm]. by rewrite connected_closed.
Qed.

(** The transport keeps the promise that remote references rely on, for its
    synchronous interface. *)
#[export] Instance libp2p_delivers n :
  Delivers libp2p_transport n (cf_dispatch peer) (λ s, lb_world (cl_lib s)) (connected_to n)
    (λ env, fits (encode_cluster_frame (FActor env)) = true)
    (λ cid p, fits (encode_wire_reply (mkWireReply cid p)) = true ∧ encode_wire_reply (mkWireReply cid p) ≠ Ok []).
Proof.
  intros env s r w Hs Hn Hcid (bytes & out & He & Hw)%fits_inv Hrep Hd.
  assert (handle_inbound_frame debug peer bytes (lb_world (cl_lib s)) =
    Some (match r with
          | Ok p => result_map_err WireErr (encode_wire_reply (mkWireReply (we_correlation env) (default [] p)))
          | Err e => Err e end, w)) as Hh.
  { unfold handle_inbound_frame, decode_cluster_frame. rewrite (decode_encode _ _ He).
    unfold call_bind, call_of. cbn [result_map_err mbind option_bind]. rewrite Hd. cbn [mbind option_bind].
    destruct r; [|done]. by rewrite decide_False. }
  pose proof (send_frame_answered n s bytes out _ w Hs Hw Hh) as Hx.
  cbn [request_envelope libp2p_transport]. unfold libp2p_request_envelope. rewrite decide_False, He, Hn by done.
  unfold call_bind, call_of. cbn [result_map_err mbind option_bind]. destruct r as [rp|e].
  - destruct (Hrep rp eq_refl) as [(rb & ro & Her & Hwr)%fits_inv Hne]. rewrite Her in Hx. cbn [result_map_err] in Hx.
    destruct (Hx ro Hwr) as (s' & -> & Hwo & Hcon). cbn [mbind option_bind]. eexists Wire.RemoteUnreachable, s'.
    split; [|by split]. unfold read_reply. rewrite bool_decide_eq_false_2 by congruence. unfold decode_reply_frame.
    rewrite (decode_encode _ _ Her). cbn [wr_correlation wr_payload]. by rewrite decide_False by (intros Hz; by apply Hz).
  - destruct Hx as (s' & -> & Hwo & _). cbn [mbind option_bind]. eexists Wire.RemoteUnreachable, s'. by split.
Qed.
End requests.
