(* ===== verification/RemoteRuns.v ===== *)
(** * Remote requests on concrete nodes

    A codec that satisfies the laws asked of postcard, actors of [Requests] as
    recipients, and runs of the TCP transport between two nodes, on which the
    theorems of [RemoteRefs] and [Tcp] are applied. *)

From Stdlib Require Import Strings.Byte.
From stdpp Require Import pretty.
From S2P Require Import Prelude Address Errors Mailbox Backpressure ChildSpec ProcessGroups Registry Links Actor Requests RemoteSpawn Wire RemoteRefs Tcp.

(** ** A codec for every countable type *)

Fixpoint bits (p : positive) : list byte :=
  match p with xH => [] | xO p => x00 :: bits p | xI p => x01 :: bits p end.
Fixpoint unbits (bs : list byte) : positive :=
  match bs with [] => xH | x01 :: bs => xI (unbits bs) | _ :: bs => xO (unbits bs) end.
Lemma unbits_bits p : unbits (bits p) = p.
Proof. induction p as [p IH|p IH|]; simpl; by rewrite ?IH. Qed.

Definition countable_codec (T : Type) `{Countable T} : Codec T := {|
  to_allocvec v := Ok (bits (countable.encode v));
  from_bytes bs := match countable.decode (unbits bs) with Some v => Ok v | None => Err "invalid" end
|}.
Lemma countable_codec_laws (T : Type) `{Countable T} : @CodecLaws T (countable_codec T).
Proof. intros v bs [= <-]. simpl. by rewrite unbits_bits, countable.decode_encode. Qed.

#[export] Instance byte_eq_dec : EqDecision byte := Byte.byte_eq_dec.
#[export] Instance byte_countable : Countable byte.
Proof.
  refine (inj_countable Byte.to_N Byte.of_N _). intros b. apply Byte.of_to_N.
Defined.

#[export] Instance WireRestartType_eq_dec : EqDecision WireRestartType.
Proof. solve_decision. Defined.
#[export] Instance WireRestartType_countable : Countable WireRestartType.
Proof.
  refine (inj_countable' (λ r, match r with WPermanent => 0 | WTransient => 1 | WTemporary => 2 end)
    (λ n, match n with 0 => WPermanent | 1 => WTransient | _ => WTemporary end) _). by intros [].
Defined.
#[export] Instance Overrides_eq_dec : EqDecision RemoteSpecOverrides.
Proof. solve_decision. Defined.
#[export] Instance Overrides_countable : Countable RemoteSpecOverrides.
Proof.
  refine (inj_countable' (λ o, (ov_restart o, ov_pg_scope o, ov_pg_group o)) (λ '(a, b, c), mkOverrides a b c) _). by intros [].
Defined.
#[export] Instance RemoteSpawnSpec_eq_dec : EqDecision RemoteSpawnSpec.
Proof. solve_decision. Defined.
#[export] Instance RemoteSpawnSpec_countable : Countable RemoteSpawnSpec.
Proof.
  refine (inj_countable' (λ x, match x with WorkerSpec a b => inl (a, b) | NamedSpec a b => inr (a, b) end)
    (λ x, match x with inl (a, b) => WorkerSpec a b | inr (a, b) => NamedSpec a b end) _). by intros [].
Defined.
#[export] Instance SupervisionSignal_eq_dec : EqDecision SupervisionSignal.
Proof. solve_decision. Defined.
#[export] Instance SupervisionSignal_countable : Countable SupervisionSignal.
Proof.
  refine (inj_countable' (λ r, match r with SigStop => 0 | SigShutdown => 1 | SigKill => 2 end)
    (λ n, match n with 0 => SigStop | 1 => SigShutdown | _ => SigKill end) _). by intros [].
Defined.
#[export] Instance WireExitReason_countable : Countable WireExit.WireExitReason.
Proof.
  refine (inj_countable' (λ r, match r with
      | WireExit.WNormal => inl 0 | WireExit.WShutdown => inl 1 | WireExit.WKill => inl 2
      | WireExit.WPanic m => inr m end)
    (λ n, match n with inl 0 => WireExit.WNormal | inl 1 => WireExit.WShutdown | inl _ => WireExit.WKill
                  | inr m => WireExit.WPanic m end) _). by intros [].
Defined.
#[export] Instance SupervisionEvent_eq_dec : EqDecision SupervisionEvent.
Proof. solve_decision. Defined.
#[export] Instance SupervisionEvent_countable : Countable SupervisionEvent.
Proof.
  refine (inj_countable' (λ e, match e with
      | SpawnRequest a b c d => inl (inl (inl (a, b, c, d)))
      | SpawnOk a => inl (inl (inr (inl a)))
      | SpawnErr a => inl (inl (inr (inr a)))
      | SignalEv a b => inl (inr (inl (a, b)))
      | ChildExit a b c => inl (inr (inr (a, b, c)))
      | DownEv a b c d => inr (inl (inl (a, b, c, d)))
      | MonitorEv a b c => inr (inl (inr (inl (a, b, c))))
      | DemonitorEv a b c => inr (inl (inr (inr (a, b, c))))
      | LinkEv a b => inr (inr (inl (a, b)))
      | UnlinkEv a b => inr (inr (inr (a, b)))
      end)
    (λ x, match x with
      | inl (inl (inl (a, b, c, d))) => SpawnRequest a b c d
      | inl (inl (inr (inl a))) => SpawnOk a
      | inl (inl (inr (inr a))) => SpawnErr a
      | inl (inr (inl (a, b))) => SignalEv a b
      | inl (inr (inr (a, b, c))) => ChildExit a b c
      | inr (inl (inl (a, b, c, d))) => DownEv a b c d
      | inr (inl (inr (inl (a, b, c)))) => MonitorEv a b c
      | inr (inl (inr (inr (a, b, c)))) => DemonitorEv a b c
      | inr (inr (inl (a, b))) => LinkEv a b
      | inr (inr (inr (a, b))) => UnlinkEv a b
      end) _). by intros [].
Defined.
#[export] Instance SupervisionEnvelope_eq_dec : EqDecision SupervisionEnvelope.
Proof. solve_decision. Defined.
#[export] Instance SupervisionEnvelope_countable : Countable SupervisionEnvelope.
Proof.
  refine (inj_countable' (λ e, (correlation_id e, event e)) (λ '(c, e), RemoteSpawn.mkEnvelope c e) _). by intros [].
Defined.

#[export] Instance RegistryEvent_eq_dec : EqDecision Names.RegistryEvent.
Proof. solve_decision. Defined.
#[export] Instance RegistryEvent_countable : Countable Names.RegistryEvent.
Proof.
  refine (inj_countable' (λ e, match e with
      | Names.Register a b => inl (inl (a, b)) | Names.Unregister a b => inl (inr (a, b))
      | Names.Snapshot l => inr l end)
    (λ x, match x with
      | inl (inl (a, b)) => Names.Register a b | inl (inr (a, b)) => Names.Unregister a b
      | inr l => Names.Snapshot l end) _). by intros [].
Defined.
#[export] Instance PgMemberEntry_eq_dec : EqDecision PgMemberEntry.
Proof. solve_decision. Defined.
#[export] Instance PgMemberEntry_countable : Countable PgMemberEntry.
Proof.
  refine (inj_countable' (λ e, (pe_key e, pe_address e)) (λ '(k, a), mkPgMemberEntry k a) _). by intros [].
Defined.
#[export] Instance PgEvent_eq_dec : EqDecision PgEvent.
Proof. solve_decision. Defined.
#[export] Instance PgEvent_countable : Countable PgEvent.
Proof.
  refine (inj_countable' (λ e, match e with
      | PgJoin a b => inl (inl (a, b)) | PgLeave a b => inl (inr (a, b)) | PgSnapshot l => inr l end)
    (λ x, match x with
      | inl (inl (a, b)) => PgJoin a b | inl (inr (a, b)) => PgLeave a b | inr l => PgSnapshot l end) _). by intros [].
Defined.
#[export] Instance WireEnvelope_eq_dec : EqDecision WireEnvelope.
Proof. solve_decision. Defined.
#[export] Instance WireEnvelope_countable : Countable WireEnvelope.
Proof.
  refine (inj_countable' (λ e, (we_to e, we_msg_id e, we_payload e, we_correlation e))
    (λ '(a, b, c, d), mkWireEnvelope a b c d) _). by intros [].
Defined.
#[export] Instance ClusterFrame_eq_dec : EqDecision ClusterFrame.
Proof. solve_decision. Defined.
#[export] Instance ClusterFrame_countable : Countable ClusterFrame.
Proof.
  refine (inj_countable' (λ f, match f with
      | FActor e => inl (inl e) | FRegistry e => inl (inr e) | FPg e => inr (inl e)
      | FSupervision e => inr (inr e) end)
    (λ x, match x with
      | inl (inl e) => FActor e | inl (inr e) => FRegistry e | inr (inl e) => FPg e
      | inr (inr e) => FSupervision e end) _). by intros [].
Defined.
#[export] Instance Handshake_eq_dec : EqDecision Handshake.
Proof. solve_decision. Defined.
#[export] Instance Handshake_countable : Countable Handshake.
Proof.
  refine (inj_countable' (λ h, (hs_version h, hs_node h)) (λ '(v, n), mkHandshake v n) _). by intros [].
Defined.
#[export] Instance WireReply_eq_dec : EqDecision WireReply.
Proof. solve_decision. Defined.
#[export] Instance WireReply_countable : Countable WireReply.
Proof.
  refine (inj_countable' (λ h, (wr_correlation h, wr_payload h)) (λ '(v, n), mkWireReply v n) _). by intros [].
Defined.

(** The wire format of the examples. *)
#[export] Instance sample_codecs : Codecs := {|
  codec_handshake := countable_codec Handshake;
  codec_frame := countable_codec ClusterFrame;
  codec_reply := countable_codec WireReply;
  codec_supervision := countable_codec SupervisionEnvelope
|}.
#[export] Instance sample_laws : CodecsLaws.
Proof. split; apply countable_codec_laws. Qed.

(** ** Actors as recipients *)

Section recipient.
Context {Msg R : Type} `{ThisNode} (limits : ActorId → Limits).
(** What the actors do while a caller waits for its reply. *)
Context (schedule : ReqSys Msg R → list (RLabel Msg R)).

(** [ActorRef::recipient], on a node whose state is paired with the counter
    of correlation ids. *)
Definition actor_recipient (i : ActorId) : Recipient (ReqSys Msg R * N) Msg R := mkRecipient
  (λ m '(s, c), '(r, s) ← Requests.send limits i m s; Some (r, (s, c)))
  (λ m '(s, c), '(r, s) ← Requests.request_raw limits i m s; Some (r, (s, c)))
  (λ _ k '(s, c), s ← rrun limits (schedule s) s; r ← poll_reply true k s; Some (r, (s, c)))
  (λ k '(s, c), s ← rrun limits (schedule s) s; r ← poll_reply false k s; Some (r, (s, c))).

(** [tasks::request] on it is the request of [Requests]. *)
Lemma actor_recipient_request i m d s c :
  request (actor_recipient i) m d (s, c) =
    '(r, s1) ← Requests.request_raw limits i m s;
    match r with
    | Ok k => '(r, s) ← (s ← rrun limits (schedule s1) s1; r ← poll_reply true k s; Some (r, s)); Some (r, (s, c))
    | Err e => Some (Err e, (s1, c))
    end.
Proof.
  unfold request, call_bind. cbn [actor_recipient rc_request_raw rc_timeout].
  destruct (Requests.request_raw limits i m s) as [[[k|e] s1]|]; [|done|done]. cbn [mbind option_bind].
  destruct (rrun limits (schedule s1) s1) as [s2|]; [|done]. cbn [mbind option_bind].
  by destruct (poll_reply true k s2).
Qed.
End recipient.

(** ** A request from node a to an actor of node b *)

#[local] Instance nat_codec : Codec nat := countable_codec nat.
#[local] Instance nat_laws : CodecLaws nat := countable_codec_laws nat.
#[local] Instance nat_message : RemoteMessage nat := "app.Ask/v1".

Definition no_debug : SupervisionEvent → string := λ _, "".
Definition worker_addr : ActorAddress := on nodeB (from_raw 1).

(** The actor answers 7 to what it is asked. *)
Definition answers : ReqSys nat nat → list (RLabel nat nat) := λ _,
  let _ : ThisNode := nodeB in serve_all (from_raw 1) [7].
Definition ask_worker : Recipient (ReqSys nat nat * N) nat nat :=
  let _ : ThisNode := nodeB in actor_recipient unlimited answers (from_raw 1).
Definition registrations : list (ActorAddress * Wired (ReqSys nat nat * N)) :=
  [(worker_addr, mkWired nat nat ask_worker (Some (λ _, true)))].
Definition server_b : Server (ReqSys nat nat * N) :=
  mkServer nodeB (dispatch (foldl register_wired dispatch_new registrations)) hooks_none.
Definition tcp_a : TcpTransport (ReqSys nat nat * N) := mkTcp nodeA [(nodeB, "b:9000")] hooks_none.
Definition listening_b : string → option (Server (ReqSys nat nat * N)) :=
  λ a, if decide (a = "b:9000") then Some server_b else None.
Definition idle_conn {W} (sv : Server W) : Conn W := mkConn sv [] [] Serving false.
Lemma idle_conn_idle {W} (sv : Server W) : idle (idle_conn sv).
Proof. done. Qed.

Definition started_b : ReqSys nat nat :=
  let _ : ThisNode := nodeB in default rs_new (rrun unlimited asking rs_new).
Definition cluster_ab : TcpSys (ReqSys nat nat * N) :=
  mkTcpSys {[nodeB := idle_conn server_b]} (started_b, 1%N).

Definition on_core {W} (f : W → W) (s : TcpSys W) : TcpSys W := mkTcpSys (ts_conns s) (f (ts_world s)).
Definition set_counter (c : N) (w : ReqSys nat nat * N) : ReqSys nat nat * N := (w.1, c).


(** The same frames in three pieces. *)
Lemma serve_chunks_witness :
  let frame := match write_frame (bits (countable.encode (FRegistry (Names.Snapshot [])))) with
               | Ok bs => bs | Err _ => [] end in
  serve_connection no_debug (push_in (concat [take 3 frame; drop 3 frame ++ take 2 frame; drop 2 frame])
    (idle_conn server_b)) (started_b, 1%N) =
  foldl (λ cw b, serve_connection no_debug (push_in b cw.1) cw.2) (idle_conn server_b, (started_b, 1%N))
    [take 3 frame; drop 3 frame ++ take 2 frame; drop 2 frame].
Proof.
  intros frame. apply (serve_chunks no_debug [take 3 frame; drop 3 frame ++ take 2 frame; drop 2 frame]
    (idle_conn server_b) (started_b, 1%N)). right. by eexists _, _.
Defined.

Lemma tcp_request_exact_witness :
  let env := mkWireEnvelope worker_addr "app.Ask/v1" (bits (countable.encode 5)) 1 in
  ∃ r w', tcp_request_envelope no_debug listening_b tcp_a env cluster_ab =
    Some (Ok r, mkTcpSys {[nodeB := idle_conn server_b]} w').
Proof.
  intros env. pose proof (tcp_request_exact no_debug listening_b tcp_a cluster_ab env (idle_conn server_b)
    eq_refl (idle_conn_idle _)) as Hx.
  assert (∃ p w', request_outcome (cn_server (idle_conn server_b)) env (ts_world cluster_ab) = (Some p, w'))
    as (p & w' & Ho) by (eexists _, _; vm_compute; reflexivity).
  rewrite Ho in Hx. destruct Hx as (r & Hx & ->). eauto.
Defined.
