(* ===== verification/Listener.v ===== *)
(** * The listener of the TCP transport

    [TcpClusterListener] of [cluster/src/tcp/listener.rs]: the thread that
    accepts connections ([accept_loop]), the threads that serve them
    ([serve_connection] of [Tcp]), the flag that stops the first, and the
    owner of the listener, who shuts it down or drops it.

    A step is one operation of one thread: a load or store of the flag, a
    call of [accept], a sleep, the service of what has arrived on one
    connection. What [accept] returns is up to the operating system, as far
    as the documentation of a non-blocking socket allows: a connection when
    one is pending, [WouldBlock] only when none is, another error at any
    time. *)

From Stdlib Require Import Strings.Byte.
From S2P Require Import Prelude Address Errors Mailbox Links Actor Requests ProcessGroups Registry RemoteSpawn Wire RemoteRefs Tcp RemoteRuns.

(** Where [accept_loop] stands: before the load of the loop's condition, at
    [listener.accept()], at the guard of the third arm, in [thread::sleep],
    or at its end, where the socket is closed. *)
Inductive AcceptPc := LoopHead | Accepting | ErrGuard | Sleeping | LoopEnded.

(** [shutdown] stores the flag, then joins the thread; [Drop] only stores. *)
Inductive OwnerPc := Holding | Joining | Returned | DroppedOwner.

Inductive AcceptResult := AcceptOk | WouldBlock | OtherError.

#[export] Instance AcceptPc_eq_dec : EqDecision AcceptPc.
Proof. solve_decision. Defined.
#[export] Instance OwnerPc_eq_dec : EqDecision OwnerPc.
Proof. solve_decision. Defined.

Section listener.
Context {W : Type} `{Codecs} (debug : SupervisionEvent → string).

(** [ln_backlog] are the connections that the system has taken and the thread
    has not, with what their clients have written; [ln_conns] have a thread
    each. Clients are numbered in the order in which they came. *)
Record TcpClusterListener := mkListener {
  ln_server : Server W;
  ln_shutdown : bool;
  ln_pc : AcceptPc;
  ln_owner : OwnerPc;
  ln_backlog : list (nat * list byte);
  ln_conns : list (nat * Conn W);
  ln_next : nat;
  ln_world : W
}.

Definition set_pc pc (s : TcpClusterListener) : TcpClusterListener :=
  mkListener (ln_server s) (ln_shutdown s) pc (ln_owner s) (ln_backlog s) (ln_conns s) (ln_next s) (ln_world s).

(** A new listener: its socket is open and its thread about to run. *)
Definition bound (local : NodeId) (dispatch : InboundDispatch W) (control : ControlPlaneHooks W) (w : W) : TcpClusterListener :=
  mkListener (mkServer local dispatch control) false LoopHead Holding [] [] 0 w.

(** [system]: the first error of the calls that open the socket, read its
    address, make it non-blocking and start the thread. *)
Definition bind_with_control_plane (system : Result () string) local dispatch control w
    : Result TcpClusterListener TransportError :=
  match system with Err e => Err (Io e) | Ok _ => Ok (bound local dispatch control w) end.
Definition bind system local dispatch w : Result TcpClusterListener TransportError :=
  bind_with_control_plane system local dispatch hooks_none w.
Definition bind_with_registry system local dispatch registry w : Result TcpClusterListener TransportError :=
  bind_with_control_plane system local dispatch
    (mkControl registry (mkPgHooks None None) (mkSupervisionHooks None)) w.

(** The listener is dropped when [accept_loop] returns: connections that no
    thread has taken are reset. *)
Definition end_loop (s : TcpClusterListener) : TcpClusterListener :=
  mkListener (ln_server s) (ln_shutdown s) LoopEnded (ln_owner s) [] (ln_conns s) (ln_next s) (ln_world s).

(** One step of [accept_loop]. *)
Definition accept_loop_step (r : AcceptResult) (s : TcpClusterListener) : option TcpClusterListener :=
  match ln_pc s with
  | LoopHead => Some (if ln_shutdown s then end_loop s else set_pc Accepting s)
  | Accepting =>
      match r, ln_backlog s with
      | AcceptOk, (k, bs) :: rest =>
          Some (mkListener (ln_server s) (ln_shutdown s) LoopHead (ln_owner s) rest
            (ln_conns s ++ [(k, mkConn (ln_server s) bs [] AwaitHandshake false)]) (ln_next s) (ln_world s))
      | WouldBlock, [] => Some (set_pc Sleeping s)
      | OtherError, _ => Some (set_pc ErrGuard s)
      | _, _ => None
      end
  | ErrGuard => Some (if ln_shutdown s then end_loop s else set_pc LoopHead s)
  | Sleeping => Some (set_pc LoopHead s)
  | LoopEnded => None
  end.

(** [TcpClusterListener::shutdown] up to the join, and [Drop]. *)
Definition store_shutdown (o : OwnerPc) (s : TcpClusterListener) : option TcpClusterListener :=
  match ln_owner s with
  | Holding =>
      Some (mkListener (ln_server s) true (ln_pc s) o (ln_backlog s) (ln_conns s) (ln_next s) (ln_world s))
  | _ => None
  end.
(** [join.join()] *)
Definition join_accept (s : TcpClusterListener) : option TcpClusterListener :=
  match ln_owner s, ln_pc s with
  | Joining, LoopEnded =>
      Some (mkListener (ln_server s) (ln_shutdown s) LoopEnded Returned (ln_backlog s) (ln_conns s)
        (ln_next s) (ln_world s))
  | _, _ => None
  end.

(** A client connects while the socket is open, and writes. *)
Definition client_connect (s : TcpClusterListener) : option TcpClusterListener :=
  match ln_pc s with
  | LoopEnded => None
  | _ => Some (mkListener (ln_server s) (ln_shutdown s) (ln_pc s) (ln_owner s) (ln_backlog s ++ [(ln_next s, [])])
           (ln_conns s) (S (ln_next s)) (ln_world s))
  end.
Definition client_write (k : nat) (bs : list byte) (s : TcpClusterListener) : TcpClusterListener :=
  mkListener (ln_server s) (ln_shutdown s) (ln_pc s) (ln_owner s)
    ((λ '(j, b), if decide (j = k) then (j, b ++ bs) else (j, b)) <$> ln_backlog s)
    ((λ '(j, c), if decide (j = k) then (j, push_in bs c) else (j, c)) <$> ln_conns s) (ln_next s) (ln_world s).

(** The thread of connection number [n] serves what has arrived. *)
Definition serve_conn (n : nat) (s : TcpClusterListener) : option TcpClusterListener :=
  '(k, c) ← ln_conns s !! n;
  let '(c, w) := serve_connection debug c (ln_world s) in
  Some (mkListener (ln_server s) (ln_shutdown s) (ln_pc s) (ln_owner s) (ln_backlog s)
    (<[n := (k, c)]> (ln_conns s)) (ln_next s) w).

Inductive LnLabel :=
| LnConnect | LnWrite (k : nat) (bs : list byte) | LnAccept (r : AcceptResult) | LnServe (n : nat)
| LnShutdown | LnDrop | LnJoin.

Definition ln_step (l : LnLabel) (s : TcpClusterListener) : option TcpClusterListener :=
  match l with
  | LnConnect => client_connect s
  | LnWrite k bs => Some (client_write k bs s)
  | LnAccept r => accept_loop_step r s
  | LnServe n => serve_conn n s
  | LnShutdown => store_shutdown Joining s
  | LnDrop => store_shutdown DroppedOwner s
  | LnJoin => join_accept s
  end.
Fixpoint ln_run (ls : list LnLabel) (s : TcpClusterListener) : option TcpClusterListener :=
  match ls with [] => Some s | l :: ls => s' ← ln_step l s; ln_run ls s' end.

(** ** Orders of arrival *)

Definition accepted (s : TcpClusterListener) : list nat := (ln_conns s).*1.
Definition pending (s : TcpClusterListener) : list nat := (ln_backlog s).*1.

(** Every client is accepted once, in the order of arrival; those that are
    not when the loop ends never are. *)
Record ln_inv (s : TcpClusterListener) : Prop := {
  lni_order : if decide (ln_pc s = LoopEnded) then pending s = [] ∧ ∃ m, m ≤ ln_next s ∧ accepted s = seq 0 m
              else accepted s ++ pending s = seq 0 (ln_next s);
  lni_server : Forall (λ kc, cn_server kc.2 = ln_server s) (ln_conns s);
  lni_flag : ln_owner s ≠ Holding → ln_shutdown s = true;
  lni_ended : ln_pc s = LoopEnded → ln_shutdown s = true;
  lni_joined : ln_owner s = Returned → ln_pc s = LoopEnded
}.
End listener.
Arguments TcpClusterListener W : clear implicits.

Section runs.
Context {W : Type} `{Codecs} (debug : SupervisionEvent → string).
Implicit Types (s : TcpClusterListener W) (c : Conn W).

Lemma serve_server n c w : cn_server (serve debug n c w).1 = cn_server c.
Proof.
  revert c w. induction n as [|n IH]; intros c w; [done|]. simpl. destruct (running (cn_pc c)); [|done].
  destruct (read_frame (cn_in c)) as [[b|e] rest]; [|by destruct e].
  destruct (serve_one _ _ _ _ _) as [[pc out] w']. by rewrite IH.
Qed.

(** ** The invariant *)

(** Steps of clients and serving threads keep ids and servers. *)
Lemma inv_same s s' :
  ln_pc s' = ln_pc s → ln_owner s' = ln_owner s → ln_shutdown s' = ln_shutdown s → ln_server s' = ln_server s →
  accepted s' = accepted s → pending s' = pending s → ln_next s' = ln_next s →
  Forall (λ kc, cn_server kc.2 = ln_server s) (ln_conns s') → ln_inv s → ln_inv s'.
Proof. intros E1 E2 E3 E4 E5 E6 E7 Hf [H1 H2 H3 H4 H5]. split; rewrite ?E1, ?E2, ?E3, ?E4, ?E5, ?E6, ?E7; done. Qed.

Lemma write_ids k bs (l : list (nat * list byte)) :
  ((λ '(j, b), if decide (j = k) then (j, b ++ bs) else (j, b)) <$> l).*1 = l.*1.
Proof. rewrite <- list_fmap_compose. apply list_fmap_ext. intros _ [j b] _. simpl. by case_decide. Qed.
Lemma push_ids k bs (l : list (nat * Conn W)) :
  ((λ '(j, c), if decide (j = k) then (j, push_in bs c) else (j, c)) <$> l).*1 = l.*1.
Proof. rewrite <- list_fmap_compose. apply list_fmap_ext. intros _ [j b] _. simpl. by case_decide. Qed.

Lemma write_inv k bs s : ln_inv s → ln_inv (client_write k bs s).
Proof.
  intros Hs. apply (inv_same s); try done; [apply push_ids|apply write_ids|]. simpl.
  apply Forall_fmap, (Forall_impl _ _ _ (lni_server _ Hs)). intros [j c]. simpl. by case_decide.
Qed.

Lemma serve_inv n s s' : serve_conn debug n s = Some s' → ln_inv s → ln_inv s'.
Proof.
  unfold serve_conn. intros ([k c] & Hn & He)%bind_Some Hs.
  pose proof (serve_server (S (length (cn_in c))) c (ln_world s)) as Hsv. fold (serve_connection debug c (ln_world s)) in Hsv.
  destruct (serve_connection debug c (ln_world s)) as [c' w']. simplify_eq/=. apply (inv_same s); try done.
  - unfold accepted. simpl. rewrite list_fmap_insert. simpl. apply list_insert_id. by rewrite list_lookup_fmap, Hn.
  - simpl. apply Forall_insert; [apply (lni_server _ Hs)|]. simpl. rewrite Hsv.
    by apply (Forall_lookup_1 _ _ _ _ (lni_server _ Hs) Hn).
Qed.

Lemma end_inv s : ln_inv s → ln_shutdown s = true → ln_inv (end_loop s).
Proof.
  intros [H1 H2 H3 H4 H5] Hf. split; try done. simpl. split; [done|].
  case_decide; [by destruct H1|]. exists (length (accepted s)).
  pose proof (f_equal length H1) as Hl. rewrite length_app, length_seq in Hl. split; [lia|]. unfold accepted at 1. simpl. fold (accepted s).
  rewrite <- (take_app_length (accepted s) (pending s)) at 1. rewrite H1, take_seq. f_equal. lia.
Qed.

Lemma pc_inv pc s : ln_inv s → ln_pc s ≠ LoopEnded → pc ≠ LoopEnded → ln_inv (set_pc pc s).
Proof.
  intros [H1 H2 H3 H4 H5] Hp Hq. rewrite decide_False in H1 by done. split; simpl; try done.
  - by rewrite decide_False.
  - intros Ho. by apply H5 in Ho.
Qed.

Lemma accept_inv r s s' : accept_loop_step r s = Some s' → ln_inv s → ln_inv s'.
Proof.
  unfold accept_loop_step. intros He Hs. destruct (ln_pc s) eqn:Hpc; try done.
  - simplify_eq. destruct (ln_shutdown s) eqn:Hf; [by apply end_inv|by apply pc_inv; rewrite ?Hpc].
  - destruct r, (ln_backlog s) as [|[k bs] rest] eqn:Hb; simplify_eq; try (apply pc_inv; by rewrite ?Hpc).
    destruct Hs as [H1 H2 H3 H4 H5]. rewrite decide_False in H1 by (by rewrite Hpc).
    split; simpl; try done.
    + unfold accepted, pending in *. simpl. rewrite Hb in H1. simpl in H1. by rewrite fmap_app, <- app_assoc.
    + apply Forall_app. split; [done|]. by apply Forall_singleton.
    + intros Ho. by rewrite (H5 Ho) in Hpc.
  - simplify_eq. destruct (ln_shutdown s) eqn:Hf; [by apply end_inv|by apply pc_inv; rewrite ?Hpc].
  - simplify_eq. apply pc_inv; by rewrite ?Hpc.
Qed.

Lemma connect_inv s s' : client_connect s = Some s' → ln_inv s → ln_inv s'.
Proof.
  unfold client_connect. intros He [H1 H2 H3 H4 H5].
  assert (ln_pc s ≠ LoopEnded) as Hpc by (intros Hx; by rewrite Hx in He).
  assert (s' = mkListener (ln_server s) (ln_shutdown s) (ln_pc s) (ln_owner s) (ln_backlog s ++ [(ln_next s, [])])
    (ln_conns s) (S (ln_next s)) (ln_world s)) as -> by (destruct (ln_pc s); congruence).
  rewrite decide_False in H1 by done. split; simpl; try done. rewrite decide_False by done.
  unfold accepted, pending in *. simpl. rewrite fmap_app, app_assoc, H1. symmetry. apply (seq_S (ln_next s) 0).
Qed.

Lemma ln_step_inv l s s' : ln_step debug l s = Some s' → ln_inv s → ln_inv s'.
Proof.
  intros He Hs. destruct l as [|k bs|r|n| | |]; simpl in He.
  - by apply connect_inv in He.
  - simplify_eq. by apply write_inv.
  - by apply accept_inv in He.
  - by apply serve_inv in He.
  - unfold store_shutdown in He. destruct (ln_owner s) eqn:Ho; simplify_eq. destruct Hs. by split.
  - unfold store_shutdown in He. destruct (ln_owner s) eqn:Ho; simplify_eq. destruct Hs. by split.
  - unfold join_accept in He. destruct (ln_owner s) eqn:Ho, (ln_pc s) eqn:Hpc; simplify_eq.
    destruct Hs as [H1 H2 H3 H4 H5]. rewrite Hpc in H1. split; simpl; try done; intros _; apply H3; by rewrite Ho.
Qed.

Lemma ln_run_inv ls s s' : ln_run debug ls s = Some s' → ln_inv s → ln_inv s'.
Proof.
  revert s. induction ls as [|l ls IH]; simpl; intros s; [by intros [= ->]|].
  intros (s1 & H1 & H2)%bind_Some Hs. by apply (IH s1), (ln_step_inv l s).
Qed.

Lemma ln_step_server l s s' : ln_step debug l s = Some s' → ln_server s' = ln_server s.
Proof.
  destruct l as [|k bs|r|n| | |]; simpl;
    unfold client_connect, accept_loop_step, serve_conn, store_shutdown, join_accept; intros He.
  - by destruct (ln_pc s); simplify_eq/=.
  - by simplify_eq.
  - destruct (ln_pc s); repeat case_match; by simplify_eq/=.
  - apply bind_Some in He as ([k c] & _ & He). by destruct (serve_connection debug c (ln_world s)); simplify_eq/=.
  - by destruct (ln_owner s); simplify_eq/=.
  - by destruct (ln_owner s); simplify_eq/=.
  - by destruct (ln_owner s), (ln_pc s); simplify_eq/=.
Qed.
Lemma ln_run_server ls s s' : ln_run debug ls s = Some s' → ln_server s' = ln_server s.
Proof.
  revert s. induction ls as [|l ls IH]; simpl; intros s; [by intros [= ->]|].
  intros (s1 & H1 & H2)%bind_Some. rewrite (IH s1 H2). by apply (ln_step_server l).
Qed.

(** ** After the flag is set *)

(** How many steps the accepting thread has left at most. *)
Definition rank (pc : AcceptPc) : nat :=
  match pc with Accepting => 3 | Sleeping => 2 | LoopHead | ErrGuard => 1 | LoopEnded => 0 end.
Definition is_accept (l : LnLabel) : bool := match l with LnAccept _ => true | _ => false end.
Definition own_steps (ls : list LnLabel) : nat := length (iter_filter is_accept ls).

Lemma flagged_step l s s' :
  ln_shutdown s = true → ln_step debug l s = Some s' →
  ln_shutdown s' = true ∧ own_steps [l] + rank (ln_pc s') ≤ rank (ln_pc s) ∧
  length (ln_conns s') + (if decide (ln_pc s' = Accepting) then 1 else 0) ≤
    length (ln_conns s) + (if decide (ln_pc s = Accepting) then 1 else 0).
Proof.
  intros Hf He. destruct l as [|k bs|r|n| | |]; simpl in He.
  - unfold client_connect in He. destruct (ln_pc s) eqn:Hpc; simplify_eq/=; rewrite ?Hpc; done.
  - simplify_eq/=. by rewrite length_fmap.
  - unfold accept_loop_step in He. rewrite Hf in He.
    destruct (ln_pc s) eqn:Hpc; simplify_eq/=; [split_and!; [done..|lia]| |split_and!; [done..|lia]|split_and!; [done..|lia]].
    destruct r, (ln_backlog s) as [|[k bs] rest]; simplify_eq/=; rewrite ?length_app; simpl; split_and!; try done; lia.
  - unfold serve_conn in He. apply bind_Some in He as ([k c] & Hn & He).
    destruct (serve_connection debug c (ln_world s)). simplify_eq/=. by rewrite length_insert.
  - unfold store_shutdown in He. by destruct (ln_owner s); simplify_eq/=.
  - unfold store_shutdown in He. by destruct (ln_owner s); simplify_eq/=.
  - unfold join_accept in He. destruct (ln_owner s), (ln_pc s) eqn:Hpc; by simplify_eq/=.
Qed.

Lemma flagged_run ls s s' :
  ln_shutdown s = true → ln_run debug ls s = Some s' →
  ln_shutdown s' = true ∧ own_steps ls + rank (ln_pc s') ≤ rank (ln_pc s) ∧
  length (ln_conns s') + (if decide (ln_pc s' = Accepting) then 1 else 0) ≤
    length (ln_conns s) + (if decide (ln_pc s = Accepting) then 1 else 0).
Proof.
  revert s. induction ls as [|l ls IH]; simpl; intros s Hf; [intros [= ->]; done|].
  intros (s1 & H1 & H2)%bind_Some. destruct (flagged_step l s s1 Hf H1) as (Hf1 & Hr1 & Hc1).
  destruct (IH s1 Hf1 H2) as (Hf2 & Hr2 & Hc2). split; [done|].
  change (l :: ls) with ([l] ++ ls). unfold own_steps in *. rewrite iter_filter_app, length_app. split; lia.
Qed.

(** A loop that has not ended can take a step. *)
Lemma accept_enabled s : ln_pc s ≠ LoopEnded → ∃ r s', ln_step debug (LnAccept r) s = Some s'.
Proof. intros Hp. exists OtherError. unfold ln_step, accept_loop_step. destruct (ln_pc s); eauto. done. Qed.

Lemma ended_step l s s' :
  ln_pc s = LoopEnded → ln_step debug l s = Some s' → ln_pc s' = LoopEnded ∧ accepted s' = accepted s.
Proof.
  intros Hp He. destruct l as [|k bs|r|n| | |]; simpl in He.
  - unfold client_connect in He. by rewrite Hp in He.
  - simplify_eq. split; [done|apply push_ids].
  - unfold accept_loop_step in He. by rewrite Hp in He.
  - unfold serve_conn in He. apply bind_Some in He as ([k c] & Hn & He).
    destruct (serve_connection debug c (ln_world s)) as [c' w']. simplify_eq/=. split; [done|].
    unfold accepted. simpl. rewrite list_fmap_insert. simpl. apply list_insert_id. by rewrite list_lookup_fmap, Hn.
  - unfold store_shutdown in He. by destruct (ln_owner s); simplify_eq/=.
  - unfold store_shutdown in He. by destruct (ln_owner s); simplify_eq/=.
  - unfold join_accept in He. rewrite Hp in He. by destruct (ln_owner s); simplify_eq/=.
Qed.
Lemma ended_run ls s s' :
  ln_pc s = LoopEnded → ln_run debug ls s = Some s' → ln_pc s' = LoopEnded ∧ accepted s' = accepted s.
Proof.
  revert s. induction ls as [|l ls IH]; simpl; intros s Hp; [by intros [= ->]|].
  intros (s1 & H1 & H2)%bind_Some. destruct (ended_step l s s1 Hp H1) as [Hp1 Ha1].
  destruct (IH s1 Hp1 H2) as [Hp2 Ha2]. split; congruence.
Qed.

(** C32: A listener accepts every client once, in the order in which they came.
    Once [shutdown] or [Drop] has set the flag, its thread takes at most three
    more steps, of which at most one accepts a client, and none is missing for
    it to end; so [shutdown], which waits for it, returns. When it has, no
    client gets a connection any more. *)
Theorem listener_lifecycle system local dispatch control w s0 ls s :
  bind_with_control_plane system local dispatch control w = Ok s0 → ln_run debug ls s0 = Some s →
  (∃ m, m ≤ ln_next s ∧ accepted s = seq 0 m ∧
     (ln_pc s ≠ LoopEnded → pending s = seq m (ln_next s - m))) ∧
  (ln_shutdown s = true → ∀ ls' s', ln_run debug ls' s = Some s' →
     own_steps ls' ≤ 3 ∧ length (accepted s') ≤ S (length (accepted s)) ∧
     (ln_pc s' ≠ LoopEnded → ∃ r s'', ln_step debug (LnAccept r) s' = Some s'') ∧
     (ln_pc s' = LoopEnded → ln_owner s' = Joining → is_Some (ln_step debug LnJoin s'))) ∧
  (ln_owner s = Returned → ∀ ls' s', ln_run debug ls' s = Some s' →
     ln_step debug LnConnect s' = None ∧ accepted s' = accepted s).
Proof.
  intros Hb Hrun. assert (ln_inv s0) as H0 by (destruct system; simplify_eq/=; by split).
  destruct (ln_run_inv ls _ s Hrun H0) as [H1 H2 H3 H4 H5]. split_and!.
  - case_decide as Hp; [destruct H1 as (_ & m & Hm & Ha); exists m; done|].
    exists (length (accepted s)). pose proof (f_equal length H1) as Hl. rewrite length_app, length_seq in Hl.
    split_and!; [lia| |intros _].
    + rewrite <- (take_app_length (accepted s) (pending s)) at 1. rewrite H1, take_seq. f_equal. lia.
    + rewrite <- (drop_app_length (accepted s) (pending s)). by rewrite H1, drop_seq.
  - intros Hf ls' s' Hr. destruct (flagged_run ls' s s' Hf Hr) as (_ & Hk & Hc).
    unfold accepted. rewrite !length_fmap. split_and!.
    + destruct (ln_pc s); simpl in Hk; lia.
    + repeat case_decide; lia.
    + by apply accept_enabled.
    + intros Hp Ho. simpl. unfold join_accept. by rewrite Hp, Ho.
  - intros Ho ls' s' Hr. destruct (ended_run ls' s s' (H5 Ho) Hr) as [Hp Ha]. split; [|done].
    simpl. unfold client_connect. by rewrite Hp.
Qed.
End runs.

(** ** Connections after the listener *)

Section outliving.
Context {W : Type} `{CodecsLaws} (debug : SupervisionEvent → string).
Implicit Types (s : TcpClusterListener W) (c : Conn W).

(** A frame that arrives on an idle connection is served, whatever has become
    of the listener. *)
Lemma frame_served n k c s body bs :
  ln_conns s !! n = Some (k, c) → cn_pc c = Serving → cn_in c = [] → write_frame body = Ok bs →
  ln_run debug [LnWrite k bs; LnServe n] s =
    let '(pc, out, w) := serve_one debug (cn_server c) Serving body (ln_world s) in
    Some (mkListener (ln_server s) (ln_shutdown s) (ln_pc s) (ln_owner s) (ln_backlog (client_write k bs s))
      (<[n := (k, mkConn (cn_server c) [] (cn_out c ++ out) pc (cn_reset c))]> (ln_conns (client_write k bs s))) (ln_next s) w).
Proof.
  intros Hn Hpc Hin Hw. cbn [ln_run ln_step mbind option_bind]. unfold serve_conn.
  assert (ln_conns (client_write k bs s) !! n = Some (k, push_in bs c)) as Hn'.
  { simpl. rewrite list_lookup_fmap, Hn. simpl. by rewrite decide_True. }
  rewrite Hn'. cbn [mbind option_bind]. change (ln_world (client_write k bs s)) with (ln_world s).
  assert (serve_connection debug (push_in bs c) (ln_world s) =
    let '(pc, out, w) := serve_one debug (cn_server c) Serving body (ln_world s) in
    (mkConn (cn_server c) [] (cn_out c ++ out) pc (cn_reset c), w)) as ->.
  { pose proof (write_served debug c (ln_world s) body bs) as Hx. unfold stream_write in Hx. rewrite Hw, Hpc in Hx.
    specialize (Hx eq_refl Hin eq_refl). simpl in Hx. destruct (serve_one _ _ _ _ _) as [[pc out] w]. congruence. }
  by destruct (serve_one _ _ _ _ _) as [[pc out] w].
Qed.

(** Stopping the listener does not stop the service of the connections it has
    accepted: after [shutdown] has returned, a request that arrives on one of
    them is dispatched to the actors of the node as before, and answered. *)
Theorem connections_outlive_listener system local dispatch control w s0 ls s n k c env bs frame p w' rb out :
  bind_with_control_plane system local dispatch control w = Ok s0 → ln_run debug ls s0 = Some s → ln_owner s = Returned →
  ln_conns s !! n = Some (k, c) → cn_pc c = Serving → cn_in c = [] → we_correlation env ≠ 0%N →
  encode_cluster_frame (FActor env) = Ok bs → write_frame bs = Ok frame →
  dispatch env (ln_world s) = Some (Ok p, w') →
  encode_wire_reply (mkWireReply (we_correlation env) (default [] p)) = Ok rb → write_frame rb = Ok out →
  ∃ s' c', ln_run debug [LnWrite k frame; LnServe n] s = Some s' ∧ ln_world s' = w' ∧
    ln_conns s' !! n = Some (k, c') ∧ cn_pc c' = Serving ∧ cn_out c' = cn_out c ++ out.
Proof.
  intros Hb Hrun Ho Hn Hpc Hin Hcid He Hw Hd Her Hwr.
  assert (s0 = bound local dispatch control w) as -> by (by destruct system; simplify_eq/=).
  assert (ln_inv (bound local dispatch control w)) as Hinit by (by split).
  pose proof (ln_run_inv debug ls _ s Hrun Hinit) as Hs.
  pose proof (frame_served n k c s bs frame Hn Hpc Hin Hw) as Hrun'.
  assert (cn_server c = mkServer local dispatch control) as Hsv.
  { pose proof (Forall_lookup_1 _ _ _ _ (lni_server _ Hs) Hn) as Hx. simpl in Hx. rewrite Hx.
    clear -Hrun. by apply (ln_run_server debug) in Hrun. }
  rewrite (serve_actor debug _ env bs) in Hrun' by done. rewrite Hsv in Hrun'. cbn [sv_dispatch] in Hrun'.
  rewrite Hd, decide_False, Her, Hwr in Hrun' by done. eexists _, _. split; [exact Hrun'|]. simpl. split; [done|].
  rewrite list_lookup_insert_eq; [done|]. rewrite length_fmap. by apply lookup_lt_Some in Hn.
Qed.
End outliving.

(** ** A listener that is shut down *)

Definition frame_of (body : Result (list byte) WireError) : list byte :=
  match body with
  | Ok bs => match write_frame bs with Ok out => out | Err _ => [] end
  | Err _ => []
  end.
Definition ask_env : WireEnvelope := mkWireEnvelope worker_addr "app.Ask/v1" (bits (countable.encode 5)) 1.

Definition is_some {A} (o : option A) : bool := match o with Some _ => true | None => false end.

(** A client connects and shakes hands; another connects too late. *)
Definition stopped_listener : list LnLabel :=
  [LnConnect; LnAccept WouldBlock; LnAccept AcceptOk; LnWrite 0 (frame_of (encode_handshake (handshake_local nodeA)));
   LnServe 0; LnAccept AcceptOk; LnConnect; LnShutdown; LnAccept OtherError; LnAccept OtherError; LnJoin].
Definition listener_b : TcpClusterListener (ReqSys nat nat * N) :=
  bound nodeB (sv_dispatch server_b) hooks_none (started_b, 1%N).

Lemma listener_lifecycle_witness :
  ∃ s, ln_run no_debug stopped_listener listener_b = Some s ∧ accepted s = [0] ∧ ln_next s = 2 ∧
    ln_step no_debug LnConnect s = None.
Proof.
  destruct (ln_run no_debug stopped_listener listener_b) as [s|] eqn:Hrun;
    [|apply (f_equal is_some) in Hrun; vm_compute in Hrun; discriminate].
  pose proof Hrun as Hr. apply (f_equal (fmap (λ s, (accepted s, ln_next s, ln_owner s)))) in Hr. vm_compute in Hr.
  injection Hr as Ha Hn Ho.
  destruct (listener_lifecycle no_debug (Ok ()) nodeB (sv_dispatch server_b) hooks_none (started_b, 1%N) listener_b stopped_listener s
    eq_refl Hrun)
    as (_ & _ & Hc). exists s. destruct (Hc (eq_sym Ho) [] s eq_refl) as [Hno _].
  split_and!; [reflexivity|exact (eq_sym Ha)|exact (eq_sym Hn)|exact Hno].
Defined.

Lemma connections_outlive_listener_witness :
  ∃ s s' c', ln_run no_debug stopped_listener listener_b = Some s ∧ ln_owner s = Returned ∧
    ln_run no_debug [LnWrite 0 (frame_of (encode_cluster_frame (FActor ask_env))); LnServe 0] s = Some s' ∧
    ln_conns s' !! 0 = Some (0, c') ∧ cn_pc c' = Serving.
Proof.
  destruct (ln_run no_debug stopped_listener listener_b) as [s|] eqn:Hrun;
    [|apply (f_equal is_some) in Hrun; vm_compute in Hrun; discriminate].
  set (view := λ s : TcpClusterListener (ReqSys nat nat * N), (ln_owner s, (λ kc, (kc.1, cn_pc kc.2, cn_in kc.2)) <$> ln_conns s,
    (λ r, match fst r with Ok p => Some p | Err _ => None end) <$> sv_dispatch server_b ask_env (ln_world s))).
  assert (view <$> ln_run no_debug stopped_listener listener_b =
    Some (Returned, [(0, Serving, [])], Some (Some (Some (bits (countable.encode 7)))))) as Hr by (vm_compute; reflexivity).
  rewrite Hrun in Hr. unfold view in Hr. cbn [fmap option_fmap option_map] in Hr. injection Hr as Ho Hc Hd.
  apply fmap_cons_inv in Hc as ([k c] & l & Hc & _ & Hcs). injection Hc as <- Hpc Hin.
  apply fmap_Some in Hd as ([[p|e] w'] & Hdis & Hp); [|discriminate]. injection Hp as <-.
  destruct (connections_outlive_listener no_debug (Ok ()) nodeB (sv_dispatch server_b) hooks_none (started_b, 1%N)
    listener_b stopped_listener s 0 0 c ask_env (bits (countable.encode (FActor ask_env)))
    (frame_of (encode_cluster_frame (FActor ask_env))) (Some (bits (countable.encode 7))) w'
    (bits (countable.encode (mkWireReply 1 (bits (countable.encode 7)))))
    (frame_of (encode_wire_reply (mkWireReply 1 (bits (countable.encode 7)))))) as (s' & c' & Hx & _ & Hn & Hs' & _).
  - reflexivity.
  - exact Hrun.
  - exact Ho.
  - rewrite Hcs. reflexivity.
  - exact (eq_sym Hpc).
  - exact (eq_sym Hin).
  - discriminate.
  - vm_compute. reflexivity.
  - vm_compute. reflexivity.
  - exact Hdis.
  - vm_compute. reflexivity.
  - vm_compute. reflexivity.
  - exists s, s', c'. split_and!; [reflexivity|exact Ho|exact Hx|exact Hn|exact Hs'].
Defined.
