(* ===== verification/Libp2pRuns.v ===== *)
(** * Runs of the libp2p transport

    A swarm that satisfies the laws asked of libp2p, and runs of the transport
    with it, on which the theorems of [Libp2p] are applied. *)

From Stdlib Require Import Strings.Byte.
From stdpp Require Import pretty.
From S2P Require Import Prelude Address Errors ProcessGroups Requests RemoteSpawn Wire RemoteRefs Tcp RemoteRuns Libp2p.

(** ** A swarm *)

(** Peers and requests are numbered; what was sent is remembered, and the
    next request gets a number that no earlier one has. *)
Record PlainSwarm := mkPlain {
  ps_connected : gset N;
  ps_outbound : list (N * (N * list byte))
}.
Definition next_request (s : PlainSwarm) : N := (1 + foldr N.max 0 (ps_outbound s).*1)%N.
#[export] Instance plain_ops : SwarmOps PlainSwarm N string N N := {|
  is_connected p s := bool_decide (p ∈ ps_connected s);
  dial a s := (if decide (a = "") then Err "no address" else Ok (), s);
  send_request p f s :=
    (next_request s, mkPlain (ps_connected s) (ps_outbound s ++ [(next_request s, (p, f))]));
  send_response c f s := s;
  occurs e s := match e with
                | ConnectionEstablished p => mkPlain ({[p]} ∪ ps_connected s) (ps_outbound s)
                | ConnectionClosed p => mkPlain (ps_connected s ∖ {[p]}) (ps_outbound s)
                | _ => s
                end
|}.
Lemma max_bound l n : n ∈ l → (n ≤ foldr N.max 0 l)%N.
Proof. induction l as [|x l IH]; [by intros ?%elem_of_nil|]. simpl. intros [->|Hn%IH]%elem_of_cons; lia. Qed.
#[export] Instance plain_laws : SwarmLaws PlainSwarm N string N N.
Proof.
  refine {| outbound := ps_outbound |}; simpl; try done.
  - intros _ _ s Hin%max_bound. unfold next_request in Hin. lia.
  - by intros [] s.
  - intros p s. apply bool_decide_eq_false. set_solver.
Defined.

(** ** Node a, which knows node b as peer 2 *)

Definition peers_a : list (Libp2pPeer (PeerId := N) (Multiaddr := string)) := [mkPeer nodeB 2%N "/ip4/b"].
Definition lib_a : Config (PeerId := N) (Multiaddr := string) (W := ReqSys nat nat * N) :=
  config_of peers_a (dispatch dispatch_new) hooks_none.
Definition lib_b : Config (PeerId := N) (Multiaddr := string) (W := ReqSys nat nat * N) :=
  config_of [] (sv_dispatch server_b) hooks_none.
Definition fresh_swarm : PlainSwarm := mkPlain {[2%N]} [].
Abbreviation cluster_a := (cluster_new (Multiaddr := string) (RequestId := N) fresh_swarm (started_b, 1%N)).
Abbreviation label_a := (LibLabel (PeerId := N) (Multiaddr := string) (RequestId := N) (Channel := N)).

(** A request over libp2p runs the actor on the other node and brings its
    answer back. *)
Example libp2p_request_runs :
  fmap fst (request_envelope (libp2p_transport no_debug lib_a lib_b)
    (mkWireEnvelope worker_addr "app.Ask/v1" (bits (countable.encode 5)) 1) cluster_a) =
  Some (Ok (bits (countable.encode 7))).
Proof. vm_compute. reflexivity. Qed.

(** ** The theorems applied *)

(** An asynchronous request is sent, a broadcast queued, and the first fails. *)
Definition busy_run : list label_a :=
  [LibSend true nodeB [x01] true; LibRound None; LibSend false nodeB [x02] false; LibBroadcast [x03]].
Definition busy : Cluster (PeerId := N) (Multiaddr := string) (RequestId := N) :=
  default cluster_a (lib_run no_debug lib_a busy_run cluster_a).
Lemma busy_reached : lib_run no_debug lib_a busy_run cluster_a = Some busy.
Proof. reflexivity. Qed.

Lemma callers_answered_once_witness : NoDup (waiting busy) ∧ length (waiting busy) = 3.
Proof.
  split; [|reflexivity].
  apply (callers_answered_once no_debug lib_a busy_run fresh_swarm (started_b, 1%N) busy busy_reached).
Defined.

Definition failing_run : list label_a :=
  [LibRound (Some (OutboundFailure 1%N)); LibShutdown; LibRound None].
Lemma failed_request_not_told_witness :
  ∃ s', lib_run no_debug lib_a failing_run busy = Some s' ∧
    cl_thread s' = Some (Ok ()) ∧ ∀ expired, wait_reply true expired 0 s' = None.
Proof.
  destruct (lib_run no_debug lib_a failing_run busy) as [s'|] eqn:Hs'.
  2: { apply (f_equal (fmap cl_thread)) in Hs'. vm_compute in Hs'. discriminate. }
  exists s'. split; [reflexivity|].
  assert (lb_pending (cl_lib busy) !! 1%N = Some (AsyncTx 0)) as Hp by (vm_compute; reflexivity).
  assert (cl_thread s' = Some (Ok ()) ∧ wait_reply true true 0 s' = None) as [Ht Hw].
  { assert (fmap (λ s, (cl_thread s, wait_reply true true 0 s)) (lib_run no_debug lib_a failing_run busy) =
      Some (Some (Ok ()), None)) as Ha by (vm_compute; reflexivity).
    rewrite Hs' in Ha. cbn [fmap option_fmap option_map] in Ha. by injection Ha. }
  split; [exact Ht|].
  destruct (failed_request_not_told no_debug lib_a busy_run fresh_swarm (started_b, 1%N) busy 1%N (AsyncTx 0)
    failing_run s' busy_reached Hp Hs') as [[b Hb]|Hx].
  - specialize (Hb true true). cbn [tx_of] in Hb. rewrite Hw in Hb. discriminate.
  - exact Hx.
Defined.

Lemma bad_frame_stops_node_witness :
  ∃ s', run_swarm_round no_debug lib_a (Some (InboundRequest 9%N [])) cluster_a = Some s' ∧
    is_Some (cl_thread s').
Proof.
  assert (∃ e w, handle_inbound_frame no_debug lib_a [] (started_b, 1%N) = Some (Err e, w)) as (e & w & Hf)
    by (eexists _, _; reflexivity).
  destruct (bad_frame_stops_node no_debug lib_a cluster_a 9%N [] e w) as (s' & Hs & Ht & _).
  - by split_and!.
  - exact Hf.
  - exists s'. split; [exact Hs|]. rewrite Ht. by eexists.
Defined.

Lemma synced_on_first_connection_witness :
  ∃ s1 s2, run_swarm_round (Channel := N) no_debug lib_a (Some (ConnectionEstablished 2%N)) cluster_a = Some s1 ∧
    run_swarm_round (Channel := N) no_debug lib_a (Some (ConnectionEstablished 2%N)) s1 = Some s2 ∧
    length (outbound (lb_swarm (cl_lib s1))) = 2 ∧ length (outbound (lb_swarm (cl_lib s2))) = 2.
Proof.
  assert (∃ fs, snapshot_frames lib_a (started_b, 1%N) = Ok fs ∧ length fs = 2) as (fs & Hf & Hl)
    by (eexists; split; reflexivity).
  destruct (synced_on_first_connection no_debug lib_a cluster_a 2%N fs) as (s1 & Hs1 & Hr1 & Hin & Ho1);
    [by split_and!|exact Hf|].
  destruct (synced_on_first_connection no_debug lib_a s1 2%N fs) as (s2 & Hs2 & _ & _ & Ho2); [exact Hr1| |].
  { assert (lb_world (cl_lib s1) = (started_b, 1%N)) as -> by (injection Hs1 as <-; reflexivity). exact Hf. }
  exists s1, s2. split; [exact Hs1|]. split; [exact Hs2|].
  rewrite decide_True in Ho2 by exact Hin. rewrite decide_False in Ho1 by (intros Hx; by apply elem_of_empty in Hx).
  apply (f_equal length) in Ho1, Ho2. rewrite length_app, !length_fmap in Ho1, Ho2. rewrite (length_fmap (pair 2%N) fs), Hl in Ho1.
  cbn [length] in Ho2. rewrite Nat.add_0_r in Ho2. split; [exact Ho1|]. rewrite Ho2. exact Ho1.
Defined.
