(* ===== verification/Libp2pApi.v ===== *)
(** * The rest of the libp2p transport's interface

    [Libp2pCluster] of [cluster/src/libp2p/mod.rs] beyond the requests to
    actors: supervision events and requests, broadcasts of registry and group
    events, the synchronisation of all peers. A method puts a command in the
    queue of the swarm's thread and waits for its answer; as in [send_frame]
    of [Libp2p] the thread takes it at once.

    The theorems say that a supervision request has the same result over
    either transport, and that broadcasts, which over TCP stop at the first
    peer that cannot be reached, reach every peer here. *)

From Stdlib Require Import Strings.Byte.
From S2P Require Import Prelude Address Errors Mailbox Links Actor Requests ProcessGroups Registry RemoteSpawn Wire RemoteRefs Tcp Libp2p RemoteRuns Libp2pRuns.

Section api.
Context {Sw PeerId Multiaddr RequestId Channel : Type}.
Context `{Countable PeerId} `{Countable RequestId}.
Context `{SW : !SwarmOps Sw PeerId Multiaddr RequestId Channel, !SwarmLaws Sw PeerId Multiaddr RequestId Channel}.
Context {W : Type} `{CodecsLaws} (debug : SupervisionEvent → string).
Abbreviation config := (Config (PeerId := PeerId) (Multiaddr := Multiaddr) (W := W)).
Abbreviation cluster := (Cluster (Sw := Sw) (PeerId := PeerId) (Multiaddr := Multiaddr) (RequestId := RequestId) (W := W)).
Abbreviation event := (SwarmEvent PeerId Multiaddr RequestId Channel).
Context (cf peer : config).
Implicit Types s : cluster.

Definition send_supervision_to (n : NodeId) (envelope : SupervisionEnvelope) : Call cluster () TransportError :=
  _ ←? call_of (validate_envelope debug envelope);
  if decide (correlation_id envelope ≠ 0%N)
  then call_of (Err (Protocol "send_supervision requires correlation_id 0"))
  else
    bytes ←? call_of (encode_supervision_frame envelope);
    _ ←? send_frame debug cf peer n bytes false; call_of (Ok ()).

Definition request_supervision_from (n : NodeId) (envelope : SupervisionEnvelope)
    : Call cluster SupervisionEnvelope TransportError :=
  _ ←? call_of (validate_envelope debug envelope);
  bytes ←? call_of (encode_supervision_frame envelope);
  reply_bytes ←? send_frame debug cf peer n bytes true;
  if bool_decide (reply_bytes = []) then call_of (Err (Protocol "supervision request received empty reply"))
  else call_of (decode_supervision_reply debug envelope reply_bytes).

(** A command whose answer is empty: [libp2p_broadcast_frame], [sync_peer]. *)
Definition void_command (cmd : N → RuntimeCommand (PeerId := PeerId)) : Call cluster () TransportError := λ s,
  match send_command cmd s with
  | (Err e, s) => Some (Err e, s)
  | (Ok tx, s) =>
      s ← run_swarm_round debug cf (None : option event) s;
      r ← wait_reply false true tx s; Some (match r with Ok _ => Ok () | Err e => Err e end, s)
  end.
Definition libp2p_broadcast_frame (frame : list byte) : Call cluster () TransportError :=
  void_command (λ tx, CmdBroadcast frame (SyncTx tx)).
Definition sync_peer (p : PeerId) : Call cluster () TransportError :=
  void_command (λ tx, CmdSyncPeer p (SyncTx tx)).

Definition libp2p_broadcast_registry (ev : Names.RegistryEvent) : Call cluster () TransportError :=
  bytes ←? call_of (encode_registry_event ev); libp2p_broadcast_frame bytes.
Definition libp2p_broadcast_pg (ev : PgEvent) : Call cluster () TransportError :=
  bytes ←? call_of (encode_pg_event ev); libp2p_broadcast_frame bytes.
(** The peers in the iteration order of the map. *)
Definition libp2p_sync_peers : Call cluster () TransportError :=
  for_each_call sync_peer (snd <$> map_to_list (cf_node_to_peer cf)).

(** ** Supervision requests *)

(** What the peer makes of a supervision request. *)
Lemma inbound_supervision env bs w :
  encode_supervision_frame env = Ok bs →
  handle_inbound_frame debug peer bs w =
    match apply_supervision debug (ctl_supervision (cf_control peer)) env w with
    | Some (Ok reply, w') => Some (match reply with Some r => encode_supervision r | None => Ok [] end, w')
    | Some (Err e, w') => Some (Err e, w')
    | None => None
    end.
Proof.
  intros He. unfold handle_inbound_frame, decode_cluster_frame. unfold encode_supervision_frame in He.
  destruct (encode_cluster_frame (FSupervision env)) as [b|] eqn:Hc; simplify_eq/=.
  rewrite (decode_encode _ _ Hc). unfold call_bind, call_of. cbn [result_map_err mbind option_bind].
  by destruct (apply_supervision _ _ env w) as [[[r|] w']|].
Qed.

(** C39: A supervision request, of which a spawn request is one, has over a libp2p
    connection the result it has over an idle TCP connection to a node with
    the same hooks: where TCP returns the reply of the other broker, so does
    libp2p, and the nodes are left in the same state. *)
Theorem supervision_same_over_both (listening : string → option (Server W)) t n env (ts : TcpSys W) c s bs out reply w' :
  ts_conns ts !! n = Some c → idle c → connected_to cf n s →
  ctl_supervision (cf_control peer) = ctl_supervision (sv_control (cn_server c)) →
  ts_world ts = lb_world (cl_lib s) →
  validate_envelope debug env = Ok () → encode_supervision_frame env = Ok bs → write_frame bs = Ok out →
  spawn_outcome debug (cn_server c) env (ts_world ts) = (Some reply, w') → encode_supervision reply ≠ Ok [] →
  ∃ s', request_supervision debug listening t n env ts = Some (Ok reply, mkTcpSys (ts_conns ts) w') ∧
    request_supervision_from n env s = Some (Ok reply, s') ∧ lb_world (cl_lib s') = w' ∧ connected_to cf n s'.
Proof.
  intros Hc Hi Hcon Hctl Hwo Hv He Hw Hout Hne.
  pose proof (spawn_request_exact debug listening t n env ts c bs out Hc Hi Hv He Hw) as Htcp. rewrite Hout in Htcp.
  destruct Htcp as (r & Htcp & ->). unfold spawn_outcome in Hout.
  pose proof (inbound_supervision env bs (lb_world (cl_lib s)) He) as Hin. rewrite Hctl, <- Hwo in Hin.
  destruct (apply_supervision debug (ctl_supervision (sv_control (cn_server c))) env (ts_world ts))
    as [[[[rp|]|e] w1]|]; simplify_eq.
  destruct (encode_supervision rp) as [rb|] eqn:Her; [|simplify_eq].
  destruct (write_frame rb) as [ro|] eqn:Hwr; simplify_eq/=.
  destruct (validate_reply debug env rp) as [[]|] eqn:Hvr; simplify_eq/=.
  rewrite Hwo in Hin. destruct (send_frame_answered debug cf peer n s bs out (Ok rb) w' Hcon Hw Hin ro Hwr) as (s' & Hs & Hws & Hcs).
  exists s'. split; [done|]. split; [|done]. unfold request_supervision_from, call_bind, call_of.
  rewrite Hv. cbn [mbind option_bind]. rewrite He, Hs. cbn [mbind option_bind].
  rewrite bool_decide_eq_false_2 by congruence. unfold decode_supervision_reply, decode_supervision.
  unfold encode_supervision in Her. destruct (to_allocvec reply) as [rb'|] eqn:Hto; [|done]. injection Her as ->.
  rewrite (from_to_bytes reply rb Hto). cbn [result_map_err]. by rewrite Hvr.
Qed.

(** ** Broadcasts *)

(** The peers that are not connected can be dialed. *)
Definition dialable (p : PeerId) : Prop :=
  ∀ sw : Sw, is_connected p sw = true ∨
    match cf_peer_addrs cf !! p with Some a => (dial a sw).1 = Ok () | None => True end.

Lemma dialed_outbound p (lb : Lib Sw PeerId Multiaddr RequestId W) :
  dialable p →
  ∃ lb', ensure_peer_dialed cf p lb = Some (Ok (), lb') ∧ lb_deferred lb' = lb_deferred lb ∧ lb_world lb' = lb_world lb ∧
    lb_chans lb' = lb_chans lb ∧ lb_synced lb' = lb_synced lb ∧ outbound (lb_swarm lb') = outbound (lb_swarm lb).
Proof.
  intros Hd. unfold ensure_peer_dialed. destruct (is_connected p (lb_swarm lb)) eqn:Hc; [by exists lb|].
  destruct (Hd (lb_swarm lb)) as [?|Hx]; [congruence|]. destruct (cf_peer_addrs cf !! p) as [a|]; [|by exists lb].
  pose proof (outbound_dial _ _ _ _ _ a (lb_swarm lb)) as Ho. destruct (dial a (lb_swarm lb)) as [r sw]. simpl in *. subst r.
  by exists (set_swarm sw lb).
Qed.

Lemma broadcast_loop_reaches frame ps (lb : Lib Sw PeerId Multiaddr RequestId W) :
  Forall dialable ps →
  ∃ lb', for_each_call (λ p, _ ←? ensure_peer_dialed cf p; λ lb, Some (Ok (), hand_over p frame lb)) ps lb = Some (Ok (), lb') ∧
    lb_deferred lb' = lb_deferred lb ∧ lb_world lb' = lb_world lb ∧ lb_chans lb' = lb_chans lb ∧
    (snd <$> outbound (lb_swarm lb')) = (snd <$> outbound (lb_swarm lb)) ++ ((λ p, (p, frame)) <$> ps).
Proof.
  intros Hps. revert lb. induction Hps as [|p ps Hp _ IH]; intros lb; [exists lb; by rewrite app_nil_r|].
  destruct (dialed_outbound p lb Hp) as (lb1 & He & Hd1 & Hw1 & Hc1 & _ & Ho1).
  destruct (IH (hand_over p frame lb1)) as (lb2 & Hl & Hd2 & Hw2 & Hc2 & Ho2).
  exists lb2. cbn [for_each_call]. unfold call_bind at 1 2. rewrite He. cbn [mbind option_bind]. rewrite Hl.
  split_and!; [done|by rewrite Hd2|by rewrite Hw2|by rewrite Hc2|].
  rewrite Ho2. simpl. by rewrite outbound_send, fmap_app, Ho1, <- app_assoc.
Qed.

(** Over libp2p a broadcast of a registry or group event hands the event to
    the swarm once for every peer of the configuration, connected or not, and
    reports success. (Over TCP it stops at the first peer that cannot be
    reached.) *)
Theorem broadcast_reaches_all frame s :
  at_rest s → Forall dialable (fst <$> map_to_list (cf_peer_to_node cf)) →
  ∃ s', libp2p_broadcast_frame frame s = Some (Ok (), s') ∧ at_rest s' ∧ lb_world (cl_lib s') = lb_world (cl_lib s) ∧
    (snd <$> outbound (lb_swarm (cl_lib s'))) =
      (snd <$> outbound (lb_swarm (cl_lib s))) ++ ((λ p, (p, frame)) <$> (fst <$> map_to_list (cf_peer_to_node cf))).
Proof.
  intros (Ht & Hsh & Hc & Hd) Hps. unfold libp2p_broadcast_frame, void_command, send_command. rewrite Ht, Hc. cbn [app].
  unfold run_swarm_round. cbn [cl_thread cl_shutdown cl_cmds cl_lib cl_next]. rewrite Hsh. cbn [drain handle_command].
  set (lb0 := set_chans _ _).
  destruct (broadcast_loop_reaches frame _ lb0 Hps) as (lb1 & Hl & Hd1 & Hw1 & Hc1 & Ho1).
  unfold or_drop. unfold call_bind at 1. rewrite Hl. cbn [mbind option_bind].
  rewrite flush_none by (simpl; by rewrite Hd1). cbn [mbind option_bind].
  unfold wait_reply. cbn [cl_lib lb_chans complete set_chans tx_of]. rewrite lookup_insert_eq. cbn [mbind option_bind].
  eexists. split; [done|]. split; [by unfold at_rest; simpl; rewrite Hd1|]. simpl. by rewrite Hw1, Ho1.
Qed.
End api.

(** ** Two nodes *)

(** A supervision request to a node whose broker answers. *)
Definition answering : ControlPlaneHooks (ReqSys nat nat * N) :=
  with_supervision (mkSupervisionHooks (Some (λ e w, Some (Ok (Some (mkEnvelope (correlation_id e) (SpawnErr "full"))), w))))
    hooks_none.
Definition lib_b_answering : Config (PeerId := N) (Multiaddr := string) (W := ReqSys nat nat * N) :=
  config_of [] (sv_dispatch server_b) answering.
Definition tcp_b_answering : Server (ReqSys nat nat * N) := mkServer nodeB (sv_dispatch server_b) answering.
Definition ask_spawn : SupervisionEnvelope :=
  mkEnvelope 7 (SpawnRequest (on nodeA (from_raw 3)) nodeB (WorkerSpec "w" []) true).
Definition tcp_to_b : TcpSys (ReqSys nat nat * N) := mkTcpSys {[nodeB := idle_conn tcp_b_answering]} (started_b, 1%N).
Lemma connected_a : connected_to lib_a nodeB cluster_a.
Proof. split; [done|]. split; [apply cluster_new_inv|]. by exists 2%N. Qed.

Lemma supervision_same_over_both_witness :
  ∃ s', request_supervision no_debug (λ _, None) tcp_a nodeB ask_spawn tcp_to_b =
      Some (Ok (mkEnvelope 7 (SpawnErr "full")), tcp_to_b) ∧
    request_supervision_from no_debug lib_a lib_b_answering nodeB ask_spawn cluster_a =
      Some (Ok (mkEnvelope 7 (SpawnErr "full")), s').
Proof.
  destruct (write_frame (bits (countable.encode (FSupervision ask_spawn)))) as [out|] eqn:Hw.
  2: { apply (f_equal is_ok) in Hw. vm_compute in Hw. discriminate. }
  destruct (supervision_same_over_both no_debug lib_a lib_b_answering (λ _, None) tcp_a nodeB ask_spawn tcp_to_b
    (idle_conn tcp_b_answering) cluster_a (bits (countable.encode (FSupervision ask_spawn))) out
    (mkEnvelope 7 (SpawnErr "full")) (started_b, 1%N)) as (s' & Ht & Hl & _).
  - reflexivity.
  - apply idle_conn_idle.
  - exact connected_a.
  - reflexivity.
  - reflexivity.
  - reflexivity.
  - reflexivity.
  - exact Hw.
  - unfold spawn_outcome. vm_compute. reflexivity.
  - intros Hx. apply (f_equal (λ r, match r with Ok l => length l | Err _ => 0 end)) in Hx. vm_compute in Hx. discriminate.
  - exists s'. split; [exact Ht|exact Hl].
Defined.

Lemma broadcast_reaches_all_witness :
  ∃ s', libp2p_broadcast_frame no_debug lib_a [x01] cluster_a = Some (Ok (), s') ∧
    (snd <$> outbound (lb_swarm (cl_lib s'))) = [(2%N, [x01])].
Proof.
  destruct (broadcast_reaches_all no_debug lib_a [x01] cluster_a) as (s' & Hb & _ & _ & Ho).
  - split_and!; reflexivity.
  - apply Forall_singleton. intros sw. right. reflexivity.
  - exists s'. split; [exact Hb|exact Ho].
Defined.
