(* ===== verification/Federation.v ===== *)
(** * Registries exchanged over TCP

    What [NodeBuilder::build] of [concurrency/src/cluster/node.rs] connects:
    the names of [Registry] and the groups of [ProcessGroups] are the hooks of
    the TCP transport, so that two nodes exchange what they own when one
    connects to the other. *)

From stdpp Require Import pretty.
From S2P Require Import Prelude Address Errors ProcessGroups Registry RemoteSpawn Wire RemoteRefs Tcp RemoteRuns.

(** The statics of one process. *)
Record NodeStores := mkNodeStores { ns_names : Names.NamedStore; ns_pg : PgStore }.

(** Node [me] of two nodes, [n1] and [n2], as the hooks that [build] gives to
    [ControlPlaneHooks::federated]. *)
Section two_nodes.
Context (n1 n2 : NodeId).

Definition register_at (e : Names.RegistryEvent) (x : NodeStores) : NodeStores :=
  mkNodeStores (Names.apply_remote_event e (ns_names x)) (ns_pg x).
Definition join_at (me : NodeId) (e : PgEvent) (x : NodeStores) : NodeStores :=
  mkNodeStores (ns_names x) (apply_remote_pg_event (H := me) e (ns_pg x)).

Definition stores_1 : Stores (W := NodeStores * NodeStores) := mkStores
  (λ e w, (register_at e w.1, w.2)) (λ w, Names.local_snapshot (ns_names w.1))
  (λ e w, (join_at n1 e w.1, w.2)) (λ w, local_pg_snapshot (ns_pg w.1)).
Definition stores_2 : Stores (W := NodeStores * NodeStores) := mkStores
  (λ e w, (w.1, register_at e w.2)) (λ w, Names.local_snapshot (ns_names w.2))
  (λ e w, (w.1, join_at n2 e w.2)) (λ w, local_pg_snapshot (ns_pg w.2)).

(** What the two processes hold after node 1 has connected to node 2. *)
Definition synced_stores (w : NodeStores * NodeStores) : NodeStores * NodeStores :=
  (mkNodeStores
     (Names.apply_remote_event (Names.Snapshot (Names.local_snapshot (ns_names w.2))) (ns_names w.1))
     (apply_remote_pg_event (H := n1) (PgSnapshot (local_pg_snapshot (ns_pg w.2))) (ns_pg w.1)),
   mkNodeStores
     (Names.apply_remote_event (Names.Snapshot (Names.local_snapshot (ns_names w.1))) (ns_names w.2))
     (apply_remote_pg_event (H := n2) (PgSnapshot (local_pg_snapshot (ns_pg w.1))) (ns_pg w.2))).

Lemma foldl_register l w :
  foldl (λ w e, st_register stores_1 (Names.Register e.1 e.2) w) w l =
    (mkNodeStores (foldl (λ st e, Names.apply_register e.1 e.2 st) (ns_names w.1) l) (ns_pg w.1), w.2).
Proof. revert w. induction l as [|e l IH]; intros [[na pa] b]; [done|]. simpl. by rewrite IH. Qed.
Lemma foldl_join l w :
  foldl (λ w e, st_join stores_1 (PgJoin (pe_key e) (pe_address e)) w) w l =
    (mkNodeStores (ns_names w.1)
       (foldl (λ st e, apply_remote_join (H := n1) (pe_key e) (pe_address e) st) (ns_pg w.1) l), w.2).
Proof. revert w. induction l as [|e l IH]; intros [[na pa] b]; [done|]. simpl. by rewrite IH. Qed.

(** Applying the entries one by one or as a snapshot is the same. *)
Lemma after_connect_synced w : after_connect stores_1 stores_2 w = synced_stores w.
Proof.
  destruct w as [[na pa] [nb pb]]. unfold after_connect. rewrite foldl_register, foldl_join. done.
Qed.
End two_nodes.

(** ** Names *)

Lemma local_snapshot_spec st name a :
  (name, a) ∈ Names.local_snapshot st ↔
    is_Some (Names.handles st !! name) ∧ Names.addresses st !! name = Some a.
Proof.
  unfold Names.local_snapshot. rewrite list_elem_of_omap. split.
  - intros ([n h] & Hn & Ha). simpl in Ha. destruct (Names.addresses st !! n) eqn:Hx; [|done].
    simplify_eq/=. apply elem_of_map_to_list in Hn. eauto.
  - intros [[h Hh] Ha]. exists (name, h). split; [by apply elem_of_map_to_list|]. simpl. by rewrite Ha.
Qed.

Lemma local_snapshot_NoDup st : NoDup (Names.local_snapshot st).*1.
Proof.
  unfold Names.local_snapshot. pose proof (NoDup_fst_map_to_list (Names.handles st)) as Hnd.
  induction (map_to_list (Names.handles st)) as [|[n h] l IH]; [constructor|].
  csimpl in Hnd. apply NoDup_cons in Hnd as [Hn Hnd]. csimpl.
  destruct (Names.addresses st !! n) as [a|]; csimpl; [|auto]. apply NoDup_cons. split; [|auto].
  intros ([m b] & Hm & (x & Hx & Hb)%list_elem_of_omap)%list_elem_of_fmap. simpl in Hm. subst m.
  destruct (Names.addresses st !! x.1); [|done]. simplify_eq/=. apply Hn. by apply list_elem_of_fmap_2.
Qed.

(** Entries of other names do not matter; a free name is taken. *)
Lemma register_entries l st name :
  NoDup l.*1 → Names.handles st !! name = None →
  Names.addresses (foldl (λ st e, Names.apply_register e.1 e.2 st) st l) !! name =
    match Names.addresses st !! name with
    | Some a => Some a
    | None => snd <$> iter_find (λ e : string * ActorAddress, bool_decide (e.1 = name)) l
    end.
Proof.
  revert st. induction l as [|[n a] l IH]; intros st Hnd Hh; [simpl; by destruct (Names.addresses st !! name)|].
  csimpl in Hnd. apply NoDup_cons in Hnd as [Hn Hnd]. cbn [foldl fst snd iter_find].
  rewrite IH; [|done|by rewrite Names.apply_register_handles]. case_bool_decide as Hc.
  - subst n. unfold Names.apply_register. rewrite bool_decide_eq_false_2 by (rewrite Hh; by intros []).
    destruct (Names.addresses st !! name) as [b|] eqn:Hb; [case_decide; simpl|simpl].
    + subst. by rewrite lookup_insert_eq.
    + by rewrite Hb.
    + by rewrite lookup_insert_eq.
  - assert (Names.addresses (Names.apply_register n a st) !! name = Names.addresses st !! name) as ->; [|done].
    unfold Names.apply_register. case_bool_decide; [done|].
    destruct (Names.addresses st !! n); [case_decide|]; simpl; rewrite ?lookup_insert_ne by done; done.
Qed.

Lemma learns_name mine theirs name a :
  Names.handles mine !! name = None →
  Names.addresses mine !! name = None ∨ Names.addresses mine !! name = Some a →
  is_Some (Names.handles theirs !! name) → Names.addresses theirs !! name = Some a →
  Names.lookup_address name
    (Names.apply_remote_event (Names.Snapshot (Names.local_snapshot theirs)) mine) = Some a.
Proof.
  intros Hh Ha Ht Hta. unfold Names.lookup_address. cbn [Names.apply_remote_event].
  rewrite register_entries by (done || apply local_snapshot_NoDup).
  destruct Ha as [->| ->]; [|done].
  destruct (iter_find _ (Names.local_snapshot theirs)) as [[n b]|] eqn:Hf.
  - apply iter_find_Some in Hf as [Hin Hb]. bool_simpl. simpl in Hb. subst n.
    apply local_snapshot_spec in Hin as [_ Hb]. simpl. congruence.
  - exfalso. assert ((name, a) ∈ Names.local_snapshot theirs) as Hin by by apply local_snapshot_spec.
    apply (proj1 (iter_find_None _ _) Hf) in Hin. bool_simpl. by apply Hin.
Qed.

(** ** Groups *)

Lemma local_pg_snapshot_spec st key a : mkPgMemberEntry key a ∈ local_pg_snapshot st ↔ is_Some (mem st key a).
Proof.
  unfold local_pg_snapshot, mem. rewrite list_elem_of_bind. split.
  - intros ([k ms] & Hin & Hk%elem_of_map_to_list). apply list_elem_of_fmap in Hin as ([b m] & Hb & Hm).
    apply elem_of_map_to_list in Hm. simplify_eq/=. rewrite Hk. simpl. eauto.
  - intros [m Hm]. apply bind_Some in Hm as (ms & Hk & Hm). exists (key, ms).
    split; [|by apply elem_of_map_to_list]. apply list_elem_of_fmap. exists (a, m).
    split; [done|by apply elem_of_map_to_list].
Qed.

Definition entry_count (key : GroupKey) (a : ActorAddress) (l : list PgMemberEntry) : nat :=
  length (filter (λ e, pe_key e = key ∧ pe_address e = a) l).

Lemma entry_count_app key a l k : entry_count key a (l ++ k) = entry_count key a l + entry_count key a k.
Proof. unfold entry_count. by rewrite filter_app, length_app. Qed.
Lemma entry_count_cons key a e l :
  entry_count key a (e :: l) = (if decide (pe_key e = key ∧ pe_address e = a) then 1 else 0) + entry_count key a l.
Proof. unfold entry_count. rewrite filter_cons. by case_decide. Qed.
#[local] Instance entry_count_perm key a : Proper ((≡ₚ) ==> (=)) (entry_count key a).
Proof. intros l k Hp. unfold entry_count. by rewrite Hp. Qed.

Lemma group_count key a k (ms : gmap ActorAddress Member) :
  entry_count key a (mkPgMemberEntry k ∘ fst <$> map_to_list ms) =
    if decide (k = key ∧ is_Some (ms !! a)) then 1 else 0.
Proof.
  induction ms as [|b m ms Hb IH] using map_ind.
  - rewrite map_to_list_empty. rewrite decide_False; [done|]. rewrite lookup_empty. by intros [_ []].
  - rewrite map_to_list_insert, fmap_cons, entry_count_cons, IH by done. cbn [pe_key pe_address compose fst]. rewrite lookup_insert.
    destruct (decide (b = a)) as [->|Hne].
    + rewrite Hb. rewrite (decide_False (P := k = key ∧ is_Some None)) by (by intros [_ []]).
      repeat case_decide; naive_solver.
    + rewrite (decide_False (P := k = key ∧ b = a)) by naive_solver. done.
Qed.

(** A membership is listed once. *)
Lemma snapshot_count st key a :
  entry_count key a (local_pg_snapshot st) = if decide (is_Some (mem st key a)) then 1 else 0.
Proof.
  unfold local_pg_snapshot, mem. induction (groups st) as [|k ms g Hk IH] using map_ind.
  - rewrite map_to_list_empty, lookup_empty. rewrite decide_False; [done|]. by intros [].
  - rewrite map_to_list_insert, bind_cons, entry_count_app, group_count, IH, lookup_insert by done.
    destruct (decide (k = key)) as [->|Hne]; cbn [mbind option_bind].
    + rewrite Hk. cbn [mbind option_bind]. rewrite (decide_False (P := is_Some None)) by (by intros []).
      rewrite Nat.add_0_r. repeat case_decide; naive_solver.
    + rewrite (decide_False (P := k = key ∧ _)) by naive_solver. done.
Qed.

(** Each listed membership adds one join to the count that the reader keeps. *)
Lemma snapshot_joins (me : NodeId) l st key a :
  is_local (H := me) a = false → Forall (λ e, is_local (H := me) (pe_address e) = false) l →
  (0 ≤ remote_joins st key a)%Z → (remote_joins st key a + Z.of_nat (entry_count key a l) < JOINS_LIMIT)%Z →
  remote_joins (apply_remote_pg_event (H := me) (PgSnapshot l) st) key a =
    (remote_joins st key a + Z.of_nat (entry_count key a l))%Z.
Proof.
  intros Ha Hl. cbn [apply_remote_pg_event]. revert st. induction Hl as [|e l He Hl IH]; intros st H0 Hlt.
  - simpl. unfold entry_count. simpl. lia.
  - cbn [foldl]. rewrite entry_count_cons in *.
    assert (remote_joins (apply_remote_join (H := me) (pe_key e) (pe_address e) st) key a =
      (remote_joins st key a + if decide (pe_key e = key ∧ pe_address e = a) then 1 else 0)%Z) as Hj.
    { rewrite remote_joins_join by done. unfold remote_joins in *.
      destruct (decide (pe_key e = key ∧ pe_address e = a)) as [[<- <-]|Hne].
      - rewrite decide_True by done. destruct (rmem st (pe_key e) (pe_address e)) as [m|]; [|done].
        rewrite u32_wrap_small; lia.
      - rewrite decide_False by naive_solver. lia. }
    destruct (decide (pe_key e = key ∧ pe_address e = a)); (rewrite IH; rewrite Hj; lia).
Qed.

(** What one node lists belongs to it. *)
Lemma snapshot_foreign (me peer : NodeId) st :
  me ≠ peer → ok (H := peer) st →
  Forall (λ e, is_local (H := me) (pe_address e) = false) (local_pg_snapshot st).
Proof.
  intros Hne [_ Hown]. apply Forall_forall. intros [k a] Hin. apply local_pg_snapshot_spec in Hin as [m Hm].
  apply Hown in Hm. subst a. apply foreign_not_local. by intros ->.
Qed.

Section sync.
Context (n1 n2 : NodeId) (Hne : n1 ≠ n2).
Implicit Types w : NodeStores * NodeStores.

Definition stores_ok w : Prop := ok (H := n1) (ns_pg w.1) ∧ ok (H := n2) (ns_pg w.2).

Lemma synced_pg w key i :
  stores_ok w → (0 ≤ remote_joins (ns_pg w.1) key (on n2 i) < JOINS_LIMIT - 1)%Z →
  stores_ok (synced_stores n1 n2 w) ∧
  counts (H := n2) (ns_pg (synced_stores n1 n2 w).2) key i = counts (H := n2) (ns_pg w.2) key i ∧
  remote_joins (ns_pg (synced_stores n1 n2 w).1) key (on n2 i) =
    (remote_joins (ns_pg w.1) key (on n2 i) + if decide (0 < counts (H := n2) (ns_pg w.2) key i)%Z then 1 else 0)%Z.
Proof.
  intros [H1 H2] Hlim. split; [|split].
  - split; by apply apply_remote_ok.
  - unfold counts, joins. cbn [synced_stores snd ns_pg]. by rewrite mem_apply_remote.
  - pose proof (snapshot_count (ns_pg w.2) key (on n2 i)) as Hc.
    cbn [synced_stores fst ns_pg]. rewrite snapshot_joins.
    + rewrite Hc. unfold counts, joins. destruct (mem (ns_pg w.2) key (local_addr i)) as [m|] eqn:Hm.
      * pose proof (inv_joins _ (proj1 H2) _ _ _ Hm). change (local_addr i) with (on n2 i) in Hm.
        rewrite Hm. by rewrite !decide_True by (eauto || lia).
      * change (local_addr i) with (on n2 i) in Hm. rewrite Hm. rewrite !decide_False; [done|lia|by intros []].
    + by apply foreign_not_local.
    + by apply (snapshot_foreign n1 n2).
    + lia.
    + rewrite Hc. case_decide; lia.
Qed.
End sync.

Section connected.
Context (n1 n2 : NodeId) (Hne : n1 ≠ n2).
Implicit Types w : NodeStores * NodeStores.

(** The connection is symmetric in the groups: node 2 learns what node 1 has. *)
Lemma synced_pg_back w key i :
  stores_ok n1 n2 w → (0 ≤ remote_joins (ns_pg w.2) key (on n1 i) < JOINS_LIMIT - 1)%Z →
  remote_joins (ns_pg (synced_stores n1 n2 w).2) key (on n1 i) =
    (remote_joins (ns_pg w.2) key (on n1 i) + if decide (0 < counts (H := n1) (ns_pg w.1) key i)%Z then 1 else 0)%Z.
Proof.
  intros [H1 H2] Hlim.
  exact (proj2 (proj2 (synced_pg n2 n1 (not_eq_sym Hne) (w.2, w.1) key i (conj H2 H1) Hlim))).
Qed.

(** C17: Two nodes that connect know each other's names and groups: after node
    1 has connected to node 2, every name that one of them owns and that was
    free on the other resolves there to its owner's actor, and every member
    that one of them has in a group is counted once more at the other, in both
    directions; a count that is not of a member of the other is left as it was.
    Names owned locally are not touched. *)
Theorem connect_federates `{CodecsLaws} debug listening (t : TcpTransport (NodeStores * NodeStores)) addr sv
    sup1 sup2 w :
  peer_addr t n2 = Some addr → listening addr = Some sv → tt_local t = n1 → sv_node sv = n2 →
  tt_control t = hooks_of (stores_1 n1) sup1 → sv_control sv = hooks_of (stores_2 n2) sup2 →
  connectable (stores_1 n1) (stores_2 n2) n1 n2 w → stores_ok n1 n2 w →
  Names.owned (H := n1) (ns_names w.1) → Names.owned (H := n2) (ns_names w.2) →
  ∃ c w', connect debug listening t n2 w = Some (Ok c, w') ∧ idle c ∧
    (∀ name i, Names.lookup_handle name (ns_names w.2) = Some i →
       Names.lookup_address name (ns_names w.1) = None → Names.lookup_handle name (ns_names w.1) = None →
       Names.lookup_address name (ns_names w'.1) = Some (on n2 i)) ∧
    (∀ name i, Names.lookup_handle name (ns_names w.1) = Some i →
       Names.lookup_address name (ns_names w.2) = None → Names.lookup_handle name (ns_names w.2) = None →
       Names.lookup_address name (ns_names w'.2) = Some (on n1 i)) ∧
    (∀ key i, (0 ≤ remote_joins (ns_pg w.1) key (on n2 i) < JOINS_LIMIT - 1)%Z →
       remote_joins (ns_pg w'.1) key (on n2 i) = (remote_joins (ns_pg w.1) key (on n2 i) +
         if decide (0 < counts (H := n2) (ns_pg w.2) key i)%Z then 1 else 0)%Z) ∧
    (∀ key i, (0 ≤ remote_joins (ns_pg w.2) key (on n1 i) < JOINS_LIMIT - 1)%Z →
       remote_joins (ns_pg w'.2) key (on n1 i) = (remote_joins (ns_pg w.2) key (on n1 i) +
         if decide (0 < counts (H := n1) (ns_pg w.1) key i)%Z then 1 else 0)%Z) ∧
    Names.handles (ns_names w'.1) = Names.handles (ns_names w.1) ∧
    Names.handles (ns_names w'.2) = Names.handles (ns_names w.2).
Proof.
  intros Ha Hl Ht Hsv Hct Hcs Hcb Hok Ho1 Ho2.
  destruct (connect_exact debug listening t _ addr sv _ _ sup1 sup2 w Ha Hl Hct Hcs) as (c & Hc & Hi & _);
    [by rewrite Ht, Hsv|].
  rewrite after_connect_synced in Hc. exists c, (synced_stores n1 n2 w).
  split_and!; [done|done| | | | |by apply Names.apply_event_handles|by apply Names.apply_event_handles].
  - intros name i Hh Hf Hf'. apply learns_name; [done|by left|by eexists|by apply Ho2].
  - intros name i Hh Hf Hf'. apply learns_name; [done|by left|by eexists|by apply Ho1].
  - intros key i Hlim. by apply (synced_pg n1 n2).
  - intros key i Hlim. by apply synced_pg_back.
Qed.

(** Connecting again counts again: a member that joined once and was
    exchanged on two connections (a reconnection, or one connection in each
    direction) is counted twice by its peer, so that when it leaves, the
    single [Leave] that is published does not remove it there. *)
Theorem reconnect_keeps_stale_member w key i :
  stores_ok n1 n2 w → counts (H := n2) (ns_pg w.2) key i = 1%Z → remote_joins (ns_pg w.1) key (on n2 i) = 0%Z →
  let w' := synced_stores n1 n2 (synced_stores n1 n2 w) in
  let s := federate n2 n1 (OpLeave key i) (ns_pg w'.2, ns_pg w'.1) in
  counts (H := n2) s.1 key i = 0%Z ∧ remote_joins s.2 key (on n2 i) = 1%Z.
Proof.
  intros Hok Hc Hr w' s. destruct (synced_pg n1 n2 Hne w key i Hok) as (Hok1 & Hc1 & Hr1); [rewrite Hr; done|].
  rewrite Hc, Hr in *. rewrite decide_True in Hr1 by done.
  destruct (synced_pg n1 n2 Hne (synced_stores n1 n2 w) key i Hok1) as (Hok2 & Hc2 & Hr2); [by rewrite Hr1|].
  rewrite Hc1, Hr1 in *. rewrite decide_True in Hr2 by done. fold w' in Hok2, Hc2, Hr2.
  assert (at_counts n2 key i 1 2 (ns_pg w'.2, ns_pg w'.1)) as Hat by (split; [apply Hok2|done]).
  apply (at_counts_leave n2 n1) in Hat; [|done|lia].
  destruct Hat as (_ & Hx & Hy). split; [exact Hx|exact Hy].
Qed.
End connected.

(** ** Witnesses *)

Definition sample_stores (n : NodeId) (name : string) (i : ActorId) : NodeStores :=
  mkNodeStores (fst (snd (Names.register_named (H := n) name i Names.empty_names)))
    (fst (join_scoped (H := n) pool_key i empty_store)).
Definition sample_pair : NodeStores * NodeStores :=
  (sample_stores nodeA "db" (from_raw 3), sample_stores nodeB "web" (from_raw 4)).
Definition stub_hooks (x : Stores (W := NodeStores * NodeStores)) : ControlPlaneHooks (NodeStores * NodeStores) :=
  hooks_of x (stub_supervision_hooks no_debug).
Definition sample_server : Server (NodeStores * NodeStores) :=
  mkServer nodeB (λ _, call_of (Err Wire.RemoteUnreachable)) (stub_hooks (stores_2 nodeB)).
Definition sample_tcp : TcpTransport (NodeStores * NodeStores) :=
  mkTcp nodeA [(nodeB, "b:9000")] (stub_hooks (stores_1 nodeA)).
Definition sample_net : string → option (Server (NodeStores * NodeStores)) :=
  λ a, if decide (a = "b:9000") then Some sample_server else None.

Lemma sample_pg_ok n i : ok (H := n) (fst (join_scoped (H := n) pool_key i empty_store)).
Proof. apply (join_ok (H := n)); [apply (ok_empty (H := n))|]. reflexivity. Qed.
Lemma sample_owned n name i : Names.owned (H := n) (fst (snd (Names.register_named (H := n) name i Names.empty_names))).
Proof.
  intros m h Hh. change ((<[name := i]> ∅ : gmap string ActorId) !! m = Some h) in Hh.
  change ((<[name := on n i]> ∅ : gmap string ActorAddress) !! m = Some (on n h)).
  apply lookup_insert_Some in Hh as [[<- <-]|[_ Hh]]; [apply lookup_insert_eq|]. by rewrite lookup_empty in Hh.
Qed.
Lemma sample_stores_ok : stores_ok nodeA nodeB sample_pair.
Proof. split; apply sample_pg_ok. Qed.

(** Each node learns the name and the group member of the other. *)
Lemma connect_federates_witness :
  ∃ c w', connect no_debug sample_net sample_tcp nodeB sample_pair = Some (Ok c, w') ∧
    Names.lookup_address "web" (ns_names w'.1) = Some (on nodeB (from_raw 4)) ∧
    Names.lookup_address "db" (ns_names w'.2) = Some (on nodeA (from_raw 3)) ∧
    remote_joins (ns_pg w'.1) pool_key (on nodeB (from_raw 4)) = 1%Z ∧
    remote_joins (ns_pg w'.2) pool_key (on nodeA (from_raw 3)) = 1%Z.
Proof.
  destruct (connect_federates nodeA nodeB ltac:(discriminate) no_debug sample_net sample_tcp "b:9000" sample_server
    (stub_supervision_hooks no_debug) (stub_supervision_hooks no_debug) sample_pair
    eq_refl eq_refl eq_refl eq_refl eq_refl eq_refl) as (c & w' & Hc & _ & Hn & Hm & Hp & Hq & _).
  - split; vm_compute; reflexivity.
  - apply sample_stores_ok.
  - apply sample_owned.
  - apply sample_owned.
  - exists c, w'. split; [exact Hc|]. split; [|split; [|split]].
    + apply (Hn "web" (from_raw 4)); reflexivity.
    + apply (Hm "db" (from_raw 3)); reflexivity.
    + rewrite (Hp pool_key (from_raw 4)); [reflexivity|vm_compute; split; congruence].
    + rewrite (Hq pool_key (from_raw 3)); [reflexivity|vm_compute; split; congruence].
Defined.

Lemma reconnect_keeps_stale_member_witness :
  let w' := synced_stores nodeA nodeB (synced_stores nodeA nodeB sample_pair) in
  let s := federate nodeB nodeA (OpLeave pool_key (from_raw 4)) (ns_pg w'.2, ns_pg w'.1) in
  counts (H := nodeB) s.1 pool_key (from_raw 4) = 0%Z ∧
  remote_joins s.2 pool_key (on nodeB (from_raw 4)) = 1%Z.
Proof.
  apply (reconnect_keeps_stale_member nodeA nodeB ltac:(discriminate) sample_pair pool_key (from_raw 4));
    [apply sample_stores_ok|reflexivity|reflexivity].
Defined.

Definition sample_sys : TcpSys (NodeStores * NodeStores) :=
  mkTcpSys {[nodeB := idle_conn sample_server]} sample_pair.

(** A spawn request is answered, here by the stub that refuses it. *)
Definition spawn_env : SupervisionEnvelope :=
  mkEnvelope 7 (SpawnRequest (on nodeA (from_raw 3)) nodeB (WorkerSpec "w" []) true).
Lemma spawn_request_exact_witness :
  ∃ r s', request_supervision no_debug sample_net sample_tcp nodeB spawn_env sample_sys = Some (Ok r, s') ∧
    r = mkEnvelope 7 (SpawnErr "supervision broker not running").
Proof.
  pose proof (spawn_request_exact no_debug sample_net sample_tcp nodeB spawn_env sample_sys
    (idle_conn sample_server) (bits (countable.encode (FSupervision spawn_env)))) as Hx.
  destruct (write_frame (bits (countable.encode (FSupervision spawn_env)))) as [out|] eqn:Hw.
  2: { apply (f_equal is_ok) in Hw. vm_compute in Hw. discriminate. }
  specialize (Hx out eq_refl (idle_conn_idle _) eq_refl eq_refl eq_refl).
  assert (fst (spawn_outcome no_debug (cn_server (idle_conn sample_server)) spawn_env (ts_world sample_sys)) =
    Some (mkEnvelope 7 (SpawnErr "supervision broker not running"))) as Ho by (vm_compute; reflexivity).
  destruct (spawn_outcome _ _ _ _) as [o w']. simpl in Ho. subst o. destruct Hx as (r & Hr & ->). eauto.
Defined.

(** A node that refuses every event. *)
Definition refusing_server : Server (NodeStores * NodeStores) :=
  mkServer nodeB (λ _, call_of (Err Wire.RemoteUnreachable))
    (mkControl (mkRegistryHooks None None) (mkPgHooks None None)
       (mkSupervisionHooks (Some (λ _, call_of (Err (Protocol "unknown local parent actor")))))).
Definition exit_env (r : WireExit.WireExitReason) : SupervisionEnvelope :=
  mkEnvelope 0 (ChildExit (on nodeA (from_raw 3)) (on nodeB (from_raw 4)) r).
Lemma exit_env_sends r : fits (encode_cluster_frame (FSupervision (exit_env r))) = true → can_send no_debug (exit_env r).
Proof.
  intros Hf. split; [reflexivity|]. split; [reflexivity|]. unfold encode_supervision_frame.
  apply fits_inv in Hf as (bs & out & -> & Hw). by exists bs, out.
Qed.
Lemma supervision_sends_witness :
  let s := mkTcpSys {[nodeB := idle_conn refusing_server]} sample_pair in
  ∃ s1 s2, send_supervision no_debug sample_net sample_tcp nodeB (exit_env WireExit.WNormal) s = Some (Ok (), s1) ∧
    send_supervision no_debug sample_net sample_tcp nodeB (exit_env WireExit.WKill) s1 = Some (Ok (), s2) ∧
    ts_world s2 = sample_pair.
Proof.
  intros s. destruct (supervision_sends no_debug sample_net sample_tcp nodeB (exit_env WireExit.WNormal)
    (exit_env WireExit.WKill) s (idle_conn refusing_server)) as (s1 & s2 & H1 & _ & H2 & Hw).
  - reflexivity.
  - apply idle_conn_idle.
  - reflexivity.
  - apply exit_env_sends. vm_compute. reflexivity.
  - apply exit_env_sends. vm_compute. reflexivity.
  - exists s1, s2. split; [exact H1|]. split; [exact H2|exact Hw].
Defined.

(** The first peer is reached, the second is down, the third is skipped. *)
Definition three_peers : TcpTransport (NodeStores * NodeStores) :=
  mkTcp nodeA [(nodeB, "b:9000"); (node_new "c@h", "c:9000"); (node_new "d@h", "d:9000")] hooks_none.
Lemma broadcast_registry_prefix_witness :
  let e := Names.Register "db" (on nodeA (from_raw 3)) in
  broadcast_registry no_debug sample_net three_peers e sample_sys =
    Some (Err (Io "Connection refused"), mkTcpSys (ts_conns sample_sys) (st_register (stores_2 nodeB) e sample_pair)).
Proof.
  intros e. apply (broadcast_registry_prefix no_debug sample_net three_peers (λ _, stores_2 nodeB) e sample_sys
    [nodeB] [node_new "c@h"; node_new "d@h"]).
  - reflexivity.
  - vm_compute. reflexivity.
  - intros n Hn. apply list_elem_of_singleton in Hn as ->.
    exists (idle_conn sample_server), (stub_supervision_hooks no_debug).
    split; [reflexivity|]. split; [apply idle_conn_idle|reflexivity].
  - split; [reflexivity|]. exists "c:9000". split; reflexivity.
Defined.
