(* ===== verification/SpawnServer.v ===== *)
(** * Spawning on behalf of other nodes

    Model of the inbound half of [concurrency/src/cluster/remote_spawn.rs]
    (the registries of worker types and named specs, and [spawn_local], which
    the supervision broker calls for a spawn request) and of the
    registrations in [concurrency/src/tasks/remote_spawn.rs] and
    [concurrency/src/threads/remote_spawn.rs]. Decoding of the init bytes
    (postcard) is a parameter. What the rest of the system does while an
    actor is being started and linked is part of the environment a request is
    handled in ([SpawnEnv]), as is the runtime the handling thread is in. *)

From S2P Require Import Prelude Address Errors Mailbox ChildSpec ProcessGroups Registry Links Actor RemoteSpawn.
Import Receiver.

Section store.
Context {M A : Type} `{ThisNode}.

(** The thread that handles a request: outside any tasks runtime, in the
    context of one but not running its tasks (a blocking task), or running an
    async task, where [Handle::block_on] panics. *)
Inductive RuntimeContext := NoRuntime | Entered | InAsyncTask.

(** What a request is handled in: whether [TASKS_RUNTIME] is set, the context
    of the thread, and what the other threads do before the [k]-th lock of a
    start ([start_linked_with], [start_child]). *)
Record SpawnEnv := mkSpawnEnv {
  se_installed : bool;
  se_context : RuntimeContext;
  se_rest : nat → World M → list (Label M)
}.
Definition rest (e : SpawnEnv) (k : nat) (w : World M) : World M :=
  foldl (λ w l, default w (step l w)) w (se_rest e k w).

(** Whether [spawn_on_runtime] and [spawn_async_on_runtime] find a runtime. *)
Definition env_has_runtime (e : SpawnEnv) : bool :=
  match se_context e with NoRuntime => se_installed e | Entered | InAsyncTask => true end.

(** [WorkerSpawnFn]; the third argument is the handle to link to. [None] is a
    panic in the thread that handles the request. *)
Definition WorkerSpawnFn : Type :=
  SpawnEnv → list Byte.byte → option ActorId → World M → option (Result ActorId string * World M).

(** A registered factory is represented by the spec it makes. *)
Record RuntimeRegistry := mkRuntimeRegistry {
  workers : gmap string WorkerSpawnFn;
  named_specs : gmap string (ChildSpec A)
}.

(** The static [STORE], and the environment in which requests are handled. *)
Record RemoteSpawnStore := mkSpawnStore {
  st_tasks : RuntimeRegistry;
  st_threads : RuntimeRegistry;
  st_env : SpawnEnv
}.

Definition registry_new : RuntimeRegistry := mkRuntimeRegistry ∅ ∅.
Definition spawn_store_new (context : RuntimeContext) others : RemoteSpawnStore :=
  mkSpawnStore registry_new registry_new (mkSpawnEnv false context others).

(** ** Registration *)

Definition insert_worker (worker_type : string) (spawn : WorkerSpawnFn) (r : RuntimeRegistry)
    : Result RuntimeRegistry RemoteSpawnError :=
  match workers r !! worker_type with
  | Some _ => Err (SpawnFailed ("worker type already registered: " +:+ worker_type))
  | None => Ok (mkRuntimeRegistry (<[worker_type := spawn]> (workers r)) (named_specs r))
  end.

Definition insert_named_spec (name : string) (spec : ChildSpec A) (r : RuntimeRegistry)
    : Result RuntimeRegistry RemoteSpawnError :=
  match named_specs r !! name with
  | Some _ => Err (SpawnFailed ("named spec already registered: " +:+ name))
  | None => Ok (mkRuntimeRegistry (workers r) (<[name := spec]> (named_specs r)))
  end.

Definition on_registry (rt : MailboxRuntime) (f : RuntimeRegistry → Result RuntimeRegistry RemoteSpawnError)
    (s : RemoteSpawnStore) : Result () RemoteSpawnError * RemoteSpawnStore :=
  match rt with
  | Tasks => match f (st_tasks s) with
             | Ok r => (Ok (), mkSpawnStore r (st_threads s) (st_env s))
             | Err e => (Err e, s)
             end
  | Threads => match f (st_threads s) with
               | Ok r => (Ok (), mkSpawnStore (st_tasks s) r (st_env s))
               | Err e => (Err e, s)
               end
  end.

Definition register_worker_tasks worker_type spawn := on_registry Tasks (insert_worker worker_type spawn).
Definition register_worker_threads worker_type spawn := on_registry Threads (insert_worker worker_type spawn).
Definition register_named_spec_tasks name spec := on_registry Tasks (insert_named_spec name spec).
Definition register_named_spec_threads name spec := on_registry Threads (insert_named_spec name spec).

(** [install_tasks_runtime]: a [OnceLock], set once. *)
Definition install_tasks_runtime (s : RemoteSpawnStore) : RemoteSpawnStore :=
  mkSpawnStore (st_tasks s) (st_threads s) (mkSpawnEnv true (se_context (st_env s)) (se_rest (st_env s))).

(** ** Starting on the runtime *)

(** [dispatch_tasks_spawn]: the start closure runs on the installed runtime;
    [None] is a panic of the closure, which closes the reply channel. *)
Definition dispatch_tasks_spawn (installed : bool) (start : World M → option (ActorId * World M))
    (w : World M) : Result ActorId string * World M :=
  if installed then
    match start w with
    | Some (i, w) => (Ok i, w)
    | None => (Err "remote worker spawn failed: receiving on a closed channel", w)
    end
  else (Err "tasks runtime not installed for remote spawn", w).

(** [start_on_runtime]: [try_current] finds a runtime in any context but the
    first, and [block_on] panics in an async task. *)
Definition start_on_runtime (e : SpawnEnv) (start : World M → ActorId * World M)
    (w : World M) : option (Result ActorId string * World M) :=
  match se_context e with
  | NoRuntime => Some (dispatch_tasks_spawn (se_installed e) (λ w, Some (start w)) w)
  | Entered => let '(i, w) := start w in Some (Ok i, w)
  | InAsyncTask => None
  end.

(** [start(init).start_linked_to_handle(parent, ..)] or [start(init).start()]. *)
Definition start_worker (rt : MailboxRuntime) (e : SpawnEnv) (parent : option ActorId) (w : World M)
    : ActorId * World M :=
  match parent with
  | Some p => start_linked_with wrapping_succ_u64 rt (rest e) p w
  | None => spawn rt w
  end.

(** The closures that [register_remote_worker] registers. *)
Definition tasks_worker {Init} (decode : list Byte.byte → Result Init string) : WorkerSpawnFn :=
  λ e init parent w,
  match decode init with
  | Err msg => Some (Err ("decode init: " +:+ msg), w)
  | Ok _ => start_on_runtime e (start_worker Tasks e parent) w
  end.

Definition threads_worker {Init} (decode : list Byte.byte → Result Init string) : WorkerSpawnFn :=
  λ e init parent w,
  match decode init with
  | Err msg => Some (Err ("decode init: " +:+ msg), w)
  | Ok _ => let '(i, w) := start_worker Threads e parent w in Some (Ok i, w)
  end.

Definition tasks_register_remote_worker {Init} worker_type (decode : list Byte.byte → Result Init string)
    (s : RemoteSpawnStore) : Result () RemoteSpawnError * RemoteSpawnStore :=
  register_worker_tasks worker_type (tasks_worker decode) s.
Definition threads_register_remote_worker {Init} worker_type (decode : list Byte.byte → Result Init string)
    (s : RemoteSpawnStore) : Result () RemoteSpawnError * RemoteSpawnStore :=
  register_worker_threads worker_type (threads_worker decode) s.
Definition tasks_register_remote_spec name spec (s : RemoteSpawnStore) := register_named_spec_tasks name spec s.
Definition threads_register_remote_spec name spec (s : RemoteSpawnStore) := register_named_spec_threads name spec s.

(** ** Spawning *)

Definition spawn_worker (worker_type : string) (init : list Byte.byte) (link : bool)
    (parent : option ActorId) (s : RemoteSpawnStore) (w : World M)
    : option (Result ActorId string * World M) :=
  let parent_for_link := if link then parent else None in
  match workers (st_tasks s) !! worker_type with
  | Some spawn => spawn (st_env s) init parent_for_link w
  | None =>
      match workers (st_threads s) !! worker_type with
      | Some spawn => spawn (st_env s) init parent_for_link w
      | None => Some (Err ("unknown worker type: " +:+ worker_type), w)
      end
  end.

Definition resolve_named_spec (name : string) (s : RemoteSpawnStore)
    : Result (ChildSpec A * MailboxRuntime) string :=
  match named_specs (st_tasks s) !! name with
  | Some spec => Ok (spec, Tasks)
  | None =>
      match named_specs (st_threads s) !! name with
      | Some spec => Ok (spec, Threads)
      | None => Err ("unknown named spec: " +:+ name)
      end
  end.

(** [None]: the start closure panics in the thread that handles the request. *)
Definition spawn_named_spec (name : string) (overrides : RemoteSpecOverrides) (link : bool)
    (parent : option ActorId) (s : RemoteSpawnStore) (w : World M)
    : option (Result ActorId string * World M) :=
  match parent with
  | None => Some (Err "named remote spec requires link=true (parent handle)", w)
  | Some parent =>
      if negb link then Some (Err "named remote spec requires link=true", w)
      else match resolve_named_spec name s with
           | Err e => Some (Err e, w)
           | Ok (spec, rt) =>
               let spec := apply_overrides overrides spec in
               match rt with
               | Tasks => Some (dispatch_tasks_spawn (se_installed (st_env s))
                                  (start_child Tasks (rest (st_env s)) spec parent) w)
               | Threads =>
                   '(i, w) ← start_child Threads (rest (st_env s)) spec parent w; Some (Ok i, w)
               end
           end
  end.

Definition spawn_local (spec : RemoteSpawnSpec) (link : bool) (parent : option ActorId)
    (s : RemoteSpawnStore) (w : World M) : option (Result ActorId string * World M) :=
  match spec with
  | WorkerSpec worker_type init => spawn_worker worker_type init link parent s w
  | NamedSpec name overrides => spawn_named_spec name overrides link parent s w
  end.
End store.
Arguments RemoteSpawnStore M A : clear implicits.
Arguments RuntimeRegistry M A : clear implicits.
Arguments WorkerSpawnFn M : clear implicits.
Arguments SpawnEnv M : clear implicits.

(** ** Stores filled by the registration functions *)

Section reg.
Context {M A : Type} `{ThisNode}.
Implicit Types (s : RemoteSpawnStore M A) (w : World M).

(** Worker closures are made by the [register_remote_worker] of their runtime. *)
Definition store_ok s : Prop :=
  (∀ t f, workers (st_tasks s) !! t = Some f →
     ∃ Init (decode : list Byte.byte → Result Init string), f = tasks_worker decode) ∧
  (∀ t f, workers (st_threads s) !! t = Some f →
     ∃ Init (decode : list Byte.byte → Result Init string), f = threads_worker decode).

Inductive registered_store : RemoteSpawnStore M A → Prop :=
| rs_empty context others : registered_store (spawn_store_new context others)
| rs_runtime s : registered_store s → registered_store (install_tasks_runtime s)
| rs_worker_tasks Init (decode : list Byte.byte → Result Init string) t s :
    registered_store s → registered_store (snd (tasks_register_remote_worker t decode s))
| rs_worker_threads Init (decode : list Byte.byte → Result Init string) t s :
    registered_store s → registered_store (snd (threads_register_remote_worker t decode s))
| rs_spec_tasks name spec s :
    registered_store s → registered_store (snd (tasks_register_remote_spec name spec s))
| rs_spec_threads name spec s :
    registered_store s → registered_store (snd (threads_register_remote_spec name spec s)).

Lemma registered_store_workers s : registered_store s → store_ok s.
Proof.
  induction 1 as [context others|s _ IH|Init decode t s _ IH|Init decode t s _ IH|name spec s _ IH|name spec s _ IH].
  - split; intros t f; simpl; by rewrite lookup_empty.
  - exact IH.
  - unfold tasks_register_remote_worker, register_worker_tasks, on_registry, insert_worker.
    destruct (workers (st_tasks s) !! t) eqn:He; [done|]. destruct IH as [H1 H2]. split; [|done].
    intros t' f. simpl. rewrite lookup_insert. case_decide; [|apply H1]. intros [= <-]. eauto.
  - unfold threads_register_remote_worker, register_worker_threads, on_registry, insert_worker.
    destruct (workers (st_threads s) !! t) eqn:He; [done|]. destruct IH as [H1 H2]. split; [done|].
    intros t' f. simpl. rewrite lookup_insert. case_decide; [|apply H2]. intros [= <-]. eauto.
  - unfold tasks_register_remote_spec, register_named_spec_tasks, on_registry, insert_named_spec.
    by destruct (named_specs (st_tasks s) !! name).
  - unfold threads_register_remote_spec, register_named_spec_threads, on_registry, insert_named_spec.
    by destruct (named_specs (st_threads s) !! name).
Qed.

(** A second registration of a name is refused and changes nothing. *)
Lemma register_worker_twice t f s :
  is_Some (workers (st_tasks s) !! t) →
  register_worker_tasks t f s = (Err (SpawnFailed ("worker type already registered: " +:+ t)), s).
Proof.
  intros [g Hg]. unfold register_worker_tasks, on_registry, insert_worker. by rewrite Hg.
Qed.

(** Nobody takes entries out of link tables and no actor completes while
    the others act. *)
Definition undisturbed (e : SpawnEnv M) : Prop :=
  ∀ k w x c, actors w !! x = Some c →
    ∃ c', actors (rest e k w) !! x = Some c' ∧ c_links c ⊆ c_links c' ∧ c_completion c' = c_completion c.

(** What starting a child does: an actor that was not there, under the next
    id, and, with a parent, entries in both link tables unless the others take
    them out or the child completes meanwhile. *)
Record child_started (e : SpawnEnv M) (parent : option ActorId) (i : ActorId) w w' : Prop := {
  sd_id : i = from_raw (next_id w);
  sd_fresh : actors w !! i = None;
  sd_new : is_Some (actors w' !! i);
  sd_kept j : is_Some (actors w !! j) → is_Some (actors w' !! j);
  sd_alone : (∀ k w, se_rest e k w = []) →
    (∀ j, j ≠ i → is_Some (actors w' !! j) → is_Some (actors w !! j)) ∧
    next_id w' = wrapping_succ_u64 (next_id w);
  sd_links p : parent = Some p → is_Some (actors w !! p) → undisturbed e →
    ∃ cp ci, actors w' !! p = Some cp ∧ actors w' !! i = Some ci ∧
      i ∈ c_links cp ∧ p ∈ c_links ci
}.

(** No thread removes an actor. *)
Definition same_dom (a b : gmap ActorId (Cell M)) : Prop := ∀ j, is_Some (b !! j) ↔ is_Some (a !! j).
Lemma same_dom_alter f i a : same_dom a (alter f i a).
Proof. intros j. rewrite lookup_alter. case_decide; [|done]. subst. by rewrite fmap_is_Some. Qed.
Lemma same_dom_insert i c c' a : a !! i = Some c → same_dom a (<[i := c']> a).
Proof. intros Hi j. rewrite lookup_insert. case_decide; [|done]. subst. by rewrite Hi. Qed.
Lemma same_dom_trans a b c : same_dom a b → same_dom b c → same_dom a c.
Proof. intros H1 H2 j. etrans; [apply H2|apply H1]. Qed.

Lemma same_dom_check x y a : same_dom a (link_check x y a).
Proof.
  unfold link_check. destruct (exit_reason y a) as [r|]; [|done]. unfold take_self_from_peer_table.
  destruct (a !! y); [|done]. case_bool_decide; unfold make_signal; [|apply same_dom_alter].
  eapply same_dom_trans; apply same_dom_alter.
Qed.
Lemma same_dom_propagate own r a : same_dom a (propagate_exit own r a).
Proof.
  unfold propagate_exit. destruct (a !! own) as [c|]; [|done].
  eapply same_dom_trans; [apply (same_dom_alter (set_links []) own)|].
  generalize (alter (set_links []) own a). induction (c_links c) as [|p ps IH]; intros b; [done|]. simpl.
  eapply same_dom_trans; [|apply IH]. eapply same_dom_trans; apply same_dom_alter.
Qed.
Lemma actor_step_dom o i w w' : actor_step o i w = Some w' → same_dom (actors w) (actors w').
Proof.
  unfold actor_step. destruct (actors w !! i) as [c|] eqn:Hi; [|done]. cbn [mbind option_bind].
  destruct (c_phase c); try (destruct (run_actor_step o c); [|done]); try done; intros [= <-];
    try (by apply (same_dom_insert i c)); simpl; try apply same_dom_alter.
  eapply same_dom_trans; [apply same_dom_propagate|apply same_dom_alter].
Qed.
Lemma on_cell_dom i f w w' : on_cell i f w = Some w' → same_dom (actors w) (actors w').
Proof. unfold on_cell. destruct (actors w !! i) as [c|] eqn:Hi; [|done]. intros [= <-]. by apply (same_dom_insert i c). Qed.

Lemma step_keeps_actors l w w' j : step l w = Some w' → is_Some (actors w !! j) → is_Some (actors w' !! j).
Proof.
  destruct l as [i o|i|i|i|i|i b|x y|x y|x y|i m|i g|rt]; cbn [step]; intros Hs;
    try (by apply (on_cell_dom _ _ _ _ Hs)).
  - by apply (actor_step_dom _ _ _ _ Hs).
  - destruct (actors w !! i) as [c|]; [|done]. cbn [mbind option_bind] in Hs. destruct (c_cancelled c); [|done].
    by apply (on_cell_dom _ _ _ _ Hs).
  - destruct (actors w !! y); [|done]. by apply (on_cell_dom _ _ _ _ Hs).
  - destruct (actors w !! x), (actors w !! y); try done. injection Hs as <-. by apply same_dom_check.
  - injection Hs as <-. simpl. intros Hj. rewrite lookup_insert. by case_decide.
Qed.

Lemma rest_keeps e k w j : is_Some (actors w !! j) → is_Some (actors (rest e k w) !! j).
Proof.
  unfold rest. generalize (se_rest e k w) as ls. intros ls. revert w.
  induction ls as [|l ls IH]; intros w Hj; [done|]. apply IH.
  destruct (step l w) as [w'|] eqn:Hs; [|done]. by apply (step_keeps_actors l w w').
Qed.

Lemma link_between_dom e p i w j :
  is_Some (actors w !! j) → is_Some (actors (link_between (rest e) p i w) !! j).
Proof.
  intros Hj. unfold link_between. cbn [actors set_actors]. apply same_dom_check, rest_keeps.
  apply same_dom_alter, rest_keeps, same_dom_alter. by apply rest_keeps.
Qed.

Lemma link_between_alone e p i w :
  (∀ k w, se_rest e k w = []) → next_id (link_between (rest e) p i w) = next_id w ∧
  same_dom (actors w) (actors (link_between (rest e) p i w)).
Proof.
  intros He. assert (∀ k v, rest e k v = v) as Hr by (intros k v; unfold rest; by rewrite He).
  unfold link_between. rewrite !Hr. simpl. split; [done|].
  eapply same_dom_trans; [apply (same_dom_alter (add_link i) p)|].
  eapply same_dom_trans; [apply (same_dom_alter (add_link p) i)|apply same_dom_check].
Qed.

(** The links of an undisturbed start. *)
Lemma link_between_links e p i w cp ci :
  undisturbed e → p ≠ i → actors w !! p = Some cp → actors w !! i = Some ci → c_completion ci = None →
  ∃ cp' ci', actors (link_between (rest e) p i w) !! p = Some cp' ∧
    actors (link_between (rest e) p i w) !! i = Some ci' ∧ i ∈ c_links cp' ∧ p ∈ c_links ci'.
Proof.
  intros Hu Hne Hp Hi Hc. unfold link_between. cbn [actors set_actors].
  destruct (Hu 0 w p cp Hp) as (cp1 & Hp1 & _ & _). destruct (Hu 0 w i ci Hi) as (ci1 & Hi1 & _ & Hc1).
  set (w1 := set_actors _ (rest e 0 w)).
  assert (actors w1 !! p = Some (add_link i cp1)) as Hp2 by (unfold w1; simpl; by rewrite lookup_alter_eq, Hp1).
  assert (actors w1 !! i = Some ci1) as Hi2 by (unfold w1; simpl; by rewrite lookup_alter_ne).
  destruct (Hu 1 w1 p _ Hp2) as (cp2 & Hp3 & Hl2 & _). destruct (Hu 1 w1 i _ Hi2) as (ci2 & Hi3 & _ & Hc2).
  set (w2 := set_actors _ (rest e 1 w1)).
  assert (actors w2 !! p = Some cp2) as Hp4 by (unfold w2; simpl; by rewrite lookup_alter_ne).
  assert (actors w2 !! i = Some (add_link p ci2)) as Hi4 by (unfold w2; simpl; by rewrite lookup_alter_eq, Hi3).
  destruct (Hu 2 w2 p _ Hp4) as (cp3 & Hp5 & Hl3 & _). destruct (Hu 2 w2 i _ Hi4) as (ci3 & Hi5 & Hl4 & Hc3).
  assert (exit_reason i (actors (rest e 2 w2)) = None) as Hx.
  { unfold exit_reason. rewrite Hi5. cbn [mbind option_bind]. rewrite Hc3.
    unfold add_link. case_bool_decide; simpl; congruence. }
  unfold link_check. rewrite Hx. exists cp3, ci3. split_and!; try done.
  - apply Hl3, Hl2, elem_of_add_link. by right.
  - apply Hl4, elem_of_add_link. by right.
Qed.

Lemma start_linked_started rt e p w :
  world_ok w → let '(i, w') := start_linked_with wrapping_succ_u64 rt (rest e) p w in child_started e (Some p) i w w'.
Proof.
  intros Hok. pose proof (spawn_fresh w Hok) as Hfresh. unfold start_linked_with, spawn_with.
  set (i := from_raw (next_id w)) in *. set (w1 := mkWorld _ _ _ _).
  assert (actors w1 !! i = Some (new_cell rt)) as Hi by apply lookup_insert_eq.
  assert (∀ j, is_Some (actors w !! j) → is_Some (actors w1 !! j)) as Hk
    by (intros j Hj; simpl; rewrite lookup_insert; by case_decide).
  split.
  - done.
  - done.
  - apply link_between_dom. by rewrite Hi.
  - intros j Hj. by apply link_between_dom, Hk.
  - intros He. destruct (link_between_alone e p i w1 He) as [-> Hd]. split; [|done].
    intros j Hj Hs%Hd. simpl in Hs. by rewrite lookup_insert_ne in Hs.
  - intros q [= <-] [cp Hp] Hu. assert (p ≠ i) as Hne by congruence.
    apply (link_between_links e p i w1 cp (new_cell rt)); try done. simpl. by rewrite lookup_insert_ne.
Qed.

Lemma spawn_started rt e w : world_ok w → let '(i, w') := spawn rt w in child_started e None i w w'.
Proof.
  intros Hok. pose proof (spawn_fresh w Hok) as Hfresh. unfold spawn, spawn_with. split; simpl; try done.
  - by rewrite lookup_insert_eq.
  - intros j Hj. rewrite lookup_insert. by case_decide.
  - intros _. split; [|done]. intros j Hj. by rewrite lookup_insert_ne.
Qed.

Lemma start_child_started {B} rt e (spec : ChildSpec B) p w i w' :
  world_ok w → start_child rt (rest e) spec p w = Some (i, w') →
  ∃ w1, child_started e (Some p) i w w1 ∧
    w' = match cs_pg_membership spec with
         | Some m => join_ref (mkGroupKey (scope m) (group m)) i (rest e 4) (rest e 3 w1)
         | None => w1
         end.
Proof.
  intros Hok. unfold start_child, start_child_with. destruct (cs_start spec); [|done].
  pose proof (start_linked_started rt e p w Hok) as Hs.
  destruct (start_linked_with _ rt _ p w) as [j w1]. intros [= <- <-]. by exists w1.
Qed.

(** Joining the group afterwards, under the same interference. *)
Lemma child_started_join e parent key i w w1 :
  child_started e parent i w w1 → child_started e parent i w (join_ref key i (rest e 4) (rest e 3 w1)).
Proof.
  intros [Hid Hfr Hnew Hk Hal Hl]. unfold join_ref. cbn [actors].
  set (w2 := mkWorld (actors (rest e 3 w1)) _ _ _).
  assert (∀ j, is_Some (actors w1 !! j) → is_Some (actors (rest e 4 w2) !! j)) as Hr.
  { intros j Hj. apply rest_keeps. simpl. by apply rest_keeps. }
  split; cbn [actors next_id]; auto.
  - intros He. assert (∀ k v, rest e k v = v) as Hr0 by (intros k v; unfold rest; by rewrite He).
    unfold w2. rewrite !Hr0. simpl. auto.
  - intros p Hp Hs Hu. destruct (Hl p Hp Hs Hu) as (cp & ci & Hcp & Hci & Hin & Hin').
    assert (∀ x c, actors w1 !! x = Some c → ∃ c', actors (rest e 4 w2) !! x = Some c' ∧ c_links c ⊆ c_links c') as Hc.
    { intros x c Hx. destruct (Hu 3 w1 x c Hx) as (c1 & Hc1 & Hl1 & _).
      destruct (Hu 4 w2 x c1 Hc1) as (c2 & Hc2 & Hl2 & _). exists c2. split; [done|]. set_solver. }
    destruct (Hc p cp Hcp) as (cp' & ? & ?), (Hc i ci Hci) as (ci' & ? & ?). exists cp', ci'. set_solver.
Qed.

Lemma start_worker_started rt e parent w :
  world_ok w → let '(i, w') := start_worker rt e parent w in child_started e parent i w w'.
Proof. intros Hok. destruct parent; [by apply start_linked_started|by apply spawn_started]. Qed.

Lemma start_spec_started rt e (spec : ChildSpec A) p w i w' :
  world_ok w → start_child rt (rest e) spec p w = Some (i, w') → child_started e (Some p) i w w'.
Proof.
  intros Hok Hs. destruct (start_child_started rt e spec p w i w' Hok Hs) as (w1 & Hc & ->).
  destruct (cs_pg_membership spec); [by apply child_started_join|done].
Qed.

End reg.


(** A store with one tasks worker; another thread spawns an actor before
    every lock of a start. *)
Definition echo_store `{ThisNode} (context : RuntimeContext) : RemoteSpawnStore () () :=
  snd (tasks_register_remote_worker "echo" (λ bs, Ok bs)
    (install_tasks_runtime (spawn_store_new context (λ _ _, [LSpawn Threads])))).

Lemma echo_store_registered `{ThisNode} context : registered_store (echo_store context).
Proof. apply rs_worker_tasks, rs_runtime, rs_empty. Qed.


(** A tasks worker cannot be spawned from an async task of a runtime: the
    handling thread panics in [Handle::block_on], although a runtime for
    such requests is installed. *)
Theorem spawn_panics_in_async `{ThisNode} :
  spawn_local (WorkerSpec "echo" []) true (Some (from_raw 1)) (echo_store InAsyncTask) one_running = None.
Proof. reflexivity. Qed.
