(* ===== verification/Broker.v ===== *)
(** * The supervision broker

    Model of [concurrency/src/cluster/supervision_broker.rs], with the
    envelopes of [supervision_monitor.rs], [supervision_link.rs] and
    [supervision_exit.rs], the routing of [supervision_routing.rs] and the
    publish hook of [supervision_sync.rs] as [NodeBuilder::build] installs it.

    A [ChildHandle] in the broker's tables is the id of the actor, whose state
    is its cell in the node's [World]. An event published while another one
    is applied is routed at once: to this node, where it is applied, or to
    the outbox, from which the transport takes it. *)

From stdpp Require Import pretty.
From S2P Require Import Prelude Address Errors Mailbox ChildSpec ProcessGroups Registry Links Actor RemoteSpawn Wire SpawnServer.
Import Receiver.

(** ** Envelopes and routing *)

Definition monitor_envelope (owner target : ActorAddress) (monitor_ref : N) : SupervisionEnvelope :=
  mkEnvelope 0 (MonitorEv owner target monitor_ref).
Definition demonitor_envelope (owner target : ActorAddress) (monitor_ref : N) : SupervisionEnvelope :=
  mkEnvelope 0 (DemonitorEv owner target monitor_ref).
Definition down_envelope (owner : ActorAddress) (monitor_ref : N) (child : ActorAddress)
    (reason : ExitReason) : SupervisionEnvelope :=
  mkEnvelope 0 (DownEv owner monitor_ref child (WireExit.exit_reason_to_wire reason)).
Definition link_envelope (a b : ActorAddress) : SupervisionEnvelope := mkEnvelope 0 (LinkEv a b).
Definition unlink_envelope (a b : ActorAddress) : SupervisionEnvelope := mkEnvelope 0 (UnlinkEv a b).
Definition child_exit_envelope (child parent : ActorAddress) (reason : ExitReason) : SupervisionEnvelope :=
  mkEnvelope 0 (ChildExit child parent (WireExit.exit_reason_to_wire reason)).

Definition route_node (e : SupervisionEvent) : option NodeId :=
  match e with
  | SpawnRequest _ placement _ _ => Some placement
  | SignalEv target _ => Some (node target)
  | ChildExit _ parent _ => Some (node parent)
  | DownEv owner _ _ _ => Some (node owner)
  | MonitorEv _ target _ => Some (node target)
  | DemonitorEv _ target _ => Some (node target)
  | LinkEv _ b | UnlinkEv _ b => Some (node b)
  | SpawnOk _ | SpawnErr _ => None
  end.

(** ** State *)

Record MonitorKey := mkMonitorKey { mk_owner : ActorAddress; mk_ref : N }.
#[global] Instance MonitorKey_eq_dec : EqDecision MonitorKey.
Proof. solve_decision. Defined.
#[global] Program Instance MonitorKey_countable : Countable MonitorKey :=
  inj_countable' (λ k, (mk_owner k, mk_ref k)) (λ '(o, r), mkMonitorKey o r) _.
Next Obligation. by intros []. Qed.

(** [SupervisionBrokerInner]; a monitor's entry is its [active] flag. *)
Record Broker := mkBroker {
  bk_local : NodeId;
  bk_handles : gset ActorId;
  bk_parents : gmap ActorId ActorAddress;
  bk_monitors : gmap MonitorKey bool;
  bk_down_owners : gset ActorId;
  bk_exited : gmap ActorId ExitReason;
  bk_link_peers : gmap ActorId (list ActorAddress);
  bk_link_waits : gset ActorId;
  bk_handle : option ActorId
}.

Definition broker_new (local : NodeId) : Broker := mkBroker local ∅ ∅ ∅ ∅ ∅ ∅ ∅ None.

Definition set_handles h b := mkBroker (bk_local b) h (bk_parents b) (bk_monitors b) (bk_down_owners b)
  (bk_exited b) (bk_link_peers b) (bk_link_waits b) (bk_handle b).
Definition set_parents p b := mkBroker (bk_local b) (bk_handles b) p (bk_monitors b) (bk_down_owners b)
  (bk_exited b) (bk_link_peers b) (bk_link_waits b) (bk_handle b).
Definition set_monitors m b := mkBroker (bk_local b) (bk_handles b) (bk_parents b) m (bk_down_owners b)
  (bk_exited b) (bk_link_peers b) (bk_link_waits b) (bk_handle b).
Definition set_down_owners d b := mkBroker (bk_local b) (bk_handles b) (bk_parents b) (bk_monitors b) d
  (bk_exited b) (bk_link_peers b) (bk_link_waits b) (bk_handle b).
Definition set_exited e b := mkBroker (bk_local b) (bk_handles b) (bk_parents b) (bk_monitors b)
  (bk_down_owners b) e (bk_link_peers b) (bk_link_waits b) (bk_handle b).
Definition set_link_peers l b := mkBroker (bk_local b) (bk_handles b) (bk_parents b) (bk_monitors b)
  (bk_down_owners b) (bk_exited b) l (bk_link_waits b) (bk_handle b).
Definition set_link_waits l b := mkBroker (bk_local b) (bk_handles b) (bk_parents b) (bk_monitors b)
  (bk_down_owners b) (bk_exited b) (bk_link_peers b) l (bk_handle b).
Definition set_broker_handle h b := mkBroker (bk_local b) (bk_handles b) (bk_parents b) (bk_monitors b)
  (bk_down_owners b) (bk_exited b) (bk_link_peers b) (bk_link_waits b) (Some h).

(** [register], [register_down_owner], [unregister], [local_handle] *)
Definition register (address : ActorAddress) (handle : ActorId) (b : Broker)
    : Result () TransportError * Broker :=
  if decide (node address ≠ bk_local b) then
    (Err (Protocol ("supervision register: address " +:+ show_node (node address) +:+
       " is not local (" +:+ show_node (bk_local b) +:+ ")")), b)
  else if decide (handle ≠ actor_id address) then
    (Err (Protocol ("supervision register: handle id " +:+ show_id handle +:+
       " does not match address " +:+ show_id (actor_id address))), b)
  else (Ok (), set_handles ({[actor_id address]} ∪ bk_handles b) b).

Definition register_down_owner (address : ActorAddress) (b : Broker) : Result () TransportError * Broker :=
  if decide (node address ≠ bk_local b) then
    (Err (Protocol ("down owner " +:+ show_node (node address) +:+ " is not local (" +:+
       show_node (bk_local b) +:+ ")")), b)
  else (Ok (), set_down_owners ({[actor_id address]} ∪ bk_down_owners b) b).

Definition unregister (i : ActorId) (b : Broker) : Broker :=
  set_parents (delete i (bk_parents b)) (set_handles (bk_handles b ∖ {[i]}) b).

Definition local_handle (i : ActorId) (b : Broker) : option ActorId :=
  if decide (i ∈ bk_handles b) then Some i else None.

(** The tasks that [spawn_async_on_runtime] starts: they wait for an actor. *)
Inductive BgTask :=
| MonitorWait (key : MonitorKey) (target : ActorAddress)
| LinkWait (local : ActorAddress).

Section node.
Context {M A : Type} `{ThisNode}.
(** The closure registered for an owner of remote monitors: it sends [Down]. *)
Context (send_down : ActorId → N → ExitReason → World M → Result () ActorError * World M).

(** A node: its actors, the broker, its background tasks, the pending waits
    for a remote shutdown ([SHUTDOWN_WAITS]), whether the publish hook is
    installed, the outbox, and a log of what was published. *)
Record Node := mkNode {
  nd_world : World M;
  nd_store : RemoteSpawnStore M A;
  nd_broker : Broker;
  nd_tasks : list BgTask;
  nd_waits : gset ActorId;
  nd_publish : bool;
  nd_outbox : list (NodeId * SupervisionEnvelope);
  nd_log : list SupervisionEnvelope
}.

Definition set_world w nd := mkNode w (nd_store nd) (nd_broker nd) (nd_tasks nd) (nd_waits nd)
  (nd_publish nd) (nd_outbox nd) (nd_log nd).
Definition set_broker b nd := mkNode (nd_world nd) (nd_store nd) b (nd_tasks nd) (nd_waits nd)
  (nd_publish nd) (nd_outbox nd) (nd_log nd).
Definition set_tasks t nd := mkNode (nd_world nd) (nd_store nd) (nd_broker nd) t (nd_waits nd)
  (nd_publish nd) (nd_outbox nd) (nd_log nd).
Definition set_waits x nd := mkNode (nd_world nd) (nd_store nd) (nd_broker nd) (nd_tasks nd) x
  (nd_publish nd) (nd_outbox nd) (nd_log nd).
Definition push_outbox n e nd := mkNode (nd_world nd) (nd_store nd) (nd_broker nd) (nd_tasks nd)
  (nd_waits nd) (nd_publish nd) (nd_outbox nd ++ [(n, e)]) (nd_log nd).
Definition push_log e nd := mkNode (nd_world nd) (nd_store nd) (nd_broker nd) (nd_tasks nd)
  (nd_waits nd) (nd_publish nd) (nd_outbox nd) (nd_log nd ++ [e]).

(** [spawn_async_on_runtime]: without a runtime the task is dropped. *)
Definition spawn_async_on_runtime (t : BgTask) (nd : Node) : Node :=
  if env_has_runtime (st_env (nd_store nd))
  then set_tasks (nd_tasks nd ++ [t]) nd else nd.

Definition protocol {T} (nd : Node) (msg : string) : Result T TransportError * Node :=
  (Err (Protocol msg), nd).
Definition not_here (what : string) (n : NodeId) (nd : Node) : string :=
  what +:+ show_node n +:+ " is not on this node (" +:+ show_node (bk_local (nd_broker nd)) +:+ ")".

(** [complete_remote_shutdown_wait] *)
Definition complete_remote_shutdown_wait (i : ActorId) (nd : Node) : Node :=
  set_waits (nd_waits nd ∖ {[i]}) nd.

(** ** Applying events *)

Section apply.
(** [publish_supervision], which applying an event may call. *)
Context (publish : SupervisionEnvelope → Node → Node).

Definition apply_signal (target : ActorAddress) (signal : SupervisionSignal) (nd : Node)
    : Result () TransportError * Node :=
  let b := nd_broker nd in
  if decide (node target ≠ bk_local b) then protocol nd (not_here "supervision signal target " (node target) nd)
  else match local_handle (actor_id target) b with
       | None => protocol nd ("supervision signal: unknown local actor " +:+ show_id (actor_id target))
       | Some i =>
           let f := match signal with
                    | SigStop => handle_stop | SigShutdown => handle_shutdown | SigKill => handle_kill
                    end in
           (Ok (), set_world (set_actors (alter f i (actors (nd_world nd))) (nd_world nd)) nd)
       end.

(** [(handle.send_exit_fn())(exit)] *)
Definition send_exit (i : ActorId) (e : Exit) (w : World M) : Result () ActorError * World M :=
  match actors w !! i with
  | Some c => let '(r, c) := send_supervision e c in (r, set_actors (<[i := c]> (actors w)) w)
  | None => (Err ActorStopped, w)
  end.

Definition apply_child_exit (child parent : ActorAddress) (reason : WireExit.WireExitReason) (nd : Node)
    : Result () TransportError * Node :=
  let b := nd_broker nd in
  if decide (node parent ≠ bk_local b) then protocol nd (not_here "ChildExit parent " (node parent) nd)
  else match local_handle (actor_id parent) b with
       | None => protocol nd ("ChildExit: unknown local parent actor " +:+ show_id (actor_id parent))
       | Some i =>
           let nd := complete_remote_shutdown_wait (actor_id child) nd in
           let '(r, w) := send_exit i (mkExit child (WireExit.wire_to_exit_reason reason)) (nd_world nd) in
           let nd := set_world w nd in
           match r with
           | Ok _ => (Ok (), nd)
           | Err e => protocol nd (actor_error_to_string e)
           end
       end.

Definition apply_monitor (owner target : ActorAddress) (monitor_ref : N) (nd : Node)
    : Result () TransportError * Node :=
  let b := nd_broker nd in
  if decide (node target ≠ bk_local b) then protocol nd (not_here "Monitor target " (node target) nd)
  else match local_handle (actor_id target) b with
       | None =>
           match bk_exited b !! actor_id target with
           | Some reason => (Ok (), publish (down_envelope owner monitor_ref target reason) nd)
           | None => protocol nd ("Monitor: unknown local target actor " +:+ show_id (actor_id target))
           end
       | Some i =>
           let key := mkMonitorKey owner monitor_ref in
           let nd := set_broker (set_monitors (<[key := true]> (bk_monitors b)) b) nd in
           match exit_reason i (actors (nd_world nd)) with
           | Some reason =>
               let nd := set_broker (set_monitors (delete key (bk_monitors (nd_broker nd))) (nd_broker nd)) nd in
               (Ok (), publish (down_envelope owner monitor_ref target reason) nd)
           | None => (Ok (), spawn_async_on_runtime (MonitorWait key target) nd)
           end
       end.

Definition apply_demonitor (owner : ActorAddress) (monitor_ref : N) (nd : Node) : Node :=
  let b := nd_broker nd in
  set_broker (set_monitors (delete (mkMonitorKey owner monitor_ref) (bk_monitors b)) b) nd.

Definition apply_down (owner : ActorAddress) (monitor_ref : N) (reason : WireExit.WireExitReason) (nd : Node)
    : Result () TransportError * Node :=
  let b := nd_broker nd in
  if decide (node owner ≠ bk_local b) then protocol nd (not_here "Down owner " (node owner) nd)
  else if decide (actor_id owner ∈ bk_down_owners b) then
    let '(r, w) := send_down (actor_id owner) monitor_ref (WireExit.wire_to_exit_reason reason) (nd_world nd) in
    let nd := set_world w nd in
    match r with Ok _ => (Ok (), nd) | Err e => protocol nd (actor_error_to_string e) end
  else protocol nd ("Down: unknown local owner actor " +:+ show_id (actor_id owner)).

(** Which end of a link is here. *)
Definition link_ends (a b : ActorAddress) (local : NodeId) : option (ActorAddress * ActorAddress) :=
  if decide (node a = local) then Some (a, b)
  else if decide (node b = local) then Some (b, a) else None.

Definition apply_link (a b : ActorAddress) (nd : Node) : Result () TransportError * Node :=
  match link_ends a b (bk_local (nd_broker nd)) with
  | None => protocol nd ("Link: neither " +:+ show_node (node a) +:+ " nor " +:+ show_node (node b) +:+
              " is on this node (" +:+ show_node (bk_local (nd_broker nd)) +:+ ")")
  | Some (local, remote) =>
      let i := actor_id local in
      let bk := nd_broker nd in
      let peers := default [] (bk_link_peers bk !! i) in
      let peers := if bool_decide (remote ∈ peers) then peers else peers ++ [remote] in
      let bk := set_link_peers (<[i := peers]> (bk_link_peers bk)) bk in
      let nd := set_broker bk nd in
      match bk_exited bk !! i with
      | Some reason => (Ok (), publish (child_exit_envelope local remote reason) nd)
      | None =>
          match local_handle i bk with
          | None => protocol nd ("Link: unknown local actor " +:+ show_id i)
          | Some _ =>
              match exit_reason i (actors (nd_world nd)) with
              | Some reason => (Ok (), publish (child_exit_envelope local remote reason) nd)
              | None =>
                  if decide (i ∈ bk_link_waits bk) then (Ok (), nd)
                  else (Ok (), spawn_async_on_runtime (LinkWait local)
                                 (set_broker (set_link_waits ({[i]} ∪ bk_link_waits bk) bk) nd))
              end
          end
      end
  end.

Definition apply_unlink (a b : ActorAddress) (nd : Node) : Node :=
  match link_ends a b (bk_local (nd_broker nd)) with
  | None => nd
  | Some (local, remote) =>
      let bk := nd_broker nd in
      set_broker (set_link_peers
        (alter (iter_filter (λ peer, bool_decide (peer ≠ remote))) (actor_id local) (bk_link_peers bk)) bk) nd
  end.

(** [apply_spawn] up to the start of the child, and from there on: other
    threads act in between. [None] is a panic. *)
Definition apply_spawn_begin (cid : N) (placement : NodeId) (spec : RemoteSpawnSpec) (link : bool)
    (nd : Node) : option ((SupervisionEnvelope + ActorId) * Node) :=
  let b := nd_broker nd in
  if decide (placement ≠ bk_local b) then
    Some (inl (mkEnvelope cid (SpawnErr ("placement node " +:+ show_node placement +:+
      " does not match local node " +:+ show_node (bk_local b)))), nd)
  else
    let broker_parent := if link then bk_handle b else None in
    if link && bool_decide (broker_parent = None) then
      Some (inl (mkEnvelope cid (SpawnErr "supervision broker not ready")), nd)
    else
      '(r, w) ← spawn_local spec link broker_parent (nd_store nd) (nd_world nd);
      let nd := set_world w nd in
      Some (match r with
            | Ok i => inr i
            | Err error => inl (mkEnvelope cid (SpawnErr error))
            end, nd).

Definition apply_spawn_commit (cid : N) (parent : ActorAddress) (i : ActorId) (nd : Node)
    : Result (option SupervisionEnvelope) TransportError * Node :=
  let b := nd_broker nd in
  let child := on (bk_local b) i in
  let '(r, b) := register child i b in
  match r with
  | Err e => (Err e, set_broker b nd)
  | Ok _ =>
      (Ok (Some (mkEnvelope cid (SpawnOk child))),
       set_broker (set_parents (<[i := parent]> (bk_parents b)) b) nd)
  end.

Definition apply_spawn (cid : N) (parent : ActorAddress) (placement : NodeId) (spec : RemoteSpawnSpec)
    (link : bool) (nd : Node) : option (Result (option SupervisionEnvelope) TransportError * Node) :=
  '(x, nd) ← apply_spawn_begin cid placement spec link nd;
  Some (match x with
        | inl reply => (Ok (Some reply), nd)
        | inr i => apply_spawn_commit cid parent i nd
        end).

Definition no_reply (x : Result () TransportError * Node)
    : option (Result (option SupervisionEnvelope) TransportError * Node) :=
  let '(r, nd) := x in Some (match r with Ok _ => Ok None | Err e => Err e end, nd).

(** [SupervisionBrokerInner::apply] *)
Definition apply_with (env : SupervisionEnvelope) (nd : Node)
    : option (Result (option SupervisionEnvelope) TransportError * Node) :=
  match event env with
  | SignalEv target signal => no_reply (apply_signal target signal nd)
  | SpawnRequest parent placement spec link => apply_spawn (correlation_id env) parent placement spec link nd
  | ChildExit child parent reason => no_reply (apply_child_exit child parent reason nd)
  | MonitorEv owner target monitor_ref => no_reply (apply_monitor owner target monitor_ref nd)
  | DemonitorEv owner target monitor_ref => no_reply (Ok (), apply_demonitor owner monitor_ref nd)
  | DownEv owner monitor_ref _ reason => no_reply (apply_down owner monitor_ref reason nd)
  | LinkEv a b => no_reply (apply_link a b nd)
  | UnlinkEv a b => no_reply (Ok (), apply_unlink a b nd)
  | SpawnOk _ | SpawnErr _ => Some (Ok None, nd)
  end.
End apply.

(** [publish_routed]; a panic of the local application ends the publisher. *)
Definition publish_routed
    (apply_local : SupervisionEnvelope → Node → option (Result (option SupervisionEnvelope) TransportError * Node))
    (env : SupervisionEnvelope) (nd : Node) : Node :=
  match route_node (event env) with
  | None => nd
  | Some n =>
      if decide (n = bk_local (nd_broker nd)) then from_option snd nd (apply_local env nd)
      else push_outbox n env nd
  end.

(** [publish_supervision]: nothing without the hook. The fuel bounds how deep
    publications nest. *)
Fixpoint publish_n (fuel : nat) (env : SupervisionEnvelope) (nd : Node) : Node :=
  if nd_publish nd then
    match fuel with
    | O => nd
    | S fuel => publish_routed (apply_with (publish_n fuel)) env (push_log env nd)
    end
  else nd.

Definition publish_supervision : SupervisionEnvelope → Node → Node := publish_n 2.
Definition apply : SupervisionEnvelope → Node →
    option (Result (option SupervisionEnvelope) TransportError * Node) := apply_with publish_supervision.

(** ** Background tasks and the broker actor *)

(** What the task of [apply_monitor] does once its actor has completed. *)
Definition monitor_wait (key : MonitorKey) (target : ActorAddress) (nd : Node) : option Node :=
  let b := nd_broker nd in
  reason ← exit_reason (actor_id target) (actors (nd_world nd));
  let should_notify := default false (bk_monitors b !! key) in
  let nd := set_broker (set_monitors (delete key (bk_monitors b)) b) nd in
  Some (if should_notify
        then publish_supervision (down_envelope (mk_owner key) (mk_ref key) target reason) nd else nd).

(** What the task of [apply_link] does once its actor has completed. *)
Definition link_wait (local : ActorAddress) (nd : Node) : option Node :=
  let b := nd_broker nd in
  reason ← exit_reason (actor_id local) (actors (nd_world nd));
  let i := actor_id local in
  let peers := default [] (bk_link_peers b !! i) in
  let nd := set_broker (set_link_peers (delete i (bk_link_peers b))
              (set_link_waits (bk_link_waits b ∖ {[i]}) b)) nd in
  Some (foldl (λ nd peer, publish_supervision (child_exit_envelope local peer reason) nd) nd peers).

Definition task_step (t : BgTask) (nd : Node) : option Node :=
  match t with
  | MonitorWait key target => monitor_wait key target nd
  | LinkWait local => link_wait local nd
  end.

(** The [n]-th task runs and ends. *)
Definition run_task (n : nat) (nd : Node) : option Node :=
  t ← nd_tasks nd !! n;
  task_step t (set_tasks (delete n (nd_tasks nd)) nd).

(** [propagate_child_exit], called by [exit_received] of the broker actor. *)
Definition propagate_child_exit (e : Exit) (nd : Node) : Node :=
  let i := actor_id (from e) in
  let b := nd_broker nd in
  match bk_parents b !! i with
  | None => nd
  | Some parent =>
      let b := unregister i b in
      let nd := set_broker (set_exited (<[i := reason e]> (bk_exited b)) b) nd in
      publish_supervision (child_exit_envelope (on (bk_local b) i) parent (reason e)) nd
  end.
End node.
Arguments Node M A : clear implicits.

(** ** Publications nest at most twice *)

Section publish.
Context {M A : Type} `{ThisNode}.
Context (send_down : ActorId → N → ExitReason → World M → Result () ActorError * World M).
Implicit Types (nd : Node M A) (env : SupervisionEnvelope).

(** Applying a [Down] or a [ChildExit] publishes nothing. *)
Definition quiet (e : SupervisionEvent) : bool :=
  match e with DownEv _ _ _ _ | ChildExit _ _ _ => true | _ => false end.

Lemma apply_quiet p q env nd :
  quiet (event env) = true → apply_with send_down p env nd = apply_with send_down q env nd.
Proof. unfold apply_with. by destruct (event env). Qed.

Lemma publish_quiet n m env nd :
  quiet (event env) = true → publish_n send_down (S n) env nd = publish_n send_down (S m) env nd.
Proof.
  intros Hq. simpl. destruct (nd_publish nd); [|done]. unfold publish_routed.
  destruct (route_node (event env)) as [k|]; [|done]. case_decide; [|done].
  by rewrite (apply_quiet (publish_n send_down n) (publish_n send_down m)).
Qed.

Lemma publish_S n env nd :
  publish_n send_down (S n) env nd =
    if nd_publish nd then publish_routed (apply_with send_down (publish_n send_down n)) env (push_log env nd)
    else nd.
Proof. done. Qed.

(** Any event publishes only quiet ones. *)
Lemma apply_ext p q env nd :
  (∀ env nd, quiet (event env) = true → p env nd = q env nd) →
  apply_with send_down p env nd = apply_with send_down q env nd.
Proof.
  intros Hpq. unfold apply_with. destruct (event env); try done.
  - unfold apply_monitor. repeat case_match; try done; by rewrite Hpq.
  - unfold apply_link. repeat case_match; try done; by rewrite Hpq.
Qed.

(** The fuel of [publish_supervision] is enough, that is, the recursion
    of publishing and applying ends: an event that is applied on this node
    makes the broker publish at most [Down] and [ChildExit] events, and these
    publish nothing. *)
Theorem publish_depth n env nd :
  publish_n send_down (S (S n)) env nd = publish_supervision send_down env nd.
Proof.
  unfold publish_supervision. rewrite !publish_S. destruct (nd_publish nd); [|done].
  unfold publish_routed. destruct (route_node (event env)) as [k|]; [|done]. case_decide; [|done].
  rewrite (apply_ext (publish_n send_down (S n)) (publish_n send_down 1)); [done|].
  intros env' nd' Hq. by apply publish_quiet.
Qed.

(** What publishing a quiet event does. *)
Lemma publish_remote env nd n :
  nd_publish nd = true → route_node (event env) = Some n → n ≠ bk_local (nd_broker nd) →
  publish_supervision send_down env nd = push_outbox n env (push_log env nd).
Proof.
  intros Hp Hr Hne. unfold publish_supervision. cbn [publish_n]. rewrite Hp. unfold publish_routed.
  rewrite Hr. by rewrite decide_False.
Qed.

Lemma publish_off env nd : nd_publish nd = false → publish_supervision send_down env nd = nd.
Proof. intros Hp. unfold publish_supervision. cbn [publish_n]. by rewrite Hp. Qed.

(** ** Which events are accepted *)

(** The actor that an event needs, as this broker's tables know it. *)
Definition accepts (e : SupervisionEvent) nd : Prop :=
  let b := nd_broker nd in
  match e with
  | SignalEv t _ => actor_id t ∈ bk_handles b
  | ChildExit _ p _ => actor_id p ∈ bk_handles b ∧
      ∃ c, actors (nd_world nd) !! actor_id p = Some c ∧ c_rx_open c = true
  | DownEv o k _ r => actor_id o ∈ bk_down_owners b ∧
      is_ok (fst (send_down (actor_id o) k (WireExit.wire_to_exit_reason r) (nd_world nd))) = true
  | MonitorEv _ t _ => actor_id t ∈ bk_handles b ∨ is_Some (bk_exited b !! actor_id t)
  | LinkEv x y => ∃ l r, link_ends x y (bk_local b) = Some (l, r) ∧
      (actor_id l ∈ bk_handles b ∨ is_Some (bk_exited b !! actor_id l))
  | _ => True
  end.
End publish.

Lemma send_exit_ok {M} i e (w : World M) :
  is_ok (fst (send_exit i e w)) = true ↔ ∃ c, actors w !! i = Some c ∧ c_rx_open c = true.
Proof.
  unfold send_exit, send_supervision. destruct (actors w !! i) as [c|]; simpl; [|naive_solver].
  destruct (c_rx_open c) eqn:Ho; simpl; naive_solver.
Qed.

(** Events reach the node that can take them. An event that
    [route_node] sends here is accepted exactly when the actor it needs is in
    the broker's tables (and, for a [ChildExit] or a [Down], can still be
    sent to): it is never refused because it came to the wrong node. A spawn
    request that does not panic is always answered, under its own
    correlation id, with [SpawnOk] or [SpawnErr]. *)
Theorem routed_event_accepted {M A} `{ThisNode} send_down env (nd : Node M A) r nd' :
  route_node (event env) = Some (bk_local (nd_broker nd)) →
  apply send_down env nd = Some (r, nd') →
  (is_ok r = true ↔ accepts send_down (event env) nd) ∧
  (∀ p n sp l, event env = SpawnRequest p n sp l →
     ∃ e, r = Ok (Some (mkEnvelope (correlation_id env) e)) ∧
       ((∃ c, e = SpawnOk c ∧ node c = bk_local (nd_broker nd)) ∨ ∃ m, e = SpawnErr m)).
Proof.
  intros Hroute Happ. unfold apply, apply_with in Happ.
  destruct (event env) as [p n sp l|c|m|t sg|c p rs|o k c rs|o t k|o t k|x y|x y] eqn:He;
    simpl in Hroute; try done.
  - split.
    + split; [done|]. intros _. unfold apply_spawn in Happ.
      destruct (apply_spawn_begin _ _ _ _ nd) as [[[rep|i] nd1]|]; [by injection Happ as <- <-| |done].
      cbn [mbind option_bind] in Happ. injection Happ as Happ. unfold apply_spawn_commit, register in Happ.
      simpl in Happ. rewrite !decide_False in Happ by (intros Hx; by apply Hx). by injection Happ as <- <-.
    + intros p' n' sp' l' [= -> -> -> ->]. unfold apply_spawn in Happ.
      destruct (apply_spawn_begin _ _ _ _ nd) as [[[rep|i] nd1]|] eqn:Hb; [| |done];
        cbn [mbind option_bind] in Happ.
      * injection Happ as <- <-. unfold apply_spawn_begin in Hb.
        destruct (decide _); [injection Hb as <- <-; eauto|].
        destruct (_ && _); [injection Hb as <- <-; eauto|].
        destruct (spawn_local _ _ _ _ _) as [[[i|er] w]|]; simplify_eq/=; eauto.
      * injection Happ as Happ. unfold apply_spawn_commit, register in Happ. simpl in Happ.
        rewrite !decide_False in Happ by (intros Hx; by apply Hx). injection Happ as <- <-.
        eexists. split; [done|]. left. eexists. split; [done|]. simpl.
        unfold apply_spawn_begin in Hb. destruct (decide _); [done|]. destruct (_ && _); [done|].
        destruct (spawn_local _ _ _ _ _) as [[[j|er] w]|]; by simplify_eq/=.
  - split; [|done]. simpl in Hroute. injection Hroute as Hn. unfold apply_signal, local_handle in Happ.
    rewrite decide_False in Happ by (intros Hx; by apply Hx). simpl.
    case_decide; by injection Happ as <- <-.
  - split; [|done]. injection Hroute as Hn. unfold apply_child_exit, local_handle in Happ.
    rewrite decide_False in Happ by (intros Hx; by apply Hx). simpl.
    case_decide as Hh; [|injection Happ as <- <-; naive_solver].
    pose proof (send_exit_ok (actor_id p) (mkExit c (WireExit.wire_to_exit_reason rs)) (nd_world nd)) as Hs.
    cbn [nd_world complete_remote_shutdown_wait set_waits] in Happ.
    destruct (send_exit _ _ (nd_world nd)) as [[u|er] w]; injection Happ as <- <-; simpl in *; naive_solver.
  - split; [|done]. injection Hroute as Hn. unfold apply_down in Happ.
    rewrite decide_False in Happ by (intros Hx; by apply Hx). simpl.
    case_decide as Hh; [|injection Happ as <- <-; naive_solver].
    destruct (send_down _ _ _ _) as [[u|er] w]; injection Happ as <- <-; simpl in *; naive_solver.
  - split; [|done]. injection Hroute as Hn. unfold apply_monitor, local_handle in Happ.
    rewrite decide_False in Happ by (intros Hx; by apply Hx). simpl.
    case_decide as Hh.
    + split; [by left|]. intros _. destruct (exit_reason _ _); by injection Happ as <- <-.
    + destruct (bk_exited _ !! _) as [rs|]; injection Happ as <- <-; [naive_solver|].
      split; [done|]. intros [?|[? ?]]; done.
  - split; [|done]. by injection Happ as <- <-.
  - split; [|done]. unfold apply_link in Happ. simpl.
    destruct (link_ends x y _) as [[lo re]|] eqn:Hl;
      [|injection Happ as <- <-; split; [done|intros (? & ? & ? & _); congruence]].
    simpl in Happ. destruct (bk_exited _ !! _) as [rs|] eqn:Hx.
    { injection Happ as <- <-. split; [|done]. intros _. exists lo, re. eauto. }
    unfold local_handle in Happ. simpl in Happ. case_decide as Hh.
    + split; [intros _; exists lo, re; auto|]. intros _.
      destruct (exit_reason _ _); [by injection Happ as <- <-|]. by case_decide; injection Happ as <- <-.
    + injection Happ as <- <-. split; [done|]. intros (l' & r' & [= <- <-] & [?|[? Hy]]); [done|].
      congruence.
  - split; [|done]. by injection Happ as <- <-.
Qed.
