(* ===== verification/BrokerRuns.v ===== *)
(** * Runs of a node with its supervision broker

    The operations of [Broker] as steps of a node, interleaved with the
    node's actors, its background tasks and the broker actor; the client side
    of remote monitors and links in [concurrency/src/tasks/actor.rs]; and
    what travels between two nodes. *)

From S2P Require Import Prelude Address Errors Mailbox Backpressure ChildSpec ProcessGroups Registry Links Actor Requests Monitors RemoteSpawn Wire SpawnServer Broker.
Import Receiver.

Section runs.
Context {M A : Type} `{ThisNode}.
Context (send_down : ActorId → N → ExitReason → World M → Result () ActorError * World M).

(** A node with the spawn requests it is working on and the replies it gave. *)
Record NodeRun := mkNodeRun {
  nr_node : Node M A;
  nr_spawning : list (N * (ActorAddress * ActorId));
  nr_replies : list SupervisionEnvelope
}.
Definition on_node (f : Node M A → Node M A) (s : NodeRun) : NodeRun :=
  mkNodeRun (f (nr_node s)) (nr_spawning s) (nr_replies s).

(** [start_supervision_broker] on a node whose publish hook is installed. *)
Definition node_start (store : RemoteSpawnStore M A) (hook : bool) : NodeRun :=
  let '(b, w) := spawn Tasks empty_world in
  mkNodeRun (mkNode w store (broker_new this_node) [] ∅ hook [] []) [] [].

(** [SupervisionBroker::started] *)
Definition broker_started (b : ActorId) (nd : Node M A) : Node M A :=
  set_broker (set_broker_handle b (nd_broker nd))
    (set_world (set_actors (alter (set_trap_exit true) b (actors (nd_world nd))) (nd_world nd)) nd).

(** The [Exit] that the loop of an actor takes in its next step. *)
Definition received_exit (c : Cell M) : option Exit :=
  match c_phase c with
  | Receiving => match recv (c_rt c) (c_mailbox c) with
                 | Returned (Some (ExitItem e)) _ => Some e
                 | _ => None
                 end
  | _ => None
  end.

Inductive NLabel :=
| NActor (l : Label M)
| NBrokerStarted (b : ActorId)
| NInbound (env : SupervisionEnvelope)
| NSpawnBegin (cid : N) (parent : ActorAddress) (placement : NodeId) (spec : RemoteSpawnSpec) (link : bool)
| NSpawnCommit (n : nat)
| NTask (n : nat)
| NPublish (env : SupervisionEnvelope)
| NRegister (i : ActorId)
| NDownOwner (i : ActorId).

Definition nstep (l : NLabel) (s : NodeRun) : option NodeRun :=
  let nd := nr_node s in
  match l with
  | NActor l =>
      w ← step l (nd_world nd);
      let nd' := set_world w nd in
      let exit := match l with
                  | LStep i _ => if decide (bk_handle (nd_broker nd) = Some i)
                                 then actors (nd_world nd) !! i ≫= received_exit else None
                  | _ => None
                  end in
      Some (mkNodeRun (match exit with Some e => propagate_child_exit send_down e nd' | None => nd' end)
              (nr_spawning s) (nr_replies s))
  | NBrokerStarted b => Some (on_node (broker_started b) s)
  | NInbound (mkEnvelope _ (SpawnRequest _ _ _ _)) => None
  | NInbound env => '(_, nd') ← apply send_down env nd; Some (on_node (λ _, nd') s)
  | NSpawnBegin cid parent placement spec link =>
      '(x, nd') ← apply_spawn_begin cid placement spec link nd;
      Some (match x with
            | inl reply => mkNodeRun nd' (nr_spawning s) (nr_replies s ++ [reply])
            | inr i => mkNodeRun nd' (nr_spawning s ++ [(cid, (parent, i))]) (nr_replies s)
            end)
  | NSpawnCommit n =>
      '(cid, (parent, i)) ← nr_spawning s !! n;
      let '(r, nd') := apply_spawn_commit cid parent i nd in
      Some (mkNodeRun nd' (delete n (nr_spawning s))
              (nr_replies s ++ match r with Ok (Some reply) => [reply] | _ => [] end))
  | NTask n => nd' ← run_task send_down n nd; Some (on_node (λ _, nd') s)
  | NPublish (mkEnvelope _ (DownEv _ _ _ _)) => None
  | NPublish env => Some (on_node (publish_supervision send_down env) s)
  | NRegister i => Some (on_node (λ nd, set_broker (snd (register (local_addr i) i (nd_broker nd))) nd) s)
  | NDownOwner i =>
      Some (on_node (λ nd, set_broker (snd (register_down_owner (local_addr i) (nd_broker nd))) nd) s)
  end.

Fixpoint nrun (ls : list NLabel) (s : NodeRun) : option NodeRun :=
  match ls with [] => Some s | l :: ls => s' ← nstep l s; nrun ls s' end.
End runs.
Arguments NodeRun M A : clear implicits.
Arguments NLabel M : clear implicits.

(** ** A monitor is answered at most once *)

Definition is_down (key : MonitorKey) (env : SupervisionEnvelope) : bool :=
  match event env with
  | DownEv o k _ _ => bool_decide (mkMonitorKey o k = key)
  | _ => false
  end.
Definition is_monitor (key : MonitorKey) (env : SupervisionEnvelope) : bool :=
  match event env with
  | MonitorEv o _ k => bool_decide (mkMonitorKey o k = key)
  | _ => false
  end.
Definition is_wait (key : MonitorKey) (t : BgTask) : bool :=
  match t with MonitorWait k _ => bool_decide (k = key) | LinkWait _ => false end.

Definition count {T} (p : T → bool) (l : list T) : nat := sum_list_with (λ x, if p x then 1 else 0) l.

Lemma count_app {T} (p : T → bool) l k : count p (l ++ k) = count p l + count p k.
Proof. apply sum_list_with_app. Qed.

Lemma count_delete {T} (p : T → bool) l n x :
  l !! n = Some x → count p l = (if p x then 1 else 0) + count p (delete n l).
Proof.
  revert n. induction l as [|y l IH]; intros [|n] Hn; simplify_eq/=; [done|].
  specialize (IH n Hn). unfold count in *. simpl. lia.
Qed.

Section counting.
Context {M A : Type} `{ThisNode}.
Context (send_down : ActorId → N → ExitReason → World M → Result () ActorError * World M).
Implicit Types (nd : Node M A) (key : MonitorKey) (env : SupervisionEnvelope).

(** The [Down]s published for [key], and the tasks that may publish one. *)
Definition downs key nd : nat := count (is_down key) (nd_log nd).
Definition weight key nd : nat := downs key nd + count (is_wait key) (nd_tasks nd).

Definition nat_of (b : bool) : nat := if b then 1 else 0.

Lemma weight_same key nd nd' :
  nd_log nd' = nd_log nd → nd_tasks nd' = nd_tasks nd → weight key nd' = weight key nd.
Proof. intros Hl Ht. unfold weight, downs. by rewrite Hl, Ht. Qed.

Lemma weight_spawn key t nd : weight key (spawn_async_on_runtime t nd) ≤ weight key nd + nat_of (is_wait key t).
Proof.
  unfold spawn_async_on_runtime, weight, downs, nat_of. destruct (env_has_runtime _); simpl; [|lia].
  rewrite count_app. unfold count at 3. simpl. lia.
Qed.

(** A publisher that counts [Down]s. *)
Definition counts key (p : SupervisionEnvelope → Node M A → Node M A) : Prop :=
  ∀ env nd, quiet (event env) = true → weight key (p env nd) ≤ weight key nd + nat_of (is_down key env).

Lemma apply_weight key p env nd r nd' :
  counts key p → apply_with send_down p env nd = Some (r, nd') →
  weight key nd' ≤ weight key nd + nat_of (is_monitor key env).
Proof.
  intros Hp Happ. unfold apply_with in Happ.
  assert (∀ (x : Result () TransportError * Node M A) r nd', no_reply x = Some (r, nd') → nd' = snd x) as Hnr.
  { intros [[]] r0 nd0; by intros [= <- <-]. }
  assert (∀ x, nd_log (snd x) = nd_log nd → nd_tasks (snd x) = nd_tasks nd → no_reply x = Some (r, nd') →
    ∀ k, weight key nd' ≤ weight key nd + k) as Hsame.
  { intros x Hl Ht Hx%Hnr k. subst. rewrite (weight_same key nd (snd x) Hl Ht). lia. }
  unfold is_monitor.
  destruct (event env) as [pa n sp l|c|m|t sg|c pa rs|o k c rs|o t k|o t k|x y|x y] eqn:He.
  - unfold apply_spawn in Happ. destruct (apply_spawn_begin _ _ _ _ nd) as [[z nd1]|] eqn:Hb; [|done].
    cbn [mbind option_bind] in Happ.
    assert (nd_log nd1 = nd_log nd ∧ nd_tasks nd1 = nd_tasks nd) as [Hl1 Ht1].
    { unfold apply_spawn_begin in Hb. destruct (decide _); [by injection Hb as <- <-|].
      destruct (_ && _); [by injection Hb as <- <-|].
      destruct (spawn_local _ _ _ _ _) as [[[i|er] w]|]; by simplify_eq/=. }
    destruct z as [rep|i].
    + injection Happ as <- <-. rewrite (weight_same key nd nd1 Hl1 Ht1). lia.
    + injection Happ as Happ. unfold apply_spawn_commit, register in Happ. simpl in Happ.
      rewrite !decide_False in Happ by (intros Hx; by apply Hx). injection Happ as <- <-.
      rewrite (weight_same key nd (set_broker _ nd1)); [lia|done|done].
  - injection Happ as <- <-. lia.
  - injection Happ as <- <-. lia.
  - refine (Hsame _ _ _ Happ _); unfold apply_signal; repeat case_match; simplify_eq/=; done.
  - refine (Hsame _ _ _ Happ _); unfold apply_child_exit; repeat case_match; simplify_eq/=; done.
  - refine (Hsame _ _ _ Happ _); unfold apply_down; repeat case_match; simplify_eq/=; done.
  - apply Hnr in Happ. subst nd'. unfold apply_monitor, protocol.
    assert (∀ rs nd0, weight key (p (down_envelope o k t rs) nd0) ≤
      weight key nd0 + nat_of (bool_decide (mkMonitorKey o k = key))) as Hpub.
    { intros rs nd0. by apply (Hp (down_envelope o k t rs)). }
    destruct (decide (node t ≠ _)); [simpl; lia|]. destruct (local_handle _ _) as [i|].
    + cbn [nd_world set_broker]. destruct (exit_reason i _) as [rs|]; cbn [snd].
      * etrans; [apply Hpub|]. by rewrite (weight_same key nd (set_broker _ (set_broker _ nd))).
      * etrans; [apply weight_spawn|]. by rewrite (weight_same key nd (set_broker _ nd)).
    + destruct (bk_exited _ !! _) as [rs|]; cbn [snd]; [apply Hpub|simpl; lia].
  - by refine (Hsame _ _ _ Happ _).
  - apply Hnr in Happ. subst nd'. unfold apply_link, protocol.
    assert (∀ lo re rs nd0, weight key (p (child_exit_envelope lo re rs) nd0) ≤ weight key nd0) as Hpub.
    { intros lo re rs nd0. etrans; [by apply (Hp (child_exit_envelope lo re rs))|]. simpl. lia. }
    destruct (link_ends _ _ _) as [[lo re]|]; [|simpl; lia]. cbn [nd_world set_broker].
    destruct (bk_exited _ !! _) as [rs|]; cbn [snd].
    { etrans; [apply Hpub|]. rewrite (weight_same key nd (set_broker _ nd)) by done. lia. }
    destruct (local_handle _ _) as [i|]; cbn [snd]; [|rewrite (weight_same key nd (set_broker _ nd)) by done; lia].
    destruct (exit_reason _ _) as [rs|]; cbn [snd].
    { etrans; [apply Hpub|]. rewrite (weight_same key nd (set_broker _ nd)) by done. lia. }
    case_decide; cbn [snd]; [rewrite (weight_same key nd (set_broker _ nd)) by done; lia|].
    etrans; [apply weight_spawn|]. rewrite (weight_same key nd (set_broker _ (set_broker _ nd))) by done.
    simpl. lia.
  - refine (Hsame _ _ _ Happ _); simpl; unfold apply_unlink; repeat case_match; simplify_eq/=; done.
Qed.

Lemma publish_weight key n env nd :
  weight key (publish_n send_down n env nd) ≤
    weight key nd + nat_of (is_down key env) + nat_of (is_monitor key env).
Proof.
  revert env nd. induction n as [|n IH]; intros env nd; [simpl; destruct (nd_publish nd); lia|].
  rewrite publish_S. destruct (nd_publish nd); [|lia]. unfold publish_routed.
  assert (weight key (push_log env nd) = weight key nd + nat_of (is_down key env)) as Hlog.
  { unfold weight, downs, nat_of. simpl. rewrite count_app. unfold count at 2. simpl. lia. }
  destruct (route_node (event env)) as [m|]; [|lia]. case_decide.
  - destruct (apply_with send_down _ env (push_log env nd)) as [[r nd']|] eqn:Happ; [|simpl; lia].
    apply (apply_weight key) in Happ; [simpl; lia|]. intros env' nd0 Hq. etrans; [apply IH|].
    destruct (is_monitor key env') eqn:Hm; [|simpl; lia]. unfold is_monitor in Hm. by destruct (event env').
  - rewrite (weight_same key (push_log env nd) (push_outbox m env (push_log env nd))) by done. lia.
Qed.

Lemma counts_publish key : counts key (publish_supervision send_down).
Proof.
  intros env nd Hq. etrans; [apply publish_weight|].
  destruct (is_monitor key env) eqn:Hm; [|simpl; lia]. unfold is_monitor in Hm. by destruct (event env).
Qed.

Lemma publish_child_exits_weight key lo rs peers nd :
  weight key (foldl (λ nd peer, publish_supervision send_down (child_exit_envelope lo peer rs) nd) nd peers)
    ≤ weight key nd.
Proof.
  revert nd. induction peers as [|p peers IH]; intros nd; simpl; [lia|]. etrans; [apply IH|].
  etrans; [by apply (counts_publish key (child_exit_envelope lo p rs))|]. simpl. lia.
Qed.

Lemma run_task_weight key n nd nd' : run_task send_down n nd = Some nd' → weight key nd' ≤ weight key nd.
Proof.
  unfold run_task. destruct (nd_tasks nd !! n) as [t|] eqn:Ht; [|done]. cbn [mbind option_bind].
  pose proof (count_delete (is_wait key) _ _ _ Ht) as Hc.
  assert (weight key (set_tasks (delete n (nd_tasks nd)) nd) + nat_of (is_wait key t) = weight key nd) as Hw.
  { unfold weight, downs, nat_of. simpl. rewrite Hc. lia. }
  set (nd1 := set_tasks (delete n (nd_tasks nd)) nd) in *.
  destruct t as [k target|lo]; simpl; intros (rs & _ & [= <-])%bind_Some.
  - destruct (default false _); [|rewrite (weight_same key nd1) by done; lia].
    etrans; [by apply (counts_publish key (down_envelope (mk_owner k) (mk_ref k) target rs))|].
    rewrite (weight_same key nd1) by done. unfold is_down. simpl in *.
    destruct k as [o r]. simpl. lia.
  - etrans; [apply publish_child_exits_weight|]. rewrite (weight_same key nd1) by done. lia.
Qed.

Lemma propagate_weight key e nd : weight key (propagate_child_exit send_down e nd) ≤ weight key nd.
Proof.
  unfold propagate_child_exit. destruct (bk_parents _ !! _) as [p|]; [|lia].
  etrans; [by apply (counts_publish key (child_exit_envelope _ p (reason e)))|]. simpl.
  rewrite (weight_same key nd) by done. lia.
Qed.

(** The [Monitor] events that a label hands to the broker. *)
Definition monitors_in key (l : NLabel M) : nat :=
  match l with NInbound env | NPublish env => nat_of (is_monitor key env) | _ => 0 end.

Lemma nstep_weight key l (s s' : NodeRun M A) :
  nstep send_down l s = Some s' →
  weight key (nr_node s') ≤ weight key (nr_node s) + monitors_in key l.
Proof.
  intros Hs. destruct l as [l|b|env|cid p n sp lk|n|n|env|i|i]; simpl in Hs.
  - apply bind_Some in Hs as (w & _ & [= <-]). simpl. destruct (match l with LStep _ _ => _ | _ => _ end).
    + etrans; [apply propagate_weight|]. rewrite (weight_same key (nr_node s)) by done. lia.
    + rewrite (weight_same key (nr_node s)) by done. lia.
  - injection Hs as <-. simpl. rewrite (weight_same key (nr_node s)) by done. lia.
  - assert (∃ r nd', apply send_down env (nr_node s) = Some (r, nd') ∧ nr_node s' = nd') as (r & nd' & Ha & ->).
    { destruct env as [cid []]; try done;
        apply bind_Some in Hs as ([r nd'] & Ha & [= <-]); eexists _, _; (split; [exact Ha|done]). }
    apply (apply_weight key _ _ _ _ _ (counts_publish key) Ha).
  - apply bind_Some in Hs as ([x nd'] & Hb & [= <-]).
    assert (nd_log nd' = nd_log (nr_node s) ∧ nd_tasks nd' = nd_tasks (nr_node s)) as [Hl Ht].
    { unfold apply_spawn_begin in Hb. destruct (decide _); [by injection Hb as <- <-|].
      destruct (_ && _); [by injection Hb as <- <-|].
      destruct (spawn_local _ _ _ _ _) as [[[j|er] w]|]; by simplify_eq/=. }
    destruct x; simpl; rewrite (weight_same key (nr_node s)) by done; lia.
  - apply bind_Some in Hs as ([cid [p i]] & _ & Hs).
    destruct (apply_spawn_commit cid p i (nr_node s)) as [r nd'] eqn:Hc. injection Hs as <-. simpl.
    unfold apply_spawn_commit, register in Hc. simpl in Hc.
    rewrite !decide_False in Hc by (intros Hx; by apply Hx). injection Hc as <- <-.
    rewrite (weight_same key (nr_node s)) by done. lia.
  - apply bind_Some in Hs as (nd' & Ht & [= <-]). simpl. apply (run_task_weight key) in Ht. lia.
  - assert (is_down key env = false ∧ nr_node s' = publish_supervision send_down env (nr_node s)) as [Hd ->].
    { destruct env as [cid []]; try done; injection Hs as <-; done. }
    etrans; [apply publish_weight|]. rewrite Hd. simpl. lia.
  - injection Hs as <-. simpl. rewrite (weight_same key (nr_node s)) by done. lia.
  - injection Hs as <-. simpl. rewrite (weight_same key (nr_node s)) by done. lia.
Qed.
End counting.

(** Remote monitors are answered at most once. In any run of a node,
    with inbound events, publications, background tasks, spawns and actor
    steps interleaved arbitrarily, the broker publishes no more [Down]s for
    an owner and a monitor reference than [Monitor] events for them were
    handed to it. *)
Theorem remote_down_at_most_once {M A} `{ThisNode} send_down store hook ls (s : NodeRun M A) key :
  nrun send_down ls (node_start store hook) = Some s →
  downs key (nr_node s) ≤ sum_list_with (monitors_in key) ls.
Proof.
  assert (∀ ls (s0 s : NodeRun M A), nrun send_down ls s0 = Some s →
    weight key (nr_node s) ≤ weight key (nr_node s0) + sum_list_with (monitors_in key) ls) as Hall.
  { clear ls s. intros ls. induction ls as [|l ls IH]; intros s0 s Hrun.
    - injection Hrun as <-. simpl. lia.
    - simpl in Hrun. destruct (nstep send_down l s0) as [s1|] eqn:Hs; [|done].
      apply (nstep_weight send_down key) in Hs. specialize (IH _ _ Hrun). simpl. lia. }
  intros Hrun%Hall. unfold weight in Hrun. unfold node_start in Hrun. simpl in Hrun.
  unfold downs in *. simpl in Hrun. lia.
Qed.

(** ** From node to node *)

(** A background task can be started. *)
Definition has_runtime {M A} (nd : Node M A) : bool :=
  env_has_runtime (st_env (nd_store nd)).

(** C16: A remote monitor works end to end. Let an actor on node [nA] monitor
    a living, registered actor on node [nB]. When [nB]'s broker gets the
    [Monitor] event it installs one entry and one task; once the target has
    completed, with whatever other actors did meanwhile, that task ends,
    removes the entry and sends exactly one message to [nA]: a [Down] with the
    target's reason; and [nA]'s broker turns it into one call of the owner's
    closure with the owner's monitor reference and that reason. *)
Theorem remote_monitor_end_to_end {M A} (nA nB : NodeId) send_down (a b : Node M A) owner target k r w' :
  nA ≠ nB → bk_local (nd_broker a) = nA → bk_local (nd_broker b) = nB →
  node owner = nA → node target = nB →
  actor_id target ∈ bk_handles (nd_broker b) →
  exit_reason (actor_id target) (actors (nd_world b)) = None →
  nd_publish b = true → has_runtime b = true → actor_id owner ∈ bk_down_owners (nd_broker a) →
  exit_reason (actor_id target) (actors w') = Some r →
  let key := mkMonitorKey owner k in
  ∃ b1 b2, apply (H := nB) send_down (monitor_envelope owner target k) b = Some (Ok None, b1) ∧
    nd_tasks b1 = nd_tasks b ++ [MonitorWait key target] ∧
    bk_monitors (nd_broker b1) = <[key := true]> (bk_monitors (nd_broker b)) ∧
    nd_outbox b1 = nd_outbox b ∧
    run_task (H := nB) send_down (length (nd_tasks b)) (set_world w' b1) = Some b2 ∧
    nd_tasks b2 = nd_tasks b ∧
    bk_monitors (nd_broker b2) = delete key (bk_monitors (nd_broker b)) ∧
    nd_outbox b2 = nd_outbox b ++ [(nA, down_envelope owner k target r)] ∧
    apply (H := nA) send_down (down_envelope owner k target r) a =
      (let '(res, w) := send_down (actor_id owner) k r (nd_world a) in
       Some (match res with Ok _ => Ok None | Err e => Err (Protocol (actor_error_to_string e)) end,
             set_world w a)).
Proof.
  intros Hne Ha Hb Ho Ht Hh Hx Hp Hrt Hd Hr key.
  set (b0 := set_broker (set_monitors (<[key := true]> (bk_monitors (nd_broker b))) (nd_broker b)) b).
  set (b1 := set_tasks (nd_tasks b ++ [MonitorWait key target]) b0).
  exists b1. eexists. split.
  { unfold apply, apply_with. simpl. unfold apply_monitor, local_handle.
    rewrite (decide_False (P := node target ≠ _)) by (rewrite Ht, Hb; tauto).
    rewrite (decide_True (P := actor_id target ∈ _)) by done. simpl. rewrite Hx.
    unfold spawn_async_on_runtime. unfold has_runtime in Hrt. simpl. by rewrite Hrt. }
  split; [done|]. split; [done|]. split; [done|]. split.
  { unfold run_task. cbn [nd_tasks set_world b1 set_tasks].
    rewrite lookup_app_r, Nat.sub_diag by lia. cbn [lookup list_lookup mbind option_bind].
    unfold task_step, monitor_wait. cbn [nd_world set_tasks set_world]. rewrite Hr. cbn [mbind option_bind].
    cbn [nd_broker set_tasks set_world b1 b0 set_broker bk_monitors set_monitors].
    rewrite lookup_insert_eq. cbn [default from_option id]. reflexivity. }
  rewrite (publish_remote send_down _ _ nA); [|exact Hp|by simpl; rewrite Ho|simpl; congruence].
  simpl. split_and!.
  - by rewrite delete_middle, app_nil_r.
  - apply delete_insert_eq.
  - done.
  - unfold apply, apply_with. simpl. unfold apply_down.
    rewrite (decide_False (P := node owner ≠ _)) by (rewrite Ho, Ha; tauto).
    rewrite decide_True by done. rewrite WireExit.wire_roundtrip.
    destruct (send_down _ _ _ _) as [[u|e] w]; done.
Qed.

(** The exit of a child that is linked to a broker waiting for messages: the
    child's exit puts one [Exit] into the broker's mailbox, and the broker
    takes it in its next step. *)
Lemma broker_hears {M} `{ThisNode} (w : World M) i bk r ci cb :
  world_ok w → i ≠ bk → r ≠ Kill →
  actors w !! i = Some ci → c_phase ci = Exiting r → bk ∈ c_links ci →
  actors w !! bk = Some cb → c_phase cb = Receiving → c_trap_exit cb = true → pending (c_mailbox cb) = [] →
  ∃ w1 w2 cb1, step (LStep i CbReturned) w = Some w1 ∧ actors w1 !! bk = Some cb1 ∧
    received_exit cb1 = Some (mkExit (local_addr i) r) ∧ step (LStep bk CbReturned) w1 = Some w2.
Proof.
  intros Hok Hne Hk Hi Hph Hin Hb Hpb Ht Hpend.
  pose proof (lk_nodup _ (wk_links _ Hok) i ci Hi) as Hnd.
  pose proof (wk_cells _ Hok bk cb Hb) as Hcb.
  pose proof (ok_open _ Hcb) as Ho. pose proof (ok_live _ Hcb) as Hlive. rewrite Hpb in Ho, Hlive. simpl in Ho.
  specialize (Hlive eq_refl).
  assert (queue (signal (c_mailbox cb)) = [] ∧ queue (stop (c_mailbox cb)) = [] ∧
    queue (supervision (c_mailbox cb)) = []) as (Hq1 & Hq2 & Hq3).
  { unfold pending in Hpend. apply app_nil in Hpend as [H1%fmap_nil_inv Hpend].
    apply app_nil in Hpend as [H2%fmap_nil_inv Hpend]. by apply app_nil in Hpend as [H3%fmap_nil_inv _]. }
  set (cb1 := snd (send_supervision (mkExit (local_addr i) r) (remove_link i cb))).
  set (w1 := set_actors (alter (set_phase (Propagated r)) i (propagate_exit i r (actors w))) w).
  assert (step (LStep i CbReturned) w = Some w1) as Hs1.
  { cbn [step]. unfold actor_step. rewrite Hi. cbn [mbind option_bind]. by rewrite Hph. }
  assert (actors w1 !! bk = Some cb1) as Hb1.
  { unfold w1. simpl. rewrite lookup_alter_ne by done. rewrite (lookup_propagate i r _ ci bk Hi Hnd), Hb.
    cbn [fmap option_fmap option_map]. rewrite decide_True by done.
    rewrite (decide_False (P := bk = i)) by done. f_equal. unfold cb1.
    destruct r; try done; simpl; by rewrite Ht. }
  assert (recv (c_rt cb1) (c_mailbox cb1) = Returned (Some (ExitItem (mkExit (local_addr i) r)))
    (mkReceiver (user (c_mailbox cb)) (signal (c_mailbox cb)) (stop (c_mailbox cb)) (mkChan [] true)
       false false false false)) as Hrecv.
  { unfold cb1, send_supervision. simpl. rewrite Ho. simpl. destruct Hlive as (? & ? & ? & ? & ? & ? & ? & ?).
    rewrite recv_live by (by split_and!). unfold take_next. simpl. by rewrite Hq1, Hq2, Hq3. }
  assert (c_phase cb1 = Receiving) as Hp1.
  { unfold cb1, send_supervision. simpl. by rewrite Ho. }
  exists w1. eexists _, cb1. split; [done|]. split; [done|]. split.
  - unfold received_exit. by rewrite Hp1, Hrecv.
  - cbn [step]. unfold actor_step. rewrite Hb1. cbn [mbind option_bind]. rewrite Hp1.
    unfold run_actor_step. rewrite Hp1, Hrecv. reflexivity.
Qed.

(** C15: The exit of a remote child reaches its supervisor end to end, if the
    child was not killed. Let node [nB] have spawned child [i] for a parent on
    [nA]: the child is in the table of parents of [nB]'s broker, and linked to
    the broker actor, which traps exits and waits with an empty mailbox. When
    the child exits with any reason but [Kill], the child's next step (its
    exit signal) and the broker's next step forget the child, record the
    reason and send exactly one message to [nA]; a second notice would send
    nothing. At [nA] the message ends the wait of a pending remote shutdown
    and appends to the parent's mailbox one [Exit] from the child's address
    with its reason, as for a local child. *)
Theorem remote_child_exit_end_to_end {M A} (nA nB : NodeId) send_down (a : Node M A) (s : NodeRun M A) i bk parent r ci cb c :
  let b := nr_node s in
  nA ≠ nB → bk_local (nd_broker a) = nA → bk_local (nd_broker b) = nB → node parent = nA →
  world_ok (nd_world b) → bk_handle (nd_broker b) = Some bk → i ≠ bk →
  actors (nd_world b) !! i = Some ci → c_phase ci = Exiting r → r ≠ Kill → bk ∈ c_links ci →
  actors (nd_world b) !! bk = Some cb → c_phase cb = Receiving → c_trap_exit cb = true →
  pending (c_mailbox cb) = [] →
  bk_parents (nd_broker b) !! i = Some parent → nd_publish b = true →
  actor_id parent ∈ bk_handles (nd_broker a) →
  actors (nd_world a) !! actor_id parent = Some c → c_rx_open c = true →
  let env := child_exit_envelope (on nB i) parent r in
  ∃ s1, nrun (H := nB) send_down [NActor (LStep i CbReturned); NActor (LStep bk CbReturned)] s = Some s1 ∧
    let b1 := nr_node s1 in
    nd_outbox b1 = nd_outbox b ++ [(nA, env)] ∧
    (i ∉ bk_handles (nd_broker b1)) ∧ bk_parents (nd_broker b1) !! i = None ∧
    bk_exited (nd_broker b1) !! i = Some r ∧
    propagate_child_exit (H := nB) send_down (mkExit (on nB i) r) b1 = b1 ∧
    ∃ a' c', apply (H := nA) send_down env a = Some (Ok None, a') ∧
      nd_waits a' = nd_waits a ∖ {[i]} ∧
      actors (nd_world a') !! actor_id parent = Some c' ∧
      queue (supervision (c_mailbox c')) = queue (supervision (c_mailbox c)) ++ [mkExit (on nB i) r].
Proof.
  intros b Hne Ha Hb Hn Hok Hbk Hib Hi Hph Hk Hin Hcb Hpb Ht Hpend Hpa Hp Hh Hc Ho env.
  destruct (broker_hears (H := nB) (nd_world b) i bk r ci cb Hok Hib Hk Hi Hph Hin Hcb Hpb Ht Hpend)
    as (w1 & w2 & cb1 & Hs1 & Hb1 & Hrx & Hs2).
  set (b2 := set_world w2 (set_world w1 b)).
  exists (mkNodeRun (propagate_child_exit (H := nB) send_down (mkExit (on nB i) r) b2) (nr_spawning s) (nr_replies s)).
  split.
  { cbn [nrun nstep]. unfold nstep. fold b. rewrite Hs1. cbn [mbind option_bind nr_node].
    rewrite Hbk. rewrite (decide_False (P := Some bk = Some i)) by congruence. cbn [nd_world set_world nd_broker nr_spawning nr_replies].
    rewrite Hs2. cbn [mbind option_bind nd_broker set_world]. rewrite Hbk, decide_True by done.
    cbn [nd_world set_world]. rewrite Hb1. cbn [mbind option_bind]. by rewrite Hrx. }
  cbn [nr_node]. assert (propagate_child_exit (H := nB) send_down (mkExit (on nB i) r) b2 =
    push_outbox nA env (push_log env (set_broker
      (set_exited (<[i := r]> (bk_exited (nd_broker b))) (unregister i (nd_broker b))) b2))) as ->.
  { unfold propagate_child_exit. cbn [from actor_id reason nd_broker b2 set_world]. rewrite Hpa.
    rewrite (publish_remote send_down _ _ nA); cbn [bk_local unregister set_parents set_handles].
    - by rewrite Hb.
    - done.
    - simpl. by rewrite Hn.
    - simpl. congruence. }
  split; [done|]. split; [simpl; set_solver|]. split; [simpl; apply lookup_delete_eq|].
  split; [simpl; apply lookup_insert_eq|]. split.
  { unfold propagate_child_exit. simpl. by rewrite lookup_delete_eq. }
  eexists _, _. unfold apply, apply_with. simpl. unfold apply_child_exit, local_handle.
  rewrite (decide_False (P := node parent ≠ _)) by (rewrite Hn, Ha; tauto).
  rewrite (decide_True (P := actor_id parent ∈ _)) by done.
  unfold send_exit, send_supervision. simpl. rewrite Hc, Ho. simpl.
  split; [reflexivity|]. simpl. rewrite lookup_insert_eq. split_and!; [done|reflexivity|].
  simpl. by rewrite WireExit.wire_roundtrip.
Qed.

(** ** Where remote supervision falls short *)

(** A remote link does not work like a local one. Whatever the peer's
    [trap_exit] flag and whatever the reason, [ChildExit] only appends an
    [Exit] message: the linked actor is neither cancelled nor given a linked
    reason. A local link cancels the actor for a [Kill], and for every reason
    but [Normal] when it does not trap exits. *)
Theorem remote_link_never_kills {M A} `{ThisNode} send_down (nd nd' : Node M A) child a r c c' :
  apply send_down (child_exit_envelope child a r) nd = Some (Ok None, nd') →
  actors (nd_world nd) !! actor_id a = Some c → actors (nd_world nd') !! actor_id a = Some c' →
  c_cancelled c' = c_cancelled c ∧ c_linked_reason c' = c_linked_reason c ∧
  queue (supervision (c_mailbox c')) = queue (supervision (c_mailbox c)) ++ [mkExit child r] ∧
  (signal_kills r (c_trap_exit c) = true →
     c_cancelled (exit_signal (actor_id child) r c) = true).
Proof.
  unfold apply, apply_with. simpl. unfold apply_child_exit, local_handle.
  destruct (decide (node a ≠ _)); [done|]. case_decide; [|done]. unfold send_exit. simpl.
  intros Happ Hc. rewrite Hc in Happ. unfold send_supervision in Happ.
  destruct (c_rx_open c) eqn:Ho; [|done]. injection Happ as <-. simpl. rewrite lookup_insert_eq.
  intros [= <-]. simpl. rewrite WireExit.wire_roundtrip. split_and!; [done..|].
  intros Hk. rewrite (sg_cancelled _ _ _ _ (exit_signal_spec (actor_id child) r c)), Hk.
  apply orb_true_r.
Qed.

(** To observe the result of a run it is enough to compute the observation. *)
Lemma observe {S T} (x : option S) (f : S → T) y : f <$> x = Some y → ∃ s, x = Some s ∧ f s = y.
Proof. destruct x as [s|]; [|done]. intros [= <-]. by exists s. Qed.

(** A node that can spawn tasks workers. *)
Definition spawning_store `{ThisNode} : RemoteSpawnStore () () :=
  snd (tasks_register_remote_worker "echo" (λ bs, Ok bs)
    (install_tasks_runtime (spawn_store_new NoRuntime (λ _ _, [])))).

(** A child that panics in its start callback, while the thread that serves
    the spawn request has not yet entered it in the broker's tables. *)
Definition quiet_down {M} : ActorId → N → ExitReason → World M → Result () ActorError * World M :=
  λ _ _ _ w, (Ok (), w).
Definition home : ActorAddress := on (node_new "home@h") (from_raw 9).
Definition racing_spawn `{ThisNode} : list (NLabel ()) :=
  let b := from_raw 1 in let c := from_raw 2 in
  [NBrokerStarted b; NActor (LStep b CbReturned);
   NSpawnBegin 7 home this_node (WorkerSpec "echo" []) true;
   NActor (LStep c (CbPanicked "boom")); NActor (LStep c CbReturned); NActor (LStep c CbReturned);
   NActor (LStep c CbReturned);
   NActor (LStep b CbReturned); NActor (LStep b CbReturned); NSpawnCommit 0].

(** What is observed at the end. *)
Definition racing_view (s : NodeRun () ()) :=
  (nr_replies s, exit_reason (from_raw 2) (actors (nd_world (nr_node s))),
   bk_parents (nd_broker (nr_node s)) !! from_raw 2, phase_of (from_raw 1) (nd_world (nr_node s)),
   pending ∘ c_mailbox <$> actors (nd_world (nr_node s)) !! from_raw 1, nd_tasks (nr_node s),
   nd_log (nr_node s), nd_outbox (nr_node s)).

(** The exit of a remote child can be lost. There is a run in which the
    spawn request of a remote supervisor is answered with [SpawnOk], the
    child has panicked, the broker actor has handled its [Exit] and waits
    with an empty mailbox, no task is left, and no [ChildExit] was published:
    the child's parent is entered in the broker's table only after the child
    has been started. The supervisor never learns that the child is dead. *)
Theorem child_exit_lost_in_spawn :
  let _ : ThisNode := node_new "n@h" in
  ∃ s, nrun quiet_down racing_spawn (node_start spawning_store true) = Some s ∧
    nr_replies s = [mkEnvelope 7 (SpawnOk (on this_node (from_raw 2)))] ∧
    exit_reason (from_raw 2) (actors (nd_world (nr_node s))) = Some (Panic "panic in started(): boom") ∧
    bk_parents (nd_broker (nr_node s)) !! from_raw 2 = Some home ∧
    phase_of (from_raw 1) (nd_world (nr_node s)) = Some Receiving ∧
    (pending ∘ c_mailbox <$> actors (nd_world (nr_node s)) !! from_raw 1) = Some [] ∧
    nd_tasks (nr_node s) = [] ∧ nd_log (nr_node s) = [] ∧ nd_outbox (nr_node s) = [].
Proof.
  intros T.
  destruct (observe (nrun quiet_down racing_spawn (node_start spawning_store true)) racing_view
    ([mkEnvelope 7 (SpawnOk (on this_node (from_raw 2)))], Some (Panic "panic in started(): boom"),
     Some home, Some Receiving, Some [], [], [], [])) as (s & Hrun & Hv); [vm_compute; reflexivity|].
  exists s. split; [exact Hrun|]. clear Hrun. unfold racing_view in Hv.
  injection Hv as H1 H2 H3 H4 H5 H6 H7 H8. split_and!; assumption.
Qed.

(** The broker runs; a child is started and entered in its tables. *)
Definition spawned_for `{ThisNode} (parent : ActorAddress) : list (NLabel ()) :=
  [NBrokerStarted (from_raw 1); NActor (LStep (from_raw 1) CbReturned);
   NSpawnBegin 7 parent this_node (WorkerSpec "echo" []) true; NSpawnCommit 0].
Definition killed_child `{ThisNode} : list (NLabel ()) :=
  spawned_for home ++ (NActor <$>
    [LStep (from_raw 2) CbReturned; LKill (from_raw 2); LPostStop (from_raw 2)] ++
    replicate 4 (LStep (from_raw 2) CbReturned) ++ [LPostStop (from_raw 1)] ++
    replicate 5 (LStep (from_raw 1) CbReturned)).

(** The exit of a killed remote child is never reported. There is a run in
    which a child is spawned for a remote supervisor, entered in the broker's
    tables and then killed: its exit signal, which no actor can trap, cancels
    the broker actor it is linked to, so that the broker ends, with reason
    [Kill], instead of propagating the exit; nothing was published, and later
    spawn requests with a link find a dead broker. *)
Theorem killed_child_ends_broker :
  let _ : ThisNode := node_new "n@h" in
  ∃ s, nrun quiet_down killed_child (node_start spawning_store true) = Some s ∧
    nr_replies s = [mkEnvelope 7 (SpawnOk (on this_node (from_raw 2)))] ∧
    exit_reason (from_raw 2) (actors (nd_world (nr_node s))) = Some Kill ∧
    exit_reason (from_raw 1) (actors (nd_world (nr_node s))) = Some Kill ∧
    bk_parents (nd_broker (nr_node s)) !! from_raw 2 = Some home ∧
    nd_log (nr_node s) = [] ∧ nd_outbox (nr_node s) = [].
Proof.
  intros T.
  destruct (observe (nrun quiet_down killed_child (node_start spawning_store true))
    (λ s, (nr_replies s, exit_reason (from_raw 2) (actors (nd_world (nr_node s))),
           exit_reason (from_raw 1) (actors (nd_world (nr_node s))),
           bk_parents (nd_broker (nr_node s)) !! from_raw 2, nd_log (nr_node s), nd_outbox (nr_node s)))
    ([mkEnvelope 7 (SpawnOk (on this_node (from_raw 2)))], Some Kill, Some Kill, Some home, [], []))
    as (s & Hrun & Hv); [vm_compute; reflexivity|].
  exists s. split; [exact Hrun|]. injection Hv as H1 H2 H3 H4 H5 H6. split_and!; assumption.
Qed.

(** Two remote actors link to actor 2: the second after it was killed and
    before the task of the first link has noticed. *)
Definition peer1 : ActorAddress := on (node_new "home@h") (from_raw 5).
Definition late_link `{ThisNode} : list (NLabel ()) :=
  let t := from_raw 2 in
  [NActor (LSpawn Tasks); NRegister t; NInbound (link_envelope peer1 (local_addr t));
   NActor (LStep t CbReturned); NActor (LKill t); NActor (LPostStop t);
   NActor (LStep t CbReturned); NActor (LStep t CbReturned); NActor (LStep t CbReturned);
   NActor (LStep t CbReturned); NInbound (link_envelope home (local_addr t)); NTask 0].

(** A linked peer can be told twice. There is a run in which one remote
    actor links once to an actor and two [ChildExit] events are sent to it:
    one because the link found the actor completed, and one by the task of an
    earlier link, which also finds the new peer in the table. *)
Theorem link_peer_told_twice :
  let _ : ThisNode := node_new "n@h" in
  ∃ s, nrun quiet_down late_link (node_start spawning_store true) = Some s ∧
    nd_outbox (nr_node s) =
      [(node_new "home@h", child_exit_envelope (local_addr (from_raw 2)) home Kill);
       (node_new "home@h", child_exit_envelope (local_addr (from_raw 2)) peer1 Kill);
       (node_new "home@h", child_exit_envelope (local_addr (from_raw 2)) home Kill)].
Proof.
  intros T.
  destruct (observe (nrun quiet_down late_link (node_start spawning_store true)) (λ s, nd_outbox (nr_node s))
    [(node_new "home@h", child_exit_envelope (local_addr (from_raw 2)) home Kill);
     (node_new "home@h", child_exit_envelope (local_addr (from_raw 2)) peer1 Kill);
     (node_new "home@h", child_exit_envelope (local_addr (from_raw 2)) home Kill)])
    as (s & Hrun & Hv); [vm_compute; reflexivity|].
  exists s. split; [exact Hrun|exact Hv].
Qed.

(** A node without the publish hook forgets the child and tells nobody. *)
Theorem no_hook_no_child_exit {M A} `{ThisNode} send_down (nd : Node M A) e parent :
  nd_publish nd = false → bk_parents (nd_broker nd) !! actor_id (from e) = Some parent →
  let nd' := propagate_child_exit send_down e nd in
  nd_outbox nd' = nd_outbox nd ∧ nd_log nd' = nd_log nd ∧
  bk_parents (nd_broker nd') !! actor_id (from e) = None.
Proof.
  intros Hp Hpa. unfold propagate_child_exit. rewrite Hpa. simpl.
  rewrite publish_off by done. simpl. split_and!; [done..|]. apply lookup_delete_eq.
Qed.

(** ** Witnesses *)

(** A node with a tasks runtime whose first actor is registered. *)
Definition sample_node (n : NodeId) : Node () () :=
  let _ : ThisNode := n in
  let nd := nr_node (node_start (install_tasks_runtime (spawn_store_new NoRuntime (λ _ _, []))) true) in
  let b := snd (register (local_addr (from_raw 1)) (from_raw 1) (nd_broker nd)) in
  set_broker (snd (register_down_owner (local_addr (from_raw 1)) b)) nd.

Lemma routed_event_accepted_witness :
  let _ : ThisNode := node_new "n@h" in
  let env := mkEnvelope 0 (SignalEv (local_addr (from_raw 1)) SigKill) in
  let nd := sample_node (node_new "n@h") in
  ∃ r nd', apply quiet_down env nd = Some (r, nd') ∧
    (is_ok r = true ↔ accepts quiet_down (event env) nd) ∧
    (∀ p n sp l, event env = SpawnRequest p n sp l →
       ∃ e, r = Ok (Some (mkEnvelope (correlation_id env) e)) ∧
         ((∃ c, e = SpawnOk c ∧ node c = bk_local (nd_broker nd)) ∨ ∃ m, e = SpawnErr m)).
Proof.
  intros T env nd. destruct (apply quiet_down env nd) as [[r nd']|] eqn:Ha.
  - exists r, nd'. split; [reflexivity|]. apply (routed_event_accepted quiet_down env nd r nd').
    + reflexivity.
    + exact Ha.
  - exfalso. revert Ha. vm_compute. discriminate.
Defined.

Lemma remote_down_at_most_once_witness :
  let _ : ThisNode := node_new "n@h" in
  let key := mkMonitorKey home 4 in
  ∃ s, nrun quiet_down
      [NRegister (from_raw 1); NInbound (monitor_envelope home (local_addr (from_raw 1)) 4);
       NActor (LStep (from_raw 1) (CbPanicked "x")); NActor (LStep (from_raw 1) CbReturned);
       NActor (LStep (from_raw 1) CbReturned); NActor (LStep (from_raw 1) CbReturned); NTask 0]
      (node_start spawning_store true) = Some s ∧
    downs key (nr_node s) = 1 ∧ downs key (nr_node s) ≤ 1.
Proof.
  intros T key.
  match goal with |- ∃ s, nrun _ ?ls ?s0 = _ ∧ _ =>
    destruct (observe (nrun quiet_down ls s0) (λ s, downs key (nr_node s)) 1) as (s & Hrun & Hv);
      [vm_compute; reflexivity|];
    pose proof (remote_down_at_most_once quiet_down spawning_store true ls s key Hrun) as Hle
  end.
  exists s. split; [exact Hrun|]. split; [exact Hv|exact Hle].
Defined.

Definition home_owner : ActorAddress := on (node_new "home@h") (from_raw 1).
Definition far_target : ActorAddress := on (node_new "far@h") (from_raw 1).
Definition dead_world : World () :=
  mkWorld (<[from_raw 1 := set_completion (Some Kill) (set_phase Completed (new_cell Tasks))]> ∅)
    empty_store Names.empty_names 2.

Lemma remote_monitor_end_to_end_witness :
  let nA := node_new "home@h" in let nB := node_new "far@h" in
  let a := sample_node nA in let b := sample_node nB in
  let key := mkMonitorKey home_owner 4 in
  ∃ b1 b2, apply (H := nB) quiet_down (monitor_envelope home_owner far_target 4) b = Some (Ok None, b1) ∧
    nd_tasks b1 = nd_tasks b ++ [MonitorWait key far_target] ∧
    bk_monitors (nd_broker b1) = <[key := true]> (bk_monitors (nd_broker b)) ∧
    nd_outbox b1 = nd_outbox b ∧
    run_task (H := nB) quiet_down (length (nd_tasks b)) (set_world dead_world b1) = Some b2 ∧
    nd_tasks b2 = nd_tasks b ∧
    bk_monitors (nd_broker b2) = delete key (bk_monitors (nd_broker b)) ∧
    nd_outbox b2 = nd_outbox b ++ [(nA, down_envelope home_owner 4 far_target Kill)] ∧
    apply (H := nA) quiet_down (down_envelope home_owner 4 far_target Kill) a =
      (let '(res, w) := quiet_down (from_raw 1) 4%N Kill (nd_world a) in
       Some (match res with Ok _ => Ok None | Err e => Err (Protocol (actor_error_to_string e)) end,
             set_world w a)).
Proof.
  intros nA nB a b key.
  apply (remote_monitor_end_to_end nA nB quiet_down a b home_owner far_target 4 Kill dead_world).
  - discriminate.
  - reflexivity.
  - reflexivity.
  - reflexivity.
  - reflexivity.
  - apply (bool_decide_unpack _). vm_compute. reflexivity.
  - reflexivity.
  - reflexivity.
  - reflexivity.
  - apply (bool_decide_unpack _). vm_compute. reflexivity.
  - reflexivity.
Defined.

(** A node that has spawned a child for [home_owner]; the child has panicked
    and is about to signal its links. *)
Definition child_exiting : NodeRun () () :=
  let nB : ThisNode := node_new "far@h" in
  default (node_start spawning_store true)
    (nrun quiet_down (spawned_for home_owner ++ [NActor (LStep (from_raw 2) (CbPanicked "boom"))])
       (node_start spawning_store true)).

Lemma child_exiting_reachable : reachable (H := node_new "far@h") (nd_world (nr_node child_exiting)).
Proof.
  exists ([LSpawn Tasks; LTrapExit (from_raw 1) true; LStep (from_raw 1) CbReturned; LSpawn Tasks] ++
    link_labels (from_raw 1) (from_raw 2) ++ [LStep (from_raw 2) (CbPanicked "boom")]).
  split; [simpl; lia|]. vm_compute. reflexivity.
Qed.

Lemma remote_child_exit_end_to_end_witness :
  let nA := node_new "home@h" in let nB := node_new "far@h" in
  let a := sample_node nA in let b := nr_node child_exiting in
  let i := from_raw 2 in let r := Panic "panic in started(): boom" in
  let env := child_exit_envelope (on nB i) home_owner r in
  ∃ s1, nrun (H := nB) quiet_down [NActor (LStep i CbReturned); NActor (LStep (from_raw 1) CbReturned)] child_exiting =
      Some s1 ∧
    let b1 := nr_node s1 in
    nd_outbox b1 = nd_outbox b ++ [(nA, env)] ∧
    (i ∉ bk_handles (nd_broker b1)) ∧ bk_parents (nd_broker b1) !! i = None ∧
    bk_exited (nd_broker b1) !! i = Some r ∧
    propagate_child_exit (H := nB) quiet_down (mkExit (on nB i) r) b1 = b1 ∧
    ∃ a' c', apply (H := nA) quiet_down env a = Some (Ok None, a') ∧
      nd_waits a' = nd_waits a ∖ {[i]} ∧
      actors (nd_world a') !! actor_id home_owner = Some c' ∧
      queue (supervision (c_mailbox c')) =
        queue (supervision (c_mailbox (new_cell (M := ()) Tasks))) ++ [mkExit (on nB i) r].
Proof.
  intros nA nB a b i r.
  eapply (remote_child_exit_end_to_end nA nB quiet_down a child_exiting i (from_raw 1) home_owner r _ _ (new_cell Tasks)).
  - discriminate.
  - reflexivity.
  - reflexivity.
  - reflexivity.
  - apply (reachable_ok (H := nB)), child_exiting_reachable.
  - reflexivity.
  - discriminate.
  - reflexivity.
  - reflexivity.
  - discriminate.
  - apply list_elem_of_singleton. reflexivity.
  - reflexivity.
  - reflexivity.
  - reflexivity.
  - reflexivity.
  - reflexivity.
  - reflexivity.
  - apply (bool_decide_unpack _). vm_compute. reflexivity.
  - reflexivity.
  - reflexivity.
Defined.

Lemma remote_link_never_kills_witness :
  let _ : ThisNode := node_new "home@h" in
  let nd := sample_node (node_new "home@h") in
  ∃ nd' c', apply quiet_down (child_exit_envelope far_target home_owner Kill) nd = Some (Ok None, nd') ∧
    actors (nd_world nd') !! from_raw 1 = Some c' ∧
    c_cancelled c' = false ∧ c_linked_reason c' = None ∧
    queue (supervision (c_mailbox c')) =
      queue (supervision (c_mailbox (new_cell (M := ()) Tasks))) ++ [mkExit far_target Kill] ∧
    (signal_kills Kill (c_trap_exit (new_cell (M := ()) Tasks)) = true →
     c_cancelled (exit_signal (from_raw 1) Kill (new_cell (M := ()) Tasks)) = true).
Proof.
  intros T nd. eexists _, _. split; [reflexivity|]. split; [reflexivity|].
  eapply (remote_link_never_kills quiet_down nd _ far_target home_owner Kill (new_cell Tasks)).
  - reflexivity.
  - reflexivity.
  - reflexivity.
Defined.
