(* ===== verification/RemoteContext.v ===== *)
(** * Monitoring and linking actors on other nodes

    The client side of remote supervision: [Context::monitor_address],
    [demonitor], [link_address] and [unlink_address] in
    [concurrency/src/tasks/actor.rs], and [propagate_remote_link_exits] of
    [concurrency/src/cluster/supervision_link.rs], which the epilogue of an
    actor calls. They keep tables of remote monitors and links in the actor
    and publish events, which [Broker] routes. *)

From S2P Require Import Prelude Address Errors Mailbox Backpressure ChildSpec ProcessGroups Registry Links Actor Requests Monitors RemoteSpawn Wire SpawnServer Broker BrokerRuns.
Import Receiver.

Section context.
Context {M A : Type} `{ThisNode}.
Context (send_down : ActorId → N → ExitReason → World M → Result () ActorError * World M).

(** A node with the tables of its actors: the entries of [monitors] that
    belong to remote monitors, [remote_monitors] and [remote_links]. *)
Record CtxSys := mkCtx {
  cx_node : Node M A;
  cx_next : N;
  cx_monitors : gset (ActorId * N);
  cx_remote_monitors : gmap (ActorId * N) ActorAddress;
  cx_remote_links : gmap ActorId (gset ActorAddress)
}.
Definition links_of (i : ActorId) (s : CtxSys) : gset ActorAddress := default ∅ (cx_remote_links s !! i).

(** [monitor_address]: [None] is the panic for an unregistered local target;
    for a registered one the caller goes on with [Context::monitor]. *)
Definition monitor_address (own : ActorId) (target : ActorAddress) (s : CtxSys)
    : option ((ActorId + N) * CtxSys) :=
  if is_local target then
    i ← local_handle (actor_id target) (nd_broker (cx_node s)); Some (inl i, s)
  else
    let k := cx_next s in
    Some (inr k,
      mkCtx (publish_supervision send_down (monitor_envelope (local_addr own) target k) (cx_node s))
        (wrapping_succ_u64 k) ({[(own, k)]} ∪ cx_monitors s)
        (<[(own, k) := target]> (cx_remote_monitors s)) (cx_remote_links s)).

(** The part of [demonitor] for a remote monitor. *)
Definition demonitor_remote (own : ActorId) (k : N) (s : CtxSys) : CtxSys :=
  let nd := match cx_remote_monitors s !! (own, k) with
            | Some target =>
                publish_supervision send_down (demonitor_envelope (local_addr own) target k) (cx_node s)
            | None => cx_node s
            end in
  mkCtx nd (cx_next s) (cx_monitors s ∖ {[(own, k)]}) (delete (own, k) (cx_remote_monitors s))
    (cx_remote_links s).

(** [link_address]; a local target is linked with [Context::link]. *)
Definition link_address (own : ActorId) (target : ActorAddress) (s : CtxSys)
    : option (option ActorId * CtxSys) :=
  if is_local target then
    i ← local_handle (actor_id target) (nd_broker (cx_node s)); Some (Some i, s)
  else
    Some (None,
      mkCtx (publish_supervision send_down (link_envelope (local_addr own) target) (cx_node s))
        (cx_next s) (cx_monitors s) (cx_remote_monitors s)
        (<[own := {[target]} ∪ links_of own s]> (cx_remote_links s))).

Definition unlink_address (own : ActorId) (target : ActorAddress) (s : CtxSys)
    : option (option ActorId * CtxSys) :=
  if is_local target then
    i ← local_handle (actor_id target) (nd_broker (cx_node s)); Some (Some i, s)
  else if decide (target ∈ links_of own s) then
    Some (None,
      mkCtx (publish_supervision send_down (unlink_envelope (local_addr own) target) (cx_node s))
        (cx_next s) (cx_monitors s) (cx_remote_monitors s)
        (<[own := links_of own s ∖ {[target]}]> (cx_remote_links s)))
  else Some (None, s).

(** [propagate_remote_link_exits]; the set is iterated in any order. *)
Definition propagate_remote_link_exits (own : ActorId) (r : ExitReason) (s : CtxSys) : CtxSys :=
  mkCtx (foldl (λ nd peer, publish_supervision send_down (child_exit_envelope (local_addr own) peer r) nd)
           (cx_node s) (elements (links_of own s)))
    (cx_next s) (cx_monitors s) (cx_remote_monitors s) (cx_remote_links s).
End context.
Arguments CtxSys M A : clear implicits.

(** ** What is sent *)

Section sent.
Context {M A : Type} `{ThisNode}.
Context (send_down : ActorId → N → ExitReason → World M → Result () ActorError * World M).
Implicit Types (s : CtxSys M A) (nd : Node M A).

(** A node as [NodeBuilder] sets it up: its own name, the hook installed. *)
Definition online nd : Prop := bk_local (nd_broker nd) = this_node ∧ nd_publish nd = true.

Lemma remote_ne a : is_local a = false → node a ≠ this_node.
Proof. intros Hl Hn. unfold is_local in Hl. by apply bool_decide_eq_false in Hl. Qed.

Lemma publish_online env nd n :
  online nd → route_node (event env) = Some n → n ≠ this_node →
  publish_supervision send_down env nd = push_outbox n env (push_log env nd) ∧
  online (push_outbox n env (push_log env nd)).
Proof.
  intros [Hl Hp] Hr Hne. split; [|by split]. apply publish_remote; [done..|by rewrite Hl].
Qed.

Lemma publish_exits_outbox own r peers nd :
  online nd → Forall (λ p, is_local p = false) peers →
  nd_outbox (foldl (λ nd peer, publish_supervision send_down (child_exit_envelope (local_addr own) peer r) nd)
    nd peers) = nd_outbox nd ++ ((λ p, (node p, child_exit_envelope (local_addr own) p r)) <$> peers).
Proof.
  intros Hon Hall. revert nd Hon. induction Hall as [|p peers Hp _ IH]; intros nd Hon; simpl.
  { by rewrite app_nil_r. }
  destruct (publish_online (child_exit_envelope (local_addr own) p r) nd (node p) Hon eq_refl
    (remote_ne p Hp)) as [-> Hon']. rewrite (IH _ Hon'). simpl. by rewrite <- app_assoc.
Qed.

(** The tables only hold remote addresses. *)
Definition links_remote s : Prop := ∀ i p, p ∈ links_of i s → is_local p = false.

Lemma link_address_remote own t s x s' :
  links_remote s → link_address send_down own t s = Some (x, s') → links_remote s'.
Proof.
  intros Hr. unfold link_address. destruct (is_local t) eqn:Ht.
  - by intros (i & _ & [= <- <-])%bind_Some.
  - intros [= <- <-] i p. unfold links_of. simpl. destruct (decide (i = own)) as [->|Hne].
    + rewrite lookup_insert_eq. simpl. intros [->%elem_of_singleton|Hp]%elem_of_union; [done|].
      by apply (Hr own).
    + rewrite lookup_insert_ne by done. apply Hr.
Qed.
End sent.

(** An exit is told to exactly the linked remote actors. When an actor
    on a node in service exits, the outbox gains one [ChildExit] with its
    address and reason for each address in its table of remote links, sent
    to that address's node, and nothing else. *)
Theorem remote_link_exits_exact {M A} `{ThisNode} send_down (s : CtxSys M A) own r :
  online (cx_node s) → links_remote s →
  ∃ sent, nd_outbox (cx_node (propagate_remote_link_exits send_down own r s)) =
      nd_outbox (cx_node s) ++ sent ∧
    NoDup sent ∧
    ∀ n e, (n, e) ∈ sent ↔
      ∃ p, p ∈ links_of own s ∧ n = node p ∧ e = child_exit_envelope (local_addr own) p r.
Proof.
  intros Hon Hr. eexists. split.
  { simpl. apply publish_exits_outbox; [done|]. apply Forall_forall. intros p Hp%elem_of_elements.
    by apply (Hr own). }
  split.
  - apply NoDup_fmap_2; [|apply NoDup_elements]. intros p q Hpq. by injection Hpq.
  - intros n e. rewrite list_elem_of_fmap. split.
    + intros (p & [= -> ->] & Hp%elem_of_elements). eauto.
    + intros (p & Hp & -> & ->). exists p. split; [done|]. by apply elem_of_elements.
Qed.

(** Cancelling a remote monitor works end to end. Let an actor on [nA]
    monitor a living registered actor on [nB] and cancel the monitor, and let
    both events reach [nB] in this order. Then [nB]'s broker has no entry for
    it, and when its task finds the target completed, it sends nothing. *)
Theorem remote_demonitor_end_to_end {M A} (nA nB : NodeId) send_down (s : CtxSys M A) (b : Node M A)
    own target r w' :
  nA ≠ nB → online (H := nA) (cx_node s) → online (H := nB) b → node target = nB →
  actor_id target ∈ bk_handles (nd_broker b) →
  exit_reason (actor_id target) (actors (nd_world b)) = None → has_runtime b = true →
  exit_reason (actor_id target) (actors w') = Some r →
  ∃ k s1 e1 e2 b1 b2 b3,
    monitor_address (H := nA) send_down own target s = Some (inr k, s1) ∧
    nd_outbox (cx_node (demonitor_remote (H := nA) send_down own k s1)) =
      nd_outbox (cx_node s) ++ [(nB, e1); (nB, e2)] ∧
    apply (H := nB) send_down e1 b = Some (Ok None, b1) ∧
    apply (H := nB) send_down e2 b1 = Some (Ok None, b2) ∧
    bk_monitors (nd_broker b2) !! mkMonitorKey (on nA own) k = None ∧
    run_task (H := nB) send_down (length (nd_tasks b)) (set_world w' b2) = Some b3 ∧
    nd_outbox b3 = nd_outbox b ∧ nd_tasks b3 = nd_tasks b.
Proof.
  intros Hne Hon [Hlb Hpb] Ht Hh Hx Hrt Hr.
  assert (is_local (H := nA) target = false) as Hloc.
  { unfold is_local. apply bool_decide_eq_false. rewrite Ht. exact (not_eq_sym Hne). }
  set (k := cx_next s). set (key := mkMonitorKey (on nA own) k).
  set (b0 := set_broker (set_monitors (<[key := true]> (bk_monitors (nd_broker b))) (nd_broker b)) b).
  set (b1 := set_tasks (nd_tasks b ++ [MonitorWait key target]) b0).
  set (b2 := set_broker (set_monitors (delete key (bk_monitors (nd_broker b1))) (nd_broker b1)) b1).
  assert (node target ≠ nA) as HtA by (rewrite Ht; exact (not_eq_sym Hne)).
  destruct (publish_online (H := nA) send_down (monitor_envelope (on nA own) target k) (cx_node s)
    (node target) Hon eq_refl HtA) as [Hp1 Hon1].
  destruct (publish_online (H := nA) send_down (demonitor_envelope (on nA own) target k) _
    (node target) Hon1 eq_refl HtA) as [Hp2 _].
  exists k. eexists. exists (monitor_envelope (on nA own) target k), (demonitor_envelope (on nA own) target k).
  exists b1, b2. eexists. split.
  { unfold monitor_address. rewrite Hloc. reflexivity. }
  split.
  { unfold demonitor_remote. cbn [cx_remote_monitors]. rewrite lookup_insert_eq. cbn [cx_node].
    unfold local_addr, this_node. fold k. rewrite Hp1, Hp2. simpl. rewrite Ht, <- app_assoc. done. }
  split.
  { unfold apply, apply_with. simpl. unfold apply_monitor, local_handle.
    rewrite (decide_False (P := node target ≠ _)) by (rewrite Ht, Hlb; tauto).
    rewrite (decide_True (P := actor_id target ∈ _)) by done. simpl. rewrite Hx.
    unfold spawn_async_on_runtime. unfold has_runtime in Hrt. simpl. by rewrite Hrt. }
  split; [done|]. split; [simpl; apply lookup_delete_eq|]. split.
  { unfold run_task. cbn [nd_tasks set_world b2 b1 set_tasks set_broker].
    rewrite lookup_app_r, Nat.sub_diag by lia. cbn [lookup list_lookup mbind option_bind].
    unfold task_step, monitor_wait. cbn [nd_world set_tasks set_world]. rewrite Hr. cbn [mbind option_bind].
    cbn [nd_broker set_tasks set_world b2 b1 b0 set_broker bk_monitors set_monitors].
    rewrite lookup_delete_eq. cbn [default from_option id]. reflexivity. }
  simpl. split; [done|]. by rewrite delete_middle, app_nil_r.
Qed.

(** ** Links are not mutual *)

(** Only the side that made a remote link can remove it. After actor [x]
    on [nA] has linked itself to [y] on [nB], and [nB]'s broker has recorded
    the link, a call of [unlink_address] by [y] (which made no link to [x]
    itself) publishes nothing: [x] still lists [y] and [nB] still lists [x].
    A local [unlink] removes the link from both tables, whoever calls it. *)
Theorem unlink_by_peer_ignored {M A} (nA nB : NodeId) send_down (s : CtxSys M A) (t : CtxSys M A) x y s1 t1 :
  nA ≠ nB → online (H := nA) (cx_node s) → links_of y t = ∅ → bk_local (nd_broker (cx_node t)) = nB →
  y ∈ bk_handles (nd_broker (cx_node t)) →
  link_address (H := nA) send_down x (on nB y) s = Some (None, s1) →
  apply (H := nB) send_down (link_envelope (on nA x) (on nB y)) (cx_node t) = Some (Ok None, t1) →
  on nB y ∈ links_of x s1 ∧
  nd_outbox (cx_node s1) = nd_outbox (cx_node s) ++ [(nB, link_envelope (on nA x) (on nB y))] ∧
  (bk_exited (nd_broker (cx_node t)) !! y = None → exit_reason y (actors (nd_world (cx_node t))) = None →
   on nA x ∈ default [] (bk_link_peers (nd_broker t1) !! y)) ∧
  unlink_address (H := nB) send_down y (on nA x) (mkCtx t1 (cx_next t) (cx_monitors t)
    (cx_remote_monitors t) (cx_remote_links t)) =
    Some (None, mkCtx t1 (cx_next t) (cx_monitors t) (cx_remote_monitors t) (cx_remote_links t)).
Proof.
  intros Hne Hon Hlinks Hloc Hh Hla Happ.
  assert (is_local (H := nA) (on nB y) = false) as Hl1.
  { unfold is_local. apply bool_decide_eq_false. exact (not_eq_sym Hne). }
  assert (is_local (H := nB) (on nA x) = false) as Hl2.
  { unfold is_local. apply bool_decide_eq_false. exact Hne. }
  unfold link_address in Hla. rewrite Hl1 in Hla. injection Hla as <-.
  destruct (publish_online (H := nA) send_down (link_envelope (on nA x) (on nB y)) (cx_node s) nB Hon eq_refl
    (not_eq_sym Hne)) as [Hp _].
  split_and!.
  - unfold links_of at 1. simpl. rewrite lookup_insert_eq. simpl. set_solver.
  - simpl. unfold local_addr, this_node. by rewrite Hp.
  - intros Hx Hr. unfold apply, apply_with in Happ. simpl in Happ. unfold apply_link, link_ends, local_handle in Happ.
    rewrite Hloc in Happ. simpl in Happ. rewrite (decide_False (P := nA = nB)) in Happ by done.
    rewrite (decide_True (P := nB = nB)) in Happ by done. simpl in Happ. rewrite Hx in Happ.
    rewrite (decide_True (P := y ∈ _)) in Happ by done. rewrite Hr in Happ.
    assert (∀ (l : list ActorAddress), on nA x ∈ (if bool_decide (on nA x ∈ l) then l else l ++ [on nA x])) as Hin.
    { intros l. destruct (decide (on nA x ∈ l)) as [Hi|Hi].
      - by rewrite bool_decide_eq_true_2.
      - rewrite bool_decide_eq_false_2 by done. apply elem_of_app. right. by apply list_elem_of_singleton. }
    case_decide; injection Happ as <-; [simpl; rewrite lookup_insert_eq; apply Hin|].
    unfold spawn_async_on_runtime. destruct (env_has_runtime _); simpl; rewrite lookup_insert_eq; apply Hin.
  - unfold unlink_address. rewrite Hl2. unfold links_of in Hlinks. unfold links_of. simpl. rewrite Hlinks.
    by rewrite decide_False by set_solver.
Qed.

(** ** Witnesses *)

Definition sample_ctx (n : NodeId) : CtxSys () () := mkCtx (sample_node n) 1 ∅ ∅ ∅.

Lemma remote_link_exits_exact_witness :
  let nA := node_new "home@h" in
  let _ : ThisNode := nA in
  let s := mkCtx (sample_node nA) 1 ∅ ∅ {[from_raw 1 := {[far_target]}]} in
  ∃ sent, nd_outbox (cx_node (propagate_remote_link_exits quiet_down (from_raw 1) Kill s)) =
      nd_outbox (cx_node s) ++ sent ∧
    NoDup sent ∧
    ∀ n e, (n, e) ∈ sent ↔
      ∃ p, p ∈ links_of (from_raw 1) s ∧ n = node p ∧
        e = child_exit_envelope (local_addr (from_raw 1)) p Kill.
Proof.
  intros nA T s. apply (remote_link_exits_exact quiet_down s (from_raw 1) Kill).
  - split; reflexivity.
  - intros i p. unfold links_of. simpl. destruct (decide (i = from_raw 1)) as [->|Hne].
    + rewrite lookup_singleton_eq. simpl. by intros ->%elem_of_singleton.
    + rewrite lookup_singleton_ne by done. by intros ?%elem_of_empty.
Defined.

Lemma remote_demonitor_end_to_end_witness :
  let nA := node_new "home@h" in let nB := node_new "far@h" in
  let s := sample_ctx nA in let b := sample_node nB in
  ∃ k s1 e1 e2 b1 b2 b3,
    monitor_address (H := nA) quiet_down (from_raw 1) far_target s = Some (inr k, s1) ∧
    nd_outbox (cx_node (demonitor_remote (H := nA) quiet_down (from_raw 1) k s1)) =
      nd_outbox (cx_node s) ++ [(nB, e1); (nB, e2)] ∧
    apply (H := nB) quiet_down e1 b = Some (Ok None, b1) ∧
    apply (H := nB) quiet_down e2 b1 = Some (Ok None, b2) ∧
    bk_monitors (nd_broker b2) !! mkMonitorKey (on nA (from_raw 1)) k = None ∧
    run_task (H := nB) quiet_down (length (nd_tasks b)) (set_world dead_world b2) = Some b3 ∧
    nd_outbox b3 = nd_outbox b ∧ nd_tasks b3 = nd_tasks b.
Proof.
  intros nA nB s b.
  apply (remote_demonitor_end_to_end nA nB quiet_down s b (from_raw 1) far_target Kill dead_world).
  - discriminate.
  - split; reflexivity.
  - split; reflexivity.
  - reflexivity.
  - apply (bool_decide_unpack _). vm_compute. reflexivity.
  - reflexivity.
  - reflexivity.
  - reflexivity.
Defined.

Lemma unlink_by_peer_ignored_witness :
  let nA := node_new "home@h" in let nB := node_new "far@h" in
  let x := from_raw 1 in let y := from_raw 1 in
  let s := sample_ctx nA in let t := sample_ctx nB in
  ∃ s1 t1, link_address (H := nA) quiet_down x (on nB y) s = Some (None, s1) ∧
    apply (H := nB) quiet_down (link_envelope (on nA x) (on nB y)) (cx_node t) = Some (Ok None, t1) ∧
    on nB y ∈ links_of x s1 ∧
    nd_outbox (cx_node s1) = nd_outbox (cx_node s) ++ [(nB, link_envelope (on nA x) (on nB y))] ∧
    (bk_exited (nd_broker (cx_node t)) !! y = None → exit_reason y (actors (nd_world (cx_node t))) = None →
     on nA x ∈ default [] (bk_link_peers (nd_broker t1) !! y)) ∧
    unlink_address (H := nB) quiet_down y (on nA x) (mkCtx t1 (cx_next t) (cx_monitors t)
      (cx_remote_monitors t) (cx_remote_links t)) =
      Some (None, mkCtx t1 (cx_next t) (cx_monitors t) (cx_remote_monitors t) (cx_remote_links t)).
Proof.
  intros nA nB x y s t. eexists _, _. split; [reflexivity|]. split; [reflexivity|].
  eapply (unlink_by_peer_ignored nA nB quiet_down s t x y).
  - discriminate.
  - split; reflexivity.
  - reflexivity.
  - reflexivity.
  - apply (bool_decide_unpack _). vm_compute. reflexivity.
  - reflexivity.
  - reflexivity.
Defined.
