(* ===== verification/NodeBuild.v ===== *)
(** * Building a node

    Model of [concurrency/src/cluster/node.rs] and [node_readiness.rs], as
    compiled without the feature [cluster-libp2p]: what [NodeBuilder::build]
    installs in the process, on success and on failure, and what
    [Node::readiness] then reports. The statics of the process that a node
    shares with the rest of the program are the fields of [Process]; a publish
    hook is a value of a type [Hk], which [NodeLibp2p] instantiates with the
    transports of both kinds. *)

From S2P Require Import Prelude Address Errors Mailbox ChildSpec ProcessGroups Registry Links Actor Signals RemoteSpawn Wire RemoteRefs SpawnServer Broker BrokerRuns Tcp.

Inductive NodeError := NodeTransport (e : TransportError) | NameAlreadySet | InvalidConfig (msg : string).

Section build.
Context {W S M Hk : Type} (hook_of : TcpTransport W → Hk).
(** The hooks of the two registries and of a broker, as [Federation] and
    [Broker] define them. *)
Context (federated_hooks : ControlPlaneHooks W) (broker_hooks : NodeId → SupervisionHooks W).
(** The transport of a configuration as [ClusterRouter] sees it, and whether
    the operating system lets the process listen on an address. *)
Context (transport_of : TcpTransport W → Transport S) (can_bind : string → bool).

Record NodeBuilder := mkBuilder {
  nb_name : option NodeId;
  nb_listen : option string;
  nb_peers : list (NodeId * string);
  nb_shutdown : list (SendSignalFn M)
}.
Definition builder : NodeBuilder := mkBuilder None None [] [].

(** [HashMap::insert], keeping the place of a key in the iteration order. *)
Fixpoint insert_peer (n : NodeId) (addr : string) (l : list (NodeId * string)) : list (NodeId * string) :=
  match l with
  | [] => [(n, addr)]
  | (m, a) :: l => if decide (m = n) then (n, addr) :: l else (m, a) :: insert_peer n addr l
  end.

Definition nb_with_name (n : NodeId) b := mkBuilder (Some n) (nb_listen b) (nb_peers b) (nb_shutdown b).
Definition nb_with_listen (addr : string) b := mkBuilder (nb_name b) (Some addr) (nb_peers b) (nb_shutdown b).
Definition nb_with_peer (n : NodeId) (addr : string) b :=
  mkBuilder (nb_name b) (nb_listen b) (insert_peer n addr (nb_peers b)) (nb_shutdown b).
Definition shutdown_on_signal (sends : list (SendSignalFn M)) b :=
  mkBuilder (nb_name b) (nb_listen b) (nb_peers b) (nb_shutdown b ++ sends).
Definition validate (b : NodeBuilder) : Result () NodeError := Ok ().

(** The statics. A publish hook stands for the transport that it sends through;
    [pr_listening] are the open listeners with the hooks they serve. *)
Record Process := mkProcess {
  pr_slot : LocalNode.Slot;
  pr_runtime_current : bool;
  pr_runtime_installed : bool;
  pr_router : option (ClusterRouter S);
  pr_registry_hook : option Hk;
  pr_pg_hook : option Hk;
  pr_publish_hook : option Hk;
  pr_request_hook : option Hk;
  pr_broker : option NodeId;
  pr_listening : list (string * ControlPlaneHooks W);
  pr_signals : Signals M
}.

Record ClusterNode := mkClusterNode {
  cn_local : NodeId;
  cn_router : ClusterRouter S;
  cn_transport : option (TcpTransport W);
  cn_listener : option string;
  cn_supervision : bool;
  cn_guards : list N;
  cn_listen_configured : bool;
  cn_peers_configured : nat
}.

(** [set_local_node_for_test] and [local_node], for a name that was given. *)
Definition claim_name (b : NodeBuilder) (p : Process) : Result () NodeError * Process :=
  match nb_name b with
  | None => (Ok (), p)
  | Some name =>
      let '(n, slot) := LocalNode.local_node (LocalNode.set_local_node_for_test name (pr_slot p)) in
      let p := mkProcess slot (pr_runtime_current p) (pr_runtime_installed p) (pr_router p)
        (pr_registry_hook p) (pr_pg_hook p) (pr_publish_hook p) (pr_request_hook p) (pr_broker p)
        (pr_listening p) (pr_signals p) in
      if decide (n ≠ name) then (Err NameAlreadySet, p) else (Ok (), p)
  end.

(** A node takes part in a cluster when it listens or has peers. *)
Definition cluster_active (b : NodeBuilder) : bool :=
  bool_decide (is_Some (nb_listen b)) || negb (bool_decide (nb_peers b = [])).

Definition control_of (b : NodeBuilder) (local : NodeId) : ControlPlaneHooks W :=
  if cluster_active b then with_supervision (broker_hooks local) federated_hooks else hooks_none.

Definition tcp_of (b : NodeBuilder) (local : NodeId) : option (TcpTransport W) :=
  match nb_peers b with
  | [] => None
  | peers => Some (mkTcp local peers (control_of b local))
  end.

(** [registry_sync::install], [pg_sync::install] and the two
    [supervision_sync::install_*], when there is a transport. *)
Definition install_hooks (b : NodeBuilder) (local : NodeId) (p : Process) : Process :=
  match tcp_of b local with
  | None => p
  | Some t =>
      mkProcess (pr_slot p) (pr_runtime_current p) (pr_runtime_installed p) (pr_router p)
        (if cluster_active b then Some (hook_of t) else pr_registry_hook p)
        (if cluster_active b then Some (hook_of t) else pr_pg_hook p)
        (if cluster_active b then Some (hook_of t) else pr_publish_hook p)
        (if cluster_active b then Some (hook_of t) else pr_request_hook p)
        (pr_broker p) (pr_listening p) (pr_signals p)
  end.

Definition router_of (b : NodeBuilder) (local : NodeId) : ClusterRouter S :=
  let transport := match tcp_of b local with Some t => transport_of t | None => UnavailableTransport end in
  with_async transport (transport_of <$> tcp_of b local).

(** [build] up to the listener. *)
Definition install (b : NodeBuilder) (p : Process) : NodeId * ClusterRouter S * Process :=
  let '(local, slot) := LocalNode.local_node (pr_slot p) in
  let p := mkProcess slot (pr_runtime_current p) (pr_runtime_current p || pr_runtime_installed p) (pr_router p)
    (pr_registry_hook p) (pr_pg_hook p) (pr_publish_hook p) (pr_request_hook p)
    (if cluster_active b then Some local else pr_broker p) (pr_listening p) (pr_signals p) in
  let p := install_hooks b local p in
  let router := router_of b local in
  let '(_, cell) := set_global router (pr_router p) in
  (local, router,
   mkProcess (pr_slot p) (pr_runtime_current p) (pr_runtime_installed p) cell (pr_registry_hook p) (pr_pg_hook p)
     (pr_publish_hook p) (pr_request_hook p) (pr_broker p) (pr_listening p) (pr_signals p)).

Definition listen_on (control : ControlPlaneHooks W) (addr : option string) (p : Process)
    : Result (option string) NodeError * Process :=
  match addr with
  | None => (Ok None, p)
  | Some addr =>
      if can_bind addr then
        (Ok (Some addr),
         mkProcess (pr_slot p) (pr_runtime_current p) (pr_runtime_installed p) (pr_router p) (pr_registry_hook p)
           (pr_pg_hook p) (pr_publish_hook p) (pr_request_hook p) (pr_broker p)
           ((addr, control) :: pr_listening p) (pr_signals p))
      else (Err (NodeTransport (Io "bind")), p)
  end.

(** [None] is the panic of starting a task outside a runtime. *)
Definition guard_signals (b : NodeBuilder) (p : Process) : option (list N * Process) :=
  if negb (bool_decide (length (nb_shutdown b) = 0)) && negb (sg_started (pr_signals p)) && negb (pr_runtime_current p)
  then None
  else
    let '(ids, g) := register_signal_shutdown (nb_shutdown b) (pr_signals p) in
    Some (ids, mkProcess (pr_slot p) (pr_runtime_current p) (pr_runtime_installed p) (pr_router p)
      (pr_registry_hook p) (pr_pg_hook p) (pr_publish_hook p) (pr_request_hook p) (pr_broker p)
      (pr_listening p) g).

(** [NodeBuilder::build] *)
Definition build (b : NodeBuilder) (p : Process) : option (Result ClusterNode NodeError * Process) :=
  match validate b with
  | Err e => Some (Err e, p)
  | Ok _ =>
      let '(r, p) := claim_name b p in
      match r with
      | Err e => Some (Err e, p)
      | Ok _ =>
          if cluster_active b && negb (pr_runtime_current p) then None
          else
            let '(local, router, p) := install b p in
            let '(r, p) := listen_on (control_of b local) (nb_listen b) p in
            match r with
            | Err e => Some (Err e, p)
            | Ok listener =>
                '(guards, p) ← guard_signals b p;
                Some (Ok (mkClusterNode local router (tcp_of b local) listener (cluster_active b) guards
                            (bool_decide (is_Some (nb_listen b))) (length (nb_peers b))), p)
            end
      end
  end.

(** [Drop for Node]: the listener is shut down, and the guards are dropped;
    the hooks and the router stay. *)
Definition drop_node (nd : ClusterNode) (p : Process) : Process :=
  mkProcess (pr_slot p) (pr_runtime_current p) (pr_runtime_installed p) (pr_router p) (pr_registry_hook p)
    (pr_pg_hook p) (pr_publish_hook p) (pr_request_hook p) (pr_broker p)
    (match cn_listener nd with
     | Some addr => iter_filter (λ l : string * ControlPlaneHooks W, bool_decide (l.1 ≠ addr)) (pr_listening p)
     | None => pr_listening p
     end)
    (drop_guards (cn_guards nd) (pr_signals p)).

(** ** Readiness *)

Record NodeReadiness := mkReadiness {
  router_installed : bool;
  listener_active : bool;
  supervision_enabled : bool;
  broker_alive : bool;
  peers_configured : nat;
  listen_configured : bool
}.
Definition is_ready (r : NodeReadiness) : bool :=
  let broker_ok := negb (supervision_enabled r) || broker_alive r in
  let listener_ok := negb (listen_configured r) || listener_active r in
  broker_ok && listener_ok.

(** [Node::readiness]; [alive] is [broker_alive] of the node's broker. *)
Definition readiness (alive : bool) (nd : ClusterNode) : NodeReadiness :=
  mkReadiness true (bool_decide (is_Some (cn_listener nd))) (cn_supervision nd)
    (cn_supervision nd && alive) (cn_peers_configured nd) (cn_listen_configured nd).
Definition node_is_ready (alive : bool) (nd : ClusterNode) : bool := is_ready (readiness alive nd).

(** [Node::register_supervision], on the node's broker. *)
Definition register_supervision (nd : ClusterNode) (address : ActorAddress) (handle : ActorId) (b : Broker)
    : Result () NodeError * Broker :=
  if cn_supervision nd then
    let '(r, b) := Broker.register address handle b in (result_map_err NodeTransport r, b)
  else (Err (InvalidConfig "supervision broker not running (cluster listen/peer required)"), b).

(** ** What a build leaves behind *)

Implicit Types (b : NodeBuilder) (p : Process).

(** The node that the process becomes, or the error. *)
Definition name_free b p : Prop :=
  match nb_name b with Some n => LocalNode.cell (pr_slot p) = None ∨ LocalNode.cell (pr_slot p) = Some n | None => True end.

Lemma claim_name_spec b p :
  let '(r, p') := claim_name b p in
  (r = Ok () ↔ name_free b p) ∧ (r = Ok () ∨ r = Err NameAlreadySet) ∧
  (r = Ok () → ∀ n, nb_name b = Some n → LocalNode.cell (pr_slot p') = Some n) ∧
  pr_router p' = pr_router p ∧ pr_publish_hook p' = pr_publish_hook p ∧ pr_request_hook p' = pr_request_hook p ∧
  pr_registry_hook p' = pr_registry_hook p ∧ pr_pg_hook p' = pr_pg_hook p ∧ pr_broker p' = pr_broker p ∧
  pr_listening p' = pr_listening p ∧ pr_signals p' = pr_signals p ∧ pr_runtime_current p' = pr_runtime_current p.
Proof.
  unfold claim_name, name_free. destruct (nb_name b) as [n|]; [|by split_and!; auto].
  unfold LocalNode.set_local_node_for_test, LocalNode.local_node.
  destruct (LocalNode.cell (pr_slot p)) as [m|] eqn:Hm; simpl.
  - rewrite Hm. simpl. destruct (decide (m ≠ n)) as [Hne|He]; simpl.
    + split_and!; try done; naive_solver.
    + apply dec_stable in He as ->. split_and!; try done; naive_solver.
  - rewrite decide_False by (intros Hx; by apply Hx). split_and!; try done; naive_solver.
Qed.

(** Everything that [install] and [listen_on] change. *)
Lemma install_spec b p :
  let '(local, router, p') := install b p in
  LocalNode.cell (pr_slot p') = Some local ∧ (∀ n, LocalNode.cell (pr_slot p) = Some n → local = n) ∧
  router = router_of b local ∧
  pr_router p' = Some (match pr_router p with Some r => r | None => router end) ∧
  (if cluster_active b then pr_broker p' = Some local else pr_broker p' = pr_broker p) ∧
  match tcp_of b local with
  | Some t => let h := Some (hook_of t) in
      pr_registry_hook p' = h ∧ pr_pg_hook p' = h ∧ pr_publish_hook p' = h ∧ pr_request_hook p' = h
  | None => pr_registry_hook p' = pr_registry_hook p ∧ pr_pg_hook p' = pr_pg_hook p ∧
      pr_publish_hook p' = pr_publish_hook p ∧ pr_request_hook p' = pr_request_hook p
  end ∧
  pr_listening p' = pr_listening p ∧ pr_signals p' = pr_signals p ∧ pr_runtime_current p' = pr_runtime_current p.
Proof.
  unfold install. destruct (LocalNode.local_node (pr_slot p)) as [local slot] eqn:Hl.
  assert (LocalNode.cell slot = Some local ∧ ∀ n, LocalNode.cell (pr_slot p) = Some n → local = n) as [Hs Hn].
  { unfold LocalNode.local_node in Hl. destruct (LocalNode.cell (pr_slot p)) as [m|] eqn:Hm; simplify_eq/=.
    - split; [done|]. by intros n [= ->].
    - done. }
  assert (is_Some (tcp_of b local) → cluster_active b = true) as Ht.
  { unfold tcp_of, cluster_active. intros [t Ht]. destruct (nb_peers b); [done|].
    by rewrite (bool_decide_eq_false_2 (_ = [])), orb_true_r. }
  unfold install_hooks, set_global. simpl.
  destruct (tcp_of b local) as [t|] eqn:Htcp; [rewrite Ht by eauto|];
    destruct (pr_router p); simpl; destruct (cluster_active b); split_and!; try done;
    by rewrite Htcp.
Qed.

(** What a built node is. It has the name it asked for; it listens with
    the hooks of its cluster; it sends registry, group and supervision events
    through its transport exactly when it has peers; it runs a supervision
    broker exactly when it listens or has peers; and it is ready as soon as
    that broker has started. *)
Theorem build_spec b p nd p' alive :
  build b p = Some (Ok nd, p') →
  let local := cn_local nd in
  LocalNode.cell (pr_slot p') = Some local ∧ (∀ n, nb_name b = Some n → local = n) ∧
  (∀ addr, nb_listen b = Some addr → (addr, control_of b local) ∈ pr_listening p') ∧
  match nb_peers b with
  | [] => pr_registry_hook p' = pr_registry_hook p ∧ pr_pg_hook p' = pr_pg_hook p ∧
      pr_publish_hook p' = pr_publish_hook p ∧ pr_request_hook p' = pr_request_hook p
  | peers => let t := Some (hook_of (mkTcp local peers (control_of b local))) in
      pr_registry_hook p' = t ∧ pr_pg_hook p' = t ∧ pr_publish_hook p' = t ∧ pr_request_hook p' = t
  end ∧
  (cluster_active b = true → pr_broker p' = Some local) ∧
  node_is_ready alive nd = negb (cluster_active b) || alive.
Proof.
  unfold build. simpl. pose proof (claim_name_spec b p) as Hcl. destruct (claim_name b p) as [[[]|e] p1]; [|done].
  destruct Hcl as (_ & _ & Hname & _ & Hpub & Hreq & Hreg & Hpg & _). specialize (Hname eq_refl).
  destruct (cluster_active b && _) eqn:Hrt; [done|]. pose proof (install_spec b p1) as Hin.
  destruct (install b p1) as [[local router] p2]. destruct Hin as (Hcell & Hcell1 & -> & _ & Hbr & Hhooks & Hlis & _).
  assert (∀ r p3, listen_on (control_of b local) (nb_listen b) p2 = (Ok r, p3) →
    r = nb_listen b ∧ (∀ addr, nb_listen b = Some addr → (addr, control_of b local) ∈ pr_listening p3) ∧
    pr_slot p3 = pr_slot p2 ∧ pr_registry_hook p3 = pr_registry_hook p2 ∧ pr_pg_hook p3 = pr_pg_hook p2 ∧
    pr_publish_hook p3 = pr_publish_hook p2 ∧ pr_request_hook p3 = pr_request_hook p2 ∧
    pr_broker p3 = pr_broker p2) as Hlisten.
  { intros r p3. unfold listen_on. destruct (nb_listen b) as [addr|]; [|by intros [= <- <-]].
    destruct (can_bind addr); [|done]. intros [= <- <-]. split_and!; try done. intros a [= <-]. by left. }
  destruct (listen_on _ _ p2) as [[l|e] p3]; [|done]. destruct (Hlisten l p3 eq_refl) as (-> & Hopen & Hs3 & Hr3 & Hg3 & Hp3 & Hq3 & Hb3).
  unfold guard_signals. destruct (_ && _ && _); [done|].
  destruct (register_signal_shutdown _ _) as [ids g]. cbn [mbind option_bind]. intros [= <- <-]. simpl.
  rewrite Hs3, Hr3, Hg3, Hp3, Hq3, Hb3. split_and!; try done.
  - intros n Hn. by apply Hcell1, Hname.
  - unfold tcp_of in Hhooks. destruct (nb_peers b); [|done]. destruct Hhooks as (-> & -> & -> & ->). done.
  - intros Hca. by rewrite Hca in Hbr.
  - unfold node_is_ready, is_ready, readiness. simpl. by destruct (bool_decide _), (cluster_active b), alive.
Qed.

(** A node whose listener cannot be opened is not built, but stays
    behind: its hooks send through a transport that nobody owns, its broker
    runs, and its router remains the router of the process. *)
Theorem failed_build_installs b p addr :
  name_free b p → pr_runtime_current p = true → nb_listen b = Some addr → can_bind addr = false →
  ∃ p' local, build b p = Some (Err (NodeTransport (Io "bind")), p') ∧
    pr_broker p' = Some local ∧ is_Some (pr_router p') ∧
    (pr_router p = None → pr_router p' = Some (router_of b local)) ∧
    (nb_peers b ≠ [] → pr_publish_hook p' = hook_of <$> tcp_of b local ∧ is_Some (tcp_of b local)).
Proof.
  intros Hfree Hrt Hl Hbind. unfold build. simpl.
  pose proof (claim_name_spec b p) as Hcl. destruct (claim_name b p) as [r p1].
  destruct Hcl as (Hok & _ & _ & Hrouter & _ & _ & _ & _ & _ & _ & _ & Hrt1). apply Hok in Hfree as ->.
  rewrite Hrt1, Hrt. rewrite andb_false_r. pose proof (install_spec b p1) as Hin.
  destruct (install b p1) as [[local router] p2]. destruct Hin as (_ & _ & -> & Hr2 & Hbr & Hhooks & _).
  unfold listen_on. rewrite Hl, Hbind. exists p2, local. split_and!; [done| | | |].
  - unfold cluster_active in Hbr. rewrite Hl in Hbr. by rewrite bool_decide_eq_true_2 in Hbr by eauto.
  - rewrite Hr2. eauto.
  - intros Hnone. by rewrite Hr2, Hrouter, Hnone.
  - intros Hp. unfold tcp_of in *. destruct (nb_peers b); [done|]. by destruct Hhooks as (_ & _ & -> & _).
Qed.

(** A node that listens and has no peers runs a broker and reports itself
    ready, but publishes nothing: no hook is installed, so a parent on another
    node is never told of the exits of its children here. *)
Theorem listen_only_publishes_nothing b p nd p' :
  build b p = Some (Ok nd, p') → is_Some (nb_listen b) → nb_peers b = [] → pr_publish_hook p = None →
  node_is_ready true nd = true ∧ pr_broker p' = Some (cn_local nd) ∧ pr_publish_hook p' = None.
Proof.
  intros Hb [addr Hl] Hp Hnone. revert Hb. unfold build. simpl.
  pose proof (claim_name_spec b p) as Hcl. destruct (claim_name b p) as [[[]|e] p1]; [|done].
  destruct Hcl as (_ & _ & _ & _ & Hpub & _). destruct (cluster_active b && _); [done|].
  pose proof (install_spec b p1) as Hin. destruct (install b p1) as [[local router] p2].
  destruct Hin as (_ & _ & _ & _ & Hbr & Hhooks & _). unfold tcp_of in Hhooks. rewrite Hp in Hhooks.
  destruct Hhooks as (_ & _ & Hh & _). unfold cluster_active in *. rewrite Hl in *.
  rewrite bool_decide_eq_true_2 in * by eauto. unfold listen_on. destruct (can_bind addr); [|done].
  unfold guard_signals. destruct (_ && _ && _); [done|].
  destruct (register_signal_shutdown _ _) as [ids g]. cbn [mbind option_bind]. intros [= <- <-]. simpl in *.
  split_and!; [|done|congruence]. done.
Qed.
End build.
Arguments NodeBuilder M : clear implicits.
Arguments Process W S M Hk : clear implicits.
Arguments ClusterNode W S : clear implicits.

(** ** Witnesses *)

Definition fresh_process : Process () () () (TcpTransport ()) :=
  mkProcess {| LocalNode.cell := None; LocalNode.env := None |} true false None None None None None None []
    signals_new.
Definition plain_build (can_bind : string → bool) (b : NodeBuilder ()) :=
  build id hooks_none (λ _, mkSupervisionHooks None) (λ _, UnavailableTransport) can_bind b fresh_process.
Definition listener_only : NodeBuilder () :=
  nb_with_listen "0.0.0.0:9000" (nb_with_name (node_new "a@h") builder).
Definition with_peer : NodeBuilder () := nb_with_peer (node_new "b@h") "b:9000" listener_only.

Lemma build_spec_witness :
  ∃ nd p', plain_build (λ _, true) with_peer = Some (Ok nd, p') ∧
    cn_local nd = node_new "a@h" ∧ is_Some (pr_publish_hook p') ∧ node_is_ready true nd = true.
Proof.
  destruct (plain_build (λ _, true) with_peer) as [[[nd|e] p']|] eqn:Hb.
  2-3: discriminate Hb.
  destruct (build_spec id hooks_none (λ _, mkSupervisionHooks None) (λ _, UnavailableTransport) (λ _, true)
    with_peer fresh_process nd p' true Hb) as (_ & Hn & _ & (_ & _ & Hp & _) & _ & Hr).
  exists nd, p'. split; [reflexivity|]. split; [by apply Hn|]. split; [rewrite Hp; by eexists|exact Hr].
Defined.

Lemma failed_build_installs_witness :
  ∃ p', plain_build (λ _, false) with_peer = Some (Err (NodeTransport (Io "bind")), p') ∧
    is_Some (pr_publish_hook p') ∧ is_Some (pr_router p').
Proof.
  destruct (failed_build_installs id hooks_none (λ _, mkSupervisionHooks None) (λ _, UnavailableTransport) (λ _, false)
    with_peer fresh_process "0.0.0.0:9000") as (p' & local & Hb & _ & Hr & _ & Hp); try reflexivity.
  - left. reflexivity.
  - exists p'. split; [exact Hb|]. destruct Hp as [-> Hp]; [discriminate|]. by split.
Defined.

Lemma listen_only_publishes_nothing_witness :
  ∃ nd p', plain_build (λ _, true) listener_only = Some (Ok nd, p') ∧
    node_is_ready true nd = true ∧ pr_publish_hook p' = None.
Proof.
  destruct (plain_build (λ _, true) listener_only) as [[[nd|e] p']|] eqn:Hb.
  2-3: discriminate Hb.
  destruct (listen_only_publishes_nothing id hooks_none (λ _, mkSupervisionHooks None) (λ _, UnavailableTransport)
    (λ _, true) listener_only fresh_process nd p' Hb) as (Hr & _ & Hp); [by eexists|reflexivity|reflexivity|].
  exists nd, p'. split; [reflexivity|]. by split.
Defined.
