(* ===== verification/NodeLibp2p.v ===== *)
(** * Building a node with libp2p

    Model of [concurrency/src/cluster/node.rs] as compiled with the feature
    [cluster-libp2p] ([validate], [build] and [build_libp2p] of
    [NodeBuilder], [Drop] and [readiness] of [Node]) and of
    [Libp2pCluster::start] in [cluster/src/libp2p/mod.rs]. What the operating
    system and the swarm answer when the thread starts is a parameter. *)

From S2P Require Import Prelude Address Errors Mailbox ChildSpec ProcessGroups Registry Links Actor Signals RemoteSpawn Wire RemoteRefs SpawnServer Broker BrokerRuns Tcp Libp2p NodeBuild.

Section libp2p_build.
Context {W S M PeerId Multiaddr Keypair : Type} `{Countable PeerId}.
Context (federated_hooks : ControlPlaneHooks W) (broker_hooks : NodeId → SupervisionHooks W).
Context (can_bind : string → bool).

(** The identity behind a key, a new key, a free port on the loopback
    interface; whether a thread can be started; and the addresses on which the
    swarm reports to listen within the second that [start] waits: none when
    [run_swarm] ends with an error. *)
Context (public_peer_id : Keypair → PeerId) (generate_ed25519 : Keypair).
Context (ephemeral_addr : Result Multiaddr TransportError) (can_spawn : bool) (listens : Multiaddr → list Multiaddr).

Inductive TransportKind := KTcp | KLibp2p.
Abbreviation PeerConfig := (Libp2pPeer (PeerId := PeerId) (Multiaddr := Multiaddr)).

(** [Libp2pCluster] as the node holds it. *)
Record LibHandle := mkLibHandle {
  lh_peer_id : PeerId;
  lh_node : NodeId;
  lh_peers : list PeerConfig;
  lh_control : ControlPlaneHooks W;
  lh_listen_addrs : list Multiaddr
}.

(** [Libp2pCluster::start]: the error of the thread, if any, comes too late. *)
Definition libp2p_start (keypair : Keypair) (local : NodeId) (listen : Multiaddr) (peers : list PeerConfig)
    (control : ControlPlaneHooks W) : Result LibHandle TransportError :=
  if can_spawn then Ok (mkLibHandle (public_peer_id keypair) local peers control (listens listen))
  else Err (Io "spawn").

Inductive PublishHook := HookTcp (t : TcpTransport W) | HookLib (h : LibHandle).
Context (tcp_transport_of : TcpTransport W → Transport S) (lib_transport_of : LibHandle → Transport S).

Record FeatureBuilder := mkFeature {
  fb_base : NodeBuilder M;
  fb_transport : TransportKind;
  fb_keypair : option Keypair;
  fb_listen_libp2p : option Multiaddr;
  fb_libp2p_peers : list PeerConfig
}.
Definition feature_builder : FeatureBuilder := mkFeature builder KTcp None None [].
Definition fb_transport_tcp b := mkFeature (fb_base b) KTcp (fb_keypair b) (fb_listen_libp2p b) (fb_libp2p_peers b).
Definition fb_transport_libp2p (keypair : option Keypair) b :=
  mkFeature (fb_base b) KLibp2p keypair (fb_listen_libp2p b) (fb_libp2p_peers b).
Definition fb_with_listen_libp2p (addr : Multiaddr) b :=
  mkFeature (fb_base b) (fb_transport b) (fb_keypair b) (Some addr) (fb_libp2p_peers b).
Definition fb_with_libp2p_peer (peer : PeerConfig) b :=
  mkFeature (fb_base b) (fb_transport b) (fb_keypair b) (fb_listen_libp2p b) (fb_libp2p_peers b ++ [peer]).

Definition has_libp2p (b : FeatureBuilder) : bool :=
  bool_decide (is_Some (fb_listen_libp2p b)) || negb (bool_decide (length (fb_libp2p_peers b) = 0)).

Definition feature_validate (b : FeatureBuilder) : Result () NodeError :=
  match fb_transport b with
  | KLibp2p =>
      if cluster_active (fb_base b)
      then Err (InvalidConfig "libp2p transport cannot be combined with TCP listen/peer options") else Ok ()
  | KTcp =>
      if has_libp2p b
      then Err (InvalidConfig "TCP transport cannot be combined with libp2p listen/peer options") else Ok ()
  end.

Record LibNode := mkLibNode {
  ln_local : NodeId;
  ln_router : ClusterRouter S;
  ln_cluster : LibHandle;
  ln_supervision : bool;
  ln_guards : list N;
  ln_listen_configured : bool;
  ln_peers_configured : nat
}.
Inductive FeatureNode := NodeTcp (nd : ClusterNode W S) | NodeLib (nd : LibNode).

Abbreviation proc := (Process W S M PublishHook).

(** The control hooks of an active node. *)
Definition lib_control (b : FeatureBuilder) (local : NodeId) : ControlPlaneHooks W :=
  if has_libp2p b then with_supervision (broker_hooks local) federated_hooks else hooks_none.

(** The name is taken, the runtime and the broker are installed. *)
Definition lib_prepare (b : FeatureBuilder) (p : proc) : NodeId * proc :=
  let '(local, slot) := LocalNode.local_node (pr_slot p) in
  (local, mkProcess slot (pr_runtime_current p) (pr_runtime_current p || pr_runtime_installed p) (pr_router p)
    (pr_registry_hook p) (pr_pg_hook p) (pr_publish_hook p) (pr_request_hook p)
    (if has_libp2p b then Some local else pr_broker p) (pr_listening p) (pr_signals p)).

Definition lib_listen (b : FeatureBuilder) : Result Multiaddr NodeError :=
  match fb_listen_libp2p b with
  | Some addr => Ok addr
  | None =>
      if bool_decide (length (fb_libp2p_peers b) = 0)
      then Err (InvalidConfig "libp2p node requires listen_libp2p or at least one libp2p_peer")
      else result_map_err NodeTransport ephemeral_addr
  end.

(** The four publish hooks, and the router. *)
Definition lib_install (b : FeatureBuilder) (h : LibHandle) (p : proc) : ClusterRouter S * proc :=
  let hook old := if has_libp2p b then Some (HookLib h) else old in
  let router := with_async (lib_transport_of h) (Some (lib_transport_of h)) in
  let '(_, cell) := set_global router (pr_router p) in
  (router,
   mkProcess (pr_slot p) (pr_runtime_current p) (pr_runtime_installed p) cell (hook (pr_registry_hook p))
     (hook (pr_pg_hook p)) (hook (pr_publish_hook p)) (hook (pr_request_hook p)) (pr_broker p) (pr_listening p) (pr_signals p)).

Definition build_libp2p (b : FeatureBuilder) (local : NodeId) (p : proc) : option (Result LibNode NodeError * proc) :=
  match lib_listen b with
  | Err e => Some (Err e, p)
  | Ok listen =>
      let keypair := default generate_ed25519 (fb_keypair b) in
      match libp2p_start keypair local listen (fb_libp2p_peers b) (lib_control b local) with
      | Err e => Some (Err (NodeTransport e), p)
      | Ok cluster =>
          let '(router, p) := lib_install b cluster p in
          '(guards, p) ← guard_signals (fb_base b) p;
          Some (Ok (mkLibNode local router cluster (has_libp2p b) guards
                      (bool_decide (is_Some (fb_listen_libp2p b))) (length (fb_libp2p_peers b))), p)
      end
  end.

(** [NodeBuilder::build]. [None] is the panic of starting the broker outside
    a runtime. *)
Definition feature_build (b : FeatureBuilder) (p : proc) : option (Result FeatureNode NodeError * proc) :=
  match feature_validate b with
  | Err e => Some (Err e, p)
  | Ok _ =>
      match fb_transport b with
      | KTcp =>
          '(r, p) ← build HookTcp federated_hooks broker_hooks tcp_transport_of can_bind (fb_base b) p;
          Some (match r with Ok nd => Ok (NodeTcp nd) | Err e => Err e end, p)
      | KLibp2p =>
          let '(r, p) := claim_name (fb_base b) p in
          match r with
          | Err e => Some (Err e, p)
          | Ok _ =>
              if has_libp2p b && negb (pr_runtime_current p) then None
              else
                let '(local, p) := lib_prepare b p in
                '(r, p) ← build_libp2p b local p;
                Some (match r with Ok nd => Ok (NodeLib nd) | Err e => Err e end, p)
          end
      end
  end.

(** [Node::readiness] on the libp2p backend. *)
Definition lib_readiness (alive : bool) (nd : LibNode) : NodeReadiness :=
  mkReadiness true (negb (bool_decide (length (lh_listen_addrs (ln_cluster nd)) = 0))) (ln_supervision nd)
    (ln_supervision nd && alive) (ln_peers_configured nd) (ln_listen_configured nd).

(** ** What is built *)

(** Options of both transports do not mix: nothing is done, not even the name
    is taken. *)
Lemma mixed_options_refused b p :
  (fb_transport b = KLibp2p ∧ cluster_active (fb_base b) = true) ∨ (fb_transport b = KTcp ∧ has_libp2p b = true) →
  ∃ msg, feature_build b p = Some (Err (InvalidConfig msg), p).
Proof. unfold feature_build, feature_validate. intros [[-> ->]|[-> ->]]; eauto. Qed.
(** Without libp2p options the feature changes nothing. *)
Lemma feature_tcp_same b p :
  fb_transport b = KTcp → has_libp2p b = false →
  feature_build b p =
    '(r, p) ← build HookTcp federated_hooks broker_hooks tcp_transport_of can_bind (fb_base b) p;
    Some (match r with Ok nd => Ok (NodeTcp nd) | Err e => Err e end, p).
Proof. unfold feature_build, feature_validate. by intros -> ->. Qed.

Lemma lib_prepare_spec b p :
  let '(local, p') := lib_prepare b p in
  LocalNode.cell (pr_slot p') = Some local ∧ (∀ n, LocalNode.cell (pr_slot p) = Some n → local = n) ∧
  (if has_libp2p b then pr_broker p' = Some local else pr_broker p' = pr_broker p) ∧
  pr_router p' = pr_router p ∧ pr_publish_hook p' = pr_publish_hook p ∧ pr_runtime_current p' = pr_runtime_current p.
Proof.
  unfold lib_prepare. destruct (LocalNode.local_node (pr_slot p)) as [local slot] eqn:Hl.
  unfold LocalNode.local_node in Hl. destruct (LocalNode.cell (pr_slot p)) as [m|] eqn:Hm; simplify_eq/=;
    destruct (has_libp2p b); split_and!; try done; by intros n [= ->].
Qed.

(** What a node on libp2p is. It is built only with a listen address or a
    peer; it has the name it asked for; its registry, group and supervision
    events go through its transport, also when it only listens; it runs a
    supervision broker; its router is that of the process unless there was
    one; and it is ready when the broker has started and, if it was given an
    address, the swarm listens. *)
Theorem libp2p_build_spec b p nd p' alive :
  feature_build b p = Some (Ok (NodeLib nd), p') →
  let local := ln_local nd in
  let h := ln_cluster nd in
  has_libp2p b = true ∧ LocalNode.cell (pr_slot p') = Some local ∧ (∀ n, nb_name (fb_base b) = Some n → local = n) ∧
  lh_node h = local ∧ lh_peers h = fb_libp2p_peers b ∧ lh_control h = with_supervision (broker_hooks local) federated_hooks ∧
  (pr_registry_hook p' = Some (HookLib h) ∧ pr_pg_hook p' = Some (HookLib h) ∧
   pr_publish_hook p' = Some (HookLib h) ∧ pr_request_hook p' = Some (HookLib h)) ∧
  pr_broker p' = Some local ∧ pr_router p' = Some (default (ln_router nd) (pr_router p)) ∧
  is_ready (lib_readiness alive nd) =
    alive && (negb (bool_decide (is_Some (fb_listen_libp2p b))) || negb (bool_decide (length (lh_listen_addrs h) = 0))).
Proof.
  unfold feature_build. destruct (feature_validate b); [|done]. destruct (fb_transport b).
  { destruct (build _ _ _ _ _ _ _) as [[[]]|]; done. }
  pose proof (claim_name_spec broker_hooks (fb_base b) p) as Hcl. destruct (claim_name (fb_base b) p) as [[[]|e] p1]; [|done].
  destruct Hcl as (_ & _ & Hname & Hrouter & _). specialize (Hname eq_refl).
  destruct (has_libp2p b && _) eqn:Hrt; [done|]. pose proof (lib_prepare_spec b p1) as Hpr.
  destruct (lib_prepare b p1) as [local p2]. destruct Hpr as (Hcell & Hcell1 & Hbr & Hr2 & _).
  unfold build_libp2p. destruct (lib_listen b) as [listen|] eqn:Hlis; [|done].
  assert (has_libp2p b = true) as Hhas.
  { unfold lib_listen in Hlis. unfold has_libp2p. destruct (fb_listen_libp2p b); [by rewrite bool_decide_eq_true_2 by eauto|].
    destruct (bool_decide (length (fb_libp2p_peers b) = 0)); [done|]. by rewrite orb_true_r. }
  unfold libp2p_start. destruct can_spawn; [|done]. unfold lib_install. rewrite Hhas in *.
  destruct (set_global _ (pr_router p2)) as [ok cell] eqn:Hsg.
  unfold guard_signals. destruct (_ && _ && _); [done|]. destruct (register_signal_shutdown _ _) as [ids g].
  cbn [mbind option_bind]. intros [= <- <-]. cbn. split_and!; try done.
  - intros n Hn. by apply Hcell1, Hname.
  - unfold lib_control. by rewrite Hhas.
  - rewrite <- Hrouter, <- Hr2. unfold set_global in Hsg. destruct (pr_router p2); by simplify_eq/=.
Qed.

(** A node on libp2p whose listen address cannot be opened is built all the
    same: [start] waits for a second and returns the handle of a thread that
    has ended. With TCP the same configuration is refused. *)
Theorem libp2p_listen_failure_builds b p addr nd p' :
  feature_build b p = Some (Ok (NodeLib nd), p') → fb_listen_libp2p b = Some addr → listens addr = [] →
  lh_listen_addrs (ln_cluster nd) = [] ∧ pr_publish_hook p' = Some (HookLib (ln_cluster nd)) ∧
  is_ready (lib_readiness true nd) = false.
Proof.
  unfold feature_build. destruct (feature_validate b); [|done]. destruct (fb_transport b).
  { destruct (build _ _ _ _ _ _ _) as [[[]]|]; done. }
  destruct (claim_name (fb_base b) p) as [[[]|e] p1]; [|done].
  destruct (has_libp2p b && _) eqn:Hrt; [done|]. destruct (lib_prepare b p1) as [local p2].
  intros Hb Hl Hno. revert Hb. unfold build_libp2p, lib_listen. rewrite Hl.
  assert (has_libp2p b = true) as Hhas by (unfold has_libp2p; rewrite Hl; by rewrite bool_decide_eq_true_2 by eauto).
  unfold libp2p_start. destruct can_spawn; [|done]. unfold lib_install. rewrite Hhas.
  destruct (set_global _ (pr_router p2)) as [ok cell]. unfold guard_signals. destruct (_ && _ && _); [done|].
  destruct (register_signal_shutdown _ _) as [ids g]. cbn [mbind option_bind]. intros [= <- <-]. cbn. rewrite Hno.
  split_and!; done.
Qed.
End libp2p_build.

(** ** Witnesses *)

Definition lib_build (listens : string → list string) (b : FeatureBuilder (M := ()) (PeerId := nat) (Multiaddr := string) (Keypair := nat)) :=
  feature_build (W := ()) (S := ()) hooks_none (λ _, mkSupervisionHooks None) (λ _, true) id 7 (Ok "/ip4/127.0.0.1/tcp/1")
    true listens (λ _, UnavailableTransport) (λ _, UnavailableTransport) b
    (mkProcess {| LocalNode.cell := None; LocalNode.env := None |} true false None None None None None None [] signals_new).
Definition lib_listener : FeatureBuilder (M := ()) (PeerId := nat) (Multiaddr := string) (Keypair := nat) :=
  fb_with_listen_libp2p "/ip4/0.0.0.0/tcp/9" (fb_transport_libp2p None
    (mkFeature (nb_with_name (node_new "a@h") builder) KTcp None None [])).

Lemma libp2p_build_spec_witness :
  ∃ nd p', lib_build (λ a, [a]) lib_listener = Some (Ok (NodeLib nd), p') ∧ ln_local nd = node_new "a@h" ∧
    is_Some (pr_publish_hook p') ∧ is_ready (lib_readiness true nd) = true.
Proof.
  destruct (lib_build (λ a, [a]) lib_listener) as [[[[t|nd]|e] p']|] eqn:Hb; try discriminate Hb.
  destruct (libp2p_build_spec _ _ _ _ _ _ _ _ _ _ _ _ _ _ true Hb) as (_ & _ & Hn & _ & _ & _ & (_ & _ & Hp & _) & _ & _ & Hr).
  exists nd, p'. split; [reflexivity|]. split; [by apply Hn|]. split; [rewrite Hp; by eexists|]. rewrite Hr.
  vm_compute in Hb. injection Hb as <- _. reflexivity.
Defined.
Lemma libp2p_listen_failure_builds_witness :
  ∃ nd p', lib_build (λ _, []) lib_listener = Some (Ok (NodeLib nd), p') ∧ is_ready (lib_readiness true nd) = false.
Proof.
  destruct (lib_build (λ _, []) lib_listener) as [[[[t|nd]|e] p']|] eqn:Hb; try discriminate Hb.
  destruct (libp2p_listen_failure_builds _ _ _ _ _ _ _ _ _ _ _ _ "/ip4/0.0.0.0/tcp/9" _ _ Hb eq_refl eq_refl) as (_ & _ & Hr).
  exists nd, p'. split; [reflexivity|exact Hr].
Defined.
