(* ===== verification/Applications.v ===== *)
(** * Applications with a node

    [ApplicationBuilder] of [concurrency/src/application.rs]: the options
    that configure the cluster node, [start] and [start_blocking], which build
    the node, run the startup callback and register its root actors for
    signals, and the readiness of the result. The node is that of
    [NodeLibp2p], the signals and the start without a node those of [Signals].
    The startup callback is a parameter. *)

From S2P Require Import Prelude Address Errors Mailbox ChildSpec ProcessGroups Registry Links Actor Signals RemoteSpawn Wire RemoteRefs SpawnServer Broker BrokerRuns Tcp Libp2p NodeBuild NodeLibp2p.

Section applications.
Context {W S Msg PeerId Multiaddr Keypair : Type} `{ThisNode} `{Countable PeerId}.
Context (federated_hooks : ControlPlaneHooks W) (broker_hooks : NodeId → SupervisionHooks W).
Context (can_bind : string → bool) (public_peer_id : Keypair → PeerId) (generate_ed25519 : Keypair).
Context (ephemeral_addr : Result Multiaddr TransportError) (can_spawn : bool) (listens : Multiaddr → list Multiaddr).

Abbreviation Builder := (FeatureBuilder (M := World Msg) (PeerId := PeerId) (Multiaddr := Multiaddr)
  (Keypair := Keypair)) (only parsing).
Abbreviation Hook := (PublishHook (W := W) (PeerId := PeerId) (Multiaddr := Multiaddr)) (only parsing).
Abbreviation ANode := (FeatureNode (W := W) (S := S) (PeerId := PeerId) (Multiaddr := Multiaddr)) (only parsing).
Abbreviation Handle := (LibHandle (W := W) (PeerId := PeerId) (Multiaddr := Multiaddr)) (only parsing).
Context (tcp_transport_of : TcpTransport W → Transport S) (lib_transport_of : Handle → Transport S).
Implicit Types (p : Process W S (World Msg) Hook) (w : World Msg).

Record ApplicationBuilder := mkAppBuilder { ab_node_builder : Builder; ab_use_node : bool }.
Definition app_builder : ApplicationBuilder := mkAppBuilder feature_builder false.

(** Each option of a node makes the application have one. *)
Definition with_node (b : Builder) : ApplicationBuilder := mkAppBuilder b true.
Definition on_base (f : NodeBuilder (World Msg) → NodeBuilder (World Msg)) (b : Builder) : Builder :=
  mkFeature (f (fb_base b)) (fb_transport b) (fb_keypair b) (fb_listen_libp2p b) (fb_libp2p_peers b).
Definition app_name (n : NodeId) ab := with_node (on_base (nb_with_name n) (ab_node_builder ab)).
Definition app_listen (addr : string) ab := with_node (on_base (nb_with_listen addr) (ab_node_builder ab)).
Definition app_peer (n : NodeId) (addr : string) ab :=
  with_node (on_base (nb_with_peer n addr) (ab_node_builder ab)).
Definition app_transport_libp2p (k : option Keypair) ab :=
  with_node (fb_transport_libp2p k (ab_node_builder ab)).
Definition app_listen_libp2p (addr : Multiaddr) ab :=
  with_node (fb_with_listen_libp2p addr (ab_node_builder ab)).
Definition app_libp2p_peer peer ab := with_node (fb_with_libp2p_peer peer (ab_node_builder ab)).

(** [Drop] of a node: the listener or the swarm's thread is shut down, the
    guards are dropped. *)
Definition drop_feature_node (nd : ANode) p : Process W S (World Msg) Hook :=
  match nd with
  | NodeTcp nd => drop_node nd p
  | NodeLib nd =>
      mkProcess (pr_slot p) (pr_runtime_current p) (pr_runtime_installed p) (pr_router p) (pr_registry_hook p)
        (pr_pg_hook p) (pr_publish_hook p) (pr_request_hook p) (pr_broker p) (pr_listening p)
        (drop_guards (ln_guards nd) (pr_signals p))
  end.

Definition set_signals (g : Signals (World Msg)) p : Process W S (World Msg) Hook :=
  mkProcess (pr_slot p) (pr_runtime_current p) (pr_runtime_installed p) (pr_router p) (pr_registry_hook p)
    (pr_pg_hook p) (pr_publish_hook p) (pr_request_hook p) (pr_broker p) (pr_listening p) g.

(** The node of the application, if it has one. *)
Definition app_build (ab : ApplicationBuilder) p
    : option (Result (option ANode) ApplicationError * Process W S (World Msg) Hook) :=
  if ab_use_node ab then
    '(r, p) ← feature_build federated_hooks broker_hooks can_bind public_peer_id generate_ed25519
                ephemeral_addr can_spawn listens tcp_transport_of lib_transport_of (ab_node_builder ab) p;
    Some (match r with Ok nd => Ok (Some nd) | Err _ => Err (AppNode "node error") end, p)
  else Some (Ok None, p).

(** [start] and [start_blocking]. An error of the callback drops the node on
    the way out. [None] is the panic of [NodeBuilder::build]. *)
Definition start_application (ab : ApplicationBuilder)
    (startup : option ANode → World Msg → Result (list ActorId) ApplicationError * World Msg) p w
    : option (Result (Application ANode) ApplicationError * (Process W S (World Msg) Hook * World Msg)) :=
  '(r, p) ← app_build ab p;
  match r with
  | Err e => Some (Err e, (p, w))
  | Ok node =>
      match startup node w with
      | (Err e, w) =>
          Some (Err e, (match node with Some nd => drop_feature_node nd p | None => p end, w))
      | (Ok handles, w) =>
          let '(guards, g) := register_signal_shutdown (make_send_signal <$> handles) (pr_signals p) in
          Some (Ok (mkApplication node handles guards), (set_signals g p, w))
      end
  end.

(** [Application::is_ready]; [alive]: the broker of the node runs. *)
Definition node_ready (alive : bool) (nd : ANode) : bool :=
  match nd with
  | NodeTcp nd => node_is_ready alive nd
  | NodeLib nd => is_ready (lib_readiness alive nd)
  end.
Definition application_is_ready (alive : bool) (a : Application ANode) : bool :=
  match app_node a with None => true | Some nd => node_ready alive nd end.

(** ** What a start does *)

(** Guards of a node that asked for no signals are none. *)
Lemma guard_signals_none b p r :
  nb_shutdown b = [] → guard_signals b p = Some r → r = ([], set_signals (pr_signals p) p).
Proof.
  unfold guard_signals. intros ->. simpl. by intros [= <-].
Qed.

(** The signals registered when a node has been built. *)
Definition app_guards (nd : ANode) : list N :=
  match nd with NodeTcp nd => cn_guards nd | NodeLib nd => ln_guards nd end.

(** The address a node has opened is the first of the listeners, and closed
    again when the node is dropped. *)
Lemma listen_on_effect control addr p r p' :
  listen_on can_bind control addr p = (r, p') →
  pr_signals p' = pr_signals p ∧
  match r with
  | Ok (Some a) => addr = Some a ∧ pr_listening p' = (a, control) :: pr_listening p
  | _ => pr_listening p' = pr_listening p
  end.
Proof.
  unfold listen_on. destruct addr as [a|]; [|by intros [= <- <-]].
  destruct (can_bind a); by intros [= <- <-].
Qed.

Lemma listener_closed a control (l : list (string * ControlPlaneHooks W)) :
  (∀ b c, (b, c) ∈ l → b ≠ a) →
  iter_filter (λ x : string * ControlPlaneHooks W, bool_decide (x.1 ≠ a)) ((a, control) :: l) = l.
Proof.
  intros Hno. simpl. rewrite bool_decide_eq_false_2 by naive_solver. apply iter_filter_all.
  intros [b c] Hin. apply bool_decide_eq_true. simpl. by apply (Hno b c).
Qed.

(** What building the node does to signals and listeners. The builder of an
    application lists no roots of its own. *)
Lemma app_build_effect ab p r p' :
  nb_shutdown (fb_base (ab_node_builder ab)) = [] →
  (∀ a c, (a, c) ∈ pr_listening p → nb_listen (fb_base (ab_node_builder ab)) ≠ Some a) →
  app_build ab p = Some (r, p') →
  pr_signals p' = pr_signals p ∧
  match r with
  | Err _ => pr_listening p' = pr_listening p
  | Ok None => ab_use_node ab = false ∧ p' = p
  | Ok (Some nd) => ab_use_node ab = true ∧ app_guards nd = [] ∧
      pr_listening (drop_feature_node nd p') = pr_listening p
  end.
Proof.
  intros Hno Hfree. unfold app_build. destruct (ab_use_node ab); [|by intros [= <- <-]].
  set (b := ab_node_builder ab) in *.
  unfold feature_build. destruct (feature_validate b); [|by intros [= <- <-]].
  pose proof (claim_name_spec broker_hooks (fb_base b) p) as Hcl.
  destruct (fb_transport b); [unfold build; simpl|]; destruct (claim_name (fb_base b) p) as [[[]|e] p1];
    destruct Hcl as (_ & _ & _ & _ & _ & _ & _ & _ & _ & Hl1 & Hs1 & _); try (intros [= <- <-]; by split).
  - destruct (cluster_active (fb_base b) && _); [done|].
    pose proof (install_spec HookTcp federated_hooks broker_hooks tcp_transport_of (fb_base b) p1) as Hin.
    destruct (install _ _ _ _ (fb_base b) p1) as [[local router] p2].
    destruct Hin as (_ & _ & _ & _ & _ & _ & Hl2 & Hs2 & _).
    destruct (listen_on _ _ _ p2) as [r3 p3] eqn:Hl. apply listen_on_effect in Hl as [Hs3 Hl3].
    destruct r3 as [l|e]; [|intros [= <- <-]; simpl; split; congruence].
    destruct (guard_signals _ p3) as [gp|] eqn:Hg; [|done].
    apply guard_signals_none in Hg; [|done]. subst gp. simpl. intros [= <- <-]. simpl.
    split_and!; [congruence|done|done|]. destruct l as [addr|]; [|congruence]. destruct Hl3 as [Ha ->].
    rewrite Hl2, Hl1. apply listener_closed. intros a' c Hin' ->. by apply (Hfree addr c).
  - destruct (has_libp2p b && _); [done|]. unfold lib_prepare.
    destruct (LocalNode.local_node (pr_slot p1)) as [local slot]. unfold build_libp2p.
    destruct (lib_listen _ b) as [listen|]; [|intros [= <- <-]; by split].
    destruct (libp2p_start _ _ _ _ _ _ _ _) as [h|]; [|intros [= <- <-]; by split].
    unfold lib_install. destruct (set_global _ _) as [ok cell].
    destruct (guard_signals _ _) as [gp|] eqn:Hg; [|done].
    apply guard_signals_none in Hg; [|done]. subst gp. simpl. intros [= <- <-]. by split_and!.
Qed.

(** One guard per root, and an entry for each. *)
Lemma register_roots (handles : list ActorId) (g : Signals (World Msg)) :
  let '(ids, g') := register_signal_shutdown (make_send_signal <$> handles) g in
  length ids = length handles ∧
  ∃ es, sr_entries (sg_registry g') = sr_entries (sg_registry g) ++ es ∧
    fst <$> es = ids ∧ snd <$> es = make_send_signal <$> handles.
Proof.
  unfold register_signal_shutdown. destruct handles as [|h hs]; simpl.
  { split; [done|]. exists []. by rewrite app_nil_r. }
  set (g1 := spawn_shutdown_signal_dispatcher g).
  assert (sg_registry g1 = sg_registry g) as Hg by (unfold g1, spawn_shutdown_signal_dispatcher; by destruct (sg_started g)).
  pose proof (register_all_entries (make_send_signal h :: (make_send_signal <$> hs)) (sg_registry g1)) as He.
  simpl in He. destruct (register_shutdown_on_signal _ _) as [ids r]. simpl in *. destruct He as [He Hl].
  rewrite length_fmap in Hl. split; [done|].
  exists (zip (sr_next_id (sg_registry g1) :: ids) (make_send_signal <$> h :: hs)). rewrite He, Hg.
  split_and!; [done|apply fst_zip|apply snd_zip]; simpl; rewrite ?length_fmap; lia.
Qed.

(** An application configured through its options lists no roots. *)
Inductive app_configured : ApplicationBuilder → Prop :=
| ac_new : app_configured app_builder
| ac_name n ab : app_configured ab → app_configured (app_name n ab)
| ac_listen a ab : app_configured ab → app_configured (app_listen a ab)
| ac_peer n a ab : app_configured ab → app_configured (app_peer n a ab)
| ac_transport k ab : app_configured ab → app_configured (app_transport_libp2p k ab)
| ac_listen_libp2p a ab : app_configured ab → app_configured (app_listen_libp2p a ab)
| ac_libp2p_peer q ab : app_configured ab → app_configured (app_libp2p_peer q ab).

Lemma configured_spec ab :
  app_configured ab → nb_shutdown (fb_base (ab_node_builder ab)) = [] ∧
  (ab_use_node ab = false → ab = app_builder).
Proof. induction 1 as [|n ab _ [IH _]|a ab _ [IH _]|n a ab _ [IH _]|k ab _ [IH _]|a ab _ [IH _]|q ab _ [IH _]]; done. Qed.

(** What starting an application does. One without any option of a node
    has none, is ready at once, and touches nothing of the process but the
    signal registry. One with a node runs its callback only when the node was
    built. When the callback fails, no signal registration is left and the
    listener of the node is closed again, so that the address can be used
    anew. When it succeeds, the application holds one guard per root, and the
    registry has exactly these entries more. *)
Theorem start_application_spec ab startup p w r p' w' :
  app_configured ab → (∀ a c, (a, c) ∈ pr_listening p → nb_listen (fb_base (ab_node_builder ab)) ≠ Some a) →
  start_application ab startup p w = Some (r, (p', w')) →
  match r with
  | Err e =>
      pr_signals p' = pr_signals p ∧ pr_listening p' = pr_listening p ∧
      ((w' = w ∧ ∃ e p1, app_build ab p = Some (Err e, p1)) ∨
       ∃ node p1, app_build ab p = Some (Ok node, p1) ∧ startup node w = (Err e, w'))
  | Ok a =>
      startup (app_node a) w = (Ok (shutdown_handles a), w') ∧
      (app_node a = None ↔ ab = app_builder) ∧
      (ab = app_builder → (∀ alive, application_is_ready alive a = true) ∧ p' = set_signals (pr_signals p') p) ∧
      length (signal_guards a) = length (shutdown_handles a) ∧
      ∃ es, sr_entries (sg_registry (pr_signals p')) = sr_entries (sg_registry (pr_signals p)) ++ es ∧
        fst <$> es = signal_guards a ∧ snd <$> es = make_send_signal <$> shutdown_handles a
  end.
Proof.
  intros Hc Hfree Hst. destruct (configured_spec ab Hc) as [Hno Hnew]. unfold start_application in Hst.
  destruct (app_build ab p) as [[rb p1]|] eqn:Hb; [|done]. cbn [mbind option_bind] in Hst.
  pose proof (app_build_effect ab p rb p1 Hno Hfree Hb) as [Hs1 Heff].
  destruct rb as [node|e]; [|simplify_eq; split_and!; [done..|left; split; eauto]].
  destruct (startup node w) as [[handles|e] w1] eqn:Hstart.
  - pose proof (register_roots handles (pr_signals p1)) as Hreg.
    destruct (register_signal_shutdown _ _) as [guards g]. simplify_eq/=. rewrite Hs1 in Hreg.
    destruct Hreg as [Hlen Hes]. split_and!; try done.
    + destruct node as [nd|]; destruct Heff as [Hu Heff]; [|naive_solver].
      split; [done|]. intros ->. done.
    + intros ->. destruct node as [nd|]; [by destruct Heff|]. destruct Heff as [_ ->]. done.
  - simplify_eq. destruct node as [nd|]; destruct Heff as [Hu Heff].
    + destruct Heff as [Hg Hl]. split_and!; [|done|right; eauto]. rewrite <- Hs1.
      destruct nd; simpl in *; rewrite Hg; unfold drop_guards; by destruct (pr_signals p1).
    + subst p1. split_and!; [done..|right; eauto].
Qed.

(** [start_blocking] is for programs of the threads runtime, whose [run]
    starts no tokio runtime. An application of theirs that listens or has
    peers does not start: the broker of its node is a task, and spawning it
    panics. *)
Theorem blocking_cluster_start_panics ab startup p w :
  ab_use_node ab = true → fb_transport (ab_node_builder ab) = KTcp → has_libp2p (ab_node_builder ab) = false →
  cluster_active (fb_base (ab_node_builder ab)) = true → name_free (fb_base (ab_node_builder ab)) p →
  pr_runtime_current p = false → start_application ab startup p w = None.
Proof.
  intros Hu Ht Hl Ha Hfree Hrt. unfold start_application, app_build. rewrite Hu.
  rewrite (feature_tcp_same _ _ _ _ _ _ _ _ _ _ _ _ Ht Hl). unfold build. simpl.
  pose proof (claim_name_spec broker_hooks (fb_base (ab_node_builder ab)) p) as Hcl.
  destruct (claim_name _ p) as [r p1]. destruct Hcl as (Hok & _ & _ & _ & _ & _ & _ & _ & _ & _ & _ & Hrt1).
  apply Hok in Hfree as ->. by rewrite Hrt1, Ha, Hrt.
Qed.
End applications.

(** ** Witnesses *)

Section witnesses.
#[local] Instance app_this : ThisNode := node_new "a@h".
Abbreviation App := (ApplicationBuilder (Msg := ()) (PeerId := nat) (Multiaddr := string) (Keypair := nat))
  (only parsing).

Definition app_process (runtime : bool) : Process () () (World ()) (PublishHook (W := ()) (PeerId := nat) (Multiaddr := string)) :=
  mkProcess {| LocalNode.cell := None; LocalNode.env := None |} runtime false None None None None None None []
    signals_new.
Definition listening_app : App := app_listen "0.0.0.0:9000" (app_name (node_new "a@h") app_builder).
Definition start_app (ab : App) (runtime : bool)
    (startup : option (FeatureNode (W := ()) (S := ()) (PeerId := nat) (Multiaddr := string)) → World () →
      Result (list ActorId) ApplicationError * World ()) :=
  start_application (W := ()) (S := ()) hooks_none (λ _, mkSupervisionHooks None) (λ _, true) id 7
    (Ok "/ip4/127.0.0.1/tcp/1") true (λ a, [a]) (λ _, UnavailableTransport) (λ _, UnavailableTransport)
    ab startup (app_process runtime) empty_world.

(** The callback fails: the listener is closed again. *)
Lemma start_application_spec_witness :
  from_option (λ r, is_err (fst r)) false
    (start_app listening_app true (λ _ w, (Err (Startup "no roots"), w))) = true ∧
  ∀ r p' w', start_app listening_app true (λ _ w, (Err (Startup "no roots"), w)) = Some (r, (p', w')) →
    match r with Err _ => pr_listening p' = [] | Ok _ => True end.
Proof.
  split; [vm_compute; reflexivity|]. unfold start_app. intros r p' w' Hs.
  assert (app_configured listening_app) as Hc by (repeat constructor).
  pose proof (start_application_spec _ _ _ _ _ _ _ _ _ _ listening_app _ (app_process true) _ r p' w' Hc
    (λ a c (Hin : (a, c) ∈ []), match not_elem_of_nil _ Hin with end) Hs) as Hr.
  destruct r as [a|e]; [exact I|]. destruct Hr as (_ & Hl & _). exact Hl.
Defined.

Lemma blocking_cluster_start_panics_witness :
  start_app listening_app false (λ _ w, (Ok [], w)) = None.
Proof.
  apply blocking_cluster_start_panics; try reflexivity. left. reflexivity.
Defined.
End witnesses.
