(* ===== verification/SupervisorRuns.v ===== *)
(** * Supervisors that run

    Supervisors of [Supervisor] on the actors of [Supervised], on a node
    without a cluster: runs that the general theorems apply to, and runs that
    show what happens to a supervisor when a child is killed and when the
    restart intensity is exceeded. *)

From S2P Require Import Prelude Address Errors Mailbox ChildSpec SupervisorLogic Links Actor Handles Supervised RemoteSpawn Supervisor Registry DynamicSupervisor ThreadsSupervisors.
Import Values.

(** A node outside a cluster: requests fail, publishing does nothing. *)
Definition no_cluster (W : Type) : RemoteEnv W := {|
  re_correlation w := (0%N, w);
  re_request _ _ w := (Err "not connected", w);
  re_publish _ w := w;
  re_register_wait _ w := w;
  re_clear_wait _ w := w;
  re_wait _ _ w := (Ok (), w);
  re_sleep _ w := w;
  re_register_actor _ w := w
|}.

(** ** The policy engine in its supervisors *)

(** C28: in every state that a supervisor reaches, the policy engine inside it
    is well-formed (child ids unique, start indices increasing along the list,
    no actor behind two live slots) and agrees with the supervisor's own
    tables. For a static supervisor of local children with distinct ids, its
    children are those of the specs, in order, and each has a slot, of the
    actor that the table of handles gives for its id. For a dynamic supervisor
    the table of handles has exactly the children of the engine, each with the
    actor of its slot. Nothing is assumed of the calls of [register_child] and
    [replace_child_handle]: that ids are fresh, indices grow and actors are new
    is what the supervisors and the spawning of actors make true. *)
Theorem engine_agrees {A W} `{ChildLaws A W} `{RemoteEnv W} rt me :
  (∀ (b : SupervisorBuilder A) (w0 : W) h s w,
     local_specs (b_specs b) → cl_ok (re_register_actor (local_addr me) (ce_trap_exit w0)) →
     sup_reach rt me b w0 h s w →
     wf (logic s) ∧ policy <$> children (logic s) = policies_of (b_specs b) ∧
     ∀ c, c ∈ children (logic s) →
       ∃ slot, handle c = Some slot ∧ handles s !! cp_id (policy c) = Some (slot_id slot)) ∧
  (∀ b (w0 : W) (s : DynamicSupervisor A) g w,
     cl_ok (dyn_started me w0) → dyn_reach rt me b w0 s g w →
     wf (d_logic s) ∧
     ∀ id i, d_handles s !! id = Some i ↔
       ∃ c, c ∈ children (d_logic s) ∧ cp_id (policy c) = id ∧ slot_id <$> handle c = Some i).
Proof.
  split.
  - intros b w0 h s w Hloc Hok Hr. destruct (sup_reach_inv rt me b w0 h s w Hloc Hok Hr) as (Hinv & _ & _).
    split_and!; [apply Hinv|apply Hinv|]. intros c Hc.
    destruct (si_handles _ _ _ _ _ Hinv c Hc) as (slot & ? & ? & _). eauto.
  - intros b w0 s g w Hok Hr. destruct (dyn_reach_inv rt me b w0 s g w Hok Hr) as [Hinv _].
    split; [apply Hinv|]. intros id i. split.
    + intros Hi. destruct (di_handles _ _ _ Hinv id i Hi) as (c & Hc & <-). exists c.
      destruct (di_child _ _ _ Hinv c Hc) as (j & sp & [(bb & Hb & _) Hj _ _ _ _ _ _]).
      rewrite Hi in Hj. injection Hj as <-. rewrite Hb. done.
    + intros (c & Hc & <- & Hs). destruct (di_child _ _ _ Hinv c Hc) as (j & sp & [(bb & Hb & _) Hj _ _ _ _ _ _]).
      rewrite Hb in Hs. by injection Hs as <-.
Qed.

Section runs.

Definition sup_id : ActorId := from_raw 1.
#[local] Instance this_node : ThisNode := node_new "node@host".
#[local] Instance run_env : ChildEnv () (SWorld () ()) := actor_env sup_id Tasks.
#[local] Instance run_laws : ChildLaws () (SWorld () ()) := actor_laws sup_id Tasks.
#[local] Instance run_remote : RemoteEnv (SWorld () ()) := no_cluster _.

(** The supervisor is actor 1, in its receive loop. *)
Definition fresh_system : SWorld () () :=
  mkSWorld (default empty_world
    (run [LSpawn Tasks; LStep sup_id CbReturned] empty_world)) 0%Z [] [] [].

(** A message to actor [i] makes its handler panic; the actor runs to its end. *)
Definition panic_moves (i : ActorId) : list (Move () ()) :=
  MLabel <$> [LStep i CbReturned; LSend i (); LStep i CbReturned; LStep i (CbPanicked "boom");
              LStep i CbReturned; LStep i CbReturned; LStep i CbReturned; LStep i CbReturned].

Definition env_moves (ms : list (Move () ())) (w : SWorld () ()) : SWorld () () :=
  map_world (moves sup_id ms) w.

(** The supervisor handles the first [Exit] in its mailbox. *)
Definition handle_next (sw : Supervisor () * SWorld () ()) : Supervisor () * SWorld () () :=
  match ce_recv (snd sw) with
  | Some (e, w) => handle_exit Tasks sup_id e (fst sw) w
  | None => sw
  end.

Definition one_for_all : SupervisorBuilder () :=
  builder_child (worker "b" () Transient) (builder_child (worker "a" () Permanent)
    (builder_strategy OneForAll builder_new)).

(** While the supervisor waits for actor 3, it stops within its timeout. *)
Definition prompt : list (list (Move () ())) := [finish_actor sup_id (from_raw 3)].

(** Both children start, the first one panics. *)
Definition crashed (b : SupervisorBuilder ()) (future : list (list (Move () ())))
    : Supervisor () * SWorld () () :=
  let '(s, w) := started sup_id (builder_start b) fresh_system in
  let w := env_moves (panic_moves (from_raw 2)) w in
  (s, mkSWorld (sw_world w) (sw_clock w) future (sw_starts w) (sw_late w)).
(** The supervisor handles that exit, and the one of the child it stopped. *)
Definition recovering : Supervisor () * SWorld () () := handle_next (crashed one_for_all prompt).
Definition recovered : Supervisor () * SWorld () () := handle_next recovering.

Definition recovered_history : list Exit :=
  [mkExit (local_addr (from_raw 3)) Shutdown;
   mkExit (local_addr (from_raw 2)) (Panic "panic in handler: boom")].

Lemma one_for_all_local : local_specs (b_specs one_for_all).
Proof.
  split; [by apply (bool_decide_eq_true_1 (NoDup _)); vm_compute|].
  apply (Forall_forall (λ spec, is_remote spec = false ∧ cs_start spec ≠ UnreachableStart)).
  repeat constructor; discriminate.
Qed.

Lemma fresh_system_ok :
  cl_ok (re_register_actor (local_addr sup_id) (ce_trap_exit fresh_system)).
Proof.
  simpl. split.
  - apply (run_ok [LSpawn Tasks; LStep sup_id CbReturned; LTrapExit sup_id true] empty_world);
      [vm_compute; done|apply empty_world_ok|vm_compute; done].
  - eexists. split; [vm_compute; done|]. done.
Qed.

Lemma recovered_reach :
  sup_reach Tasks sup_id one_for_all fresh_system recovered_history (fst recovered) (snd recovered).
Proof.
  eapply reach_exit; [eapply reach_exit;
    [eapply reach_env; [apply reach_started; vm_compute; reflexivity|]|..]|..].
  - instantiate (1 := snd (crashed one_for_all prompt)). split; [|done].
    exists (panic_moves (from_raw 2)). vm_compute. reflexivity.
  - vm_compute. reflexivity.
  - vm_compute. discriminate.
  - vm_compute. reflexivity.
  - vm_compute. reflexivity.
  - vm_compute. discriminate.
  - vm_compute. reflexivity.
Qed.

(** The children of [one_for_all] run again, as actors 4 and 5. *)
Lemma supervisor_guarantee_witness :
  all_child_ids (children (logic (fst recovered))) = ["a"; "b"] ∧
  ∀ spec, spec ∈ b_specs one_for_all → ∃ i, handles (fst recovered) !! cs_id spec = Some i ∧
    (ce_exit_reason i (snd recovered) = None ∨
     (∃ e, e ∈ recovered_history ∧ actor_id (from e) = i ∧
       should_restart (cs_restart spec) (reason e) = false) ∨
     i ∈ ce_late (snd recovered)).
Proof.
  apply (supervisor_guarantee Tasks sup_id one_for_all fresh_system).
  - apply one_for_all_local.
  - apply fresh_system_ok.
  - apply recovered_reach.
  - vm_compute. reflexivity.
  - vm_compute. reflexivity.
Defined.


(** The requests of that stop, in order. *)
Example recovered_stop_order :
  snd (snd (stopped_logged Tasks (fst recovered) (snd recovered, []))) =
    [ToldShutdown (from_raw 5); ToldKill (from_raw 5); ToldShutdown (from_raw 4); ToldKill (from_raw 4)].
Proof. vm_compute. reflexivity. Qed.

(** ** A child lost while it is started *)

(** The child of [fragile_start] runs as soon as it is spawned. Here it panics
    in [started] and signals its links, of which there are none yet, before
    the supervisor enters itself, and publishes its exit after the supervisor
    has looked. *)
Definition early_crash (i : ActorId) : list (list (Move () ())) :=
  [MLabel <$> [LStep i (CbPanicked "boom"); LStep i CbReturned]; []; [];
   MLabel <$> [LStep i CbReturned; LStep i CbReturned]].
Definition fragile_start : SupervisorBuilder () := builder_child (worker "a" () Permanent) builder_new.
Definition lost_start : Supervisor () * SWorld () () :=
  let '(s, w) := started sup_id (builder_start fragile_start)
    (mkSWorld (sw_world fresh_system) 0%Z [] [early_crash (from_raw 2)] []) in
  (s, env_moves (MLabel <$> [LStep (from_raw 2) CbReturned; LStep (from_raw 2) CbReturned]) w).

(** A permanent child can be dead for good. In this run the child has exited
    with a panic, the supervisor is idle with an empty mailbox, and its table
    says that the child is alive: it will never be restarted. *)
Theorem child_lost_in_start :
  let '(s, w) := lost_start in
  handles s !! "a" = Some (from_raw 2) ∧
  ce_exit_reason (from_raw 2) w = Some (Panic "panic in started(): boom") ∧
  ce_inbox w = [] ∧ ce_self_cancelled w = false ∧ ce_late w = [from_raw 2] ∧
  (ci_alive <$> list_children (logic s)) = [true].
Proof. vm_compute. split_and!; reflexivity. Qed.

(** ** A killed child kills its supervisor *)

Definition sup_exit (outs : list Outcome) (w : SWorld () ()) : option ExitReason :=
  w' ← step (LPostStop sup_id) (sw_world w); w' ← run_actor sup_id outs w';
  exit_reason sup_id (actors w').

(** A child that exits with [Kill] takes its supervisor down, although
    the supervisor traps exits. Here the second child does not stop within
    its (default) shutdown timeout while a [OneForAll] supervisor restarts
    after the panic of the first; the supervisor kills it, restarts both
    children, and finds itself cancelled: it exits with reason [Kill]. With
    a child that stops in time the same supervisor keeps running. *)
Theorem killed_child_kills_supervisor :
  let stuck := handle_next (crashed one_for_all []) in
  ce_exit_reason (from_raw 3) (snd stuck) = Some Kill ∧
  handles (fst stuck) !! "a" = Some (from_raw 4) ∧ handles (fst stuck) !! "b" = Some (from_raw 5) ∧
  ce_self_cancelled (snd stuck) = true ∧
  sup_exit (replicate 5 CbReturned) (snd stuck) = Some Kill ∧
  ce_self_cancelled (snd recovered) = false.
Proof. vm_compute. split_and!; reflexivity. Qed.

(** ** Meltdown *)

Definition fragile : SupervisorBuilder () :=
  builder_child (worker "a" () Permanent)
    (builder_intensity (mkRestartIntensity 0 (from_secs 5)) builder_new).

(** A supervisor whose restart intensity is exceeded exits with reason
    [Normal]: the meltdown only calls [ctx.stop()], which records no reason. *)
Theorem meltdown_exits_normal :
  let before := crashed fragile [] in
  (∃ e w, ce_recv (snd before) = Some (e, w) ∧ exit_action e (fst before) w = Meltdown) ∧
  let after := handle_next before in
  ce_self_cancelled (snd after) = true ∧
  sup_exit (replicate 5 CbReturned) (snd after) = Some Normal.
Proof. split; [|vm_compute; split; reflexivity]. vm_compute. eexists _, _. split; reflexivity. Qed.

(** ** Dynamic supervisors *)

Abbreviation DynRun := (DynamicSupervisor () * gmap string (Boxed (V := ActorId)) * SWorld () ())%type
  (only parsing).

Definition pool_builder : DynamicSupervisorBuilder := dyn_builder_max_children 2 dyn_builder_new.

(** A pool with one worker, actor 2, registered as [svc]. *)
Definition pool : DynRun :=
  snd (dyn_start_child (worker "w" () Permanent) (Some "svc") (dyn_builder_start pool_builder) ∅
         (dyn_started sup_id fresh_system)).
(** The worker panics and is restarted. *)
Definition pool_crashed : DynRun :=
  let '(s, g, w) := pool in (s, g, env_moves (panic_moves (from_raw 2)) w).
Definition pool_healed : DynRun :=
  let '(s, g, w) := pool_crashed in
  match ce_recv w with
  | Some (e, w) => dyn_handle_exit sup_id e s g w
  | None => (s, g, w)
  end.

Lemma dyn_started_ok : cl_ok (dyn_started sup_id fresh_system).
Proof. apply fresh_system_ok. Qed.

Abbreviation run_reach p :=
  (dyn_reach Tasks sup_id pool_builder fresh_system (fst (fst p)) (snd (fst p)) (snd p)).

Lemma pool_reach : run_reach pool.
Proof.
  apply (dreach_start _ _ _ _ (dyn_builder_start pool_builder) ∅ (dyn_started sup_id fresh_system)
    (worker "w" () Permanent) (Some "svc") (Ok (from_raw 2))).
  - apply dreach_started.
  - split; [reflexivity|discriminate].
  - reflexivity.
  - vm_compute. reflexivity.
Qed.

Lemma pool_healed_reach : run_reach pool_healed.
Proof.
  eapply (dreach_exit _ _ _ _ (fst (fst pool_crashed)) (snd (fst pool_crashed)) (snd pool_crashed)).
  - apply (dreach_env _ _ _ _ _ (snd (fst pool)) (snd pool)); [apply pool_reach|].
    split; [|done]. exists (panic_moves (from_raw 2)). vm_compute. reflexivity.
  - vm_compute. reflexivity.
  - vm_compute. discriminate.
  - vm_compute. reflexivity.
Qed.

Lemma dynamic_supervisor_guarantee_witness :
  let s := fst (fst pool_healed) in let w := snd pool_healed in
  NoDup (dci_id <$> which_children s) ∧ count_children s = length (which_children s) ∧
  (∀ m, db_max_children pool_builder = Some m → count_children s ≤ m) ∧
  (∀ i id, d_actor_to_id s !! i = Some id ↔
     ∃ c, c ∈ which_children s ∧ dci_actor_id c = i ∧ dci_id c = id) ∧
  ∀ c, c ∈ which_children s → dci_alive c = true ∧
    (ce_exit_reason (dci_actor_id c) w = None ∨
     (∃ r, mkExit (local_addr (dci_actor_id c)) r ∈ ce_inbox w) ∨
     ce_self_cancelled w = true ∨ dci_actor_id c ∈ ce_late w).
Proof.
  apply (dynamic_supervisor_guarantee Tasks sup_id pool_builder fresh_system
    (fst (fst pool_healed)) (snd (fst pool_healed)) (snd pool_healed)).
  - apply dyn_started_ok.
  - apply pool_healed_reach.
Defined.

(** The engine of the supervisor that restarted both its children, and that of
    the pool that restarted its worker. *)
Lemma engine_agrees_witness :
  (wf (logic (fst recovered)) ∧ policy <$> children (logic (fst recovered)) = policies_of (b_specs one_for_all)) ∧
  wf (d_logic (fst (fst pool_healed))) ∧
  ∀ id i, d_handles (fst (fst pool_healed)) !! id = Some i ↔
    ∃ c, c ∈ children (d_logic (fst (fst pool_healed))) ∧ cp_id (policy c) = id ∧ slot_id <$> handle c = Some i.
Proof.
  destruct (engine_agrees (A := ()) (W := SWorld () ()) Tasks sup_id) as [Hs Hd]. split.
  - destruct (Hs one_for_all fresh_system recovered_history (fst recovered) (snd recovered)
      one_for_all_local fresh_system_ok recovered_reach) as (Hwf & Hp & _). exact (conj Hwf Hp).
  - exact (Hd pool_builder fresh_system (fst (fst pool_healed)) (snd (fst pool_healed)) (snd pool_healed)
      dyn_started_ok pool_healed_reach).
Defined.


Lemma terminate_child_spec_witness :
  let s := fst (fst pool) in let g := snd (fst pool) in let w := snd pool in
  let '(r, (s', g', w')) := terminate_child_by_actor Tasks (from_raw 2) s g w in
  match d_actor_to_id s !! from_raw 2 with
  | Some id => r = Ok () ∧ is_Some (ce_exit_reason (from_raw 2) w') ∧
      d_handles s' = delete id (d_handles s) ∧
      (∀ n, d_reg_names s !! n = Some id → g' !! n = None) ∧
      (∀ n, d_reg_names s !! n ≠ Some id → g' !! n = g !! n)
  | None => r = Err (ChildNotFound (from_raw 2)) ∧ s' = s ∧ g' = g ∧ w' = w
  end.
Proof.
  apply (terminate_child_spec Tasks sup_id pool_builder fresh_system
    (fst (fst pool)) (snd (fst pool)) (snd pool)).
  - apply dyn_started_ok.
  - apply pool_reach.
Defined.

Lemma dyn_stopped_terminates_all_witness :
  let s := fst (fst pool) in let g := snd (fst pool) in let w := snd pool in
  let '(s', g', w') := dyn_stopped Tasks s g w in
  (∀ c, c ∈ which_children s → is_Some (ce_exit_reason (dci_actor_id c) w')) ∧
  (∀ n, is_Some (d_reg_names s !! n) → g' !! n = None) ∧
  (∀ n, d_reg_names s !! n = None → g' !! n = g !! n) ∧
  (d_specs s' = ∅ ∧ d_handles s' = ∅ ∧ d_actor_to_id s' = ∅ ∧ d_reg_names s' = ∅ ∧
   d_remote_handles s' = ∅ ∧ d_remote_actor_to_id s' = ∅ ∧ d_remote_spawn_meta s' = ∅) ∧
  (∀ e, dyn_exit_action e s' w' = Ignore) ∧
  ∀ spec n, fst (dyn_start_child spec n s' g' w') = Err SupervisorStopping.
Proof.
  apply (dyn_stopped_terminates_all Tasks sup_id pool_builder fresh_system
    (fst (fst pool)) (snd (fst pool)) (snd pool)).
  - apply dyn_started_ok.
  - apply pool_reach.
Defined.

Lemma runtimes_agree_witness :
  let s := fst recovered in let d := fst (fst pool) in
  let g := snd (fst pool) in let w := snd recovered in
  let e := mkExit (local_addr (from_raw 4)) Kill in
  threads_handle_exit sup_id e s w = handle_exit Tasks sup_id e s w ∧
  threads_stopped s w = stopped Tasks s w ∧
  threads_terminate_child_by_actor (from_raw 2) d g w =
    terminate_child_by_actor Tasks (from_raw 2) d g w ∧
  threads_dyn_stopped d g w = dyn_stopped Tasks d g w.
Proof.
  apply (runtimes_agree sup_id (fst recovered) (fst (fst pool)) (snd (fst pool)) (snd recovered)
    (mkExit (local_addr (from_raw 4)) Kill) (from_raw 2)); vm_compute; reflexivity.
Defined.

(** A start refused because its name is taken leaves an actor behind. The
    second worker of the pool asks for the name of the first: [start_child]
    reports the registry error, but actor 3 runs; the supervisor does not
    list it, cannot terminate it, and stopping the supervisor leaves it
    running. *)
Theorem name_clash_orphans_child :
  let '(s, g, w) := pool in
  let '(r, (s', g', w')) := dyn_start_child (worker "w" () Permanent) (Some "svc") s g w in
  r = Err (RegistryErr "name 'svc' is already registered") ∧
  ce_exit_reason (from_raw 3) w' = None ∧ is_alive (from_raw 3) (actors (sw_world w')) = true ∧
  (from_raw 3 ∉ (dci_actor_id <$> which_children s')) ∧
  fst (terminate_child_by_actor Tasks (from_raw 3) s' g' w') = Err (ChildNotFound (from_raw 3)) ∧
  let '(_, _, w'') := dyn_stopped Tasks s' g' w' in
  ce_exit_reason (from_raw 2) w'' = Some Kill ∧ ce_exit_reason (from_raw 3) w'' = None.
Proof.
  vm_compute. split_and!; try reflexivity. intros [?|?%not_elem_of_nil]%elem_of_cons; done.
Qed.

(** After a restart the registry still holds the handle of the dead
    actor: the worker of the pool now is actor 3, but [whereis] returns
    actor 2, which has exited. *)
Theorem restarted_child_name_stale :
  let '(s, g, w) := pool_healed in
  d_reg_names s !! "svc" = Some "w#1" ∧ d_handles s !! "w#1" = Some (from_raw 3) ∧
  whereis "svc" CHILD_HANDLE g = Some (from_raw 2) ∧
  ce_exit_reason (from_raw 2) w = Some (Panic "panic in handler: boom").
Proof. vm_compute. split_and!; reflexivity. Qed.
End runs.
