(* ===== verification/DynamicApi.v ===== *)
(** * Asking a dynamic supervisor

    The messages of a dynamic supervisor, their handlers and the API on its
    [ActorRef] ([DynamicSupervisorApi]), of
    [concurrency/src/tasks/dynamic_supervisor.rs] and
    [concurrency/src/threads/dynamic_supervisor.rs]. The API of the tasks
    runtime wraps [request_raw] and waits as long as the supervisor lives;
    that of the threads runtime blocks in [request], which gives up after
    five seconds.

    The requests are those of [Requests], the handlers those of
    [DynamicSupervisor]; [Serving] composes the two: clients, other actors and
    the supervisor's loop interleave step by step, and between two requests
    the children run and the supervisor handles their exits. *)

From S2P Require Import Prelude Address Errors Mailbox Backpressure ChildSpec SupervisorLogic ProcessGroups Registry Links Actor Requests Serving Handles Supervised RemoteSpawn Supervisor DynamicSupervisor SupervisorRuns.
Import Values.

(** ** Messages *)

Inductive DynMsg (A : Type) :=
| StartChild (spec : ChildSpec A) (reg_name : option string)
| TerminateChild (a : ActorId)
| CountChildren
| WhichChildren
| StartChildRemote (spec : RemoteSpawnSpec) (placement : NodeId) (link : bool).
Arguments StartChild {A} spec reg_name.
Arguments TerminateChild {A} a.
Arguments CountChildren {A}.
Arguments WhichChildren {A}.
Arguments StartChildRemote {A} spec placement link.

(** [Message::Result] of each. *)
Inductive DynReply :=
| RStarted (r : Result ActorId DynamicSupervisorError)
| RTerminated (r : Result () DynamicSupervisorError)
| RCount (n : nat)
| RWhich (l : list DynamicChildInfo)
| RStartedRemote (r : Result RemoteChildHandle DynamicSupervisorError).

Section api.
Context {A W : Type} `{ThisNode} `{ChildEnv A W} `{RemoteEnv W}.
Context (rt : MailboxRuntime) (me : ActorId).

(** The state of the handlers: the supervisor, the registry, the system. *)
Abbreviation D := (DynamicSupervisor A * gmap string (Boxed (V := ActorId)) * W)%type (only parsing).

(** *** The handlers *)

(** The handler of [StartChild] panics where it calls the start function of
    a spec that has none. *)
Definition start_panics (spec : ChildSpec A) (s : DynamicSupervisor A) : bool :=
  negb (d_stopping s) && negb (at_capacity s) &&
  negb (has_child_id (instance_id (cs_id spec) (wrapping_succ_u64 (d_id_counter s))) (d_logic s)) &&
  match cs_start spec with UnreachableStart => true | StartLinked _ => false end.
Definition handle_start_child spec reg_name (d : D) : option (DynReply * D) :=
  let '(s, g, w) := d in
  if start_panics spec s then None
  else let '(r, d) := dyn_start_child spec reg_name s g w in Some (RStarted r, d).
Definition handle_start_child_remote spec placement link (d : D) : DynReply * D :=
  let '(s, g, w) := d in
  let '(r, d) := dyn_start_child_remote me spec placement link s g w in (RStartedRemote r, d).
Definition handle_terminate_child a (d : D) : DynReply * D :=
  let '(s, g, w) := d in
  let '(r, d) := terminate_child_by_actor rt a s g w in (RTerminated r, d).
Definition handle_count_children (d : D) : DynReply * D := (RCount (count_children (fst (fst d))), d).
Definition handle_which_children (d : D) : DynReply * D := (RWhich (which_children (fst (fst d))), d).

Definition dyn_handle (m : DynMsg A) (d : D) : option (DynReply * D) :=
  match m with
  | StartChild spec reg_name => handle_start_child spec reg_name d
  | TerminateChild a => Some (handle_terminate_child a d)
  | CountChildren => Some (handle_count_children d)
  | WhichChildren => Some (handle_which_children d)
  | StartChildRemote spec placement link => Some (handle_start_child_remote spec placement link d)
  end.

End api.

(** The handlers of the threads runtime repeat them with blocking calls. *)
Section threads.
Context {A W : Type} `{ThisNode} `{ChildEnv A W} `{RemoteEnv W} (me : ActorId).

Definition threads_handle_start_child (spec : ChildSpec A) n (d : DynamicSupervisor A * _ * W) :=
  handle_start_child spec n d.
Definition threads_handle_start_child_remote spec placement link (d : DynamicSupervisor A * _ * W) :=
  handle_start_child_remote me spec placement link d.
Definition threads_handle_terminate_child a (d : DynamicSupervisor A * _ * W) :=
  handle_terminate_child Threads a d.
End threads.

(** *** The API *)

Section calls.
Context {A : Type} `{ThisNode} (limits : ActorId → Limits) (me : ActorId).
Abbreviation Sys := (ReqSys (DynMsg A) DynReply) (only parsing).

(** [Response::from(rx)] of the tasks runtime: [q] is what [request_raw]
    returned, and the response is looked at in the system [s]. *)
Definition tasks_response (q : Result N ActorError) (s : Sys) : ResponseState (T := DynReply) :=
  response_from (match q with
                 | Ok k => Ok (default OsOpen (rs_oneshots s !! k))
                 | Err e => Err e
                 end).

(** [Response::ready(self.request(m))] of the threads runtime: [s] is the
    system when the reply is there or the five seconds have passed. *)
Definition response_ready (r : Result DynReply ActorError) : ResponseState := Ready r.
Definition threads_response (q : Result N ActorError) (s : Sys) : ResponseState (T := DynReply) :=
  response_ready match q with
                 | Ok k => default (Err RequestTimeout) (poll_reply true k s)
                 | Err e => Err e
                 end.

(** What the caller has in hand: [None] as long as it has to wait. *)
Definition resolved (r : ResponseState (T := DynReply)) : option (Result DynReply ActorError) :=
  match poll true r with Some (PollReady _ x, _) => Some x | _ => None end.

(** [Response::from(self.request_raw(m))] *)
Definition tasks_call (m : DynMsg A) (s : Sys) : option (Result N ActorError * Sys) :=
  request_raw limits me m s.
Definition tasks_api_start_child spec reg_name := tasks_call (StartChild spec reg_name).
Definition tasks_api_terminate_child a := tasks_call (TerminateChild a).
Definition tasks_api_count_children := tasks_call CountChildren.
Definition tasks_api_which_children := tasks_call WhichChildren.
Definition tasks_api_start_child_remote spec placement := tasks_call (StartChildRemote spec placement true).

(** [Response::ready(self.request(m))]: [ls] is what the system does until
    the reply is there or the timeout has passed. *)
Definition threads_call (ls : list (RLabel (DynMsg A) DynReply)) (m : DynMsg A) (s : Sys)
    : option (ResponseState * Sys) :=
  '(r, s) ← request_with_timeout limits ls me m s; Some (response_ready r, s).
Definition threads_api_start_child ls spec reg_name := threads_call ls (StartChild spec reg_name).
Definition threads_api_terminate_child ls a := threads_call ls (TerminateChild a).
Definition threads_api_count_children ls := threads_call ls CountChildren.
Definition threads_api_which_children ls := threads_call ls WhichChildren.
Definition threads_api_start_child_remote ls spec placement :=
  threads_call ls (StartChildRemote spec placement true).

(** A blocking call is a call whose response is read once, at the end. *)
Lemma threads_call_response ls m s q s1 s' :
  tasks_call m s = Some (q, s1) → rrun limits (if is_ok q then ls else []) s1 = Some s' →
  threads_call ls m s = Some (threads_response q s', s').
Proof.
  unfold tasks_call, threads_call, request_with_timeout. intros -> Hr. cbn [mbind option_bind].
  destruct q as [k|e]; simpl in *; [|by simplify_eq].
  rewrite Hr. cbn [mbind option_bind]. unfold threads_response, poll_reply.
  by destruct (rs_oneshots s' !! k) as [[]|].
Qed.
End calls.

(** ** The supervisor among its clients *)

Section clients.
Context {A W : Type} `{ChildLaws A W} `{RemoteEnv W}.
Context (limits : ActorId → Limits) (rt : MailboxRuntime) (me : ActorId).
Abbreviation D := (DynamicSupervisor A * gmap string (Boxed (V := ActorId)) * W)%type (only parsing).

(** Between requests: the system and the registry move, or an [Exit] is
    handled; one that is a meltdown makes the supervisor quit. *)
Inductive dyn_drift : D → option D → Prop :=
| drift_env s g g' w w' : cl_le w w' → dyn_drift (s, g, w) (Some (s, g', w'))
| drift_exit s g w e w1 :
    ce_recv w = Some (e, w1) → dyn_exit_action e s w1 ≠ Meltdown →
    dyn_drift (s, g, w) (Some (dyn_handle_exit me e s g w1))
| drift_meltdown s g w e w1 :
    ce_recv w = Some (e, w1) → dyn_exit_action e s w1 = Meltdown → dyn_drift (s, g, w) None.

Definition dyn_sstep := sstep limits me (dyn_handle rt me) dyn_drift.
Definition dyn_lin := lin (dyn_handle rt me) dyn_drift.

(** No actors yet; the supervisor's state is that after [started]. *)
Definition dyn_server (b : DynamicSupervisorBuilder) g (w0 : W) : ServerSys (DynMsg A) DynReply D :=
  mkServer rs_new (Some (dyn_builder_start b, g, dyn_started me w0)) [].

(** A request that starts no remote child, handled before the counter of
    instance ids wraps. *)
Definition local_request (m : DynMsg A) (d : D) : Prop :=
  match m with
  | StartChild spec _ => local_spec spec ∧ (d_id_counter (fst (fst d)) < 2 ^ 64 - 1)%N
  | StartChildRemote _ _ _ => False
  | _ => True
  end.
Definition local_history (h : list (Entry (DynMsg A) DynReply D)) : Prop :=
  Forall (λ en, local_request (en_msg en) (en_before en)) h.

(** A sequential execution of such requests goes through states of
    [dyn_reach]. *)
Lemma lin_reach b g w0 h d :
  dyn_lin (dyn_builder_start b, g, dyn_started me w0) h d → local_history h →
  dyn_reach rt me b w0 (fst (fst d)) (snd (fst d)) (snd d).
Proof.
  induction 1 as [|h d d' _ IH Hd|h d k m v d' _ IH Hh]; intros Hloc; [constructor|..].
  - specialize (IH Hloc). inversion Hd as [s g1 g' w w' Hle|s g1 w e w1 Hr Hm|]; subst; simpl in *; [by eapply dreach_env|].
    destruct (dyn_handle_exit me e s g1 w1) as [[s' g'] w'] eqn:He. by eapply dreach_exit.
  - apply Forall_app in Hloc as [Hloc [Hm _]%Forall_cons]. specialize (IH Hloc). simpl in Hm.
    destruct d as [[s g1] w], d' as [[s' g'] w'], m as [spec n|a| | |]; simpl in *;
      unfold handle_count_children, handle_which_children in *; simplify_eq; try done.
    + destruct (start_panics spec s); [done|].
      destruct (dyn_start_child spec n s g1 w) as [r [[s1 g2] w1]] eqn:Hs. simplify_eq.
      destruct Hm. by eapply dreach_start.
    + destruct (terminate_child_by_actor rt a s g1 w) as [r [[s1 g2] w1]] eqn:Hs. simplify_eq.
      by eapply dreach_terminate.
Qed.

(** What the reply [v] to [m] says, handled in [s], [g] and [w] and leaving
    [s'], [g'] and [w']. *)
Definition answered_as (limit : option nat) (m : DynMsg A) (v : DynReply) (d d' : D) : Prop :=
  let '(s, g, w) := d in
  let '(s', g', w') := d' in
  match m, v with
  | StartChild spec reg_name, RStarted r => started_as spec reg_name r s g w s' g' w'
  | TerminateChild a, RTerminated r => terminated_as a r s g w s' g' w'
  | CountChildren, RCount n =>
      d' = d ∧ n = length (which_children s) ∧ ∀ mx, limit = Some mx → n ≤ mx
  | WhichChildren, RWhich l =>
      d' = d ∧ NoDup (dci_id <$> l) ∧ (∀ mx, limit = Some mx → length l ≤ mx) ∧
      (∀ i id, d_actor_to_id s !! i = Some id ↔ ∃ c, c ∈ l ∧ dci_actor_id c = i ∧ dci_id c = id) ∧
      ∀ c, c ∈ l → ce_exit_reason (dci_actor_id c) w = None ∨
        (∃ r, mkExit (local_addr (dci_actor_id c)) r ∈ ce_inbox w) ∨
        ce_self_cancelled w = true ∨ dci_actor_id c ∈ ce_late w
  | StartChildRemote spec placement link, RStartedRemote r =>
      remote_started_as me spec placement link r s g w s' g' w'
  | _, _ => False
  end.

Lemma dyn_handle_answers limit m s g w v d' :
  dyn_inv None s w → d_max_children s = limit → (d_id_counter s < 2 ^ 64 - 1)%N →
  (∀ spec n, m = StartChild spec n → local_spec spec) →
  dyn_handle rt me m (s, g, w) = Some (v, d') → answered_as limit m v (s, g, w) d'.
Proof.
  intros Hinv Hlim Hcnt Hloc. pose proof (dyn_inv_reports limit s w Hinv Hlim) as (Hnd & Hn & Hmax & Htab & Hrun).
  destruct d' as [[s' g'] w'], m as [spec n|a| | |spec placement link]; simpl.
  - destruct (start_panics spec s); [done|].
    pose proof (dyn_start_inv spec n s g w Hinv (Hloc spec n eq_refl) Hcnt) as Hi.
    destruct (dyn_start_child spec n s g w) as [r [[s1 g1] w1]]. intros [= <- <- <- <-]. by apply Hi.
  - pose proof (terminate_inv rt a s g w Hinv) as Hi.
    destruct (terminate_child_by_actor rt a s g w) as [r [[s1 g1] w1]]. intros [= <- <- <- <-]. by apply Hi.
  - intros [= <- <- <- <-]. by split_and!.
  - intros [= <- <- <- <-]. split_and!; try done; [by rewrite <- Hn|]. intros c Hc. by apply Hrun.
  - pose proof (start_remote_spec me spec placement link s g w Hinv Hcnt) as Hi.
    destruct (dyn_start_child_remote me spec placement link s g w) as [r [[s1 g1] w1]]. intros [= <- <- <- <-]. done.
Qed.

(** Both runtimes see the same reply; they differ while there is none. *)
Lemma responses_spec k (s : ReqSys (DynMsg A) DynReply) :
  match poll_reply false k s with
  | Some r => resolved (tasks_response (Ok k) s) = Some r ∧ resolved (threads_response (Ok k) s) = Some r
  | None => resolved (tasks_response (Ok k) s) = None ∧
      resolved (threads_response (Ok k) s) = Some (Err RequestTimeout)
  end.
Proof.
  unfold poll_reply, resolved, tasks_response, threads_response, response_ready, poll_reply. simpl.
  by destruct (rs_oneshots s !! k) as [[|v|]|].
Qed.
End clients.

(** C4: Calls of the API take effect atomically. Let any number of clients ask
    a dynamic supervisor anything, let its children run and exit, other actors
    do what they like, and let the supervisor end, by a panic of a handler or
    by a meltdown if it comes to that; let [m] be asked of it and accepted,
    and look at the response after any number of further steps. The requests
    whose handlers returned were executed one after the other. If the
    response is a reply, both runtimes have the same one, and the handler of
    [m] ran exactly once, after the call, and returned it. If moreover the
    requests handled before started local children only ([m] itself may start
    a remote one), the reply and the changes made are those promised: of
    [start_child] what [started_as] says, of [terminate_child] that the child
    has exited and is out of the tables, of [count_children] and
    [which_children] the children there were, each running unless its exit is
    still to be handled, of [start_child_remote] what [remote_started_as]
    says. If the response is [ActorStopped], no handler of [m] has returned or
    ever will: it was not begun, or panicked. If there is none yet, the tasks
    runtime waits, and the threads runtime may report [RequestTimeout]; the
    request is then still queued or running, not withdrawn. *)
Theorem api_atomic {A W} `{ChildLaws A W} `{RemoteEnv W} (limits : ActorId → Limits) rt me b g0
    (w0 : W) n p x (m : DynMsg A) k r1 y :
  cl_ok (dyn_started me w0) →
  nsteps (dyn_sstep limits rt me) n (dyn_server me b g0 w0) x →
  (N.of_nat (n + p + 1) < 2 ^ 64 - 2)%N →
  tasks_call limits me m (ss_req x) = Some (Ok k, r1) →
  nsteps (dyn_sstep limits rt me) p (mkServer r1 (ss_state x) (ss_log x)) y →
  ∃ h, ss_log y = ss_log x ++ h ∧
    (∃ d, dyn_lin rt me (dyn_builder_start b, g0, dyn_started me w0) (ss_log y) d ∧
       (ss_state y = Some d ∨ ss_state y = None)) ∧
    match resolved (tasks_response (Ok k) (ss_req y)) with
    | Some (Ok v) => resolved (threads_response (Ok k) (ss_req y)) = Some (Ok v) ∧
        ∃ h1 d h2 d', h = h1 ++ mkEntry (Some k) m d v :: h2 ∧ (k ∉ omap en_key (h1 ++ h2)) ∧
          dyn_handle rt me m d = Some (v, d') ∧
          (local_history (ss_log x ++ h1) → (d_id_counter (fst (fst d)) < 2 ^ 64 - 1)%N →
           (∀ spec reg_name, m = StartChild spec reg_name → local_spec spec) →
           dyn_reach rt me b w0 (fst (fst d)) (snd (fst d)) (snd d) ∧
           answered_as me (db_max_children b) m v d d')
    | Some (Err e) => e = ActorStopped ∧
        resolved (threads_response (Ok k) (ss_req y)) = Some (Err ActorStopped) ∧
        (k ∉ omap en_key h) ∧ k ∉ omap e_tx (outstanding (ss_req y) me)
    | None => resolved (threads_response (Ok k) (ss_req y)) = Some (Err RequestTimeout) ∧
        (k ∉ omap en_key h) ∧ k ∈ omap e_tx (outstanding (ss_req y) me) ∧
        exit_reason me (actors (rs_world (ss_req y))) = None
    end.
Proof.
  intros Hok Hx Hlen Hreq Hy.
  destruct (request_atomic limits me _ _ _ n p x m k r1 y Hx Hlen Hreq Hy) as (h & Hh & (d1 & Hlin & Hd1) & Hres).
  exists h. split; [done|]. split; [by exists d1|].
  pose proof (responses_spec k (ss_req y)) as Hr.
  destruct (poll_reply false k (ss_req y)) as [[v|e]|]; destruct Hr as [-> ->]; [|naive_solver..].
  split; [done|]. destruct Hres as (h1 & [[s g] w] & h2 & -> & Hk).
  rewrite Hh, app_assoc in Hlin. destruct (lin_prefix _ _ _ _ _ _ _ Hlin) as (Hpre & Hv). simpl in Hpre, Hv.
  destruct (dyn_handle rt me m (s, g, w)) as [[v' d']|] eqn:Hd; [|done]. injection Hv as ->.
  exists h1, (s, g, w), h2, d'. split_and!; [done..|]. intros Hloc Hcnt Hm.
  pose proof (lin_reach rt me b g0 w0 _ _ Hpre Hloc) as Hreach. split; [done|]. simpl in Hreach, Hcnt.
  destruct (dyn_reach_inv rt me b w0 s g w Hok Hreach) as [Hinv Hmax].
  by apply (dyn_handle_answers rt me).
Qed.

(** ** A client that gives up *)

Section runs.
#[local] Existing Instance this_node.
#[local] Existing Instance run_env.
#[local] Existing Instance run_laws.
#[local] Existing Instance run_remote.
Abbreviation Sys := (ReqSys (DynMsg ()) DynReply) (only parsing).

Definition a_worker : ChildSpec () := worker "w" () Permanent.

(** The supervisor is actor 1 and waits for messages. *)
Definition waiting : Sys :=
  default rs_new (rrun unlimited [RWorld (LSpawn Tasks); RActor sup_id CbReturned (RCount 0)] rs_new).
Definition start_state : DynamicSupervisor () * gmap string (Boxed (V := ActorId)) * SWorld () () :=
  (dyn_builder_start pool_builder, ∅, dyn_started sup_id fresh_system).
(** A client calls [start_child]; the supervisor takes the message; its
    handler returns. *)
Definition called : Sys :=
  from_option snd rs_new (tasks_api_start_child unlimited sup_id a_worker None waiting).
Definition taken : Sys := default rs_new (rstep unlimited (RActor sup_id CbReturned (RCount 0)) called).
Definition handled := default (RCount 0, start_state) (dyn_handle Tasks sup_id (StartChild a_worker None) start_state).
Definition replied : Sys := default rs_new (rstep unlimited (RActor sup_id CbReturned (fst handled)) taken).

Definition dyn_runs := dyn_sstep (A := ()) (W := SWorld () ()) unlimited Tasks sup_id.

Lemma waiting_run : nsteps dyn_runs 2 (dyn_server sup_id pool_builder ∅ fresh_system)
  (mkServer waiting (Some start_state) []).
Proof.
  eapply nsteps_l.
  - apply (st_other _ _ _ _ (RWorld (LSpawn Tasks))
      _ (default rs_new (rrun unlimited [RWorld (LSpawn Tasks)] rs_new))); vm_compute; reflexivity.
  - apply nsteps_once. apply (st_loop _ _ _ _ CbReturned (RCount 0)); vm_compute; reflexivity.
Qed.

Lemma replied_run : nsteps dyn_runs 2 (mkServer called (Some start_state) [])
  (mkServer replied (Some (snd handled))
     ([] ++ [mkEntry (Some 0%N) (StartChild a_worker None) start_state (fst handled)])).
Proof.
  eapply nsteps_l.
  - apply (st_loop _ _ _ _ CbReturned (RCount 0) _ taken); vm_compute; reflexivity.
  - apply nsteps_once.
    apply (st_handle _ _ _ _ (Requests.mkEnvelope (StartChild a_worker None) (Some 0%N)) (fst handled) taken replied
      start_state (snd handled)).
    + vm_compute. reflexivity.
    + reflexivity.
    + vm_compute. reflexivity.
Qed.

(** The caller of [start_child] in the threads runtime whose five seconds
    pass while the supervisor is busy is told [RequestTimeout]; the child is
    started all the same, nobody has its handle, and it counts against
    [max_children]. The caller of the tasks runtime still waits and gets the
    handle. *)
Theorem timed_out_start_still_starts :
  tasks_api_start_child unlimited sup_id a_worker None waiting = Some (Ok 0%N, called) ∧
  resolved (threads_response (Ok 0%N) called) = Some (Err RequestTimeout) ∧
  resolved (tasks_response (Ok 0%N) called) = None ∧
  nsteps dyn_runs 2 (mkServer called (Some start_state) [])
    (mkServer replied (Some (snd handled))
      ([] ++ [mkEntry (Some 0%N) (StartChild a_worker None) start_state (fst handled)])) ∧
  count_children (fst (fst (snd handled))) = 1 ∧
  resolved (tasks_response (Ok 0%N) replied) = Some (Ok (RStarted (Ok (from_raw 2)))).
Proof.
  split_and!; [vm_compute; reflexivity..|apply replied_run|vm_compute; reflexivity|vm_compute; reflexivity].
Qed.

Lemma api_atomic_witness :
  ∃ h1 d h2 d', [mkEntry (Some 0%N) (StartChild a_worker None) start_state (fst handled)] =
      h1 ++ mkEntry (Some 0%N) (StartChild a_worker None) d (fst handled) :: h2 ∧
    dyn_handle Tasks sup_id (StartChild a_worker None) d = Some (fst handled, d') ∧
    (local_history h1 → (d_id_counter (fst (fst d)) < 2 ^ 64 - 1)%N →
     (∀ spec reg_name, StartChild a_worker None = StartChild spec reg_name → local_spec spec) →
     answered_as sup_id (db_max_children pool_builder) (StartChild a_worker None) (fst handled) d d').
Proof.
  destruct (api_atomic unlimited Tasks sup_id pool_builder ∅ fresh_system 2 2
    (mkServer waiting (Some start_state) []) (StartChild a_worker None) 0%N called
    (mkServer replied (Some (snd handled))
       ([] ++ [mkEntry (Some 0%N) (StartChild a_worker None) start_state (fst handled)])))
    as (h & Hh & _ & Hres).
  - apply dyn_started_ok.
  - apply waiting_run.
  - reflexivity.
  - vm_compute. reflexivity.
  - apply replied_run.
  - assert (resolved (tasks_response (Ok 0%N) replied) = Some (Ok (fst handled))) as Hr
      by (vm_compute; reflexivity).
    cbn [ss_req] in Hres. rewrite Hr in Hres. destruct Hres as (_ & h1 & d & h2 & d' & He & _ & Hd & Ha).
    exists h1, d, h2, d'. cbn [ss_log app] in Hh. rewrite Hh. split; [exact He|]. split; [exact Hd|].
    intros H1 H2 H3. exact (proj2 (Ha H1 H2 H3)).
Defined.
End runs.
