(* ===== verification/ExampleServers.v ===== *)
(** * The request servers of [examples/]

    The actors of [examples/bank], [examples/bank_threads],
    [examples/name_server] and [examples/service_discovery]: a state and a
    handler for each method of the protocol. [Serving] turns such a handler
    into an actor asked by any number of clients, and the theorems here say
    what a client is told: the bank answers from a ledger kept in unbounded
    integers, the other two with what was stored last. The bank's texts for
    the two runtimes are the same but for [async].

    A handler that panics gives [None]; only the bank's can, where [i32]
    arithmetic overflows in a build with overflow checks. *)

From S2P Require Import Prelude Address Errors Mailbox Backpressure ChildSpec ProcessGroups Registry Links Actor Requests Serving.

(** ** A reply comes from the handler *)

Section answered.
Context {Msg R D : Type} `{ThisNode} (limits : ActorId → Limits) (me : ActorId).
Context (handle : Msg → D → option (R * D)).
Abbreviation ran := (sstep limits me handle (λ _ _, False)).
Abbreviation lin_of := (lin handle (λ _ _, False)).

(** The value of an accepted request is the handler's, applied to a state
    that the messages handled before lead to. *)
Lemma answered_by d0 n p x m k r1 y v :
  nsteps ran n (mkServer rs_new (Some d0) []) x → (N.of_nat (n + p + 1) < 2 ^ 64 - 2)%N →
  request_raw limits me m (ss_req x) = Some (Ok k, r1) →
  nsteps ran p (mkServer r1 (ss_state x) (ss_log x)) y →
  poll_reply false k (ss_req y) = Some (Ok v) →
  ∃ h1 d h2, ss_log y = ss_log x ++ h1 ++ mkEntry (Some k) m d v :: h2 ∧
    lin_of d0 (ss_log x ++ h1) d ∧ fst <$> handle m d = Some v.
Proof.
  intros Hx Hn Hk Hy Hv. destruct (request_atomic limits me handle _ d0 n p x m k r1 y Hx Hn Hk Hy) as (h & Hh & (d1 & Hl & _) & Hp).
  rewrite Hv in Hp. destruct Hp as (h1 & d & h2 & -> & _). exists h1, d, h2. split; [done|].
  rewrite Hh, app_assoc in Hl. by apply lin_prefix in Hl.
Qed.
End answered.

(** ** The bank *)

Module Bank.
Inductive BankOutMessage :=
| Welcome (who : string) | Balance (who : string) (amount : Z) | WithdrawOk (who : string) (amount : Z) | Stopped.
Inductive BankError :=
| AlreadyACustomer (who : string) | NotACustomer (who : string) | InsufficientBalance (who : string) (amount : Z).
Abbreviation MsgResult := (Result BankOutMessage BankError).
(** The messages that [#[protocol]] makes of the methods of [BankProtocol]. *)
Inductive BankMsg := NewAccount (who : string) | Deposit (who : string) (amount : Z) | Withdraw (who : string) (amount : Z) | Stop.

(** The actor, and whether it has asked its context to stop. *)
Record Bank := mkBank { accounts : gmap string Z; stopping : bool }.

(** [i32] addition and subtraction: with overflow checks an overflow panics,
    without it wraps around. *)
Definition wrap32 (z : Z) : Z := ((z + 2 ^ 31) mod 2 ^ 32 - 2 ^ 31)%Z.
Definition i32_arith (checks : bool) (z : Z) : option Z :=
  if decide (wrap32 z = z) then Some z else if checks then None else Some (wrap32 z).

Section handlers.
Context (checks : bool).

Definition bank_new : Bank := mkBank ∅ false.
Definition bank_started (b : Bank) : Bank := mkBank (<["main" := 1000%Z]> (accounts b)) (stopping b).

Definition handle_new_account (who : string) (b : Bank) : option (MsgResult * Bank) :=
  match accounts b !! who with
  | Some _ => Some (Err (AlreadyACustomer who), b)
  | None => Some (Ok (Welcome who), mkBank (<[who := 0%Z]> (accounts b)) (stopping b))
  end.

Definition handle_deposit (who : string) (amount : Z) (b : Bank) : option (MsgResult * Bank) :=
  match accounts b !! who with
  | Some current =>
      new_amount ← i32_arith checks (current + amount);
      Some (Ok (Balance who new_amount), mkBank (<[who := new_amount]> (accounts b)) (stopping b))
  | None => Some (Err (NotACustomer who), b)
  end.

Definition handle_withdraw (who : string) (amount : Z) (b : Bank) : option (MsgResult * Bank) :=
  match accounts b !! who with
  | Some current =>
      if decide (current < amount)%Z then Some (Err (InsufficientBalance who current), b)
      else
        new_amount ← i32_arith checks (current - amount);
        Some (Ok (WithdrawOk who new_amount), mkBank (<[who := new_amount]> (accounts b)) (stopping b))
  | None => Some (Err (NotACustomer who), b)
  end.

Definition bank_handle_stop (b : Bank) : option (MsgResult * Bank) := Some (Ok Stopped, mkBank (accounts b) true).

Definition bank_handle (m : BankMsg) (b : Bank) : option (MsgResult * Bank) :=
  match m with
  | NewAccount who => handle_new_account who b
  | Deposit who amount => handle_deposit who amount b
  | Withdraw who amount => handle_withdraw who amount b
  | Stop => bank_handle_stop b
  end.

(** *** The ledger *)

(** How an [i32] shows a balance of the ledger. *)
Definition shown (z : Z) : Z := if checks then z else wrap32 z.

(** What the bank promises, in unbounded integers: the balances after a
    message, and the answer to it. An account is opened at 0; a deposit adds;
    a withdrawal of at most the balance shown subtracts; nothing else changes
    a balance. *)
Definition ledger_after (l : gmap string Z) (m : BankMsg) : gmap string Z :=
  match m with
  | NewAccount who => match l !! who with Some _ => l | None => <[who := 0%Z]> l end
  | Deposit who amount => alter (λ b, b + amount)%Z who l
  | Withdraw who amount => alter (λ b, if decide (amount ≤ shown b) then b - amount else b)%Z who l
  | Stop => l
  end.
Definition ledger (ms : list BankMsg) : gmap string Z := foldl ledger_after {["main" := 1000%Z]} ms.
Definition promised (l : gmap string Z) (m : BankMsg) : MsgResult :=
  match m with
  | NewAccount who => match l !! who with Some _ => Err (AlreadyACustomer who) | None => Ok (Welcome who) end
  | Deposit who amount =>
      match l !! who with
      | Some b => Ok (Balance who (shown (b + amount)))
      | None => Err (NotACustomer who)
      end
  | Withdraw who amount =>
      match l !! who with
      | Some b => if decide (amount ≤ shown b)%Z then Ok (WithdrawOk who (shown (b - amount)))
                  else Err (InsufficientBalance who (shown b))
      | None => Err (NotACustomer who)
      end
  | Stop => Ok Stopped
  end.

Lemma wrap32_add a b : wrap32 (wrap32 a + b) = wrap32 (a + b).
Proof.
  unfold wrap32. f_equal. replace ((a + 2 ^ 31) mod 2 ^ 32 - 2 ^ 31 + b + 2 ^ 31)%Z
    with ((a + 2 ^ 31) mod 2 ^ 32 + b)%Z by lia.
  rewrite Zplus_mod_idemp_l. f_equal. lia.
Qed.
Lemma alter_at (l : gmap string Z) f who a : l !! who = Some a → alter f who l = <[who := f a]> l.
Proof.
  intros Hl. apply map_eq. intros k. rewrite lookup_alter, lookup_insert. case_decide as Hk; [|done]. subst.
  by rewrite Hl.
Qed.
Lemma alter_id_none (l : gmap string Z) f who : l !! who = None → alter f who l = l.
Proof.
  intros Hl. apply map_eq. intros k. rewrite lookup_alter. case_decide as Hk; [|done]. subst. by rewrite Hl.
Qed.
Lemma arith_shown a b n : i32_arith checks (shown a + b) = Some n → n = shown (a + b).
Proof.
  unfold i32_arith, shown. case_decide as Hw; destruct checks; intros [= <-]; [done|rewrite <- Hw|]; apply wrap32_add.
Qed.
Lemma shown_alter (l : gmap string Z) f who a :
  l !! who = Some a → <[who := shown (f a)]> (shown <$> l) = shown <$> alter f who l.
Proof.
  intros Hl. apply map_eq. intros k. rewrite lookup_fmap. destruct (decide (k = who)) as [->|Hk].
  - by rewrite lookup_insert_eq, lookup_alter_eq, Hl.
  - by rewrite lookup_insert_ne, lookup_alter_ne, lookup_fmap by done.
Qed.

Lemma bank_handle_promised m b v b' l :
  accounts b = shown <$> l → bank_handle m b = Some (v, b') →
  v = promised l m ∧ accounts b' = shown <$> ledger_after l m.
Proof.
  intros Hb. destruct m as [who|who amount|who amount|]; simpl; [..|by intros [= <- <-]];
    unfold handle_new_account, handle_deposit, handle_withdraw; rewrite Hb, lookup_fmap;
    destruct (l !! who) as [a|] eqn:Hl; cbn [fmap option_fmap option_map].
  - by intros [= <- <-].
  - intros [= <- <-]. split; [done|]. cbn [accounts]. rewrite fmap_insert. f_equal. unfold shown. by destruct checks.
  - destruct (i32_arith checks (shown a + amount)) as [n|] eqn:Hn; [|done]. intros [= <- <-]. cbn [accounts].
    rewrite (arith_shown _ _ _ Hn). split; [done|]. by apply (shown_alter l (λ b, b + amount)%Z).
  - intros [= <- <-]. split; [done|]. by rewrite alter_id_none.
  - case_decide as Hlt.
    + intros [= <- <-]. rewrite decide_False by lia. split; [done|]. rewrite (alter_at l _ who a) by done.
      rewrite decide_False by lia. by rewrite insert_id.
    + unfold Z.sub. destruct (i32_arith checks (shown a + - amount)) as [n|] eqn:Hn; [|done]. intros [= <- <-].
      cbn [accounts]. rewrite (arith_shown _ _ _ Hn). rewrite decide_True by lia. split; [done|].
      rewrite (alter_at l _ who a) by done. rewrite decide_True by lia. by rewrite fmap_insert.
  - intros [= <- <-]. split; [done|]. by rewrite alter_id_none.
Qed.

Lemma accounts_shown h b :
  lin bank_handle (λ _ _, False) (bank_started bank_new) h b → accounts b = shown <$> ledger (en_msg <$> h).
Proof.
  induction 1 as [| |h b k m v b' _ IH Hs]; [|done|].
  - unfold shown. by destruct checks.
  - rewrite fmap_app. unfold ledger. rewrite foldl_app. by apply (bank_handle_promised m b v b').
Qed.

(** C23: The bank answers every client as its ledger says, whatever the others
    do meanwhile. Let clients ask the bank in any order, let [m] be accepted,
    and let a later look at its response find the reply [v]. Then [m] was
    handled once, after the call, and [v] is what the bank promises on the
    balances that the messages handled before [m] lead to, computed from those
    messages alone and in unbounded integers: a withdrawal is granted exactly
    when it is at most the balance, and answered with the balance less the
    amount; a refused one changes nothing; a deposit is answered with the sum;
    an account is opened once. With overflow checks the balances are the
    ledger's; without, they are its [i32] wrap-arounds. *)
Theorem bank_answers_from_ledger `{ThisNode} limits me n p x m k r1 y v :
  nsteps (sstep limits me bank_handle (λ _ _, False)) n (mkServer rs_new (Some (bank_started bank_new)) []) x →
  (N.of_nat (n + p + 1) < 2 ^ 64 - 2)%N →
  request_raw limits me m (ss_req x) = Some (Ok k, r1) →
  nsteps (sstep limits me bank_handle (λ _ _, False)) p (mkServer r1 (ss_state x) (ss_log x)) y →
  poll_reply false k (ss_req y) = Some (Ok v) →
  ∃ h1 b h2, ss_log y = ss_log x ++ h1 ++ mkEntry (Some k) m b v :: h2 ∧
    v = promised (ledger (en_msg <$> ss_log x ++ h1)) m.
Proof.
  intros Hx Hn Hk Hy Hv.
  destruct (answered_by limits me _ _ n p x m k r1 y v Hx Hn Hk Hy Hv) as (h1 & b & h2 & Hl & Hlin & Hs).
  exists h1, b, h2. split; [done|]. destruct (bank_handle m b) as [[v' b']|] eqn:Hb; [|done]. injection Hs as <-.
  by apply (bank_handle_promised m b v' b' _ (accounts_shown _ _ Hlin)).
Qed.

Definition nonneg (m : BankMsg) : Prop := match m with Deposit _ a => (0 ≤ a)%Z | _ => True end.

(** While all deposits are of amounts that are not negative, no account is
    overdrawn in a build with overflow checks. *)
Theorem never_overdrawn h b :
  lin bank_handle (λ _ _, False) (bank_started bank_new) h b →
  Forall (λ en, nonneg (en_msg en)) h → checks = true → ∀ who a, accounts b !! who = Some a → (0 ≤ a)%Z.
Proof.
  intros Hl Hh Hc. induction Hl as [| |h b k m v b' _ IH Hok]; [|done|].
  - simpl. intros who a [[_ <-]|[_ ?]]%lookup_insert_Some; [lia|done].
  - apply Forall_app in Hh as [Hh [Hm _]%Forall_cons]. specialize (IH Hh).
    simpl in Hm. destruct m as [who|who amount|who amount|]; simpl in Hok, Hm; [..|unfold bank_handle_stop in Hok; by simplify_eq/=];
      unfold handle_new_account, handle_deposit, handle_withdraw in Hok;
      destruct (accounts b !! who) as [a|] eqn:Ha; try (simplify_eq/=; done).
    + simplify_eq/=. intros w a [[_ <-]|[_ ?]]%lookup_insert_Some; [lia|by eapply IH].
    + unfold i32_arith in Hok. specialize (IH who a Ha) as Ha0. case_decide; simplify_eq/=.
      intros w z [[_ <-]|[_ ?]]%lookup_insert_Some; [lia|by eapply IH].
    + unfold i32_arith in Hok. case_decide; [simplify_eq/=; done|]. case_decide; simplify_eq/=.
      intros w z [[_ <-]|[_ ?]]%lookup_insert_Some; [lia|by eapply IH].
Qed.

(** A deposit of a negative amount is not refused, and overdraws. *)
Theorem negative_deposit_overdraws :
  fst <$> bank_handle (Deposit "main" (-2000)) (bank_started bank_new) = Some (Ok (Balance "main" (-1000))).
Proof. by destruct checks. Qed.
End handlers.

(** The calls of [main], each made when the one before has been answered, and
    the replies it asserts. *)
Definition bank_main : list (BankMsg * MsgResult) :=
  [(Withdraw "main" 15, Ok (WithdrawOk "main" 985));
   (Deposit "Joe" 10, Err (NotACustomer "Joe"));
   (NewAccount "Joe", Ok (Welcome "Joe"));
   (Deposit "Joe" 10, Ok (Balance "Joe" 10));
   (Deposit "Joe" 30, Ok (Balance "Joe" 40));
   (Withdraw "Joe" 15, Ok (WithdrawOk "Joe" 25));
   (Withdraw "Joe" 45, Err (InsufficientBalance "Joe" 25));
   (Withdraw "Joe" 25, Ok (WithdrawOk "Joe" 0));
   (Stop, Ok Stopped)]%Z.
Fixpoint calls (checks : bool) (ms : list BankMsg) (b : Bank) : option (list MsgResult * Bank) :=
  match ms with
  | [] => Some ([], b)
  | m :: ms => '(v, b) ← bank_handle checks m b; '(vs, b) ← calls checks ms b; Some (v :: vs, b)
  end.
Example bank_main_asserts checks :
  fst <$> calls checks bank_main.*1 (bank_started bank_new) = Some bank_main.*2.
Proof. by destruct checks. Qed.
End Bank.

(** ** Key-value servers *)

(** What a log has stored last under a key, where [stores] is what a message
    stores. *)
Section latest.
Context {Msg R : Type} (stores : Msg → option (string * string)).

Definition latest (key : string) (h : list (Entry Msg R (gmap string string))) : option string :=
  foldl (λ last en, match stores (en_msg en) with
                    | Some (k, v) => if decide (k = key) then Some v else last
                    | None => last
                    end) None h.

Context (handle : Msg → gmap string string → R * gmap string string).
Definition total (m : Msg) (s : gmap string string) : option (R * gmap string string) := Some (handle m s).
Hypothesis handle_stores : ∀ m s,
  snd (handle m s) = match stores m with Some (k, v) => <[k := v]> s | None => s end.

Lemma holds_latest h s key :
  lin total (λ _ _, False) ∅ h s → s !! key = latest key h.
Proof.
  induction 1 as [| |h s k m v s' _ IH Hs]; [done|done|]. injection Hs as Hs. unfold latest. rewrite foldl_snoc. cbn [en_msg].
  pose proof (handle_stores m s) as Hst. rewrite Hs in Hst. simpl in Hst. subst s'.
  destruct (stores m) as [[k' v']|]; [|done]. case_decide; subst; [by rewrite lookup_insert_eq|by rewrite lookup_insert_ne].
Qed.
End latest.

Module NameServer.
Inductive FindResult := Found (value : string) | NotFound.
Inductive NameServerMsg := Add (key value : string) | Find (key : string).
Inductive NameServerReply := RAdd | RFind (r : FindResult).
Abbreviation NameServer := (gmap string string).
Definition name_server_new : NameServer := ∅.
Definition handle_add (key value : string) (s : NameServer) : NameServer := <[key := value]> s.
Definition handle_find (key : string) (s : NameServer) : FindResult :=
  match s !! key with Some value => Found value | None => NotFound end.
Definition ns_handle (m : NameServerMsg) (s : NameServer) : NameServerReply * NameServer :=
  match m with
  | Add key value => (RAdd, handle_add key value s)
  | Find key => (RFind (handle_find key s), s)
  end.
Definition ns_stores (m : NameServerMsg) : option (string * string) :=
  match m with Add key value => Some (key, value) | Find _ => None end.

(** A [find] is answered with what was added last under the key when it was
    handled, or [NotFound] if nothing was. *)
Theorem find_latest `{ThisNode} limits me n p x key k r1 y v :
  nsteps (sstep limits me (total ns_handle) (λ _ _, False)) n (mkServer rs_new (Some name_server_new) []) x →
  (N.of_nat (n + p + 1) < 2 ^ 64 - 2)%N →
  request_raw limits me (Find key) (ss_req x) = Some (Ok k, r1) →
  nsteps (sstep limits me (total ns_handle) (λ _ _, False)) p (mkServer r1 (ss_state x) (ss_log x)) y →
  poll_reply false k (ss_req y) = Some (Ok v) →
  ∃ h1 h2, ss_log y = ss_log x ++ h1 ++ h2 ∧
    v = RFind (match latest ns_stores key (ss_log x ++ h1) with Some value => Found value | None => NotFound end).
Proof.
  intros Hx Hn Hk Hy Hv.
  destruct (answered_by limits me _ _ n p x _ k r1 y v Hx Hn Hk Hy Hv) as (h1 & s & h2 & Hl & Hlin & [= <-]).
  exists h1, (mkEntry (Some k) (Find key) s (fst (ns_handle (Find key) s)) :: h2). split; [done|]. simpl. unfold handle_find.
  by rewrite <- (holds_latest ns_stores ns_handle ltac:(by intros []) _ s key Hlin).
Qed.
End NameServer.

Module ServiceRegistry.
Inductive ServiceRegistryMsg := RegisterService (name address : string) | Lookup (name : string) | ListAll.
Inductive ServiceRegistryReply := RRegister | RLookup (r : option string) | RListAll (r : list (string * string)).
Abbreviation ServiceRegistry := (gmap string string).
Definition service_registry_new : ServiceRegistry := ∅.
Definition handle_register_service (name address : string) (s : ServiceRegistry) : ServiceRegistry := <[name := address]> s.
Definition handle_lookup (name : string) (s : ServiceRegistry) : option string := s !! name.
(** In the iteration order of the map. *)
Definition handle_list_all (s : ServiceRegistry) : list (string * string) := map_to_list s.
Definition sr_handle (m : ServiceRegistryMsg) (s : ServiceRegistry) : ServiceRegistryReply * ServiceRegistry :=
  match m with
  | RegisterService name address => (RRegister, handle_register_service name address s)
  | Lookup name => (RLookup (handle_lookup name s), s)
  | ListAll => (RListAll (handle_list_all s), s)
  end.
Definition sr_stores (m : ServiceRegistryMsg) : option (string * string) :=
  match m with RegisterService name address => Some (name, address) | _ => None end.

(** A [lookup] is answered with the address the service was registered with
    last when it was handled; [list_all] with every service once, each with
    that address. *)
Theorem services_latest `{ThisNode} limits me n p x m k r1 y v :
  nsteps (sstep limits me (total sr_handle) (λ _ _, False)) n (mkServer rs_new (Some service_registry_new) []) x →
  (N.of_nat (n + p + 1) < 2 ^ 64 - 2)%N →
  request_raw limits me m (ss_req x) = Some (Ok k, r1) →
  nsteps (sstep limits me (total sr_handle) (λ _ _, False)) p (mkServer r1 (ss_state x) (ss_log x)) y →
  poll_reply false k (ss_req y) = Some (Ok v) →
  ∃ h1 h2, ss_log y = ss_log x ++ h1 ++ h2 ∧
    match m, v with
    | RegisterService _ _, RRegister => True
    | Lookup name, RLookup r => r = latest sr_stores name (ss_log x ++ h1)
    | ListAll, RListAll l => NoDup l.*1 ∧
        ∀ name address, (name, address) ∈ l ↔ latest sr_stores name (ss_log x ++ h1) = Some address
    | _, _ => False
    end.
Proof.
  intros Hx Hn Hk Hy Hv.
  destruct (answered_by limits me _ _ n p x _ k r1 y v Hx Hn Hk Hy Hv) as (h1 & s & h2 & Hl & Hlin & [= <-]).
  eexists h1, _. split; [done|].
  assert (∀ m s, snd (sr_handle m s) = match sr_stores m with Some (k, v) => <[k := v]> s | None => s end) as Hst by (by intros []).
  pose proof (λ name, holds_latest sr_stores sr_handle Hst _ s name Hlin) as Hh.
  destruct m as [|name|]; simpl; [done|apply Hh|]. split; [apply NoDup_fst_map_to_list|].
  intros name address. unfold handle_list_all. by rewrite elem_of_map_to_list, Hh.
Qed.
End ServiceRegistry.

(** ** Runs *)

Section runs.
#[local] Instance here : ThisNode := nodeA.
Context {Msg R D : Type} (handle : Msg → D → option (R * D)) (idle_reply : R).
Abbreviation Sys := (ReqSys Msg R) (only parsing).

(** The server is actor 1; a client asks [m], and the server handles it. *)
Definition up : Sys := default rs_new (rrun unlimited [RWorld (LSpawn Tasks); RActor (from_raw 1) CbReturned idle_reply] rs_new).
Definition asked (m : Msg) (r : Sys) : Sys := from_option snd rs_new (request_raw unlimited (from_raw 1) m r).
Definition took (r : Sys) : Sys := default rs_new (rstep unlimited (RActor (from_raw 1) CbReturned idle_reply) r).
Definition gave (v : R) (r : Sys) : Sys := default rs_new (rstep unlimited (RActor (from_raw 1) CbReturned v) r).
Definition replied (m : Msg) (v : R) : Sys := gave v (took (asked m up)).

Lemma up_run d : nsteps (sstep unlimited (from_raw 1) handle (λ _ _, False)) 2 (mkServer rs_new d []) (mkServer up d []).
Proof.
  eapply nsteps_l.
  - apply (st_other _ _ _ _ (RWorld (LSpawn Tasks)) _ (default rs_new (rrun unlimited [RWorld (LSpawn Tasks)] rs_new)));
      vm_compute; reflexivity.
  - apply nsteps_once. apply (st_loop _ _ _ _ CbReturned idle_reply); vm_compute; reflexivity.
Qed.
Lemma asked_up m : request_raw unlimited (from_raw 1) m up = Some (Ok 0%N, asked m up).
Proof. vm_compute. reflexivity. Qed.
Lemma server_replied_run m d v d' :
  handle m d = Some (v, d') →
  nsteps (sstep unlimited (from_raw 1) handle (λ _ _, False)) 2 (mkServer (asked m up) (Some d) [])
    (mkServer (replied m v) (Some d') ([] ++ [mkEntry (Some 0%N) m d v])).
Proof.
  intros Hh. eapply nsteps_l.
  - apply (st_loop _ _ _ _ CbReturned idle_reply _ (took (asked m up))); vm_compute; reflexivity.
  - apply nsteps_once.
    apply (st_handle _ _ _ _ (Requests.mkEnvelope m (Some 0%N)) v (took (asked m up)) (replied m v) d d').
    + vm_compute. reflexivity.
    + exact Hh.
    + vm_compute. reflexivity.
Qed.
Lemma replied_poll m v : poll_reply false 0 (replied m v) = Some (Ok v).
Proof. vm_compute. reflexivity. Qed.
End runs.

Module Bank_runs.
Import Bank.
#[local] Existing Instance here.

Definition spend : BankMsg := Withdraw "main" 15.
Definition spent : Bank := mkBank {["main" := 985%Z]} false.
Definition granted : MsgResult := Ok (WithdrawOk "main" 985).
Lemma bank_answers_from_ledger_witness :
  ∃ h1 b h2, [mkEntry (Some 0%N) spend (bank_started bank_new) granted] =
      h1 ++ mkEntry (Some 0%N) spend b granted :: h2 ∧
    granted = promised true (ledger true (en_msg <$> h1)) spend.
Proof.
  destruct (bank_answers_from_ledger true unlimited (from_raw 1) 2 2 (mkServer (up (Ok Stopped)) (Some (bank_started bank_new)) [])
    spend 0%N (asked spend (up (Ok Stopped)))
    (mkServer (replied (Ok Stopped) spend granted) (Some spent)
       ([] ++ [mkEntry (Some 0%N) spend (bank_started bank_new) granted]))
    granted) as (h1 & b & h2 & Hl & Ha).
  - apply up_run.
  - reflexivity.
  - apply asked_up.
  - apply (server_replied_run (bank_handle true)). reflexivity.
  - apply replied_poll.
  - exists h1, b, h2. split; [exact Hl|exact Ha].
Defined.

(** A withdrawal that overflows an [i32] ends the bank in a build with checks:
    the client is told that the actor has stopped. *)
Example overflow_ends_bank :
  nsteps (sstep unlimited (from_raw 1) (bank_handle true) (λ _ _, False)) 2
    (mkServer (asked (Withdraw "main" (- 2 ^ 31)) (up (Ok Stopped))) (Some (bank_started bank_new)) [])
    (mkServer (default rs_new (rstep unlimited (RActor (from_raw 1) (CbPanicked "overflow") (Ok Stopped))
       (took (Ok Stopped) (asked (Withdraw "main" (- 2 ^ 31)) (up (Ok Stopped)))))) None []).
Proof.
  eapply nsteps_l.
  - apply (st_loop _ _ _ _ CbReturned (Ok Stopped) _
      (took (Ok Stopped) (asked (Withdraw "main" (- 2 ^ 31)) (up (Ok Stopped))))); vm_compute; reflexivity.
  - apply nsteps_once. eapply (st_panic _ _ _ _ (Requests.mkEnvelope (Withdraw "main" (- 2 ^ 31)) (Some 0%N)) "overflow" (Ok Stopped));
      vm_compute; reflexivity.
Qed.

Lemma never_overdrawn_witness : accounts spent !! "main" = Some 985%Z ∧ (0 ≤ 985)%Z.
Proof.
  split; [reflexivity|].
  apply (never_overdrawn true [mkEntry None spend (bank_started bank_new) (Ok (WithdrawOk "main" 985))] spent) with (who := "main").
  - apply (lin_handle _ _ _ [] (bank_started bank_new)); [constructor|reflexivity].
  - repeat constructor.
  - reflexivity.
  - reflexivity.
Defined.
End Bank_runs.

Module Store_runs.
#[local] Existing Instance here.

Lemma find_latest_witness :
  ∃ h1 h2, [mkEntry (Some 0%N) (NameServer.Find "Bob") ∅ (NameServer.RFind NameServer.NotFound)] = h1 ++ h2 ∧
    NameServer.RFind NameServer.NotFound = NameServer.RFind
      (match latest NameServer.ns_stores "Bob" h1 with Some v => NameServer.Found v | None => NameServer.NotFound end).
Proof.
  destruct (NameServer.find_latest unlimited (from_raw 1) 2 2 (mkServer (up NameServer.RAdd) (Some NameServer.name_server_new) [])
    "Bob" 0%N (asked (NameServer.Find "Bob") (up NameServer.RAdd))
    (mkServer (replied NameServer.RAdd (NameServer.Find "Bob") (NameServer.RFind NameServer.NotFound)) (Some ∅)
       ([] ++ [mkEntry (Some 0%N) (NameServer.Find "Bob") ∅ (NameServer.RFind NameServer.NotFound)]))
    (NameServer.RFind NameServer.NotFound)) as (h1 & h2 & Hl & Hv).
  - apply up_run.
  - reflexivity.
  - apply asked_up.
  - apply server_replied_run. reflexivity.
  - apply replied_poll.
  - exists h1, h2. split; [exact Hl|exact Hv].
Defined.

Lemma services_latest_witness :
  ∃ h1 h2 : list (Entry ServiceRegistry.ServiceRegistryMsg ServiceRegistry.ServiceRegistryReply (gmap string string)),
    [mkEntry (Some 0%N) (ServiceRegistry.Lookup "web") ∅ (ServiceRegistry.RLookup None)] = h1 ++ h2 ∧
    None = latest ServiceRegistry.sr_stores "web" h1.
Proof.
  destruct (ServiceRegistry.services_latest unlimited (from_raw 1) 2 2
    (mkServer (up ServiceRegistry.RRegister) (Some ServiceRegistry.service_registry_new) [])
    (ServiceRegistry.Lookup "web") 0%N (asked (ServiceRegistry.Lookup "web") (up ServiceRegistry.RRegister))
    (mkServer (replied ServiceRegistry.RRegister (ServiceRegistry.Lookup "web") (ServiceRegistry.RLookup None)) (Some ∅)
       ([] ++ [mkEntry (Some 0%N) (ServiceRegistry.Lookup "web") ∅ (ServiceRegistry.RLookup None)]))
    (ServiceRegistry.RLookup None)) as (h1 & h2 & Hl & Hv).
  - apply up_run.
  - reflexivity.
  - apply asked_up.
  - apply server_replied_run. reflexivity.
  - apply replied_poll.
  - exists h1, h2. split; [exact Hl|exact Hv].
Defined.
End Store_runs.
