(* ===== verification/ExampleChats.v ===== *)
(** * The conversations of [examples/]

    Actors that send to each other: [examples/chat_room] and
    [examples/ping_pong], whose texts for the two runtimes differ only in
    [async] and in what [main] sleeps. Their mailboxes are unbounded and their
    actors do not stop before [main] returns, so a run takes, again and again,
    the first message of some actor and handles it; a message sent is appended
    to its receiver's mailbox ([Mailbox], [Requests]).

    In a chat room every user hears each message said after he joined once,
    in the order of the room; in ping-pong there is always exactly one ball. *)

From stdpp Require Import functions.
From S2P Require Import Prelude.

(** ** Actors that send to each other *)

Section mesh.
Context {Id Msg R St : Type} `{EqDecision Id}.
(** What an actor makes of a message: its reply, the new state, its sends. *)
Context (handle : Id → Msg → St → R * St * list (Id * Msg)).

Record Mesh := mkMesh { ms_state : St; ms_inbox : Id → list Msg; ms_log : list (Id * Msg * R) }.

Definition post (inbox : Id → list Msg) (im : Id * Msg) : Id → list Msg := <[im.1 := inbox im.1 ++ [im.2]]> inbox.
Inductive MeshLabel := Post (i : Id) (m : Msg) | Handle (i : Id).

Definition mesh_step (l : MeshLabel) (s : Mesh) : option Mesh :=
  match l with
  | Post i m => Some (mkMesh (ms_state s) (post (ms_inbox s) (i, m)) (ms_log s))
  | Handle i =>
      match ms_inbox s i with
      | [] => None
      | m :: ms =>
          let '(v, st, out) := handle i m (ms_state s) in
          Some (mkMesh st (foldl post (<[i := ms]> (ms_inbox s)) out) (ms_log s ++ [(i, m, v)]))
      end
  end.
Fixpoint mesh_run (ls : list MeshLabel) (s : Mesh) : option Mesh :=
  match ls with [] => Some s | l :: ls => s ← mesh_step l s; mesh_run ls s end.
Definition mesh_new (st : St) : Mesh := mkMesh st (λ _, []) [].

(** The messages of [i], handled or waiting, in the order they came. *)
Definition handled (i : Id) (l : list (Id * Msg * R)) : list Msg :=
  omap (λ '(j, m, _), if decide (j = i) then Some m else None) l.
Definition got (i : Id) (s : Mesh) : list Msg := handled i (ms_log s) ++ ms_inbox s i.
(** What is sent to [i]. *)
Definition sent (i : Id) (out : list (Id * Msg)) : list Msg :=
  omap (λ '(j, m), if decide (j = i) then Some m else None) out.
Definition sends (l : MeshLabel) (s : Mesh) : list (Id * Msg) :=
  match l with
  | Post i m => [(i, m)]
  | Handle i => match ms_inbox s i with [] => [] | m :: _ => snd (handle i m (ms_state s)) end
  end.

Lemma post_all i inbox out : foldl post inbox out i = inbox i ++ sent i out.
Proof.
  revert inbox. induction out as [|[j m] out IH]; intros inbox; [by rewrite app_nil_r|]. simpl. rewrite IH. unfold post. simpl.
  destruct (decide (j = i)) as [->|Hj]; [by rewrite fn_lookup_insert, <- app_assoc|by rewrite fn_lookup_insert_ne].
Qed.

(** Messages are neither lost nor overtaken. *)
Lemma got_step l s s' i : mesh_step l s = Some s' → got i s' = got i s ++ sent i (sends l s).
Proof.
  destruct l as [j m|j]; simpl.
  - intros [= <-]. unfold got. cbn [ms_log ms_inbox].
    change (post (ms_inbox s) (j, m) i) with (foldl post (ms_inbox s) [(j, m)] i). by rewrite post_all, app_assoc.
  - destruct (ms_inbox s j) as [|m ms] eqn:Hj; [done|]. destruct (handle j m (ms_state s)) as [[v st] out]. intros [= <-].
    unfold got. simpl. rewrite post_all. unfold handled. rewrite omap_app. simpl.
    destruct (decide (j = i)) as [->|Hn]; simpl.
    + by rewrite fn_lookup_insert, Hj, <- !app_assoc.
    + by rewrite fn_lookup_insert_ne, app_nil_r, app_assoc.
Qed.

Lemma mesh_run_app ls ls' s : mesh_run (ls ++ ls') s = (s' ← mesh_run ls s; mesh_run ls' s').
Proof. revert s. induction ls as [|l ls IH]; intros s; simpl; [done|]. destruct (mesh_step l s); [apply IH|done]. Qed.
Lemma mesh_run_snoc ls l s : mesh_run (ls ++ [l]) s = (s' ← mesh_run ls s; mesh_step l s').
Proof. rewrite mesh_run_app. destruct (mesh_run ls s) as [s'|]; simpl; [by destruct (mesh_step l s')|done]. Qed.
End mesh.
Arguments Mesh Id Msg R St : clear implicits.
Arguments MeshLabel Id Msg : clear implicits.

(** ** The chat room *)

Module Chat.
Inductive ActorOf := RoomOf (r : N) | UserOf (u : N).
#[global] Instance actor_of_eq : EqDecision ActorOf.
Proof. solve_decision. Defined.

(** The messages of [RoomProtocol] and of [UserProtocol]. *)
Inductive ChatMsg :=
| RoomSay (from text : string) | AddMember (name : string) (user : N) | Members
| Deliver (from text : string) | UserSay (text : string) | JoinRoom (room : N).

Record ChatRoom := mkRoom { members : list (string * N) }.
Record User := mkUser { name : string; room : option N }.
Record Chat := mkChat { rooms : N → ChatRoom; users : N → User }.

Definition chat_room_new : ChatRoom := mkRoom [].
Definition user_new (n : string) : User := mkUser n None.

(** The handlers of a room. *)
Definition room_handle_say (from text : string) (r : ChatRoom) : list (ActorOf * ChatMsg) :=
  (λ nu, (UserOf nu.2, Deliver from text)) <$> filter (λ nu, nu.1 ≠ from) (members r).
Definition handle_add_member (n : string) (user : N) (r : ChatRoom) : ChatRoom := mkRoom (members r ++ [(n, user)]).
Definition handle_members (r : ChatRoom) : list string := (members r).*1.

(** The handlers of a user; [me] is the user's own reference. *)
Definition user_handle_say (text : string) (u : User) : list (ActorOf * ChatMsg) :=
  match room u with Some r => [(RoomOf r, RoomSay (name u) text)] | None => [] end.
Definition handle_join_room (me r : N) (u : User) : User * list (ActorOf * ChatMsg) :=
  (mkUser (name u) (Some r), [(RoomOf r, AddMember (name u) me)]).

(** The reply is empty but for [members]. An actor handles the messages of
    its protocol only. *)
Definition chat_handle (i : ActorOf) (m : ChatMsg) (s : Chat) : list string * Chat * list (ActorOf * ChatMsg) :=
  match i, m with
  | RoomOf r, RoomSay from text => ([], s, room_handle_say from text (rooms s r))
  | RoomOf r, AddMember n user => ([], mkChat (<[r := handle_add_member n user (rooms s r)]> (rooms s)) (users s), [])
  | RoomOf r, Members => (handle_members (rooms s r), s, [])
  | UserOf u, Deliver _ _ => ([], s, [])
  | UserOf u, UserSay text => ([], s, user_handle_say text (users s u))
  | UserOf u, JoinRoom r =>
      let '(x, out) := handle_join_room u r (users s u) in ([], mkChat (rooms s) (<[u := x]> (users s)), out)
  | _, _ => ([], s, [])
  end.

Abbreviation entry := (ActorOf * ChatMsg * list string)%type.
Abbreviation chat := (Mesh ActorOf ChatMsg (list string) Chat).
Definition chat_new (names : N → string) : chat := mesh_new (mkChat (λ _, chat_room_new) (λ u, user_new (names u))).

(** *** What a user hears *)

Definition deliveries (l : list ChatMsg) : list (string * string) :=
  omap (λ m, match m with Deliver f t => Some (f, t) | _ => None end) l.
(** The members that a log has added to a room. *)
Definition joined (r : N) (l : list entry) : list (string * N) :=
  omap (λ '(i, m, _), match i, m with
                      | RoomOf r', AddMember n u => if decide (r' = r) then Some (n, u) else None
                      | _, _ => None
                      end) l.
(** How often [u] is a member under a name other than [f]. *)
Definition ears (u : N) (f : string) (ms : list (string * N)) : nat :=
  length (filter (λ nu, nu.1 ≠ f ∧ nu.2 = u) ms).
(** What [u] should hear of the messages of [l], [pre] being handled before. *)
Fixpoint heard (u : N) (pre l : list entry) : list (string * string) :=
  match l with
  | [] => []
  | e :: l =>
      match e with
      | (RoomOf r, RoomSay f t, _) => replicate (ears u f (joined r pre)) (f, t)
      | _ => []
      end ++ heard u (pre ++ [e]) l
  end.

Lemma heard_snoc u pre l e :
  heard u pre (l ++ [e]) = heard u pre l ++ heard u (pre ++ l) [e].
Proof.
  revert pre. induction l as [|x l IH]; intros pre; cbn [app]; [by rewrite (app_nil_r pre)|].
  cbn [heard]. rewrite IH, app_assoc, <- (app_assoc pre [x] l). done.
Qed.
Lemma said_deliveries u f t r :
  deliveries (sent (UserOf u) (room_handle_say f t r)) = replicate (ears u f (members r)) (f, t).
Proof.
  unfold room_handle_say, ears. induction (members r) as [|[n v] ms IH]; [done|].
  destruct (decide (n ≠ f ∧ v = u)) as [[Hn ->]|Hx].
  - rewrite !filter_cons_True by done. simpl. rewrite decide_True by done. simpl. f_equal. apply IH.
  - rewrite (filter_cons_False (λ nu : string * N, nu.1 ≠ f ∧ nu.2 = u) (n, v) ms Hx). destruct (decide (n = f)) as [->|Hn].
    + rewrite filter_cons_False by (simpl; tauto). apply IH.
    + rewrite filter_cons_True by done. simpl. rewrite decide_False by naive_solver. apply IH.
Qed.

(** The outside world asks users and rooms, but delivers nothing itself. *)
Definition outside (l : MeshLabel ActorOf ChatMsg) : Prop :=
  match l with Post _ (Deliver _ _) => False | _ => True end.

Record chat_inv (s : chat) : Prop := {
  ci_members r : members (rooms (ms_state s) r) = joined r (ms_log s);
  ci_heard u : deliveries (got (UserOf u) s) = heard u [] (ms_log s)
}.

Lemma joined_snoc r l e : joined r (l ++ [e]) = joined r l ++ joined r [e].
Proof. apply omap_app. Qed.

Lemma members_step i m st r pre v :
  members (rooms st r) = joined r pre →
  members (rooms (snd (fst (chat_handle i m st))) r) = joined r (pre ++ [(i, m, v)]).
Proof.
  intros Hm. rewrite joined_snoc. unfold joined at 2. cbn [omap list_omap].
  destruct i as [r'|u], m; simpl; rewrite ?app_nil_r; try done.
  destruct (decide (r' = r)) as [->|Hr]; [by rewrite fn_lookup_insert; simpl; rewrite Hm|].
  by rewrite fn_lookup_insert_ne, app_nil_r.
Qed.
Lemma heard_step i m st u pre v :
  (∀ r, members (rooms st r) = joined r pre) →
  deliveries (sent (UserOf u) (snd (chat_handle i m st))) = heard u pre [(i, m, v)].
Proof.
  intros Hm. cbn [heard]. rewrite app_nil_r. destruct i as [r|w], m; simpl; try done.
  - by rewrite said_deliveries, Hm.
  - unfold user_handle_say. by destruct (room _).
Qed.

Lemma chat_inv_step l s s' : outside l → mesh_step chat_handle l s = Some s' → chat_inv s → chat_inv s'.
Proof.
  intros Ho Hs [Hm Hh]. pose proof (got_step chat_handle l s s') as Hg.
  destruct l as [i m|i]; simpl in Hs, Hg.
  - specialize (λ j, Hg j Hs). simplify_eq/=. split; simpl; [done|]. intros u. rewrite Hg. unfold deliveries.
    rewrite omap_app. fold (deliveries (got (UserOf u) s)). rewrite Hh. simpl. case_decide; [|by rewrite app_nil_r].
    destruct m; simpl; by rewrite ?app_nil_r.
  - specialize (λ j, Hg j Hs). destruct (ms_inbox s i) as [|m ms]; [done|].
    pose proof (λ r, members_step i m (ms_state s) r (ms_log s) (fst (fst (chat_handle i m (ms_state s)))) (Hm r)) as Hm'.
    pose proof (λ u, heard_step i m (ms_state s) u (ms_log s) (fst (fst (chat_handle i m (ms_state s)))) Hm) as Hh'.
    destruct (chat_handle i m (ms_state s)) as [[v st] out]. simplify_eq/=. split; simpl; [exact Hm'|].
    intros u. rewrite Hg. unfold deliveries. rewrite omap_app. fold (deliveries (got (UserOf u) s)). rewrite Hh.
    rewrite (heard_snoc u []). f_equal. apply Hh'.
Qed.

(** Every user of a chat room hears exactly what was said. However the
    actors take turns, and whatever users are asked to say or join, the
    deliveries that have reached a user are, in the order in which his rooms
    handled them, all the messages of other speakers said after the user was
    added, once for each time he was added under another name than the
    speaker's; and a room's members are those added to it, in order. *)
Theorem room_order_heard names ls s :
  mesh_run chat_handle ls (chat_new names) = Some s → Forall outside ls →
  (∀ u, deliveries (got (UserOf u) s) = heard u [] (ms_log s)) ∧
  ∀ r, handle_members (rooms (ms_state s) r) = (joined r (ms_log s)).*1.
Proof.
  intros Hr Ho. assert (chat_inv s) as [Hm Hh].
  { revert s Hr. induction ls as [|l ls IH] using rev_ind; intros s Hr; [by simplify_eq/=|].
    apply Forall_app in Ho as [Ho [Hl _]%Forall_cons].
    rewrite mesh_run_snoc in Hr. apply bind_Some in Hr as (s1 & H1 & Hs). eapply chat_inv_step; eauto. }
  split; [done|]. intros r. unfold handle_members. by rewrite Hm.
Qed.

(** Two members of the same name do not hear each other: the room tells
    members apart by name only. *)
Theorem namesake_not_heard u f ms : Forall (λ nu, nu.2 = u → nu.1 = f) ms → ears u f ms = 0.
Proof.
  intros Hms. unfold ears. apply length_zero_iff_nil. induction Hms as [|[n v] ms Hn _ IH]; [done|].
  rewrite filter_cons_False; [done|]. simpl in *. naive_solver.
Qed.

(** [main]: two users join and speak. *)
Definition chat_names (u : N) : string := if decide (u = 1%N) then "Alice" else "Bob".
Definition chat_main : list (MeshLabel ActorOf ChatMsg) :=
  [Post (UserOf 1) (JoinRoom 0); Post (UserOf 2) (JoinRoom 0);
   Handle (UserOf 1); Handle (UserOf 2); Handle (RoomOf 0); Handle (RoomOf 0);
   Post (RoomOf 0) Members; Handle (RoomOf 0);
   Post (UserOf 1) (UserSay "Hello everyone!"); Post (UserOf 2) (UserSay "Hey Alice!");
   Handle (UserOf 1); Handle (UserOf 2); Handle (RoomOf 0); Handle (RoomOf 0)].
Lemma room_order_heard_witness :
  ∃ s, mesh_run chat_handle chat_main (chat_new chat_names) = Some s ∧
    deliveries (got (UserOf 2) s) = [("Alice", "Hello everyone!")] ∧
    handle_members (rooms (ms_state s) 0) = ["Alice"; "Bob"].
Proof.
  destruct (mesh_run chat_handle chat_main (chat_new chat_names)) as [s|] eqn:Hs.
  2: { apply (f_equal (λ o, bool_decide (is_Some o))) in Hs. vm_compute in Hs. discriminate. }
  destruct (room_order_heard chat_names chat_main s Hs ltac:(repeat constructor)) as [Hd Hm].
  exists s. split; [reflexivity|]. rewrite Hd, Hm. apply (f_equal (fmap (λ s, (heard 2 [] (ms_log s), (joined 0 (ms_log s)).*1)))) in Hs.
  vm_compute in Hs. injection Hs as H1 H2. split; [exact (eq_sym H1)|exact (eq_sym H2)].
Defined.
Lemma namesake_not_heard_witness : ears 2 "Bob" [("Bob", 1%N); ("Bob", 2%N)] = 0.
Proof. apply (namesake_not_heard 2 "Bob" [("Bob", 1%N); ("Bob", 2%N)]). repeat constructor. Defined.
End Chat.

(** ** Ping-pong *)

Module PingPong.
Inductive Player := TheProducer | TheConsumer.
#[global] Instance player_eq : EqDecision Player.
Proof. solve_decision. Defined.
Inductive PingMsg := SetConsumer | Ping | Pong.
#[global] Instance ping_msg_eq : EqDecision PingMsg.
Proof. solve_decision. Defined.
(** Whether the producer knows its consumer; the consumer is made with a
    reference to the producer. *)
Record Producer := mkProducer { consumer : bool }.

Definition handle_set_consumer (p : Producer) : Producer := mkProducer true.
Definition handle_pong (p : Producer) : list (Player * PingMsg) := if consumer p then [(TheConsumer, Ping)] else [].
Definition handle_ping : list (Player * PingMsg) := [(TheProducer, Pong)].
Definition ping_handle (i : Player) (m : PingMsg) (p : Producer) : () * Producer * list (Player * PingMsg) :=
  match i, m with
  | TheProducer, SetConsumer => ((), handle_set_consumer p, [])
  | TheProducer, Pong => ((), p, handle_pong p)
  | TheConsumer, Ping => ((), p, handle_ping)
  | _, _ => ((), p, [])
  end.
Definition ping_new : Mesh Player PingMsg () Producer := mesh_new (mkProducer false).

(** The pings and pongs under way. *)
Definition balls (s : Mesh Player PingMsg () Producer) : nat :=
  length (filter (λ m, m ≠ SetConsumer) (ms_inbox s TheProducer ++ ms_inbox s TheConsumer)).

(** The states of the game once it has begun, and before. *)
Definition rally (s : Mesh Player PingMsg () Producer) : Prop :=
  let p := ms_inbox s TheProducer in let c := ms_inbox s TheConsumer in
  match consumer (ms_state s) with
  | true => (p = [Pong] ∧ c = []) ∨ (p = [] ∧ c = [Ping])
  | false => (p = [SetConsumer; Pong] ∧ c = []) ∨ (p = [SetConsumer] ∧ c = [Ping])
  end.
Definition serve_ready (s : Mesh Player PingMsg () Producer) : Prop :=
  ms_inbox s TheConsumer = [] ∧
  ms_inbox s TheProducer = if consumer (ms_state s) then [] else [SetConsumer].

(** The mailboxes after the sends of a handler. *)
Ltac inboxes := unfold post; cbn; repeat (rewrite ?fn_lookup_insert || rewrite fn_lookup_insert_ne by done).

Lemma rally_step i s s' : mesh_step ping_handle (Handle i) s = Some s' → rally s → rally s'.
Proof.
  destruct s as [[[]] inbox log]; intros Hs [[Hp Hc]|[Hp Hc]]; destruct i; cbn in *; rewrite ?Hp, ?Hc in Hs; simplify_eq/=;
    unfold rally; cbn; inboxes; rewrite ?Hp, ?Hc; auto.
Qed.
Lemma ready_step i s s' : mesh_step ping_handle (Handle i) s = Some s' → serve_ready s → serve_ready s'.
Proof.
  destruct s as [[[]] inbox log]; intros Hs [Hc Hp]; destruct i; cbn in *; rewrite ?Hp, ?Hc in Hs; simplify_eq/=.
  split; cbn; by inboxes.
Qed.
Lemma rally_goes_on s : rally s → balls s = 1 ∧ ∃ i s', mesh_step ping_handle (Handle i) s = Some s'.
Proof.
  destruct s as [[[]] inbox log]; intros [[Hp Hc]|[Hp Hc]]; unfold balls; cbn in *; rewrite Hp, Hc; (split; [done|]);
    ((exists TheProducer; rewrite Hp; by eexists) || (exists TheConsumer; rewrite Hc; by eexists)).
Qed.
Lemma handles_keep (P : Mesh Player PingMsg () Producer → Prop) hs s s' :
  (∀ i s s', mesh_step ping_handle (Handle i) s = Some s' → P s → P s') →
  mesh_run ping_handle (Handle <$> hs) s = Some s' → P s → P s'.
Proof.
  intros HP. revert s. induction hs as [|i hs IH]; intros s Hr Hs; [by simplify_eq/=|].
  simpl in Hr. apply bind_Some in Hr as (s1 & H1 & Hr). eauto.
Qed.

Lemma begun hs1 hs2 s :
  mesh_run ping_handle ([Post TheProducer SetConsumer] ++ (Handle <$> hs1) ++ [Post TheConsumer Ping] ++ (Handle <$> hs2)) ping_new = Some s →
  rally s.
Proof.
  rewrite mesh_run_app. cbn [mesh_run mesh_step mbind option_bind]. rewrite mesh_run_app.
  intros (s1 & H1 & H2)%bind_Some. rewrite mesh_run_app in H2. cbn [mesh_run mesh_step mbind option_bind] in H2.
  apply (handles_keep serve_ready) in H1 as [Hc Hp]; [|apply ready_step|by split].
  eapply (handles_keep rally); [apply rally_step|exact H2|]. destruct s1 as [[[]] inbox log]; cbn in *;
    unfold rally; cbn; inboxes; rewrite Hc, Hp; auto.
Qed.
Lemma rally_for_ever n s : rally s → ∃ hs s', length hs = n ∧ mesh_run ping_handle (Handle <$> hs) s = Some s' ∧ rally s'.
Proof.
  revert s. induction n as [|n IH]; intros s Hs; [by exists [], s|].
  destruct (rally_goes_on s Hs) as (_ & i & s1 & H1). destruct (IH s1) as (hs & s' & <- & Hr & Hs'); [by eapply rally_step|].
  exists (i :: hs), s'. split; [done|]. split; [|done]. simpl fmap. cbn [mesh_run]. by rewrite H1.
Qed.

(** The game never ends and never has two balls: [main] tells the producer of
    its consumer and then sends the first ping; whatever the players handle
    before, between and after, exactly one ping or pong is under way, and the
    game can go on for any number of turns. *)
Theorem one_ball_for_ever hs1 hs2 s :
  mesh_run ping_handle ([Post TheProducer SetConsumer] ++ (Handle <$> hs1) ++ [Post TheConsumer Ping] ++ (Handle <$> hs2)) ping_new = Some s →
  balls s = 1 ∧ ∀ n, ∃ hs s', length hs = n ∧ mesh_run ping_handle (Handle <$> hs) s = Some s' ∧ balls s' = 1.
Proof.
  intros Hs%begun. split; [by apply rally_goes_on|]. intros n.
  destruct (rally_for_ever n s Hs) as (hs & s' & Hn & Hr & Hs'). exists hs, s'. by split_and!; [..|apply rally_goes_on].
Qed.
Lemma one_ball_for_ever_witness :
  ∃ s, mesh_run ping_handle [Post TheProducer SetConsumer; Post TheConsumer Ping; Handle TheConsumer] ping_new = Some s ∧ balls s = 1.
Proof.
  eexists. split; [reflexivity|]. apply (one_ball_for_ever [] [TheConsumer]). reflexivity.
Defined.

(** Were the ping sent first, the producer could lose the ball. *)
Example ping_first_loses_ball :
  balls <$> mesh_run ping_handle [Post TheConsumer Ping; Handle TheConsumer; Handle TheProducer; Post TheProducer SetConsumer] ping_new = Some 0.
Proof. reflexivity. Qed.
End PingPong.
