(* ===== verification/MacroNames.v ===== *)
(** * Names and types in the macros

    Model of the helpers of [macros/src/lib.rs] with which [#[protocol]] turns
    a trait into messages: the names of modules and structs
    ([to_snake_case], [to_pascal_case], [strip_protocol_suffix]), the reading
    of return types ([classify_return_type]), and [qualify_type_with_super],
    which makes the types of a signature meaningful in the generated module.

    Identifiers are ASCII. Syntax trees keep what the macros look at: a path
    has its segments with their arguments, and what the macros copy without
    looking at it (lifetimes, array lengths, other kinds of types) is a
    string. *)

From Stdlib Require Import Strings.Ascii.
From Stdlib Require Strings.String.
From S2P Require Import Prelude.

(** ** Characters *)

Definition in_range (a b : N) (c : ascii) : bool := bool_decide (a ≤ N_of_ascii c ∧ N_of_ascii c ≤ b)%N.
Definition is_uppercase : ascii → bool := in_range 65 90.
Definition is_lowercase : ascii → bool := in_range 97 122.
Definition to_ascii_lowercase (c : ascii) : ascii :=
  if is_uppercase c then ascii_of_N (N_of_ascii c + 32) else c.
Definition to_uppercase (c : ascii) : ascii :=
  if is_lowercase c then ascii_of_N (N_of_ascii c - 32) else c.
Definition underscore : ascii := "_"%char.

Definition chars (s : string) : list ascii := String.list_ascii_of_string s.
Definition of_chars (cs : list ascii) : string := String.string_of_list_ascii cs.

(** ** Names *)

(** [prev] is the character before [cs]. *)
Fixpoint snake_from (prev : option ascii) (cs : list ascii) : list ascii :=
  match cs with
  | [] => []
  | ch :: rest =>
      (if is_uppercase ch then
         (match prev with
          | Some p =>
              let prev_lower := is_lowercase p in
              let next_lower := match rest with c :: _ => is_lowercase c | [] => false end in
              if prev_lower || next_lower then [underscore] else []
          | None => []
          end) ++ [to_ascii_lowercase ch]
       else [ch]) ++ snake_from (Some ch) rest
  end.
Definition to_snake_case (s : string) : string := of_chars (snake_from None (chars s)).

(** [str::split('_')] *)
Fixpoint split_at (c : ascii) (cs : list ascii) : list (list ascii) :=
  match cs with
  | [] => [[]]
  | x :: rest =>
      if decide (x = c) then [] :: split_at c rest
      else match split_at c rest with
           | part :: parts => (x :: part) :: parts
           | [] => [[x]]
           end
  end.
Definition capitalize (part : list ascii) : list ascii :=
  match part with [] => [] | c :: cs => to_uppercase c :: cs end.
Definition to_pascal_case (s : string) : string :=
  of_chars (concat (capitalize <$> iter_filter (λ part, negb (bool_decide (part = []))) (split_at underscore (chars s)))).

(** [name.strip_suffix("Protocol").unwrap_or(name)] *)
Definition strip_suffix (suffix cs : list ascii) : option (list ascii) :=
  let n := length cs - length suffix in
  if decide (drop n cs = suffix) then Some (take n cs) else None.
Definition strip_protocol_suffix (name : string) : string :=
  of_chars (default (chars name) (strip_suffix (chars "Protocol") (chars name))).

(** [remote_id_from_type] *)
Definition remote_id_from_type (name : string) : string := "spawned." +:+ name +:+ "/v1".

(** ** Lemmas on characters *)

Lemma chars_of_chars cs : chars (of_chars cs) = cs.
Proof. apply String.list_ascii_of_string_of_list_ascii. Qed.
Lemma of_chars_chars s : of_chars (chars s) = s.
Proof. apply String.string_of_list_ascii_of_string. Qed.

(** What holds of all characters is checked for each of them. *)
Ltac all_ascii :=
  intros c; destruct c as [[] [] [] [] [] [] [] []]; vm_compute; intros; try discriminate; auto.
Lemma upper_not_lower c : is_uppercase c = true → is_lowercase c = false.
Proof. revert c. all_ascii. Qed.
Lemma to_uppercase_upper c : is_lowercase c = true → is_uppercase (to_uppercase c) = true.
Proof. revert c. all_ascii. Qed.
Lemma lowercase_uppercase c : is_lowercase c = true → to_ascii_lowercase (to_uppercase c) = c.
Proof. revert c. all_ascii. Qed.
Lemma lower_not_upper c : is_lowercase c = true → is_uppercase c = false.
Proof. revert c. all_ascii. Qed.
Lemma lower_not_underscore c : is_lowercase c = true → c ≠ underscore.
Proof. revert c. all_ascii. Qed.

(** ** Snake case and Pascal case *)

(** The words of a method's name: two lowercase letters, then anything that is
    neither uppercase nor an underscore. *)
Definition word (w : list ascii) : Prop :=
  match w with
  | c1 :: c2 :: rest => is_lowercase c1 = true ∧ is_lowercase c2 = true ∧
      Forall (λ c, is_uppercase c = false ∧ c ≠ underscore) rest
  | _ => False
  end.
#[global] Instance word_dec w : Decision (word w).
Proof. destruct w as [|c1 [|c2 rest]]; apply _. Defined.

Fixpoint join_words (ws : list (list ascii)) : list ascii :=
  match ws with
  | [] => []
  | [w] => w
  | w :: ws => w ++ underscore :: join_words ws
  end.
Definition snake_name (s : string) : Prop := ∃ ws, Forall word ws ∧ chars s = join_words ws.

Lemma word_plain w : word w → Forall (λ c, is_uppercase c = false ∧ c ≠ underscore) w.
Proof.
  destruct w as [|c1 [|c2 rest]]; [done|done|]. intros (H1 & H2 & Hr).
  constructor; [|constructor; [|done]]; by split; [apply lower_not_upper|apply lower_not_underscore].
Qed.
Lemma word_nonempty w : word w → w ≠ [].
Proof. by destruct w. Qed.

(** Splitting undoes joining. *)
Lemma split_at_plain w c : Forall (λ x, x ≠ c) w → split_at c w = [w].
Proof.
  induction 1 as [|x w Hx Hw IH]; [done|]. simpl. rewrite decide_False by done. by rewrite IH.
Qed.
Lemma split_at_app w c rest : Forall (λ x, x ≠ c) w → split_at c (w ++ c :: rest) = w :: split_at c rest.
Proof.
  induction 1 as [|x w Hx Hw IH]; simpl; [by rewrite decide_True|]. rewrite decide_False by done. by rewrite IH.
Qed.
Lemma split_join ws : ws ≠ [] → Forall word ws → split_at underscore (join_words ws) = ws.
Proof.
  intros Hne. induction 1 as [|w ws Hw Hws IH]; [done|]. 
  assert (Forall (λ x, x ≠ underscore) w) as Hp by (eapply Forall_impl; [by apply word_plain|by intros ? []]).
  destruct ws as [|w' ws]; [by apply split_at_plain|].
  change (join_words (w :: w' :: ws)) with (w ++ underscore :: join_words (w' :: ws)).
  rewrite split_at_app by done. by rewrite IH.
Qed.

Lemma pascal_words ws :
  Forall word ws → to_pascal_case (of_chars (join_words ws)) = of_chars (concat (capitalize <$> ws)).
Proof.
  intros Hws. unfold to_pascal_case. rewrite chars_of_chars. do 2 f_equal.
  destruct ws as [|w ws]; [done|]. rewrite split_join by done. f_equal.
  generalize dependent (w :: ws). intros l Hl. clear w ws. induction Hl as [|w l Hw Hl IH]; [done|].
  simpl. rewrite bool_decide_eq_false_2 by by apply word_nonempty. simpl. by rewrite IH.
Qed.

Lemma snake_cons prev ch rest :
  snake_from prev (ch :: rest) =
    (if is_uppercase ch then
       (match prev with
        | Some p => if is_lowercase p || match rest with c :: _ => is_lowercase c | [] => false end
                    then [underscore] else []
        | None => []
        end) ++ [to_ascii_lowercase ch]
     else [ch]) ++ snake_from (Some ch) rest.
Proof. done. Qed.

(** Snake case of one capitalized word; [next] is what follows. *)
Lemma snake_plain prev w rest :
  Forall (λ c, is_uppercase c = false ∧ c ≠ underscore) w →
  snake_from prev (w ++ rest) = w ++ snake_from (match last w with Some c => Some c | None => prev end) rest.
Proof.
  intros Hw. revert prev. induction Hw as [|c w [Hc _] Hw IH]; intros prev; [done|]. simpl. rewrite Hc. simpl.
  rewrite IH. f_equal. f_equal. destruct w as [|c' w]; [done|]. simpl. by destruct (last (c' :: w)) eqn:Hl; [|by apply last_None in Hl].
Qed.
Lemma snake_word prev w rest :
  word w →
  snake_from prev (capitalize w ++ rest) =
    (match prev with Some _ => [underscore] | None => [] end) ++ w ++ snake_from (last w) rest.
Proof.
  destruct w as [|c1 [|c2 w]]; [done|done|]. intros (H1 & H2 & Hw).
  assert (Forall (λ c, is_uppercase c = false ∧ c ≠ underscore) (c2 :: w)) as Hw2.
  { constructor; [|done]. by split; [apply lower_not_upper|apply lower_not_underscore]. }
  change (capitalize (c1 :: c2 :: w) ++ rest) with (to_uppercase c1 :: ((c2 :: w) ++ rest)).
  rewrite snake_cons, (to_uppercase_upper c1 H1), (lowercase_uppercase c1 H1), (snake_plain _ (c2 :: w)) by done.
  cbn [app].
  assert (last (c1 :: c2 :: w) = match last (c2 :: w) with Some c => Some c | None => Some (to_uppercase c1) end) as ->.
  { change (last (c1 :: c2 :: w)) with (last (c2 :: w)). destruct (last (c2 :: w)) eqn:Hl; [done|]. by apply last_None in Hl. }
  destruct prev as [p|]; [|done]. rewrite H2, orb_true_r. by rewrite <- app_assoc.
Qed.

Lemma snake_words ws prev :
  Forall word ws →
  snake_from prev (concat (capitalize <$> ws)) =
    match ws, prev with [], _ => [] | _, Some _ => underscore :: join_words ws | _, None => join_words ws end.
Proof.
  intros Hws. revert prev. induction Hws as [|w ws Hw Hws IH]; intros prev; [done|].
  cbn [fmap list_fmap concat]. rewrite snake_word by done. rewrite IH.
  assert (is_Some (last w)) as [l ->] by (destruct w; [done|by apply last_is_Some]).
  destruct ws as [|w' ws]; [rewrite app_nil_r|]; destruct prev; done.
Qed.

(** The name of a message gives back the name of its method: for methods
    named by words of at least two letters, separated by single underscores,
    [to_snake_case] undoes [to_pascal_case]. *)
Lemma snake_of_pascal s : snake_name s → to_snake_case (to_pascal_case s) = s.
Proof.
  intros (ws & Hws & Hs). rewrite <- (of_chars_chars s), Hs. rewrite pascal_words by done.
  unfold to_snake_case. rewrite chars_of_chars, snake_words by done. by destruct ws.
Qed.

(** Distinct methods get distinct messages. *)
Lemma pascal_inj s1 s2 :
  snake_name s1 → snake_name s2 → to_pascal_case s1 = to_pascal_case s2 → s1 = s2.
Proof.
  intros H1 H2 He. rewrite <- (snake_of_pascal s1 H1), <- (snake_of_pascal s2 H2). by rewrite He.
Qed.

(** ** Types *)

(** [syn::Type]. [TyOther] is every kind of type that the macro leaves as it
    is; a bound that is not a trait is [BOther]. *)
Inductive Ty :=
| TyPath (qself leading_colon : bool) (segments : list (string * PathArgs))
| TyReference (elem : Ty)
| TyTuple (elems : list Ty)
| TyArray (elem : Ty) (len : string)
| TySlice (elem : Ty)
| TyParen (elem : Ty)
| TyTraitObject (bounds : list Bound)
| TyImplTrait (bounds : list Bound)
| TyBareFn (inputs : list Ty) (output : option Ty)
| TyOther (text : string)
with PathArgs :=
| NoArgs
| AngleBracketed (args : list GenericArg)
| Parenthesized (inputs : list Ty) (output : option Ty)
with GenericArg := GType (ty : Ty) | GOther (text : string)
with Bound := BTrait (segments : list (string * PathArgs)) | BOther (text : string).

(** [ReturnType]: [None] is [ReturnType::Default]. *)
Definition ReturnType : Type := option Ty.

Definition is_unit_type (ty : Ty) : bool :=
  match ty with TyTuple elems => bool_decide (length elems = 0) | _ => false end.

(** The common part of [extract_response_inner] and [extract_result_inner]. *)
Definition extract_inner (name : string) (ty : Ty) : option Ty :=
  match ty with
  | TyPath _ _ segments =>
      match last segments with
      | Some (ident, AngleBracketed (GType inner :: _)) => if decide (ident = name) then Some inner else None
      | _ => None
      end
  | _ => None
  end.
Definition extract_response_inner : Ty → option Ty := extract_inner "Response".
Definition extract_result_inner : Ty → option Ty := extract_inner "Result".

Inductive MethodKind := Send | Request (ty : Ty).

Definition classify_return_type (ret : ReturnType) : Result MethodKind Ty :=
  match ret with
  | None => Ok Send
  | Some ty =>
      if is_unit_type ty then Ok Send
      else match extract_response_inner ty with
           | Some inner => Ok (Request inner)
           | None =>
               match extract_result_inner ty with
               | Some inner => if is_unit_type inner then Ok Send else Err ty
               | None => Err ty
               end
           end
  end.

Definition is_prelude_or_primitive (name : string) : bool :=
  bool_decide (name ∈ ["bool"; "char"; "str"; "i8"; "i16"; "i32"; "i64"; "i128"; "isize";
    "u8"; "u16"; "u32"; "u64"; "u128"; "usize"; "f32"; "f64";
    "Box"; "String"; "Vec"; "Option"; "Some"; "None"; "Result"; "Ok"; "Err"; "ToString"; "ToOwned"]).
Definition keeps_path (name : string) : bool :=
  bool_decide (name ∈ ["crate"; "super"; "self"; "std"; "core"; "alloc"]).

(** [qualify_type_with_super]; arguments in parentheses are qualified only in
    bounds, by [qualify_path_with_super]. *)
Fixpoint qualify_type_with_super (ty : Ty) : Ty :=
  match ty with
  | TyPath qself leading_colon segments =>
      if qself || leading_colon then ty
      else match segments with
           | [] => TyPath false false [("super", NoArgs)]
           | (first, _) :: _ =>
               if keeps_path first then ty
               else
                 let qualified_segments := map (λ seg, (seg.1, qualify_angle seg.2)) segments in
                 if is_prelude_or_primitive first then TyPath false false qualified_segments
                 else TyPath false false (("super", NoArgs) :: qualified_segments)
           end
  | TyReference elem => TyReference (qualify_type_with_super elem)
  | TyTuple elems => TyTuple (map qualify_type_with_super elems)
  | TyArray elem len => TyArray (qualify_type_with_super elem) len
  | TySlice elem => TySlice (qualify_type_with_super elem)
  | TyParen elem => TyParen (qualify_type_with_super elem)
  | TyTraitObject bounds => TyTraitObject (map qualify_bound bounds)
  | TyImplTrait bounds => TyImplTrait (map qualify_bound bounds)
  | TyBareFn inputs output =>
      TyBareFn (map qualify_type_with_super inputs) (option_map qualify_type_with_super output)
  | TyOther _ => ty
  end
with qualify_angle (args : PathArgs) : PathArgs :=
  match args with
  | AngleBracketed args => AngleBracketed (map qualify_arg args)
  | _ => args
  end
with qualify_path_args (args : PathArgs) : PathArgs :=
  match args with
  | NoArgs => NoArgs
  | AngleBracketed args => AngleBracketed (map qualify_arg args)
  | Parenthesized inputs output =>
      Parenthesized (map qualify_type_with_super inputs) (option_map qualify_type_with_super output)
  end
with qualify_arg (arg : GenericArg) : GenericArg :=
  match arg with GType ty => GType (qualify_type_with_super ty) | GOther _ => arg end
with qualify_bound (bound : Bound) : Bound :=
  match bound with
  | BTrait segments => BTrait (map (λ seg, (seg.1, qualify_path_args seg.2)) segments)
  | BOther _ => bound
  end.

(** [qualify_path_with_super], on the path of a bound. *)
Definition qualify_path_with_super (segments : list (string * PathArgs)) : list (string * PathArgs) :=
  map (λ seg, (seg.1, qualify_path_args seg.2)) segments.
Lemma qualify_bound_path segments : qualify_bound (BTrait segments) = BTrait (qualify_path_with_super segments).
Proof. reflexivity. Qed.
