(* ===== verification/MacroTypes.v ===== *)
(** * What the types of generated messages mean

    [#[protocol]] puts the messages of a trait in a module of their own, with
    [use super::*], and rewrites the types of their fields with
    [qualify_type_with_super]. Here a type means the definitions its paths
    lead to, by Rust's rules for the first segment of a path: the items of the
    module, then the extern crates, then the prelude. The theorem says for
    which types the rewriting keeps the meaning, and the examples after it
    show the types it changes. *)

From Stdlib Require Import Strings.Ascii.
From S2P Require Import Prelude MacroNames.

(** ** Induction on types *)

Section induction.
  Context (P : Ty → Prop) (Q : PathArgs → Prop) (R : GenericArg → Prop) (B : Bound → Prop).
  Context (HPath : ∀ q l segs, Forall (λ seg : string * PathArgs, Q seg.2) segs → P (TyPath q l segs)).
  Context (HRef : ∀ t, P t → P (TyReference t)) (HTuple : ∀ ts, Forall P ts → P (TyTuple ts)).
  Context (HArray : ∀ t len, P t → P (TyArray t len)) (HSlice : ∀ t, P t → P (TySlice t)).
  Context (HParen : ∀ t, P t → P (TyParen t)).
  Context (HObj : ∀ bs, Forall B bs → P (TyTraitObject bs)) (HImpl : ∀ bs, Forall B bs → P (TyImplTrait bs)).
  Context (HFn : ∀ ins out, Forall P ins → from_option P True out → P (TyBareFn ins out)).
  Context (HOther : ∀ s, P (TyOther s)).
  Context (HNo : Q NoArgs) (HAngle : ∀ gs, Forall R gs → Q (AngleBracketed gs)).
  Context (HPar : ∀ ins out, Forall P ins → from_option P True out → Q (Parenthesized ins out)).
  Context (HG : ∀ t, P t → R (GType t)) (HGO : ∀ s, R (GOther s)).
  Context (HB : ∀ segs, Forall (λ seg : string * PathArgs, Q seg.2) segs → B (BTrait segs)) (HBO : ∀ s, B (BOther s)).

Definition every {A : Type} {T : A → Prop} (f : ∀ x, T x) : ∀ l, Forall T l :=
  fix go l := match l with [] => @List.Forall_nil A T | x :: l => @List.Forall_cons A T x l (f x) (go l) end.
Definition every_seg (f : ∀ a, Q a) : ∀ l : list (string * PathArgs), Forall (λ seg, Q seg.2) l :=
  fix go l := match l with
              | [] => @List.Forall_nil _ (λ seg : string * PathArgs, Q seg.2)
              | (n, a) :: l => @List.Forall_cons _ (λ seg : string * PathArgs, Q seg.2) (n, a) l (f a) (go l)
              end.
Definition every_opt (f : ∀ t, P t) (o : option Ty) : from_option P True o :=
  match o with Some t => f t | None => I end.

Fixpoint ty_ind (t : Ty) : P t :=
  match t with
  | TyPath q l segs => HPath q l segs (every_seg args_ind segs)
  | TyReference t => HRef t (ty_ind t)
  | TyTuple ts => HTuple ts (every ty_ind ts)
  | TyArray t len => HArray t len (ty_ind t)
  | TySlice t => HSlice t (ty_ind t)
  | TyParen t => HParen t (ty_ind t)
  | TyTraitObject bs => HObj bs (every bound_ind bs)
  | TyImplTrait bs => HImpl bs (every bound_ind bs)
  | TyBareFn ins out => HFn ins out (every ty_ind ins) (every_opt ty_ind out)
  | TyOther s => HOther s
  end
with args_ind (a : PathArgs) : Q a :=
  match a with
  | NoArgs => HNo
  | AngleBracketed gs => HAngle gs (every garg_ind gs)
  | Parenthesized ins out => HPar ins out (every ty_ind ins) (every_opt ty_ind out)
  end
with garg_ind (g : GenericArg) : R g :=
  match g with GType t => HG t (ty_ind t) | GOther s => HGO s end
with bound_ind (b : Bound) : B b :=
  match b with BTrait segs => HB segs (every_seg args_ind segs) | BOther s => HBO s end.
End induction.

(** ** Meaning *)

Section meaning.
  Context {D : Type}.

(** A type as a tree: its shape, and at its paths the definitions. A segment's
    arguments are marked with how many segments follow. *)
Inductive Label :=
| LDef (d : option D)
| LQualified (names : list string)
| LArgs (after : nat)
| LAngle | LParens (returns : bool)
| LReference | LTuple | LArray (len : string) | LSlice | LParen | LDyn | LImpl | LFn (returns : bool)
| LText (text : string).
Inductive Meaning := Node (label : Label) (children : list Meaning).

(** [member d x] is [d::x]. *)
  Context (member : D → string → option D).
Definition walk (start : option D) (names : list string) : option D :=
  foldl (λ d x, d ≫= λ d, member d x) start names.

(** [lookup] is how the first segment of a path is found; [extern] finds the
    crate after a leading [::]. *)
  Context (extern : string → option D).
Definition find_path (lookup : string → option D) (leading_colon : bool) (names : list string) : option D :=
  match names with
  | [] => None
  | x :: rest => walk ((if leading_colon then extern else lookup) x) rest
  end.

Fixpoint seg_nodes (args : list (option Meaning)) : list Meaning :=
  match args with
  | [] => []
  | Some m :: rest => Node (LArgs (length rest)) [m] :: seg_nodes rest
  | None :: rest => seg_nodes rest
  end.
Definition opt_nodes (o : option Meaning) : list Meaning := match o with Some m => [m] | None => [] end.

Fixpoint meaning (lookup : string → option D) (ty : Ty) : Meaning :=
  match ty with
  | TyPath qself leading_colon segments =>
      Node (if qself then LQualified (map fst segments) else LDef (find_path lookup leading_colon (map fst segments)))
        (seg_nodes (map (λ seg, args_meaning lookup seg.2) segments))
  | TyReference t => Node LReference [meaning lookup t]
  | TyTuple ts => Node LTuple (map (meaning lookup) ts)
  | TyArray t len => Node (LArray len) [meaning lookup t]
  | TySlice t => Node LSlice [meaning lookup t]
  | TyParen t => Node LParen [meaning lookup t]
  | TyTraitObject bs => Node LDyn (map (bound_meaning lookup) bs)
  | TyImplTrait bs => Node LImpl (map (bound_meaning lookup) bs)
  | TyBareFn ins out => Node (LFn (bool_decide (is_Some out)))
      (map (meaning lookup) ins ++ opt_nodes (option_map (meaning lookup) out))
  | TyOther s => Node (LText s) []
  end
with args_meaning (lookup : string → option D) (args : PathArgs) : option Meaning :=
  match args with
  | NoArgs => None
  | AngleBracketed gs => Some (Node LAngle (map (garg_meaning lookup) gs))
  | Parenthesized ins out => Some (Node (LParens (bool_decide (is_Some out)))
      (map (meaning lookup) ins ++ opt_nodes (option_map (meaning lookup) out)))
  end
with garg_meaning (lookup : string → option D) (g : GenericArg) : Meaning :=
  match g with GType t => meaning lookup t | GOther s => Node (LText s) [] end
with bound_meaning (lookup : string → option D) (b : Bound) : Meaning :=
  match b with
  | BTrait segments => Node (LDef (find_path lookup false (map fst segments)))
      (seg_nodes (map (λ seg, args_meaning lookup seg.2) segments))
  | BOther s => Node (LText s) []
  end.

(** ** Types whose paths begin with names of a class *)

Definition head_ok (ok : string → bool) (names : list string) : bool :=
  match names with x :: _ => ok x | [] => true end.

Fixpoint heads (ok : string → bool) (ty : Ty) : bool :=
  match ty with
  | TyPath qself leading_colon segments =>
      (qself || leading_colon || head_ok ok (map fst segments)) && forallb (λ seg, args_heads ok seg.2) segments
  | TyReference t | TyArray t _ | TySlice t | TyParen t => heads ok t
  | TyTuple ts => forallb (heads ok) ts
  | TyTraitObject bs | TyImplTrait bs => forallb (bound_heads ok) bs
  | TyBareFn ins out => forallb (heads ok) ins && from_option (heads ok) true out
  | TyOther _ => true
  end
with args_heads (ok : string → bool) (args : PathArgs) : bool :=
  match args with
  | NoArgs => true
  | AngleBracketed gs => forallb (garg_heads ok) gs
  | Parenthesized ins out => forallb (heads ok) ins && from_option (heads ok) true out
  end
with garg_heads (ok : string → bool) (g : GenericArg) : bool :=
  match g with GType t => heads ok t | GOther _ => true end
with bound_heads (ok : string → bool) (b : Bound) : bool :=
  match b with
  | BTrait segments => head_ok ok (map fst segments) && forallb (λ seg, args_heads ok seg.2) segments
  | BOther _ => true
  end.

Lemma map_forallb {A B} (ok : A → bool) (f g : A → B) l :
  Forall (λ x, ok x = true → f x = g x) l → forallb ok l = true → map f l = map g l.
Proof.
  induction 1 as [|x l Hx Hl IH]; simpl; [done|]. intros [H1 H2]%andb_prop. by rewrite Hx, IH.
Qed.
Lemma opt_forallb {A B} (ok : A → bool) (f g : A → B) (o : option A) :
  from_option (λ x, ok x = true → f x = g x) True o → from_option ok true o = true → option_map f o = option_map g o.
Proof. destruct o; simpl; [|done]. by intros H1 H2; rewrite H1. Qed.

Lemma find_path_agree (l1 l2 : string → option D) ok colon names :
  (∀ x, ok x = true → l1 x = l2 x) → (colon || head_ok ok names) = true →
  find_path l1 colon names = find_path l2 colon names.
Proof. intros Hag Hok. destruct names as [|x names]; [done|]. destruct colon; simpl in *; [done|]. by rewrite Hag. Qed.

(** A type means the same in two scopes that agree on where its paths begin. *)
Lemma meaning_agree l1 l2 ok ty :
  (∀ x, ok x = true → l1 x = l2 x) → heads ok ty = true → meaning l1 ty = meaning l2 ty.
Proof.
  intros Hag.
  apply (ty_ind (λ t, heads ok t = true → meaning l1 t = meaning l2 t)
    (λ a, args_heads ok a = true → args_meaning l1 a = args_meaning l2 a)
    (λ g, garg_heads ok g = true → garg_meaning l1 g = garg_meaning l2 g)
    (λ b, bound_heads ok b = true → bound_meaning l1 b = bound_meaning l2 b)); simpl; intros; try done;
    repeat match goal with H : _ && _ = true |- _ => apply andb_prop in H as [? ?] end;
    repeat match goal with
           | Hf : Forall (λ x, ?ok x = true → ?f x = ?g x) ?l, Hb : forallb _ ?l = true |- _ =>
               rewrite (map_forallb ok f g l Hf Hb); clear Hb
           | Hf : Forall (λ seg, args_heads _ seg.2 = true → _) ?l, Hb : forallb _ ?l = true |- _ =>
               rewrite (map_forallb _ _ _ l Hf Hb); clear Hb
           | Ho : from_option _ True ?o, Hb : from_option _ true ?o = true |- _ =>
               rewrite (opt_forallb _ _ _ o Ho Hb); clear Hb
           end; try (by f_equal; f_equal; auto).
  - destruct q; [done|]. f_equal. f_equal. by eapply find_path_agree.
  - auto.
  - do 2 f_equal. by eapply find_path_agree.
Qed.

(** ** The scope of the trait and the scope of its messages *)

  (** [parent] is the module of the trait and [gen] the one generated in it,
      with the messages [structs] and the trait it imports, [Message]. *)
  Context (crate_root parent gen message : D) (above : option D).
  Context (prelude structs : string → option D).

Definition or_find (a b : option D) : option D := match a with Some d => Some d | None => b end.
Definition parent_lookup (x : string) : option D :=
  if decide (x = "crate") then Some crate_root
  else if decide (x = "super") then above
  else if decide (x = "self") then Some parent
  else or_find (member parent x) (or_find (extern x) (prelude x)).

(** The messages and the import come before what [use super::*] brings. *)
Definition generated_lookup (x : string) : option D :=
  if decide (x = "crate") then Some crate_root
  else if decide (x = "super") then Some parent
  else if decide (x = "self") then Some gen
  else or_find (structs x) (or_find (if decide (x = "Message") then Some message else member parent x)
         (or_find (extern x) (prelude x))).

(** Names that both scopes find in the same place. *)
Definition unaffected (x : string) : bool :=
  bool_decide (x ≠ "super" ∧ x ≠ "self" ∧ x ≠ "Message" ∧ structs x = None).

Lemma unaffected_same x : unaffected x = true → generated_lookup x = parent_lookup x.
Proof.
  intros (H1 & H2 & H3 & H4)%bool_decide_eq_true. unfold generated_lookup, parent_lookup.
  rewrite (decide_False (P := x = "super")), (decide_False (P := x = "self")), (decide_False (P := x = "Message")) by done.
  rewrite (decide_False (P := x = "super")), (decide_False (P := x = "self")) by done. by rewrite H4.
Qed.

(** The types the rewriting is right for: the names it prefixes are items of
    the parent, those it leaves are unaffected, and so is all of what it does
    not look into (the arguments of paths it keeps). *)
Fixpoint safe (ty : Ty) : bool :=
  match ty with
  | TyPath qself leading_colon segments =>
      negb qself &&
      (if leading_colon then forallb (λ seg, args_heads unaffected seg.2) segments
       else match segments with
            | [] => false
            | (first, _) :: _ =>
                if keeps_path first then unaffected first && forallb (λ seg, args_heads unaffected seg.2) segments
                else (if is_prelude_or_primitive first then unaffected first
                      else bool_decide (is_Some (member parent first))) &&
                     forallb (λ seg, safe_angle seg.2) segments
            end)
  | TyReference t | TyArray t _ | TySlice t | TyParen t => safe t
  | TyTuple ts => forallb safe ts
  | TyTraitObject bs | TyImplTrait bs => forallb safe_bound bs
  | TyBareFn ins out => forallb safe ins && from_option safe true out
  | TyOther _ => true
  end
with safe_angle (args : PathArgs) : bool :=
  match args with
  | NoArgs => true
  | AngleBracketed gs => forallb safe_garg gs
  | Parenthesized _ _ => args_heads unaffected args
  end
with safe_args (args : PathArgs) : bool :=
  match args with
  | NoArgs => true
  | AngleBracketed gs => forallb safe_garg gs
  | Parenthesized ins out => forallb safe ins && from_option safe true out
  end
with safe_garg (g : GenericArg) : bool :=
  match g with GType t => safe t | GOther _ => true end
with safe_bound (b : Bound) : bool :=
  match b with
  | BTrait segments => head_ok unaffected (map fst segments) && forallb (λ seg, safe_args seg.2) segments
  | BOther _ => true
  end.

Let PL := parent_lookup.
Let GL := generated_lookup.

Lemma map_forallb2 {A B} (ok : A → bool) (f : A → B) (g : A → A) (h : A → B) l :
  Forall (λ x, ok x = true → h (g x) = f x) l → forallb ok l = true → map h (map g l) = map f l.
Proof. intros Hf Hb. rewrite map_map. by eapply (map_forallb ok). Qed.
Lemma opt_forallb2 {A B} (ok : A → bool) (f : A → B) (g : A → A) (h : A → B) (o : option A) :
  from_option (λ x, ok x = true → h (g x) = f x) True o → from_option ok true o = true →
  option_map h (option_map g o) = option_map f o.
Proof. destruct o; simpl; [|done]. by intros H1 H2; rewrite H1. Qed.
Lemma is_Some_map {A B} (f : A → B) (o : option A) : bool_decide (is_Some (option_map f o)) = bool_decide (is_Some o).
Proof. by destruct o. Qed.

(** A path that is not kept leads from the generated module where it led from
    the parent. *)
Lemma find_path_super first rest :
  keeps_path first = false → is_Some (member parent first) →
  find_path GL false ("super" :: first :: rest) = find_path PL false (first :: rest).
Proof.
  intros Hk [d Hd]. unfold find_path, walk, GL, PL, generated_lookup, parent_lookup. simpl.
  apply bool_decide_eq_false in Hk.
  rewrite !(decide_False (P := first = _)) by (intros ->; apply Hk; set_solver).
  by rewrite Hd.
Qed.

Lemma args_agree segs :
  forallb (λ seg : string * PathArgs, args_heads unaffected seg.2) segs = true →
  map (λ seg : string * PathArgs, args_meaning GL seg.2) segs = map (λ seg, args_meaning PL seg.2) segs.
Proof.
  intros Hs.
  apply (map_forallb (λ seg : string * PathArgs, args_heads unaffected seg.2)); [|done].
  apply Forall_forall. intros [n a] _ Ha. simpl in *.
  pose proof (meaning_agree GL PL unaffected (TyPath true true [(n, a)]) unaffected_same) as Hm. simpl in Hm.
  rewrite Ha in Hm. specialize (Hm eq_refl). destruct (args_meaning GL a), (args_meaning PL a); simpl in Hm; congruence.
Qed.

Lemma paren_agree ins out :
  args_heads unaffected (Parenthesized ins out) = true →
  args_meaning GL (Parenthesized ins out) = args_meaning PL (Parenthesized ins out).
Proof.
  intros Ha. pose proof (args_agree [("", Parenthesized ins out)]) as Hm.
  change (args_heads unaffected (Parenthesized ins out) && true = true →
    [args_meaning GL (Parenthesized ins out)] = [args_meaning PL (Parenthesized ins out)]) in Hm.
  rewrite Ha in Hm. specialize (Hm eq_refl). congruence.
Qed.
Lemma segs_qualified (f : PathArgs → PathArgs) (ok : PathArgs → bool) segs :
  Forall (λ seg : string * PathArgs, ok seg.2 = true → args_meaning GL (f seg.2) = args_meaning PL seg.2) segs →
  forallb (λ seg : string * PathArgs, ok seg.2) segs = true →
  map (λ seg : string * PathArgs, args_meaning GL seg.2) (map (λ seg, (seg.1, f seg.2)) segs) =
    map (λ seg, args_meaning PL seg.2) segs.
Proof. intros Hf Hb. rewrite map_map. by apply (map_forallb (λ seg : string * PathArgs, ok seg.2)). Qed.
Lemma segs_names (f : PathArgs → PathArgs) (segs : list (string * PathArgs)) :
  map fst (map (λ seg, (seg.1, f seg.2)) segs) = map fst segs.
Proof. rewrite map_map. by apply map_ext. Qed.

Lemma meaning_path_qualified q l segs :
  Forall (λ seg : string * PathArgs, safe_angle seg.2 = true →
    args_meaning GL (qualify_angle seg.2) = args_meaning PL seg.2) segs →
  safe (TyPath q l segs) = true →
  meaning GL (qualify_type_with_super (TyPath q l segs)) = meaning PL (TyPath q l segs).
Proof.
  intros HQ Hs. destruct q; [done|]. simpl in Hs.
  assert (∀ c, head_ok unaffected (map fst segs) = true ∨ c = true →
    forallb (λ seg : string * PathArgs, args_heads unaffected seg.2) segs = true →
    meaning GL (TyPath false c segs) = meaning PL (TyPath false c segs)) as Hkeep.
  { intros c Hc Ha. simpl. rewrite args_agree by done. do 2 f_equal. eapply find_path_agree; [apply unaffected_same|].
    by destruct Hc as [->| ->]; [rewrite orb_true_r|]. }
  destruct l; [by apply (Hkeep true); [right|]|]. destruct segs as [|[first a] segs]; [done|].
  remember ((first, a) :: segs) as all eqn:Ea. cbn [qualify_type_with_super orb]. rewrite Ea at 1. rewrite Ea in Hs at 1.
  rewrite <- ?Ea in Hs. rewrite <- ?Ea.
  destruct (keeps_path first) eqn:Hk.
  { apply andb_prop in Hs as [H1 H2]. apply (Hkeep false); [left|done]. by rewrite Ea. }
  apply andb_prop in Hs as [H1 H2].
  assert (∀ pre, meaning GL (TyPath false false (pre ++ map (λ seg, (seg.1, qualify_angle seg.2)) all)) =
    Node (LDef (find_path GL false (map fst pre ++ map fst all)))
      (seg_nodes (map (λ seg : string * PathArgs, args_meaning GL seg.2) pre ++ map (λ seg, args_meaning PL seg.2) all))) as Hm.
  { intros pre. simpl. by rewrite !map_app, segs_names, (segs_qualified qualify_angle safe_angle). }
  destruct (is_prelude_or_primitive first).
  - etransitivity; [exact (Hm [])|]. simpl. do 2 f_equal. eapply find_path_agree; [apply unaffected_same|]. by rewrite Ea.
  - etransitivity; [exact (Hm [("super", NoArgs)])|]. simpl. do 2 f_equal. rewrite Ea. simpl map.
    apply find_path_super; [done|]. by apply bool_decide_eq_true in H1.
Qed.

End meaning.

(** ** A module of an application *)

(** Definitions by their absolute paths; the trait is in [app::room]. *)
Module Room.
Definition known : list (list string) :=
  [["app"]; ["app"; "Event"]; ["app"; "room"]; ["app"; "room"; "Event"]; ["app"; "room"; "room_protocol"];
   ["std"]; ["std"; "sync"]; ["std"; "sync"; "Arc"]; ["serde_json"]; ["serde_json"; "Value"]].
Definition member (d : list string) (x : string) : option (list string) :=
  if decide (d ++ [x] ∈ known) then Some (d ++ [x]) else None.
Definition extern (x : string) : option (list string) :=
  if decide (x ∈ ["std"; "serde_json"]) then Some [x] else None.
Definition prelude (x : string) : option (list string) :=
  if decide (x = "Vec") then Some ["std"; "vec"; "Vec"]
  else if decide (x = "String") then Some ["std"; "string"; "String"] else None.
Definition structs (methods : list string) (x : string) : option (list string) :=
  if decide (x ∈ map to_pascal_case methods) then Some ["app"; "room"; "room_protocol"; x] else None.
Definition in_trait : Ty → Meaning :=
  meaning member extern (parent_lookup member extern ["app"] ["app"; "room"] (Some ["app"]) prelude).
Definition in_message (methods : list string) (ty : Ty) : Meaning :=
  meaning member extern (generated_lookup member extern ["app"] ["app"; "room"] ["app"; "room"; "room_protocol"]
    ["spawned_concurrency"; "message"; "Message"] prelude (structs methods)) (qualify_type_with_super ty).

Definition path (names : list string) (args : list Ty) : Ty :=
  TyPath false false
    (imap (λ i x, (x, if decide (S i = length names ∧ args ≠ []) then AngleBracketed (map GType args) else NoArgs)) names).
End Room.


(** What the rewriting changes: it does not look into the arguments of a path
    it keeps, so [std::sync::Arc<Event>] holds the message [Event] instead of
    the event; [self::Event] and [super::Event] begin in the generated module;
    the path of an extern crate becomes one of an item that does not exist;
    and with a method [string], [String] is the message of that name. *)
Lemma qualification_misses :
  Room.in_message ["event"] (Room.path ["std"; "sync"; "Arc"] [Room.path ["Event"] []]) =
    Node (LDef (Some ["std"; "sync"; "Arc"]))
      [Node (LArgs 0) [Node LAngle [Node (LDef (Some ["app"; "room"; "room_protocol"; "Event"])) []]]] ∧
  Room.in_trait (Room.path ["super"; "Event"] []) = Node (LDef (Some ["app"; "Event"])) [] ∧
  Room.in_message ["join"] (Room.path ["super"; "Event"] []) = Node (LDef (Some ["app"; "room"; "Event"])) [] ∧
  Room.in_message ["join"] (Room.path ["self"; "Event"] []) = Node (LDef None) [] ∧
  Room.in_trait (Room.path ["serde_json"; "Value"] []) = Node (LDef (Some ["serde_json"; "Value"])) [] ∧
  Room.in_message ["join"] (Room.path ["serde_json"; "Value"] []) = Node (LDef None) [] ∧
  Room.in_message ["string"] (Room.path ["String"] []) = Node (LDef (Some ["app"; "room"; "room_protocol"; "String"])) [].
Proof. vm_compute. repeat split. Qed.
