(* ===== verification/MacroProtocol.v ===== *)
(** * The [#[protocol]] macro

    Model of [protocol] and [generate_blanket_impl] of [macros/src/lib.rs]: a
    trait becomes a module of message structs, a type-erased reference with its
    converter trait, and one blanket implementation for each runtime. The
    output is kept as the items that the macro writes; what they mean, under a
    configuration of [cfg] predicates and on the actors of [Requests], is
    defined after them. *)

From stdpp Require Import pretty.
From S2P Require Import Prelude Address Errors Backpressure Actor Requests MacroNames.

(** ** The trait *)

(** Attributes with the tokens of their [cfg] predicates; [ACfgAttr] is
    [cfg_attr(pred, ..)] with the predicates of the [cfg]s it adds. *)
Inductive Attribute :=
| ADoc (text : string)
| ACfg (pred : string)
| ACfgAttr (pred : string) (cfgs : list string) (text : string)
| AOther (path text : string).
#[global] Instance Attribute_eq_dec : EqDecision Attribute.
Proof. solve_decision. Defined.

Definition is_cfg (a : Attribute) : bool := match a with ACfg _ => true | _ => false end.
Definition is_cfg_attr (a : Attribute) : bool := match a with ACfgAttr _ _ _ => true | _ => false end.
Definition is_doc (a : Attribute) : bool := match a with ADoc _ => true | _ => false end.

Inductive Pat := PIdent (ident : string) | POther (text : string).
Inductive FnArg := Receiver (reference mutability : bool) | Typed (pat : Pat) (ty : Ty).

Record Signature := mkSignature {
  asyncness : bool;
  s_ident : string;
  inputs : list FnArg;
  output : ReturnType
}.
Inductive TraitItem := TFn (attrs : list Attribute) (sig : Signature) | TOther (text : string).
Record ItemTrait := mkItemTrait {
  t_ident : string;
  generics : list string;
  items : list TraitItem
}.

Inductive ProtocolError :=
| EGenerics
| ENotMethod (text : string)
| EAsync (sig : Signature)
| ENoSelf (sig : Signature)
| EPattern (text : string)
| EReturnType (ty : Ty).

(** ** The methods *)

Record ProtocolMethodInfo := mkMethodInfo {
  method_name : string;
  struct_name : string;
  field_names : list string;
  field_types : list Ty;
  kind : MethodKind;
  params : list FnArg;
  ret_type : ReturnType;
  method_attrs : list Attribute;
  cfg_attrs : list Attribute
}.

Definition takes_self (args : list FnArg) : bool :=
  match args with Receiver true false :: _ => true | _ => false end.

(** The parameters after [&self]. *)
Fixpoint collect_args (args : list FnArg) : Result (list string * list Ty) string :=
  match args with
  | [] => Ok ([], [])
  | Typed (PIdent x) ty :: args =>
      match collect_args args with Ok (xs, tys) => Ok (x :: xs, ty :: tys) | Err e => Err e end
  | Typed (POther text) _ :: _ => Err text
  | Receiver _ _ :: args => collect_args args
  end.

Definition read_method (attrs : list Attribute) (sig : Signature) : Result ProtocolMethodInfo ProtocolError :=
  if asyncness sig then Err (EAsync sig)
  else if negb (takes_self (inputs sig)) then Err (ENoSelf sig)
  else
    match collect_args (drop 1 (inputs sig)) with
    | Err text => Err (EPattern text)
    | Ok (field_names, field_types) =>
        match classify_return_type (output sig) with
        | Err ty => Err (EReturnType ty)
        | Ok kind =>
            Ok (mkMethodInfo (s_ident sig) (to_pascal_case (s_ident sig)) field_names field_types kind
                  (drop 1 (inputs sig)) (output sig)
                  (iter_filter (λ a, is_doc a || is_cfg a || is_cfg_attr a) attrs)
                  (iter_filter (λ a, is_cfg a || is_cfg_attr a) attrs))
        end
    end.

Fixpoint read_methods (items : list TraitItem) : Result (list ProtocolMethodInfo) ProtocolError :=
  match items with
  | [] => Ok []
  | TOther text :: _ => Err (ENotMethod text)
  | TFn attrs sig :: items =>
      match read_method attrs sig with
      | Err e => Err e
      | Ok m => match read_methods items with Ok ms => Ok (m :: ms) | Err e => Err e end
      end
  end.

(** ** The messages *)

Record MsgStruct := mkMsgStruct {
  st_attrs : list Attribute;
  st_name : string;
  st_clone : bool;
  st_fields : list (string * Ty);
  st_impl_attrs : list Attribute;
  st_result : Ty
}.
Definition unit_type : Ty := TyTuple [].
Definition msg_struct (m : ProtocolMethodInfo) : MsgStruct :=
  mkMsgStruct (method_attrs m) (struct_name m) (bool_decide (field_names m = []))
    (zip (field_names m) (map qualify_type_with_super (field_types m))) (cfg_attrs m)
    (match kind m with Send => unit_type | Request inner => qualify_type_with_super inner end).

(** ** The blanket implementations *)

Inductive RuntimeMode := ModeTasks | ModeThreads.

Inductive CfgCond := CPred (pred : string) | CAll (preds : list string) | CNot (c : CfgCond).

(** A marker trait: under [mk_positive] it has the supertraits [mk_bounds] and
    is implemented for every type that has them; under [mk_negated] it has none
    and is implemented for every type. A bound is the name of the message in
    [Handler<mod_name::Name>]. *)
Record Marker := mkMarker {
  mk_name : string;
  mk_positive : CfgCond;
  mk_negated : CfgCond;
  mk_bounds : list string
}.

(** [mod_name::Name { fields }] *)
Record MsgConstruct := mkConstruct { mc_mod : string; mc_struct : string; mc_fields : list string }.
Inductive Body :=
| LetSend (c : MsgConstruct)
| SelfSend (c : MsgConstruct)
| RequestWithTimeout (c : MsgConstruct)
| RequestReady (c : MsgConstruct).
Record MethodImpl := mkMethodImpl {
  mi_attrs : list Attribute;
  mi_name : string;
  mi_params : list FnArg;
  mi_ret : ReturnType;
  mi_body : Body
}.
Record BlanketImpl := mkBlanketImpl {
  markers : list Marker;
  handler_bounds : list string;
  marker_bounds : list string;
  method_impls : list MethodImpl
}.

Definition cfg_predicates (attrs : list Attribute) : list string :=
  omap (λ a, match a with ACfg p => Some p | _ => None end) attrs.

(** Methods with the same attributes form a group. *)
Definition Groups : Type := list (list Attribute * list ProtocolMethodInfo).
Fixpoint add_to_group (m : ProtocolMethodInfo) (groups : Groups) : Groups :=
  match groups with
  | [] => [(cfg_attrs m, [m])]
  | (k, ms) :: groups => if decide (k = cfg_attrs m) then (k, ms ++ [m]) :: groups else (k, ms) :: add_to_group m groups
  end.
Definition gated (m : ProtocolMethodInfo) : bool := negb (bool_decide (cfg_attrs m = [])).
Definition cfg_groups (methods : list ProtocolMethodInfo) : Groups :=
  foldl (λ groups m, add_to_group m groups) [] (iter_filter gated methods).

Definition mode_suffix (mode : RuntimeMode) : string := match mode with ModeTasks => "Tasks" | ModeThreads => "Threads" end.
Definition marker_of (trait_name : string) (mode : RuntimeMode) (i : nat)
    (group : list Attribute * list ProtocolMethodInfo) : Marker :=
  let cfg_attrs := match group.2 with m :: _ => cfg_attrs m | [] => [] end in
  let '(positive, negated) :=
    match cfg_predicates cfg_attrs with
    | [pred] => (CPred pred, CNot (CPred pred))
    | preds => (CAll preds, CNot (CAll preds))
    end in
  mkMarker ("__" +:+ trait_name +:+ "Cfg" +:+ pretty (N.of_nat i) +:+ mode_suffix mode) positive negated
    (struct_name <$> group.2).

Definition is_unit_return (ret : ReturnType) : bool := match ret with None => true | Some ty => is_unit_type ty end.
Definition method_impl (mod_name : string) (mode : RuntimeMode) (m : ProtocolMethodInfo) : MethodImpl :=
  let msg_construct := mkConstruct mod_name (struct_name m) (field_names m) in
  mkMethodImpl (method_attrs m) (method_name m) (params m) (ret_type m)
    (match kind m with
     | Send => if is_unit_return (ret_type m) then LetSend msg_construct else SelfSend msg_construct
     | Request _ => match mode with ModeTasks => RequestWithTimeout msg_construct | ModeThreads => RequestReady msg_construct end
     end).

Definition generate_blanket_impl (trait_name mod_name : string) (methods : list ProtocolMethodInfo)
    (mode : RuntimeMode) : BlanketImpl :=
  let markers := imap (marker_of trait_name mode) (cfg_groups methods) in
  mkBlanketImpl markers (struct_name <$> iter_filter (λ m, bool_decide (cfg_attrs m = [])) methods)
    (mk_name <$> markers) (method_impl mod_name mode <$> methods).

(** ** The macro *)

Record Output := mkOutput {
  trait_def : ItemTrait;
  ref_name : string;
  mod_name : string;
  msg_structs : list MsgStruct;
  converter_trait : string;
  converter_method : string;
  tasks_impl : BlanketImpl;
  threads_impl : BlanketImpl
}.

Definition protocol (t : ItemTrait) : Result Output ProtocolError :=
  if bool_decide (generics t ≠ []) then Err EGenerics
  else
    let base_name := strip_protocol_suffix (t_ident t) in
    let mod_name := to_snake_case (t_ident t) in
    match read_methods (items t) with
    | Err e => Err e
    | Ok methods =>
        Ok (mkOutput t (base_name +:+ "Ref") mod_name (msg_struct <$> methods)
              ("To" +:+ base_name +:+ "Ref") ("to_" +:+ to_snake_case base_name +:+ "_ref")
              (generate_blanket_impl (t_ident t) mod_name methods ModeTasks)
              (generate_blanket_impl (t_ident t) mod_name methods ModeThreads))
    end.
Definition impl_for (mode : RuntimeMode) (out : Output) : BlanketImpl :=
  match mode with ModeTasks => tasks_impl out | ModeThreads => threads_impl out end.

(** ** What compiles under a configuration *)

Definition attr_enabled (cfg : string → bool) (a : Attribute) : bool :=
  match a with
  | ACfg p => cfg p
  | ACfgAttr p cfgs _ => implb (cfg p) (forallb cfg cfgs)
  | _ => true
  end.
Definition enabled (cfg : string → bool) (attrs : list Attribute) : bool := forallb (attr_enabled cfg) attrs.
Fixpoint cond_holds (cfg : string → bool) (c : CfgCond) : bool :=
  match c with CPred p => cfg p | CAll ps => forallb cfg ps | CNot c => negb (cond_holds cfg c) end.

(** The messages an actor must handle for the implementation to apply. *)
Definition active_bounds (cfg : string → bool) (impl : BlanketImpl) : list string :=
  handler_bounds impl ++
  concat ((λ mk, if cond_holds cfg (mk_positive mk) then mk_bounds mk else []) <$> markers impl).
(** The messages that exist. *)
Definition present (cfg : string → bool) (out : Output) : list string :=
  st_name <$> iter_filter (λ st, enabled cfg (st_attrs st)) (msg_structs out).

(** ** Lemmas on the groups *)

Lemma iter_filter_split {A} (p : A → bool) l : l ≡ₚ iter_filter p l ++ iter_filter (λ x, negb (p x)) l.
Proof.
  induction l as [|x l IH]; [done|]. simpl. destruct (p x); simpl.
  - by rewrite <- IH.
  - rewrite <- Permutation_middle. by rewrite <- IH.
Qed.
Lemma iter_filter_perm {A} (p : A → bool) l k : l ≡ₚ k → iter_filter p l ≡ₚ iter_filter p k.
Proof.
  induction 1 as [|x l k _ IH|x y l|l1 l2 l3 _ IH1 _ IH2]; simpl; [done| | |by etransitivity].
  - destruct (p x); [by constructor|done].
  - destruct (p x), (p y); try done. constructor.
Qed.
Lemma iter_filter_concat {A} (p : A → bool) ls : iter_filter p (concat ls) = concat (iter_filter p <$> ls).
Proof. induction ls as [|l ls IH]; [done|]. simpl. by rewrite iter_filter_app, IH. Qed.
Lemma iter_filter_fmap {A B} (p : B → bool) (f : A → B) l : iter_filter p (f <$> l) = f <$> iter_filter (λ x, p (f x)) l.
Proof. induction l as [|x l IH]; [done|]. simpl. destruct (p (f x)); simpl; [f_equal|]; exact IH. Qed.
Lemma iter_filter_ext {A} (p q : A → bool) l : Forall (λ x, p x = q x) l → iter_filter p l = iter_filter q l.
Proof. induction 1 as [|x l Hx Hl IH]; [done|]. simpl. by rewrite Hx, IH. Qed.

Definition group_ok (g : list Attribute * list ProtocolMethodInfo) : Prop :=
  g.2 ≠ [] ∧ Forall (λ m, cfg_attrs m = g.1) g.2.

Lemma add_to_group_spec m groups :
  Forall group_ok groups →
  Forall group_ok (add_to_group m groups) ∧ concat (add_to_group m groups).*2 ≡ₚ m :: concat groups.*2.
Proof.
  induction 1 as [|[k ms] groups [Hne Hg] Hgs [IH1 IH2]]; simpl.
  - split; [|done]. repeat constructor; simpl; auto.
  - destruct (decide (k = cfg_attrs m)) as [->|Hk]; simpl.
    + split.
      * constructor; [|done]. split; simpl; [by destruct ms|]. apply Forall_app. auto.
      * rewrite <- app_assoc. simpl. by rewrite <- Permutation_middle.
    + split; [by constructor|]. by rewrite IH2, <- Permutation_middle.
Qed.
Lemma cfg_groups_spec methods :
  Forall group_ok (cfg_groups methods) ∧ concat (cfg_groups methods).*2 ≡ₚ iter_filter gated methods.
Proof.
  unfold cfg_groups. generalize (iter_filter gated methods). intros l.
  assert (∀ groups, Forall group_ok groups →
    Forall group_ok (foldl (λ g m, add_to_group m g) groups l) ∧
    concat (foldl (λ g m, add_to_group m g) groups l).*2 ≡ₚ concat groups.*2 ++ l) as Hl.
  { induction l as [|m l IH]; intros groups Hg; simpl; [by rewrite app_nil_r|].
    destruct (add_to_group_spec m groups Hg) as [H1 H2]. destruct (IH _ H1) as [H3 H4]. split; [done|].
    by rewrite H4, H2, <- Permutation_middle. }
  by apply (Hl []).
Qed.

(** The condition of a marker is that of the methods in its group. *)
Definition no_cfg_attr (m : ProtocolMethodInfo) : Prop := Forall (λ a, is_cfg_attr a = false) (cfg_attrs m).
Lemma enabled_predicates cfg attrs :
  Forall (λ a, is_cfg_attr a = false) attrs → enabled cfg attrs = forallb cfg (cfg_predicates attrs).
Proof. induction 1 as [|a attrs Ha Hs IH]; [done|]. destruct a; simpl in *; try done; by rewrite IH. Qed.
Lemma marker_condition cfg name mode i g m :
  group_ok g → m ∈ g.2 → no_cfg_attr m → cond_holds cfg (mk_positive (marker_of name mode i g)) = enabled cfg (cfg_attrs m).
Proof.
  intros [Hne Hg] Hm Hno. rewrite enabled_predicates by done. unfold marker_of.
  rewrite Forall_forall in Hg. rewrite (Hg m Hm). destruct g as [k [|m0 ms]]; [done|]. simpl in *.
  rewrite (Hg m0) by set_solver. destruct (cfg_predicates k) as [|p [|p' ps]]; simpl; by rewrite ?andb_true_r.
Qed.

(** Exactly one of the two definitions of a marker is compiled. *)
Lemma marker_defined_once cfg name mode i g :
  cond_holds cfg (mk_negated (marker_of name mode i g)) = negb (cond_holds cfg (mk_positive (marker_of name mode i g))).
Proof. unfold marker_of. destruct g as [k ms]. simpl. by destruct (cfg_predicates _) as [|p [|p' ps]]. Qed.

(** ** The bounds are those of the methods that exist *)

(** What holds of every method the macro has read. *)
Definition well_read (m : ProtocolMethodInfo) : Prop :=
  struct_name m = to_pascal_case (method_name m) ∧
  (∀ cfg, enabled cfg (method_attrs m) = enabled cfg (cfg_attrs m)) ∧
  length (field_names m) = length (field_types m).

Lemma collect_args_lengths args xs tys : collect_args args = Ok (xs, tys) → length xs = length tys.
Proof.
  revert xs tys. induction args as [|[?|[x|text] ty] args IH]; intros xs tys He; simplify_eq/=; [done|by apply IH|].
  destruct (collect_args args) as [[xs' tys']|]; simplify_eq/=. f_equal. by apply IH.
Qed.
Lemma enabled_filter cfg (p : Attribute → bool) attrs :
  (∀ a, p a = false → attr_enabled cfg a = true) → enabled cfg (iter_filter p attrs) = enabled cfg attrs.
Proof.
  intros Hp. induction attrs as [|a attrs IH]; [done|]. simpl. destruct (p a) eqn:Ha; simpl; rewrite IH; [done|].
  by rewrite Hp.
Qed.
Lemma read_method_well attrs sig m :
  read_method attrs sig = Ok m →
  well_read m ∧ method_name m = s_ident sig ∧ (∀ cfg, enabled cfg (cfg_attrs m) = enabled cfg attrs) ∧
  cfg_attrs m = iter_filter (λ a, is_cfg a || is_cfg_attr a) attrs.
Proof.
  unfold read_method. intros He. repeat case_match; simplify_eq/=.
  assert (∀ cfg, enabled cfg (iter_filter (λ a, is_cfg a || is_cfg_attr a) attrs) = enabled cfg attrs) as Hcf
    by (intros cfg; apply enabled_filter; by intros []).
  split; [|done]. split; [done|]. split; [|by eapply collect_args_lengths].
  intros cfg. cbn [method_attrs cfg_attrs]. rewrite Hcf. apply enabled_filter. by intros [].
Qed.
Lemma read_methods_Forall2 its ms :
  read_methods its = Ok ms →
  Forall2 (λ it m, ∃ attrs sig, it = TFn attrs sig ∧ read_method attrs sig = Ok m) its ms.
Proof.
  revert ms. induction its as [|[attrs sig|] its IH]; intros ms He; simplify_eq/=; [done|].
  destruct (read_method attrs sig) eqn:Hm; [|done]. destruct (read_methods its); simplify_eq/=. constructor; eauto.
Qed.
Lemma read_methods_well its ms : read_methods its = Ok ms → Forall well_read ms.
Proof.
  intros He%read_methods_Forall2. eapply Forall2_Forall_r; [done|]. apply Forall_forall.
  intros it _ m (attrs & sig & _ & Hm). by apply (read_method_well attrs sig).
Qed.

Lemma groups_active cfg name mode gs (i : nat) :
  Forall group_ok gs → Forall no_cfg_attr (concat gs.*2) →
  concat ((λ mk, if cond_holds cfg (mk_positive mk) then mk_bounds mk else []) <$> imap (λ j, marker_of name mode (i + j)) gs)
  = struct_name <$> iter_filter (λ m, enabled cfg (cfg_attrs m)) (concat gs.*2).
Proof.
  intros Hg. revert i. induction Hg as [|g gs Hok Hgs IH]; intros i Hno; [done|].
  cbn [fmap list_fmap concat] in Hno. apply Forall_app in Hno as [Hn1 Hn2].
  cbn [imap fmap list_fmap concat]. rewrite iter_filter_app, fmap_app. f_equal.
  - pose proof (λ m Hm, marker_condition cfg name mode (i + 0) g m Hok Hm (proj1 (Forall_forall _ _) Hn1 m Hm)) as Hc.
    assert (mk_bounds (marker_of name mode (i + 0) g) = struct_name <$> g.2) as Hb
      by (unfold marker_of; by case_match).
    rewrite Hb. destruct (cond_holds _ _) eqn:He.
    + rewrite iter_filter_all; [done|]. intros m Hm. by rewrite <- (Hc m Hm).
    + rewrite iter_filter_none; [done|]. intros m Hm. by rewrite <- (Hc m Hm).
  - rewrite <- (IH (S i) Hn2). f_equal. f_equal. apply imap_ext. intros j g' _. simpl. by rewrite Nat.add_succ_r.
Qed.

(** No attribute of the trait's methods is a [cfg_attr]. *)
Definition plain_cfgs (t : ItemTrait) : Prop :=
  Forall (λ it, match it with TFn attrs _ => Forall (λ a, is_cfg_attr a = false) attrs | TOther _ => True end) (items t).
#[global] Instance plain_cfgs_dec t : Decision (plain_cfgs t).
Proof. apply Forall_dec. intros []; apply _. Defined.

Lemma read_no_cfg_attr its ms :
  read_methods its = Ok ms →
  Forall (λ it, match it with TFn attrs _ => Forall (λ a, is_cfg_attr a = false) attrs | TOther _ => True end) its →
  Forall no_cfg_attr ms.
Proof.
  intros He%read_methods_Forall2. induction He as [|it m its ms (attrs & sig & -> & Hm) Hr IH]; [done|].
  intros Hp. inversion_clear Hp as [|? ? Ha Hp']. constructor; [|by apply IH].
  destruct (read_method_well attrs sig m Hm) as (_ & _ & _ & Hc). unfold no_cfg_attr. rewrite Hc.
  apply Forall_forall. intros a [Hin _]%elem_of_iter_filter. by apply (proj1 (Forall_forall _ _) Ha).
Qed.

Lemma protocol_ok t out :
  protocol t = Ok out → ∃ methods, read_methods (items t) = Ok methods ∧ msg_structs out = msg_struct <$> methods ∧
    mod_name out = to_snake_case (t_ident t) ∧
    ∀ mode, impl_for mode out = generate_blanket_impl (t_ident t) (to_snake_case (t_ident t)) methods mode.
Proof.
  unfold protocol. case_bool_decide; [done|]. destruct (read_methods (items t)) as [ms|]; [|done].
  intros He. simplify_eq. exists ms. split_and!; [done|done|done|by intros []].
Qed.

Lemma append_cancel_r (a b c : string) : a +:+ c = b +:+ c → a = b.
Proof.
  intros He. apply (f_equal String.list_ascii_of_string) in He.
  assert (∀ x y, String.list_ascii_of_string (x +:+ y) = String.list_ascii_of_string x ++ String.list_ascii_of_string y) as Ha.
  { intros x y. induction x as [|ch x IH]; [done|]. simpl. by rewrite IH. }
  rewrite !Ha in He. apply app_inv_tail in He.
  rewrite <- (String.string_of_list_ascii_of_string a), <- (String.string_of_list_ascii_of_string b). by rewrite He.
Qed.
Lemma marker_names_distinct name mode gs : NoDup (mk_name <$> imap (marker_of name mode) gs).
Proof.
  apply NoDup_alt. intros i j x. rewrite !list_lookup_fmap, !list_lookup_imap.
  destruct (gs !! i) as [g1|]; [|done]. destruct (gs !! j) as [g2|]; [|done]. simpl. intros [= H1] [= H2].
  assert (∀ n g, mk_name (marker_of name mode n g) = "__" +:+ name +:+ "Cfg" +:+ pretty (N.of_nat n) +:+ mode_suffix mode) as Hn
    by (intros n g; unfold marker_of; by case_match).
  rewrite Hn in H1, H2. rewrite <- H2 in H1. simplify_eq/=.
  apply append_cancel_r in H1. apply (inj pretty) in H1. lia.
Qed.

(** Filtering by existence, with the methods without attributes apart. *)
Lemma existing_split cfg ms :
  iter_filter (λ m, enabled cfg (cfg_attrs m)) ms ≡ₚ
    iter_filter (λ m, bool_decide (cfg_attrs m = [])) ms ++
    iter_filter (λ m, enabled cfg (cfg_attrs m)) (iter_filter gated ms).
Proof.
  rewrite (iter_filter_perm (λ m, enabled cfg (cfg_attrs m)) _ _ (iter_filter_split gated ms)), iter_filter_app.
  rewrite Permutation_app_comm. f_equiv.
  rewrite (iter_filter_ext (λ m, bool_decide (cfg_attrs m = [])) (λ x, negb (gated x)) ms)
    by (apply Forall_forall; intros m _; unfold gated; by case_bool_decide).
  rewrite (iter_filter_all (λ m, enabled cfg (cfg_attrs m))); [done|].
  intros m [_ Hg]%elem_of_iter_filter. unfold gated in Hg. case_bool_decide as Hc; [|done]. by rewrite Hc.
Qed.
Lemma blanket_bounds cfg mode name mname ms :
  Forall no_cfg_attr ms →
  active_bounds cfg (generate_blanket_impl name mname ms mode) ≡ₚ
    struct_name <$> iter_filter (λ m, enabled cfg (cfg_attrs m)) ms.
Proof.
  intros Hno. destruct (cfg_groups_spec ms) as [Hok Hperm].
  unfold active_bounds. cbn [generate_blanket_impl markers handler_bounds].
  etransitivity; [apply Permutation_app_head; eapply reflexive_eq; apply (groups_active cfg name mode (cfg_groups ms) 0 Hok)|].
  { rewrite Hperm. apply Forall_forall. intros m [Hin _]%elem_of_iter_filter.
    by apply (proj1 (Forall_forall _ _) Hno). }
  rewrite <- fmap_app. apply fmap_Permutation. rewrite (iter_filter_perm _ _ _ Hperm). symmetry. apply existing_split.
Qed.

Lemma protocol_bounds cfg mode t out :
  protocol t = Ok out → plain_cfgs t → active_bounds cfg (impl_for mode out) ≡ₚ present cfg out.
Proof.
  intros (ms & Hms & Hst & _ & Himpl)%protocol_ok Hp. rewrite Himpl.
  pose proof (read_no_cfg_attr _ _ Hms Hp) as Hno. pose proof (read_methods_well _ _ Hms) as Hw.
  rewrite blanket_bounds by done. unfold present. rewrite Hst, iter_filter_fmap, <- list_fmap_compose.
  rewrite (iter_filter_ext (λ m, enabled cfg (st_attrs (msg_struct m))) (λ m, enabled cfg (cfg_attrs m)) ms); [done|].
  eapply Forall_impl; [exact Hw|]. intros m (_ & He & _). apply He.
Qed.

(** For a trait whose methods are gated with [cfg] attributes only, and in
    every configuration: the messages that an actor must handle for
    [ActorRef<A>] to implement the trait are exactly the messages of the
    methods that exist in that configuration, in both runtimes; each marker
    trait is defined exactly once, and under its own name. *)
Theorem bounds_of_existing_methods cfg mode t out :
  protocol t = Ok out → plain_cfgs t →
  active_bounds cfg (impl_for mode out) ≡ₚ present cfg out ∧
  NoDup (marker_bounds (impl_for mode out)) ∧
  Forall (λ mk, cond_holds cfg (mk_negated mk) = negb (cond_holds cfg (mk_positive mk))) (markers (impl_for mode out)).
Proof.
  intros Hp Hpl. split; [by eapply protocol_bounds|]. apply protocol_ok in Hp as (ms & _ & _ & _ & Himpl). rewrite Himpl. split.
  - apply marker_names_distinct.
  - apply Forall_forall. intros mk Hmk. cbn [generate_blanket_impl markers] in Hmk.
    apply elem_of_lookup_imap in Hmk as (i & g & -> & _). apply marker_defined_once.
Qed.

(** ** Which traits are protocols *)

(** [Response<T, ..>], [Result<(), ..>], [()] or nothing, by the last segment
    of the path. *)
Inductive protocol_return : ReturnType → Prop :=
| ret_none : protocol_return None
| ret_unit : protocol_return (Some (TyTuple []))
| ret_response q l pre inner args :
    protocol_return (Some (TyPath q l (pre ++ [("Response", AngleBracketed (GType inner :: args))])))
| ret_result q l pre args :
    protocol_return (Some (TyPath q l (pre ++ [("Result", AngleBracketed (GType (TyTuple []) :: args))]))).

(** A method that takes [&self] and named parameters. *)
Inductive protocol_item : TraitItem → Prop :=
| item_method attrs name args ret :
    Forall (λ a, ∀ text ty, a ≠ Typed (POther text) ty) args → protocol_return ret →
    protocol_item (TFn attrs (mkSignature false name (Receiver true false :: args) ret)).

Lemma extract_inner_spec name ty inner :
  extract_inner name ty = Some inner ↔
    ∃ q l pre args, ty = TyPath q l (pre ++ [(name, AngleBracketed (GType inner :: args))]).
Proof.
  split.
  - unfold extract_inner. intros He. destruct ty as [q l segs|?|?|?|?|?|?|?|?|?]; try done.
    destruct (last segs) as [[ident a]|] eqn:Hl; [|done]. apply last_Some in Hl as [pre ->].
    repeat case_match; simplify_eq. eauto.
  - intros (q & l & pre & args & ->). unfold extract_inner. rewrite last_snoc. by rewrite decide_True.
Qed.
Lemma is_unit_type_spec ty : is_unit_type ty = true ↔ ty = TyTuple [].
Proof. split; [|by intros ->]. destruct ty as [| | [|] | | | | | | |]; simpl; try done. Qed.
Lemma classify_spec ret : is_ok (classify_return_type ret) = true ↔ protocol_return ret.
Proof.
  destruct ret as [ty|]; simpl; [|split; [constructor|done]].
  destruct (is_unit_type ty) eqn:Hu; [apply is_unit_type_spec in Hu as ->; split; [constructor|done]|].
  destruct (extract_response_inner ty) as [inner|] eqn:Hr.
  { split; [|done]. apply extract_inner_spec in Hr as (q & l & pre & args & ->). constructor. }
  split.
  - destruct (extract_result_inner ty) as [inner|] eqn:He; [|done].
    destruct (is_unit_type inner) eqn:Hi; [|done]. apply is_unit_type_spec in Hi as ->.
    apply extract_inner_spec in He as (q & l & pre & args & ->). constructor.
  - intros Hp. inversion Hp as [|He|q l pre inner args He|q l pre args He]; subst; [done| |].
    + by rewrite (proj2 (extract_inner_spec "Response" _ inner)) in Hr by eauto.
    + by rewrite (proj2 (extract_inner_spec "Result" _ (TyTuple []))) by eauto.
Qed.
Lemma collect_args_spec args :
  is_ok (collect_args args) = true ↔ Forall (λ a, ∀ text ty, a ≠ Typed (POther text) ty) args.
Proof.
  induction args as [|a args IH]; [split; [constructor|done]|]. rewrite Forall_cons, <- IH.
  destruct a as [|[x|text] ty]; simpl; [|destruct (collect_args args) as [[]|]; simpl|]; naive_solver.
Qed.
Lemma read_method_spec attrs sig : is_ok (read_method attrs sig) = true ↔ protocol_item (TFn attrs sig).
Proof.
  destruct sig as [asy name ins ret]. unfold read_method. simpl. split.
  - intros Hok. destruct asy; [done|]. destruct ins as [|[[] []|] args]; simpl in Hok; rewrite ?drop_0 in Hok; try done.
    pose proof (collect_args_spec args) as Hc. pose proof (classify_spec ret) as Hr.
    destruct (collect_args args) as [[]|]; [|done]. destruct (classify_return_type ret); [|done]. constructor; naive_solver.
  - intros Hp. inversion Hp as [? ? args ? Ha Hr]; subst. simpl. rewrite drop_0.
    apply collect_args_spec in Ha. apply classify_spec in Hr.
    destruct (collect_args args) as [[]|]; [|done]. by destruct (classify_return_type ret).
Qed.

(** A trait is a protocol exactly when it has no type parameters and has
    only methods, none of them [async], each taking [&self] and parameters
    named by identifiers, and returning nothing, [()], [Result<(), _>] or
    [Response<_>]; every other trait is refused with an error. *)
Theorem protocol_accepts t :
  is_ok (protocol t) = true ↔ generics t = [] ∧ Forall protocol_item (items t).
Proof.
  unfold protocol. case_bool_decide as Hg; [naive_solver|].
  transitivity (is_ok (read_methods (items t)) = true); [by destruct (read_methods (items t))|].
  transitivity (Forall protocol_item (items t)); [|naive_solver].
  induction (items t) as [|[attrs sig|text] its IH]; [split; [constructor|done]| |].
  - rewrite Forall_cons, <- IH, <- read_method_spec. simpl.
    destruct (read_method attrs sig); [|naive_solver]. destruct (read_methods its); naive_solver.
  - rewrite Forall_cons. split; [done|]. intros [Hp _]. inversion Hp.
Qed.

(** ** The names of the messages *)

Definition trait_methods (t : ItemTrait) : list string :=
  omap (λ it, match it with TFn _ sig => Some (s_ident sig) | TOther _ => None end) (items t).

Lemma structs_names t out : protocol t = Ok out → st_name <$> msg_structs out = to_pascal_case <$> trait_methods t.
Proof.
  intros (ms & Hms & -> & _)%protocol_ok. rewrite <- list_fmap_compose. unfold trait_methods.
  apply read_methods_Forall2 in Hms. induction Hms as [|it m its ms (attrs & sig & -> & Hm) Hr IH]; [done|].
  simpl. f_equal; [|exact IH]. destruct (read_method_well attrs sig m Hm) as ((-> & _) & -> & _). done.
Qed.

(** C40: When the methods are named by words of at least two letters separated
    by single underscores, no two messages have the same name, and
    [to_snake_case] recovers the method from the name of its message. *)
Theorem messages_name_methods t out :
  protocol t = Ok out → Forall snake_name (trait_methods t) → NoDup (trait_methods t) →
  NoDup (st_name <$> msg_structs out) ∧ to_snake_case <$> (st_name <$> msg_structs out) = trait_methods t.
Proof.
  intros Hp Hs Hnd. rewrite (structs_names t out Hp). split.
  - revert Hnd. induction Hs as [|x l Hx Hl IH]; [constructor|]. intros [Hn Hnd]%NoDup_cons.
    cbn [fmap list_fmap]. apply NoDup_cons. split; [|by apply IH].
    intros (y & He & Hy)%list_elem_of_fmap. apply Hn. rewrite (pascal_inj x y); [done|done| |done].
    by apply (proj1 (Forall_forall _ _) Hl).
  - rewrite <- list_fmap_compose. clear Hnd. induction Hs as [|x l Hx Hl IH]; [done|]. cbn [fmap list_fmap].
    f_equal; [by apply snake_of_pascal|exact IH].
Qed.

(** ** Calling a method *)

Section calls.
Context {V R : Type} `{ThisNode} (limits : ActorId → Limits).

(** A message: which struct of which module, and its fields. *)
Record MsgVal := mkMsgVal { mv_mod : string; mv_struct : string; mv_fields : list (string * V) }.

Inductive MethodResult :=
| RetUnit
| RetResult (r : Result () ActorError)
| RetResponse (r : ResponseState (T := R)).

(** The parameters in the body. *)
Definition param_name (a : FnArg) : option string := match a with Typed (PIdent x) _ => Some x | _ => None end.
Fixpoint bind_params (ps : list FnArg) (args : list V) : list (string * V) :=
  match ps, args with
  | p :: ps, v :: args => match param_name p with Some x => [(x, v)] | None => [] end ++ bind_params ps args
  | _, _ => []
  end.
Definition lookup_var (env : list (string * V)) (x : string) : option V := '(_, b) ← list_find (λ b, b.1 = x) env; Some b.2.

(** [mod::Struct { a, b }]; [None] when a name is not bound. *)
Definition construct (c : MsgConstruct) (env : list (string * V)) : option MsgVal :=
  vs ← mapM (lookup_var env) (mc_fields c);
  Some (mkMsgVal (mc_mod c) (mc_struct c) (zip (mc_fields c) vs)).

(** The body of a method of [ActorRef] for actor [i]; [ls] is what the system
    does while a request of the threads runtime blocks. *)
Definition call_method (ls : list (RLabel MsgVal R)) (i : ActorId) (mi : MethodImpl) (args : list V) (s : ReqSys MsgVal R)
    : option (MethodResult * ReqSys MsgVal R) :=
  let env := bind_params (mi_params mi) args in
  match mi_body mi with
  | LetSend c => m ← construct c env; '(_, s) ← send limits i m s; Some (RetUnit, s)
  | SelfSend c => m ← construct c env; '(r, s) ← send limits i m s; Some (RetResult r, s)
  | RequestWithTimeout c =>
      m ← construct c env; '(r, s) ← request_raw limits i m s;
      Some (RetResponse (from_with_timeout (match r with Ok _ => Ok OsOpen | Err e => Err e end)), s)
  | RequestReady c =>
      m ← construct c env; '(r, s) ← request_with_timeout limits ls i m s; Some (RetResponse (Ready r), s)
  end.

Lemma lookup_var_cons x (v : V) env y :
  lookup_var ((x, v) :: env) y = if decide (x = y) then Some v else lookup_var env y.
Proof.
  unfold lookup_var. simpl. destruct (decide (x = y)); [done|]. by destruct (list_find (λ b : string * V, b.1 = y) env) as [[]|].
Qed.
Lemma lookup_params xs (vs : list V) : NoDup xs → length vs = length xs → mapM (lookup_var (zip xs vs)) xs = Some vs.
Proof.
  intros Hnd. revert vs. induction Hnd as [|x xs Hx Hnd IH]; intros [|v vs] Hl; simplify_eq/=; [done|].
  rewrite lookup_var_cons, decide_True by done. simpl.
  rewrite (Forall_mapM_ext (lookup_var ((x, v) :: zip xs vs)) (lookup_var (zip xs vs))); [by rewrite IH|].
  apply Forall_forall. intros y Hy. rewrite lookup_var_cons, decide_False; [done|]. by intros ->.
Qed.

Definition typed (p : string * Ty) : FnArg := Typed (PIdent p.1) p.2.
Lemma bind_params_typed ps (args : list V) : length args = length ps → bind_params (typed <$> ps) args = zip ps.*1 args.
Proof. revert args. induction ps as [|p ps IH]; intros [|v args] Hl; simplify_eq/=; [done|]. by rewrite IH. Qed.
Lemma collect_args_typed ps : collect_args (typed <$> ps) = Ok (ps.*1, ps.*2).
Proof. induction ps as [|p ps IH]; [done|]. cbn [fmap list_fmap collect_args typed]. rewrite IH. done. Qed.

(** What a method's return type promises its caller. *)
Definition promised (mode : RuntimeMode) (ret : ReturnType) (ls : list (RLabel (MsgVal) R)) (i : ActorId) (m : MsgVal)
    (s : ReqSys MsgVal R) : option (MethodResult * ReqSys MsgVal R) :=
  if is_unit_return ret then '(_, s) ← send limits i m s; Some (RetUnit, s)
  else match ret ≫= extract_response_inner, mode with
       | None, _ => '(r, s) ← send limits i m s; Some (RetResult r, s)
       | Some _, ModeTasks =>
           '(r, s) ← request_raw limits i m s;
           Some (RetResponse match r with Ok _ => TimedReceiver OsOpen | Err e => Ready (Err e) end, s)
       | Some _, ModeThreads => '(r, s) ← request_with_timeout limits ls i m s; Some (RetResponse (Ready r), s)
       end.

Lemma call_method_promised mname mode attrs sig m ps args ls i (s : ReqSys MsgVal R) :
  read_method attrs sig = Ok m → inputs sig = Receiver true false :: (typed <$> ps) → NoDup ps.*1 → length args = length ps →
  call_method ls i (method_impl mname mode m) args s =
    promised mode (output sig) ls i (mkMsgVal mname (struct_name m) (zip ps.*1 args)) s.
Proof.
  intros Hm Hin Hnd Hl. unfold read_method in Hm. rewrite Hin in Hm. cbn [takes_self negb drop] in Hm.
  rewrite drop_0, collect_args_typed in Hm. destruct (asyncness sig); [done|].
  destruct (classify_return_type (output sig)) as [k|] eqn:Hk; simplify_eq.
  assert (∀ c, mc_fields c = ps.*1 →
    construct c (bind_params (typed <$> ps) args) = Some (mkMsgVal (mc_mod c) (mc_struct c) (zip ps.*1 args))) as Hc.
  { intros c Hf. unfold construct. rewrite bind_params_typed, Hf by done. rewrite lookup_params; [done|done|].
    by rewrite length_fmap. }
  unfold call_method, method_impl, promised. cbn [mi_params mi_body params ret_type kind struct_name field_names].
  destruct (output sig) as [ty|]; simpl in *; [|simplify_eq; by rewrite Hc].
  destruct (is_unit_type ty); [simplify_eq; by rewrite Hc|].
  destruct (extract_response_inner ty); [|repeat case_match; simplify_eq; by rewrite Hc].
  simplify_eq. destruct mode; simpl; rewrite Hc by done; [|done]. simpl. by destruct (request_raw _ _ _ _) as [[[]]|].
Qed.

(** C21: Calling a method of a protocol on an actor's reference. For every
    method of the trait, in both runtimes, the blanket implementation has a
    method of its name; its call puts one message in the actor's mailbox, the
    struct generated for the method with the arguments as its fields, and
    gives the caller what the return type promises: nothing, the result of the
    send, a response that waits for the reply (tasks), or the reply itself
    (threads). *)
Theorem method_call_sends t out mode attrs sig ps :
  protocol t = Ok out → TFn attrs sig ∈ items t →
  inputs sig = Receiver true false :: (typed <$> ps) → NoDup ps.*1 →
  ∃ mi st, mi ∈ method_impls (impl_for mode out) ∧ mi_name mi = s_ident sig ∧
    st ∈ msg_structs out ∧ st_name st = to_pascal_case (s_ident sig) ∧ st_fields st = prod_map id qualify_type_with_super <$> ps ∧
    ∀ args ls i (s : ReqSys MsgVal R), length args = length ps →
      call_method ls i mi args s =
        promised mode (output sig) ls i (mkMsgVal (mod_name out) (st_name st) (zip (st_fields st).*1 args)) s.
Proof.
  intros (ms & Hms & Hst & Hmod & Himpl)%protocol_ok Hin Hins Hnd.
  apply read_methods_Forall2 in Hms. apply list_elem_of_lookup in Hin as (n & Hn).
  destruct (Forall2_lookup_l _ _ _ _ _ Hms Hn) as (m & Hm & attrs' & sig' & [= <- <-] & Hread).
  apply list_elem_of_lookup_2 in Hm.
  destruct (read_method_well attrs sig m Hread) as ((Hsn & _) & Hmn & _).
  assert (st_fields (msg_struct m) = prod_map id qualify_type_with_super <$> ps) as Hf.
  { unfold read_method in Hread. rewrite Hins in Hread. cbn [takes_self negb drop] in Hread.
    rewrite drop_0, collect_args_typed in Hread. repeat case_match; simplify_eq. simpl.
    clear. induction ps as [|[x ty] ps IH]; [done|]. simpl. f_equal. exact IH. }
  exists (method_impl (to_snake_case (t_ident t)) mode m), (msg_struct m). split_and!.
  - rewrite Himpl. by apply list_elem_of_fmap_2.
  - done.
  - rewrite Hst. by apply list_elem_of_fmap_2.
  - cbn. by rewrite Hsn, Hmn.
  - done.
  - intros args ls i s Hl. rewrite (call_method_promised _ _ attrs sig m ps) by done. rewrite Hmod. f_equal. f_equal.
    rewrite Hf, <- list_fmap_compose. f_equal.
Qed.
End calls.
Arguments MsgVal V : clear implicits.

(** ** A protocol *)

Module Counter.
Definition name (x : string) (args : list Ty) : Ty :=
  TyPath false false [(x, match args with [] => NoArgs | _ => AngleBracketed (map GType args) end)].
Definition increment : Signature :=
  mkSignature false "increment" [Receiver true false; Typed (PIdent "amount") (name "u64" [])] None.
Definition get_count : Signature := mkSignature false "get_count" [Receiver true false] (Some (name "Response" [name "u64" []])).
Definition reset : Signature :=
  mkSignature false "reset_all" [Receiver true false] (Some (name "Result" [unit_type; name "ActorError" []])).
Definition gate (attrs : list Attribute) : ItemTrait :=
  mkItemTrait "CounterProtocol" []
    [TFn [ADoc "Adds."] increment; TFn [ACfg "unix"] get_count; TFn attrs reset].
Definition t : ItemTrait := gate [ADoc "Resets."; ACfg "unix"].
Definition unwrap (r : Result Output ProtocolError) : Output :=
  match r with Ok out => out | Err _ => mkOutput t "" "" [] "" "" (mkBlanketImpl [] [] [] []) (mkBlanketImpl [] [] [] []) end.
Definition out : Output := Eval vm_compute in unwrap (protocol t).
End Counter.

(** The names of the generated items. *)
Lemma counter_names :
  (ref_name Counter.out, mod_name Counter.out, converter_trait Counter.out, converter_method Counter.out) =
    ("CounterRef", "counter_protocol", "ToCounterRef", "to_counter_ref") ∧
  st_name <$> msg_structs Counter.out = ["Increment"; "GetCount"; "ResetAll"] ∧
  marker_bounds (tasks_impl Counter.out) = ["__CounterProtocolCfg0Tasks"].
Proof. vm_compute. done. Qed.

Lemma bounds_of_existing_methods_witness :
  active_bounds (λ _, false) (impl_for ModeTasks Counter.out) ≡ₚ ["Increment"] ∧
  active_bounds (λ p, bool_decide (p = "unix")) (impl_for ModeThreads Counter.out) ≡ₚ ["Increment"; "GetCount"; "ResetAll"].
Proof.
  split.
  - destruct (bounds_of_existing_methods (λ _, false) ModeTasks Counter.t Counter.out) as [Hb _];
      [vm_compute; reflexivity|apply (bool_decide_unpack _); vm_compute; exact I|exact Hb].
  - destruct (bounds_of_existing_methods (λ p, bool_decide (p = "unix")) ModeThreads Counter.t Counter.out) as [Hb _];
      [vm_compute; reflexivity|apply (bool_decide_unpack _); vm_compute; exact I|exact Hb].
Defined.

Lemma counter_snake : Forall snake_name (trait_methods Counter.t).
Proof.
  change (trait_methods Counter.t) with ["increment"; "get_count"; "reset_all"].
  rewrite !Forall_cons, Forall_nil. split_and!; [| | |done].
  - exists [chars "increment"]. split; [apply (bool_decide_unpack _); vm_compute; exact I|reflexivity].
  - exists [chars "get"; chars "count"]. split; [apply (bool_decide_unpack _); vm_compute; exact I|reflexivity].
  - exists [chars "reset"; chars "all"]. split; [apply (bool_decide_unpack _); vm_compute; exact I|reflexivity].
Qed.
Lemma messages_name_methods_witness :
  NoDup (st_name <$> msg_structs Counter.out) ∧
  to_snake_case <$> (st_name <$> msg_structs Counter.out) = ["increment"; "get_count"; "reset_all"].
Proof.
  apply (messages_name_methods Counter.t Counter.out).
  - vm_compute. reflexivity.
  - apply counter_snake.
  - apply (bool_decide_unpack _). vm_compute. exact I.
Defined.

(** [increment(5)] on the reference of actor 1. *)
Lemma method_call_sends_witness :
  let _ : ThisNode := node_new "n@h" in
  ∃ mi st, mi ∈ method_impls (impl_for ModeTasks Counter.out) ∧ mi_name mi = "increment" ∧
    st ∈ msg_structs Counter.out ∧ st_name st = "Increment" ∧ st_fields st = [("amount", Counter.name "u64" [])] ∧
    ∀ s : ReqSys (MsgVal nat) nat,
      call_method unlimited [] (from_raw 1) mi [5] s =
        '(_, s) ← send unlimited (from_raw 1) (mkMsgVal "counter_protocol" "Increment" [("amount", 5)]) s; Some (RetUnit, s).
Proof.
  intros nd.
  destruct (method_call_sends (V := nat) (R := nat) unlimited Counter.t Counter.out ModeTasks [ADoc "Adds."] Counter.increment
    [("amount", Counter.name "u64" [])]) as (mi & st & H1 & H2 & H3 & H4 & H5 & H6).
  - vm_compute. reflexivity.
  - constructor.
  - reflexivity.
  - apply (bool_decide_unpack _). vm_compute. exact I.
  - exists mi, st. split_and!; [exact H1|exact H2|exact H3|exact H4|exact H5|].
    intros s. rewrite H6 by reflexivity. rewrite H4, H5. reflexivity.
Defined.

(** A gate that comes with [cfg_attr] is not seen: where it removes the
    method's message, the implementation still requires its handler. *)
Lemma cfg_attr_gate_missed :
  let out := Counter.unwrap (protocol (Counter.gate [ACfgAttr "unix" ["tokio"] "cfg(tokio)"])) in
  let cfg p := bool_decide (p = "unix") in
  present cfg out = ["Increment"; "GetCount"] ∧
  active_bounds cfg (impl_for ModeTasks out) = ["Increment"; "GetCount"; "ResetAll"].
Proof. vm_compute. done. Qed.

(** Two methods may get the same message: [get_count] and [get__count]. *)
Lemma messages_may_clash : to_pascal_case "get_count" = to_pascal_case "get__count".
Proof. reflexivity. Qed.
