(* ===== verification/MacroActor.v ===== *)
(** * The [#[actor]], [#[remote_actor]] and [#[remote_message]] macros

    Model of the other macros of [macros/src/lib.rs]. [actor] reads its
    protocols, takes the lifecycle methods and the handlers out of an
    implementation block and infers the runtime; the theorem at the end joins
    it with [#[protocol]]: what the bridge assertion checks. *)

From S2P Require Import Prelude Address Errors Actor Requests MacroNames MacroProtocol.

(** ** [#[actor(protocol = X)]], [#[actor(protocol(X, Y))]] *)

Inductive Tok := TIdent (x : string) | TEq | TComma | TParens (content : list Tok) | TPunct (text : string).
Inductive AttrError := EUnknownParam (key : string) | EParse.

(** [content.parse_terminated(Ident::parse, Token![,])] *)
Fixpoint parse_terminated (toks : list Tok) : Result (list string) AttrError :=
  match toks with
  | [] => Ok []
  | [TIdent x] => Ok [x]
  | TIdent x :: TComma :: toks => match parse_terminated toks with Ok xs => Ok (x :: xs) | Err e => Err e end
  | _ => Err EParse
  end.

Fixpoint parse_protocols (toks : list Tok) : Result (list string) AttrError :=
  match toks with
  | [] => Ok []
  | TIdent key :: toks =>
      if decide (key ≠ "protocol") then Err (EUnknownParam key)
      else match toks with
           | TEq :: TIdent x :: TComma :: toks | TEq :: TIdent x :: toks =>
               match parse_protocols toks with Ok ys => Ok (x :: ys) | Err e => Err e end
           | TParens content :: TComma :: toks | TParens content :: toks =>
               match parse_terminated content with
               | Err e => Err e
               | Ok xs => match parse_protocols toks with Ok ys => Ok (xs ++ ys) | Err e => Err e end
               end
           | _ => Err EParse
           end
  | _ => Err EParse
  end.

(** ** The implementation block *)

Definition attr_is (x : string) (a : Attribute) : bool :=
  match a with
  | ADoc _ => bool_decide (x = "doc")
  | ACfg _ => bool_decide (x = "cfg")
  | ACfgAttr _ _ _ => bool_decide (x = "cfg_attr")
  | AOther path _ => bool_decide (x = path)
  end.
Definition has_attr (x : string) (attrs : list Attribute) : bool := existsb (attr_is x) attrs.
Definition is_handler_attr (a : Attribute) : bool :=
  attr_is "handler" a || attr_is "send_handler" a || attr_is "request_handler" a.

Record ImplItemFn := mkImplItemFn {
  fn_attrs : list Attribute;
  fn_vis : string;
  fn_sig : Signature;
  fn_body : string
}.
Inductive ImplItem := IFn (f : ImplItemFn) | IOther (text : string).

(** The error of a lifecycle method, with the name of its attribute. *)
Inductive ActorMacroError :=
| EAttr (e : AttrError)
| EOnlyOne (which : string) (sig : Signature)
| ECombined (which : string) (sig : Signature)
| EArity (which : string) (sig : Signature)
| EMutSelf (which : string) (sig : Signature)
| EHandlerArity (sig : Signature) (param_count : nat)
| EHandlerSignature (sig : Signature).

(** A method with [#[started]] or [#[stopped]], as [which] says; [already]:
    there was one before. *)
Definition lifecycle_method (which : string) (already : bool) (method : ImplItemFn) : Result ImplItemFn ActorMacroError :=
  let sig := fn_sig method in
  if already then Err (EOnlyOne which sig)
  else if existsb is_handler_attr (fn_attrs method) then Err (ECombined which sig)
  else if bool_decide (length (inputs sig) ≠ 2) then Err (EArity which sig)
  else match inputs sig with
       | Receiver _ true :: _ =>
           Ok (mkImplItemFn (iter_filter (λ a, negb (attr_is which a)) (fn_attrs method)) ""
                 (mkSignature (asyncness sig) which (inputs sig) (output sig)) (fn_body method))
       | _ => Err (EMutSelf which sig)
       end.

(** [started_method], [stopped_method], [has_async] and [items_to_keep] *)
Record Extracted := mkExtracted {
  x_started : option ImplItemFn;
  x_stopped : option ImplItemFn;
  x_async : bool;
  x_kept : list ImplItem
}.
Fixpoint extract_lifecycle (items : list ImplItem) (x : Extracted) : Result Extracted ActorMacroError :=
  match items with
  | [] => Ok x
  | item :: items =>
      let keep := mkExtracted (x_started x) (x_stopped x) (x_async x) (x_kept x ++ [item]) in
      match item with
      | IFn method =>
          if has_attr "started" (fn_attrs method) then
            match lifecycle_method "started" (bool_decide (is_Some (x_started x))) method with
            | Err e => Err e
            | Ok m => extract_lifecycle items
                        (mkExtracted (Some m) (x_stopped x) (asyncness (fn_sig m) || x_async x) (x_kept x))
            end
          else if has_attr "stopped" (fn_attrs method) then
            match lifecycle_method "stopped" (bool_decide (is_Some (x_stopped x))) method with
            | Err e => Err e
            | Ok m => extract_lifecycle items
                        (mkExtracted (x_started x) (Some m) (asyncness (fn_sig m) || x_async x) (x_kept x))
            end
          else extract_lifecycle items keep
      | IOther _ => extract_lifecycle items keep
      end
  end.

(** [impl Handler<hi_msg> for Self], whose [handle] calls [hi_calls]. *)
Record HandlerImpl := mkHandlerImpl {
  hi_attrs : list Attribute;
  hi_msg : Ty;
  hi_async : bool;
  hi_ret : Ty;
  hi_calls : string
}.

(** [method.attrs.remove(idx)] for the first handler attribute. *)
Fixpoint remove_handler_attr (attrs : list Attribute) : option (list Attribute) :=
  match attrs with
  | [] => None
  | a :: attrs => if is_handler_attr a then Some attrs else cons a <$> remove_handler_attr attrs
  end.
Definition marks_actor (a : Attribute) : bool := is_handler_attr a || attr_is "started" a || attr_is "stopped" a.

(** One method of the loop over the kept items: the method that stays, and the
    handler when it is one. *)
Definition process_method (method : ImplItemFn) : Result (ImplItemFn * option HandlerImpl) ActorMacroError :=
  match remove_handler_attr (fn_attrs method) with
  | None => Ok (method, None)
  | Some attrs =>
      let sig := fn_sig method in
      let extra_attrs := iter_filter (λ a, negb (marks_actor a)) attrs in
      if bool_decide (length (inputs sig) ≠ 3) then Err (EHandlerArity sig (length (inputs sig)))
      else match inputs sig !! 1 with
           | Some (Typed _ msg_ty) =>
               Ok (mkImplItemFn attrs (fn_vis method) sig (fn_body method),
                   Some (mkHandlerImpl extra_attrs msg_ty (asyncness sig) (default unit_type (output sig)) (s_ident sig)))
           | _ => Err (EHandlerSignature sig)
           end
  end.
Fixpoint process_items (items : list ImplItem) : Result (list ImplItem * list HandlerImpl) ActorMacroError :=
  match items with
  | [] => Ok ([], [])
  | IOther text :: items =>
      match process_items items with Ok (its, his) => Ok (IOther text :: its, his) | Err e => Err e end
  | IFn method :: items =>
      match process_method method with
      | Err e => Err e
      | Ok (m, h) =>
          match process_items items with
          | Ok (its, his) => Ok (IFn m :: its, match h with Some h => h :: his | None => his end)
          | Err e => Err e
          end
      end
  end.

Record ActorOutput := mkActorOutput {
  lifecycle_methods : list ImplItemFn;
  impl_items : list ImplItem;
  handler_impls : list HandlerImpl;
  runtime : RuntimeMode;
  bridge_asserts : list string
}.
Definition actor (attr : list Tok) (impl_block : list ImplItem) : Result ActorOutput ActorMacroError :=
  match parse_protocols attr with
  | Err e => Err (EAttr e)
  | Ok bridge_traits =>
      match extract_lifecycle impl_block (mkExtracted None None false []) with
      | Err e => Err e
      | Ok x =>
          match process_items (x_kept x) with
          | Err e => Err e
          | Ok (its, his) =>
              let has_async := x_async x || existsb hi_async his in
              Ok (mkActorOutput (omap id [x_started x; x_stopped x]) its his
                    (if has_async then ModeTasks else ModeThreads) bridge_traits)
          end
      end
  end.

(** ** [#[remote_actor]], [#[remote_message]] *)

Record ItemStruct := mkItemStruct { is_ident : string; is_generics : list string; is_fields : list (string * Ty) }.
Record RemoteImpl := mkRemoteImpl { ri_trait : string; ri_type : string; ri_generics : list string; ri_id : string }.
Definition remote_actor (input : ItemStruct) : ItemStruct * RemoteImpl :=
  (input, mkRemoteImpl "RemoteActor" (is_ident input) (is_generics input) (remote_id_from_type (is_ident input))).
Definition remote_message (input : ItemStruct) : ItemStruct * RemoteImpl :=
  (input, mkRemoteImpl "RemoteMessage" (is_ident input) (is_generics input) (remote_id_from_type (is_ident input))).

(** ** The attribute *)

(** The attribute as a user writes it. *)
Fixpoint commas (xs : list string) : list Tok :=
  match xs with [] => [] | [x] => [TIdent x] | x :: xs => TIdent x :: TComma :: commas xs end.
Definition print_spec (spec : string + list string) : list Tok :=
  TIdent "protocol" :: match spec with inl x => [TEq; TIdent x] | inr xs => [TParens (commas xs)] end.
Fixpoint print_specs (specs : list (string + list string)) : list Tok :=
  match specs with [] => [] | [spec] => print_spec spec | spec :: specs => print_spec spec ++ TComma :: print_specs specs end.
Definition named (specs : list (string + list string)) : list string :=
  concat ((λ spec, match spec with inl x => [x] | inr xs => xs end) <$> specs).

Lemma parse_commas xs : parse_terminated (commas xs) = Ok xs.
Proof. induction xs as [|x [|y xs] IH]; [done|done|]. simpl in *. by rewrite IH. Qed.

(** Every list of protocols that can be written is read back, in order. *)
Lemma protocols_roundtrip specs : parse_protocols (print_specs specs) = Ok (named specs).
Proof.
  induction specs as [|spec [|spec' specs] IH]; [done| |].
  - destruct spec; simpl; rewrite ?parse_commas; simpl; unfold named; simpl; by rewrite ?app_nil_r.
  - change (print_specs (spec :: spec' :: specs)) with (print_spec spec ++ TComma :: print_specs (spec' :: specs)).
    change (named (spec :: spec' :: specs)) with (match spec with inl x => [x] | inr xs => xs end ++ named (spec' :: specs)).
    generalize dependent (print_specs (spec' :: specs)). intros toks Ht.
    destruct spec; simpl; rewrite ?parse_commas; by rewrite Ht.
Qed.

(** ** What the block becomes *)

Definition is_lifecycle (f : ImplItemFn) : bool := has_attr "started" (fn_attrs f) || has_attr "stopped" (fn_attrs f).
Definition is_handler (f : ImplItemFn) : bool := negb (is_lifecycle f) && existsb is_handler_attr (fn_attrs f).

(** The items that stay, and the handlers among them. *)
Definition stays (it : ImplItem) : bool := match it with IFn f => negb (is_lifecycle f) | IOther _ => true end.
Definition as_handler (it : ImplItem) : option ImplItemFn :=
  match it with IFn f => if is_handler f then Some f else None | IOther _ => None end.
Definition makes_async (it : ImplItem) : bool :=
  match it with IFn f => asyncness (fn_sig f) && (is_lifecycle f || is_handler f) | IOther _ => false end.

(** [impl Handler<M>] for a method [fn f(&mut self, msg: M, ctx)]. *)
Definition handler_for (f : ImplItemFn) (h : HandlerImpl) : Prop :=
  hi_calls h = s_ident (fn_sig f) ∧ hi_async h = asyncness (fn_sig f) ∧ hi_ret h = default unit_type (output (fn_sig f)) ∧
  (∃ self pat ctx, inputs (fn_sig f) = [self; Typed pat (hi_msg h); ctx]) ∧
  ∀ cfg, enabled cfg (hi_attrs h) = enabled cfg (fn_attrs f).

Lemma remove_handler_attr_spec attrs :
  match remove_handler_attr attrs with
  | None => existsb is_handler_attr attrs = false
  | Some rest => existsb is_handler_attr attrs = true ∧ ∀ cfg, enabled cfg rest = enabled cfg attrs
  end.
Proof.
  induction attrs as [|a attrs IH]; [done|]. simpl. destruct (is_handler_attr a) eqn:Ha; simpl.
  - split; [done|]. intros cfg. by destruct a.
  - destruct (remove_handler_attr attrs); simpl; [|done]. destruct IH as [H1 H2]. split; [done|].
    intros cfg. cbn. by rewrite H2.
Qed.
Lemma lifecycle_method_async which already f m :
  lifecycle_method which already f = Ok m → asyncness (fn_sig m) = asyncness (fn_sig f) ∧ s_ident (fn_sig m) = which.
Proof. unfold lifecycle_method. intros He. repeat case_match; by simplify_eq. Qed.

Lemma extract_lifecycle_spec its x x' :
  extract_lifecycle its x = Ok x' →
  x_kept x' = x_kept x ++ iter_filter stays its ∧
  x_async x' = x_async x || existsb (λ it, match it with IFn f => asyncness (fn_sig f) && is_lifecycle f | _ => false end) its.
Proof.
  revert x. induction its as [|it its IH]; intros x He; [simplify_eq/=; by rewrite app_nil_r, orb_false_r|].
  simpl in He. destruct it as [f|text].
  2:{ destruct (IH _ He) as [-> ->]. simpl. by rewrite <- app_assoc. }
  simpl. unfold is_lifecycle. destruct (has_attr "started" (fn_attrs f)) eqn:Hst; [|destruct (has_attr "stopped" (fn_attrs f)) eqn:Hsp].
  - destruct (lifecycle_method _ _ f) as [m|] eqn:Hm; [|done]. destruct (IH _ He) as [-> ->]. simpl.
    destruct (lifecycle_method_async _ _ _ _ Hm) as [-> _]. split; [done|]. destruct (asyncness (fn_sig f)), (x_async x); done.
  - destruct (lifecycle_method _ _ f) as [m|] eqn:Hm; [|done]. destruct (IH _ He) as [-> ->]. simpl.
    destruct (lifecycle_method_async _ _ _ _ Hm) as [-> _]. split; [done|]. destruct (asyncness (fn_sig f)), (x_async x); done.
  - destruct (IH _ He) as [-> ->]. simpl. rewrite andb_false_r. by rewrite <- app_assoc.
Qed.

Lemma process_method_spec f m h :
  process_method f = Ok (m, h) → fn_sig m = fn_sig f ∧
  match h with
  | Some h => existsb is_handler_attr (fn_attrs f) = true ∧ handler_for f h
  | None => existsb is_handler_attr (fn_attrs f) = false ∧ m = f
  end.
Proof.
  unfold process_method. intros He. pose proof (remove_handler_attr_spec (fn_attrs f)) as Hr.
  destruct (remove_handler_attr (fn_attrs f)) as [rest|]; [|simplify_eq; done]. destruct Hr as [Hex Hen].
  case_bool_decide as Hlen; [done|]. destruct (inputs (fn_sig f)) as [|a1 [|a2 [|a3 [|]]]] eqn:Hin; try (simpl in Hlen; lia).
  simpl in He. destruct a2 as [|pat ty]; [done|]. simplify_eq. split; [done|]. split; [done|]. split_and!; simpl; eauto.
  intros cfg. rewrite enabled_filter; [apply Hen|]. by intros [].
Qed.

Lemma process_items_spec its its' his :
  process_items its = Ok (its', his) → Forall (λ it, stays it = true) its →
  Forall2 handler_for (omap as_handler its) his ∧
  omap (λ it, match it with IFn f => Some (fn_sig f) | _ => None end) its' =
    omap (λ it, match it with IFn f => Some (fn_sig f) | _ => None end) its.
Proof.
  revert its' his. induction its as [|[f|text] its IH]; intros its' his He Hst; simplify_eq/=.
  - done.
  - inversion_clear Hst as [|? ? Hf Hst']. destruct (process_method f) as [[m h]|] eqn:Hm; [|done].
    destruct (process_items its) as [[its2 his2]|]; [|done]. simplify_eq. destruct (IH _ _ eq_refl Hst') as [H1 H2].
    apply process_method_spec in Hm as [Hsig Hh]. split.
    + unfold is_handler. simpl in Hf. rewrite Hf. simpl. destruct h as [h|]; destruct Hh as [-> Hh]; [by constructor|done].
    + simpl. rewrite Hsig. by f_equal.
  - inversion_clear Hst as [|? ? Hf Hst']. destruct (process_items its) as [[its2 his2]|]; [|done]. simplify_eq.
    exact (IH _ _ eq_refl Hst').
Qed.

Lemma omap_stays its : omap as_handler (iter_filter stays its) = omap as_handler its.
Proof.
  induction its as [|[f|text] its IH]; [done| |exact IH]. simpl. unfold is_handler. destruct (is_lifecycle f) eqn:Hl; simpl; [exact IH|].
  unfold is_handler. rewrite Hl. simpl. destruct (existsb is_handler_attr (fn_attrs f)); [f_equal|]; exact IH.
Qed.
Lemma handlers_async fs his :
  Forall2 handler_for fs his → existsb hi_async his = existsb (λ f, asyncness (fn_sig f)) fs.
Proof. induction 1 as [|f h fs his (_ & Ha & _) _ IH]; [done|]. simpl. by rewrite Ha, IH. Qed.
Lemma makes_async_split its :
  existsb makes_async its =
    existsb (λ it, match it with IFn f => asyncness (fn_sig f) && is_lifecycle f | _ => false end) its ||
    existsb (λ f, asyncness (fn_sig f)) (omap as_handler its).
Proof.
  induction its as [|[f|text] its IH]; [done| |exact IH]. simpl. rewrite IH. unfold is_handler.
  destruct (is_lifecycle f); simpl; [|destruct (existsb is_handler_attr (fn_attrs f)); simpl];
    destruct (asyncness (fn_sig f)); simpl; rewrite ?orb_true_r, ?orb_false_r; done.
Qed.

Lemma actor_ok attr its out :
  actor attr its = Ok out →
  parse_protocols attr = Ok (bridge_asserts out) ∧
  Forall2 handler_for (omap as_handler its) (handler_impls out) ∧
  runtime out = (if existsb makes_async its then ModeTasks else ModeThreads) ∧
  omap (λ it, match it with IFn f => Some (fn_sig f) | _ => None end) (impl_items out) =
    omap (λ it, match it with IFn f => Some (fn_sig f) | _ => None end) (iter_filter stays its).
Proof.
  unfold actor. intros He. destruct (parse_protocols attr) as [bs|]; [|done].
  destruct (extract_lifecycle its _) as [x|] eqn:Hx; [|done]. destruct (extract_lifecycle_spec _ _ _ Hx) as [Hk Ha].
  simpl in Hk, Ha. destruct (process_items (x_kept x)) as [[its' his]|] eqn:Hp; [|done]. simplify_eq.
  rewrite Hk in Hp. apply process_items_spec in Hp as [H1 H2]; [|apply Forall_forall; by intros it [_ ?]%elem_of_iter_filter].
  rewrite omap_stays in H1. cbn [bridge_asserts handler_impls runtime impl_items].
  split_and!; [done|done| |done]. rewrite makes_async_split, Ha. by rewrite (handlers_async _ _ H1).
Qed.

(** What [#[actor]] makes of a block it accepts: one [Handler]
    implementation for each method with a handler attribute, in order, for the
    type of the method's second parameter, calling that method, [async] when it
    is, and present in the configurations where the method is; the runtime is
    [tasks] exactly when a lifecycle method or a handler is [async]; the other
    methods stay, and every protocol named gets its assertion. *)
Theorem actor_reads_block attr its out :
  actor attr its = Ok out →
  Forall2 handler_for (omap as_handler its) (handler_impls out) ∧
  (runtime out = ModeTasks ↔ ∃ f, IFn f ∈ its ∧ asyncness (fn_sig f) = true ∧ (is_lifecycle f = true ∨ is_handler f = true)) ∧
  omap (λ it, match it with IFn f => Some (fn_sig f) | _ => None end) (impl_items out) =
    omap (λ it, match it with IFn f => Some (fn_sig f) | _ => None end) (iter_filter stays its) ∧
  parse_protocols attr = Ok (bridge_asserts out).
Proof.
  intros (H1 & H2 & H3 & H4)%actor_ok. split_and!; [done| |done|done]. rewrite H3.
  transitivity (existsb makes_async its = true); [by destruct (existsb _ _)|]. rewrite existsb_exists. split.
  - intros ([f|text] & Hin & Hf); [|done]. simpl in Hf. apply andb_prop in Hf as [Ha Hb]. apply orb_prop in Hb.
    exists f. by rewrite list_elem_of_In.
  - intros (f & Hin & Ha & Hb). exists (IFn f). rewrite <- list_elem_of_In. split; [done|]. simpl. rewrite Ha.
    by destruct Hb as [->| ->]; [|rewrite orb_true_r].
Qed.

(** ** Protocol and actor *)

(** The message that a type names. *)
Definition message_of (ty : Ty) : option string := match ty with TyPath _ _ segs => fst <$> last segs | _ => None end.

(** An implementation of the [Handler] of a runtime: that of tasks is [async]. *)
Definition fits (mode : RuntimeMode) (h : HandlerImpl) : bool :=
  match mode with ModeTasks => hi_async h | ModeThreads => negb (hi_async h) end.

(** [_assert_bridge::<runtime::ActorRef<Self>>()] compiles: the blanket
    implementation of the inferred runtime applies to the actor. *)
Definition bridge_holds (cfg : string → bool) (pout : Output) (aout : ActorOutput) : Prop :=
  Forall (λ x, ∃ h, h ∈ handler_impls aout ∧ enabled cfg (hi_attrs h) = true ∧ fits (runtime aout) h = true ∧
                    message_of (hi_msg h) = Some x) (active_bounds cfg (impl_for (runtime aout) pout)).

(** The method takes the message in this configuration. *)
Definition takes (cfg : string → bool) (f : ImplItemFn) (x : string) : Prop :=
  enabled cfg (fn_attrs f) = true ∧ ∃ self pat ty ctx, inputs (fn_sig f) = [self; Typed pat ty; ctx] ∧ message_of ty = Some x.

Lemma handler_for_takes cfg f h x :
  handler_for f h → enabled cfg (hi_attrs h) = true ∧ message_of (hi_msg h) = Some x ↔ takes cfg f x.
Proof.
  intros (_ & _ & _ & (self & pat & ctx & Hin) & Hen). rewrite Hen. unfold takes. rewrite Hin. naive_solver.
Qed.

(** All methods of one colour: the runtime is that of the handlers. *)
Definition coloured (a : bool) (its : list ImplItem) : Prop :=
  Forall (λ it, match it with IFn f => is_lifecycle f || is_handler f = true → asyncness (fn_sig f) = a | _ => True end) its.
Lemma coloured_runtime a attr its out :
  actor attr its = Ok out → coloured a its → handler_impls out ≠ [] →
  Forall (λ h, fits (runtime out) h = true) (handler_impls out).
Proof.
  intros (_ & HF & Hr & _)%actor_ok Hc Hne. rewrite Hr. unfold coloured in Hc. rewrite Forall_forall in Hc.
  assert (∀ f, f ∈ omap as_handler its → IFn f ∈ its ∧ asyncness (fn_sig f) = a) as Hall.
  { intros f ([g|] & Hin & Hg)%list_elem_of_omap; simpl in Hg; [|done]. destruct (is_handler g) eqn:Hh; simplify_eq.
    split; [done|]. apply (Hc _ Hin). by rewrite Hh, orb_true_r. }
  assert (existsb makes_async its = a) as ->.
  { destruct a.
    - destruct (omap as_handler its) as [|f fs] eqn:Hf; [inversion HF; congruence|]. rewrite makes_async_split, Hf. simpl.
      destruct (Hall f ltac:(set_solver)) as [_ ->]. by rewrite orb_true_r.
    - apply not_true_iff_false. rewrite existsb_exists. intros ([f|] & Hin & Hf); [|done]. simpl in Hf.
      apply andb_prop in Hf as [Ha Hb]. rewrite <- list_elem_of_In in Hin. specialize (Hc _ Hin Hb). simpl in Hc. congruence. }
  eapply Forall2_Forall_r; [exact HF|]. apply Forall_forall. intros f Hf h (_ & Ha & _). destruct (Hall f Hf) as [_ Hfa].
  rewrite Hfa in Ha. unfold fits. by destruct a, (hi_async h).
Qed.

(** [#[actor(protocol = P)]] checks what it says. For a block whose
    lifecycle methods and handlers are all [async] or all not, with at least
    one handler, and a protocol gated with [cfg] only: in every configuration
    the assertion compiles exactly when each message of the protocol that
    exists there is taken by a handler method of the block that exists there. *)
Theorem bridge_checks_protocol cfg t pout attr its aout a :
  protocol t = Ok pout → plain_cfgs t → actor attr its = Ok aout → coloured a its → handler_impls aout ≠ [] →
  bridge_holds cfg pout aout ↔
    ∀ st, st ∈ msg_structs pout → enabled cfg (st_attrs st) = true →
      ∃ f, f ∈ omap as_handler its ∧ takes cfg f (st_name st).
Proof.
  intros Hp Hpl Ha Hc Hne. pose proof (protocol_bounds cfg (runtime aout) t pout Hp Hpl) as Hb.
  pose proof (coloured_runtime a attr its aout Ha Hc Hne) as Hfit. apply actor_ok in Ha as (_ & HF & _).
  unfold bridge_holds. rewrite Hb. unfold present. rewrite Forall_fmap, Forall_forall. rewrite Forall_forall in Hfit.
  setoid_rewrite elem_of_iter_filter. split.
  - intros H st Hst Hen. destruct (H st (conj Hst Hen)) as (h & Hh & He & _ & Hm).
    apply list_elem_of_lookup in Hh as (n & Hh). destruct (Forall2_lookup_r _ _ _ _ _ HF Hh) as (f & Hf & Hhf).
    exists f. split; [by eapply list_elem_of_lookup_2|]. by apply (handler_for_takes cfg f h _ Hhf).
  - intros H st [Hst Hen]. destruct (H st Hst Hen) as (f & Hf & Ht).
    apply list_elem_of_lookup in Hf as (n & Hf). destruct (Forall2_lookup_l _ _ _ _ _ HF Hf) as (h & Hh & Hhf).
    apply list_elem_of_lookup_2 in Hh. destruct (proj2 (handler_for_takes cfg f h _ Hhf) Ht) as [He Hm]. exists h. simpl.
    split_and!; auto.
Qed.

(** ** The ids of remote types *)

(** Two messages have the same id exactly when their structs have the same
    identifier: neither the module nor the type parameters are in the id. *)
Lemma remote_ids_by_ident a b :
  ri_id (remote_message a).2 = ri_id (remote_message b).2 ↔ is_ident a = is_ident b.
Proof.
  simpl. unfold remote_id_from_type. split; [|by intros ->]. intros He.
  apply (inj (String.append "spawned.")) in He. by apply append_cancel_r in He.
Qed.
(** So the messages [a::Ping], [b::Ping] and [Ping<T>] are one on the wire. *)
Lemma remote_ids_clash :
  ri_id (remote_message (mkItemStruct "Ping" [] [])).2 =
    ri_id (remote_message (mkItemStruct "Ping" ["T"] [("payload", Counter.name "T" [])])).2.
Proof. reflexivity. Qed.

(** ** An actor *)

Module CounterActor.
Definition handler (attrs : list Attribute) (name msg : string) (ret : ReturnType) : ImplItem :=
  IFn (mkImplItemFn attrs "" (mkSignature true name
    [Receiver true true; Typed (PIdent "msg") (Counter.name msg []); Typed (PIdent "_ctx") (TyReference (Counter.name "Context" [Counter.name "Self" []]))]
    ret) "..").
Definition on_start : ImplItem :=
  IFn (mkImplItemFn [AOther "started" ""] "" (mkSignature true "on_start"
    [Receiver true true; Typed (PIdent "_ctx") (TyReference (Counter.name "Context" [Counter.name "Self" []]))] None) "..").
Definition new : ImplItem := IFn (mkImplItemFn [] "pub" (mkSignature false "new" [] (Some (Counter.name "Self" []))) "..").
Definition block : list ImplItem :=
  [new; on_start;
   handler [AOther "send_handler" ""] "handle_increment" "Increment" None;
   handler [ACfg "unix"; AOther "request_handler" ""; AOther "inline" ""] "handle_get_count" "GetCount" (Some (Counter.name "u64" []))].
Definition attr : list Tok := [TIdent "protocol"; TEq; TIdent "CounterProtocol"].
Definition unwrap (r : Result ActorOutput ActorMacroError) : ActorOutput :=
  match r with Ok out => out | Err _ => mkActorOutput [] [] [] ModeThreads [] end.
Definition out : ActorOutput := Eval vm_compute in unwrap (actor attr block).
End CounterActor.

Lemma actor_reads_block_witness :
  Forall2 handler_for (omap as_handler CounterActor.block) (handler_impls CounterActor.out) ∧ runtime CounterActor.out = ModeTasks.
Proof.
  split; [|reflexivity]. apply (actor_reads_block CounterActor.attr CounterActor.block CounterActor.out).
  vm_compute. reflexivity.
Defined.

(** Without [unix] the actor has all that the protocol asks of it; with [unix]
    the assertion fails, because nothing takes [ResetAll]. *)
Lemma bridge_checks_protocol_witness :
  bridge_holds (λ _, false) Counter.out CounterActor.out ∧ ~ bridge_holds (λ _, true) Counter.out CounterActor.out.
Proof.
  assert (∀ cfg, bridge_holds cfg Counter.out CounterActor.out ↔
    ∀ st, st ∈ msg_structs Counter.out → enabled cfg (st_attrs st) = true →
      ∃ f, f ∈ omap as_handler CounterActor.block ∧ takes cfg f (st_name st)) as Hb.
  { intros cfg. apply (bridge_checks_protocol cfg Counter.t Counter.out CounterActor.attr CounterActor.block CounterActor.out true).
    - vm_compute. reflexivity.
    - apply (bool_decide_unpack _). vm_compute. exact I.
    - vm_compute. reflexivity.
    - repeat (apply Forall_cons_2; [first [intros _; reflexivity|intros Hd; discriminate Hd]|]). apply Forall_nil_2.
    - discriminate. }
  split.
  - apply Hb. intros st Hst Hen. unfold Counter.out in Hst. cbn [msg_structs] in Hst.
    rewrite !elem_of_cons in Hst. destruct Hst as [->|[->|[->|Hst%elem_of_nil]]]; try discriminate Hen; [|done].
    eexists. split; [apply elem_of_cons; left; reflexivity|]. split; [reflexivity|]. do 4 eexists. split; reflexivity.
  - intros Hh. destruct (proj1 (Hb (λ _, true)) Hh (List.nth 2 (msg_structs Counter.out) (mkMsgStruct [] "" false [] [] unit_type)))
      as (f & Hf & _ & self & pat & ty & ctx & Hin & Hm); [do 2 right; left|reflexivity|].
    apply list_elem_of_omap in Hf as (it & Hit & Hf). unfold CounterActor.block in Hit. rewrite !elem_of_cons in Hit.
    destruct Hit as [->|[->|[->|[->|Hit%elem_of_nil]]]]; [| | | |done]; vm_compute in Hf; simplify_eq/=.
Defined.

(** Every attribute of a handler but its own goes on the [impl] too, also one
    that the compiler only takes on functions. *)
Lemma attributes_go_on_the_impl :
  hi_attrs <$> handler_impls CounterActor.out = [[]; [ACfg "unix"; AOther "inline" ""]].
Proof. reflexivity. Qed.
